(* ===== verification/_CoqProject ===== *)
-Q . S2P
Prelude.v
FlowControl.v
ItemList.v
ControlBuf.v
Loopy.v
LoopyInv.v
LoopySpec.v
LoopyData.v
LoopyRun.v
Discovery.v
Wrr.v
Pickers.v
Alias.v
Balancer.v
Consist.v
GoText.v
HttpUtil.v
Headers.v
Frames.v
FramesSpec.v
MetaHeaders.v
Kerrors.v
RetryPolicy.v
Retryer.v
RetryDemo.v
RetryLoop.v
RetryRace.v
RetryRaceSpec.v
RetryContainer.v
ByteBuf.v
SkipDecoder.v
CodecBase.v
Crc.v
Codec.v
CodecDemo.v
CodecSpec.v
PbCodec.v
SharedTicker.v
ConnPool.v
ClientTransport.v
ClientSpec.v
ClientLive.v
Json.v
JsonSpec.v
Limiter.v
ServerTransport.v
ServerSpec.v
ServerClose.v
ServerResponse.v
ServerRuns.v
ThriftGeneric.v
ThriftGenericSpec.v
ThriftGenericIdl.v
ThriftGenericRead.v
ThriftGenericRuns.v
