(* ===== verification/Prelude.v ===== *)
(** * Verification of the Kitex RPC framework

    Kitex is a Go framework for remote procedure calls.  A client takes a call through
    retry, load balancing and circuit breaking, a codec turns the message into bytes, and
    a transport moves the bytes; the server undoes the steps.  This library models the parts
    of the source in which an algorithm has to be right, as executable definitions
    translated from the Go code under src/, and proves what each part promises.

    ** How Go is modelled

    Integers are [Z] with the wrap-around of their width written out ([u8] to [i64]
    below); strings of bytes are lists of [Byte.byte], texts the same; maps are [gmap]s and
    slices lists, or offsets into a shared memory where aliasing matters (ByteBuf.v).
    float64 is the standard library's [SpecFloat].  A call returns, fails or panics
    ([outcome]); stateful code is a function from a store to an outcome and the store it
    leaves ([M]), so that errors and panics keep their earlier effects.  Goroutines and
    locks are step relations whose steps are the sections under a lock or the single
    atomic operations.  Code that is not in the repository (hpack, netpoll, the ttheader
    and protobuf libraries, hashes, random numbers, the user's functions) is the argument of a
    type class that states what the documentation of that code promises, and each class has
    an instance on which the theorems are applied.

    ** The parts, their files and their theorems

    The gRPC transport (src/pkg/remote/trans/nphttp2/grpc).
    - FlowControl.v: flowcontrol.go, the write quota of a stream, the window of the
      connection and of a stream.  No wake-up is lost; the receiver's account is the peer's
      window; a sender that keeps to the window is never rejected.
    - ItemList.v: the intrusive lists of controlbuf.go refine lists.
    - ControlBuf.v: the control buffer as a concurrent object.  Every accepted item is
      delivered or orphaned exactly once; a reader makes progress.
    - Loopy.v, LoopyInv.v, LoopySpec.v, LoopyData.v, LoopyRun.v: the loopy writer, all its
      handlers, the data scheduler and the run loop.  Against every sequence of control
      frames the writer never panics, keeps to connection flow control, sends the bytes of
      a stream in order in legal frames, drains its queue, and is idle only when blocked.
    - GoText.v, HttpUtil.v, Headers.v: strconv, UTF-8 and base64 as the source uses them,
      http_util.go and the request headers of http2_client.go.  Encodings and request
      headers survive the round trip; a client always has a status to report.
    - ClientTransport.v, ClientSpec.v, ClientLive.v: the client transport of http2_client.go
      with the streams of transport.go.  A transport with its callers, reader, writer and
      ticker task is a list of goroutines, each a sequence of atomic steps ([exec], [lstep]);
      a Write waits for write quota, and closing a closed channel is a step to a state of its
      own.  Under every interleaving no channel is closed twice, the quota of concurrent streams
      is exact, no wake-up is lost while the server sets no header list limit, and a closed
      transport leaves no stream open and no caller waiting.
    - ServerTransport.v, ServerSpec.v, ServerClose.v, ServerResponse.v, ServerRuns.v: the
      server transport of http2_server.go, in the same style.  Under every interleaving the
      final GOAWAY is kept, each stream gets one well-formed response, a closed connection
      has cancelled every stream it accepted, and no goroutine panics as long as the client
      numbers its streams properly and does not acknowledge a GOAWAY nobody sent; two runs
      show the panics otherwise.  The status a handler returns is the one the client decodes.
    - Frames.v, FramesSpec.v, MetaHeaders.v: the HTTP/2 framer and the reassembly of header
      blocks (framer.go and golang.org/x/net's framer as vendored in grpcframe).  What is
      written is read back; any bytes are read without a panic; a header block is
      reassembled from its fragments.

    Client side routing and retry.
    - Discovery.v: the difference of two discovery results (src/pkg/discovery).
    - Wrr.v, Pickers.v, Alias.v, Consist.v, Balancer.v: the load balancers of
      src/pkg/loadbalance and the balancer cache of pickers.  A turn of each round-robin
      picker is fair, the alias method is total, consistent hashing moves only the keys of a
      removed node, and the cached picker serves the discovery result in force, as
      long as the weights are moderate: their sums are ints that wrap around, and the
      tables made from them are allocated, or panic when they are too large.
    - Kerrors.v: the framework's errors (src/pkg/kerrors).
    - RetryPolicy.v, Retryer.v, RetryLoop.v: policies and the failure retryer
      (src/pkg/retry).  [failure_do_spec] says which calls [Do] makes and what it
      returns, whatever the calls and the clock do; RetryDemo.v has the concrete world.
    - RetryRace.v, RetryRaceSpec.v: the backup and the mixed retryer, whose calls race, as
      step relations.  Every run ends, with a result one of the calls gave.
    - RetryContainer.v: the container of retryers under policy updates.
    - ConnPool.v: the long connection pool (src/pkg/remote/connpool) under every
      interleaving of its operations.  A connection has one owner and is closed once, and
      the idle ones keep to the limits.
    - SharedTicker.v: the ticker that runs the tasks of many transports or pools
      (src/pkg/utils/sharedticker.go).  It keeps ticking while tasks are deleted at most
      once.

    Messages.
    - ByteBuf.v: the default byte buffer (src/pkg/remote/default_bytebuf.go) over a memory
      of arrays refines a list of bytes with a read position.
    - SkipDecoder.v: the Thrift skip decoder (src/pkg/remote/codec/thrift) decides the
      grammar of the binary protocol.
    - CodecBase.v, Crc.v, Codec.v, CodecDemo.v, CodecSpec.v: the default codec
      (src/pkg/remote/codec), its headers, framing, sniffing, limits and checksums.  Any
      bytes are sniffed safely; a damaged payload is refused.
    - PbCodec.v: the protobuf payload codec, and a message end to end through both codecs.
    - ThriftGeneric.v, ThriftGenericSpec.v, ThriftGenericIdl.v, ThriftGenericRead.v,
      ThriftGenericRuns.v: generic Thrift calls (src/pkg/generic/thrift), which write and read
      messages given as Go maps by the descriptors of an IDL.  What one side writes the other
      reads as the value [expect] computes, whatever order Go iterates in; any bytes are read
      without a panic, into values of the descriptor's type.  The runs show what happens to
      messages that do not fit.
    - Json.v, JsonSpec.v: the hand-written JSON codec of string maps
      (src/pkg/utils/json.go), whose decoder returns parts of a buffer it overwrites.  It
      decodes as if the buffer were not touched, and maps survive the round trip.

    Server side protection.
    - Limiter.v: the connection and the rate limiter (src/pkg/limiter) under every
      interleaving of their atomic operations.  No more connections are accepted than the
      limit, no more calls than the refills; two lemmas show what a small limit and an early
      change of the interval do.

    ** Fuel and bounds

    Loops that are not structural take fuel, and the theorem about the loop shows that
    the fuel given is enough: the drain of the loopy writer takes the measure of the queued
    work, the read loop of a header block one turn more than there are frames in the input,
    the skip decoder one more than the bytes of the stream, the failure retryer one more than the
    retries the policy allows, the growth of a buffer 64 doublings, a generic message one more
    than its bytes when it is read and the depth of the value when it is written.  Running out of fuel is
    an outcome of its own where a caller could see it, and is proved not to happen.  The
    other bounds are the source's own: 2^31 and 2^32 for lengths and windows, 64 for the
    depth of a Thrift value, 4096 bytes for a checksum.  The runs of a client transport have
    fewer than 2^31 steps: each step takes at most one stream id, so the 32-bit ids and
    counters do not wrap; the source does not check them.  A server has fewer than
    2^31 - 1 descriptors and at most 2^31 calls in the rate limiter at once.

    ** Not modelled

    Sockets, the pools of HTTP/2 and short connections, the client's keepalive and the event
    loops that only move bytes; the streams over TTHeader; the server's and the client's option plumbing, tracing and statistics, which
    have no algorithm of their own; generic calls over HTTP, protobuf and dynamicgo and the code
    generator, which are drivers of third-party descriptor libraries; generated code and mocks.  Go's object pools are
    modelled by what they return, a cleared object, and the memory model of unsynchronised
    accesses is not: each modelled section is atomic.  In retry the time spent in a call is
    any interval the environment chooses.  Memory does not run out: an allocation of a size
    the runtime can address succeeds.

    ** This file

    The rest of this file is the shared vocabulary: integers and their widths, big-endian
    fields, outcomes and the error-state monad with its symbolic execution, lists indexed by
    Go's int, sums and counting. *)

From Stdlib Require Export ZArith Lia.
From Stdlib Require Import Strings.Byte.
From stdpp Require Export base tactics numbers option strings gmap list.

#[global] Open Scope Z_scope.

(** * Go's fixed-width integers

    A value of an integer type of width [w] is a [Z]; the two wrap functions write out
    what an assignment to that type keeps of an exact result. *)

Definition wrapU (w z : Z) : Z := z mod 2 ^ w.
Definition wrapS (w z : Z) : Z := (z + 2 ^ (w - 1)) mod 2 ^ w - 2 ^ (w - 1).

Definition u8 := wrapU 8.
Definition u16 := wrapU 16.
Definition u32 := wrapU 32.
Definition u64 := wrapU 64.
Definition i32 := wrapS 32.
Definition i64 := wrapS 64.

Definition MaxInt32 : Z := 2 ^ 31 - 1.
Definition MinInt32 : Z := - 2 ^ 31.
Definition MaxInt64 : Z := 2 ^ 63 - 1.

Create Rewrite HintDb width.

Lemma wrapU_id w z : 0 <= z < 2 ^ w -> wrapU w z = z.
Proof. apply Z.mod_small. Qed.

Lemma wrapU_range w z : 0 <= w -> 0 <= wrapU w z < 2 ^ w.
Proof. intros Hw. apply Z.mod_pos_bound. lia. Qed.

Lemma wrapS_id w z : 0 < w -> - 2 ^ (w - 1) <= z < 2 ^ (w - 1) -> wrapS w z = z.
Proof.
  intros Hw Hz. unfold wrapS.
  assert (2 ^ w = 2 * 2 ^ (w - 1)) as E.
  { replace w with (Z.succ (w - 1)) at 1 by lia. rewrite Z.pow_succ_r; lia. }
  rewrite Z.mod_small by lia. lia.
Qed.

Lemma wrapS_range w z : 0 < w -> - 2 ^ (w - 1) <= wrapS w z < 2 ^ (w - 1).
Proof.
  intros Hw. unfold wrapS.
  assert (2 ^ w = 2 * 2 ^ (w - 1)) as E.
  { replace w with (Z.succ (w - 1)) at 1 by lia. rewrite Z.pow_succ_r; lia. }
  assert (0 < 2 ^ (w - 1)) by lia.
  pose proof (Z.mod_pos_bound (z + 2 ^ (w - 1)) (2 ^ w)). lia.
Qed.

Lemma u32_id z : 0 <= z < 2 ^ 32 -> u32 z = z.
Proof. apply wrapU_id. Qed.
Lemma u32_range z : 0 <= u32 z < 2 ^ 32.
Proof. apply wrapU_range. lia. Qed.
Lemma u64_id z : 0 <= z < 2 ^ 64 -> u64 z = z.
Proof. apply wrapU_id. Qed.
Lemma u64_range z : 0 <= u64 z < 2 ^ 64.
Proof. apply wrapU_range. lia. Qed.
Lemma u16_id z : 0 <= z < 2 ^ 16 -> u16 z = z.
Proof. apply wrapU_id. Qed.
Lemma i32_id z : - 2 ^ 31 <= z < 2 ^ 31 -> i32 z = z.
Proof. apply (wrapS_id 32). lia. Qed.
Lemma i32_range z : - 2 ^ 31 <= i32 z < 2 ^ 31.
Proof. apply (wrapS_range 32). lia. Qed.
Lemma i64_id z : - 2 ^ 63 <= z < 2 ^ 63 -> i64 z = z.
Proof. apply (wrapS_id 64). lia. Qed.

(** [make] of a slice of [n] elements of [size] bytes panics when the slice is larger than
    the 2^48 bytes the runtime addresses. *)
Definition make_ok (size n : Z) : bool := (0 <=? n) && (size * n <=? 2 ^ 48).

Lemma i32_u32 v : - 2 ^ 31 <= v < 2 ^ 31 -> i32 (u32 v) = v.
Proof.
  intros Hv. unfold i32, u32, wrapS, wrapU. change (32 - 1) with 31. rewrite Z.add_mod_idemp_l by lia.
  rewrite Z.mod_small; lia.
Qed.

#[export] Hint Rewrite u32_id u64_id u16_id i32_id i64_id using lia : width.

(** Removes the wraps that lia shows to be the identity, innermost first. *)
Ltac unwrap :=
  repeat match goal with
  | |- context [u32 ?z] =>
      lazymatch z with context [u32 _] => fail | _ => rewrite (u32_id z) by lia end
  | |- context [i32 ?z] =>
      lazymatch z with context [u32 _] => fail | _ => rewrite (i32_id z) by lia end
  end.

(** Turns boolean comparisons in the context into propositions for lia. *)
Ltac bool_to_prop :=
  repeat match goal with
  | H : (_ && _) = true |- _ => apply andb_prop in H as []
  | H : (_ <? _) = true |- _ => apply Z.ltb_lt in H
  | H : (_ <? _) = false |- _ => apply Z.ltb_ge in H
  | H : (_ <=? _) = true |- _ => apply Z.leb_le in H
  | H : (_ <=? _) = false |- _ => apply Z.leb_gt in H
  | H : (_ =? _) = true |- _ => apply Z.eqb_eq in H
  | H : (_ =? _) = false |- _ => apply Z.eqb_neq in H
  end.

(** * Bytes and big-endian fields *)

Abbreviation byte := Byte.byte.

Definition byteZ (b : byte) : Z := Z.of_N (Byte.to_N b).
Definition Zbyte (z : Z) : byte :=
  match Byte.of_N (Z.to_N (z mod 256)) with Some b => b | None => x00 end.

Lemma byteZ_range b : 0 <= byteZ b < 256.
Proof. unfold byteZ. pose proof (Byte.to_N_bounded b). lia. Qed.

Lemma Zbyte_byteZ b : Zbyte (byteZ b) = b.
Proof.
  unfold Zbyte. rewrite Z.mod_small by apply byteZ_range.
  unfold byteZ. rewrite N2Z.id, Byte.of_to_N. reflexivity.
Qed.

Lemma byteZ_Zbyte z : byteZ (Zbyte z) = z mod 256.
Proof.
  unfold Zbyte. pose proof (Z.mod_pos_bound z 256 ltac:(lia)).
  destruct (Byte.of_N (Z.to_N (z mod 256))) as [b|] eqn:E.
  - apply Byte.to_of_N in E. unfold byteZ. rewrite E. lia.
  - apply Byte.of_N_None_iff in E. lia.
Qed.

#[export] Instance byteZ_inj : Inj (=) (=) byteZ.
Proof. intros a b E. rewrite <- (Zbyte_byteZ a), <- (Zbyte_byteZ b). by rewrite E. Qed.

#[export] Instance byte_eq_dec : EqDecision byte := Byte.byte_eq_dec.
#[export] Instance byte_countable : Countable byte := inj_countable' byteZ Zbyte Zbyte_byteZ.

(** [be_put n z] is what [binary.BigEndian.PutUint16/32] write, most significant byte
    first; [be_get] is what [Uint16/32] read back. *)
Fixpoint be_put (n : nat) (z : Z) : list byte :=
  match n with
  | O => []
  | S n => Zbyte (z / 256 ^ Z.of_nat n) :: be_put n z
  end.

Definition be_get (bs : list byte) : Z := foldl (fun acc b => acc * 256 + byteZ b) 0 bs.

Lemma length_be_put n z : length (be_put n z) = n.
Proof. induction n; simpl; congruence. Qed.

Lemma foldl_be_put acc n z :
  foldl (fun acc b => acc * 256 + byteZ b) acc (be_put n z)
  = acc * 256 ^ Z.of_nat n + z mod 256 ^ Z.of_nat n.
Proof.
  revert acc. induction n as [|n IH]; intros acc; cbn [be_put foldl].
  - change (Z.of_nat 0) with 0. rewrite Z.pow_0_r, Z.mod_1_r. lia.
  - rewrite IH, byteZ_Zbyte.
    rewrite Nat2Z.inj_succ, Z.pow_succ_r by lia.
    set (p := 256 ^ Z.of_nat n). assert (0 < p) by (subst p; lia).
    rewrite (Z.mul_comm 256 p), Z.rem_mul_r by lia. lia.
Qed.

Lemma be_get_put n z : be_get (be_put n z) = z mod 256 ^ Z.of_nat n.
Proof. unfold be_get. rewrite foldl_be_put. lia. Qed.

Lemma be_get_put_id n z : 0 <= z < 256 ^ Z.of_nat n -> be_get (be_put n z) = z.
Proof. intros. rewrite be_get_put. by apply Z.mod_small. Qed.

Lemma be_get_snoc bs b : be_get (bs ++ [b]) = be_get bs * 256 + byteZ b.
Proof. unfold be_get. by rewrite foldl_snoc. Qed.

Lemma be_get_range bs : 0 <= be_get bs < 256 ^ Z.of_nat (length bs).
Proof.
  induction bs as [|b bs IH] using rev_ind; [cbn; lia|].
  rewrite be_get_snoc, length_app, Nat2Z.inj_add. change (Z.of_nat (length [b])) with 1.
  rewrite Z.pow_add_r by lia. pose proof (byteZ_range b). lia.
Qed.

Lemma be_get_cons b bs : be_get (b :: bs) = byteZ b * 256 ^ Z.of_nat (length bs) + be_get bs.
Proof.
  induction bs as [|c bs IH] using rev_ind; [simpl; unfold be_get; simpl; lia|].
  rewrite app_comm_cons, !be_get_snoc, IH, length_app, Nat2Z.inj_add, Z.pow_add_r by lia.
  change (256 ^ Z.of_nat (length [c])) with 256. lia.
Qed.

Lemma be_put_shift n a z : be_put n (a * 256 ^ Z.of_nat n + z) = be_put n z.
Proof.
  revert a. induction n as [|n IH]; intros a; [done|]. cbn [be_put].
  rewrite Nat2Z.inj_succ, Z.pow_succ_r by lia.
  replace (a * (256 * 256 ^ Z.of_nat n) + z) with (a * 256 * 256 ^ Z.of_nat n + z) by lia.
  rewrite IH, (Z.add_comm _ z), Z.div_add by lia. f_equal.
  unfold Zbyte. by rewrite Z_mod_plus_full.
Qed.

(** Putting back what was read. *)
Lemma be_put_get bs : be_put (length bs) (be_get bs) = bs.
Proof.
  induction bs as [|b bs IH]; [done|]. rewrite be_get_cons. cbn [length be_put].
  rewrite be_put_shift, IH. f_equal. rewrite <- (Zbyte_byteZ b) at 2. f_equal.
  pose proof (be_get_range bs). rewrite Z.add_comm, Z.div_add, Z.div_small by lia. lia.
Qed.

(** * Outcomes and the error-state monad

    A Go call either returns, returns a non-nil error, or panics.  Stateful code is a
    function from the store to an outcome and the store it leaves: errors and panics keep
    the effects made before them. *)

Inductive outcome (E A : Type) : Type :=
| Ok (a : A)
| Err (e : E)
| Panic.
Arguments Ok {E A} a.
Arguments Err {E A} e.
Arguments Panic {E A}.

Definition M (S E A : Type) : Type := S -> outcome E A * S.

#[export] Instance M_ret S E : MRet (M S E) := fun A a s => (Ok a, s).
#[export] Instance M_bind S E : MBind (M S E) := fun A B k m s =>
  match m s with
  | (Ok a, s') => k a s'
  | (Err e, s') => (Err e, s')
  | (Panic, s') => (Panic, s')
  end.

Section monad.
Context {S E : Type}.

Definition throw {A} (e : E) : M S E A := fun s => (Err e, s).
Definition panic {A} : M S E A := fun s => (Panic, s).
Definition gets {A} (f : S -> A) : M S E A := fun s => (Ok (f s), s).
Definition modify (f : S -> S) : M S E unit := fun s => (Ok tt, f s).

(** [wp m s Q]: running [m] from [s] ends in an outcome and a store satisfying [Q].  A
    model is a total function, so this is total correctness. *)
Definition wp {A} (m : M S E A) (s : S) (Q : outcome E A -> S -> Prop) : Prop :=
  Q (fst (m s)) (snd (m s)).

Lemma wp_run {A} (m : M S E A) s Q r s' : m s = (r, s') -> wp m s Q -> Q r s'.
Proof. unfold wp. by intros ->. Qed.

Lemma wp_mono {A} (m : M S E A) s (Q Q' : outcome E A -> S -> Prop) :
  wp m s Q -> (forall r s', Q r s' -> Q' r s') -> wp m s Q'.
Proof. unfold wp. auto. Qed.

Lemma wp_ret {A} (a : A) s (Q : outcome E A -> S -> Prop) : Q (Ok a) s -> wp (mret a) s Q.
Proof. done. Qed.

Lemma wp_throw {A} e s (Q : outcome E A -> S -> Prop) : Q (Err e) s -> wp (throw e) s Q.
Proof. done. Qed.

Lemma wp_gets {A} (f : S -> A) s (Q : outcome E A -> S -> Prop) :
  Q (Ok (f s)) s -> wp (gets f) s Q.
Proof. done. Qed.

Lemma wp_modify f s (Q : outcome E unit -> S -> Prop) : Q (Ok tt) (f s) -> wp (modify f) s Q.
Proof. done. Qed.

Lemma wp_bind {A B} (m : M S E A) (k : A -> M S E B) s Q :
  wp m s (fun r s' => match r with
                      | Ok a => wp (k a) s' Q
                      | Err e => Q (Err e) s'
                      | Panic => Q Panic s'
                      end) ->
  wp (m ≫= k) s Q.
Proof. unfold wp, mbind, M_bind. destruct (m s) as [[a|e|] s']; auto. Qed.
End monad.

Arguments wp : simpl never.

(** Symbolic execution of a monadic definition: one rule per construct. *)
Ltac wp_step :=
  lazymatch goal with
  | |- wp (mbind _ _) _ _ => apply wp_bind
  | |- wp (mret _) _ _ => apply wp_ret
  | |- wp (throw _) _ _ => apply wp_throw
  | |- wp (gets _) _ _ => apply wp_gets
  | |- wp (modify _) _ _ => apply wp_modify
  | |- wp (let '(_, _) := ?x in _) _ _ => destruct x eqn:?
  | |- wp (if ?b then _ else _) _ _ => destruct b eqn:?
  | |- wp (match ?x with _ => _ end) _ _ => destruct x eqn:?
  end; cbn beta iota.

(** * Lists indexed by Go's [int] *)

Definition lenZ {A} (l : list A) : Z := Z.of_nat (length l).

(** [l[i]]: [None] where Go panics with an index out of range. *)
Definition at_ {A} (l : list A) (i : Z) : option A :=
  if decide (0 <= i) then l !! Z.to_nat i else None.

(** [l[i] = x]: [None] where Go panics. *)
Definition set_at {A} (l : list A) (i : Z) (x : A) : option (list A) :=
  if decide (0 <= i < lenZ l) then Some (<[Z.to_nat i := x]> l) else None.

Lemma at_lookup {A} (l : list A) i : 0 <= i -> at_ l i = l !! Z.to_nat i.
Proof. intros. unfold at_. by rewrite decide_True. Qed.

Lemma at_is_Some {A} (l : list A) i : is_Some (at_ l i) <-> 0 <= i < lenZ l.
Proof.
  unfold at_, lenZ. case_decide; [rewrite lookup_lt_is_Some; lia|].
  split; [intros [? [=]]|lia].
Qed.

Lemma set_at_middle {A} (l r : list A) i x y :
  i = lenZ l -> set_at (l ++ x :: r) i y = Some (l ++ y :: r).
Proof.
  intros ->. unfold set_at, lenZ. rewrite decide_True by (rewrite length_app; simpl; lia).
  f_equal. rewrite Nat2Z.id, <- (Nat.add_0_r (length l)), insert_app_r. done.
Qed.

(** Go's [copy(dst, src)]. *)
Definition copy_ {A} (dst src : list A) : list A := take (length dst) src ++ drop (length src) dst.

Lemma length_copy_ {A} (dst src : list A) : length (copy_ dst src) = length dst.
Proof. unfold copy_. rewrite length_app, length_take, length_drop. lia. Qed.

Lemma set_at_lookup {A} (l l' : list A) i j x :
  set_at l i x = Some l' -> at_ l' j = if decide (i = j) then Some x else at_ l j.
Proof.
  unfold set_at, at_, lenZ. case_decide as Hi; [|done]. intros [= <-].
  case_decide as Hj; case_decide as E; try lia; try done.
  - subst. rewrite list_lookup_insert_eq; [done|lia].
  - rewrite list_lookup_insert_ne; [done|lia].
Qed.

(** * Sums *)

Definition sumZ (l : list Z) : Z := foldr Z.add 0 l.

Lemma sumZ_app l1 l2 : sumZ (l1 ++ l2) = sumZ l1 + sumZ l2.
Proof. induction l1 as [|x l1 IH]; simpl; lia. Qed.

Lemma sumZ_nonneg l : Forall (fun x => 0 <= x) l -> 0 <= sumZ l.
Proof. induction 1; simpl; lia. Qed.

Lemma sumZ_perm l1 l2 : l1 ≡ₚ l2 -> sumZ l1 = sumZ l2.
Proof. induction 1; simpl; lia. Qed.

#[export] Instance sumZ_Proper : Proper ((≡ₚ) ==> (=)) sumZ.
Proof. intros l1 l2. apply sumZ_perm. Qed.

Lemma sumZ_cons x l : sumZ (x :: l) = x + sumZ l.
Proof. done. Qed.

Lemma sumZ_seq_S (f : nat -> Z) n : sumZ (f <$> seq 0 (S n)) = sumZ (f <$> seq 0 n) + f n.
Proof. rewrite seq_S, fmap_app, sumZ_app. simpl. lia. Qed.

Lemma sumZ_ext (f g : nat -> Z) n :
  (forall i, (i < n)%nat -> f i = g i) -> sumZ (f <$> seq 0 n) = sumZ (g <$> seq 0 n).
Proof.
  induction n as [|n IH]; intros H; [done|]. rewrite !sumZ_seq_S, IH by auto. by rewrite H by lia.
Qed.

Lemma sumZ_le (f g : nat -> Z) n :
  (forall i, (i < n)%nat -> f i <= g i) -> sumZ (f <$> seq 0 n) <= sumZ (g <$> seq 0 n).
Proof.
  induction n as [|n IH]; intros H; [done|]. rewrite !sumZ_seq_S.
  specialize (H n ltac:(lia)) as Hn. specialize (IH ltac:(auto)). lia.
Qed.

(** Pointwise smaller functions with equal sums are equal. *)
Lemma sumZ_le_eq (f g : nat -> Z) n :
  (forall i, (i < n)%nat -> f i <= g i) -> sumZ (f <$> seq 0 n) = sumZ (g <$> seq 0 n) ->
  forall i, (i < n)%nat -> f i = g i.
Proof.
  induction n as [|n IH]; intros H Hs i Hi; [lia|]. rewrite !sumZ_seq_S in Hs.
  pose proof (sumZ_le f g n ltac:(auto)). pose proof (H n ltac:(lia)).
  destruct (decide (i = n)) as [->|]; [lia|]. apply IH; [auto|lia|lia].
Qed.

Lemma sumZ_linear (a b : Z) (f g : nat -> Z) n :
  sumZ ((fun i => a * f i + b * g i) <$> seq 0 n)
  = a * sumZ (f <$> seq 0 n) + b * sumZ (g <$> seq 0 n).
Proof. induction n as [|n IH]; [simpl; lia|]. rewrite !sumZ_seq_S, IH. lia. Qed.

(** A sum over a list as a sum over its positions. *)
Lemma sumZ_by_index {A} (g : A -> Z) (l : list A) :
  sumZ (g <$> l) = sumZ ((fun i => match l !! i with Some x => g x | None => 0 end) <$> seq 0 (length l)).
Proof.
  induction l as [|x l IH] using rev_ind; [done|].
  rewrite fmap_app, sumZ_app, length_app, Nat.add_1_r, sumZ_seq_S.
  rewrite lookup_app_r, Nat.sub_diag by lia. simpl. f_equal; [|lia].
  rewrite IH. apply sumZ_ext. intros i Hi. by rewrite lookup_app_l.
Qed.

Lemma sumZ_insert {A} (f : A -> Z) (l : list A) k x y :
  l !! k = Some x -> sumZ (f <$> <[k := y]> l) = sumZ (f <$> l) - f x + f y.
Proof.
  intros Hk. rewrite <- (take_drop_middle l k x Hk) at 2.
  rewrite insert_take_drop by by eapply lookup_lt_Some.
  rewrite !fmap_app, !fmap_cons, !sumZ_app, !sumZ_cons. lia.
Qed.

Lemma sumZ_fmap_bound {A} (f g : A -> Z) (l : list A) :
  (forall x, x ∈ l -> f x <= g x) -> sumZ (f <$> l) <= sumZ (g <$> l).
Proof.
  induction l as [|x l IH]; intros H; [done|]. rewrite !fmap_cons, !sumZ_cons.
  pose proof (H x ltac:(left)). specialize (IH ltac:(intros; apply H; by right)). lia.
Qed.

Lemma sumZ_fmap_const {A} (l : list A) : sumZ ((fun _ => 1) <$> l) = lenZ l.
Proof. unfold lenZ. induction l as [|x l IH]; [done|]. rewrite fmap_cons, sumZ_cons, IH. simpl. lia. Qed.

(** * Counting *)

Definition cnt (i : nat) (js : list nat) : Z := Z.of_nat (count_occ Nat.eq_dec js i).

Lemma cnt_cons i j js : cnt i (j :: js) = (if decide (j = i) then 1 else 0) + cnt i js.
Proof.
  unfold cnt. simpl. destruct (Nat.eq_dec j i); [rewrite decide_True by done|rewrite decide_False by done]; lia.
Qed.

Lemma sumZ_indicator j n :
  (j < n)%nat -> sumZ ((fun i => if decide (j = i) then 1 else 0) <$> seq 0 n) = 1.
Proof.
  induction n as [|n IH]; intros Hj; [lia|]. rewrite sumZ_seq_S.
  destruct (decide (j = n)) as [->|Hne].
  - assert (sumZ ((fun i => if decide (n = i) then 1 else 0) <$> seq 0 n) = sumZ ((fun _ => 0) <$> seq 0 n)) as ->.
    { apply sumZ_ext. intros i Hi. rewrite decide_False; [done|lia]. }
    clear. assert (forall m, sumZ ((fun _ : nat => 0) <$> seq 0 m) = 0) as ->; [|lia].
    induction m as [|m IH]; [done|]. rewrite sumZ_seq_S. lia.
  - rewrite IH by lia. lia.
Qed.

Lemma cnt_app i js ks : cnt i (js ++ ks) = cnt i js + cnt i ks.
Proof. unfold cnt. rewrite count_occ_app. lia. Qed.

Lemma cnt_nonneg i js : 0 <= cnt i js.
Proof. unfold cnt. lia. Qed.

(** Every element is counted once. *)
Lemma sumZ_cnt js n :
  Forall (fun j => (j < n)%nat) js -> sumZ ((fun i => cnt i js) <$> seq 0 n) = lenZ js.
Proof.
  induction 1 as [|j js Hj _ IH].
  - induction n as [|n IH]; [done|]. rewrite sumZ_seq_S, IH. done.
  - assert (sumZ ((fun i => cnt i (j :: js)) <$> seq 0 n)
      = sumZ ((fun i => 1 * (if decide (j = i) then 1 else 0) + 1 * cnt i js) <$> seq 0 n)) as ->.
    { apply sumZ_ext. intros i _. rewrite cnt_cons. lia. }
    rewrite sumZ_linear, sumZ_indicator, IH by done. unfold lenZ. simpl. lia.
Qed.
