(* ===== verification/FlowControl.v ===== *)
(** HTTP/2 flow control of the gRPC transport
    (src/pkg/remote/trans/nphttp2/grpc/flowcontrol.go).

    [WriteQuota] is the soft limit a stream's writer waits on, as a step relation over one
    writer goroutine and the loopy goroutine; [TrInFlow] and [InFlow] are the receive
    windows of the connection and of a stream, related to the credit the peer holds. *)

From S2P Require Import Prelude.

Definition maxWindowSize : Z := MaxInt32.

(** * The write quota of a stream *)
Module WriteQuota.

(** [ch] is the one-slot channel: [true] when it holds a token.  [done] is the stream's
    done channel, [true] once closed. *)
Record writeQuota := mkQuota { quota : Z; ch : bool; done : bool }.

Definition newWriteQuota (sz : Z) : writeQuota := mkQuota sz false false.

(** Program counter of the goroutine inside [get]: before the load, between the load and
    the add, blocked in the select, returned [nil], returned [errStreamDone]. *)
Inductive getter :=
| GCheck (sz : Z)
| GAdd (sz : Z)
| GWait (sz : Z)
| GGot (sz : Z)
| GErr.

(** Program counter of the loopy goroutine inside [realReplenish]. *)
Inductive replenisher :=
| RIdle
| RSend.

Record state := mkState { wq : writeQuota; g : getter; r : replenisher }.

(** The atomic add of [realReplenish] and the decision to signal. *)
Definition replenish_add (n : Z) (w : writeQuota) : writeQuota * bool :=
  let sz := i32 n in
  let a := i32 (quota w + sz) in
  let b := i32 (a - sz) in
  (mkQuota a (ch w) (done w), (b <=? 0) && (0 <? a)).

(** The non-blocking send: a full channel keeps its token. *)
Definition replenish_send (w : writeQuota) : writeQuota := mkQuota (quota w) true (done w).

(** A step of [get] itself, or the signal [realReplenish] has decided to send: nothing that
    needs a new call, a new [replenish] or the end of the stream. *)
Inductive own_step : state -> state -> Prop :=
| step_load_pos w sz rp :
    0 < quota w -> own_step (mkState w (GCheck sz) rp) (mkState w (GAdd sz) rp)
| step_load_nonpos w sz rp :
    quota w <= 0 -> own_step (mkState w (GCheck sz) rp) (mkState w (GWait sz) rp)
| step_add w sz rp :
    own_step (mkState w (GAdd sz) rp)
         (mkState (mkQuota (i32 (quota w - sz)) (ch w) (done w)) (GGot sz) rp)
| step_recv w sz rp :
    ch w = true ->
    own_step (mkState w (GWait sz) rp) (mkState (mkQuota (quota w) false (done w)) (GCheck sz) rp)
| step_done w sz rp :
    done w = true -> own_step (mkState w (GWait sz) rp) (mkState w GErr rp)
| step_send w gp :
    own_step (mkState w gp RSend) (mkState (replenish_send w) gp RIdle).

(** The writer calls [get] with an int32, loopy calls [replenish] with the size of the DATA
    frame it has just written, and the stream may end at any time. *)
Inductive step : state -> state -> Prop :=
| step_own s s' : own_step s s' -> step s s'
| step_call w sz sz' rp :
    i32 sz' = sz' -> step (mkState w (GGot sz) rp) (mkState w (GCheck sz') rp)
| step_replenish w gp n :
    0 <= n <= MaxInt32 ->
    step (mkState w gp RIdle)
         (mkState (replenish_add n w).1 gp (if (replenish_add n w).2 then RSend else RIdle))
| step_close w gp rp :
    step (mkState w gp rp) (mkState (mkQuota (quota w) (ch w) true) gp rp).

Definition init (sz0 sz : Z) : state := mkState (newWriteQuota sz0) (GCheck sz) RIdle.

Definition reachable (sz0 sz : Z) (s : state) : Prop := rtc step (init sz0 sz) s.

(** A writer asleep while quota is available has its wake-up on the way. *)
Definition wake_inv (s : state) : Prop :=
  i32 (quota (wq s)) = quota (wq s) /\
  match g s with
  | GWait _ => 0 < quota (wq s) -> ch (wq s) = true \/ r s = RSend
  | _ => True
  end.

Lemma i32_idem z : i32 (i32 z) = i32 z.
Proof. apply i32_id, i32_range. Qed.

Lemma i32_add_sub q z : i32 q = q -> i32 (i32 (q + z) - z) = q.
Proof.
  intros Hq. rewrite <- Hq at 2. unfold i32, wrapS.
  change (32 - 1) with 31.
  replace ((q + z + 2 ^ 31) mod 2 ^ 32 - 2 ^ 31 - z + 2 ^ 31)
    with ((q + z + 2 ^ 31) mod 2 ^ 32 - z) by lia.
  rewrite Zminus_mod_idemp_l. f_equal. f_equal. lia.
Qed.

Lemma wake_inv_step s s' : step s s' -> wake_inv s -> wake_inv s'.
Proof.
  intros Hs [Hq Hw].
  destruct Hs as [s s' Ho| |w gp n Hn|]; [destruct Ho|..];
    unfold wake_inv, replenish_add, replenish_send in *; simpl in *;
    rewrite ?i32_idem; try (split; [done|]; first [done | lia | tauto]).
  - split; [done|]. destruct gp; auto.
  - split; [done|]. destruct gp; try done. intros Ha.
    rewrite i32_add_sub by done.
    destruct (decide (quota w <= 0)) as [Hle|Hgt].
    + right. rewrite (proj2 (Z.leb_le _ _) Hle), (proj2 (Z.ltb_lt _ _) Ha). done.
    + destruct Hw as [Hw|Hw]; [lia|by left|done].
Qed.

Lemma wake_inv_reachable sz0 sz s : i32 sz0 = sz0 -> reachable sz0 sz s -> wake_inv s.
Proof.
  intros H0 Hr. unfold reachable in Hr.
  remember (init sz0 sz) as s0 eqn:E. assert (wake_inv s0) as Hi by (subst; done).
  clear E. induction Hr as [|x y z Hxy _ IH]; [done|]. eauto using wake_inv_step.
Qed.

(** Where a blocked writer with [q] > 0 bytes of quota and its wake-up on the way can be
    after steps of its own: on its way to the quota, or gone because the stream is done.
    The number bounds the steps left. *)
Definition waking (q sz : Z) (d : bool) (n : nat) (s : state) : Prop :=
  done (wq s) = d /\
  let sends := match r s with RSend => 1%nat | RIdle => 0%nat end in
  match g s with
  | GWait sz' => sz' = sz /\ quota (wq s) = q /\ (ch (wq s) = true \/ r s = RSend)
                 /\ n = (3 + sends)%nat
  | GCheck sz' => sz' = sz /\ quota (wq s) = q /\ n = (2 + sends)%nat
  | GAdd sz' => sz' = sz /\ quota (wq s) = q /\ n = (1 + sends)%nat
  | GGot sz' => sz' = sz /\ quota (wq s) = i32 (q - sz) /\ n = sends
  | GErr => d = true /\ n = sends
  end.

Lemma waking_step q sz d n s s' :
  0 < q -> waking q sz d n s -> own_step s s' -> exists n', (n' < n)%nat /\ waking q sz d n' s'.
Proof.
  intros Hq [Hd Hw] Ho. destruct Ho; simpl in *; destruct_and?; subst; try lia;
    try (eexists; split; [|split; [done|]; simpl; split_and?; try reflexivity; eauto]; lia).
  destruct gp; destruct_and?; subst;
    (eexists; split; [|split; [done|]; simpl; split_and?; try reflexivity; eauto]; lia).
Qed.

Lemma waking_progress q sz d n s :
  0 < q -> waking q sz d n s ->
  (exists s', own_step s s') \/ g s = GGot sz /\ quota (wq s) = i32 (q - sz) \/ g s = GErr /\ d = true.
Proof.
  intros Hq [Hd Hw]. destruct s as [w gp rp]; simpl in *. destruct gp; destruct_and?; subst.
  - left. eexists. by apply step_load_pos.
  - left. eexists. apply step_add.
  - left. match goal with H : _ \/ _ |- _ => destruct H as [Hc|Hc] end.
    + eexists. by apply step_recv.
    + subst. eexists. apply step_send.
  - right; left. done.
  - right; right. done.
Qed.

(** C37: no lost wake-up on the write quota.  In every reachable interleaving of [get],
    [realReplenish] and the end of the stream, a writer that is blocked although the quota
    is positive needs nobody's help: without a new [replenish] and without the stream
    ending, the steps of its own [get] and the signal already decided end within four
    steps, and they can only end in [get] returning [nil] with the quota taken, or
    [errStreamDone] when the stream is done.  The calls of [get] may pass any int32 and
    the quota may wrap around. *)
Theorem get_no_lost_wakeup sz0 sz0' s sz :
  i32 sz0 = sz0 -> reachable sz0 sz0' s -> g s = GWait sz -> 0 < quota (wq s) ->
  forall n s', nsteps own_step n s s' ->
    (n <= 4)%nat /\
    ((exists s'', own_step s' s'')
     \/ g s' = GGot sz /\ quota (wq s') = i32 (quota (wq s) - sz)
     \/ g s' = GErr /\ done (wq s) = true).
Proof.
  intros H0 Hr Hg Hq n s' Hn. pose proof (wake_inv_reachable _ _ _ H0 Hr) as [_ Hw].
  assert (exists k, (k <= 4)%nat /\ waking (quota (wq s)) sz (done (wq s)) k s) as (k & Hk & Hs).
  { rewrite Hg in Hw. exists (3 + match r s with RSend => 1 | RIdle => 0 end)%nat.
    split; [destruct (r s); lia|]. split; [done|]. rewrite Hg. auto. }
  revert Hq Hs. generalize (quota (wq s)) (done (wq s)). intros q d Hq Hs.
  assert (exists k', (n + k' <= k)%nat /\ waking q sz d k' s') as (k' & Hk' & Hs').
  { clear -Hn Hs Hq. revert k Hs.
    induction Hn as [|n x y z Hxy _ IH]; intros k Hs; [exists k; split; [lia|done]|].
    destruct (waking_step _ _ _ _ _ _ Hq Hs Hxy) as (k1 & H1 & Hy).
    destruct (IH _ Hy) as (k2 & H2 & Hz). exists k2; split; [lia|done]. }
  split; [lia|]. eauto using waking_progress.
Qed.

(** A run in which the writer finds the quota exhausted, blocks, and is then replenished
    before the signal is sent: four steps later it has its quota. *)
Lemma get_no_lost_wakeup_witness :
  let s' := mkState (mkQuota 2 false false) (GGot 5) RIdle in
  (4 <= 4)%nat /\
  ((exists s'', own_step s' s'')
   \/ g s' = GGot 5 /\ quota (wq s') = i32 (7 - 5)
   \/ g s' = GErr /\ false = true).
Proof.
  apply (get_no_lost_wakeup 0 5 (mkState (mkQuota 7 false false) (GWait 5) RSend) 5).
  - reflexivity.
  - eapply rtc_l; [apply step_own, step_load_nonpos; simpl; lia|].
    apply rtc_once. apply (step_replenish (newWriteQuota 0) (GWait 5) 7). unfold MaxInt32; lia.
  - reflexivity.
  - simpl; lia.
  - eapply nsteps_l; [apply step_send|]. eapply nsteps_l; [by apply step_recv|].
    eapply nsteps_l; [apply step_load_pos; simpl; lia|]. eapply nsteps_l; [apply step_add|]. apply nsteps_O.
Defined.

End WriteQuota.

(** * The receive window of the connection *)
Module TrInFlow.

Record trInFlow := mkTr { limit : Z; unacked : Z; effectiveWindowSize : Z }.

Definition updateEffectiveWindowSize (f : trInFlow) : trInFlow :=
  mkTr (limit f) (unacked f) (u32 (limit f - unacked f)).

Definition newLimit (n : Z) (f : trInFlow) : trInFlow * Z :=
  let d := u32 (n - limit f) in
  (updateEffectiveWindowSize (mkTr n (unacked f) (effectiveWindowSize f)), d).

Definition onData (n : Z) (f : trInFlow) : trInFlow * Z :=
  let f := mkTr (limit f) (u32 (unacked f + n)) (effectiveWindowSize f) in
  if limit f / 4 <=? unacked f
  then (updateEffectiveWindowSize (mkTr (limit f) 0 (effectiveWindowSize f)), unacked f)
  else (updateEffectiveWindowSize f, 0).

Definition reset (f : trInFlow) : trInFlow * Z :=
  (updateEffectiveWindowSize (mkTr (limit f) 0 (effectiveWindowSize f)), unacked f).

Inductive op := OpLimit (n : Z) | OpData (n : Z) | OpReset.

Definition apply_op (o : op) (f : trInFlow) : trInFlow * Z :=
  match o with
  | OpLimit n => newLimit n f
  | OpData n => onData n f
  | OpReset => reset f
  end.

Definition received (o : op) : Z := match o with OpData n => n | _ => 0 end.

(** The connection window at the peer: it starts at the receiver's limit, each returned
    value is announced with a WINDOW_UPDATE, and each byte sent consumes one. *)
Fixpoint run (ops : list op) (f : trInFlow) (peer : Z) : trInFlow * Z :=
  match ops with
  | [] => (f, peer)
  | o :: ops => let '(f', w) := apply_op o f in run ops f' (peer - received o + w)
  end.

Definition wf (f : trInFlow) : Prop :=
  0 <= limit f < 2 ^ 32 /\ 0 <= unacked f < 2 ^ 32
  /\ effectiveWindowSize f = u32 (limit f - unacked f).

Lemma u32_mod z : u32 z = z mod 2 ^ 32.
Proof. done. Qed.

Definition op_ok (o : op) : Prop := match o with OpLimit n => 0 <= n < 2 ^ 32 | _ => True end.

Lemma apply_op_wf o f : op_ok o -> wf f -> wf (apply_op o f).1.
Proof.
  intros Ho (Hl & Hu & He). pose proof (u32_range (unacked f + received o)).
  destruct o; simpl in *; unfold onData, wf; simpl; try case_match; simpl; split_and!; try done; lia.
Qed.

Lemma apply_op_peer o f peer :
  wf f -> u32 peer = effectiveWindowSize f ->
  u32 (peer - received o + (apply_op o f).2) = effectiveWindowSize (apply_op o f).1.
Proof.
  intros (Hl & Hu & He) Hp. rewrite He in Hp. rewrite !u32_mod in Hp.
  assert (exists k, peer = limit f - unacked f + k * 2 ^ 32) as [k ->].
  { exists (peer / 2 ^ 32 - (limit f - unacked f) / 2 ^ 32).
    pose proof (Z_div_mod_eq_full peer (2 ^ 32)).
    pose proof (Z_div_mod_eq_full (limit f - unacked f) (2 ^ 32)). lia. }
  assert (forall z, exists j, u32 z = z + j * 2 ^ 32) as Hw.
  { intros z. exists (- (z / 2 ^ 32)). rewrite u32_mod.
    pose proof (Z_div_mod_eq_full z (2 ^ 32)). lia. }
  assert (forall a b j, a = b + j * 2 ^ 32 -> u32 a = u32 b) as Hc.
  { intros a b j ->. rewrite !u32_mod. apply Z.mod_add. lia. }
  destruct o as [n|n|]; simpl.
  - destruct (Hw (n - limit f)) as [j ->]. eapply (Hc _ _ (k + j)). lia.
  - unfold onData; simpl. destruct (Hw (unacked f + n)) as [j Hj].
    case_match; simpl; rewrite Hj.
    + eapply (Hc _ _ (k + j)). lia.
    + eapply (Hc _ _ (k + j)). lia.
  - eapply (Hc _ _ k). lia.
Qed.

Lemma run_wf_peer ops f peer :
  Forall op_ok ops -> wf f -> u32 peer = effectiveWindowSize f ->
  wf (run ops f peer).1 /\ u32 (run ops f peer).2 = effectiveWindowSize (run ops f peer).1.
Proof.
  intros Hops. revert f peer. induction Hops as [|o ops Ho _ IH]; intros f peer Hf Hp; [done|].
  simpl. destruct (apply_op o f) as [f' w] eqn:E.
  pose proof (apply_op_wf o f Ho Hf) as Hf'. pose proof (apply_op_peer o f peer Hf Hp) as Hp'.
  rewrite E in Hf', Hp'. by apply IH.
Qed.

(** For every sequence of data frames, limit changes and resets, the published
    [effectiveWindowSize] is the connection window the peer sees (as a uint32): every byte
    received is given back exactly once, and every raise of the limit is announced. *)
Theorem effectiveWindowSize_is_peer_window ops n :
  Forall op_ok ops -> 0 <= n < 2 ^ 32 ->
  let f0 := updateEffectiveWindowSize (mkTr n 0 0) in
  u32 (run ops f0 n).2 = effectiveWindowSize (run ops f0 n).1.
Proof.
  intros Hops Hn f0. apply run_wf_peer; [done| |].
  - subst f0. split_and!; simpl; solve [lia | done].
  - subst f0. simpl. f_equal. lia.
Qed.

Lemma effectiveWindowSize_is_peer_window_witness :
  let f0 := updateEffectiveWindowSize (mkTr 65535 0 0) in
  u32 (run [OpData 10000; OpData 9000; OpLimit 200000; OpData 1; OpReset] f0 65535).2
  = effectiveWindowSize (run [OpData 10000; OpData 9000; OpLimit 200000; OpData 1; OpReset] f0 65535).1.
Proof.
  apply effectiveWindowSize_is_peer_window; [|lia].
  repeat constructor; simpl; lia.
Defined.

(** After every data frame that fits the width, less than a quarter of the window stays
    unannounced, so a sender that honours the window is never starved by the batching. *)
Lemma onData_batches_a_quarter n f :
  wf f -> 0 <= n -> unacked f + n < 2 ^ 32 ->
  let f' := (onData n f).1 in
  unacked f' = 0 \/ unacked f' < limit f / 4.
Proof.
  intros (Hl & Hu & He) Hn Hb. unfold onData; simpl. case_match eqn:E; simpl; [by left|].
  right. by apply Z.leb_gt in E.
Qed.

End TrInFlow.

(** * The receive window of a stream *)
Module InFlow.

Record inFlow := mkIn { limit : Z; pendingData : Z; pendingUpdate : Z; delta : Z }.

Definition newLimit (n : Z) (f : inFlow) : inFlow :=
  mkIn n (pendingData f) (pendingUpdate f) (delta f).

Definition maybeAdjust (n : Z) (f : inFlow) : inFlow * Z :=
  let n := if MaxInt32 <? n then MaxInt32 else n in
  let estSenderQuota := i32 (u32 (limit f - u32 (pendingData f + pendingUpdate f))) in
  let estUntransmittedData := i32 (u32 (n - pendingData f)) in
  if estSenderQuota <? estUntransmittedData then
    let d := if maxWindowSize <? u32 (limit f + n) then u32 (maxWindowSize - limit f) else n in
    (mkIn (limit f) (pendingData f) (pendingUpdate f) d, d)
  else (f, 0).

(** [true] is a nil error. *)
Definition onData (n : Z) (f : inFlow) : inFlow * bool :=
  let f := mkIn (limit f) (u32 (pendingData f + n)) (pendingUpdate f) (delta f) in
  (f, negb (u32 (limit f + delta f) <? u32 (pendingData f + pendingUpdate f))).

Definition onRead (n : Z) (f : inFlow) : inFlow * Z :=
  if pendingData f =? 0 then (f, 0) else
  let pd := u32 (pendingData f - n) in
  let '(n, d) := if delta f <? n then (u32 (n - delta f), 0) else (0, u32 (delta f - n)) in
  let pu := u32 (pendingUpdate f + n) in
  if limit f / 4 <=? pu then (mkIn (limit f) pd 0 d, pu) else (mkIn (limit f) pd pu d, 0).

Inductive ev := EvLimit (n : Z) | EvAdjust (n : Z) | EvData (n : Z) | EvRead (n : Z).

(** One event at the receiver together with the credit [w] the sender holds for the
    stream; the boolean is [onData]'s verdict. *)
Definition apply_ev (e : ev) (f : inFlow) (w : Z) : inFlow * Z * bool :=
  match e with
  | EvLimit n => (newLimit n f, w + (n - limit f), true)
  | EvAdjust n => let '(f', d) := maybeAdjust n f in (f', w + d, true)
  | EvData n => let '(f', ok) := onData n f in (f', w - n, ok)
  | EvRead n => let '(f', d) := onRead n f in (f', w + d, true)
  end.

(** What the two ends owe each other: a sender sends within its credit, the reader
    consumes what has arrived, the limit only grows, and a new message is requested once
    the extra window of the previous one is used up. *)
Definition compliant (e : ev) (f : inFlow) (w : Z) : bool :=
  match e with
  | EvLimit n => (limit f <? n) && (n <=? maxWindowSize)
  | EvAdjust n => (0 <=? n) && (n <? 2 ^ 32) && (delta f =? 0)
  | EvData n => (0 <=? n) && (n <=? w)
  | EvRead n => (0 <=? n) && (n <=? pendingData f)
  end.

(** Runs the events while they are compliant; the boolean says that no data frame was
    rejected. *)
Fixpoint run (es : list ev) (f : inFlow) (w : Z) : inFlow * Z * bool :=
  match es with
  | [] => (f, w, true)
  | e :: es =>
      if compliant e f w then
        let '(f', w', ok) := apply_ev e f w in
        if ok then run es f' w' else (f', w', false)
      else (f, w, true)
  end.

Definition inv (f : inFlow) (w : Z) : Prop :=
  0 <= limit f <= maxWindowSize /\ 0 <= pendingData f /\ 0 <= pendingUpdate f
  /\ 0 <= delta f <= maxWindowSize /\ 0 <= w
  /\ w = limit f + delta f - pendingData f - pendingUpdate f.

Ltac arith :=
  unfold maxWindowSize, MaxInt32 in *;
  cbn [limit pendingData pendingUpdate delta fst snd] in *;
  bool_to_prop.

(** On a well-formed window [maybeAdjust] computes what its comments say. *)
Lemma maybeAdjust_eq n f w :
  inv f w -> delta f = 0 -> 0 <= n < 2 ^ 32 ->
  let n' := Z.min n MaxInt32 in
  maybeAdjust n f =
    if decide (n' - pendingData f > limit f - pendingData f - pendingUpdate f)
    then let d := Z.min n' (maxWindowSize - limit f) in
         (mkIn (limit f) (pendingData f) (pendingUpdate f) d, d)
    else (f, 0).
Proof.
  intros (Hl & Hpd & Hpu & Hd & Hw & Heq) Hd0 Hn n'. unfold maybeAdjust.
  replace (if MaxInt32 <? n then MaxInt32 else n) with n' by (subst n'; case_match; arith; lia).
  assert (0 <= n' <= 2 ^ 31 - 1) by (subst n'; arith; lia).
  clearbody n'. arith.
  rewrite (u32_id (pendingData f + pendingUpdate f)) by lia.
  rewrite (u32_id (limit f - _)) by lia. rewrite (i32_id (limit f - _)) by lia.
  rewrite (u32_id (limit f + n')) by lia. rewrite (u32_id (_ - limit f)) by lia.
  assert (i32 (u32 (n' - pendingData f)) = n' - pendingData f) as ->.
  { unfold i32, u32, wrapS, wrapU. change (32 - 1) with 31.
    rewrite Zplus_mod_idemp_l. rewrite Z.mod_small by lia. lia. }
  case_match eqn:E1; case_decide; arith; try lia; try done.
  case_match eqn:E2; arith; f_equal; try f_equal; lia.
Qed.

Lemma onData_accepts n f w :
  inv f w -> 0 <= n <= w ->
  onData n f = (mkIn (limit f) (pendingData f + n) (pendingUpdate f) (delta f), true).
Proof.
  intros (Hl & Hpd & Hpu & Hd & Hw & Heq) Hn. unfold onData. arith.
  rewrite (u32_id (pendingData f + n)) by lia.
  rewrite !u32_id by lia. f_equal. apply negb_true_iff, Z.ltb_ge. lia.
Qed.

Lemma apply_ev_inv e f w :
  inv f w -> compliant e f w = true ->
  let '(f', w', ok) := apply_ev e f w in ok = true /\ inv f' w'.
Proof.
  intros Hi Hc. pose proof Hi as (Hl & Hpd & Hpu & Hd & Hw & Heq).
  destruct e as [n|n|n|n]; cbn [compliant apply_ev] in *; arith.
  - split; [done|]. unfold inv, newLimit. arith. lia.
  - rewrite (maybeAdjust_eq n f w) by (done || lia).
    case_decide; split; try done; unfold inv; arith; lia.
  - rewrite (onData_accepts n f w) by (done || lia).
    split; [done|]. unfold inv. arith. lia.
  - unfold onRead. destruct (pendingData f =? 0) eqn:E0; arith.
    { split; [done|]. unfold inv. arith. lia. }
    destruct (delta f <? n) eqn:E1; arith; unwrap;
      (destruct (limit f / 4 <=? _) eqn:E2); split; try done; unfold inv; arith; lia.
Qed.

Lemma run_inv es f w :
  inv f w -> let '(f', w', ok) := run es f w in ok = true /\ inv f' w'.
Proof.
  revert f w. induction es as [|e es IH]; intros f w Hi; simpl; [done|].
  destruct (compliant e f w) eqn:Hc; [|done].
  pose proof (apply_ev_inv e f w Hi Hc) as Hs.
  destruct (apply_ev e f w) as [[f' w'] ok]. destruct Hs as [-> Hi']. by apply IH.
Qed.

(** C7: credit conservation on a stream.  From a fresh window, along every compliant
    sequence of requests, data frames and reads, no frame of a sender that stays within the
    credit it was given is rejected, no uint32 counter wraps, and that credit is exactly
    [limit + delta - pendingData - pendingUpdate]. *)
Theorem compliant_sender_never_rejected es n f w ok :
  0 <= n <= maxWindowSize ->
  run es (mkIn n 0 0 0) n = (f, w, ok) ->
  ok = true /\ 0 <= w /\ w = limit f + delta f - pendingData f - pendingUpdate f.
Proof.
  intros Hn Hr. pose proof (run_inv es (mkIn n 0 0 0) n) as H. rewrite Hr in H.
  destruct H as [-> (_ & _ & _ & _ & Hw & He)]; [|done].
  unfold inv; simpl. unfold maxWindowSize, MaxInt32 in *. lia.
Qed.

Lemma compliant_sender_never_rejected_witness :
  exists f w,
    run [EvAdjust 100000; EvData 65535; EvData 30000; EvRead 95535; EvLimit 131072; EvData 70000]
        (mkIn 65535 0 0 0) 65535 = (f, w, true)
    /\ 0 <= w /\ w = limit f + delta f - pendingData f - pendingUpdate f.
Proof.
  do 2 eexists. split; [vm_compute; reflexivity|].
  eapply (compliant_sender_never_rejected
    [EvAdjust 100000; EvData 65535; EvData 30000; EvRead 95535; EvLimit 131072; EvData 70000] 65535).
  - unfold maxWindowSize, MaxInt32. lia.
  - vm_compute. reflexivity.
Defined.

(** A read request never deadlocks on flow control.  After [maybeAdjust n] the sender's
    credit covers what is missing of an [n]-byte message, up to HTTP/2's maximum window. *)
Theorem maybeAdjust_enables_message n f w :
  inv f w -> delta f = 0 -> 0 <= n < 2 ^ 32 ->
  let w' := w + (maybeAdjust n f).2 in
  Z.min n (maxWindowSize - limit f) - pendingData f <= w'.
Proof.
  intros Hi Hd Hn w'. subst w'. rewrite (maybeAdjust_eq n f w) by done.
  destruct Hi as (Hl & Hpd & Hpu & _ & Hw & Heq).
  case_decide; arith; lia.
Qed.

Lemma maybeAdjust_enables_message_witness :
  let w' := 15535 + (maybeAdjust 200000 (mkIn 65535 40000 10000 0)).2 in
  Z.min 200000 (maxWindowSize - 65535) - 40000 <= w'.
Proof.
  apply (maybeAdjust_enables_message 200000 (mkIn 65535 40000 10000 0) 15535);
    [unfold inv, maxWindowSize, MaxInt32; simpl; lia|reflexivity|lia].
Defined.

(** The condition on [EvAdjust] is needed: a second request while [delta] is still
    positive overwrites it, and a sender within its credit is then rejected. *)
Lemma maybeAdjust_overwrites_delta :
  let f0 := mkIn 10 0 0 0 in
  let '(f1, d1) := maybeAdjust 100 f0 in
  let '(f2, d2) := maybeAdjust 50 f1 in
  onData (10 + d1 + d2) f2 = (mkIn 10 160 0 50, false).
Proof. vm_compute. reflexivity. Qed.

End InFlow.
