(* ===== verification/ItemList.v ===== *)
(** The two intrusive linked lists of the gRPC control buffer
    (src/pkg/remote/trans/nphttp2/grpc/controlbuf.go): [itemList], a FIFO queue with a
    free list of nodes, and [outStreamList], a doubly linked list with sentinels whose
    elements unlink themselves.

    Both are modelled as pointer structures over a heap and refined to plain lists; the
    loopy writer's model then uses the lists. *)

From S2P Require Import Prelude.

Abbreviation loc := nat.

(** * itemList *)
Module ItemList.

Definition maxFreeItemNodes : Z := 100.

Section item_list.
Context {A : Type}.

Record itemNode := mkNode { it : option A; next : option loc }.

(** The list header together with the heap of nodes; [brk] is the next fresh address. *)
Record itemList := mkList {
  head : option loc;
  tail : option loc;
  free : option loc;
  nfree : Z;
  heap : gmap loc itemNode;
  brk : loc
}.

Definition empty_list : itemList := mkList None None None 0 ∅ 0%nat.

(** Allocates a node or pops one of the free list; [None] is a nil dereference. *)
Definition alloc_node (i : A) (il : itemList) : option (loc * itemList) :=
  match free il with
  | Some n =>
      nd ← heap il !! n;
      Some (n, mkList (head il) (tail il) (next nd) (nfree il - 1)
                      (<[n := mkNode (Some i) None]> (heap il)) (brk il))
  | None =>
      Some (brk il, mkList (head il) (tail il) None (nfree il)
                           (<[brk il := mkNode (Some i) None]> (heap il)) (S (brk il)))
  end.

Definition enqueue (i : A) (il : itemList) : option itemList :=
  '(n, il) ← alloc_node i il;
  match tail il with
  | None => Some (mkList (Some n) (Some n) (free il) (nfree il) (heap il) (brk il))
  | Some t =>
      nd ← heap il !! t;
      Some (mkList (head il) (Some n) (free il) (nfree il)
                   (<[t := mkNode (it nd) (Some n)]> (heap il)) (brk il))
  end.

Definition peek (il : itemList) : option (option A) :=
  h ← head il; nd ← heap il !! h; Some (it nd).

Definition dequeue (il : itemList) : option (option A * itemList) :=
  match head il with
  | None => Some (None, il)
  | Some unused =>
      nd ← heap il !! unused;
      let i := it nd in
      let hd := next nd in
      let tl := match hd with None => None | _ => tail il end in
      if nfree il <? maxFreeItemNodes
      then Some (i, mkList hd tl (Some unused) (nfree il + 1)
                           (<[unused := mkNode None (free il)]> (heap il)) (brk il))
      else Some (i, mkList hd tl (free il) (nfree il)
                           (<[unused := mkNode None (next nd)]> (heap il)) (brk il))
  end.

Definition dequeueAll (il : itemList) : option loc * itemList :=
  (head il, mkList None None (free il) (nfree il) (heap il) (brk il)).

Definition isEmpty (il : itemList) : bool :=
  match head il with None => true | Some _ => false end.

(** ** Refinement to a queue *)

(** [chain h p l q]: following [next] from [p] visits the nodes of [l], with their
    items, and ends at [q]. *)
Fixpoint chain (h : gmap loc itemNode) (p : option loc) (l : list (loc * option A))
    (q : option loc) : Prop :=
  match l with
  | [] => p = q
  | (a, x) :: l => p = Some a /\ exists nx, h !! a = Some (mkNode x nx) /\ chain h nx l q
  end.

Definition repr (il : itemList) (xs : list A) : Prop :=
  exists (ls fs : list loc),
    length ls = length xs /\
    chain (heap il) (head il) (zip ls (Some <$> xs)) None /\
    tail il = last ls /\
    chain (heap il) (free il) ((fun l => (l, None)) <$> fs) None /\
    nfree il = lenZ fs /\ nfree il <= maxFreeItemNodes /\
    NoDup (ls ++ fs) /\ Forall (fun l => (l < brk il)%nat) (ls ++ fs).

Lemma chain_insert h p l q a n :
  a ∉ l.*1 -> chain h p l q -> chain (<[a := n]> h) p l q.
Proof.
  revert p. induction l as [|[b x] l IH]; intros p Ha; simpl in *; [done|].
  rewrite not_elem_of_cons in Ha. destruct Ha as [Hab Ha].
  intros [-> (nx & Hb & Hl)]. split; [done|]. exists nx.
  rewrite lookup_insert_ne by done. auto.
Qed.

Lemma chain_app h p l1 l2 q :
  chain h p (l1 ++ l2) q <-> exists m, chain h p l1 m /\ chain h m l2 q.
Proof.
  revert p. induction l1 as [|[a x] l1 IH]; intros p; simpl.
  - split; [eauto|]. intros (m & -> & H). done.
  - split.
    + intros [-> (nx & Ha & H)]. apply IH in H as (m & H1 & H2). eauto 10.
    + intros (m & [-> (nx & Ha & H1)] & H2). split; [done|]. exists nx. rewrite IH. eauto.
Qed.

Lemma fst_zip_some (ls : list loc) (xs : list A) :
  length ls = length xs -> (zip ls (Some <$> xs)).*1 = ls.
Proof. intros H. apply fst_zip. rewrite length_fmap. lia. Qed.

Lemma fst_free (fs : list loc) : ((fun l => (l, @None A)) <$> fs).*1 = fs.
Proof. rewrite <- list_fmap_compose. apply list_fmap_id. Qed.

Lemma repr_empty : repr empty_list [].
Proof. exists [], []. split_and!; try done. constructor. Qed.

(** Allocation turns one free (or fresh) address into a detached node. *)
Lemma alloc_node_spec i il xs :
  repr il xs ->
  exists n il', alloc_node i il = Some (n, il') /\
    exists ls fs,
      length ls = length xs /\
      chain (heap il') (head il') (zip ls (Some <$> xs)) None /\
      tail il' = last ls /\
      heap il' !! n = Some (mkNode (Some i) None) /\
      chain (heap il') (free il') ((fun l => (l, None)) <$> fs) None /\
      nfree il' = lenZ fs /\ nfree il' <= maxFreeItemNodes /\
      NoDup (n :: ls ++ fs) /\ Forall (fun l => (l < brk il')%nat) (n :: ls ++ fs).
Proof.
  intros (ls & fs & Hlen & Hc & Ht & Hf & Hn & Hmax & Hnd & Hb).
  unfold alloc_node. destruct fs as [|n fs]; simpl in Hf.
  - rewrite Hf. do 2 eexists. split; [done|]. simpl.
    rewrite app_nil_r in *.
    assert (brk il ∉ ls) as Hfresh.
    { intros Hin. rewrite Forall_forall in Hb. apply Hb in Hin. lia. }
    exists ls, []. rewrite app_nil_r.
    split_and!; try done; [|by rewrite lookup_insert_eq|by constructor|].
    + apply chain_insert; [by rewrite fst_zip_some|done].
    + constructor; [lia|]. eapply Forall_impl; [done|simpl; lia].
  - destruct Hf as [-> (nx & Hn' & Hf)]. rewrite Hn'. simpl. do 2 eexists. split; [done|]. simpl.
    rewrite <- Permutation_middle in Hnd, Hb. apply NoDup_cons in Hnd as [Hni Hnd].
    rewrite not_elem_of_app in Hni. destruct Hni as [Hni1 Hni2].
    exists ls, fs. split_and!; try done; [| |by apply chain_insert; [rewrite fst_free|]| | |].
    + apply chain_insert; [by rewrite fst_zip_some|done].
    + by rewrite lookup_insert_eq.
    + unfold lenZ in *. simpl in *. lia.
    + unfold lenZ in *. simpl in *. lia.
    + constructor; [|done]. rewrite not_elem_of_app. done.
Qed.

Lemma enqueue_spec i il xs :
  repr il xs -> exists il', enqueue i il = Some il' /\ repr il' (xs ++ [i]).
Proof.
  intros Hr. apply (alloc_node_spec i) in Hr
    as (n & il1 & Ha & ls & fs & Hlen & Hc & Ht & Hn & Hf & Hnf & Hmax & Hnd & Hb).
  unfold enqueue. rewrite Ha. simpl.
  assert (length (ls ++ [n]) = length (xs ++ [i])) as Hlen' by (rewrite !length_app; simpl; lia).
  assert (ls ++ [n] ++ fs ≡ₚ n :: ls ++ fs) as Hp by (simpl; by rewrite Permutation_middle).
  destruct (decide (ls = [])) as [->|Hne].
  - simpl in Ht. rewrite Ht. eexists. split; [done|].
    destruct xs as [|? ?]; [|done]. exists [n], fs. split_and!; try done.
    simpl. eauto 10.
  - destruct (exists_last Hne) as (ls0 & t & ->). clear Hne.
    rewrite last_snoc in Ht. rewrite Ht.
    assert (exists xs0 x, xs = xs0 ++ [x] /\ length ls0 = length xs0) as (xs0 & x & -> & Hl0).
    { destruct xs as [|x' xs'] using rev_ind; rewrite !length_app in Hlen; simpl in Hlen; [lia|].
      exists xs', x'. split; [done|lia]. }
    rewrite fmap_app, zip_with_app in Hc by (by rewrite length_fmap).
    apply chain_app in Hc as (m & Hc & -> & nx & Hlt & Hnx). simpl in Hnx. subst nx.
    rewrite Hlt. simpl. eexists. split; [done|]. simpl.
    apply NoDup_cons in Hnd as [Hni Hnd]. rewrite <- (assoc_L (++)) in Hnd. simpl in Hnd.
    rewrite <- Permutation_middle in Hnd.
    apply NoDup_cons in Hnd as [Hti Hnd]. rewrite !not_elem_of_app in Hni, Hti.
    assert (t <> n) as Htn by set_solver.
    exists ((ls0 ++ [t]) ++ [n]), fs.
    split_and!; try done.
    + rewrite fmap_app, (fmap_app _ xs0), !zip_with_app by (rewrite ?length_app, ?length_fmap, ?length_app; simpl; lia).
      simpl. apply chain_app. exists (Some n). split; [apply chain_app; exists (Some t); split|].
      * apply chain_insert; [|done]. by rewrite fst_zip_some; tauto.
      * simpl. split; [done|]. exists (Some n). by rewrite lookup_insert_eq.
      * simpl. split; [done|]. exists None. by rewrite lookup_insert_ne.
    + simpl. by rewrite last_snoc.
    + apply chain_insert; [|done]. by rewrite fst_free; tauto.
    + simpl. rewrite <- (assoc_L (++)), Hp. apply NoDup_cons. split.
      * set_solver.
      * rewrite <- (assoc_L (++)). simpl. rewrite <- Permutation_middle. apply NoDup_cons.
        set_solver.
    + rewrite <- (assoc_L (++)), Hp. done.
Qed.

Lemma dequeue_spec il xs :
  repr il xs -> exists il', dequeue il = Some (List.hd_error xs, il') /\ repr il' (List.tl xs).
Proof.
  intros (ls & fs & Hlen & Hc & Ht & Hf & Hn & Hmax & Hnd & Hb).
  unfold dequeue. destruct xs as [|x xs], ls as [|a ls]; try done; simpl in Hc.
  - rewrite Hc. eexists. split; [done|]. exists [], fs. rewrite Hc. by split_and!.
  - destruct Hc as [-> (nx & Ha & Hc)]. rewrite Ha. simpl. simpl in Hlen, Hnd, Hb.
    assert (length ls = length xs) as Hl by lia.
    apply NoDup_cons in Hnd as [Hai Hnd]. rewrite not_elem_of_app in Hai. destruct Hai as [Ha1 Ha2].
    apply Forall_cons in Hb as [Hba Hb].
    assert (match nx with None => None | _ => tail il end = last ls) as Htl.
    { destruct ls as [|b ls]; destruct xs as [|y xs]; try done; simpl in Hc; [by subst|].
      destruct Hc as [-> _]. rewrite Ht. done. }
    destruct (nfree il <? maxFreeItemNodes) eqn:E; bool_to_prop.
    + eexists. split; [done|]. exists ls, (a :: fs). simpl. split_and!; try done.
      * apply chain_insert; [by rewrite fst_zip_some|done].
      * eexists. split; [by rewrite lookup_insert_eq|].
        apply chain_insert; [by rewrite fst_free|done].
      * unfold lenZ in *. simpl. lia.
      * lia.
      * rewrite <- Permutation_middle. apply NoDup_cons. rewrite not_elem_of_app. done.
      * rewrite <- Permutation_middle. by constructor.
    + eexists. split; [done|]. exists ls, fs. simpl. split_and!; try done.
      * apply chain_insert; [by rewrite fst_zip_some|done].
      * apply chain_insert; [by rewrite fst_free|done].
Qed.

Lemma peek_spec il x xs : repr il (x :: xs) -> peek il = Some (Some x).
Proof.
  intros (ls & fs & Hlen & Hc & _). destruct ls as [|a ls]; [done|].
  destruct Hc as [Hh (nx & Ha & _)]. unfold peek. rewrite Hh. simpl. by rewrite Ha.
Qed.

Lemma isEmpty_spec il xs : repr il xs -> isEmpty il = bool_decide (xs = []).
Proof.
  intros (ls & fs & Hlen & Hc & _). unfold isEmpty.
  destruct xs, ls; try done; simpl in Hc; [by rewrite Hc|]. destruct Hc as [-> _]. done.
Qed.

(** The chain [dequeueAll] hands out still holds every queued item in order. *)
Lemma dequeueAll_spec il xs :
  repr il xs ->
  let '(h, il') := dequeueAll il in
  repr il' [] /\ exists ls, length ls = length xs /\ chain (heap il') h (zip ls (Some <$> xs)) None.
Proof.
  intros (ls & fs & Hlen & Hc & Ht & Hf & Hn & Hmax & Hnd & Hb). simpl. split; [|by exists ls].
  apply NoDup_app in Hnd as (_ & _ & Hnd). apply Forall_app in Hb as [_ Hb].
  exists [], fs. by split_and!.
Qed.

(** ** Trace refinement *)

Inductive op := Enq (x : A) | Deq | Peek | IsEmpty | DeqAll.
Inductive out := OUnit | OItem (x : option A) | OBool (b : bool) | OPanic.

Definition istep (o : op) (il : itemList) : out * itemList :=
  match o with
  | Enq x => match enqueue x il with Some il' => (OUnit, il') | None => (OPanic, il) end
  | Deq => match dequeue il with Some (x, il') => (OItem x, il') | None => (OPanic, il) end
  | Peek => match peek il with Some x => (OItem x, il) | None => (OPanic, il) end
  | IsEmpty => (OBool (isEmpty il), il)
  | DeqAll => (OUnit, (dequeueAll il).2)
  end.

(** The abstract queue: [peek] panics on an empty one. *)
Definition astep (o : op) (xs : list A) : out * list A :=
  match o with
  | Enq x => (OUnit, xs ++ [x])
  | Deq => (OItem (List.hd_error xs), List.tl xs)
  | Peek => match xs with [] => (OPanic, xs) | x :: _ => (OItem (Some x), xs) end
  | IsEmpty => (OBool (bool_decide (xs = [])), xs)
  | DeqAll => (OUnit, [])
  end.

Fixpoint outs {S} (step : op -> S -> out * S) (os : list op) (s : S) : list out :=
  match os with
  | [] => []
  | o :: os => let '(r, s') := step o s in r :: outs step os s'
  end.

Lemma istep_refines o il xs :
  repr il xs -> (istep o il).1 = (astep o xs).1 /\ repr (istep o il).2 (astep o xs).2.
Proof.
  intros Hr. destruct o as [x| | | |]; simpl.
  - apply (enqueue_spec x) in Hr as (il' & -> & Hr). done.
  - apply dequeue_spec in Hr as (il' & -> & Hr). done.
  - destruct xs as [|x xs]; [|by rewrite (peek_spec _ _ _ Hr)].
    destruct Hr as (ls & fs & Hlen & Hc & Ht). destruct ls; [|done]. simpl in Hc.
    unfold peek. rewrite Hc. simpl. split; [done|]. exists [], fs. by rewrite Hc.
  - by rewrite (isEmpty_spec _ _ Hr).
  - apply dequeueAll_spec in Hr as [Hr _]. done.
Qed.

End item_list.

Arguments itemNode : clear implicits.
Arguments itemList : clear implicits.
Arguments op : clear implicits.
Arguments out : clear implicits.

(** The linked queue with its free list behaves, on every sequence of operations, like
    a plain FIFO list; in particular recycling nodes never loses, duplicates or reorders an
    item, and only [peek] on an empty queue dereferences nil. *)
Theorem itemList_refines_queue {A} (os : list (op A)) :
  outs istep os empty_list = outs astep os [].
Proof.
  assert (forall il xs, repr il xs -> outs istep os il = outs astep os xs) as H.
  { induction os as [|o os IH]; intros il xs Hr; simpl; [done|].
    destruct (istep_refines o il xs Hr) as [H1 H2].
    destruct (istep o il), (astep o xs). simpl in *. subst. f_equal. auto. }
  apply H, repr_empty.
Qed.

End ItemList.

(** * outStreamList *)
Module OutStreamList.

(** The [next] and [prev] fields of every outStream; an absent key is a nil field. *)
Record links := mkLinks { nxt : gmap loc loc; prv : gmap loc loc }.

Record outStreamList := mkOsl { head : loc; tail : loc; lk : links }.

Definition set_next (a : loc) (v : option loc) (k : links) : links :=
  mkLinks (partial_alter (fun _ => v) a (nxt k)) (prv k).
Definition set_prev (a : loc) (v : option loc) (k : links) : links :=
  mkLinks (nxt k) (partial_alter (fun _ => v) a (prv k)).

Definition deleteSelf (s : loc) (k : links) : links :=
  let k := match prv k !! s with Some p => set_next p (nxt k !! s) k | None => k end in
  let k := match nxt k !! s with Some n => set_prev n (prv k !! s) k | None => k end in
  set_prev s None (set_next s None k).

(** [head] and [tail] are two new objects. *)
Definition newOutStreamList (h t : loc) : outStreamList :=
  mkOsl h t (set_prev t (Some h) (set_next h (Some t) (mkLinks ∅ ∅))).

(** [None]: the nil dereference of [e.next] when the tail sentinel has no predecessor. *)
Definition enqueue (s : loc) (l : outStreamList) : option outStreamList :=
  e ← prv (lk l) !! tail l;
  let k := set_next e (Some s) (lk l) in
  let k := set_prev s (Some e) k in
  let k := set_next s (Some (tail l)) k in
  let k := set_prev (tail l) (Some s) k in
  Some (mkOsl (head l) (tail l) k).

(** The outer [None] is the nil dereference of [b.deleteSelf()]. *)
Definition dequeue (l : outStreamList) : option (option loc * outStreamList) :=
  b ← nxt (lk l) !! head l;
  if decide (b = tail l) then Some (None, l)
  else Some (Some b, mkOsl (head l) (tail l) (deleteSelf b (lk l))).

Definition delete_from (s : loc) (l : outStreamList) : outStreamList :=
  mkOsl (head l) (tail l) (deleteSelf s (lk l)).

(** ** Refinement to a duplicate-free list *)

Fixpoint dseg (k : links) (a : loc) (xs : list loc) (z : loc) : Prop :=
  match xs with
  | [] => nxt k !! a = Some z /\ prv k !! z = Some a
  | x :: xs => nxt k !! a = Some x /\ prv k !! x = Some a /\ dseg k x xs z
  end.

Definition repr (l : outStreamList) (xs : list loc) : Prop :=
  dseg (lk l) (head l) xs (tail l) /\ NoDup (head l :: tail l :: xs) /\
  (forall x, x ∉ head l :: tail l :: xs -> nxt (lk l) !! x = None /\ prv (lk l) !! x = None).

Lemma nxt_set_next a v k x :
  nxt (set_next a v k) !! x = if decide (x = a) then v else nxt k !! x.
Proof.
  simpl. destruct (decide (x = a)) as [->|]; [apply lookup_partial_alter_eq|].
  by apply lookup_partial_alter_ne.
Qed.
Lemma prv_set_next a v k x : prv (set_next a v k) !! x = prv k !! x.
Proof. done. Qed.
Lemma prv_set_prev a v k x :
  prv (set_prev a v k) !! x = if decide (x = a) then v else prv k !! x.
Proof.
  simpl. destruct (decide (x = a)) as [->|]; [apply lookup_partial_alter_eq|].
  by apply lookup_partial_alter_ne.
Qed.
Lemma nxt_set_prev a v k x : nxt (set_prev a v k) !! x = nxt k !! x.
Proof. done. Qed.

#[local] Opaque set_next set_prev.

Ltac links :=
  repeat (rewrite ?nxt_set_next, ?prv_set_next, ?prv_set_prev, ?nxt_set_prev);
  repeat case_decide; try done; try congruence.

(** A segment only depends on [next] of its nodes but the last and [prev] of its nodes
    but the first. *)
Lemma dseg_agree k k' a xs z :
  (forall x, x ∈ a :: xs -> nxt k' !! x = nxt k !! x) ->
  (forall x, x ∈ xs ++ [z] -> prv k' !! x = prv k !! x) ->
  dseg k a xs z -> dseg k' a xs z.
Proof.
  revert a. induction xs as [|x xs IH]; intros a Hn Hp; simpl.
  - rewrite Hn, Hp by set_solver. done.
  - intros (H1 & H2 & H3). rewrite Hn, Hp by set_solver. split_and!; try done.
    apply IH; [set_solver|set_solver|done].
Qed.

Lemma dseg_app k a xs x ys z :
  dseg k a (xs ++ x :: ys) z <-> dseg k a xs x /\ dseg k x ys z.
Proof.
  revert a. induction xs as [|y xs IH]; intros a; simpl; [tauto|]. rewrite IH. tauto.
Qed.

(** The successor of a node and the predecessor of the next, when the node is unlinked. *)
Lemma dseg_first k x ys z :
  dseg k x ys z -> exists n, nxt k !! x = Some n /\ prv k !! n = Some x /\ n ∈ ys ++ [z] /\
    forall a k', nxt k' !! a = Some n -> prv k' !! n = Some a ->
      (forall y, y ∈ ys -> nxt k' !! y = nxt k !! y) ->
      (forall y, y ∈ ys ++ [z] -> y <> n -> prv k' !! y = prv k !! y) ->
      NoDup (ys ++ [z]) -> dseg k' a ys z.
Proof.
  destruct ys as [|y ys]; simpl.
  - intros [H1 H2]. exists z. split_and!; [done|done|set_solver|by auto].
  - intros (H1 & H2 & H3). exists y. split_and!; [done|done|set_solver|].
    intros a k' Ha Hp Hn Hpp Hnd. split_and!; try done.
    apply NoDup_cons in Hnd as [Hy Hnd].
    eapply dseg_agree; [..|done]; [auto|]. intros w Hw. apply Hpp; [set_solver|]. set_solver.
Qed.

(** The last link of a segment, to redirect it. *)
Lemma dseg_last k a xs z :
  dseg k a xs z -> exists p, prv k !! z = Some p /\ nxt k !! p = Some z /\ p ∈ a :: xs /\
    forall z' k', nxt k' !! p = Some z' -> prv k' !! z' = Some p ->
      (forall x, x ∈ a :: xs -> x <> p -> nxt k' !! x = nxt k !! x) ->
      (forall x, x ∈ xs -> prv k' !! x = prv k !! x) ->
      NoDup (a :: xs) -> dseg k' a xs z'.
Proof.
  revert a. induction xs as [|x xs IH]; intros a; simpl.
  - intros [H1 H2]. exists a. split_and!; [done|done|set_solver|by auto].
  - intros (H1 & H2 & H3). apply IH in H3 as (p & Hp & Hn & Hin & H).
    exists p. split_and!; [done|done|set_solver|].
    intros z' k' Hn' Hp' Hnn Hpp Hnd. apply NoDup_cons in Hnd as [Ha Hnd].
    assert (a <> p) by set_solver.
    rewrite Hnn, Hpp by set_solver. split_and!; try done.
    apply H; try done; set_solver.
Qed.

Lemma deleteSelf_unlinked s k : nxt k !! s = None -> prv k !! s = None ->
  forall x, nxt (deleteSelf s k) !! x = nxt k !! x /\ prv (deleteSelf s k) !! x = prv k !! x.
Proof. intros Hn Hp x. unfold deleteSelf. rewrite Hp, Hn. split; links; subst; by rewrite ?Hn, ?Hp. Qed.

Lemma deleteSelf_linked s p n k :
  prv k !! s = Some p -> nxt k !! s = Some n -> s <> p -> s <> n ->
  forall x,
    nxt (deleteSelf s k) !! x = (if decide (x = s) then None
      else if decide (x = p) then Some n else nxt k !! x) /\
    prv (deleteSelf s k) !! x = (if decide (x = s) then None
      else if decide (x = n) then Some p else prv k !! x).
Proof.
  intros Hp Hn Hsp Hsn x. unfold deleteSelf. rewrite Hp, Hn.
  rewrite nxt_set_next, decide_False, Hn, prv_set_next, Hp by done. split; links.
Qed.

Lemma newOutStreamList_spec h t : h <> t -> repr (newOutStreamList h t) [].
Proof.
  intros Hht. split_and!; simpl.
  - split; links.
  - repeat constructor; set_solver.
  - intros x Hx. split; links; set_solver.
Qed.

Lemma stream_enqueue_spec s l xs :
  repr l xs -> s ∉ head l :: tail l :: xs ->
  exists l', enqueue s l = Some l' /\ repr l' (xs ++ [s]) /\ head l' = head l /\ tail l' = tail l.
Proof.
  intros (Hd & Hnd & Hout) Hs. unfold enqueue.
  destruct (dseg_last _ _ _ _ Hd) as (e & He & Hne & Hin & Hre).
  rewrite He. simpl. eexists. split; [done|]. split; [|done].
  inversion_clear Hnd as [|? ? Hh Hnd']. inversion_clear Hnd' as [|? ? Ht Hnd].
  assert (e <> tail l /\ s <> e /\ s <> tail l /\ s <> head l /\ head l <> tail l) as (?&?&?&?&?)
    by set_solver.
  split_and!; simpl.
  - apply dseg_app. split.
    + apply Hre; [links|links| | |constructor; set_solver].
      * intros x Hx Hxe. links; set_solver.
      * intros x Hx. links; set_solver.
    + simpl. split; links.
  - constructor; [set_solver|]. constructor; [set_solver|].
    apply NoDup_app. split_and!; [done|set_solver|apply NoDup_singleton].
  - intros x Hx. destruct (Hout x) as [? ?]; [set_solver|].
    split; links; set_solver.
Qed.

Lemma delete_linked_spec s l xs1 xs2 :
  repr l (xs1 ++ s :: xs2) -> repr (delete_from s l) (xs1 ++ xs2).
Proof.
  intros (Hd & Hnd & Hout). apply dseg_app in Hd as [H1 H2].
  destruct (dseg_last _ _ _ _ H1) as (p & Hp & Hnp & Hpin & Hre1).
  destruct (dseg_first _ _ _ _ H2) as (n & Hn & Hpn & Hnin & _).
  inversion_clear Hnd as [|? ? Hh Hnd']. inversion_clear Hnd' as [|? ? Ht Hnd].
  apply NoDup_app in Hnd as (Hn1 & Hdis & Hn2). apply NoDup_cons in Hn2 as [Hs2 Hn2].
  assert (s <> p /\ s <> n) as [Hsp Hsn] by set_solver.
  pose proof (deleteSelf_linked s p n _ Hp Hn Hsp Hsn) as Hdel.
  split_and!; simpl.
  - assert (NoDup (xs2 ++ [tail l])) as Hnt.
    { apply NoDup_app. split_and!; [done|set_solver|apply NoDup_singleton]. }
    destruct xs2 as [|y xs2].
    + simpl in H2. destruct H2 as [Hnt' _]. rewrite app_nil_r. simplify_eq.
      apply Hre1; [| | | |constructor; set_solver].
      * destruct (Hdel p) as [-> _]. links.
      * destruct (Hdel (tail l)) as [_ ->]. links.
      * intros x Hx Hxp. destruct (Hdel x) as [-> _]. clear Hdel Hre1 Hout. links. set_solver.
      * intros x Hx. destruct (Hdel x) as [_ ->]. clear Hdel Hre1 Hout. links; set_solver.
    + simpl in H2. destruct H2 as (Hy & _ & H3). simplify_eq.
      apply dseg_app. split.
      * apply Hre1; [| | | |constructor; set_solver].
        -- destruct (Hdel p) as [-> _]. links.
        -- destruct (Hdel y) as [_ ->]. links.
        -- intros x Hx Hxp. destruct (Hdel x) as [-> _]. clear Hdel Hre1 Hout. links. set_solver.
        -- intros x Hx. destruct (Hdel x) as [_ ->]. clear Hdel Hre1 Hout. links; set_solver.
      * eapply dseg_agree; [..|done].
        -- intros x Hx. destruct (Hdel x) as [-> _]. clear Hdel Hre1 Hout. links; set_solver.
        -- intros x Hx. destruct (Hdel x) as [_ ->].
           clear Hdel Hre1 Hout. apply NoDup_cons in Hnt as [Hy' _]. links; set_solver.
  - constructor; [set_solver|]. constructor; [set_solver|].
    apply NoDup_app. split_and!; [done|set_solver|done].
  - intros x Hx. destruct (Hdel x) as [-> ->].
    destruct (decide (x = s)) as [->|Hxs]; [done|].
    destruct (Hout x) as [? ?]; [set_solver|]. links; set_solver.
Qed.

Lemma delete_unlinked_spec s l xs :
  repr l xs -> s ∉ head l :: tail l :: xs -> repr (delete_from s l) xs.
Proof.
  intros (Hd & Hnd & Hout) Hs. destruct (Hout s Hs) as [H1 H2].
  pose proof (deleteSelf_unlinked s _ H1 H2) as Hdel.
  split_and!; simpl; [|done|].
  - eapply dseg_agree; [..|done]; intros x _; apply Hdel.
  - intros x Hx. destruct (Hdel x) as [-> ->]. auto.
Qed.

Lemma delete_spec s l xs :
  repr l xs -> s <> head l -> s <> tail l -> repr (delete_from s l) (filter (fun x : loc => x <> s) xs).
Proof.
  intros Hr Hh Ht. pose proof Hr as (_ & Hnd & _).
  inversion_clear Hnd as [|? ? _ Hnd']. inversion_clear Hnd' as [|? ? _ Hnd].
  assert (forall ys : list loc, s ∉ ys -> filter (fun x : loc => x <> s) ys = ys) as Hf.
  { intros ys Hy. induction ys as [|y ys IH]; [done|]. rewrite filter_cons, decide_True by set_solver.
    f_equal. apply IH. set_solver. }
  destruct (decide (s ∈ xs)) as [Hin|Hni].
  - apply list_elem_of_split in Hin as (xs1 & xs2 & ->).
    apply NoDup_app in Hnd as (_ & Hdis & Hn2). apply NoDup_cons in Hn2 as [Hs2 _].
    rewrite filter_app, filter_cons, decide_False by (intros []; done).
    rewrite !Hf by set_solver. by apply delete_linked_spec.
  - rewrite Hf by done. apply delete_unlinked_spec; [done|set_solver].
Qed.

Lemma stream_dequeue_spec l xs :
  repr l xs -> exists l', dequeue l = Some (List.hd_error xs, l') /\ repr l' (List.tl xs)
    /\ head l' = head l /\ tail l' = tail l.
Proof.
  intros Hr. pose proof Hr as (Hd & Hnd & Hout). unfold dequeue.
  destruct xs as [|x xs]; simpl in Hd.
  - destruct Hd as [-> _]. simpl. rewrite decide_True by done. eauto.
  - destruct Hd as [-> _]. simpl. inversion_clear Hnd as [|? ? Hh Hnd'].
    inversion_clear Hnd' as [|? ? Ht Hnd]. rewrite decide_False by set_solver.
    eexists. split; [done|]. split; [|done]. by apply (delete_linked_spec x l [] xs).
Qed.

(** ** Trace refinement *)

Inductive op := Enq (s : loc) | Deq | Del (s : loc).

(** [None] is a nil dereference. *)
Definition istep (o : op) (l : outStreamList) : option (option loc * outStreamList) :=
  match o with
  | Enq s => l' ← enqueue s l; Some (None, l')
  | Deq => dequeue l
  | Del s => Some (None, delete_from s l)
  end.

Definition astep (o : op) (xs : list loc) : option loc * list loc :=
  match o with
  | Enq s => (None, xs ++ [s])
  | Deq => (List.hd_error xs, List.tl xs)
  | Del s => (None, filter (fun x : loc => x <> s) xs)
  end.

(** Only objects other than the sentinels are passed in, and an object is enqueued only
    when it is not linked. *)
Definition op_ok (h t : loc) (o : op) (xs : list loc) : bool :=
  match o with
  | Enq s => bool_decide (s ∉ h :: t :: xs)
  | Deq => true
  | Del s => bool_decide (s <> h) && bool_decide (s <> t)
  end.

Fixpoint iruns (os : list op) (l : outStreamList) : option (list (option loc)) :=
  match os with
  | [] => Some []
  | o :: os => '(r, l') ← istep o l; rs ← iruns os l'; Some (r :: rs)
  end.

Fixpoint aruns (h t : loc) (os : list op) (xs : list loc) : option (list (option loc)) :=
  match os with
  | [] => Some []
  | o :: os =>
      if op_ok h t o xs then
        let '(r, xs') := astep o xs in rs ← aruns h t os xs'; Some (r :: rs)
      else None
  end.

Lemma stream_istep_refines o l xs :
  repr l xs -> op_ok (head l) (tail l) o xs = true ->
  exists l', istep o l = Some ((astep o xs).1, l') /\ repr l' (astep o xs).2
    /\ head l' = head l /\ tail l' = tail l.
Proof.
  intros Hr Hok. destruct o as [s| |s]; simpl in *.
  - apply bool_decide_eq_true in Hok.
    destruct (stream_enqueue_spec s l xs Hr Hok) as (l' & -> & Hr' & Hh & Ht). simpl. eauto.
  - destruct (stream_dequeue_spec l xs Hr) as (l' & -> & H). eauto.
  - apply andb_prop in Hok as [H1%bool_decide_eq_true H2%bool_decide_eq_true].
    eexists. split; [done|]. split; [by apply delete_spec|done].
Qed.

(** The doubly linked list of active streams refines a duplicate-free list: on every
    sequence of operations that enqueues only unlinked objects it dereferences no nil, and
    enqueue appends, dequeue takes the first, and [deleteSelf] removes the object from
    wherever it is, or does nothing when it is not linked. *)
Theorem outStreamList_refines_list h t os rs :
  h <> t -> aruns h t os [] = Some rs -> iruns os (newOutStreamList h t) = Some rs.
Proof.
  intros Hht. assert (forall l xs rs, repr l xs -> head l = h -> tail l = t ->
    aruns h t os xs = Some rs -> iruns os l = Some rs) as H.
  { induction os as [|o os IH]; intros l xs rs' Hr <- <- Ha; simpl in *; [done|].
    destruct (op_ok _ _ o xs) eqn:Hok; [|done].
    destruct (stream_istep_refines o l xs Hr Hok) as (l' & -> & Hr' & Hh & Ht).
    simpl. destruct (astep o xs) as [r xs']. simpl in *.
    destruct (aruns _ _ os xs') as [rs0|] eqn:E; simplify_eq/=.
    rewrite (IH l' xs' rs0); [done|..]; congruence. }
  apply H; [by apply newOutStreamList_spec|done..].
Qed.

Lemma outStreamList_refines_list_witness :
  iruns [Enq 2; Enq 3; Enq 4; Del 3; Deq; Del 7; Enq 2; Deq; Deq; Deq]%nat (newOutStreamList 0%nat 1%nat)
  = Some [None; None; None; None; Some 2; None; None; Some 4; Some 2; None]%nat.
Proof.
  apply outStreamList_refines_list; [lia|]. vm_compute. reflexivity.
Defined.

End OutStreamList.
