(* ===== verification/ControlBuf.v ===== *)
(** The control buffer between the transport's goroutines and the loopy writer
    (src/pkg/remote/trans/nphttp2/grpc/controlbuf.go, [controlBuffer] and the item types).

    The mutex makes each critical section one atomic step; what happens between them (the
    wake-up send after unlocking, the consumer's select, a reader blocked in [throttle]) is
    a step of its own, so the theorems range over every interleaving of any number of
    producers with the single consumer. *)

From S2P Require Import Prelude.

(** A ConnectionError with its description, temporary and ignorable flags, or any other
    error by its message. *)
Inductive error :=
| ConnectionError (desc : string) (temp ignorable : bool)
| OtherError (desc : string).

#[export] Instance error_eq_dec : EqDecision error.
Proof. solve_decision. Defined.

Definition ErrConnClosing : error := ConnectionError "transport is closing" true true.
Definition errGracefulShutdown : error := OtherError "graceful shutdown".

Definition isIgnorable (e : error) : bool :=
  match e with ConnectionError _ _ i => i | OtherError _ => false end.

(** A callback stored in an item is identified by a number; calling it is an event. *)
Definition callback := Z.

(** * Items *)

Record cleanupStream := mkCleanup {
  cs_streamID : Z;
  rst : bool;
  rstCode : Z;
  cs_onWrite : callback;
  onFinishWrite : option callback
}.

(** [initStream] is called with the stream id and may fail. *)
Record headerFrame := mkHeader {
  h_streamID : Z;
  hf : list (string * string);
  h_endStream : bool;
  initStream : option (Z -> option error);
  h_onWrite : option callback;
  h_wq : Z;
  cleanup : option cleanupStream;
  onOrphaned : option callback
}.

(** [h] and [d] are the unsent parts of the two payload slices. *)
Record dataFrame := mkData {
  d_streamID : Z;
  d_endStream : bool;
  d_h : list byte;
  d_d : list byte;
  resetPingStrikes : option callback
}.

Record goAway := mkGoAway {
  ga_code : Z;
  debugData : list byte;
  headsUp : bool;
  closeConn : bool
}.

Inductive cbItem :=
| RegisterStream (streamID : Z) (wq : Z)
| HeaderFrame (h : headerFrame)
| CleanupStream (c : cleanupStream)
| DataFrame (d : dataFrame)
| IncomingWindowUpdate (streamID increment : Z)
| OutgoingWindowUpdate (streamID increment : Z)
| IncomingSettings (ss : list (Z * Z))
| OutgoingSettings (ss : list (Z * Z))
| IncomingGoAway
| GoAway (g : goAway)
| Ping (ack : bool) (data : list byte)
| OutFlowControlSizeRequest (resp : Z).

Definition isTransportResponseFrame (it : cbItem) : bool :=
  match it with
  | HeaderFrame h => match cleanup h with Some c => rst c | None => false end
  | CleanupStream c => rst c
  | IncomingSettings _ => true
  | Ping _ _ => true
  | _ => false
  end.

Definition maxQueuedTransportResponseFrames : Z := 50.

(** * The buffer *)
Module ControlBuffer.

Abbreviation chan := nat.

(** [ch]: the one-slot wake-up channel holds a token.  [done]: closed.  [list]: the queued
    items (ItemList.v refines the linked list to it).  [trfChan]: the current throttling
    channel; [nchan] channels have been made and [closedChans] are the closed ones. *)
Record controlBuffer := mkCb {
  ch : bool;
  done : bool;
  consumerWaiting : bool;
  items : list cbItem;
  err : option error;
  transportResponseFrames : Z;
  trfChan : option chan;
  nchan : chan;
  closedChans : gset chan
}.

Definition newControlBuffer : controlBuffer :=
  mkCb false false false [] None 0 None 0%nat ∅.

(** [f != nil && !f(it)]. *)
Definition refused (f : option (cbItem -> bool)) (it : cbItem) : bool :=
  match f with Some f => negb (f it) | None => false end.

(** The critical section of [executeAndPut]: its results, whether the consumer must be
    woken up after unlocking, and the buffer. *)
Definition executeAndPut (f : option (cbItem -> bool)) (it : cbItem) (c : controlBuffer)
    : (bool * option error) * bool * controlBuffer :=
  match err c with
  | Some e => ((false, Some e), false, c)
  | None =>
      if refused f it then ((false, None), false, c)
      else
        let wakeUp := consumerWaiting c in
        let c := mkCb (ch c) (done c) false (items c ++ [it]) (err c)
                      (transportResponseFrames c) (trfChan c) (nchan c) (closedChans c) in
        if isTransportResponseFrame it then
          let n := transportResponseFrames c + 1 in
          if n =? maxQueuedTransportResponseFrames then
            ((true, None), wakeUp,
             mkCb (ch c) (done c) (consumerWaiting c) (items c) (err c) n
                  (Some (nchan c)) (S (nchan c)) (closedChans c))
          else
            ((true, None), wakeUp,
             mkCb (ch c) (done c) (consumerWaiting c) (items c) (err c) n
                  (trfChan c) (nchan c) (closedChans c))
        else ((true, None), wakeUp, c)
  end.

Definition put (it : cbItem) (c : controlBuffer) : option error * bool * controlBuffer :=
  let '((_, e), wakeUp, c) := executeAndPut None it c in (e, wakeUp, c).

Definition execute (f : cbItem -> bool) (it : cbItem) (c : controlBuffer) : bool * option error :=
  match err c with
  | Some e => (false, Some e)
  | None => if f it then (true, None) else (false, None)
  end.

(** The non-blocking send on [ch]. *)
Definition signal (c : controlBuffer) : controlBuffer :=
  mkCb true (done c) (consumerWaiting c) (items c) (err c)
       (transportResponseFrames c) (trfChan c) (nchan c) (closedChans c).

Inductive got :=
| GItem (h : cbItem)
| GErr (e : error)
| GNil
| GWait.

(** One iteration of [get] up to the select; [None] is the nil dereference when the
    throttling channel to close does not exist. *)
Definition get_iter (block : bool) (c : controlBuffer) : option (got * controlBuffer) :=
  match err c with
  | Some e => Some (GErr e, c)
  | None =>
      match items c with
      | h :: l =>
          let c := mkCb (ch c) (done c) (consumerWaiting c) l (err c)
                        (transportResponseFrames c) (trfChan c) (nchan c) (closedChans c) in
          if isTransportResponseFrame h then
            if transportResponseFrames c =? maxQueuedTransportResponseFrames then
              k ← trfChan c;
              Some (GItem h,
                    mkCb (ch c) (done c) (consumerWaiting c) (items c) (err c)
                         (transportResponseFrames c - 1) None (nchan c) ({[k]} ∪ closedChans c))
            else
              Some (GItem h,
                    mkCb (ch c) (done c) (consumerWaiting c) (items c) (err c)
                         (transportResponseFrames c - 1) (trfChan c) (nchan c) (closedChans c))
          else Some (GItem h, c)
      | [] =>
          if block then
            Some (GWait, mkCb (ch c) (done c) true (items c) (err c)
                              (transportResponseFrames c) (trfChan c) (nchan c) (closedChans c))
          else Some (GNil, c)
      end
  end.

(** What [finish] reports for a dropped item. *)
Definition orphan (it : cbItem) : option callback :=
  match it with HeaderFrame h => onOrphaned h | _ => None end.

(** Returns the error and the [onOrphaned] callbacks it calls, in order. *)
Definition finish (e : error) (c : controlBuffer) : error * list callback * controlBuffer :=
  match err c with
  | Some e0 => (e0, [], c)
  | None =>
      (e, omap orphan (items c),
       mkCb (ch c) (done c) (consumerWaiting c) [] (Some e)
            (transportResponseFrames c) (trfChan c) (nchan c) (closedChans c))
  end.

(** What [throttle] waits on. *)
Definition throttle (c : controlBuffer) : option chan := trfChan c.

(** * The goroutines *)

(** The loopy goroutine: outside [get], about to take the lock in the blocking loop, or
    in the select. *)
Inductive consumer := CIdle | CLoop | CWait.

Inductive reader := TIdle | TBlocked (k : chan).

Record sys := mkSys {
  cb : controlBuffer;
  pc : consumer;
  pend : nat;                 (* producers between unlock and the wake-up send *)
  rd : reader;
  accepted : list cbItem;     (* items executeAndPut returned true for *)
  delivered : list cbItem;    (* items get returned *)
  dropped : list cbItem;      (* items in the list when finish took effect *)
  orphaned : list callback    (* onOrphaned calls *)
}.

Definition init : sys := mkSys newControlBuffer CIdle 0 TIdle [] [] [] [].

Definition ack_put (r : (bool * option error) * bool * controlBuffer) (it : cbItem) (s : sys) : sys :=
  let '((ok, _), wakeUp, c) := r in
  mkSys c (pc s) (if wakeUp then S (pend s) else pend s) (rd s)
        (if ok then accepted s ++ [it] else accepted s) (delivered s) (dropped s) (orphaned s).

Definition after_get (r : got) (c : controlBuffer) (s : sys) : sys :=
  match r with
  | GItem h => mkSys c CIdle (pend s) (rd s) (accepted s) (delivered s ++ [h]) (dropped s) (orphaned s)
  | GWait => mkSys c CWait (pend s) (rd s) (accepted s) (delivered s) (dropped s) (orphaned s)
  | GErr _ | GNil => mkSys c CIdle (pend s) (rd s) (accepted s) (delivered s) (dropped s) (orphaned s)
  end.

Definition do_finish (e : error) (s : sys) (p : consumer) : sys :=
  let '(_, cbs, c) := finish e (cb s) in
  mkSys c p (pend s) (rd s) (accepted s) (delivered s)
        (match err (cb s) with None => items (cb s) | Some _ => dropped s end)
        (orphaned s ++ cbs).

Definition set_cb (c : controlBuffer) (s : sys) : sys :=
  mkSys c (pc s) (pend s) (rd s) (accepted s) (delivered s) (dropped s) (orphaned s).
Definition set_rd (t : reader) (s : sys) : sys :=
  mkSys (cb s) (pc s) (pend s) t (accepted s) (delivered s) (dropped s) (orphaned s).

Inductive step : sys -> sys -> Prop :=
| step_put s f it : step s (ack_put (executeAndPut f it (cb s)) it s)
| step_wake s n : pend s = S n ->
    step s (mkSys (signal (cb s)) (pc s) n (rd s) (accepted s) (delivered s) (dropped s) (orphaned s))
| step_get s block r c :
    pc s = CIdle -> get_iter block (cb s) = Some (r, c) -> step s (after_get r c s)
| step_loop s r c :
    pc s = CLoop -> get_iter true (cb s) = Some (r, c) -> step s (after_get r c s)
| step_recv s :
    pc s = CWait -> ch (cb s) = true ->
    step s (mkSys (mkCb false (done (cb s)) (consumerWaiting (cb s)) (items (cb s)) (err (cb s))
                        (transportResponseFrames (cb s)) (trfChan (cb s)) (nchan (cb s))
                        (closedChans (cb s)))
                  CLoop (pend s) (rd s) (accepted s) (delivered s) (dropped s) (orphaned s))
| step_get_done s :
    pc s = CWait -> done (cb s) = true -> step s (do_finish ErrConnClosing s CIdle)
| step_finish s e : step s (do_finish e s (pc s))
| step_close s :
    step s (set_cb (mkCb (ch (cb s)) true (consumerWaiting (cb s)) (items (cb s)) (err (cb s))
                         (transportResponseFrames (cb s)) (trfChan (cb s)) (nchan (cb s))
                         (closedChans (cb s))) s)
| step_throttle s k : rd s = TIdle -> throttle (cb s) = Some k -> step s (set_rd (TBlocked k) s)
| step_unthrottle s k : rd s = TBlocked k -> k ∈ closedChans (cb s) -> step s (set_rd TIdle s)
| step_throttle_done s k : rd s = TBlocked k -> done (cb s) = true -> step s (set_rd TIdle s).

Definition reachable (s : sys) : Prop := rtc step init s.

(** * Invariants *)

Definition responses (l : list cbItem) : Z :=
  lenZ (filter (fun it => isTransportResponseFrame it = true) l).

Definition trf_inv (c : controlBuffer) : Prop :=
  (err c = None ->
     transportResponseFrames c = responses (items c) /\
     (is_Some (trfChan c) <-> maxQueuedTransportResponseFrames <= transportResponseFrames c)) /\
  (forall k, (k < nchan c)%nat -> trfChan c <> Some k -> k ∈ closedChans c).

Definition flow_inv (s : sys) : Prop :=
  match err (cb s) with
  | None => accepted s = delivered s ++ items (cb s) /\ orphaned s = []
  | Some _ => items (cb s) = [] /\ accepted s = delivered s ++ dropped s /\
              orphaned s = omap orphan (dropped s)
  end.

Definition wake_inv (s : sys) : Prop :=
  err (cb s) = None ->
  (consumerWaiting (cb s) = true -> items (cb s) = []) /\
  (pc s = CWait -> consumerWaiting (cb s) = true \/ ch (cb s) = true \/ (0 < pend s)%nat).

Definition throttle_inv (s : sys) : Prop :=
  (forall k, trfChan (cb s) = Some k -> (k < nchan (cb s))%nat) /\
  (forall k, rd s = TBlocked k -> (k < nchan (cb s))%nat).

Definition inv (s : sys) : Prop := trf_inv (cb s) /\ flow_inv s /\ wake_inv s /\ throttle_inv s.

Lemma responses_app l1 l2 : responses (l1 ++ l2) = responses l1 + responses l2.
Proof. unfold responses, lenZ. rewrite filter_app, length_app. lia. Qed.

Lemma responses_cons it l :
  responses (it :: l) = (if isTransportResponseFrame it then 1 else 0) + responses l.
Proof.
  change (it :: l) with ([it] ++ l). rewrite responses_app. f_equal. unfold responses.
  simpl. rewrite filter_cons. destruct (isTransportResponseFrame it); [by rewrite decide_True|].
  by rewrite decide_False.
Qed.

Lemma responses_nonneg l : 0 <= responses l.
Proof. unfold responses, lenZ. lia. Qed.

(** ** Each critical section preserves the counters *)

Lemma executeAndPut_trf f it c :
  trf_inv c -> (forall k, trfChan c = Some k -> (k < nchan c)%nat) ->
  trf_inv (executeAndPut f it c).2 /\
  (forall k, trfChan (executeAndPut f it c).2 = Some k -> (k < nchan (executeAndPut f it c).2)%nat) /\
  (nchan c <= nchan (executeAndPut f it c).2)%nat.
Proof.
  intros Ht H3. pose proof Ht as [H1 H2]. unfold executeAndPut.
  destruct (err c) eqn:He; [by split_and!|]. destruct (H1 eq_refl) as [Hn Hc].
  destruct (refused f it); [by split_and!|]. destruct (isTransportResponseFrame it) eqn:Hi; simpl.
  2: { split; [|auto]. split; [|done]. simpl. intros _.
       rewrite responses_app, responses_cons, Hi. split; [|done].
       unfold responses at 2, lenZ; simpl. lia. }
  assert (responses (items c ++ [it]) = transportResponseFrames c + 1) as Hr.
  { rewrite responses_app, responses_cons, Hi. unfold responses at 2, lenZ; simpl. lia. }
  destruct (_ + 1 =? _) eqn:E; bool_to_prop; simpl.
  - split_and!; [|intros k Hk; simplify_eq/=; lia|lia]. split; simpl.
    + intros _. split; [lia|]. rewrite E. split; [lia|by eexists].
    + intros k Hk Hne. apply H2; [|intros Hs].
      * assert (k <> nchan c) by (intros ->; done). lia.
      * assert (maxQueuedTransportResponseFrames <= transportResponseFrames c)
          by (apply Hc; by eexists). lia.
  - split_and!; [|done|lia]. split; simpl; [|done]. intros _. split; [lia|].
    rewrite Hc. lia.
Qed.

Lemma get_iter_trf b c r c' :
  trf_inv c -> get_iter b c = Some (r, c') ->
  trf_inv c' /\ nchan c' = nchan c /\ (forall k, trfChan c' = Some k -> trfChan c = Some k).
Proof.
  intros Ht. pose proof Ht as [H1 H2]. unfold get_iter.
  destruct (err c) eqn:He; [intros [= <- <-]; by split_and!|].
  destruct (H1 eq_refl) as [Hn Hc].
  destruct (items c) as [|h l] eqn:Hl.
  { destruct b; intros [= <- <-]; split_and!; done. }
  rewrite responses_cons in Hn. pose proof (responses_nonneg l).
  destruct (isTransportResponseFrame h) eqn:Hi; simpl.
  2: { intros [= <- <-]. split; [|done]. split; simpl; [|done]. intros _.
       rewrite <- Hc. split; [lia|done]. }
  destruct (_ =? _) eqn:E; bool_to_prop.
  - assert (is_Some (trfChan c)) as [k Hk] by (apply Hc; lia). rewrite Hk. simpl.
    intros [= <- <-]. split; [|done]. split; simpl.
    + intros _. split; [lia|]. split; [by intros [? [=]]|lia].
    + intros j Hj _. destruct (decide (j = k)); [set_solver|].
      apply elem_of_union_r, H2; [done|congruence].
  - intros [= <- <-]. split; [|done]. split; simpl; [|done]. intros _. split; [lia|].
    rewrite Hc. lia.
Qed.

(** The consumer's critical section never dereferences a missing throttling channel. *)
Lemma get_iter_total b c : trf_inv c -> is_Some (get_iter b c).
Proof.
  intros [H1 _]. unfold get_iter. destruct (err c); [by eexists|].
  destruct (H1 eq_refl) as [Hn Hc].
  destruct (items c) as [|h l]; [case_match; by eexists|].
  case_match; [|by eexists]. case_match eqn:E; [|by eexists]. simpl in *. bool_to_prop.
  assert (is_Some (trfChan c)) as [k ->] by (apply Hc; lia). by eexists.
Qed.

Lemma inv_ack_put f it s : inv s -> inv (ack_put (executeAndPut f it (cb s)) it s).
Proof.
  intros (Ht & Hf & Hw & Hk & Hr).
  destruct (executeAndPut_trf f it (cb s) Ht Hk) as (Ht' & Hk' & Hn').
  destruct (executeAndPut f it (cb s)) as [[[ok e] wakeUp] c] eqn:E. simpl in *.
  split_and!; [done| | |split; simpl; [done|intros k Hk0; specialize (Hr k Hk0); lia]].
  - unfold flow_inv in *. simpl. revert E. unfold executeAndPut.
    destruct (err (cb s)) eqn:He; [intros ?; simplify_eq/=; by rewrite He|].
    destruct Hf as [Ha Ho]. destruct (refused f it); [intros ?; simplify_eq/=; by rewrite He|].
    repeat case_match; intros ?; simplify_eq/=; simpl in *; rewrite ?He; simplify_eq;
      rewrite Ha, <- (assoc_L (++)); done.
  - unfold wake_inv in *. simpl. revert E. unfold executeAndPut.
    destruct (err (cb s)) eqn:He; [intros ?; simplify_eq/=; by rewrite He|].
    destruct (Hw eq_refl) as [Hw1 Hw2].
    destruct (refused f it); [intros ?; simplify_eq/=; by rewrite He|].
    assert (forall b : bool, b = consumerWaiting (cb s) ->
      (false = true -> items (cb s) ++ [it] = []) /\
      (pc s = CWait -> false = true \/ ch (cb s) = true \/ (0 < if b then S (pend s) else pend s)%nat)) as Hgo.
    { intros b ->. split; [done|]. intros Hp. right.
      destruct (Hw2 Hp) as [-> |[?|?]]; [right; lia|by left|right; case_match; lia]. }
    destruct (isTransportResponseFrame it); [destruct (_ + 1 =? _)|];
      intros ? _; simplify_eq/=; by apply Hgo.
Qed.

Lemma inv_after_get b r c s :
  inv s -> pc s <> CWait -> get_iter b (cb s) = Some (r, c) -> inv (after_get r c s).
Proof.
  intros (Ht & Hf & Hw & Hk & Hr) Hpc E.
  destruct (get_iter_trf _ _ _ _ Ht E) as (Ht' & Hn & Hk').
  assert (cb (after_get r c s) = c) as Hcb by (by destruct r).
  assert (rd (after_get r c s) = rd s) as Hrd by (by destruct r).
  split_and!; rewrite ?Hcb; [done| | |split; rewrite ?Hcb, ?Hrd, Hn; auto].
  - unfold flow_inv in *. rewrite Hcb. revert E. unfold get_iter.
    destruct (err (cb s)) eqn:He; [intros [= <- <-]; simpl; by rewrite He|].
    destruct Hf as [Ha Ho]. destruct (items (cb s)) as [|h l] eqn:Hl.
    { case_match; intros [= <- <-]; simpl; rewrite ?Hl, ?He; done. }
    assert (accepted s = (delivered s ++ [h]) ++ l) as Ha' by (by rewrite <- (assoc_L (++))).
    repeat case_match; try destruct (trfChan (cb s)); intros [= <- <-]; simpl; rewrite ?He; done.
  - unfold wake_inv in *. rewrite Hcb. revert E. unfold get_iter.
    destruct (err (cb s)) eqn:He; [intros [= <- <-]; by rewrite He|].
    destruct (Hw eq_refl) as [Hw1 _]. destruct (items (cb s)) as [|h l] eqn:Hl.
    { destruct b; intros [= <- <-] _; simpl; rewrite ?Hl; by auto. }
    assert (consumerWaiting (cb s) = true -> l = []) as Hw1' by (intros Hc; by specialize (Hw1 Hc)).
    repeat case_match; try destruct (trfChan (cb s)); intros [= <- <-] _; simpl; by split.
Qed.

Lemma inv_do_finish e s p : inv s -> inv (do_finish e s p).
Proof.
  intros (Ht & Hf & Hw & Hk & Hr). unfold do_finish, finish, flow_inv, inv in *.
  destruct (err (cb s)) eqn:He; simpl.
  - rewrite app_nil_r. split_and!; [done| |intros He'; simpl in He'; congruence|done]. unfold flow_inv; simpl. by rewrite He.
  - split_and!; simpl; [|split_and!; try done|by intros [=]|done].
    + destruct Ht as [_ H2]. split; simpl; [by intros [=]|done].
    + by destruct Hf.
    + by destruct Hf as [_ ->].
Qed.

Lemma inv_step s s' : step s s' -> inv s -> inv s'.
Proof.
  intros Hs Hi. destruct Hs.
  - by apply inv_ack_put.
  - destruct Hi as (Ht & Hf & Hw & Hk & Hr). split_and!; try done.
    intros He. destruct (Hw He) as [Hw1 Hw2]. split; simpl; auto.
  - eapply inv_after_get; [done|congruence|done].
  - eapply inv_after_get; [done|congruence|done].
  - destruct Hi as (Ht & Hf & Hw & Hk & Hr). split_and!; try done.
    intros He. destruct (Hw He) as [Hw1 Hw2]. by split.
  - by apply inv_do_finish.
  - by apply inv_do_finish.
  - destruct Hi as (Ht & Hf & Hw & Hk & Hr). by split_and!.
  - destruct Hi as (Ht & Hf & Hw & Hk & Hr). split_and!; try done.
    split; simpl; [done|]. intros j [= <-]. by apply Hk.
  - destruct Hi as (Ht & Hf & Hw & Hk & Hr). by split_and!.
  - destruct Hi as (Ht & Hf & Hw & Hk & Hr). by split_and!.
Qed.

Lemma inv_init : inv init.
Proof.
  split_and!; [|done|done|done]. split; simpl; [|lia].
  intros _. split; [done|]. split; [by intros [? [=]]|]. unfold maxQueuedTransportResponseFrames. lia.
Qed.

Lemma inv_reachable s : reachable s -> inv s.
Proof.
  unfold reachable. pose proof inv_init as Hi. revert Hi. generalize init as s0.
  intros s0 Hi Hr. induction Hr; eauto using inv_step.
Qed.

(** * Properties *)

(** The control buffer never loses a wake-up.  In every reachable interleaving, if the
    consumer is blocked in [get] while an item is queued and the buffer has not been
    finished, it can return the first queued item, helped at most by a producer that still
    has to send its signal. *)
Theorem get_progress s h l :
  reachable s -> pc s = CWait -> err (cb s) = None -> items (cb s) = h :: l ->
  exists s', rtc step s s' /\ delivered s' = delivered s ++ [h] /\ pc s' = CIdle.
Proof.
  intros Hr Hp He Hl. destruct (inv_reachable s Hr) as (Ht & _ & Hw & _).
  destruct (Hw He) as [Hw1 Hw2].
  assert (forall s, trf_inv (cb s) -> pc s = CWait -> err (cb s) = None ->
    items (cb s) = h :: l -> ch (cb s) = true ->
    exists s', rtc step s s' /\ delivered s' = delivered s ++ [h] /\ pc s' = CIdle) as Hgo.
  { clear. intros s Ht Hp He Hl Hch. destruct s as [c p n t a d dr o]; simpl in *. subst p.
    set (c1 := mkCb false (done c) (consumerWaiting c) (items c) (err c)
      (transportResponseFrames c) (trfChan c) (nchan c) (closedChans c)).
    destruct (get_iter_total true c1) as [[r c2] E]; [done|].
    exists (after_get r c2 (mkSys c1 CLoop n t a d dr o)). split.
    - eapply rtc_l; [by apply step_recv|]. apply rtc_once. by apply step_loop.
    - assert (r = GItem h) as ->; [|done]. revert E. unfold get_iter, c1; simpl. rewrite He, Hl.
      repeat case_match; try destruct (trfChan c); by intros [= <-]. }
  destruct (Hw2 Hp) as [Hc|[Hch|Hpend]].
  - rewrite (Hw1 Hc) in Hl. done.
  - by apply Hgo.
  - destruct (pend s) as [|n] eqn:En; [lia|].
    edestruct (Hgo (mkSys (signal (cb s)) (pc s) n (rd s) (accepted s) (delivered s)
      (dropped s) (orphaned s))) as (s' & H1 & H2); [done..|].
    exists s'. split; [|done]. eapply rtc_l; [by apply step_wake|done].
Qed.

Definition sample_item : cbItem := Ping false [].

(** A state in which the consumer sleeps, an item is queued, and the producer that put it
    has not yet sent its signal. *)
Definition sleeping : sys :=
  mkSys (mkCb false false false [sample_item] None 1 None 0%nat ∅) CWait 1 TIdle
        [sample_item] [] [] [].

Lemma sleeping_reachable : reachable sleeping.
Proof.
  eapply rtc_l; [apply (step_get init true); [done|reflexivity]|].
  apply rtc_once. refine (step_put _ None sample_item).
Qed.

Lemma get_progress_witness :
  exists s', rtc step sleeping s' /\ delivered s' = [] ++ [sample_item] /\ pc s' = CIdle.
Proof.
  apply (get_progress sleeping sample_item []); [apply sleeping_reachable|reflexivity..].
Defined.

(** C6: order and conservation.  In every reachable state the consumer has received a
    prefix of the accepted items in the order of acceptance; until [finish] the rest is
    queued, and after it exactly the [onOrphaned] callbacks of the undelivered header
    frames have been called, once each. *)
Theorem accepted_delivered_or_orphaned s :
  reachable s ->
  match err (cb s) with
  | None => accepted s = delivered s ++ items (cb s) /\ orphaned s = []
  | Some _ => exists rest, accepted s = delivered s ++ rest /\ items (cb s) = []
                           /\ orphaned s = omap orphan rest
  end.
Proof.
  intros Hr. destruct (inv_reachable s Hr) as (_ & Hf & _). unfold flow_inv in Hf.
  destruct (err (cb s)); [|done]. exists (dropped s). tauto.
Qed.

Lemma accepted_delivered_or_orphaned_witness :
  accepted sleeping = delivered sleeping ++ items (cb sleeping) /\ orphaned sleeping = [].
Proof. apply (accepted_delivered_or_orphaned sleeping), sleeping_reachable. Defined.

(** Throttling follows the number of queued response frames.  In every reachable state
    of an unfinished buffer the counter is the number of queued transport response frames,
    [throttle] blocks exactly when there are at least fifty of them, and a reader already
    blocked is released as soon as there are fewer. *)
Theorem throttle_iff_fifty s :
  reachable s -> err (cb s) = None ->
  transportResponseFrames (cb s) = responses (items (cb s)) /\
  (is_Some (throttle (cb s)) <-> 50 <= responses (items (cb s))) /\
  (forall k, rd s = TBlocked k -> responses (items (cb s)) < 50 -> k ∈ closedChans (cb s)).
Proof.
  intros Hr He. destruct (inv_reachable s Hr) as ([H1 H2] & _ & _ & _ & H4).
  destruct (H1 He) as [Hn Hc]. unfold throttle, maxQueuedTransportResponseFrames in *.
  rewrite Hn in Hc. split_and!; try done; [by apply Hc..|].
  intros k Hk Hlt. apply H2; [auto|]. intros Hs.
  assert (50 <= responses (items (cb s))); [|lia]. apply Hc. by eexists.
Qed.

(** [n] queued pings, no throttling channel yet. *)
Definition flooded (n : nat) : sys :=
  mkSys (mkCb false false false (repeat sample_item n) None (Z.of_nat n) None 0%nat ∅)
        CIdle 0 TIdle (repeat sample_item n) [] [] [].

Lemma flooded_reachable n : (n < 50)%nat -> reachable (flooded n).
Proof.
  induction n as [|n IH]; intros Hn; [apply rtc_refl|].
  eapply rtc_r; [apply IH; lia|].
  replace (flooded (S n)) with (ack_put (executeAndPut None sample_item (cb (flooded n)))
    sample_item (flooded n)); [apply step_put|].
  unfold executeAndPut, flooded, maxQueuedTransportResponseFrames.
  replace (Z.of_nat (S n)) with (Z.of_nat n + 1) by lia. simpl.
  replace (Z.of_nat n + 1 =? 50) with false by (symmetry; apply Z.eqb_neq; lia).
  unfold ack_put. simpl. by rewrite <- (repeat_cons n sample_item).
Qed.

(** Fifty queued pings, a reader that blocked on them, and one ping taken out since. *)
Definition released : sys :=
  mkSys (mkCb false false false (repeat sample_item 49) None 49 None 1%nat {[0%nat]})
        CIdle 0 (TBlocked 0%nat) (repeat sample_item 50) [sample_item] [] [].

Lemma released_reachable : reachable released.
Proof.
  set (s1 := ack_put (executeAndPut None sample_item (cb (flooded 49))) sample_item (flooded 49)).
  assert (reachable s1) as H1.
  { eapply rtc_r; [apply (flooded_reachable 49); lia|]. apply step_put. }
  assert (reachable (set_rd (TBlocked 0%nat) s1)) as H2.
  { eapply rtc_r; [exact H1|]. apply step_throttle; vm_compute; reflexivity. }
  destruct (get_iter false (cb (set_rd (TBlocked 0%nat) s1))) as [[r c]|] eqn:E;
    [|vm_compute in E; done].
  assert (after_get r c (set_rd (TBlocked 0%nat) s1) = released) as Hs.
  { vm_compute in E. injection E as <- <-. vm_compute. reflexivity. }
  rewrite <- Hs. eapply rtc_r; [exact H2|]. eapply step_get; [|exact E]. vm_compute. reflexivity.
Qed.

Lemma throttle_iff_fifty_witness :
  rd released = TBlocked 0%nat /\ 0%nat ∈ closedChans (cb released).
Proof.
  split; [reflexivity|].
  apply (throttle_iff_fifty released); [apply released_reachable|reflexivity..].
Defined.

End ControlBuffer.
