(* ===== verification/Loopy.v ===== *)
(** The loopy writer: the goroutine that owns a connection's outgoing side
    (src/pkg/remote/trans/nphttp2/grpc/controlbuf.go, [loopyWriter] and its handlers).

    The state is the writer's fields with the heap of outStream objects; the linked lists
    are the plain lists ItemList.v refines them to.  The HPACK encoder, the framer's write
    errors, Go's map iteration order and the server's GOAWAY handler are the fields of the
    class [LoopyEnv], so every theorem holds for any behaviour of theirs. *)

From S2P Require Import Prelude ItemList ControlBuf.

Definition http2MaxFrameLen : Z := 16384.
Definition defaultWindowSize : Z := 65535.
Definition minBatchSize : Z := 1000.

Inductive side := clientSide | serverSide.
Inductive outStreamState := active | empty | waitingOnStreamQuota.

#[export] Instance side_eq_dec : EqDecision side.
Proof. solve_decision. Defined.
#[export] Instance outStreamState_eq_dec : EqDecision outStreamState.
Proof. solve_decision. Defined.

Record outStream := mkStream {
  id : Z;
  state : outStreamState;
  itl : list cbItem;
  bytesOutStanding : Z;
  wq : Z
}.

(** What the writer hands to the framer. *)
Inductive wframe :=
| FData (streamID : Z) (endStream : bool) (data : list byte)
| FHeaders (streamID : Z) (endStream endHeaders : bool) (fragment : list byte)
| FContinuation (streamID : Z) (endHeaders : bool) (fragment : list byte)
| FSettings (ss : list (Z * Z))
| FSettingsAck
| FPing (ack : bool) (data : list byte)
| FRSTStream (streamID code : Z)
| FWindowUpdate (streamID increment : Z).

(** The effects of the writer outside its own state, in order. *)
Inductive event :=
| EvFrame (f : wframe)
| EvCall (c : callback)
| EvReplenish (wq n : Z)
| EvResetPing (p : callback)
| EvResp (ch n : Z)
| EvTimesnap (data : list byte)
| EvRelease (d : dataFrame)
| EvGoAway (g : goAway)
| EvFlush
| EvGosched.

(** What the writer uses of its surroundings: the HPACK encoder (its state, the bytes it
    appends for a field, its table size), the framer's error for a frame after the effects
    so far, the order in which [range] visits the established streams, the identifiers of
    two settings, the server's GOAWAY handler (its draining flag and error) and the offset
    of the buffered writer.  The one law is that [range] visits each entry once. *)
Class LoopyEnv := mkEnv {
  enc : Type;
  WriteField : string * string -> enc -> list byte * enc;
  updateHeaderTblSize : Z -> enc -> enc;
  write_err : list event -> wframe -> option error;
  range_order : gmap Z loc -> list (Z * loc);
  range_order_perm : forall m, range_order m ≡ₚ map_to_list m;
  SettingInitialWindowSize : Z;
  SettingHeaderTableSize : Z;
  ssGoAwayHandler : option (list event -> goAway -> bool * option error);
  GetOffset : list event -> Z
}.

Section loopy.
Context {E : LoopyEnv}.

Record loopyWriter := mkLoopy {
  l_side : side;
  sendQuota : Z;
  oiws : Z;
  estdStreams : gmap Z loc;
  activeStreams : list loc;
  streams : gmap loc outStream;
  brk : loc;
  hEnc : enc;
  draining : bool;
  out : list event
}.

Definition newLoopyWriter (s : side) (e : enc) : loopyWriter :=
  mkLoopy s defaultWindowSize defaultWindowSize ∅ [] ∅ 0%nat e false [].

Definition LM := M loopyWriter error.

Definition set_sendQuota q l := mkLoopy (l_side l) q (oiws l) (estdStreams l) (activeStreams l)
  (streams l) (brk l) (hEnc l) (draining l) (out l).
Definition set_oiws w l := mkLoopy (l_side l) (sendQuota l) w (estdStreams l) (activeStreams l)
  (streams l) (brk l) (hEnc l) (draining l) (out l).
Definition set_estd m l := mkLoopy (l_side l) (sendQuota l) (oiws l) m (activeStreams l)
  (streams l) (brk l) (hEnc l) (draining l) (out l).
Definition set_active a l := mkLoopy (l_side l) (sendQuota l) (oiws l) (estdStreams l) a
  (streams l) (brk l) (hEnc l) (draining l) (out l).
Definition set_stream p s l := mkLoopy (l_side l) (sendQuota l) (oiws l) (estdStreams l)
  (activeStreams l) (<[p := s]> (streams l)) (brk l) (hEnc l) (draining l) (out l).
Definition new_stream s l := mkLoopy (l_side l) (sendQuota l) (oiws l) (estdStreams l)
  (activeStreams l) (<[brk l := s]> (streams l)) (S (brk l)) (hEnc l) (draining l) (out l).
Definition set_hEnc e l := mkLoopy (l_side l) (sendQuota l) (oiws l) (estdStreams l)
  (activeStreams l) (streams l) (brk l) e (draining l) (out l).
Definition set_draining d l := mkLoopy (l_side l) (sendQuota l) (oiws l) (estdStreams l)
  (activeStreams l) (streams l) (brk l) (hEnc l) d (out l).
Definition emit e l := mkLoopy (l_side l) (sendQuota l) (oiws l) (estdStreams l)
  (activeStreams l) (streams l) (brk l) (hEnc l) (draining l) (out l ++ [e]).

Definition upd_state v s := mkStream (id s) v (itl s) (bytesOutStanding s) (wq s).
Definition upd_itl v s := mkStream (id s) (state s) v (bytesOutStanding s) (wq s).
Definition upd_bos v s := mkStream (id s) (state s) (itl s) v (wq s).

(** One frame through the framer. *)
Definition write (f : wframe) : LM unit := fun l =>
  match write_err (out l) f with
  | Some e => (Err e, l)
  | None => (Ok tt, emit (EvFrame f) l)
  end.

(** Dereference of a stream pointer. *)
Definition deref (p : loc) : LM outStream := fun l =>
  match streams l !! p with Some s => (Ok s, l) | None => (Panic, l) end.

Definition store (p : loc) (s : outStream) : LM unit := modify (set_stream p s).

Definition active_enqueue (p : loc) : LM unit :=
  modify (fun l => set_active (activeStreams l ++ [p]) l).

Definition active_dequeue : LM (option loc) := fun l =>
  match activeStreams l with
  | [] => (Ok None, l)
  | p :: ps => (Ok (Some p), set_active ps l)
  end.

Definition deleteSelf (p : loc) : LM unit :=
  modify (fun l => set_active (filter (fun q : loc => q <> p) (activeStreams l)) l).

Definition call (c : option callback) : LM unit :=
  match c with Some c => modify (emit (EvCall c)) | None => mret tt end.

(** A deferred call runs whatever the body's outcome. *)
Definition with_defer {A} (c : option callback) (m : LM A) : LM A := fun l =>
  let '(r, l') := m l in
  (r, match c with Some c => emit (EvCall c) l' | None => l' end).

Definition outgoingWindowUpdateHandler (streamID increment : Z) : LM unit :=
  write (FWindowUpdate streamID increment).

Definition incomingWindowUpdateHandler (streamID increment : Z) : LM unit :=
  if streamID =? 0 then
    modify (fun l => set_sendQuota (u32 (sendQuota l + increment)) l)
  else
    m ← gets estdStreams;
    match m !! streamID with
    | None => mret tt
    | Some p =>
        str ← deref p;
        let str := upd_bos (bytesOutStanding str - increment) str in
        store p str;;
        w ← gets oiws;
        let strQuota := w - bytesOutStanding str in
        if (0 <? strQuota) && bool_decide (state str = waitingOnStreamQuota) then
          store p (upd_state active str);;
          active_enqueue p
        else mret tt
    end.

Definition outgoingSettingsHandler (ss : list (Z * Z)) : LM unit := write (FSettings ss).

(** The body of the range over the established streams. *)
Definition activate_waiting (p : loc) : LM unit :=
  str ← deref p;
  if bool_decide (state str = waitingOnStreamQuota) then
    store p (upd_state active str);;
    active_enqueue p
  else mret tt.

Fixpoint for_each {A} (f : A -> LM unit) (xs : list A) : LM unit :=
  match xs with [] => mret tt | x :: xs => f x;; for_each f xs end.

Definition apply_setting (s : Z * Z) : LM unit :=
  let '(ID, Val) := s in
  if ID =? SettingInitialWindowSize then
    o ← gets oiws;
    modify (set_oiws Val);;
    if o <? Val then
      m ← gets estdStreams;
      for_each (fun kp => activate_waiting kp.2) (range_order m)
    else mret tt
  else if ID =? SettingHeaderTableSize then
    modify (fun l => set_hEnc (updateHeaderTblSize Val (hEnc l)) l)
  else mret tt.

Definition applySettings (ss : list (Z * Z)) : LM unit := for_each apply_setting ss.

Definition incomingSettingsHandler (ss : list (Z * Z)) : LM unit :=
  applySettings ss;; write FSettingsAck.

Definition registerStreamHandler (streamID wq : Z) : LM unit := fun l =>
  let p := brk l in
  let l := new_stream (mkStream streamID empty [] 0 wq) l in
  (Ok tt, set_estd (<[streamID := p]> (estdStreams l)) l).

(** HPACK-encodes the fields in order. *)
Fixpoint encode_fields (fs : list (string * string)) (e : enc) : list byte * enc :=
  match fs with
  | [] => ([], e)
  | f :: fs =>
      let '(b, e) := WriteField f e in
      let '(bs, e) := encode_fields fs e in
      (b ++ bs, e)
  end.

(** The loop of [writeHeader]; [fuel] bounds its iterations. *)
Fixpoint write_fragments (fuel : nat) (first : bool) (streamID : Z) (endStream : bool)
    (hBuf : list byte) : LM unit :=
  match fuel with
  | O => panic
  | S fuel =>
      let endHeaders := negb (http2MaxFrameLen <? lenZ hBuf) in
      let size := if http2MaxFrameLen <? lenZ hBuf then http2MaxFrameLen else lenZ hBuf in
      let fragment := take (Z.to_nat size) hBuf in
      write (if first then FHeaders streamID endStream endHeaders fragment
             else FContinuation streamID endHeaders fragment);;
      if endHeaders then mret tt
      else write_fragments fuel false streamID endStream (drop (Z.to_nat size) hBuf)
  end.

Definition writeHeader (streamID : Z) (endStream : bool) (hf : list (string * string))
    (onWrite : option callback) : LM unit :=
  call onWrite;;
  e ← gets hEnc;
  let '(hBuf, e') := encode_fields hf e in
  modify (set_hEnc e');;
  write_fragments (S (length hBuf)) true streamID endStream hBuf.

Definition cleanupStreamHandler (c : option cleanupStream) : LM unit :=
  match c with
  | None => panic
  | Some c =>
      with_defer (onFinishWrite c) (
        call (Some (cs_onWrite c));;
        m ← gets estdStreams;
        (match m !! cs_streamID c with
         | Some p =>
             modify (fun l => set_estd (delete (cs_streamID c) (estdStreams l)) l);;
             deleteSelf p
         | None => mret tt
         end);;
        (if rst c then write (FRSTStream (cs_streamID c) (rstCode c)) else mret tt);;
        fin ← gets (fun l => bool_decide (l_side l = clientSide) && draining l
                             && bool_decide (size (estdStreams l) = 0%nat));
        if fin : bool then throw ErrConnClosing else mret tt)
  end.

Definition originateStream (p : loc) : LM unit :=
  str ← deref p;
  match itl str with
  | HeaderFrame hdr :: rest =>
      store p (upd_itl rest str);;
      match initStream hdr with
      | None => panic
      | Some init =>
          match init (id str) with
          | Some e => if bool_decide (e = ErrConnClosing) then throw e else mret tt
          | None =>
              writeHeader (id str) (h_endStream hdr) (hf hdr) (h_onWrite hdr);;
              modify (fun l => set_estd (<[id str := p]> (estdStreams l)) l)
          end
      end
  | _ => panic
  end.

Definition headerHandler (h : headerFrame) : LM unit :=
  sd ← gets l_side;
  match sd with
  | serverSide =>
      m ← gets estdStreams;
      match m !! h_streamID h with
      | None => mret tt
      | Some p =>
          str ← deref p;
          if negb (h_endStream h) then
            writeHeader (h_streamID h) (h_endStream h) (hf h) (h_onWrite h)
          else if negb (bool_decide (state str = empty)) then
            store p (upd_itl (itl str ++ [HeaderFrame h]) str)
          else
            writeHeader (h_streamID h) (h_endStream h) (hf h) (h_onWrite h);;
            cleanupStreamHandler (cleanup h)
      end
  | clientSide =>
      p ← gets brk;
      modify (new_stream (mkStream (h_streamID h) empty [HeaderFrame h] 0 (h_wq h)));;
      originateStream p
  end.

Definition preprocessData (df : dataFrame) : LM unit :=
  m ← gets estdStreams;
  match m !! d_streamID df with
  | None => mret tt
  | Some p =>
      str ← deref p;
      let str := upd_itl (itl str ++ [DataFrame df]) str in
      store p str;;
      if bool_decide (state str = empty) then
        store p (upd_state active str);;
        active_enqueue p
      else mret tt
  end.

Definition pingHandler (ack : bool) (data : list byte) : LM unit :=
  (if ack then mret tt else modify (emit (EvTimesnap data)));;
  write (FPing ack data).

Definition outFlowControlSizeRequestHandler (resp : Z) : LM unit :=
  modify (fun l => emit (EvResp resp (sendQuota l)) l).

Definition incomingGoAwayHandler : LM unit :=
  sd ← gets l_side;
  match sd with
  | clientSide =>
      modify (set_draining true);;
      n ← gets (fun l => size (estdStreams l));
      if bool_decide (n = 0%nat) then throw ErrConnClosing else mret tt
  | serverSide => mret tt
  end.

Definition goAwayHandler (g : goAway) : LM unit :=
  match ssGoAwayHandler with
  | None => mret tt
  | Some handler =>
      o ← gets out;
      modify (emit (EvGoAway g));;
      match handler o g with
      | (_, Some e) => throw e
      | (d, None) => modify (set_draining d)
      end
  end.

Definition handle (i : cbItem) : LM unit :=
  match i with
  | IncomingWindowUpdate s n => incomingWindowUpdateHandler s n
  | OutgoingWindowUpdate s n => outgoingWindowUpdateHandler s n
  | IncomingSettings ss => incomingSettingsHandler ss
  | OutgoingSettings ss => outgoingSettingsHandler ss
  | HeaderFrame h => headerHandler h
  | RegisterStream s w => registerStreamHandler s w
  | CleanupStream c => cleanupStreamHandler (Some c)
  | IncomingGoAway => incomingGoAwayHandler
  | DataFrame d => preprocessData d
  | Ping a d => pingHandler a d
  | GoAway g => goAwayHandler g
  | OutFlowControlSizeRequest r => outFlowControlSizeRequestHandler r
  end.

(** The trailers that follow the last data item of a stream. *)
Definition write_trailer (t : headerFrame) : LM unit :=
  writeHeader (h_streamID t) (h_endStream t) (hf t) (h_onWrite t);;
  cleanupStreamHandler (cleanup t).

Definition ignore_err (m : LM unit) : LM unit := fun l =>
  match m l with
  | (Err _, l') => (Ok tt, l')
  | r => r
  end.

(** The branch for an item with no bytes; an error of the trailers' cleanup is dropped. *)
Definition process_empty (p : loc) (str : outStream) (df : dataFrame) : LM bool :=
  write (FData (d_streamID df) (d_endStream df) []);;
  let str := upd_itl (List.tl (itl str)) str in
  store p str;;
  modify (emit (EvRelease df));;
  match itl str with
  | [] => store p (upd_state empty str);; mret false
  | HeaderFrame t :: _ =>
      writeHeader (h_streamID t) (h_endStream t) (hf t) (h_onWrite t);;
      ignore_err (cleanupStreamHandler (cleanup t));; mret false
  | _ => active_enqueue p;; mret false
  end.

(** The chunk written for an item: the branches over the two buffers. *)
Definition chunk (hSize dSize : Z) (df : dataFrame) : list byte :=
  let buf :=
    if negb (hSize =? 0) then
      if dSize =? 0 then d_h df
      else
        take (Z.to_nat hSize) (d_h df) ++ take (Z.to_nat dSize) (d_d df)
        ++ repeat Byte.x00 (Z.to_nat (http2MaxFrameLen - hSize - dSize))
    else d_d df in
  take (Z.to_nat (hSize + dSize)) buf.

Definition min (a b : Z) : Z := if a <? b then a else b.

Definition process_chunk (p : loc) (str : outStream) (df : dataFrame) : LM bool :=
  w ← gets oiws;
  let strQuota := w - bytesOutStanding str in
  if strQuota <=? 0 then store p (upd_state waitingOnStreamQuota str);; mret false else
  q ← gets sendQuota;
  let maxSize := if strQuota <? http2MaxFrameLen then strQuota else http2MaxFrameLen in
  let maxSize := if q <? maxSize then q else maxSize in
  let hSize := min maxSize (lenZ (d_h df)) in
  let dSize := min (maxSize - hSize) (lenZ (d_d df)) in
  let size := hSize + dSize in
  modify (emit (EvReplenish (wq str) size));;
  let endStream := d_endStream df && (lenZ (d_h df) + lenZ (d_d df) <=? size) in
  (match resetPingStrikes df with Some r => modify (emit (EvResetPing r)) | None => mret tt end);;
  write (FData (d_streamID df) endStream (chunk hSize dSize df));;
  modify (fun l => set_sendQuota (u32 (sendQuota l - size)) l);;
  let df' := mkData (d_streamID df) (d_endStream df) (drop (Z.to_nat hSize) (d_h df))
                    (drop (Z.to_nat dSize) (d_d df)) (resetPingStrikes df) in
  let str := upd_bos (bytesOutStanding str + size) (upd_itl (DataFrame df' :: List.tl (itl str)) str) in
  let done_ := (lenZ (d_h df') =? 0) && (lenZ (d_d df') =? 0) in
  let str := if done_ then upd_itl (List.tl (itl str)) str else str in
  store p str;;
  (if done_ then modify (emit (EvRelease df')) else mret tt);;
  match itl str with
  | [] => store p (upd_state empty str);; mret false
  | HeaderFrame t :: _ => write_trailer t;; mret false
  | _ =>
      if w - bytesOutStanding str <=? 0
      then store p (upd_state waitingOnStreamQuota str);; mret false
      else active_enqueue p;; mret false
  end.

Definition processData : LM bool :=
  q ← gets sendQuota;
  if q =? 0 then mret true else
  ps ← active_dequeue;
  match ps with
  | None => mret true
  | Some p =>
      str ← deref p;
      match itl str with
      | DataFrame df :: _ =>
          if (lenZ (d_h df) =? 0) && (lenZ (d_d df) =? 0)
          then process_empty p str df
          else process_chunk p str df
      | _ => panic
      end
  end.

(** ** The main loop

    [script] answers the successive calls of [cbuf.get]: an item, nothing (only for the
    non-blocking call), or an error; an exhausted script leaves the non-blocking call
    with nothing and the blocking call waiting. *)

Inductive answer := AItem (it : cbItem) | ANone | AErr (e : error).

Fixpoint hasdata (fuel : nat) (gosched : bool) (script : list answer) : LM (list answer) :=
  match fuel with
  | O => panic
  | S fuel =>
      match script with
      | AErr e :: _ => throw e
      | AItem it :: script =>
          handle it;; processData;; hasdata fuel gosched script
      | _ =>
          let script := List.tl script in
          isEmpty ← processData;
          if negb isEmpty then hasdata fuel gosched script
          else
            o ← gets (fun l => GetOffset (out l));
            if gosched && (o <? minBatchSize) then
              modify (emit EvGosched);; hasdata fuel false script
            else
              modify (emit EvFlush);; mret script
      end
  end.

(** The loop of [run] without its deferred function; it returns when it is left waiting. *)
Fixpoint run_loop (fuel : nat) (script : list answer) : LM unit :=
  match fuel with
  | O => panic
  | S fuel =>
      match script with
      | [] => mret tt
      | ANone :: script => run_loop fuel script
      | AErr e :: _ => throw e
      | AItem it :: script =>
          handle it;;
          processData;;
          script ← hasdata fuel true script;
          run_loop fuel script
      end
  end.

(** The deferred function turns an ignorable error into nil and flushes on a graceful
    shutdown. *)
Definition run (fuel : nat) (script : list answer) : LM unit := fun l =>
  match run_loop fuel script l with
  | (Err e, l') =>
      if isIgnorable e then (Ok tt, l')
      else if bool_decide (e = errGracefulShutdown) then (Err e, emit EvFlush l')
      else (Err e, l')
  | r => r
  end.

End loopy.
