(* ===== verification/LoopyInv.v ===== *)
(** The loopy writer's invariant and the specification of each of its handlers.

    [inv] says which streams are on the active list and why the others are not; [keeps] is
    what a handler leaves alone (data frames, connection quota, queued payload); the
    handlers are specified with both in weakest-precondition style. *)

From S2P Require Import Prelude ItemList ControlBuf Loopy.

Section loopy.
Context {E : LoopyEnv}.

(** * Observations *)

(** The data frames handed to the framer so far. *)
Definition data_of (e : event) : option (Z * bool * list byte) :=
  match e with EvFrame (FData s es d) => Some (s, es, d) | _ => None end.
Definition sent (es : list event) : list (Z * bool * list byte) := omap data_of es.

Definition item_payload (it : cbItem) : list byte :=
  match it with DataFrame d => d_h d ++ d_d d | _ => [] end.
Definition payload (its : list cbItem) : list byte := concat (item_payload <$> its).

(** The bytes queued on a stream object. *)
Definition queued (l : loopyWriter) (p : loc) : list byte :=
  match streams l !! p with Some s => payload (itl s) | None => [] end.

(** * Invariant *)

(** What a stream's queue may hold: its own data frames, and trailers that close it. *)
Definition item_in (sid : Z) (it : cbItem) : Prop :=
  match it with
  | DataFrame d => d_streamID d = sid
  | HeaderFrame h => h_streamID h = sid /\ exists c, cleanup h = Some c /\ cs_streamID c = sid
  | _ => False
  end.

Definition head_data (s : outStream) : Prop := exists d rest, itl s = DataFrame d :: rest.

(** [w]: the stream window below which a waiting stream must be. *)
Definition stream_ok (w : Z) (act : list loc) (sid : Z) (p : loc) (s : outStream) : Prop :=
  id s = sid /\ Forall (item_in sid) (itl s) /\
  match state s with
  | empty => itl s = [] /\ (p ∉ act)
  | active => head_data s /\ p ∈ act
  | waitingOnStreamQuota => head_data s /\ (p ∉ act) /\ w <= bytesOutStanding s
  end.

(** [inv_on P w]: the established streams satisfying [P] are as they should be. *)
Definition inv_on (P : loc -> Prop) (w : Z) (l : loopyWriter) : Prop :=
  (forall sid p, estdStreams l !! sid = Some p -> (p < brk l)%nat /\
     exists s, streams l !! p = Some s /\ id s = sid /\
               (P p -> stream_ok w (activeStreams l) sid p s)) /\
  NoDup (activeStreams l) /\
  (forall p, p ∈ activeStreams l -> exists sid, estdStreams l !! sid = Some p) /\
  0 <= sendQuota l < 2 ^ 32.

Definition inv (l : loopyWriter) : Prop := inv_on (fun _ => True) (oiws l) l.

(** The contract of the transports that fill the control buffer: increments are uint32
    values, stream ids are registered once, the trailers of a stream carry its cleanup, a client's header frame
    its [initStream]. *)
Definition item_ok (l : loopyWriter) (it : cbItem) : Prop :=
  match it with
  | IncomingWindowUpdate _ n => 0 <= n < 2 ^ 32
  | RegisterStream sid _ => estdStreams l !! sid = None
  | HeaderFrame h =>
      match l_side l with
      | serverSide => h_endStream h = true ->
          exists c, cleanup h = Some c /\ cs_streamID c = h_streamID h
      | clientSide => is_Some (initStream h) /\ estdStreams l !! h_streamID h = None
      end
  | _ => True
  end.

(** * What a handler leaves alone *)

Definition keeps (l l' : loopyWriter) : Prop :=
  sent (out l') = sent (out l) /\ sendQuota l' = sendQuota l /\ l_side l' = l_side l /\
  (brk l <= brk l')%nat /\
  (forall p, (p < brk l)%nat -> queued l' p = queued l p) /\
  (forall sid p, (p < brk l)%nat -> estdStreams l' !! sid = Some p -> estdStreams l !! sid = Some p).

#[export] Instance keeps_refl : Reflexive keeps.
Proof. by intros l. Qed.

#[export] Instance keeps_trans : Transitive keeps.
Proof.
  intros a b c (A1&A2&A3&A4&A5&A6) (B1&B2&B3&B4&B5&B6). split_and!; try (etrans; done).
  - intros p Hp. rewrite B5 by lia. auto.
  - intros sid p Hp He. apply A6; [done|]. apply B6; [lia|done].
Qed.

(** States that agree on everything but the encoder and the effects. *)
Definition same_core (l l' : loopyWriter) : Prop :=
  l_side l' = l_side l /\ sendQuota l' = sendQuota l /\ oiws l' = oiws l /\
  estdStreams l' = estdStreams l /\ activeStreams l' = activeStreams l /\
  streams l' = streams l /\ brk l' = brk l /\ draining l' = draining l.

#[export] Instance same_core_refl : Reflexive same_core.
Proof. by intros l. Qed.
#[export] Instance same_core_trans : Transitive same_core.
Proof. intros a b c (?&?&?&?&?&?&?&?) (?&?&?&?&?&?&?&?). split_and!; congruence. Qed.

Lemma inv_on_core P w l l' : same_core l l' -> inv_on P w l -> inv_on P w l'.
Proof.
  intros (_&Hq&_&He&Ha&Hs&Hb&_) (H1&H2&H3&H4). unfold inv_on. rewrite Hq, He, Ha, Hs, Hb. done.
Qed.

Lemma keeps_core l l' : same_core l l' -> sent (out l') = sent (out l) -> keeps l l'.
Proof.
  intros (Hd&Hq&_&He&_&Hs&Hb&_) Ho. unfold keeps, queued. rewrite Hq, He, Hs, Hb, Hd, Ho. done.
Qed.

Lemma sent_app a b : sent (a ++ b) = sent a ++ sent b.
Proof. apply omap_app. Qed.

Lemma emit_core e l : same_core l (emit e l).
Proof. done. Qed.

Lemma emit_sent e l : data_of e = None -> sent (out (emit e l)) = sent (out l).
Proof. intros He. simpl. rewrite sent_app. simpl. unfold sent. simpl. rewrite He. apply app_nil_r. Qed.

(** * Rules for the primitive operations *)

Lemma wp_write f l (Q : outcome error unit -> loopyWriter -> Prop) :
  (forall e, Q (Err e) l) -> Q (Ok tt) (emit (EvFrame f) l) -> wp (write f) l Q.
Proof. unfold wp, write. destruct (write_err (out l) f); simpl; auto. Qed.

Lemma wp_deref p s l (Q : outcome error outStream -> loopyWriter -> Prop) :
  streams l !! p = Some s -> Q (Ok s) l -> wp (deref p) l Q.
Proof. unfold wp, deref. by intros ->. Qed.

(** Only output: the shape shared by the header and control-frame writers. *)
Definition only_output {A} (m : LM A) (l : loopyWriter) : Prop :=
  wp m l (fun r l' => r <> Panic /\ same_core l l' /\ sent (out l') = sent (out l)).

Lemma write_fragments_output fuel first sid es b l :
  (length b < fuel)%nat -> only_output (write_fragments fuel first sid es b) l.
Proof.
  revert first b l. induction fuel as [|fuel IH]; intros first b l Hf; [lia|].
  unfold only_output. simpl. apply wp_bind, wp_write; [intros e; done|].
  assert (sent (out (emit (EvFrame (if first then FHeaders sid es (negb (http2MaxFrameLen <? lenZ b))
     (take (Z.to_nat (if http2MaxFrameLen <? lenZ b then http2MaxFrameLen else lenZ b)) b)
     else FContinuation sid (negb (http2MaxFrameLen <? lenZ b))
     (take (Z.to_nat (if http2MaxFrameLen <? lenZ b then http2MaxFrameLen else lenZ b)) b))) l))
     = sent (out l)) as Hs by (apply emit_sent; by destruct first).
  destruct (http2MaxFrameLen <? lenZ b) eqn:Eb; bool_to_prop; simpl.
  2: by apply wp_ret.
  eapply wp_mono; [apply IH|].
  - rewrite length_drop. unfold http2MaxFrameLen, lenZ in *. lia.
  - intros r l' (H1 & H2 & H3). split_and!; [done| |by rewrite H3].
    etrans; [|exact H2]. done.
Qed.

Lemma wp_call c l (Q : outcome error unit -> loopyWriter -> Prop) :
  (forall l', same_core l l' -> sent (out l') = sent (out l) -> Q (Ok tt) l') -> wp (call c) l Q.
Proof.
  intros H. destruct c as [c|]; [|by apply wp_ret, H].
  apply wp_modify, H; [done|]. by apply emit_sent.
Qed.

Lemma writeHeader_output sid es hf cb l : only_output (writeHeader sid es hf cb) l.
Proof.
  unfold only_output, writeHeader. apply wp_bind, wp_call. intros l1 H1 S1.
  apply wp_bind, wp_gets. destruct (encode_fields hf (hEnc l1)) as [b e'].
  apply wp_bind, wp_modify.
  eapply wp_mono; [apply write_fragments_output; lia|]. intros r l' (Hr & H2 & S2).
  split_and!; [done| |by rewrite S2]. etrans; [exact H1|]. etrans; [|exact H2]. done.
Qed.

Lemma wp_only_output {A} (m : LM A) l Q :
  only_output m l ->
  (forall r l', r <> Panic -> same_core l l' -> sent (out l') = sent (out l) -> Q r l') ->
  wp m l Q.
Proof.
  unfold only_output. intros Hm HQ. eapply wp_mono; [exact Hm|]. intros r l' (?&?&?). by apply HQ.
Qed.

(** * Updates of the invariant *)

Ltac inv_split := split_and!; try done; try (simpl; lia).

Lemma inv_on_weaken (P P' : loc -> Prop) w l :
  (forall p, P' p -> P p) -> inv_on P w l -> inv_on P' w l.
Proof.
  intros HP (H1&H2&H3&H4). inv_split. intros sid p Hp.
  destruct (H1 sid p Hp) as (Hb & s & Hs & Hid & Hok).
  split; [done|]. exists s. split_and!; auto.
Qed.

Lemma inv_on_set_stream P w l p s :
  ~ P p -> (forall sid, estdStreams l !! sid = Some p -> id s = sid) ->
  inv_on P w l -> inv_on P w (set_stream p s l).
Proof.
  intros HP Hid (H1&H2&H3&H4). inv_split. simpl. intros sid q Hq.
  destruct (H1 sid q Hq) as (Hb & s' & Hs & Hid' & Hok). split; [done|].
  destruct (decide (p = q)) as [<-|Hne].
  - exists s. rewrite lookup_insert_eq. split_and!; [done|by auto|by intros ?].
  - exists s'. by rewrite lookup_insert_ne.
Qed.

Lemma inv_on_enqueue P w l p :
  ~ P p -> p ∉ activeStreams l -> (exists sid, estdStreams l !! sid = Some p) ->
  inv_on P w l -> inv_on P w (set_active (activeStreams l ++ [p]) l).
Proof.
  intros HP Hp Hsid (H1&H2&H3&H4). inv_split; simpl.
  - intros sid q Hq. destruct (H1 sid q Hq) as (Hb & s' & Hs & Hid' & Hok). split; [done|].
    exists s'. split_and!; try done. intros HPq. specialize (Hok HPq).
    assert (q <> p) by (intros ->; done).
    destruct Hok as (? & ? & Hst). split_and!; try done.
    destruct (state s'); set_solver.
  - apply NoDup_app. split_and!; [done|set_solver|apply NoDup_singleton].
  - set_solver.
Qed.

Lemma inv_restore P w l p sid s :
  inv_on (fun q => P q /\ q <> p) w l -> estdStreams l !! sid = Some p ->
  streams l !! p = Some s -> stream_ok w (activeStreams l) sid p s -> inv_on P w l.
Proof.
  intros (H1&H2&H3&H4) Hp Hs Hok. inv_split. intros sid' q Hq.
  destruct (H1 sid' q Hq) as (Hb & s' & Hs' & Hid' & Hok'). split; [done|].
  exists s'. split_and!; try done. intros HPq. destruct (decide (q = p)) as [->|]; [|auto].
  assert (s' = s) as -> by congruence. pose proof (proj1 Hok) as Hid.
  by assert (sid' = sid) as -> by congruence.
Qed.

Lemma inv_forget P w l p :
  inv_on (fun q => P q /\ q <> p) w l -> (forall sid, estdStreams l !! sid <> Some p) ->
  inv_on P w l.
Proof.
  intros (H1&H2&H3&H4) Hp. inv_split. intros sid' q Hq.
  destruct (H1 sid' q Hq) as (Hb & s' & Hs' & Hid' & Hok'). split; [done|].
  exists s'. split_and!; try done. intros HPq. apply Hok'. split; [done|]. intros ->. by eapply Hp.
Qed.

Lemma inv_on_delete P w l sid p :
  estdStreams l !! sid = Some p -> inv_on P w l ->
  inv_on P w (set_active (filter (fun q : loc => q <> p) (activeStreams l))
                         (set_estd (delete sid (estdStreams l)) l)).
Proof.
  intros Hsid (H1&H2&H3&H4). inv_split; simpl.
  - intros sid' q Hq. apply lookup_delete_Some in Hq as [Hne Hq].
    destruct (H1 sid' q Hq) as (Hb & s' & Hs' & Hid' & Hok'). split; [done|].
    exists s'. split_and!; try done. intros HPq. destruct (Hok' HPq) as (? & ? & Hst).
    split_and!; try done.
    assert (q <> p) as Hqp.
    { intros ->. destruct (H1 sid p Hsid) as (_ & s0 & ? & ? & _). simplify_eq. }
    destruct (state s'); rewrite ?list_elem_of_filter; naive_solver.
  - by apply NoDup_filter.
  - intros q [Hqp Hq]%list_elem_of_filter. destruct (H3 q Hq) as [sid' Hs'].
    exists sid'. rewrite lookup_delete_ne; [done|]. intros ->. simplify_eq.
Qed.

Lemma inv_on_new P w l s :
  inv_on P w l -> inv_on P w (new_stream s l).
Proof.
  intros (H1&H2&H3&H4). inv_split; simpl. intros sid q Hq.
  destruct (H1 sid q Hq) as (Hb & s' & Hs' & Hid' & Hok'). split; [lia|].
  exists s'. rewrite lookup_insert_ne by lia. done.
Qed.

(** Establishing a fresh, idle stream. *)
Lemma inv_on_register P w l p sid s :
  inv_on P w l -> estdStreams l !! sid = None -> (forall sid', estdStreams l !! sid' <> Some p) ->
  (p < brk l)%nat -> streams l !! p = Some s -> id s = sid -> state s = empty -> itl s = [] ->
  inv_on P w (set_estd (<[sid := p]> (estdStreams l)) l).
Proof.
  intros (H1&H2&H3&H4) Hnone Hfresh Hp Hs Hid Hst Hit. inv_split; simpl.
  - intros sid' q Hq. destruct (decide (sid = sid')) as [<-|Hne].
    + rewrite lookup_insert_eq in Hq. simplify_eq. split; [done|]. exists s. split_and!; try done.
      intros _. unfold stream_ok. rewrite Hst, Hit. split_and!; try done.
      intros Hin. destruct (H3 q Hin) as [sid' ?]. by eapply Hfresh.
    + rewrite lookup_insert_ne in Hq by done. eauto.
  - intros q Hq. destruct (H3 q Hq) as [sid' Hs']. exists sid'.
    rewrite lookup_insert_ne; [done|]. intros ->. congruence.
Qed.

End loopy.
