(* ===== verification/LoopySpec.v ===== *)
(** Specifications of the loopy writer's handlers: each keeps the invariant, does not
    panic on items that respect the transports' contract, and leaves the data stream
    alone, except for [preprocessData], the connection window update and [processData],
    whose effects on it are stated exactly. *)

From S2P Require Import Prelude ItemList ControlBuf Loopy LoopyInv.

Section loopy.
Context {E : LoopyEnv}.

Definition hpost (l : loopyWriter) (r : outcome error unit) (l' : loopyWriter) : Prop :=
  r <> Panic /\ (r = Ok tt -> inv l') /\ keeps l l'.

Lemma hpost_core l l' r :
  inv l -> r <> Panic -> same_core l l' -> sent (out l') = sent (out l) -> hpost l r l'.
Proof.
  intros Hi Hr Hc Hs. split_and!; [done| |by apply keeps_core].
  intros _. unfold inv. destruct Hc as (?&?&Ho&?). rewrite Ho. eapply inv_on_core; [|exact Hi].
  done.
Qed.

Lemma output_hpost m l : inv l -> only_output m l -> wp m l (hpost l).
Proof. intros Hi Hm. eapply wp_only_output; [exact Hm|]. intros. by apply hpost_core. Qed.

Lemma write_output f l : data_of (EvFrame f) = None -> only_output (write f) l.
Proof. intros Hf. apply wp_write; [done|]. split_and!; [done|done|by apply emit_sent]. Qed.

Lemma modify_emit_output e l : data_of e = None -> only_output (modify (emit e)) l.
Proof. intros He. apply wp_modify. split_and!; [done|done|by apply emit_sent]. Qed.

(** ** Stream updates that keep the queue *)

Lemma queued_set_stream l p s q :
  queued (set_stream p s l) q = if decide (p = q) then payload (itl s) else queued l q.
Proof.
  unfold queued. simpl. case_decide as Hpq; [subst; by rewrite lookup_insert_eq|].
  by rewrite lookup_insert_ne.
Qed.

Lemma keeps_set_stream l p s s' :
  streams l !! p = Some s -> itl s' = itl s -> keeps l (set_stream p s' l).
Proof.
  intros Hs Hi. split_and!; try done. intros q _. rewrite queued_set_stream.
  case_decide; [|done]. subst. unfold queued. by rewrite Hs, Hi.
Qed.

Lemma set_stream_twice p s s' l : set_stream p s' (set_stream p s l) = set_stream p s' l.
Proof. unfold set_stream. simpl. by rewrite insert_insert_eq. Qed.

(** What the invariant says of one established stream. *)
Lemma inv_lookup w l sid p :
  inv_on (fun _ => True) w l -> estdStreams l !! sid = Some p ->
  exists s, streams l !! p = Some s /\ stream_ok w (activeStreams l) sid p s.
Proof. intros (H1&_) Hp. destruct (H1 sid p Hp) as (_&s&Hs&_&Hok). eauto. Qed.

Lemma inv_estd_inj w l sid sid' p :
  inv_on (fun _ => True) w l -> estdStreams l !! sid = Some p -> estdStreams l !! sid' = Some p ->
  sid = sid'.
Proof.
  intros (H1&_) H H'. destruct (H1 _ _ H) as (_&s&Hs&Hid&_), (H1 _ _ H') as (_&s'&Hs'&Hid'&_).
  simplify_eq. done.
Qed.

Lemma inv_except w l p :
  inv_on (fun _ => True) w l -> inv_on (fun q => True /\ q <> p) w l.
Proof. apply inv_on_weaken. done. Qed.

(** Replacing an established stream by one that is as it should be. *)
Lemma inv_replace w l sid p s' :
  inv_on (fun _ => True) w l -> estdStreams l !! sid = Some p ->
  stream_ok w (activeStreams l) sid p s' -> inv_on (fun _ => True) w (set_stream p s' l).
Proof.
  intros Hi Hp Hok. apply (inv_restore _ _ _ p sid s'); [|done|apply lookup_insert_eq|done].
  apply inv_on_set_stream; [tauto| |by apply inv_except].
  intros sid' Hp'. rewrite (inv_estd_inj _ _ _ _ _ Hi Hp' Hp). apply Hok.
Qed.

(** Putting an established stream that was off the active list on it. *)
Lemma inv_activate w l sid p s' :
  inv_on (fun _ => True) w l -> estdStreams l !! sid = Some p -> p ∉ activeStreams l ->
  id s' = sid -> Forall (item_in sid) (itl s') -> state s' = active -> head_data s' ->
  inv_on (fun _ => True) w (set_active (activeStreams l ++ [p]) (set_stream p s' l)).
Proof.
  intros Hi Hp Hna Hid Hf Hst Hh.
  apply (inv_restore _ _ _ p sid s'); [|done|apply lookup_insert_eq|].
  - apply (inv_on_enqueue _ _ (set_stream p s' l)); [tauto|done|by exists sid|].
    apply inv_on_set_stream; [tauto| |by apply inv_except].
    intros sid' Hp'. by rewrite (inv_estd_inj _ _ _ _ _ Hi Hp' Hp).
  - simpl. split_and!; [done..|]. rewrite Hst. set_solver.
Qed.

Lemma keeps_set_active a l : keeps l (set_active a l).
Proof. by split_and!. Qed.

Lemma wp_store p s l (Q : outcome error unit -> loopyWriter -> Prop) :
  Q (Ok tt) (set_stream p s l) -> wp (store p s) l Q.
Proof. done. Qed.

Lemma wp_active_enqueue p l (Q : outcome error unit -> loopyWriter -> Prop) :
  Q (Ok tt) (set_active (activeStreams l ++ [p]) l) -> wp (active_enqueue p) l Q.
Proof. done. Qed.

(** ** Window updates and settings *)

Lemma incomingWindowUpdateHandler_spec sid n l :
  inv l -> sid <> 0 -> 0 <= n -> wp (incomingWindowUpdateHandler sid n) l (hpost l).
Proof.
  intros Hi Hsid Hn. unfold incomingWindowUpdateHandler.
  rewrite (proj2 (Z.eqb_neq sid 0) Hsid). apply wp_bind, wp_gets.
  destruct (estdStreams l !! sid) as [p|] eqn:Hp; [|by apply wp_ret, hpost_core].
  destruct (inv_lookup _ _ _ _ Hi Hp) as (s & Hs & Hid & Hf & Hst).
  apply wp_bind, (wp_deref p s); [done|]. apply wp_bind, wp_store, wp_bind, wp_gets. simpl.
  destruct (_ && _) eqn:Eb.
  - bool_to_prop. apply bool_decide_eq_true in H0. rewrite H0 in Hst. destruct Hst as (Hh & Hna & Hw).
    apply wp_bind, wp_store, wp_active_enqueue. rewrite set_stream_twice.
    split_and!; [done| |].
    + intros _. apply (inv_activate (oiws l) l sid p); done.
    + etrans; [|apply keeps_set_active]. by apply (keeps_set_stream _ _ s).
  - apply wp_ret. split_and!; [done| |by apply (keeps_set_stream _ _ s)].
    intros _. apply (inv_replace (oiws l) l sid p); [done..|]. split_and!; [done..|]. simpl.
    destruct (state s) eqn:Es; [done..|].
    destruct Hst as (Hh & Hna & Hw). rewrite bool_decide_true, andb_true_r in Eb by done.
    bool_to_prop. split_and!; [done..|lia].
Qed.

(** No stream outside [ps] waits for quota. *)
Definition none_waiting (ps : list loc) (l : loopyWriter) : Prop :=
  forall sid p s, estdStreams l !! sid = Some p -> streams l !! p = Some s ->
    p ∉ ps -> state s <> waitingOnStreamQuota.

Lemma none_waiting_any w w' l :
  none_waiting [] l -> inv_on (fun _ => True) w l -> inv_on (fun _ => True) w' l.
Proof.
  intros Hn (H1&H2&H3&H4). split; [|done]. intros sid p Hp.
  destruct (H1 sid p Hp) as (Hb&s&Hs&Hid&Hok). split; [done|]. exists s. split_and!; try done.
  intros _. destruct (Hok I) as (?&?&Hst). split_and!; try done.
  specialize (Hn sid p s Hp Hs ltac:(set_solver)). by destruct (state s).
Qed.

Lemma activate_all_spec w kps l :
  (forall kp, kp ∈ kps -> estdStreams l !! kp.1 = Some kp.2) ->
  inv_on (fun _ => True) w l -> none_waiting (kps.*2) l ->
  wp (for_each (fun kp => activate_waiting kp.2) kps) l (fun r l' =>
    r = Ok tt /\ inv_on (fun _ => True) w l' /\ none_waiting [] l' /\ keeps l l' /\ oiws l' = oiws l).
Proof.
  revert l. induction kps as [|[sid p] kps IH]; intros l Hin Hi Hn; simpl.
  { apply wp_ret. done. }
  assert (estdStreams l !! sid = Some p) as Hp by (apply (Hin (sid, p)); set_solver).
  destruct (inv_lookup _ _ _ _ Hi Hp) as (s & Hs & Hok).
  apply wp_bind. unfold activate_waiting. apply wp_bind, (wp_deref p s); [done|].
  destruct (bool_decide_reflect (state s = waitingOnStreamQuota)) as [Hst|Hst].
  - destruct Hok as (Hid & Hf & Hok). rewrite Hst in Hok. destruct Hok as (Hh & Hna & _).
    apply wp_bind, wp_store, wp_active_enqueue.
    eapply wp_mono; [apply IH|].
    + intros kp Hkp. apply Hin. set_solver.
    + by apply (inv_activate w l sid p).
    + intros sid' q s' Hq Hs' Hni. simpl in Hs'. destruct (decide (p = q)) as [<-|Hpq].
      * rewrite lookup_insert_eq in Hs'. by simplify_eq.
      * rewrite lookup_insert_ne in Hs' by done. eapply Hn; [done..|]. simpl. set_solver.
    + intros r l' (-> & Hi' & Hn' & Hk & Ho). split_and!; try done.
      etrans; [|exact Hk]. etrans; [|apply keeps_set_active]. by apply (keeps_set_stream l p s).
  - apply wp_ret. eapply wp_mono; [apply IH|].
    + intros kp Hkp. apply Hin. set_solver.
    + done.
    + intros sid' q s' Hq Hs' Hni. destruct (decide (p = q)) as [<-|Hpq]; [congruence|].
      eapply Hn; [done..|]. simpl. set_solver.
    + done.
Qed.

Lemma apply_setting_spec s l : inv l ->
  wp (apply_setting s) l (fun r l' => r = Ok tt /\ inv l' /\ keeps l l').
Proof.
  intros Hi. destruct s as [ID Val]. unfold apply_setting. simpl.
  destruct (ID =? SettingInitialWindowSize).
  2: { destruct (ID =? SettingHeaderTableSize); [by apply wp_modify|by apply wp_ret]. }
  apply wp_bind, wp_gets, wp_bind, wp_modify. destruct (oiws l <? Val) eqn:Ev; bool_to_prop.
  - apply wp_bind, wp_gets. simpl. eapply wp_mono; [apply (activate_all_spec (oiws l))|].
    + intros [sid p]. simpl. rewrite range_order_perm, elem_of_map_to_list. done.
    + done.
    + intros sid p s Hp Hs Hni. simpl in *. destruct Hni. apply list_elem_of_fmap.
      exists (sid, p). split; [done|]. rewrite range_order_perm. by apply elem_of_map_to_list.
    + intros r l' (-> & Hi' & Hn & Hk & Ho). split_and!; [done| |done].
      by eapply none_waiting_any.
  - apply wp_ret. split_and!; [done| |by split_and!].
    destruct Hi as (H1&H2&H3&H4). split; [|done]. simpl. intros sid p Hp.
    destruct (H1 sid p Hp) as (Hb&s&Hs&Hid&Hok). split; [done|]. exists s. split_and!; try done.
    intros _. destruct (Hok I) as (?&?&Hst). split_and!; try done.
    destruct (state s); try done. destruct Hst as (?&?&?). split_and!; try done. lia.
Qed.

Lemma applySettings_spec ss l : inv l ->
  wp (applySettings ss) l (fun r l' => r = Ok tt /\ inv l' /\ keeps l l').
Proof.
  unfold applySettings. revert l. induction ss as [|s ss IH]; intros l Hi; simpl; [by apply wp_ret|].
  apply wp_bind. eapply wp_mono; [by apply apply_setting_spec|]. intros r l1 (-> & Hi1 & K1).
  eapply wp_mono; [by apply IH|]. intros r l2 (-> & Hi2 & K2). split_and!; [done..|]. by etrans.
Qed.

Lemma incomingSettingsHandler_spec ss l : inv l -> wp (incomingSettingsHandler ss) l (hpost l).
Proof.
  intros Hi. apply wp_bind. eapply wp_mono; [by apply applySettings_spec|].
  intros r l1 (-> & Hi1 & K1). eapply wp_mono; [apply output_hpost; [done|]|].
  - by apply write_output.
  - intros r l2 (? & ? & K2). split_and!; [done..|]. by etrans.
Qed.

(** ** Streams come and go *)

Lemma inv_on_estd_brk P w l sid p : inv_on P w l -> estdStreams l !! sid = Some p -> (p < brk l)%nat.
Proof. intros (H1&_) Hp. by destruct (H1 sid p Hp). Qed.

Lemma registerStreamHandler_spec sid w l :
  inv l -> estdStreams l !! sid = None -> wp (registerStreamHandler sid w) l (hpost l).
Proof.
  intros Hi Hn. unfold registerStreamHandler, wp. simpl. split_and!; [done| |].
  - intros _. apply (inv_on_register _ _ (new_stream (mkStream sid empty [] 0 w) l) _ sid
      (mkStream sid empty [] 0 w)); simpl; try done; [by apply inv_on_new| |lia|apply lookup_insert_eq].
    intros sid' Hs. pose proof (inv_on_estd_brk _ _ _ _ _ Hi Hs). lia.
  - split_and!; try done; simpl; [lia| |].
    + intros p Hp. unfold queued. simpl. by rewrite lookup_insert_ne by lia.
    + intros sid' p Hp. destruct (decide (sid = sid')) as [<-|]; [|by rewrite lookup_insert_ne].
      rewrite lookup_insert_eq. intros [= <-]. lia.
Qed.

Lemma with_defer_spec {A} c (m : LM A) l Q :
  wp m l (fun r l' => forall l'', same_core l' l'' -> sent (out l'') = sent (out l') -> Q r l'') ->
  wp (with_defer c m) l Q.
Proof.
  unfold wp, with_defer. destruct (m l) as [r l']. simpl. intros H.
  apply H; destruct c; try done. by apply emit_sent.
Qed.

(** The active list after a stream id is cleaned up. *)
Definition without (sid : Z) (l : loopyWriter) : list loc :=
  match estdStreams l !! sid with
  | Some p => filter (fun q : loc => q <> p) (activeStreams l)
  | None => activeStreams l
  end.

Definition cleaned (c : cleanupStream) (l l' : loopyWriter) : Prop :=
  keeps l l' /\ oiws l' = oiws l /\ streams l' = streams l /\
  estdStreams l' = delete (cs_streamID c) (estdStreams l) /\
  activeStreams l' = without (cs_streamID c) l.

Lemma cleaned_core c l l1 l2 :
  cleaned c l l1 -> same_core l1 l2 -> sent (out l2) = sent (out l1) -> cleaned c l l2.
Proof.
  intros (K&Ho&Hs&He&Ha) Hc Hsent. pose proof (keeps_core _ _ Hc Hsent) as K'.
  destruct Hc as (?&?&?&?&?&?&?&?). split_and!; [by etrans|congruence..].
Qed.

Lemma cleanupStreamHandler_spec c P w l :
  inv_on P w l ->
  wp (cleanupStreamHandler (Some c)) l (fun r l' => r <> Panic /\ inv_on P w l' /\ cleaned c l l').
Proof.
  intros Hi. unfold cleanupStreamHandler. apply with_defer_spec.
  apply wp_bind, wp_call. intros l1 C1 S1. apply wp_bind, wp_gets, wp_bind.
  assert (wp (match estdStreams l1 !! cs_streamID c with
         | Some p => modify (fun l => set_estd (delete (cs_streamID c) (estdStreams l)) l);; deleteSelf p
         | None => mret tt end) l1
     (fun r l2 => r = Ok tt /\ inv_on P w l2 /\ cleaned c l l2)) as H1.
  { pose proof (inv_on_core _ _ _ _ C1 Hi) as Hi1. pose proof (keeps_core _ _ C1 S1) as K1.
    destruct C1 as (Cs&Cq&Co&Ce&Ca&Cst&Cb&Cd).
    destruct (estdStreams l1 !! cs_streamID c) as [p|] eqn:Hp.
    - apply wp_bind, wp_modify, wp_modify. split; [done|]. split.
      + by apply (inv_on_delete _ _ l1 (cs_streamID c) p).
      + unfold cleaned, without. simpl. rewrite <- Ce, Hp. split_and!; try congruence.
        etrans; [exact K1|]. split_and!; try done. simpl. intros sid q _ Hq.
        by apply lookup_delete_Some in Hq as [_ Hq].
    - apply wp_ret. split; [done|]. split; [done|]. unfold cleaned, without.
      rewrite <- Ce, Hp, delete_id by done. done. }
  eapply wp_mono; [exact H1|]. intros r l2 (-> & Hi2 & Hc2). apply wp_bind.
  eapply (wp_only_output (if rst c then write (FRSTStream (cs_streamID c) (rstCode c)) else mret tt)).
  { destruct (rst c); [by apply write_output|by apply wp_ret]. }
  intros r l3 Hr C3 S3. assert (inv_on P w l3 /\ cleaned c l l3) as [Hi3 Hc3].
  { split; [by eapply inv_on_core|by eapply cleaned_core]. }
  destruct r as [[]|e|]; [|intros l4 C4 S4; split_and!; [done|by eapply inv_on_core|by eapply cleaned_core]|done].
  apply wp_bind, wp_gets. destruct (_ && _); [apply wp_throw|apply wp_ret];
    intros l4 C4 S4; split_and!; try done; try (by eapply inv_on_core); by eapply cleaned_core.
Qed.

Lemma cleanup_hpost c l : inv l -> wp (cleanupStreamHandler (Some c)) l (hpost l).
Proof.
  intros Hi. eapply wp_mono; [by apply cleanupStreamHandler_spec|].
  intros r l' (Hr & Hi' & K & Ho & _). split_and!; [done| |done]. intros _. unfold inv. by rewrite Ho.
Qed.

Lemma hpost_trans l l1 l2 r : keeps l l1 -> hpost l1 r l2 -> hpost l r l2.
Proof. intros K (?&?&K2). split_and!; [done..|]. by etrans. Qed.

Lemma payload_app a b : payload (a ++ b) = payload a ++ payload b.
Proof. unfold payload. by rewrite fmap_app, concat_app. Qed.

Lemma inv_of_core l l' : same_core l l' -> inv l -> inv l'.
Proof. intros Hc Hi. unfold inv. replace (oiws l') with (oiws l) by (symmetry; apply Hc). by eapply inv_on_core. Qed.

(** Headers followed by the cleanup of their stream. *)
Lemma write_trailer_spec t c P w l :
  cleanup t = Some c -> inv_on P w l ->
  wp (write_trailer t) l (fun r l' => r <> Panic /\ keeps l l' /\
    (r = Ok tt -> inv_on P w l' /\ cleaned c l l')).
Proof.
  intros Hc Hi. unfold write_trailer. rewrite Hc. apply wp_bind.
  eapply wp_only_output; [apply writeHeader_output|]. intros r l1 Hr C1 S1.
  pose proof (keeps_core _ _ C1 S1) as K1.
  destruct r as [[]|e|]; [|by split_and!|done].
  eapply wp_mono; [apply cleanupStreamHandler_spec; by eapply inv_on_core|].
  intros r l2 (Hr2 & Hi2 & K2 & Ho & Hs & He & Ha). split_and!; [done|by etrans|].
  intros ->. split; [done|]. destruct C1 as (?&?&?&Ce&Ca&?&?&?).
  split_and!; [by etrans|congruence..|]. rewrite Ha. unfold without. by rewrite Ce, Ca.
Qed.

Lemma headerHandler_server_spec h l :
  inv l -> l_side l = serverSide -> item_ok l (HeaderFrame h) -> wp (headerHandler h) l (hpost l).
Proof.
  intros Hi Hsd Hok. simpl in Hok. rewrite Hsd in Hok.
  unfold headerHandler. apply wp_bind, wp_gets. rewrite Hsd. apply wp_bind, wp_gets.
  destruct (estdStreams l !! h_streamID h) as [p|] eqn:Hp; [|by apply wp_ret, hpost_core].
  destruct (inv_lookup _ _ _ _ Hi Hp) as (s & Hs & Hid & Hf & Hst).
  apply wp_bind, (wp_deref p s); [done|].
  destruct (h_endStream h) eqn:Hend; simpl.
  2: apply output_hpost; [done|apply writeHeader_output].
  destruct (Hok eq_refl) as (c & Hc & Hcid).
  destruct (bool_decide_reflect (state s = empty)) as [He|He]; simpl.
  - rewrite <- Hend. change (wp (write_trailer h) l (hpost l)).
    eapply wp_mono; [by apply (write_trailer_spec h c (fun _ => True) (oiws l))|].
    intros r l' (Hr & K & Hr'). split_and!; [done| |done]. intros ->.
    destruct (Hr' eq_refl) as (Hi' & _ & Ho & _). unfold inv. by rewrite Ho.
  - apply wp_store. split_and!; [done| |].
    + intros _. apply (inv_replace (oiws l) l (h_streamID h) p); [done..|].
      split_and!; [done| |].
      * apply Forall_app. split; [done|]. constructor; [|constructor]. simpl. eauto.
      * simpl. destruct (state s) eqn:Es; [|done|].
        -- destruct Hst as [(d & rest & Hh) Hin]. split; [|done]. exists d, (rest ++ [HeaderFrame h]).
           simpl. by rewrite Hh.
        -- destruct Hst as [(d & rest & Hh) Hin]. split; [|done]. exists d, (rest ++ [HeaderFrame h]).
           simpl. by rewrite Hh.
    + split_and!; try done. intros q _. rewrite queued_set_stream. case_decide; [|done]. subst q.
      unfold queued. rewrite Hs. simpl. rewrite payload_app. apply app_nil_r.
Qed.

Lemma headerHandler_client_spec h l :
  inv l -> l_side l = clientSide -> item_ok l (HeaderFrame h) -> wp (headerHandler h) l (hpost l).
Proof.
  intros Hi Hsd Hok. simpl in Hok. rewrite Hsd in Hok. destruct Hok as [[init Hinit] Hnone].
  unfold headerHandler. apply wp_bind, wp_gets. rewrite Hsd. apply wp_bind, wp_gets, wp_bind, wp_modify.
  set (s0 := mkStream (h_streamID h) empty [HeaderFrame h] 0 (h_wq h)).
  unfold originateStream. apply wp_bind, (wp_deref _ s0); [apply lookup_insert_eq|]. simpl.
  apply wp_bind, wp_store. rewrite Hinit.
  set (l1 := set_stream (brk l) (upd_itl [] s0) (new_stream s0 l)).
  assert (forall sid', estdStreams l !! sid' <> Some (brk l)) as Hfresh.
  { intros sid' Hs. pose proof (inv_on_estd_brk _ _ _ _ _ Hi Hs). lia. }
  assert (inv l1) as Hi1.
  { apply (inv_forget _ _ _ (brk l)); [|done].
    apply inv_on_set_stream; [tauto|naive_solver|]. apply inv_on_new, inv_except, Hi. }
  assert (keeps l l1) as K1.
  { split_and!; try done; simpl; [lia|]. intros p Hp. unfold queued; simpl.
    by rewrite !lookup_insert_ne by lia. }
  destruct (init (h_streamID h)) as [e|].
  { destruct (bool_decide _); [apply wp_throw|apply wp_ret]; by split_and!. }
  apply wp_bind. eapply wp_only_output; [apply writeHeader_output|]. intros r l2 Hr C2 S2.
  pose proof (keeps_core _ _ C2 S2) as K2. assert (keeps l l2) as K by (by etrans).
  destruct r as [[]|e|]; [|by split_and!|done].
  apply wp_modify. pose proof (inv_of_core _ _ C2 Hi1) as Hi2.
  destruct C2 as (?&?&?&Ce&?&Cs&Cb&?).
  split_and!; [done| |].
  - intros _. apply (inv_on_register _ _ l2 (brk l) (h_streamID h) (upd_itl [] s0)); try done.
    + by rewrite Ce.
    + by rewrite Ce.
    + rewrite Cb. simpl. lia.
    + rewrite Cs. apply lookup_insert_eq.
  - destruct K as (K1'&K2'&K3'&K4'&K5'&K6'). split_and!; try done. simpl.
    intros sid p Hp. destruct (decide (h_streamID h = sid)) as [<-|];
      [|rewrite lookup_insert_ne by done; auto].
    rewrite lookup_insert_eq. intros [= <-]. lia.
Qed.

Lemma headerHandler_spec h l :
  inv l -> item_ok l (HeaderFrame h) -> wp (headerHandler h) l (hpost l).
Proof.
  intros Hi Hok. destruct (l_side l) eqn:Hsd;
    [by apply headerHandler_client_spec|by apply headerHandler_server_spec].
Qed.

(** ** What an item does to the data stream *)

Definition quota_after (it : cbItem) (q : Z) : Z :=
  match it with IncomingWindowUpdate 0 n => u32 (q + n) | _ => q end.

Definition enqueued (sid : Z) (it : cbItem) : list byte :=
  match it with
  | DataFrame d => if d_streamID d =? sid then d_h d ++ d_d d else []
  | _ => []
  end.

(** [it] sends no data, credits the connection and appends its payload to its stream. *)
Definition moves (it : cbItem) (l l' : loopyWriter) : Prop :=
  sent (out l') = sent (out l) /\ sendQuota l' = quota_after it (sendQuota l) /\
  l_side l' = l_side l /\ (brk l <= brk l')%nat /\
  (forall sid p, estdStreams l !! sid = Some p -> queued l' p = queued l p ++ enqueued sid it) /\
  (forall sid p, (p < brk l)%nat -> estdStreams l' !! sid = Some p -> estdStreams l !! sid = Some p).

Lemma keeps_moves it l l' :
  inv l -> (forall sid, enqueued sid it = []) -> quota_after it (sendQuota l) = sendQuota l ->
  keeps l l' -> moves it l l'.
Proof.
  intros Hi He Hq (K1&K2&K3&K4&K5&K6). split_and!; try done; [congruence|].
  intros sid p Hp. rewrite He, app_nil_r. apply K5. by eapply inv_on_estd_brk.
Qed.

Definition handled (it : cbItem) (l : loopyWriter) (r : outcome error unit) (l' : loopyWriter) : Prop :=
  r <> Panic /\ (r = Ok tt -> inv l') /\ moves it l l'.

Lemma hpost_handled it l r l' :
  inv l -> (forall sid, enqueued sid it = []) -> quota_after it (sendQuota l) = sendQuota l ->
  hpost l r l' -> handled it l r l'.
Proof. intros ? ? ? (?&?&?). split_and!; [done..|]. by apply keeps_moves. Qed.

Lemma preprocessData_spec df l : inv l -> wp (preprocessData df) l (handled (DataFrame df) l).
Proof.
  intros Hi. unfold preprocessData. apply wp_bind, wp_gets.
  destruct (estdStreams l !! d_streamID df) as [p|] eqn:Hp.
  2: { apply wp_ret. split; [done|]. split; [done|]. split_and!; try done. simpl. intros sid p Hp'.
       destruct (d_streamID df =? sid) eqn:Eb; bool_to_prop; [congruence|]. by rewrite app_nil_r. }
  destruct (inv_lookup _ _ _ _ Hi Hp) as (s & Hs & Hid & Hf & Hst).
  apply wp_bind, (wp_deref p s); [done|]. apply wp_bind, wp_store. simpl.
  set (s1 := upd_itl (itl s ++ [DataFrame df]) s).
  assert (forall v, moves (DataFrame df) l (set_stream p (upd_state v s1) l)) as Hm.
  { intros v. split_and!; try done. intros sid q Hq. rewrite queued_set_stream. simpl.
    case_decide as Hpq.
    - subst q. rewrite (inv_estd_inj _ _ _ _ _ Hi Hq Hp), Z.eqb_refl.
      unfold queued. rewrite Hs, payload_app. unfold payload at 2. simpl. by rewrite app_nil_r.
    - destruct (d_streamID df =? sid) eqn:Eb; bool_to_prop; [congruence|]. by rewrite app_nil_r. }
  assert (Forall (item_in (d_streamID df)) (itl s1)) as Hf1 by (apply Forall_app; split; [done|by repeat constructor]).
  destruct (bool_decide_reflect (state s = empty)) as [He|He].
  - rewrite He in Hst. destruct Hst as [Hit Hna].
    apply wp_bind, wp_store, wp_active_enqueue. rewrite set_stream_twice. split_and!; [done| |apply Hm].
    intros _. apply (inv_activate (oiws l) l (d_streamID df) p); try done.
    exists df, []. simpl. by rewrite Hit.
  - apply wp_ret. replace s1 with (upd_state (state s) s1) by done. split_and!; [done| |apply Hm].
    intros _. apply (inv_replace (oiws l) l (d_streamID df) p); [done..|].
    split_and!; [done|done|]. simpl. destruct (state s) eqn:Es; [|done|];
      (destruct Hst as [(d & rest & Hh) Hin]; split; [|done]; exists d, (rest ++ [DataFrame df]);
       simpl; by rewrite Hh).
Qed.

Lemma incomingGoAwayHandler_spec l : inv l -> wp incomingGoAwayHandler l (hpost l).
Proof.
  intros Hi. unfold incomingGoAwayHandler. apply wp_bind, wp_gets.
  destruct (l_side l); [|by apply wp_ret].
  apply wp_bind, wp_modify, wp_bind, wp_gets. destruct (bool_decide _); [by apply wp_throw|by apply wp_ret].
Qed.

Lemma goAwayHandler_spec g l : inv l -> wp (goAwayHandler g) l (hpost l).
Proof.
  intros Hi. unfold goAwayHandler. destruct ssGoAwayHandler as [hd|]; [|by apply wp_ret].
  apply wp_bind, wp_gets, wp_bind, wp_modify.
  assert (keeps l (emit (EvGoAway g) l)) as K by (apply keeps_core; [done|by apply emit_sent]).
  destruct (hd (out l) g) as [d [e|]]; [by apply wp_throw|]. apply wp_modify. by split_and!.
Qed.

(** Every handler, on every item that respects the contract. *)
Lemma handle_spec it l : inv l -> item_ok l it -> wp (handle it) l (handled it l).
Proof.
  intros Hi Hok. destruct it; simpl.
  all: try (eapply wp_mono; [|intros r l' Hp; apply hpost_handled; [done|done|done|exact Hp]]).
  - by apply registerStreamHandler_spec.
  - by apply headerHandler_spec.
  - by apply cleanup_hpost.
  - by apply preprocessData_spec.
  - destruct (decide (streamID = 0)) as [->|Hne].
    + unfold incomingWindowUpdateHandler. simpl. apply wp_modify. split; [done|]. split; [|split_and!; try done].
      * intros _. destruct Hi as (H1&H2&H3&H4). split_and!; try done; apply u32_range.
      * intros sid p _. by rewrite app_nil_r.
    + eapply wp_mono; [apply incomingWindowUpdateHandler_spec; [done|done|simpl in Hok; lia]|].
      intros r l' Hp. apply hpost_handled; [done|done| |done]. by destruct streamID.
  - apply output_hpost; [done|]. by apply write_output.
  - by apply incomingSettingsHandler_spec.
  - apply output_hpost; [done|]. by apply write_output.
  - by apply incomingGoAwayHandler_spec.
  - by apply goAwayHandler_spec.
  - unfold pingHandler. apply wp_bind. destruct ack; [apply wp_ret|apply wp_modify].
    + apply output_hpost; [done|]. by apply write_output.
    + assert (keeps l (emit (EvTimesnap data) l)) as K by (apply keeps_core; [done|by apply emit_sent]).
      eapply wp_mono; [apply output_hpost; [done|by apply write_output]|].
      intros r l' Hp. by eapply hpost_trans.
  - apply wp_modify, hpost_core; [done|done|done|by apply emit_sent].
Qed.

End loopy.
