(* ===== verification/LoopyData.v ===== *)
(** [processData]: what one turn of the writer does to the data stream, and the measure
    that makes the turns end. *)

From S2P Require Import Prelude ItemList ControlBuf Loopy LoopyInv LoopySpec.

Section loopy.
Context {E : LoopyEnv}.

(** * The chunk *)

(** The bytes of an item not yet written. *)
Definition body (df : dataFrame) : list byte := d_h df ++ d_d df.

(** The three ways of assembling the buffer all yield the first bytes of header then data. *)
Lemma chunk_prefix m df :
  0 < m <= http2MaxFrameLen ->
  let hSize := min m (lenZ (d_h df)) in
  let dSize := min (m - hSize) (lenZ (d_d df)) in
  chunk hSize dSize df = take (Z.to_nat (hSize + dSize)) (body df).
Proof.
  intros Hm hSize dSize. unfold chunk, body.
  assert (0 <= hSize <= lenZ (d_h df) /\ hSize <= m /\ (hSize < lenZ (d_h df) -> hSize = m)) as (H1&H2&H3).
  { subst hSize. unfold min, lenZ. case_match; bool_to_prop; lia. }
  assert (0 <= dSize <= lenZ (d_d df) /\ dSize <= m - hSize) as (D1&D2).
  { subst dSize. unfold min, lenZ. case_match; bool_to_prop; lia. }
  clearbody hSize dSize. unfold lenZ in *. rewrite take_app.
  destruct (hSize =? 0) eqn:E1; bool_to_prop; simpl.
  - subst. replace (length (d_h df)) with 0%nat by lia.
    rewrite (nil_length_inv (d_h df)) by lia. by rewrite take_nil, Nat.sub_0_r.
  - destruct (dSize =? 0) eqn:E2; bool_to_prop.
    + subst. replace (Z.to_nat (hSize + 0) - length (d_h df))%nat with 0%nat by lia.
      by rewrite take_0, app_nil_r.
    + assert (hSize = Z.of_nat (length (d_h df))) by lia. subst hSize.
      rewrite Z2Nat.inj_add, Nat2Z.id by lia.
      rewrite (take_ge (d_h df) (length (d_h df))) by lia.
      replace (length (d_h df) + Z.to_nat dSize - length (d_h df))%nat with (Z.to_nat dSize) by lia.
      rewrite !take_app, (take_ge (d_h df)) by lia.
      replace (length (d_h df) + Z.to_nat dSize - length (d_h df))%nat with (Z.to_nat dSize) by lia.
      rewrite length_take. rewrite take_take, Nat.min_id.
      replace (Z.to_nat dSize - Z.to_nat dSize `min` length (d_d df))%nat with 0%nat by lia.
      by rewrite take_0, app_nil_r.
Qed.

(** * One turn *)

(** [l'] follows [l] by one data frame of the stream [sid]: a prefix of its queue, within
    the frame size, the stream's and the connection's quota. *)
Definition transmits (l l' : loopyWriter) : Prop :=
  exists sid p s df rest es (n : nat),
    estdStreams l !! sid = Some p /\ streams l !! p = Some s /\ itl s = DataFrame df :: rest /\
    sent (out l') = sent (out l) ++ [(sid, es, take n (body df))] /\
    (n <= length (body df))%nat /\ (n = 0%nat -> body df = []) /\
    Z.of_nat n <= http2MaxFrameLen /\ Z.of_nat n <= sendQuota l /\
    (n <> 0%nat -> Z.of_nat n <= oiws l - bytesOutStanding s) /\
    es = d_endStream df && bool_decide (n = length (body df)) /\
    sendQuota l' = sendQuota l - Z.of_nat n /\
    l_side l' = l_side l /\ (brk l <= brk l')%nat /\
    queued l p = take n (body df) ++ queued l' p /\
    (forall q, (q < brk l)%nat -> q <> p -> queued l' q = queued l q) /\
    (forall sid' q, (q < brk l)%nat ->
       estdStreams l' !! sid' = Some q -> estdStreams l !! sid' = Some q).

Definition item_weight (it : cbItem) : nat := S (length (item_payload it)).
Definition weight (l : loopyWriter) (p : loc) : nat :=
  match streams l !! p with Some s => sum_list_with item_weight (itl s) | None => 0%nat end.
Definition measure (l : loopyWriter) : nat := sum_list_with (weight l) (activeStreams l).

Definition progress (p : loc) (ps : list loc) (l l' : loopyWriter) : Prop :=
  (forall q, q <> p -> streams l' !! q = streams l !! q) /\
  (activeStreams l' ⊆+ ps \/ activeStreams l' = ps ++ [p] /\ (weight l' p < weight l p)%nat).

Lemma sum_weight_submseteq l xs ys :
  xs ⊆+ ys -> (sum_list_with (weight l) xs <= sum_list_with (weight l) ys)%nat.
Proof.
  intros [zs Hp]%submseteq_Permutation. rewrite Hp, sum_list_with_app. lia.
Qed.

Lemma sum_weight_agree l l' xs :
  (forall q, q ∈ xs -> streams l' !! q = streams l !! q) ->
  sum_list_with (weight l') xs = sum_list_with (weight l) xs.
Proof.
  induction xs as [|x xs IH]; intros H; simpl; [done|]. rewrite IH by set_solver.
  unfold weight at 1 3. by rewrite H by set_solver.
Qed.

Lemma progress_measure p ps l l' :
  activeStreams l = p :: ps -> p ∉ ps -> (0 < weight l p)%nat ->
  progress p ps l l' -> (measure l' < measure l)%nat.
Proof.
  intros Ha Hp Hw [Hs H]. unfold measure. rewrite Ha. simpl.
  destruct H as [Hsub|[-> Hlt]].
  - rewrite (sum_weight_agree l l' (activeStreams l')).
    + pose proof (sum_weight_submseteq l _ _ Hsub). lia.
    + intros q Hq. apply Hs. intros ->. apply Hp. by eapply elem_of_submseteq.
  - rewrite sum_list_with_app. simpl. rewrite (sum_weight_agree l l' ps); [lia|].
    intros q Hq. apply Hs. by intros ->.
Qed.

(** The situation in which a turn works on stream [p]. *)
Record picked (l : loopyWriter) (p : loc) (ps : list loc) (sid : Z) (s : outStream)
    (df : dataFrame) (rest : list cbItem) : Prop := {
  pk_inv : inv l;
  pk_active : activeStreams l = p :: ps;
  pk_estd : estdStreams l !! sid = Some p;
  pk_stream : streams l !! p = Some s;
  pk_itl : itl s = DataFrame df :: rest;
  pk_quota : 0 < sendQuota l
}.

Definition processed (l : loopyWriter) (p : loc) (ps : list loc)
    (r : outcome error bool) (l' : loopyWriter) : Prop :=
  r <> Panic /\ r <> Ok true /\ (r = Ok false -> inv l' /\ progress p ps l l') /\
  (keeps l l' \/ transmits l l').

Lemma transmits_keeps l l1 l2 : inv l -> transmits l l1 -> keeps l1 l2 -> transmits l l2.
Proof.
  intros Hi (sid&p&s&df&rest&es&n&T1&T2&T3&T4&T5&T6&T7&T8&T9&T10&T11&T12&T13&T14&T15&T16) (K1&K2&K3&K4&K5&K6).
  pose proof (inv_on_estd_brk _ _ _ _ _ Hi T1) as Hp.
  exists sid, p, s, df, rest, es, n. split_and!; try done; try congruence; [lia|rewrite K5 by lia; done| |].
  - intros q Hq Hne. rewrite K5 by lia. auto.
  - intros sid' q Hq Hs. apply T16; [done|]. apply K6; [lia|done].
Qed.

Section picked.
Context {l : loopyWriter} {p : loc} {ps : list loc} {sid : Z} {s : outStream} {df : dataFrame}
        {rest : list cbItem}.
Context (Hpk : picked l p ps sid s df rest).

Lemma pk_facts :
  id s = sid /\ state s = active /\ d_streamID df = sid /\ Forall (item_in sid) rest /\ (p ∉ ps) /\ NoDup ps.
Proof.
  destruct Hpk as [Hi Ha He Hs Ht _].
  destruct (inv_lookup _ _ _ _ Hi He) as (s' & Hs' & Hid & Hf & Hst). simplify_eq.
  rewrite Ht in Hf. apply Forall_cons in Hf as [Hd Hf].
  destruct Hi as (_&Hnd&_). rewrite Ha in Hnd. apply NoDup_cons in Hnd as [Hp Hnd].
  split_and!; try done. rewrite Ha in Hst.
  destruct (state s); [done|destruct Hst; congruence|]. destruct Hst as (_ & Hni & _). set_solver.
Qed.

Definition others (q : loc) : Prop := True /\ q <> p.

Lemma pk_inv_others : inv_on others (oiws l) (set_active ps l).
Proof.
  destruct pk_facts as (_&_&_&_&Hp&Hnd). destruct Hpk as [Hi Ha He Hs Ht _].
  destruct Hi as (H1&H2&H3&H4). split_and!; try done; simpl; try lia.
  - intros sid' q Hq. destruct (H1 sid' q Hq) as (Hb&s'&Hs'&Hid&Hok). split; [done|].
    exists s'. split_and!; try done. intros [_ Hne]. destruct (Hok I) as (?&?&Hst).
    split_and!; try done. rewrite Ha in Hst. destruct (state s'); set_solver.
  - intros q Hq. apply H3. rewrite Ha. set_solver.
Qed.

(** The stream has been taken off the active list and its queue updated, and the turn has
    to decide where it goes. *)
Record midway (l3 : loopyWriter) (s3 : outStream) : Prop := {
  mw_inv : inv_on others (oiws l) l3;
  mw_active : activeStreams l3 = ps;
  mw_streams : streams l3 = <[p := s3]> (streams l);
  mw_estd : estdStreams l3 = estdStreams l;
  mw_oiws : oiws l3 = oiws l;
  mw_id : id s3 = sid;
  mw_state : state s3 = active;
  mw_items : Forall (item_in sid) (itl s3)
}.

Lemma midway_core l3 l4 s3 : same_core l3 l4 -> midway l3 s3 -> midway l4 s3.
Proof.
  intros Hc [M1 M2 M3 M4 M5 M6 M7 M8]. pose proof (inv_on_core _ _ _ _ Hc M1).
  destruct Hc as (?&?&?&?&?&?&?&?). split; congruence.
Qed.

Lemma progress_store s4 l4 :
  streams l4 = <[p := s4]> (streams l) -> activeStreams l4 = ps -> progress p ps l l4.
Proof.
  intros Hs Ha. split; [|left; by rewrite Ha]. intros q Hq. by rewrite Hs, lookup_insert_ne.
Qed.

Lemma fin_store l3 s3 v :
  midway l3 s3 -> stream_ok (oiws l) ps sid p (upd_state v s3) ->
  inv (set_stream p (upd_state v s3) l3) /\ progress p ps l (set_stream p (upd_state v s3) l3).
Proof.
  intros [M1 M2 M3 M4 M5 M6 M7 M8] Hok. destruct Hpk as [Hi Ha He Hs Ht _].
  assert (streams (set_stream p (upd_state v s3) l3) = <[p := upd_state v s3]> (streams l)) as Hst.
  { simpl. by rewrite M3, insert_insert_eq. }
  split; [|by eapply progress_store].
  unfold inv. simpl. rewrite M5. apply (inv_restore _ _ _ p sid (upd_state v s3)).
  - apply inv_on_set_stream; [unfold others; tauto| |done].
    intros sid' Hs'. rewrite M4 in Hs'. by rewrite (inv_estd_inj _ _ _ _ _ Hi Hs' He).
  - simpl. by rewrite M4.
  - rewrite Hst. apply lookup_insert_eq.
  - simpl. by rewrite M2.
Qed.

Lemma fin_enqueue l3 s3 :
  midway l3 s3 -> head_data s3 -> (sum_list_with item_weight (itl s3) < weight l p)%nat ->
  inv (set_active (activeStreams l3 ++ [p]) l3) /\
  progress p ps l (set_active (activeStreams l3 ++ [p]) l3).
Proof.
  intros [M1 M2 M3 M4 M5 M6 M7 M8] Hh Hw. destruct pk_facts as (_&_&_&_&Hp&_).
  destruct Hpk as [Hi Ha He Hs Ht _]. split.
  - unfold inv. simpl. rewrite M5. apply (inv_restore _ _ _ p sid s3).
    + apply inv_on_enqueue; [unfold others; tauto|by rewrite M2| |done]. exists sid. by rewrite M4.
    + simpl. by rewrite M4.
    + simpl. rewrite M3. apply lookup_insert_eq.
    + split_and!; try done. rewrite M7. simpl. split; [done|]. set_solver.
  - split; simpl.
    + intros q Hq. by rewrite M3, lookup_insert_ne.
    + right. split; [by rewrite M2|]. unfold weight at 1. simpl. by rewrite M3, lookup_insert_eq.
Qed.

Lemma fin_cleaned l3 s3 c l4 :
  midway l3 s3 -> cs_streamID c = sid -> inv_on others (oiws l) l4 -> cleaned c l3 l4 ->
  inv l4 /\ progress p ps l l4.
Proof.
  intros [M1 M2 M3 M4 M5 M6 M7 M8] Hc Hi4 (K & Ho & Hst & Hest & Hact).
  destruct Hpk as [Hi Ha He Hs Ht _]. split.
  - unfold inv. rewrite Ho, M5. apply (inv_forget _ _ _ p); [exact Hi4|].
    intros sid' Hs'. rewrite Hest, M4, Hc in Hs'. apply lookup_delete_Some in Hs' as [Hne Hs'].
    by rewrite (inv_estd_inj _ _ _ _ _ Hi Hs' He) in Hne.
  - split.
    + intros q Hq. by rewrite Hst, M3, lookup_insert_ne.
    + left. rewrite Hact. unfold without. rewrite M4, Hc, He, M2.
      apply sublist_submseteq, sublist_filter.
Qed.

(** The stream after its first item has been consumed or shortened. *)
Lemma mid_store s3 l2 :
  same_core (set_active ps l) l2 -> id s3 = sid -> state s3 = active -> Forall (item_in sid) (itl s3) ->
  midway (set_stream p s3 l2) s3.
Proof.
  intros C M6 M7 M8. pose proof (inv_on_core _ _ _ _ C pk_inv_others) as Hi2.
  destruct C as (?&?&?&Ce&Ca&Cs&?&?). destruct Hpk as [Hi Ha He Hs Ht _].
  split; simpl; try done; [|by rewrite Cs].
  apply inv_on_set_stream; [unfold others; tauto| |done].
  intros sid' Hs'. rewrite Ce in Hs'. by rewrite (inv_estd_inj _ _ _ _ _ Hi Hs' He).
Qed.

Lemma queued_picked : queued l p = body df ++ payload rest.
Proof. destruct Hpk as [_ _ _ Hs Ht _]. unfold queued. by rewrite Hs, Ht. Qed.

Lemma weight_picked : weight l p = (S (length (body df)) + sum_list_with item_weight rest)%nat.
Proof. destruct Hpk as [_ _ _ Hs Ht _]. unfold weight. by rewrite Hs, Ht. Qed.

(** Writing [n] bytes of the picked item. *)
Lemma transmits_mid n es l3 s3 :
  (n <= length (body df))%nat -> (n = 0%nat -> body df = []) ->
  Z.of_nat n <= http2MaxFrameLen -> Z.of_nat n <= sendQuota l ->
  (n <> 0%nat -> Z.of_nat n <= oiws l - bytesOutStanding s) ->
  es = d_endStream df && bool_decide (n = length (body df)) ->
  sent (out l3) = sent (out l) ++ [(sid, es, take n (body df))] ->
  sendQuota l3 = sendQuota l - Z.of_nat n -> l_side l3 = l_side l -> brk l3 = brk l ->
  streams l3 = <[p := s3]> (streams l) -> estdStreams l3 = estdStreams l ->
  payload (itl s3) = drop n (body df) ++ payload rest -> transmits l l3.
Proof.
  intros. pose proof queued_picked as Hq. destruct Hpk as [Hi Ha He Hs Ht _].
  exists sid, p, s, df, rest, es, n. split_and!; try done; try lia.
  - rewrite Hq. unfold queued. rewrite H9, lookup_insert_eq, H11, (assoc_L (++)).
    by rewrite take_drop.
  - intros q _ Hne. unfold queued. by rewrite H9, lookup_insert_ne.
  - intros sid' q _. by rewrite H10.
Qed.

Lemma process_empty_spec :
  body df = [] -> wp (process_empty p s df) (set_active ps l) (processed l p ps).
Proof.
  intros Hb. destruct pk_facts as (Hid&Hst&Hd&Hf&Hp&Hnd). pose proof weight_picked as Hw.
  unfold process_empty. pose proof Hpk as [Hi Ha He Hs Ht Hq]. apply wp_bind, wp_write.
  { intros e. split_and!; try done. left. by split_and!. }
  apply wp_bind, wp_store, wp_bind, wp_modify. rewrite Ht. simpl.
  set (s3 := upd_itl rest s).
  set (l3 := emit (EvRelease df) (set_stream p s3
     (emit (EvFrame (FData (d_streamID df) (d_endStream df) [])) (set_active ps l)))).
  assert (midway l3 s3) as Hm.
  { apply (midway_core (set_stream p s3 (emit (EvFrame (FData (d_streamID df) (d_endStream df) []))
      (set_active ps l)))); [done|]. by apply mid_store. }
  assert (transmits l l3) as Htr.
  { apply (transmits_mid 0 (d_endStream df) l3 s3); try done; rewrite ?Hb; simpl; try lia; try done.
    - by rewrite andb_true_r.
    - rewrite !sent_app, Hd. simpl. by rewrite app_nil_r. }
  case_eq rest; [intros Er|intros it rest' Er].
  { apply wp_bind, wp_store, wp_ret. split_and!; try done.
    - intros _. apply fin_store; [done|]. subst s3. rewrite Er. by split_and!.
    - right. eapply transmits_keeps; [done|exact Htr|]. apply (keeps_set_stream _ _ s3); [|done].
      simpl. apply lookup_insert_eq. }
  rewrite Er in Hf. apply Forall_cons in Hf as [Hit Hf'].
  destruct it as [| t | | d | | | | | | | |]; try done; simpl.
  - destruct Hit as (_ & c & Hc & Hcid). rewrite Hc. apply wp_bind.
    eapply wp_only_output; [apply writeHeader_output|]. intros r l4 Hr C4 S4.
    assert (transmits l l4) as Htr4 by (eapply transmits_keeps; [done|exact Htr|by apply keeps_core]).
    destruct r as [[]|e|]; [|by split_and!; auto|done]. pose proof (midway_core _ _ _ C4 Hm) as Hm4.
    apply wp_bind. eapply wp_mono
      with (Q := fun r l5 => r = Ok tt /\ inv_on others (oiws l) l5 /\ cleaned c l4 l5).
    + pose proof (cleanupStreamHandler_spec c _ _ _ (mw_inv _ _ Hm4)) as Hcl.
      unfold wp, ignore_err in *. destruct (cleanupStreamHandler (Some c) l4) as [[[]|e|] l5];
        destruct Hcl as (?&?&?); done.
    + intros r l5 (-> & Hi5 & Hc5). apply wp_ret. split_and!; try done.
      * intros _. by apply (fin_cleaned l4 s3 c).
      * right. eapply transmits_keeps; [done|exact Htr4|apply Hc5].
  - apply wp_bind, wp_active_enqueue, wp_ret. split_and!; try done.
    + intros _. apply (fin_enqueue l3 s3); [done|by do 2 eexists|].
      rewrite Hw. simpl. lia.
    + right. eapply transmits_keeps; [done|exact Htr|apply keeps_set_active].
Qed.

Lemma midway_quota q l3 s3 : 0 <= q < 2 ^ 32 -> midway l3 s3 -> midway (set_sendQuota q l3) s3.
Proof.
  intros Hq [(H1&H2&H3&_) M2 M3 M4 M5 M6 M7 M8]. split; try done.
Qed.

Lemma mid_init : midway (set_active ps l) s.
Proof.
  destruct pk_facts as (Hid&Hst&Hd&Hf&Hp&Hnd). pose proof pk_inv_others as Ho.
  destruct Hpk as [Hi Ha He Hs Ht Hq]. split; try done; simpl.
  - by rewrite insert_id.
  - rewrite Ht. by constructor.
Qed.

(** Where the stream goes after [n] bytes of its first item were written. *)
Definition settle (s4 : outStream) : LM bool :=
  match itl s4 with
  | [] => store p (upd_state empty s4);; mret false
  | HeaderFrame t :: _ => write_trailer t;; mret false
  | _ =>
      if oiws l - bytesOutStanding s4 <=? 0
      then store p (upd_state waitingOnStreamQuota s4);; mret false
      else active_enqueue p;; mret false
  end.

Lemma settle_spec l4 s4 :
  midway l4 s4 -> transmits l l4 -> (sum_list_with item_weight (itl s4) < weight l p)%nat ->
  wp (settle s4) l4 (processed l p ps).
Proof.
  intros Hm Htr Hw. pose proof (pk_inv _ _ _ _ _ _ _ Hpk) as Hi.
  destruct pk_facts as (_&_&_&_&Hp&_).
  pose proof Hm as [M1 M2 M3 M4 M5 M6 M7 M8].
  assert (forall v, keeps l4 (set_stream p (upd_state v s4) l4)) as Hk.
  { intros v. apply (keeps_set_stream _ _ s4); [|done]. rewrite M3. apply lookup_insert_eq. }
  unfold settle. destruct (itl s4) as [|it rest'] eqn:Er.
  { apply wp_bind, wp_store, wp_ret. split_and!; try done.
    - intros _. apply fin_store; [done|]. split_and!; simpl; rewrite ?Er; done.
    - right. by eapply transmits_keeps. }
  apply Forall_cons in M8 as [Hit Hf'].
  destruct it as [| t | | d | | | | | | | |]; try done.
  - destruct Hit as (_ & c & Hc & Hcid). apply wp_bind.
    eapply wp_mono; [by apply (write_trailer_spec t c _ _ _ Hc M1)|].
    intros r l5 (Hr & K5 & H5). assert (transmits l l5) as Htr5 by (by eapply transmits_keeps).
    destruct r as [[]|e|]; [|by split_and!; auto|done].
    destruct (H5 eq_refl) as (Hi5 & Hc5). apply wp_ret. split_and!; try done; [|by right].
    intros _. by apply (fin_cleaned l4 s4 c).
  - assert (head_data s4) as Hh by (by do 2 eexists).
    destruct (_ <=? 0) eqn:Eq; bool_to_prop; apply wp_bind.
    + apply wp_store, wp_ret. split_and!; try done; [|right; by eapply transmits_keeps].
      intros _. apply fin_store; [done|]. split_and!; simpl; try done.
      * rewrite Er. by constructor.
      * split_and!; [done..|lia].
    + apply wp_active_enqueue, wp_ret. split_and!; try done.
      * intros _. apply (fin_enqueue l4 s4); [done..|]. by rewrite Er.
      * right. eapply transmits_keeps; [done|exact Htr|apply keeps_set_active].
Qed.

(** The bytes and the queue after a write of [h] bytes of the header and [d] of the data. *)
Lemma drop_body h d :
  0 <= h <= lenZ (d_h df) -> 0 <= d <= lenZ (d_d df) -> (h < lenZ (d_h df) -> d = 0) ->
  drop (Z.to_nat h) (d_h df) ++ drop (Z.to_nat d) (d_d df) = drop (Z.to_nat (h + d)) (body df).
Proof.
  unfold body, lenZ. intros Hh Hd Hhd. rewrite drop_app, Z2Nat.inj_add by lia.
  destruct (decide (h = Z.of_nat (length (d_h df)))) as [->|Hne].
  - rewrite !Nat2Z.id, !(drop_ge (d_h df)) by lia. simpl. f_equal. lia.
  - rewrite Hhd by lia. replace (Z.to_nat h + Z.to_nat 0)%nat with (Z.to_nat h) by lia.
    f_equal. f_equal. lia.
Qed.

Lemma process_chunk_spec :
  body df <> [] -> wp (process_chunk p s df) (set_active ps l) (processed l p ps).
Proof.
  intros Hb. destruct pk_facts as (Hid&Hst&Hd&Hf&Hp&Hnd). pose proof weight_picked as Hw.
  pose proof Hpk as [Hi Ha He Hs Ht Hq]. unfold process_chunk.
  apply wp_bind, wp_gets. cbn [oiws set_active].
  destruct (oiws l - bytesOutStanding s <=? 0) eqn:Eq; bool_to_prop.
  { apply wp_bind, wp_store, wp_ret. split_and!; try done.
    - intros _. apply fin_store; [apply mid_init|]. split_and!; simpl; try done.
      + rewrite Ht. by constructor.
      + split_and!; [by do 2 eexists|done|lia].
    - left. etrans; [|by apply (keeps_set_stream _ _ s)]. by split_and!. }
  apply wp_bind, wp_gets. cbn [sendQuota set_active].
  set (m := if sendQuota l <? _ then _ else _).
  assert (0 < m <= http2MaxFrameLen /\ m <= sendQuota l /\ m <= oiws l - bytesOutStanding s)
    as (Hm & Hmq & Hms).
  { subst m. unfold http2MaxFrameLen. repeat case_match; bool_to_prop; lia. }
  pose proof (chunk_prefix m df Hm) as Hch. cbn zeta in Hch.
  set (h := min m (lenZ (d_h df))) in *. set (d := min (m - h) (lenZ (d_d df))) in *.
  assert (0 <= h <= lenZ (d_h df) /\ h <= m /\ (h < lenZ (d_h df) -> h = m)) as (H1&H2&H3).
  { subst h. unfold min, lenZ. case_match; bool_to_prop; lia. }
  assert (0 <= d <= lenZ (d_d df) /\ d <= m - h /\ (d < lenZ (d_d df) -> d = m - h)) as (D1&D2&D3).
  { subst d. unfold min, lenZ. case_match; bool_to_prop; lia. }
  assert (lenZ (body df) = lenZ (d_h df) + lenZ (d_d df)) as Hlen.
  { unfold body, lenZ. rewrite length_app. lia. }
  assert (0 < h + d <= m) as Hhd.
  { destruct (body df) eqn:Eb; [done|]. unfold lenZ in *. simpl in Hlen. lia. }
  rewrite Hch. clearbody h d m. clear Hch.
  (* the quota callback, the ping reset and the write *)
  apply wp_bind. eapply wp_only_output; [by apply modify_emit_output|]. intros r l1 Hr C1 S1.
  assert (keeps l l1) as K1 by (etrans; [apply (keeps_set_active ps)|by apply keeps_core]).
  destruct r as [[]|e|]; [|by split_and!; auto|done]. apply wp_bind.
  eapply (wp_only_output (match resetPingStrikes df with Some r => modify (emit (EvResetPing r)) | None => mret tt end)).
  { destruct (resetPingStrikes df); [by apply modify_emit_output|by apply wp_ret]. }
  intros r l2 Hr2 C2 S2. assert (same_core (set_active ps l) l2) as C by (by etrans).
  assert (keeps l l2) as K2 by (etrans; [exact K1|by apply keeps_core]).
  destruct r as [[]|e|]; [|by split_and!; auto|done]. clear C1 S1 K1 C2 S2 l1 Hr Hr2.
  apply wp_bind, wp_write; [intros e; by split_and!; auto|].
  apply wp_bind, wp_modify.
  (* the stream's queue after the write *)
  rewrite Ht. cbn [List.tl upd_itl upd_bos itl id state bytesOutStanding d_h d_d].
  set (df' := mkData _ _ _ _ _).
  set (n := Z.to_nat (h + d)) in *.
  assert (body df' = drop n (body df)) as Hb' by (unfold body at 1; simpl; apply drop_body; lia).
  assert (Z.of_nat n = h + d) as Hn by lia.
  assert ((n <= length (body df))%nat) as Hn2 by (unfold lenZ in *; lia).
  assert (n <> 0%nat) as Hn0 by lia.
  set (fin := (lenZ (drop _ _) =? 0) && (lenZ (drop _ _) =? 0)).
  match goal with
  | |- context [if fin then ?a else ?b] =>
      match type of a with outStream => set (s4 := if fin then a else b) end
  end.
  assert (id s4 = sid /\ state s4 = active /\ Forall (item_in sid) (itl s4) /\
    payload (itl s4) = drop n (body df) ++ payload rest /\
    (sum_list_with item_weight (itl s4) < weight l p)%nat) as (S4a&S4b&S4c&S4d&S4e).
  { assert (fin = true -> drop n (body df) = []) as Hfin.
    { intros Hfin. subst fin. rewrite <- Hb'. unfold body, lenZ in *. bool_to_prop.
      rewrite (nil_length_inv (d_h df')), (nil_length_inv (d_d df')) by (simpl; lia). done. }
    subst s4. rewrite Hw. destruct fin; simpl.
    - rewrite Hfin by done. split_and!; try done. lia.
    - split_and!; try done; [by constructor|by rewrite <- Hb'|].
      change (S (length (body df')) + sum_list_with item_weight rest
              < S (length (body df)) + sum_list_with item_weight rest)%nat.
      rewrite Hb', length_drop. lia. }
  clearbody s4. apply wp_bind, wp_store, wp_bind.
  set (l3 := set_stream p s4 _).
  assert (midway l3 s4) as Hm3.
  { destruct Hi as (_&_&_&Hq2).
    apply (midway_quota (u32 (sendQuota l2 - (h + d))) (set_stream p s4 (emit _ l2)));
      [apply u32_range|]. by apply mid_store. }
  assert (transmits l l3) as Htr.
  { assert (sendQuota l2 = sendQuota l) as Hsq by apply C.
    apply (transmits_mid n (d_endStream df && (lenZ (d_h df) + lenZ (d_d df) <=? h + d)) l3 s4);
      try done; simpl; try lia.
    - f_equal. rewrite <- Hlen. unfold lenZ. rewrite <- Hn.
      destruct (Z.leb_spec (Z.of_nat (length (body df))) (Z.of_nat n)).
      + rewrite bool_decide_true; [done|lia].
      + rewrite bool_decide_false; [done|lia].
    - rewrite sent_app, Hd. f_equal. apply K2.
    - rewrite Hsq, u32_id by (destruct Hi as (_&_&_&Hq2); lia). lia.
    - apply C.
    - apply C.
    - f_equal. apply C.
    - apply C. }
  eapply (wp_only_output (if fin then modify (emit (EvRelease df')) else mret tt)).
  { destruct fin; [by apply modify_emit_output|by apply wp_ret]. }
  intros r l4 Hr C4 S4. assert (transmits l l4) as Htr4.
  { eapply transmits_keeps; [done|exact Htr|]. by apply keeps_core. }
  destruct r as [[]|e|]; [|by split_and!; auto|done].
  apply (settle_spec l4 s4); [by eapply midway_core|done|done].
Qed.

End picked.

(** One turn of [processData]. *)
Lemma processData_spec l :
  inv l -> wp processData l (fun r l' =>
    r <> Panic /\ (forall b, r = Ok b -> inv l') /\ (keeps l l' \/ transmits l l') /\
    (r = Ok true -> l' = l /\ (sendQuota l = 0 \/ activeStreams l = [])) /\
    (r = Ok false -> (measure l' < measure l)%nat)).
Proof.
  intros Hi. unfold processData. apply wp_bind, wp_gets.
  destruct (sendQuota l =? 0) eqn:Eq; bool_to_prop.
  { apply wp_ret. split_and!; [done|by intros|by left|by auto|done]. }
  apply wp_bind. unfold active_dequeue at 1. unfold wp at 1.
  destruct (activeStreams l) as [|p ps] eqn:Ha; simpl.
  { apply wp_ret. split_and!; [done|by intros|by left|by auto|done]. }
  destruct (proj1 (proj2 (proj2 Hi)) p) as [sid Hsid]; [rewrite Ha; set_solver|].
  destruct (inv_lookup _ _ _ _ Hi Hsid) as (s & Hs & Hid & Hf & Hst).
  apply wp_bind, (wp_deref p s); [done|].
  assert (head_data s) as (df & rest & Ht).
  { rewrite Ha in Hst. destruct (state s); [apply Hst|set_solver|apply Hst]. }
  rewrite Ht. assert (picked l p ps sid s df rest) as Hpk.
  { split; try done. destruct Hi as (_&_&_&Hq). lia. }
  assert (wp (if (lenZ (d_h df) =? 0) && (lenZ (d_d df) =? 0) then process_empty p s df
              else process_chunk p s df) (set_active ps l) (processed l p ps)) as Hwp.
  { destruct (_ && _) eqn:Eb.
    - bool_to_prop. apply (process_empty_spec Hpk). unfold body, lenZ in *.
      rewrite (nil_length_inv (d_h df)), (nil_length_inv (d_d df)) by lia. done.
    - apply (process_chunk_spec Hpk). intros Hb. unfold body in Hb. apply app_eq_nil in Hb as [H1 H2].
      rewrite H1, H2 in Eb. done. }
  eapply wp_mono; [exact Hwp|]. intros r l' (Hr & Hr2 & Hinv & Hk). split_and!; try done.
  - intros [] ->; [done|]. by apply Hinv.
  - intros ->. destruct (Hinv eq_refl) as [_ Hpr].
    eapply progress_measure; [exact Ha| | |exact Hpr].
    + apply (pk_facts Hpk).
    + rewrite (weight_picked Hpk). lia.
Qed.

End loopy.
