(* ===== verification/LoopyRun.v ===== *)
(** Executions of the loopy writer and what they guarantee on the wire: no panic, the
    connection's flow control, the order of each stream's bytes, work conservation, the
    end of the drain loop and the shape of header blocks. *)

From S2P Require Import Prelude ItemList ControlBuf Loopy LoopyInv LoopySpec LoopyData.

Section loopy.
Context {E : LoopyEnv}.

(** * Executions *)

(** A successful step of the writer: an item handled ([Some it]) or a turn of
    [processData] ([None]). *)
Inductive lstep : loopyWriter -> option cbItem -> loopyWriter -> Prop :=
| lstep_handle it l l' : item_ok l it -> handle it l = (Ok tt, l') -> lstep l (Some it) l'
| lstep_turn b l l' : processData l = (Ok b, l') -> lstep l None l'.

Inductive exec : loopyWriter -> list (option cbItem) -> loopyWriter -> Prop :=
| exec_nil l : exec l [] l
| exec_cons a l1 l2 its l3 : lstep l1 a l2 -> exec l2 its l3 -> exec l1 (a :: its) l3.

Lemma inv_new s e : inv (newLoopyWriter s e).
Proof.
  split_and!; simpl; try (unfold defaultWindowSize; lia).
  - intros sid p Hp. by rewrite lookup_empty in Hp.
  - constructor.
  - intros p Hp. by apply not_elem_of_nil in Hp.
Qed.

Lemma lstep_inv a l l' : lstep l a l' -> inv l -> inv l'.
Proof.
  intros [it l0 l0' Hok H|b l0 l0' H] Hi.
  - by apply (wp_run _ _ _ _ _ H (handle_spec it l0 Hi Hok)).
  - pose proof (wp_run _ _ _ _ _ H (processData_spec l0 Hi)) as (_ & Hv & _). by eapply Hv.
Qed.

Lemma exec_inv l its l' : exec l its l' -> inv l -> inv l'.
Proof. induction 1; eauto using lstep_inv. Qed.

(** The states a writer gets into. *)
Definition reachable (l : loopyWriter) : Prop := exists s e its, exec (newLoopyWriter s e) its l.

Lemma reachable_inv l : reachable l -> inv l.
Proof. intros (s & e & its & Hx). apply (exec_inv _ _ _ Hx (inv_new s e)). Qed.

(** What a step does to the data stream. *)
Lemma lstep_data a l l' : lstep l a l' -> inv l ->
  match a with Some it => moves it l l' | None => keeps l l' \/ transmits l l' end.
Proof.
  intros [it l0 l0' Hok H|b l0 l0' H] Hi.
  - by apply (wp_run _ _ _ _ _ H (handle_spec it l0 Hi Hok)).
  - by apply (wp_run _ _ _ _ _ H (processData_spec l0 Hi)).
Qed.

(** ** Safety *)

(** C5: the writer never panics.  After any sequence of successful steps from a new
    writer, handling an item that respects the transports' contract, or taking a turn,
    hits no nil dereference, failed type assertion or unbounded header loop, whatever the
    encoder produces and whichever write fails. *)
Theorem loopy_never_panics s e its l :
  exec (newLoopyWriter s e) its l ->
  (processData l).1 <> Panic /\ forall it, item_ok l it -> (handle it l).1 <> Panic.
Proof.
  intros Hx. pose proof (exec_inv _ _ _ Hx (inv_new s e)) as Hi. split.
  - by destruct (processData_spec l Hi).
  - intros it Hok. by destruct (handle_spec it l Hi Hok).
Qed.

(** ** Connection flow control *)

Definition credit (a : option cbItem) : Z :=
  match a with Some (IncomingWindowUpdate 0 n) => n | _ => 0 end.
Definition credits (its : list (option cbItem)) : Z := sumZ (credit <$> its).

Definition sent_bytes (l : loopyWriter) : Z := sumZ ((fun x => lenZ x.2) <$> sent (out l)).

Lemma sent_bytes_ext l l' x :
  sent (out l') = sent (out l) ++ [x] -> sent_bytes l' = sent_bytes l + lenZ x.2.
Proof. intros H. unfold sent_bytes. rewrite H, fmap_app, sumZ_app. simpl. lia. Qed.

Lemma credit_nonneg l a l' : lstep l a l' -> 0 <= credit a.
Proof.
  intros [it ? ? Hok _|]; simpl; [|lia]. destruct it; simpl; try lia.
  destruct streamID; simpl in *; lia.
Qed.

Lemma credits_cons a its : credits (a :: its) = credit a + credits its.
Proof. done. Qed.

(** After credits of [c] bytes in all: the quota is the credit left, as a uint32, and no more
    than the credit was written. *)
Definition within_credit (c : Z) (l : loopyWriter) : Prop :=
  sendQuota l = u32 (c - sent_bytes l) /\ sent_bytes l <= c.

Lemma u32_le z : 0 <= z -> u32 z <= z.
Proof. intros Hz. unfold u32, wrapU. by apply Z.mod_le. Qed.

Lemma lstep_quota c a l l' :
  inv l -> lstep l a l' -> within_credit c l -> within_credit (c + credit a) l'.
Proof.
  intros Hi H [Eq Hle]. pose proof (credit_nonneg _ _ _ H) as Hc. pose proof (lstep_data _ _ _ H Hi) as Hd.
  destruct a as [it|].
  - destruct Hd as (Hs & Hsq & _). unfold within_credit, sent_bytes in *. rewrite Hs, Hsq, Eq. split; [|lia].
    set (b := sumZ _). unfold quota_after, credit in *. destruct it; try (f_equal; lia). destruct streamID; try (f_equal; lia).
    unfold u32, wrapU. rewrite Zplus_mod_idemp_l. f_equal. lia.
  - simpl. rewrite Z.add_0_r. destruct Hd as [(Hs & Hsq & _)|T].
    + unfold within_credit, sent_bytes in *. by rewrite Hs, Hsq.
    + destruct T as (sid&p&s&df&rest&es&n&_&_&_&Hs&Hn&_&_&Hnq&_&_&Hsq&_).
      unfold within_credit. rewrite (sent_bytes_ext _ _ _ Hs), Hsq. simpl.
      assert (lenZ (take n (body df)) = Z.of_nat n) as -> by (unfold lenZ; rewrite length_take; lia).
      pose proof (u32_le (c - sent_bytes l) ltac:(lia)) as Hu. pose proof (u32_range (c - sent_bytes l)) as Hr. split; [|lia].
      rewrite <- (u32_id (sendQuota l - Z.of_nat n)) by lia. rewrite Eq. unfold u32, wrapU.
      rewrite Zminus_mod_idemp_l. f_equal. lia.
Qed.

Lemma exec_quota l its l' :
  exec l its l' -> forall c, inv l -> within_credit c l -> within_credit (c + credits its) l'.
Proof.
  induction 1 as [l|a l1 l2 its l3 H Hx IH]; intros c Hi Hw; [by rewrite Z.add_0_r|].
  rewrite credits_cons, Z.add_assoc. apply IH; [by eapply lstep_inv|by apply (lstep_quota c a l1)].
Qed.

(** C1: the writer respects the connection's flow-control window.  In every execution, the
    bytes written in DATA frames never exceed the initial window plus the peer's updates,
    even when a peer grants more than the uint32 quota can hold; the quota left is the
    difference as a uint32, and exactly the difference while the peer keeps the window
    within 32 bits (HTTP/2 asks for 31). *)
Theorem connection_flow_control s e its l :
  exec (newLoopyWriter s e) its l ->
  let credit := defaultWindowSize + credits its in
  sent_bytes l <= credit /\ sendQuota l = u32 (credit - sent_bytes l) /\
  (credit - sent_bytes l < 2 ^ 32 -> sent_bytes l + sendQuota l = credit).
Proof.
  intros Hx. destruct (exec_quota _ _ _ Hx defaultWindowSize (inv_new s e)) as [Eq Hle]; [by split|].
  split; [done|]. split; [done|]. intros Hlt. rewrite Eq, u32_id by lia. lia.
Qed.

(** ** Order of each stream's bytes *)

Definition sent_on (sid : Z) (xs : list (Z * bool * list byte)) : list byte :=
  concat ((fun x => if x.1.1 =? sid then x.2 else []) <$> xs).

Definition enq (sid : Z) (a : option cbItem) : list byte :=
  match a with Some it => enqueued sid it | None => [] end.

Lemma sent_on_app sid xs ys : sent_on sid (xs ++ ys) = sent_on sid xs ++ sent_on sid ys.
Proof. unfold sent_on. by rewrite fmap_app, concat_app. Qed.

Lemma lstep_order a l l' sid p :
  inv l -> lstep l a l' -> estdStreams l !! sid = Some p ->
  exists ext, sent (out l') = sent (out l) ++ ext /\
    queued l p ++ enq sid a = sent_on sid ext ++ queued l' p.
Proof.
  intros Hi H Hp. pose proof (lstep_data _ _ _ H Hi) as Hd.
  pose proof (inv_on_estd_brk _ _ _ _ _ Hi Hp) as Hb.
  destruct a as [it|]; simpl.
  - destruct Hd as (Hs & _ & _ & _ & Hq & _). exists []. rewrite app_nil_r. split; [done|].
    simpl. by rewrite (Hq sid p).
  - rewrite app_nil_r. destruct Hd as [(Hs & _ & _ & _ & Hq & _)|T].
    { exists []. rewrite app_nil_r. split; [done|]. simpl. by rewrite Hq. }
    destruct T as (sid0&p0&s&df&rest&es&n&He&_&_&Hs&_&_&_&_&_&_&_&_&_&Hq&Ho&_).
    eexists. split; [exact Hs|]. unfold sent_on. simpl. rewrite app_nil_r.
    destruct (Z.eqb_spec sid0 sid) as [->|Hne].
    + simplify_eq. done.
    + simpl. rewrite Ho; [done|done|]. intros ->. apply Hne. by eapply inv_estd_inj.
Qed.

Lemma lstep_no_resurrect a l l' sid p :
  inv l -> lstep l a l' -> (p < brk l)%nat -> estdStreams l' !! sid = Some p ->
  estdStreams l !! sid = Some p.
Proof.
  intros Hi H Hb He. pose proof (lstep_data _ _ _ H Hi) as Hd. destruct a as [it|].
  - destruct Hd as (_&_&_&_&_&Hr). by apply Hr.
  - destruct Hd as [(_&_&_&_&_&Hr)|T]; [by apply Hr|].
    destruct T as (?&?&?&?&?&?&?&?&?&?&?&?&?&?&?&?&?&?&?&?&?&?&Hr). by apply Hr.
Qed.

Lemma lstep_brk a l l' : inv l -> lstep l a l' -> (brk l <= brk l')%nat.
Proof.
  intros Hi H. pose proof (lstep_data _ _ _ H Hi) as Hd. destruct a as [it|].
  - by destruct Hd as (_&_&_&Hb&_).
  - destruct Hd as [(_&_&_&Hb&_)|T]; [done|].
    destruct T as (?&?&?&?&?&?&?&?&?&?&?&?&?&?&?&?&?&?&?&Hb&_). done.
Qed.

Lemma exec_no_resurrect l its l' sid p :
  exec l its l' -> inv l -> (p < brk l)%nat -> estdStreams l' !! sid = Some p ->
  estdStreams l !! sid = Some p.
Proof.
  induction 1 as [|a l1 l2 its l3 H Hx IH]; intros Hi Hb He; [done|].
  pose proof (lstep_brk _ _ _ Hi H). eapply lstep_no_resurrect; [done..|].
  apply IH; [by eapply lstep_inv|lia|done].
Qed.

(** C2: each stream's bytes reach the wire in order, exactly once.  For a stream that
    stays established through an execution, what was queued for it followed by what was
    enqueued meanwhile is what was written in its DATA frames followed by what is still
    queued. *)
Theorem stream_bytes_in_order l its l' sid p :
  inv l -> exec l its l' ->
  estdStreams l !! sid = Some p -> estdStreams l' !! sid = Some p ->
  exists ext, sent (out l') = sent (out l) ++ ext /\
    queued l p ++ concat (enq sid <$> its) = sent_on sid ext ++ queued l' p.
Proof.
  intros Hi Hx. induction Hx as [l|a l1 l2 its l3 H Hx IH]; intros He He'.
  - exists []. by rewrite !app_nil_r.
  - pose proof (lstep_inv _ _ _ H Hi) as Hi2.
    pose proof (inv_on_estd_brk _ _ _ _ _ Hi He) as Hb.
    assert (estdStreams l2 !! sid = Some p) as He2.
    { eapply exec_no_resurrect; [exact Hx|done| |done]. pose proof (lstep_brk _ _ _ Hi H). lia. }
    destruct (lstep_order _ _ _ _ _ Hi H He) as (e1 & Hs1 & Hq1).
    destruct (IH Hi2 He2 He') as (e2 & Hs2 & Hq2).
    exists (e1 ++ e2). rewrite Hs2, Hs1, (assoc_L (++)). split; [done|].
    change (concat (enq sid <$> a :: its)) with (enq sid a ++ concat (enq sid <$> its)).
    rewrite (assoc_L (++)), Hq1, sent_on_app, <- !(assoc_L (++)). by rewrite Hq2.
Qed.

(** ** Scheduling *)

(** A turn writes at most one DATA frame: a prefix of the first item queued on an
    established stream, of at most 16384 bytes, within the stream's and the connection's
    window, with END_STREAM exactly when it carries the last byte of an item that asks for
    it. *)
Theorem turn_writes_a_legal_frame l b l' :
  reachable l -> processData l = (Ok b, l') -> keeps l l' \/ transmits l l'.
Proof. intros Hi%reachable_inv H. by apply (wp_run _ _ _ _ _ H (processData_spec l Hi)). Qed.

(** C32: work conservation.  When a turn reports that there is nothing to send, every
    established stream with queued items is held back by flow control alone: the
    connection quota is zero, or the stream has used up its window. *)
Theorem idle_only_when_blocked l l' sid p s :
  reachable l -> processData l = (Ok true, l') ->
  estdStreams l' !! sid = Some p -> streams l' !! p = Some s -> itl s <> [] ->
  sendQuota l' = 0 \/ oiws l' <= bytesOutStanding s.
Proof.
  intros Hi%reachable_inv H Hp Hs Hne.
  destruct (wp_run _ _ _ _ _ H (processData_spec l Hi)) as (_&_&_&Ht&_).
  destruct (Ht eq_refl) as [-> [Hq|Ha]]; [by left|]. right.
  destruct (inv_lookup _ _ _ _ Hi Hp) as (s' & Hs' & _ & _ & Hst). simplify_eq.
  rewrite Ha in Hst. destruct (state s); [set_solver|tauto|tauto].
Qed.

(** The drain loop with no more items to read. *)
Lemma hasdata_spec fuel (g : bool) l :
  inv l -> ((if g then 2 else 1) + measure l <= fuel)%nat ->
  wp (hasdata fuel g []) l (fun r l' => r <> Panic /\
    forall script, r = Ok script -> inv l' /\ script = [] /\
      exists o, out l' = o ++ [EvFlush] /\ (sendQuota l' = 0 \/ activeStreams l' = [])).
Proof.
  revert g l. induction fuel as [|fuel IH]; intros g l Hi Hf; [destruct g; lia|].
  simpl. apply wp_bind. eapply wp_mono; [by apply processData_spec|].
  intros r l1 (Hr & Hv & _ & Ht & Hm). destruct r as [b|e|]; [|done|done].
  specialize (Hv b eq_refl). destruct b; simpl.
  - destruct (Ht eq_refl) as [-> Hq]. apply wp_bind, wp_gets.
    destruct (g && _) eqn:Eg; apply wp_bind, wp_modify.
    + destruct g; [|done]. apply IH; [done|]. unfold measure, weight in *. simpl. lia.
    + apply wp_ret. split; [done|]. intros script [= <-]. split_and!; try done. by exists (out l).
  - specialize (Hm eq_refl). apply IH; [done|lia].
Qed.

(** C33: the drain loop ends.  With no more items to read, the inner loop of [run] performs
    at most [measure l + 2] iterations, where the measure counts the items and bytes queued
    on active streams, and either stops with a write error or flushes with nothing left
    that flow control lets it send. *)
Theorem drain_terminates l fuel :
  reachable l -> (2 + measure l <= fuel)%nat ->
  match hasdata fuel true [] l with
  | (Ok script, l') => script = [] /\ (exists o, out l' = o ++ [EvFlush]) /\
                       (sendQuota l' = 0 \/ activeStreams l' = [])
  | (Err _, _) => True
  | (Panic, _) => False
  end.
Proof.
  intros Hi%reachable_inv Hf. destruct (hasdata fuel true [] l) as [r l'] eqn:H.
  destruct (wp_run _ _ _ _ _ H (hasdata_spec fuel true l Hi Hf)) as [Hr Ho].
  destruct r as [script|e|]; [|done|done].
  destruct (Ho script eq_refl) as (_ & -> & o & Hout & Hq). eauto.
Qed.

(** ** Header blocks *)

(** The frames of a header block cut into [frags]: HEADERS first, then CONTINUATION, with
    END_HEADERS on the last one only. *)
Fixpoint continuations (sid : Z) (frags : list (list byte)) : list wframe :=
  match frags with
  | [] => []
  | [f] => [FContinuation sid true f]
  | f :: frags => FContinuation sid false f :: continuations sid frags
  end.

Definition header_block (sid : Z) (es : bool) (frags : list (list byte)) : list wframe :=
  match frags with
  | [] => []
  | [f] => [FHeaders sid es true f]
  | f :: frags => FHeaders sid es false f :: continuations sid frags
  end.

Definition block (first : bool) sid es frags :=
  if first then header_block sid es frags else continuations sid frags.

Lemma write_fragments_block fuel first sid es b l :
  (length b < fuel)%nat ->
  wp (write_fragments fuel first sid es b) l (fun r l' => r = Ok tt ->
    exists frags, frags <> [] /\ concat frags = b /\
      Forall (fun f => lenZ f <= http2MaxFrameLen) frags /\
      out l' = out l ++ (EvFrame <$> block first sid es frags)).
Proof.
  revert first b l. induction fuel as [|fuel IH]; intros first b l Hf; [lia|]. simpl.
  apply wp_bind, wp_write; [done|].
  destruct (http2MaxFrameLen <? lenZ b) eqn:Eb; bool_to_prop; simpl.
  - assert (0 < http2MaxFrameLen) as Hpos by done. unfold lenZ in *.
    eapply wp_mono; [apply IH; rewrite length_drop; lia|]. intros r l' H ->.
    destruct (H eq_refl) as (frags & Hne & Hc & Hall & Ho).
    exists (take (Z.to_nat http2MaxFrameLen) b :: frags). split_and!; [done| | |].
    + simpl. rewrite Hc. apply take_drop.
    + constructor; [rewrite length_take; lia|done].
    + rewrite Ho. simpl. rewrite <- (assoc_L (++)). f_equal.
      destruct frags as [|f frags]; [done|]. by destruct first.
  - apply wp_ret. intros _. exists [b]. unfold lenZ in *. rewrite Nat2Z.id, firstn_all.
    split_and!; [done|simpl; by rewrite app_nil_r|by repeat constructor|].
    simpl. by destruct first.
Qed.

(** A header block that is written without error is one HEADERS frame followed by
    CONTINUATION frames of at most 16384 bytes with nothing in between; their fragments
    concatenate to the HPACK encoding of the fields, END_STREAM is on the first frame and
    END_HEADERS on the last one only. *)
Theorem writeHeader_block sid es hf cb l l' :
  writeHeader sid es hf cb l = (Ok tt, l') ->
  exists frags, frags <> [] /\ concat frags = (encode_fields hf (hEnc l)).1 /\
    Forall (fun f => lenZ f <= http2MaxFrameLen) frags /\
    out l' = out l ++ (EvCall <$> option_list cb) ++ (EvFrame <$> header_block sid es frags).
Proof.
  intros H. refine (wp_run _ _ (fun r l' => r = Ok tt -> _) _ _ H _ eq_refl). clear H l'.
  unfold writeHeader. apply wp_bind.
  assert (forall l1, hEnc l1 = hEnc l -> out l1 = out l ++ (EvCall <$> option_list cb) ->
    wp (e ← gets hEnc; let '(hBuf, e') := encode_fields hf e in
        modify (set_hEnc e');; write_fragments (S (length hBuf)) true sid es hBuf) l1
      (fun r l' => r = Ok tt -> exists frags, frags <> [] /\
        concat frags = (encode_fields hf (hEnc l)).1 /\
        Forall (fun f => lenZ f <= http2MaxFrameLen) frags /\
        out l' = out l ++ (EvCall <$> option_list cb) ++ (EvFrame <$> header_block sid es frags))) as Hgo.
  { intros l1 He Ho. apply wp_bind, wp_gets. rewrite He.
    destruct (encode_fields hf (hEnc l)) as [b e']. apply wp_bind, wp_modify.
    eapply wp_mono; [apply write_fragments_block; lia|]. intros r l' Hr ->.
    destruct (Hr eq_refl) as (frags & ? & ? & ? & Ho'). exists frags. split_and!; try done.
    rewrite Ho'. simpl. by rewrite Ho, <- (assoc_L (++)). }
  destruct cb as [c|]; [by apply wp_modify, Hgo|]. apply wp_ret, Hgo; [done|]. by rewrite app_nil_r.
Qed.

End loopy.

(** * A concrete writer *)

(** An encoder that spells each field out, no write error, and map order. *)
Definition plain_field (f : string * string) : list byte :=
  String.list_byte_of_string f.1 ++ String.list_byte_of_string f.2.

#[export] Instance plain_env : LoopyEnv := {|
  enc := unit;
  WriteField := fun f e => (plain_field f, e);
  updateHeaderTblSize := fun _ e => e;
  write_err := fun _ _ => None;
  range_order := map_to_list;
  range_order_perm := fun m => reflexivity (map_to_list m);
  SettingInitialWindowSize := 4;
  SettingHeaderTableSize := 1;
  ssGoAwayHandler := None;
  GetOffset := fun _ => 0
|}.

Definition bytes (n : nat) : list byte := repeat Byte.x61 n.

Definition data_item (sid : Z) (es : bool) (n : nat) : cbItem :=
  DataFrame (mkData sid es (bytes 5) (bytes n) None).

Definition register_and_send : list (option cbItem) :=
  [Some (RegisterStream 1 0); Some (RegisterStream 3 1);
   Some (data_item 1 false 40);
   Some (data_item 3 true 10); None; None; Some (IncomingWindowUpdate 0 1000); None].

(** Runs the labels of an execution, and the conditions under which that is one. *)
Fixpoint run_labels (its : list (option cbItem)) (l : loopyWriter) : loopyWriter :=
  match its with
  | [] => l
  | Some it :: its => run_labels its (handle it l).2
  | None :: its => run_labels its (processData l).2
  end.

Definition item_okb (l : loopyWriter) (it : cbItem) : bool :=
  match it with
  | IncomingWindowUpdate _ n => (0 <=? n) && (n <? 2 ^ 32)
  | RegisterStream sid _ => bool_decide (estdStreams l !! sid = None)
  | HeaderFrame h =>
      match l_side l with
      | serverSide => negb (h_endStream h) ||
          match cleanup h with Some c => cs_streamID c =? h_streamID h | None => false end
      | clientSide => match initStream h with Some _ => true | None => false end
                      && bool_decide (estdStreams l !! h_streamID h = None)
      end
  | _ => true
  end.

Lemma item_okb_ok l it : item_okb l it = true -> item_ok l it.
Proof.
  destruct it; simpl; try done; intros H.
  - by apply bool_decide_eq_true in H.
  - destruct (l_side l).
    + apply andb_prop in H as [H1 H2%bool_decide_eq_true]. split; [|done].
      destruct (initStream h) as [f|]; [by exists f|done].
    + intros Hes. rewrite Hes in H. simpl in H. destruct (cleanup h) as [c|]; [|done].
      exists c. bool_to_prop. done.
  - bool_to_prop. done.
Qed.

Fixpoint labels_ok (its : list (option cbItem)) (l : loopyWriter) : bool :=
  match its with
  | [] => true
  | Some it :: its =>
      item_okb l it && match handle it l with (Ok _, l') => labels_ok its l' | _ => false end
  | None :: its => match processData l with (Ok _, l') => labels_ok its l' | _ => false end
  end.

Lemma labels_exec its l : labels_ok its l = true -> exec l its (run_labels its l).
Proof.
  revert l. induction its as [|[it|] its IH]; intros l H; simpl in *; [constructor|..].
  - apply andb_prop in H as [Hok H].
    destruct (handle it l) as [[[]| |] l'] eqn:Eh; [|done|done].
    econstructor; [apply lstep_handle; [by apply item_okb_ok|done]|by apply IH].
  - destruct (processData l) as [[b| |] l'] eqn:Ep; [|done|done].
    econstructor; [by eapply lstep_turn|by apply IH].
Qed.

Definition sample0 : loopyWriter := newLoopyWriter serverSide tt.
Definition sample (n : nat) : loopyWriter := run_labels (take n register_and_send) sample0.

Lemma sample_exec : exec sample0 register_and_send (sample 8).
Proof.
  apply labels_exec. vm_compute. reflexivity.
Qed.

(** The two streams registered and their data queued. *)
Lemma sample4_exec : exec sample0 (take 4 register_and_send) (sample 4).
Proof.
  apply labels_exec. vm_compute. reflexivity.
Qed.

Lemma sample4_reachable : reachable (E := plain_env) (sample 4).
Proof. do 3 eexists. apply sample4_exec. Qed.

Lemma sample4_inv : inv (sample 4).
Proof. apply (reachable_inv (E := plain_env)), sample4_reachable. Qed.

Lemma sample48_exec : exec (sample 4) (drop 4 register_and_send) (sample 8).
Proof.
  assert (sample 8 = run_labels (drop 4 register_and_send) (sample 4)) as ->
    by (vm_compute; reflexivity).
  apply labels_exec. vm_compute. reflexivity.
Qed.

Lemma sample_turn : processData (sample 4) = (Ok false, sample 5).
Proof. vm_compute. reflexivity. Qed.

Lemma loopy_never_panics_witness :
  (processData (sample 8)).1 <> Panic /\
  forall it, item_ok (sample 8) it -> (handle it (sample 8)).1 <> Panic.
Proof. apply (loopy_never_panics (E := plain_env) serverSide tt register_and_send), sample_exec. Defined.

Lemma connection_flow_control_witness :
  sent_bytes (sample 8) + sendQuota (sample 8) = defaultWindowSize + 1000 /\
  sent_bytes (sample 8) <= defaultWindowSize + 1000.
Proof.
  destruct (connection_flow_control (E := plain_env) serverSide tt register_and_send (sample 8)) as (H1 & _ & H2);
    [apply sample_exec|].
  split; [|exact H1]. apply H2. vm_compute. reflexivity.
Defined.

Lemma stream_bytes_in_order_witness :
  exists ext, sent (out (sample 8)) = sent (out (sample 4)) ++ ext /\
    queued (sample 4) 0%nat ++ concat (enq 1 <$> drop 4 register_and_send)
    = sent_on 1 ext ++ queued (sample 8) 0%nat.
Proof.
  apply (stream_bytes_in_order (E := plain_env) (sample 4) (drop 4 register_and_send)).
  - apply sample4_inv.
  - apply sample48_exec.
  - vm_compute. reflexivity.
  - vm_compute. reflexivity.
Defined.

Lemma turn_writes_a_legal_frame_witness :
  keeps (sample 4) (sample 5) \/ transmits (sample 4) (sample 5).
Proof. apply (turn_writes_a_legal_frame (E := plain_env) _ false); [apply sample4_reachable|apply sample_turn]. Defined.

(** A stream whose peer announced an initial window of ten bytes. *)
Definition narrow : list (option cbItem) :=
  [Some (IncomingSettings [(4, 10)]); Some (RegisterStream 1 0); Some (data_item 1 false 20); None].
Definition narrowed : loopyWriter := run_labels narrow sample0.

Lemma narrowed_reachable : reachable (E := plain_env) narrowed.
Proof. exists serverSide, tt, narrow. apply labels_exec. vm_compute. reflexivity. Qed.

Lemma idle_only_when_blocked_witness :
  exists s, streams narrowed !! 0%nat = Some s /\ itl s <> [] /\
    (sendQuota narrowed = 0 \/ oiws narrowed <= bytesOutStanding s).
Proof.
  destruct (streams narrowed !! 0%nat) as [s|] eqn:Es; [|vm_compute in Es; discriminate].
  exists s. assert (itl s <> []) as Hne by (vm_compute in Es; injection Es as <-; discriminate).
  split; [reflexivity|]. split; [exact Hne|].
  apply (idle_only_when_blocked (E := plain_env) narrowed narrowed 1 0%nat s); [apply narrowed_reachable| | |exact Es|exact Hne];
    vm_compute; reflexivity.
Defined.

Lemma drain_terminates_witness :
  match hasdata (2 + measure (sample 4)) true [] (sample 4) with
  | (Ok script, l') => script = [] /\ (exists o, out l' = o ++ [EvFlush]) /\
                       (sendQuota l' = 0 \/ activeStreams l' = [])
  | (Err _, _) => True
  | (Panic, _) => False
  end.
Proof. apply (drain_terminates (E := plain_env)); [apply sample4_reachable|lia]. Defined.

Definition one_field : list (string * string) := [("a"%string, "b"%string)].

Lemma writeHeader_block_witness :
  exists frags, frags <> [] /\ concat frags = [Byte.x61; Byte.x62] /\
    Forall (fun f => lenZ f <= http2MaxFrameLen) frags /\
    out (writeHeader 1 true one_field (Some 7) sample0).2
    = out sample0 ++ (EvCall <$> [7]) ++ (EvFrame <$> header_block 1 true frags).
Proof.
  apply (writeHeader_block (E := plain_env) 1 true one_field (Some 7) sample0). vm_compute. reflexivity.
Defined.
