(* ===== verification/Discovery.v ===== *)
(** Service discovery results and their difference (src/pkg/discovery/discovery.go). *)

From S2P Require Import Prelude.

(** What the load balancers use of a discovery.Instance: its weight and its address as a
    string. *)
Class Instance_ (I : Type) := {
  Weight : I -> Z;
  Address : I -> string
}.

(** Instances given by an address and a weight. *)
#[export] Instance pair_instance : Instance_ (string * Z) := {| Weight := snd; Address := fst |}.

Section discovery.
Context {I : Type} `{!Instance_ I}.

Record Result := mkResult { Cacheable : bool; CacheKey : string; Instances : list I }.

Record Change := mkChange {
  ChResult : Result;
  Added : list I;
  Updated : list I;
  Removed : list I
}.

(** [m[ins.Address().String()] = ins] for each instance in order. *)
Definition by_address (xs : list I) : gmap string I :=
  foldl (fun m x => <[Address x := x]> m) ∅ xs.

(** The loop over the next instances, with its two accumulators. *)
Fixpoint diff_next (prevMap : gmap string I) (xs : list I) : list I * list I :=
  match xs with
  | [] => ([], [])
  | x :: xs =>
      let '(added, updated) := diff_next prevMap xs in
      match prevMap !! Address x with
      | None => (x :: added, updated)
      | Some p => if negb (Weight p =? Weight x) then (added, x :: updated) else (added, updated)
      end
  end.

Definition DefaultDiff (cacheKey : string) (prev next : Result) : Change * bool :=
  let prevMap := by_address (Instances prev) in
  let nextMap := by_address (Instances next) in
  let '(added, updated) := diff_next prevMap (Instances next) in
  let removed := filter (fun x => nextMap !! Address x = None) (Instances prev) in
  (mkChange (mkResult (Cacheable next) cacheKey (Instances next)) added updated removed,
   negb (lenZ added + lenZ updated + lenZ removed =? 0)).

(** The last instance of a list with a given address. *)
Definition latest (a : string) (xs : list I) : option I :=
  last (filter (fun x => Address x = a) xs).

Lemma by_address_lookup xs a : by_address xs !! a = latest a xs.
Proof.
  unfold by_address, latest. induction xs as [|x xs IH] using rev_ind; [done|].
  rewrite foldl_snoc, filter_app, filter_cons, filter_nil.
  destruct (decide (Address x = a)) as [<-|Hne].
  - by rewrite lookup_insert_eq, last_snoc.
  - by rewrite lookup_insert_ne, IH, app_nil_r.
Qed.

Lemma latest_None a xs : latest a xs = None <-> a ∉ Address <$> xs.
Proof.
  unfold latest. rewrite last_None. split.
  - intros Hf (x & -> & Hx)%list_elem_of_fmap.
    assert (x ∈ filter (fun y => Address y = Address x) xs) as Hin by (by apply list_elem_of_filter).
    rewrite Hf in Hin. by apply not_elem_of_nil in Hin.
  - intros Hn. destruct (filter _ xs) as [|x l] eqn:E; [done|]. destruct Hn.
    assert (x ∈ filter (fun y => Address y = a) xs) as Hin by (rewrite E; constructor).
    apply list_elem_of_filter in Hin as [<- Hx]. by apply list_elem_of_fmap_2.
Qed.

Lemma diff_next_spec m xs :
  (diff_next m xs).1 = filter (fun x => m !! Address x = None) xs /\
  forall x, x ∈ (diff_next m xs).2 <->
    x ∈ xs /\ exists p, m !! Address x = Some p /\ Weight p <> Weight x.
Proof.
  induction xs as [|x xs [IH1 IH2]]; simpl; [split; [done|set_solver]|].
  destruct (diff_next m xs) as [added updated]. simpl in *. rewrite filter_cons.
  destruct (m !! Address x) as [p|] eqn:Hx.
  - rewrite decide_False by done.
    destruct (Z.eqb_spec (Weight p) (Weight x)) as [He|He]; simpl; (split; [done|]); intros y.
    + rewrite IH2, elem_of_cons. split; [naive_solver|].
      intros [[->|Hy] (q & Hq & Hw)]; [congruence|eauto].
    + rewrite !elem_of_cons, IH2. split; [|naive_solver]. intros [->|(Hy & q & Hq & Hw)]; eauto 10.
  - rewrite decide_True by done. simpl. split; [by f_equal|]. intros y.
    rewrite IH2, elem_of_cons. split; [naive_solver|].
    intros [[->|Hy] (q & Hq & Hw)]; [congruence|eauto].
Qed.

(** The difference of two discovery results is exact: an instance is Added when its
    address did not occur before, Updated when the last previous instance with its address
    had another weight, Removed when its address does not occur any more; and the change
    flag is false only when none of this happens. *)
Theorem DefaultDiff_exact key prev next :
  let '(ch, changed) := DefaultDiff key prev next in
  (forall x, x ∈ Added ch <-> x ∈ Instances next /\ (Address x ∉ Address <$> Instances prev)) /\
  (forall x, x ∈ Updated ch <-> x ∈ Instances next /\
     exists p, latest (Address x) (Instances prev) = Some p /\ Weight p <> Weight x) /\
  (forall x, x ∈ Removed ch <-> x ∈ Instances prev /\ (Address x ∉ Address <$> Instances next)) /\
  (changed = false <-> Added ch = [] /\ Updated ch = [] /\ Removed ch = []) /\
  ChResult ch = mkResult (Cacheable next) key (Instances next).
Proof.
  unfold DefaultDiff.
  pose proof (diff_next_spec (by_address (Instances prev)) (Instances next)) as [H1 H2].
  destruct (diff_next _ _) as [added updated]. simpl in *. split_and!.
  - intros x. rewrite H1, list_elem_of_filter, by_address_lookup, latest_None. tauto.
  - intros x. rewrite H2. by rewrite by_address_lookup.
  - intros x. rewrite list_elem_of_filter, by_address_lookup, latest_None. tauto.
  - rewrite negb_false_iff, Z.eqb_eq. unfold lenZ. rewrite <- !length_zero_iff_nil. lia.
  - done.
Qed.

End discovery.

Arguments Result : clear implicits.
Arguments Change : clear implicits.
