(* ===== verification/Wrr.v ===== *)
(** The smooth weighted round-robin picker
    (src/pkg/loadbalance/weighted_round_robin.go, iterator.go).

    [nextWrrNode] is one step of the smooth algorithm; the picker fills a table of
    [totalWeight / gcd] picks lazily and reads it round-robin.  Weights are ints: their sums
    and the current weights wrap around at 64 bits.  The theorems show that the
    lazily filled table is the table of a full run, and that any full turn returns each
    instance exactly [weight / gcd] times. *)

From S2P Require Import Prelude Discovery.

Definition wrrVNodesBatchSize : Z := 500.

(** * gcd *)

(** The loop of [gcdInt]; [fuel] bounds its iterations. *)
Fixpoint gcd_loop (fuel : nat) (a b : Z) : Z :=
  match fuel with
  | O => a
  | S fuel => if b =? 0 then a else gcd_loop fuel b (Z.rem a b)
  end.

Definition gcdInt (a b : Z) : Z := gcd_loop (S (Z.abs_nat b)) a b.

Lemma gcd_loop_gcd fuel a b :
  0 <= a -> 0 <= b -> (Z.to_nat b < fuel)%nat -> gcd_loop fuel a b = Z.gcd a b.
Proof.
  revert a b. induction fuel as [|fuel IH]; intros a b Ha Hb Hf; [lia|]. simpl.
  destruct (Z.eqb_spec b 0) as [->|Hne]; [rewrite Z.gcd_0_r; lia|].
  rewrite Z.rem_mod_nonneg by lia. pose proof (Z.mod_pos_bound a b ltac:(lia)).
  rewrite IH by lia. rewrite Z.gcd_comm, Z.gcd_mod by lia. apply Z.gcd_comm.
Qed.

(** The Euclidean loop ends within its fuel and computes the greatest common divisor. *)
Lemma gcdInt_gcd a b : 0 <= a -> 0 <= b -> gcdInt a b = Z.gcd a b.
Proof. intros. apply gcd_loop_gcd; lia. Qed.

Section wrr.
Context {I : Type} `{!Instance_ I}.

(** * One step of the smooth algorithm *)

Record wrrNode := mkNode { ins : I; current : Z }.

(** The loop over the nodes: the updated nodes, the selected position and the total. *)
Fixpoint scan (i : nat) (nodes : list wrrNode) (selected : option nat) (maxCurrent totalWeight : Z)
    : list wrrNode * option nat * Z :=
  match nodes with
  | [] => ([], selected, totalWeight)
  | n :: ns =>
      let n := mkNode (ins n) (i64 (current n + Weight (ins n))) in
      let totalWeight := i64 (totalWeight + Weight (ins n)) in
      let '(selected, maxCurrent) :=
        if match selected with None => true | Some _ => maxCurrent <? current n end
        then (Some i, current n) else (selected, maxCurrent) in
      let '(ns, selected, totalWeight) := scan (S i) ns selected maxCurrent totalWeight in
      (n :: ns, selected, totalWeight)
  end.

Definition nextWrrNode (nodes : list wrrNode) : option nat * list wrrNode :=
  let '(nodes, selected, totalWeight) := scan 0 nodes None 0 0 in
  match selected with
  | None => (None, nodes)
  | Some j => (Some j, alter (fun n => mkNode (ins n) (i64 (current n - totalWeight))) j nodes)
  end.

(** * The picker *)

(** [vnodes] holds nil ([None]) where it is not filled yet. *)
Record wrrPicker := mkWrr {
  nodes : list wrrNode;
  iterator : Z;
  vsize : Z;
  vcapacity : Z;
  vnodes : list (option I)
}.

(** [instances[(idx+offset)%size]] for idx from 0. *)
Definition rotate_from (offset : Z) (instances : list I) : list I :=
  omap (fun idx => instances !! Z.to_nat ((Z.of_nat idx + offset) mod lenZ instances))
       (seq 0 (length instances)).

(** The loop of [buildVirtualWrrNodes]; [None] is a nil dereference or an index panic. *)
Fixpoint fill (n : nat) (i : Z) (ns : list wrrNode) (vs : list (option I))
    : option (list wrrNode * list (option I)) :=
  match n with
  | O => Some (ns, vs)
  | S n =>
      let '(sel, ns) := nextWrrNode ns in
      j ← sel; nd ← ns !! j; vs ← set_at vs i (Some (ins nd));
      fill n (i + 1) ns vs
  end.

Definition buildVirtualWrrNodes (vtarget : Z) (wp : wrrPicker) : option wrrPicker :=
  let vtarget := if vcapacity wp <? vtarget then vcapacity wp else vtarget in
  '(ns, vs) ← fill (Z.to_nat (vtarget - vsize wp)) (vsize wp) (nodes wp) (vnodes wp);
  Some (mkWrr ns (iterator wp) vtarget (vcapacity wp) vs).

(** [None] is a panic: the division by zero when there is no weight, or [make] with a
    capacity out of range. *)
Definition newWeightedRoundRobinPicker (offset : Z) (instances : list I) : option wrrPicker :=
  let insts := rotate_from offset instances in
  let totalWeight := foldl (fun t x => i64 (t + Weight x)) 0 insts in
  let gcd := foldl (fun g x => gcdInt g (Weight x)) 0 insts in
  if gcd =? 0 then None else
  let vcap := u64 (Z.quot totalWeight gcd) in
  if negb (make_ok 16 vcap) then None else
  buildVirtualWrrNodes wrrVNodesBatchSize
    (mkWrr ((fun x => mkNode x 0) <$> insts) 0 0 vcap (replicate (Z.to_nat vcap) None)).

Definition round_next (state : Z) : Z := u64 (state + 1).

(** [Next]: the instance (nil as [None]) and the picker; the outer [None] is a panic. *)
Definition Next (wp : wrrPicker) : option (option I * wrrPicker) :=
  if vcapacity wp =? 0 then None else
  let it := round_next (iterator wp) in
  let wp := mkWrr (nodes wp) it (vsize wp) (vcapacity wp) (vnodes wp) in
  let idx := it mod vcapacity wp in
  x ← at_ (vnodes wp) idx;
  match x with
  | Some _ => Some (x, wp)
  | None =>
      let vtarget := vsize wp + wrrVNodesBatchSize in
      let vtarget := if vtarget <=? idx then idx + 1 else vtarget in
      wp ← buildVirtualWrrNodes vtarget wp;
      x ← at_ (vnodes wp) idx;
      Some (x, wp)
  end.

(** * The smooth algorithm visits each node in proportion to its weight *)

Definition total (ns : list wrrNode) : Z := sumZ ((fun n => Weight (ins n)) <$> ns).

Definition bump (n : wrrNode) : wrrNode := mkNode (ins n) (current n + Weight (ins n)).

Lemma total_cons n ns : total (n :: ns) = Weight (ins n) + total ns.
Proof. done. Qed.

(** Bumping the node stays within an int. *)
Definition steady (n : wrrNode) : Prop :=
  0 <= Weight (ins n) /\ - 2 ^ 63 <= current n + Weight (ins n) < 2 ^ 63.

Lemma nodes_total_nonneg ns : Forall steady ns -> 0 <= total ns.
Proof. intros H. apply sumZ_nonneg, Forall_fmap. eapply Forall_impl; [exact H|]. by intros n [? _]. Qed.

(** The scan bumps every node and selects one of maximal current weight. *)
Lemma scan_spec i ns sel m t :
  Forall steady ns -> 0 <= t -> t + total ns < 2 ^ 63 ->
  let '(ns', sel', t') := scan i ns sel m t in
  ns' = bump <$> ns /\ t' = t + total ns /\
  match sel' with
  | None => sel = None /\ ns = []
  | Some j =>
      (sel = Some j /\ (forall n, n ∈ ns -> current (bump n) <= m)) \/
      (exists k n, j = (i + k)%nat /\ ns !! k = Some n /\
         (forall n', n' ∈ ns -> current (bump n') <= current (bump n)) /\
         (sel <> None -> m < current (bump n)))
  end.
Proof.
  intros Hst. revert i sel m t. induction Hst as [|n ns [Hw Hr] Hst IH]; intros i sel m t H0 Ht; simpl.
  { split; [done|]. split; [unfold total; simpl; lia|]. destruct sel; [left|]; set_solver. }
  pose proof (nodes_total_nonneg ns Hst). rewrite total_cons in Ht.
  rewrite (i64_id (current n + _)), (i64_id (t + _)) by lia. fold (bump n).
  assert (0 <= t + Weight (ins n)) as Ht0 by lia.
  assert (t + Weight (ins n) + total ns < 2 ^ 63) as Ht1 by lia.
  set (upd := match sel with None => true | Some _ => m <? current n + Weight (ins n) end).
  pose proof (IH (S i) (if upd then Some i else sel) (if upd then current (bump n) else m)
    (t + Weight (ins n)) Ht0 Ht1) as Hs.
  assert ((if upd then (Some i, current n + Weight (ins n)) else (sel, m))
    = (if upd then Some i else sel, if upd then current (bump n) else m)) as -> by (by destruct upd).
  destruct (scan _ _ _ _ _) as [[ns' sel'] t']. destruct Hs as (-> & -> & Hs).
  split; [done|]. split; [rewrite total_cons; lia|].
  destruct sel' as [j|].
  2: { destruct Hs as [Hs ->]. destruct upd eqn:E; [done|]. subst. done. }
  destruct Hs as [[Hsel Hm]|(k & n0 & -> & Hk & Hmax & Hgt)].
  - destruct upd eqn:Eu.
    + injection Hsel as <-. right. exists 0%nat, n. split_and!; [lia|done| |].
      * intros n' [->|Hn']%elem_of_cons; [done|]. by apply Hm.
      * intros Hne. subst upd. destruct sel; [|done]. by apply Z.ltb_lt in Eu.
    + left. split; [done|]. intros n' [->|Hn']%elem_of_cons; [|by apply Hm].
      subst upd. destruct sel; [|done]. apply Z.ltb_ge in Eu. done.
  - right. exists (S k), n0. split_and!; [lia|done| |].
    + intros n' [->|Hn']%elem_of_cons; [|by apply Hmax]. destruct upd eqn:Eu.
      * specialize (Hgt ltac:(done)). simpl in *. lia.
      * subst upd. destruct sel as [s|]; [|done]. apply Z.ltb_ge in Eu.
        specialize (Hgt ltac:(done)). simpl in *. lia.
    + intros Hne. destruct upd eqn:Eu; [|by apply Hgt].
      subst upd. destruct sel; [|done]. apply Z.ltb_lt in Eu.
      specialize (Hgt ltac:(done)). simpl in *. lia.
Qed.

Lemma nextWrrNode_spec ns :
  ns <> [] -> Forall steady ns -> total ns < 2 ^ 63 ->
  exists j n, ns !! j = Some n /\ (forall n', n' ∈ ns -> current (bump n') <= current (bump n)) /\
    nextWrrNode ns = (Some j,
      alter (fun n => mkNode (ins n) (i64 (current n - total ns))) j (bump <$> ns)).
Proof.
  intros Hne Hst Ht. unfold nextWrrNode.
  pose proof (scan_spec 0 ns None 0 0 Hst ltac:(lia) ltac:(lia)) as Hs.
  destruct (scan 0 ns None 0 0) as [[ns' sel] t]. destruct Hs as (-> & -> & Hs).
  destruct sel as [j|]; [|by destruct Hs].
  destruct Hs as [[? _]|(k & n & -> & Hk & Hmax & _)]; [done|]. simpl.
  exists k, n. split_and!; try done.
Qed.

(** [n] successive selections. *)
Fixpoint swrr (n : nat) (ns : list wrrNode) : list nat * list wrrNode :=
  match n with
  | O => ([], ns)
  | S n =>
      match nextWrrNode ns with
      | (Some j, ns) => let '(js, ns) := swrr n ns in (j :: js, ns)
      | (None, ns) => ([], ns)
      end
  end.

Definition totalW (xs : list I) : Z := sumZ (Weight <$> xs).

(** After the selections [js] (in any order) each node's current weight is what smooth
    round-robin keeps of its share, and never falls to minus the total. *)
Definition winv (xs : list I) (js : list nat) (ns : list wrrNode) : Prop :=
  ins <$> ns = xs /\ Forall (fun j => (j < length xs)%nat) js /\
  forall i n, ns !! i = Some n ->
    current n = lenZ js * Weight (ins n) - totalW xs * cnt i js /\ - totalW xs < current n.

Lemma total_totalW xs ns : ins <$> ns = xs -> total ns = totalW xs.
Proof. intros <-. unfold total, totalW. by rewrite <- list_fmap_compose. Qed.

Lemma totalW_pos xs : xs <> [] -> Forall (fun x => 0 < Weight x) xs -> 0 < totalW xs.
Proof.
  intros Hne Hp. destruct Hp as [|x xs Hx Hp]; [done|]. unfold totalW. rewrite fmap_cons, sumZ_cons.
  assert (0 <= sumZ (Weight <$> xs)); [|lia]. apply sumZ_nonneg, Forall_fmap.
  eapply Forall_impl; [exact Hp|]. simpl. lia.
Qed.

(** The current weights add up to zero. *)
Lemma winv_sum xs js ns : winv xs js ns -> sumZ (current <$> ns) = 0.
Proof.
  intros (Hi & Hj & Hc). rewrite sumZ_by_index.
  rewrite (sumZ_ext _ (fun i => lenZ js * match xs !! i with Some x => Weight x | None => 0 end
    + (- totalW xs) * cnt i js)).
  - assert (length ns = length xs) as -> by (by rewrite <- Hi, length_fmap).
    rewrite sumZ_linear, sumZ_cnt by done. rewrite <- (sumZ_by_index Weight xs).
    fold (totalW xs). lia.
  - intros i Hlt. apply lookup_lt_is_Some in Hlt as [n Hn]. rewrite Hn.
    assert (xs !! i = Some (ins n)) as -> by (by rewrite <- Hi, list_lookup_fmap, Hn).
    destruct (Hc i n Hn) as [-> _]. lia.
Qed.

Lemma sumZ_max (f : wrrNode -> Z) ns m : (forall n, n ∈ ns -> f n <= m) -> m <= 0 -> sumZ (f <$> ns) <= 0.
Proof.
  intros Hm H0. induction ns as [|n ns IH]; [done|]. rewrite fmap_cons, sumZ_cons.
  pose proof (Hm n ltac:(set_solver)). assert (sumZ (f <$> ns) <= 0); [|lia]. apply IH. set_solver.
Qed.

(** No current weight leaves an int: with [n] instances it stays between minus the total
    and [n] times the total. *)
Definition no_overflow (xs : list I) : Prop := lenZ xs * totalW xs < 2 ^ 63.

Lemma sumZ_lower (f : wrrNode -> Z) ns b :
  (forall n, n ∈ ns -> b <= f n) -> lenZ ns * b <= sumZ (f <$> ns).
Proof.
  intros Hb. induction ns as [|n ns IH]; [done|]. rewrite fmap_cons, sumZ_cons.
  pose proof (Hb n ltac:(set_solver)). assert (lenZ ns * b <= sumZ (f <$> ns)) by (apply IH; set_solver).
  unfold lenZ in *. simpl length. lia.
Qed.

Lemma totalW_elem xs x : Forall (fun x => 0 < Weight x) xs -> x ∈ xs -> Weight x <= totalW xs.
Proof.
  intros Hpos [l1 [l2 ->]]%list_elem_of_split. unfold totalW.
  apply Forall_app in Hpos as [H1 H2]. apply Forall_cons in H2 as [_ H2].
  rewrite fmap_app, fmap_cons, sumZ_app, sumZ_cons.
  assert (forall l : list I, Forall (fun x => 0 < Weight x) l -> 0 <= sumZ (Weight <$> l)) as Hnn.
  { intros l Hl. apply sumZ_nonneg, Forall_fmap. eapply Forall_impl; [exact Hl|]. simpl. lia. }
  pose proof (Hnn l1 H1). pose proof (Hnn l2 H2). lia.
Qed.

Lemma totalW_fits xs :
  xs <> [] -> Forall (fun x => 0 < Weight x) xs -> no_overflow xs -> totalW xs < 2 ^ 63.
Proof.
  intros Hne Hpos Hno. pose proof (totalW_pos xs Hne Hpos). unfold no_overflow in Hno.
  assert (1 <= lenZ xs) by (destruct xs; [done|unfold lenZ; simpl; lia]). nia.
Qed.

Lemma winv_steady xs js ns :
  xs <> [] -> Forall (fun x => 0 < Weight x) xs -> no_overflow xs -> winv xs js ns ->
  Forall steady ns.
Proof.
  intros Hne Hpos Hno Hw. pose proof (winv_sum _ _ _ Hw) as Hsum. destruct Hw as (Hi & Hj & Hc).
  pose proof (totalW_pos xs Hne Hpos) as HT. pose proof (totalW_fits xs Hne Hpos Hno).
  assert (forall n, n ∈ ns -> - totalW xs <= current n) as Hlow.
  { intros n [i Hn]%list_elem_of_lookup. destruct (Hc i n Hn). lia. }
  assert (lenZ ns = lenZ xs) as Hlen by (unfold lenZ; by rewrite <- Hi, length_fmap).
  apply Forall_forall. intros n Hn.
  assert (ins n ∈ xs) as Hx by (rewrite <- Hi; by apply list_elem_of_fmap_2).
  pose proof (totalW_elem xs _ Hpos Hx). rewrite Forall_forall in Hpos. pose proof (Hpos _ Hx).
  pose proof (Hlow n Hn). apply list_elem_of_split in Hn as (l1 & l2 & ->).
  rewrite fmap_app, fmap_cons, sumZ_app, sumZ_cons in Hsum.
  assert (lenZ l1 * - totalW xs <= sumZ (current <$> l1)) as Hs1 by (apply sumZ_lower; set_solver).
  assert (lenZ l2 * - totalW xs <= sumZ (current <$> l2)) as Hs2 by (apply sumZ_lower; set_solver).
  assert (lenZ l1 + lenZ l2 + 1 = lenZ xs) as Hl.
  { rewrite <- Hlen. unfold lenZ. rewrite length_app. simpl. lia. }
  unfold no_overflow in Hno. rewrite <- Hl in Hno. split; [lia|]. split; lia.
Qed.

Lemma winv_next xs js ns :
  xs <> [] -> Forall (fun x => 0 < Weight x) xs -> no_overflow xs -> winv xs js ns ->
  exists j ns', nextWrrNode ns = (Some j, ns') /\ winv xs (j :: js) ns'.
Proof.
  intros Hne Hpos Hno Hw. pose proof (winv_sum _ _ _ Hw) as Hsum. pose proof Hw as (Hi & Hj & Hc).
  pose proof (totalW_pos xs Hne Hpos) as HT. pose proof (total_totalW xs ns Hi) as Htot.
  pose proof (winv_steady _ _ _ Hne Hpos Hno Hw) as Hst. pose proof (totalW_fits xs Hne Hpos Hno).
  destruct (nextWrrNode_spec ns) as (j & n & Hn & Hmax & ->); [|done|lia|].
  { intros ->. simpl in Hi. by subst. }
  do 2 eexists. split; [done|]. rewrite Htot.
  assert (0 < current (bump n)) as Hpos'.
  { destruct (decide (current (bump n) <= 0)) as [Hle|]; [|lia].
    pose proof (sumZ_max (fun n => current (bump n)) ns _ Hmax Hle) as Hs.
    assert (sumZ ((fun n => current (bump n)) <$> ns) = sumZ (current <$> ns) + total ns) as E; [|lia].
    clear. induction ns as [|n ns IH]; [done|]. rewrite !fmap_cons, !sumZ_cons, total_cons, IH. simpl. lia. }
  assert (forall k nd, ns !! k = Some nd -> 0 < Weight (ins nd)) as HW.
  { intros k nd Hk. rewrite Forall_lookup in Hpos. apply (Hpos k). by rewrite <- Hi, list_lookup_fmap, Hk. }
  split_and!.
  - rewrite (list_fmap_alter _ _ id) by (by apply Forall_true).
    rewrite list_alter_id, <- list_fmap_compose by done. done.
  - constructor; [|done]. apply lookup_lt_Some in Hn. by rewrite <- Hi, length_fmap.
  - intros i nd Hnd. rewrite cnt_cons. unfold lenZ in *. simpl length. rewrite Nat2Z.inj_succ.
    destruct (decide (j = i)) as [<-|Hji].
    + rewrite list_lookup_alter_eq, list_lookup_fmap, Hn in Hnd. simplify_eq/=.
      destruct (Hc j n Hn) as [Hcur _]. rewrite Forall_lookup in Hst. destruct (Hst j n Hn).
      simpl in Hpos'. rewrite i64_id by lia. split; lia.
    + rewrite list_lookup_alter_ne, list_lookup_fmap in Hnd by done.
      apply fmap_Some in Hnd as (nd0 & Hnd0 & ->). simpl.
      destruct (Hc i nd0 Hnd0) as [Hcur Hgt]. pose proof (HW i nd0 Hnd0). split; lia.
Qed.

Definition start (xs : list I) : list wrrNode := (fun x => mkNode x 0) <$> xs.

Lemma winv_start xs : xs <> [] -> Forall (fun x => 0 < Weight x) xs -> winv xs [] (start xs).
Proof.
  intros Hne Hpos. pose proof (totalW_pos xs Hne Hpos). split_and!; [|constructor|].
  - unfold start. rewrite <- list_fmap_compose. apply list_fmap_id.
  - intros i n Hn. unfold start in Hn. apply list_lookup_fmap_Some in Hn as (x & -> & Hx).
    unfold lenZ, cnt. simpl. lia.
Qed.

Lemma winv_perm xs js js' ns : js ≡ₚ js' -> winv xs js ns -> winv xs js' ns.
Proof.
  intros Hp (H1 & H2 & H3). split_and!; [done|by rewrite <- Hp|].
  intros i n Hn. destruct (H3 i n Hn) as [H4 H5]. split; [|done].
  unfold cnt, lenZ in *. rewrite <- (proj1 (Permutation_count_occ Nat.eq_dec js js') Hp).
  by rewrite <- Hp.
Qed.

Lemma swrr_winv n xs js ns :
  xs <> [] -> Forall (fun x => 0 < Weight x) xs -> no_overflow xs -> winv xs js ns ->
  length (swrr n ns).1 = n /\ winv xs (js ++ (swrr n ns).1) (swrr n ns).2.
Proof.
  intros Hne Hpos Hno. revert js ns. induction n as [|n IH]; intros js ns Hw; simpl.
  { by rewrite app_nil_r. }
  destruct (winv_next _ _ _ Hne Hpos Hno Hw) as (j & ns' & -> & Hw').
  destruct (IH _ _ Hw') as [H1 H2]. destruct (swrr n ns') as [js' ns'']. simpl in *.
  split; [lia|]. eapply winv_perm; [|exact H2]. by rewrite Permutation_middle.
Qed.

Lemma swrr_1 ns : swrr 1 ns = match nextWrrNode ns with
  | (Some j, ns') => ([j], ns') | (None, ns') => ([], ns') end.
Proof. simpl. by destruct (nextWrrNode ns) as [[j|] ns']. Qed.

Lemma swrr_app a b ns :
  forall xs, xs <> [] -> Forall (fun x => 0 < Weight x) xs -> no_overflow xs -> (exists js, winv xs js ns) ->
  (swrr (a + b) ns).1 = (swrr a ns).1 ++ (swrr b (swrr a ns).2).1 /\
  (swrr (a + b) ns).2 = (swrr b (swrr a ns).2).2.
Proof.
  intros xs Hne Hpos Hno. revert ns. induction a as [|a IH]; intros ns [js Hw]; simpl; [done|].
  destruct (winv_next _ _ _ Hne Hpos Hno Hw) as (j & ns' & -> & Hw').
  destruct (IH ns') as [H1 H2]; [eauto|].
  destruct (swrr (a + b) ns') as [x1 x2], (swrr a ns') as [y1 y2]. simpl in *. by rewrite H1.
Qed.

(** * A full turn *)

Definition gcdW (xs : list I) : Z := foldl (fun g x => gcdInt g (Weight x)) 0 xs.

Lemma gcdW_divides xs :
  Forall (fun x => 0 < Weight x) xs ->
  0 <= gcdW xs /\ (xs <> [] -> 0 < gcdW xs) /\ Forall (fun x => (gcdW xs | Weight x)) xs.
Proof.
  intros Hpos. assert (forall g, 0 <= g ->
    let r := foldl (fun g x => gcdInt g (Weight x)) g xs in
    0 <= r /\ (r | g) /\ (0 < g \/ xs <> [] -> 0 < r) /\ Forall (fun x => (r | Weight x)) xs) as H.
  { induction Hpos as [|x xs Hx _ IH]; intros g Hg; simpl.
    { split_and!; [done|reflexivity|tauto|constructor]. }
    rewrite gcdInt_gcd by lia. pose proof (Z.gcd_nonneg g (Weight x)) as Hnn.
    assert (0 < Z.gcd g (Weight x)) as Hgp.
    { assert (Z.gcd g (Weight x) <> 0); [|lia]. intros E%Z.gcd_eq_0_r. lia. }
    destruct (IH _ Hnn) as (H1 & H2 & H3 & H4). split_and!; [done| |by intros _; apply H3; left|].
    - etrans; [exact H2|apply Z.gcd_divide_l].
    - constructor; [|done]. etrans; [exact H2|apply Z.gcd_divide_r]. }
  destruct (H 0 ltac:(lia)) as (H1 & _ & H3 & H4). split_and!; [done| |done]. intros Hne. by apply H3; right.
Qed.

Lemma totalW_gcd xs :
  xs <> [] -> Forall (fun x => 0 < Weight x) xs ->
  totalW xs / gcdW xs = sumZ ((fun x => Weight x / gcdW xs) <$> xs) /\
  totalW xs = gcdW xs * (totalW xs / gcdW xs).
Proof.
  intros Hne Hpos. destruct (gcdW_divides xs Hpos) as (_ & Hg & Hd). specialize (Hg Hne).
  assert (totalW xs = gcdW xs * sumZ ((fun x => Weight x / gcdW xs) <$> xs)) as E.
  { unfold totalW. revert Hg Hd. generalize (gcdW xs) as g. intros g Hg Hd. clear Hne Hpos.
    induction Hd as [|x xs [q Hq] _ IH]; [simpl; lia|].
    rewrite !fmap_cons, !sumZ_cons, IH, Hq, Z.div_mul by lia. lia. }
  rewrite E at 1. rewrite Z.mul_comm, Z.div_mul by lia. split; [done|].
  rewrite E at 2. rewrite (Z.mul_comm (gcdW xs) (sumZ _)), Z.div_mul by lia. done.
Qed.

(** In a full turn every node is selected [weight / gcd] times. *)
Lemma swrr_counts xs :
  xs <> [] -> Forall (fun x => 0 < Weight x) xs -> no_overflow xs ->
  let V := totalW xs / gcdW xs in
  forall i x, xs !! i = Some x -> cnt i (swrr (Z.to_nat V) (start xs)).1 = Weight x / gcdW xs.
Proof.
  intros Hne Hpos Hno V.
  destruct (swrr_winv (Z.to_nat V) xs [] (start xs) Hne Hpos Hno (winv_start xs Hne Hpos)) as [Hlen Hw].
  destruct (swrr (Z.to_nat V) (start xs)) as [js ns]. simpl in *.
  destruct (gcdW_divides xs Hpos) as (_ & Hg & Hd). specialize (Hg Hne).
  destruct (totalW_gcd xs Hne Hpos) as [HV HT]. fold V in HV, HT.
  pose proof (totalW_pos xs Hne Hpos) as HTp.
  assert (0 < V) as HVp by nia.
  assert (lenZ js = V) as Hl by (unfold lenZ; lia).
  destruct Hw as (Hi & Hj & Hc).
  assert (forall i x, xs !! i = Some x -> cnt i js <= Weight x / gcdW xs) as Hle.
  { intros i x Hx. assert (exists n, ns !! i = Some n /\ ins n = x) as (n & Hn & <-).
    { rewrite <- Hi in Hx. apply list_lookup_fmap_Some in Hx as (n & -> & Hn). eauto. }
    destruct (Hc i n Hn) as [Hcur Hgt]. rewrite Hl in Hcur.
    rewrite Forall_lookup in Hd. destruct (Hd i _ Hx) as [q Hq]. rewrite Hq, Z.div_mul by lia.
    rewrite Hq in Hcur. assert (current n = totalW xs * (q - cnt i js)) by nia. nia. }
  set (f := fun i => cnt i js).
  set (g := fun i => match xs !! i with Some x => Weight x / gcdW xs | None => 0 end).
  intros i x Hx. pose proof (lookup_lt_Some _ _ _ Hx) as Hlt.
  assert (f i = g i) as E; [|subst f g; simpl in E; by rewrite Hx in E].
  apply (sumZ_le_eq f g (length xs)); [| |done].
  - intros k Hk. apply lookup_lt_is_Some in Hk as [y Hy]. subst f g. simpl. rewrite Hy. by apply Hle.
  - subst f g. rewrite sumZ_cnt by done. rewrite Hl, HV. apply (sumZ_by_index (fun x => Weight x / gcdW xs)).
Qed.

(** The table of a full turn. *)
Definition table (xs : list I) : list I :=
  omap (fun j => xs !! j) (swrr (Z.to_nat (totalW xs / gcdW xs)) (start xs)).1.

Definition share (xs : list I) (x : I) : list I := repeat x (Z.to_nat (Weight x / gcdW xs)).

Lemma count_repeat_seq (f : nat -> nat) n i :
  count_occ Nat.eq_dec (concat ((fun k => repeat k (f k)) <$> seq 0 n)) i
  = if decide (i < n)%nat then f i else 0%nat.
Proof.
  induction n as [|n IH]; [by rewrite decide_False by lia|].
  rewrite seq_S, fmap_app, concat_app, count_occ_app, IH. simpl. rewrite app_nil_r.
  destruct (decide (i = n)) as [->|Hne].
  - rewrite decide_False, decide_True by lia. rewrite count_occ_repeat_eq by done. done.
  - rewrite count_occ_repeat_neq by done. repeat case_decide; lia.
Qed.

Lemma omap_repeat (xs : list I) k x m :
  xs !! k = Some x -> omap (fun j => xs !! j) (repeat k m) = repeat x m.
Proof. intros Hk. induction m as [|m IH]; [done|]. simpl. rewrite Hk. f_equal. exact IH. Qed.

Lemma omap_shares (xs : list I) (F : I -> nat) :
  omap (fun j => xs !! j) (concat ((fun k => repeat k
    match xs !! k with Some x => F x | None => 0%nat end) <$> seq 0 (length xs)))
  = concat ((fun x => repeat x (F x)) <$> xs).
Proof.
  assert (forall ys, (exists zs, xs = ys ++ zs) ->
    omap (fun j => xs !! j) (concat ((fun k => repeat k
      match xs !! k with Some x => F x | None => 0%nat end) <$> seq 0 (length ys)))
    = concat ((fun x => repeat x (F x)) <$> ys)) as H; [|apply H; exists []; by rewrite app_nil_r].
  induction ys as [|y ys IH] using rev_ind; intros [zs Hz]; [done|].
  rewrite length_app, Nat.add_1_r, seq_S, !fmap_app, !concat_app, omap_app.
  rewrite IH by (exists (y :: zs); by rewrite Hz, <- (assoc_L (++))). f_equal. simpl.
  assert (xs !! length ys = Some y) as Hy.
  { rewrite Hz, <- (assoc_L (++)), lookup_app_r, Nat.sub_diag by lia. done. }
  rewrite !app_nil_r, Hy. by apply omap_repeat.
Qed.

(** The table holds each instance [weight / gcd] times. *)
Lemma table_shares xs :
  xs <> [] -> Forall (fun x => 0 < Weight x) xs -> no_overflow xs -> table xs ≡ₚ concat (share xs <$> xs).
Proof.
  intros Hne Hpos Hno. unfold table, share. rewrite <- omap_shares.
  apply omap_Permutation, (Permutation_count_occ Nat.eq_dec). intros i.
  rewrite count_repeat_seq. case_decide as Hi.
  - apply lookup_lt_is_Some in Hi as [x Hx]. rewrite Hx.
    pose proof (swrr_counts xs Hne Hpos Hno i x Hx) as Hc. unfold cnt in Hc. lia.
  - apply count_occ_not_In. intros Hin%list_elem_of_In.
    destruct (swrr_winv (Z.to_nat (totalW xs / gcdW xs)) xs [] (start xs) Hne Hpos Hno
      (winv_start xs Hne Hpos)) as [_ (_ & Hj & _)]. rewrite Forall_forall in Hj. by apply Hj in Hin.
Qed.

(** * The lazily filled table *)

Lemma lookup_omap_total (xs : list I) js i :
  Forall (fun j => (j < length xs)%nat) js ->
  omap (fun j => xs !! j) js !! i = (js !! i) ≫= (fun j => xs !! j).
Proof.
  intros Hj. revert i. induction Hj as [|j js Hlt _ IH]; intros i; [done|].
  apply lookup_lt_is_Some in Hlt as [x Hx]. simpl. rewrite Hx.
  destruct i as [|i]; simpl; [by rewrite Hx|]. apply IH.
Qed.

Section picker.
Context (xs : list I) (Hne : xs <> []) (Hpos : Forall (fun x => 0 < Weight x) xs)
  (Hno : no_overflow xs).

Definition V : nat := Z.to_nat (totalW xs / gcdW xs).

Lemma V_pos : (0 < V)%nat /\ Z.of_nat V = totalW xs / gcdW xs.
Proof.
  destruct (totalW_gcd xs Hne Hpos) as [_ HT]. pose proof (totalW_pos xs Hne Hpos).
  destruct (gcdW_divides xs Hpos) as (_ & Hg & _). specialize (Hg Hne).
  assert (0 < totalW xs / gcdW xs) by nia. unfold V. lia.
Qed.

Lemma swrr_start n :
  length (swrr n (start xs)).1 = n /\ winv xs (swrr n (start xs)).1 (swrr n (start xs)).2.
Proof. apply (swrr_winv n xs [] (start xs) Hne Hpos Hno (winv_start xs Hne Hpos)). Qed.

Lemma length_table : length (table xs) = V.
Proof.
  unfold table. fold V. destruct (swrr_start V) as [Hl (_ & Hj & _)]. rewrite <- Hl at 2.
  clear Hl. induction Hj as [|j js Hlt _ IH]; [done|]. simpl.
  apply lookup_lt_is_Some in Hlt as [x Hx]. rewrite Hx. simpl. f_equal. exact IH.
Qed.

(** The next pick is the next entry of the table. *)
Lemma next_is_table i :
  (i < V)%nat ->
  exists j nd, nextWrrNode (swrr i (start xs)).2 = (Some j, (swrr (S i) (start xs)).2) /\
    (swrr (S i) (start xs)).2 !! j = Some nd /\ table xs !! i = Some (ins nd).
Proof.
  intros Hi. destruct (swrr_start i) as [Hl Hw].
  destruct (winv_next _ _ _ Hne Hpos Hno Hw) as (j & ns' & Hnx & Hw').
  destruct (swrr_app i 1 (start xs) xs Hne Hpos Hno) as [A1 A2]; [exists []; by apply winv_start|].
  rewrite Nat.add_1_r, swrr_1, Hnx in A1, A2. cbn [fst snd] in A1, A2.
  rewrite A2. destruct Hw' as (Hins & Hj & _). apply Forall_cons in Hj as [Hj _].
  assert (is_Some (ns' !! j)) as [nd Hnd].
  { apply lookup_lt_is_Some. rewrite <- (length_fmap ins), Hins. done. }
  exists j, nd. split_and!; [done|done|].
  assert (xs !! j = Some (ins nd)) as Hx by (by rewrite <- Hins, list_lookup_fmap, Hnd).
  unfold table. fold V. destruct (swrr_start V) as [_ (_ & HjV & _)].
  rewrite lookup_omap_total by done.
  destruct (swrr_app (S i) (V - S i) (start xs) xs Hne Hpos Hno) as [B1 _]; [exists []; by apply winv_start|].
  replace (S i + (V - S i))%nat with V in B1 by lia.
  rewrite B1, A1, <- (assoc_L (++)), lookup_app_r by lia. rewrite Hl, Nat.sub_diag. simpl. done.
Qed.

(** The table filled up to [k]. *)
Definition filled (k : nat) : list (option I) := (Some <$> take k (table xs)) ++ replicate (V - k) None.

Lemma filled_step i x :
  table xs !! i = Some x -> set_at (filled i) (Z.of_nat i) (Some x) = Some (filled (S i)).
Proof.
  intros Hx. pose proof (lookup_lt_Some _ _ _ Hx) as Hlt. rewrite length_table in Hlt.
  unfold set_at, filled, lenZ. rewrite decide_True.
  2: { rewrite length_app, length_fmap, length_take, length_replicate, length_table. lia. }
  f_equal. rewrite Nat2Z.id, (take_S_r _ _ x) by done. rewrite fmap_app, <- (assoc_L (++)).
  rewrite insert_app_r_alt by (rewrite length_fmap, length_take; lia). f_equal.
  rewrite length_fmap, length_take, length_table.
  replace (i - i `min` V)%nat with 0%nat by lia.
  replace (V - i)%nat with (S (V - S i)) by lia. done.
Qed.

Lemma fill_spec n i :
  (i + n <= V)%nat ->
  fill n (Z.of_nat i) (swrr i (start xs)).2 (filled i)
  = Some ((swrr (i + n) (start xs)).2, filled (i + n)).
Proof.
  revert i. induction n as [|n IH]; intros i Hi; [by rewrite Nat.add_0_r|]. cbn [fill].
  destruct (next_is_table i) as (j & nd & Hnx & Hnd & Ht); [lia|]. rewrite Hnx.
  cbn [mbind option_bind]. rewrite Hnd. cbn [mbind option_bind].
  rewrite (filled_step i (ins nd)) by done. cbn [mbind option_bind].
  replace (Z.of_nat i + 1) with (Z.of_nat (S i)) by lia. rewrite IH by lia.
  by replace (S i + n)%nat with (i + S n)%nat by lia.
Qed.

(** What a picker over [xs] looks like between calls. *)
Definition pinv (wp : wrrPicker) : Prop :=
  exists k, (k <= V)%nat /\ vsize wp = Z.of_nat k /\ vcapacity wp = Z.of_nat V /\
    nodes wp = (swrr k (start xs)).2 /\ vnodes wp = filled k.

Lemma build_spec t wp :
  pinv wp -> vsize wp <= t -> exists wp', buildVirtualWrrNodes t wp = Some wp' /\ pinv wp' /\
    iterator wp' = iterator wp /\ vsize wp' = Z.min t (Z.of_nat V).
Proof.
  intros (k & Hk & Hs & Hc & Hn & Hv) Ht. unfold buildVirtualWrrNodes. rewrite Hs, Hc, Hn, Hv.
  set (t' := if Z.of_nat V <? t then Z.of_nat V else t).
  assert (t' = Z.min t (Z.of_nat V)) as Ht' by (subst t'; case_match; bool_to_prop; lia).
  clearbody t'. rewrite fill_spec by lia. cbn [mbind option_bind]. eexists. split; [done|].
  split_and!; [|done|done].
  exists (Z.to_nat t'). replace (k + Z.to_nat (t' - Z.of_nat k))%nat with (Z.to_nat t') by lia.
  simpl. split_and!; try done; lia.
Qed.

(** [Next] reads the table of a full run at the iterator's position. *)
Lemma Next_spec wp :
  pinv wp ->
  exists wp', pinv wp' /\ iterator wp' = round_next (iterator wp) /\
    Next wp = Some (table xs !! Z.to_nat (round_next (iterator wp) mod Z.of_nat V), wp').
Proof.
  intros Hp. pose proof Hp as (k & Hk & Hs & Hc & Hn & Hv). unfold Next.
  destruct V_pos as [HV _]. rewrite Hc, (proj2 (Z.eqb_neq (Z.of_nat V) 0)) by lia.
  set (it := round_next (iterator wp)). set (wp1 := mkWrr _ _ _ _ _). cbn [vcapacity vnodes vsize].
  pose proof (Z.mod_pos_bound it (Z.of_nat V) ltac:(lia)) as Hidx.
  set (idx := it mod Z.of_nat V) in *.
  assert (pinv wp1) as Hp1 by (by exists k).
  assert (forall j, (Z.to_nat idx < V)%nat -> filled j !! Z.to_nat idx
    = Some (if decide (Z.to_nat idx < j)%nat then table xs !! Z.to_nat idx else None)) as Hlk.
  { intros j Hlt. unfold filled. case_decide as Hj.
    - rewrite lookup_app_l by (rewrite length_fmap, length_take, length_table; lia).
      rewrite list_lookup_fmap, lookup_take_lt by done.
      assert (is_Some (table xs !! Z.to_nat idx)) as [x ->]; [|done].
      apply lookup_lt_is_Some. rewrite length_table. lia.
    - rewrite lookup_app_r by (rewrite length_fmap, length_take; lia).
      apply lookup_replicate_2. rewrite length_fmap, length_take, length_table. lia. }
  change (vcapacity wp1) with (Z.of_nat V). change (vnodes wp1) with (vnodes wp).
  change (vsize wp1) with (vsize wp). fold idx.
  rewrite at_lookup by lia. rewrite Hv, Hlk by lia. cbn [mbind option_bind].
  assert (is_Some (table xs !! Z.to_nat idx)) as [x Hx].
  { apply lookup_lt_is_Some. rewrite length_table. lia. }
  case_decide as Hd.
  - rewrite Hx. exists wp1. split_and!; try done.
  - set (t := if vsize wp + wrrVNodesBatchSize <=? idx then _ else _).
    assert (vsize wp <= t /\ idx < t) as [Ht1 Ht2].
    { subst t. unfold wrrVNodesBatchSize. case_match; bool_to_prop; lia. }
    destruct (build_spec t wp1 Hp1 Ht1) as (wp2 & -> & Hp2 & Hit & Hsz). cbn [mbind option_bind].
    destruct Hp2 as (k2 & Hk2 & Hs2 & Hc2 & Hn2 & Hv2).
    rewrite at_lookup by lia. rewrite Hv2, Hlk by lia. rewrite decide_True by lia.
    cbn [mbind option_bind]. exists wp2. split_and!; try done. by exists k2.
Qed.

End picker.

(** * Rotations *)

Lemma omap_seq (l : list I) : omap (fun i => l !! i) (seq 0 (length l)) = l.
Proof.
  assert (forall k, (k <= length l)%nat -> omap (fun i => l !! i) (seq 0 k) = take k l) as H.
  { induction k as [|k IH]; intros Hk; [done|]. rewrite seq_S, omap_app, IH by lia.
    assert (is_Some (l !! k)) as [x Hx] by (apply lookup_lt_is_Some; lia).
    simpl. rewrite Hx. symmetry. by apply take_S_r. }
  rewrite H by lia. by apply firstn_all.
Qed.

Lemma omap_fmap_comp {A B} (f : A -> B) (g : B -> option I) (l : list A) :
  omap g (f <$> l) = omap (fun x => g (f x)) l.
Proof. induction l as [|x l IH]; [done|]. simpl. destruct (g (f x)); [f_equal|]; exact IH. Qed.

Lemma mod_shift_inj (a b o n : Z) :
  0 <= a < n -> 0 <= b < n -> (a + o) mod n = (b + o) mod n -> a = b.
Proof.
  intros Ha Hb E. pose proof (Z_div_mod_eq_full (a + o) n) as H1.
  pose proof (Z_div_mod_eq_full (b + o) n) as H2. rewrite E in H1.
  set (k := (a + o) / n - (b + o) / n).
  assert (n * k = a - b) as Hk by (subst k; lia). clearbody k. clear H1 H2 E.
  assert (k < 1) by nia. assert (-1 < k) by nia. assert (k = 0) as -> by lia. lia.
Qed.

Lemma rotate_perm offset (l : list I) : rotate_from offset l ≡ₚ l.
Proof.
  destruct (decide (l = [])) as [->|Hne]; [done|].
  assert (0 < lenZ l) as Hn by (destruct l; [done|unfold lenZ; simpl; lia]).
  unfold rotate_from.
  set (f := fun idx => Z.to_nat ((Z.of_nat idx + offset) mod lenZ l)).
  change (omap (fun idx => l !! f idx) (seq 0 (length l)) ≡ₚ l).
  rewrite <- (omap_fmap_comp f (fun i => l !! i)).
  transitivity (omap (fun i => l !! i) (seq 0 (length l))); [|by rewrite omap_seq].
  apply omap_Permutation.
  assert (forall i, (f i < length l)%nat) as Hr.
  { intros i. subst f. simpl. pose proof (Z.mod_pos_bound (Z.of_nat i + offset) (lenZ l) Hn).
    unfold lenZ in *. lia. }
  apply submseteq_length_Permutation; [|rewrite length_fmap; lia].
  apply NoDup_submseteq.
  - apply NoDup_fmap_2_strong; [|apply NoDup_seq]. intros i j Hi%elem_of_seq Hj%elem_of_seq E.
    subst f. simpl in E. pose proof (Z.mod_pos_bound (Z.of_nat i + offset) (lenZ l) Hn).
    pose proof (Z.mod_pos_bound (Z.of_nat j + offset) (lenZ l) Hn).
    apply Nat2Z.inj, (mod_shift_inj _ _ offset (lenZ l)); unfold lenZ in *; lia.
  - intros x (i & -> & Hi)%list_elem_of_fmap. apply elem_of_seq. specialize (Hr i). lia.
Qed.

Lemma gcdW_foldr xs :
  Forall (fun x => 0 < Weight x) xs -> gcdW xs = foldr Z.gcd 0 (Weight <$> xs).
Proof.
  intros Hpos. assert (forall g, 0 <= g ->
    foldl (fun g x => gcdInt g (Weight x)) g xs = Z.gcd g (foldr Z.gcd 0 (Weight <$> xs))) as H.
  { induction Hpos as [|x xs Hx _ IH]; intros g Hg; simpl; [rewrite Z.gcd_0_r; lia|].
    rewrite gcdInt_gcd, IH by (lia || apply Z.gcd_nonneg). by rewrite Z.gcd_assoc. }
  unfold gcdW. rewrite H by lia. rewrite Z.gcd_0_l. apply Z.abs_eq.
  clear. destruct xs as [|x xs]; simpl; [lia|apply Z.gcd_nonneg].
Qed.

Lemma gcdW_perm xs ys :
  Forall (fun x => 0 < Weight x) xs -> xs ≡ₚ ys -> gcdW xs = gcdW ys.
Proof.
  intros Hpos Hp. rewrite !gcdW_foldr by (by rewrite <- ?Hp). clear Hpos.
  induction Hp; simpl; [done|by f_equal| |congruence].
  rewrite !Z.gcd_assoc, (Z.gcd_comm (Weight y)). done.
Qed.

Lemma shares_perm (f : I -> list I) xs ys : xs ≡ₚ ys -> concat (f <$> xs) ≡ₚ concat (f <$> ys).
Proof.
  induction 1; rewrite ?fmap_cons; simpl; [done|by f_equiv| |by etrans].
  rewrite !(assoc_L (++)). f_equiv. apply Permutation_app_comm.
Qed.

(** * Calls *)

(** [n] successive calls; [None] is a panic or a nil instance. *)
Fixpoint calls (n : nat) (wp : wrrPicker) : option (list I * wrrPicker) :=
  match n with
  | O => Some ([], wp)
  | S n => '(x, wp) ← Next wp; x ← x; '(xs, wp) ← calls n wp; Some (x :: xs, wp)
  end.

Lemma calls_spec xs n wp :
  xs <> [] -> Forall (fun x => 0 < Weight x) xs -> no_overflow xs -> pinv xs wp ->
  0 <= iterator wp -> iterator wp + Z.of_nat n < 2 ^ 64 ->
  exists wp', pinv xs wp' /\ iterator wp' = iterator wp + Z.of_nat n /\
    calls n wp = Some (omap (fun k => table xs !! Z.to_nat ((Z.of_nat k + (iterator wp + 1)) mod Z.of_nat (V xs)))
      (seq 0 n), wp').
Proof.
  intros Hne Hpos Hno. revert wp. induction n as [|n IH]; intros wp Hp H0 Hlt.
  { exists wp. split_and!; [done|simpl; lia|done]. }
  destruct (Next_spec xs Hne Hpos Hno wp Hp) as (wp1 & Hp1 & Hit & Hnx).
  unfold round_next in *. rewrite u64_id in * by lia.
  destruct (IH wp1 Hp1) as (wp2 & Hp2 & Hit2 & Hc); [lia|lia|].
  exists wp2. split_and!; [done|lia|]. cbn [calls]. rewrite Hnx. cbn [mbind option_bind].
  destruct (V_pos xs Hne Hpos) as [HV _].
  assert (is_Some (table xs !! Z.to_nat ((iterator wp + 1) mod Z.of_nat (V xs)))) as [x Hx].
  { apply lookup_lt_is_Some. rewrite length_table by done.
    pose proof (Z.mod_pos_bound (iterator wp + 1) (Z.of_nat (V xs)) ltac:(lia)). lia. }
  rewrite Hx. cbn [mbind option_bind]. rewrite Hc. cbn [mbind option_bind].
  f_equal. f_equal. change (seq 0 (S n)) with (0%nat :: seq 1 n).
  replace (seq 1 n) with (S <$> seq 0 n) by (apply seq_shift). cbn [omap list_omap].
  replace (Z.of_nat 0 + (iterator wp + 1)) with (iterator wp + 1) by lia. rewrite Hx. f_equal.
  etrans; [|symmetry; apply omap_fmap_comp]. rewrite Hit. apply list_omap_ext.
  apply Forall2_same_length_lookup_2; [done|].
  intros i a b Ha Hb. simplify_eq. f_equal. f_equal. f_equal. lia.
Qed.

Lemma totalW_nonneg (xs : list I) : Forall (fun x => 0 < Weight x) xs -> 0 <= totalW xs.
Proof. intros H. apply sumZ_nonneg, Forall_fmap. eapply Forall_impl; [exact H|]. simpl. lia. Qed.

Lemma foldl_totalW g (xs : list I) :
  Forall (fun x => 0 < Weight x) xs -> 0 <= g -> g + totalW xs < 2 ^ 63 ->
  foldl (fun t x => i64 (t + Weight x)) g xs = g + totalW xs.
Proof.
  intros Hpos. revert g. induction Hpos as [|x xs Hx Hpos IH]; intros g Hg Hs; [unfold totalW; simpl; lia|].
  pose proof (totalW_nonneg xs Hpos). unfold totalW in *. rewrite fmap_cons, sumZ_cons in *.
  cbn [foldl]. rewrite i64_id, IH by lia. lia.
Qed.

(** The picker's capacity can be allocated. *)
Definition table_fits (xs : list I) : Prop := totalW xs / gcdW xs <= 2 ^ 44.

(** A new picker is in order, over the rotated instances. *)
Lemma newWrr_pinv offset instances :
  instances <> [] -> Forall (fun x => 0 < Weight x) instances ->
  no_overflow instances -> table_fits instances ->
  let xs := rotate_from offset instances in
  xs <> [] /\ Forall (fun x => 0 < Weight x) xs /\ no_overflow xs /\
  exists wp, newWeightedRoundRobinPicker offset instances = Some wp /\ pinv xs wp /\ iterator wp = 0.
Proof.
  intros Hne Hpos Hno Hfit xs. pose proof (rotate_perm offset instances) as Hp. fold xs in Hp.
  assert (xs <> []) as Hne'.
  { intros E. rewrite E in Hp. by apply Permutation_nil_l in Hp. }
  assert (Forall (fun x => 0 < Weight x) xs) as Hpos' by (by rewrite Hp).
  assert (totalW xs = totalW instances) as HT by (unfold totalW; by rewrite Hp).
  assert (no_overflow xs) as Hno' by (unfold no_overflow, lenZ in *; by rewrite HT, Hp).
  split; [done|]. split; [done|]. split; [done|]. destruct (V_pos xs Hne' Hpos') as [HV HVz].
  unfold newWeightedRoundRobinPicker. fold xs. pose proof (totalW_fits xs Hne' Hpos' Hno').
  rewrite foldl_totalW, Z.add_0_l by (done || lia). fold (gcdW xs).
  destruct (gcdW_divides xs Hpos') as (_ & Hg & _). specialize (Hg Hne').
  rewrite (proj2 (Z.eqb_neq (gcdW xs) 0)) by lia.
  pose proof (totalW_pos xs Hne' Hpos'). rewrite Z.quot_div_nonneg, <- HVz by lia.
  unfold table_fits in Hfit. rewrite <- HT, <- (gcdW_perm _ _ Hpos' Hp), <- HVz in Hfit.
  rewrite u64_id, Nat2Z.id by lia. unfold make_ok.
  rewrite (proj2 (Z.leb_le _ _)), (proj2 (Z.leb_le _ _)) by lia. cbn [andb negb].
  destruct (build_spec xs Hne' Hpos' Hno' wrrVNodesBatchSize
    (mkWrr ((fun x => mkNode x 0) <$> xs) 0 0 (Z.of_nat (V xs)) (replicate (V xs) None)))
    as (wp & Hb & Hpv & Hit & _); [|done|by exists wp].
  exists 0%nat. unfold filled. rewrite Nat.sub_0_r. by split_and!; try lia.
Qed.

(** C11: weighted round-robin is fair.  For instances with positive weights whose sum times
    their number is below 2^63 and whose sum divided by the gcd is at most 2^44 (so that
    neither the ints nor the table overflow), and any starting offset, the picker is built,
    never panics nor returns nil, and after any number of calls the next
    [totalWeight / gcd] calls return each instance exactly [weight / gcd] times (while the
    call counter has not wrapped around a uint64). *)
Theorem wrr_full_turn_is_fair offset instances :
  instances <> [] -> Forall (fun x => 0 < Weight x) instances ->
  lenZ instances * totalW instances < 2 ^ 63 -> totalW instances / gcdW instances <= 2 ^ 44 ->
  exists wp, newWeightedRoundRobinPicker offset instances = Some wp /\
    forall n, Z.of_nat n + totalW instances / gcdW instances < 2 ^ 64 ->
      exists ys wp' zs wp'',
        calls n wp = Some (ys, wp') /\
        calls (Z.to_nat (totalW instances / gcdW instances)) wp' = Some (zs, wp'') /\
        zs ≡ₚ concat (share instances <$> instances).
Proof.
  intros Hne Hpos Hno Hfit.
  destruct (newWrr_pinv offset instances Hne Hpos Hno Hfit) as (Hne' & Hpos' & Hno' & wp & Hb & Hpv & Hit).
  pose proof (rotate_perm offset instances) as Hp.
  set (xs := rotate_from offset instances) in *.
  assert (totalW xs = totalW instances) as HT by (unfold totalW; by rewrite Hp).
  pose proof (gcdW_perm _ _ Hpos' Hp) as HG. destruct (V_pos xs Hne' Hpos') as [HV HVz].
  exists wp. split; [done|]. intros n Hn. rewrite <- HT, <- HG, <- HVz in *.
  destruct (calls_spec xs n wp Hne' Hpos' Hno' Hpv) as (wp' & Hpv' & Hit' & Hc1); [lia|lia|].
  destruct (calls_spec xs (V xs) wp' Hne' Hpos' Hno' Hpv') as (wp'' & _ & _ & Hc2); [lia|lia|].
  do 4 eexists. rewrite Nat2Z.id. split_and!; [exact Hc1|exact Hc2|].
  transitivity (table xs).
  - rewrite <- (rotate_perm (iterator wp' + 1) (table xs)) at 1. unfold rotate_from, lenZ.
    by rewrite length_table.
  - rewrite table_shares by done. rewrite (shares_perm _ _ _ Hp). unfold share. by rewrite HG.
Qed.

End wrr.

Definition three_hosts : list (string * Z) := [("a"%string, 10); ("b"%string, 20); ("c"%string, 30)].

Lemma wrr_full_turn_is_fair_witness :
  exists wp ys wp' zs wp'', newWeightedRoundRobinPicker 1 three_hosts = Some wp /\
    calls 7 wp = Some (ys, wp') /\
    calls (Z.to_nat (totalW three_hosts / gcdW three_hosts)) wp' = Some (zs, wp'') /\
    zs ≡ₚ concat (share three_hosts <$> three_hosts).
Proof.
  destruct (wrr_full_turn_is_fair 1 three_hosts) as (wp & Hwp & Hn).
  - discriminate.
  - repeat constructor.
  - vm_compute. reflexivity.
  - vm_compute. discriminate.
  - destruct (Hn 7%nat) as (ys & wp' & zs & wp'' & H); [vm_compute; reflexivity|].
    exists wp, ys, wp', zs, wp''. exact (conj Hwp H).
Defined.
