(* ===== verification/Pickers.v ===== *)
(** The other pickers of the weighted balancer
    (src/pkg/loadbalance/weighted_round_robin.go [RoundRobinPicker],
    interleaved_weighted_round_robin.go, weighted_random.go,
    weighted_random_with_alias_method.go, dummy_picker.go), and the interface through
    which the balancer uses them.

    The random draws of one call are an argument of it; float64 is Rocq's executable
    IEEE 754 specification at binary64.  Differences of two positive ints do not wrap. *)

From Stdlib Require Import Floats.SpecFloat.
From S2P Require Import Prelude Discovery Wrr.

(** * Random draws *)

(** What one call may draw: [drawn n] by [fastrand.Intn n], and [fastrand.Float64]. *)
Record draw := mkDraw { drawn : Z -> Z; Float64 : spec_float }.

Definition draw_ok (d : draw) : Prop := forall n, 0 < n -> 0 <= drawn d n < n.

(** [fastrand.Intn] panics ([None]) when its bound is not positive. *)
Definition Intn (d : draw) (n : Z) : option Z := if n <=? 0 then None else Some (drawn d n).

Lemma Intn_ok d n : draw_ok d -> 0 < n -> exists i, Intn d n = Some i /\ 0 <= i < n.
Proof.
  intros Hd Hn. exists (drawn d n). unfold Intn. rewrite (proj2 (Z.leb_gt n 0)) by done.
  split; [done|by apply Hd].
Qed.

(** * The interface *)

(** A picker over the instances [xs]: a call hits no panic, returns one of [xs], and leaves
    such a picker. *)
Class SoundPicker (I P : Type) := {
  pick : draw -> P -> option (option I * P);
  sound : list I -> P -> Prop;
  pick_sound : forall xs p d, sound xs p -> draw_ok d ->
    exists x p', pick d p = Some (Some x, p') /\ x ∈ xs /\ sound xs p'
}.

Section pickers.
Context {I : Type} `{!Instance_ I}.

(** * Round robin *)

Record rrPicker := mkRR { rr_instances : list I; rr_state : Z }.

(** [None] is an index panic. *)
Definition rr_Next (p : rrPicker) : option (option I * rrPicker) :=
  if lenZ (rr_instances p) =? 0 then Some (None, p) else
  let st := round_next (rr_state p) in
  let idx := st mod lenZ (rr_instances p) in
  x ← at_ (rr_instances p) idx;
  Some (Some x, mkRR (rr_instances p) st).

(** * Interleaved weighted round robin *)

(** A queue is the list of its nodes from head to tail. *)
Record iwrrNode := mkINode { i_ins : I; remainder : Z }.
Record iwrrPicker := mkIwrr { i_current : list iwrrNode; i_next : list iwrrNode; i_gcd : Z }.

Definition newInterleaved (offset : Z) (instances : list I) : iwrrPicker :=
  let insts := rotate_from offset instances in
  mkIwrr ((fun x => mkINode x (Weight x)) <$> insts) [] (gcdW insts).

(** [None] is the nil dereference of an empty queue. *)
Definition iwrr_Next (p : iwrrPicker) : option (option I * iwrrPicker) :=
  let '(cur, nxt) := match i_current p with
                     | [] => (i_next p, i_current p)
                     | _ => (i_current p, i_next p)
                     end in
  match cur with
  | [] => None
  | n :: cur =>
      let r := remainder n - i_gcd p in
      if 0 <? r
      then Some (Some (i_ins n), mkIwrr (cur ++ [mkINode (i_ins n) r]) nxt (i_gcd p))
      else Some (Some (i_ins n),
                 mkIwrr cur (nxt ++ [mkINode (i_ins n) (Weight (i_ins n))]) (i_gcd p))
  end.

(** * Random *)

(** The loop of [weightedRandomPicker.Next]. *)
Fixpoint walk (weight : Z) (xs : list I) : option I :=
  match xs with
  | [] => None
  | x :: xs => let weight := weight - Weight x in if weight <? 0 then Some x else walk weight xs
  end.

Record wrandPicker := mkWRand { wr_instances : list I; weightSum : Z }.

(** The outer [None] is the panic of [Intn], the inner one a nil instance. *)
Definition wrand_Next (d : draw) (p : wrandPicker) : option (option I) :=
  weight ← Intn d (weightSum p); Some (walk weight (wr_instances p)).

(** [None] is a panic of [Intn] or an index panic. *)
Definition random_Next (d : draw) (xs : list I) : option I := idx ← Intn d (lenZ xs); at_ xs idx.

(** * Fairness of round robin *)

Fixpoint rr_calls (n : nat) (p : rrPicker) : option (list I * rrPicker) :=
  match n with
  | O => Some ([], p)
  | S n => '(x, p) ← rr_Next p; x ← x; '(xs, p) ← rr_calls n p; Some (x :: xs, p)
  end.

Lemma rr_Next_spec p :
  rr_instances p <> [] -> exists x, rr_Next p = Some (Some x, mkRR (rr_instances p) (round_next (rr_state p)))
    /\ rr_instances p !! Z.to_nat (round_next (rr_state p) mod lenZ (rr_instances p)) = Some x.
Proof.
  intros Hne. unfold rr_Next. assert (0 < lenZ (rr_instances p)) as Hl.
  { destruct (rr_instances p); [done|]. unfold lenZ. simpl. lia. }
  rewrite (proj2 (Z.eqb_neq _ 0)) by lia.
  pose proof (Z.mod_pos_bound (round_next (rr_state p)) _ Hl) as Hm.
  rewrite at_lookup by lia.
  assert (is_Some (rr_instances p !! Z.to_nat (round_next (rr_state p) mod lenZ (rr_instances p))))
    as [x Hx] by (apply lookup_lt_is_Some; unfold lenZ in *; lia).
  exists x. by rewrite Hx.
Qed.

Lemma rr_calls_spec xs n s :
  xs <> [] -> 0 <= s -> s + Z.of_nat n < 2 ^ 64 ->
  rr_calls n (mkRR xs s) = Some (omap (fun k => xs !! Z.to_nat ((Z.of_nat k + (s + 1)) mod lenZ xs)) (seq 0 n),
                                 mkRR xs (s + Z.of_nat n)).
Proof.
  intros Hne. revert s. induction n as [|n IH]; intros s H0 Hlt; [by rewrite Z.add_0_r|].
  cbn [rr_calls]. destruct (rr_Next_spec (mkRR xs s) Hne) as (x & -> & Hx). simpl in Hx.
  unfold round_next in *. rewrite u64_id in * by (simpl; lia). cbn [mbind option_bind rr_instances rr_state].
  rewrite IH by lia. cbn [mbind option_bind].
  change (seq 0 (S n)) with (0%nat :: seq 1 n).
  replace (seq 1 n) with (S <$> seq 0 n) by (apply seq_shift). cbn [omap list_omap].
  replace (Z.of_nat 0 + (s + 1)) with (s + 1) by lia. rewrite Hx.
  f_equal. f_equal; [|f_equal; lia]. f_equal.
  etrans; [|symmetry; apply omap_fmap_comp]. apply list_omap_ext.
  apply Forall2_same_length_lookup_2; [done|].
  intros i a b Ha Hb. simplify_eq. f_equal. f_equal. f_equal. lia.
Qed.

(** Round robin is fair: any [size] consecutive calls return every instance exactly
    once (while the counter has not wrapped around a uint64). *)
Theorem round_robin_full_turn xs s :
  xs <> [] -> 0 <= s -> s + lenZ xs < 2 ^ 64 ->
  exists ys p, rr_calls (length xs) (mkRR xs s) = Some (ys, p) /\ ys ≡ₚ xs.
Proof.
  intros Hne H0 Hlt. unfold lenZ in Hlt. rewrite rr_calls_spec by done.
  do 2 eexists. split; [done|]. apply (rotate_perm (s + 1) xs).
Qed.

(** * Fairness of the interleaved variant *)

Definition rest (g : Z) (n : iwrrNode) : list I := repeat (i_ins n) (Z.to_nat (remainder n / g)).

(** Nodes in the current queue have a positive multiple of the gcd left, nodes in the next
    one are reset. *)
Definition iinv (p : iwrrPicker) : Prop :=
  0 < i_gcd p /\
  Forall (fun n => exists q, 0 < q /\ remainder n = q * i_gcd p) (i_current p) /\
  Forall (fun n => remainder n = Weight (i_ins n) /\
                   exists q, 0 < q /\ Weight (i_ins n) = q * i_gcd p) (i_next p) /\
  Forall (fun n => exists q, 0 < q /\ Weight (i_ins n) = q * i_gcd p) (i_current p).

Fixpoint iwrr_calls (n : nat) (p : iwrrPicker) : option (list I * iwrrPicker) :=
  match n with
  | O => Some ([], p)
  | S n => '(x, p) ← iwrr_Next p; x ← x; '(xs, p) ← iwrr_calls n p; Some (x :: xs, p)
  end.

Definition members (p : iwrrPicker) : list I := i_ins <$> (i_current p ++ i_next p).

Lemma iwrr_step p :
  iinv p -> i_current p <> [] ->
  exists x p', iwrr_Next p = Some (Some x, p') /\ iinv p' /\ i_gcd p' = i_gcd p /\
    members p' ≡ₚ members p /\
    concat (rest (i_gcd p) <$> i_current p) ≡ₚ x :: concat (rest (i_gcd p) <$> i_current p').
Proof.
  intros (Hg & Hc & Hn & Hw) Hne. unfold iwrr_Next. destruct p as [cur nxt g]. simpl in *.
  destruct cur as [|n cur]; [done|]. clear Hne.
  apply Forall_cons in Hc as [(q & Hq & Hr) Hc]. apply Forall_cons in Hw as [(w & Hw0 & Hw1) Hw].
  assert (rest g n = i_ins n :: repeat (i_ins n) (Z.to_nat (q - 1))) as Hrest.
  { unfold rest. rewrite Hr, Z.div_mul by lia.
    replace (Z.to_nat q) with (S (Z.to_nat (q - 1))) by lia. done. }
  destruct (0 <? remainder n - g) eqn:E; bool_to_prop; do 2 eexists; (split; [done|]).
  - assert (1 < q) by nia. split_and!; simpl; try done.
    + split_and!; simpl; try done.
      * apply Forall_app. split; [done|]. constructor; [|constructor]. simpl.
        exists (q - 1). split; [lia|]. rewrite Hr. lia.
      * apply Forall_app. split; [done|]. constructor; [|constructor]. simpl. eauto.
    + unfold members. simpl. rewrite !fmap_app. simpl. rewrite <- (assoc_L (++)). simpl.
      by rewrite <- Permutation_middle.
    + rewrite fmap_app, concat_app. simpl. rewrite app_nil_r, Hrest. simpl. constructor.
      rewrite Permutation_app_comm. apply Permutation_app_head. unfold rest. simpl. rewrite Hr.
      replace (q * g - g) with ((q - 1) * g) by lia. by rewrite Z.div_mul by lia.
  - assert (q = 1) as -> by nia. split_and!; simpl; try done.
    + split_and!; simpl; try done. apply Forall_app. split; [done|].
      constructor; [|constructor]. simpl. eauto.
    + unfold members. simpl. rewrite !fmap_app. simpl.
      rewrite (assoc_L (++)). by rewrite <- Permutation_cons_append.
    + by rewrite Hrest.
Qed.

(** Calls until the current queue is used up. *)
Lemma iwrr_drain k p :
  iinv p -> length (concat (rest (i_gcd p) <$> i_current p)) = k ->
  exists ys p', iwrr_calls k p = Some (ys, p') /\ ys ≡ₚ concat (rest (i_gcd p) <$> i_current p) /\
    iinv p' /\ i_gcd p' = i_gcd p /\ i_current p' = [] /\ members p' ≡ₚ members p.
Proof.
  revert p. induction k as [|k IH]; intros p Hi Hk.
  - exists [], p. apply length_zero_iff_nil in Hk. rewrite Hk. split_and!; try done.
    destruct Hi as (Hg & Hc & _). destruct (i_current p) as [|n cur]; [done|].
    apply Forall_cons in Hc as [(q & Hq & Hr) _]. unfold rest in Hk. simpl in Hk.
    rewrite Hr, Z.div_mul in Hk by lia.
    replace (Z.to_nat q) with (S (Z.to_nat (q - 1))) in Hk by lia. done.
  - destruct (iwrr_step p Hi) as (x & p1 & Hx & Hi1 & Hg1 & Hm1 & Hp1).
    { intros E. rewrite E in Hk. done. }
    destruct (IH p1 Hi1) as (ys & p2 & Hys & Hp2 & Hi2 & Hg2 & Hc2 & Hm2).
    { rewrite Hp1 in Hk. simpl in Hk. rewrite Hg1. lia. }
    exists (x :: ys), p2. split_and!; try done.
    + cbn [iwrr_calls]. rewrite Hx. cbn [mbind option_bind]. by rewrite Hys.
    + rewrite Hp1, Hp2, Hg1. done.
    + congruence.
    + by rewrite Hm2.
Qed.

(** Swapping the queues at the start of a turn changes nothing. *)
Lemma iwrr_swap k p :
  i_current p = [] -> iwrr_calls (S k) p = iwrr_calls (S k) (mkIwrr (i_next p) [] (i_gcd p)).
Proof.
  intros Hc. cbn [iwrr_calls]. unfold iwrr_Next. destruct p as [cur nxt g]. simpl in *. subst cur.
  by destruct nxt.
Qed.

(** One turn from the start of a turn. *)
Lemma iwrr_turn p xs :
  iinv p -> i_current p = [] -> members p ≡ₚ xs -> xs <> [] ->
  exists ys p', iwrr_calls (length (concat ((fun x => repeat x (Z.to_nat (Weight x / i_gcd p))) <$> xs))) p
    = Some (ys, p') /\
    ys ≡ₚ concat ((fun x => repeat x (Z.to_nat (Weight x / i_gcd p))) <$> xs) /\
    iinv p' /\ i_gcd p' = i_gcd p /\ i_current p' = [] /\ members p' ≡ₚ xs.
Proof.
  intros (Hg & Hc & Hn & Hw) Hcur Hm Hne. unfold members in Hm. rewrite Hcur in Hm. simpl in Hm.
  set (p1 := mkIwrr (i_next p) [] (i_gcd p)).
  assert (iinv p1) as Hi1.
  { split_and!; simpl; try done.
    - eapply Forall_impl; [exact Hn|]. simpl. intros n [-> H]. done.
    - eapply Forall_impl; [exact Hn|]. by intros n [_ H]. }
  assert (concat (rest (i_gcd p) <$> i_next p)
    ≡ₚ concat ((fun x => repeat x (Z.to_nat (Weight x / i_gcd p))) <$> xs)) as Hp.
  { rewrite <- (shares_perm _ _ _ Hm). rewrite <- list_fmap_compose.
    assert (rest (i_gcd p) <$> i_next p
      = ((fun x => repeat x (Z.to_nat (Weight x / i_gcd p))) ∘ i_ins) <$> i_next p) as ->; [|done].
    apply Forall_fmap_ext_1. eapply Forall_impl; [exact Hn|]. intros n [H _]. unfold rest. simpl. by rewrite H. }
  set (k := length (concat ((fun x => repeat x (Z.to_nat (Weight x / i_gcd p))) <$> xs))).
  destruct (iwrr_drain k p1 Hi1) as (ys & p' & H1 & H2 & H3 & H4 & H5 & H6).
  { simpl. by rewrite Hp. }
  exists ys, p'. split_and!; try done.
  - assert (exists k', k = S k') as [k' Hk'].
    { assert (k <> 0%nat); [|destruct k; [done|eauto]]. intros E. subst k.
      apply length_zero_iff_nil in E. rewrite E in Hp. apply Permutation_nil_r in Hp.
      destruct (i_next p) as [|n l]; [by apply Permutation_nil_l in Hm; subst|].
      apply Forall_cons in Hn as [(Hr & q & Hq & Hwq) _]. unfold rest in Hp. simpl in Hp.
      rewrite Hr, Hwq, Z.div_mul in Hp by lia.
      replace (Z.to_nat q) with (S (Z.to_nat (q - 1))) in Hp by lia. done. }
    rewrite Hk' in *. rewrite iwrr_swap by done. done.
  - simpl in H2. by rewrite H2.
  - rewrite H6. unfold members. simpl. by rewrite app_nil_r.
Qed.

(** The state at the start of a turn: all nodes reset, in one of the two queues. *)
Definition turn_start (g : Z) (xs : list I) (p : iwrrPicker) : Prop :=
  i_gcd p = g /\ members p ≡ₚ xs /\
  exists q, iinv q /\ i_current q = [] /\ i_gcd q = g /\ members q ≡ₚ xs /\
    forall k, iwrr_calls (S k) p = iwrr_calls (S k) q.

Lemma iwrr_calls_app a b p :
  iwrr_calls (a + b) p = '(xs, p) ← iwrr_calls a p; '(ys, p) ← iwrr_calls b p; Some (xs ++ ys, p).
Proof.
  revert p. induction a as [|a IH]; intros p; simpl.
  { by destruct (iwrr_calls b p) as [[ys p']|]. }
  destruct (iwrr_Next p) as [[[x|] p1]|]; simpl; try done. rewrite IH.
  destruct (iwrr_calls a p1) as [[xs p2]|]; simpl; try done.
  by destruct (iwrr_calls b p2) as [[ys p3]|].
Qed.

Lemma concat_shares_nonempty g xs :
  0 < g -> xs <> [] -> Forall (fun x => exists q, 0 < q /\ Weight x = q * g) xs ->
  exists k, length (concat ((fun x => repeat x (Z.to_nat (Weight x / g))) <$> xs)) = S k.
Proof.
  intros Hg Hne Hw. destruct Hw as [|x xs (q & Hq & Hx) _]; [done|]. simpl.
  rewrite Hx, Z.div_mul by lia. replace (Z.to_nat q) with (S (Z.to_nat (q - 1))) by lia.
  simpl. eauto.
Qed.

Lemma iwrr_next_turn g xs p :
  xs <> [] -> turn_start g xs p ->
  exists ys p', iwrr_calls (length (concat ((fun x => repeat x (Z.to_nat (Weight x / g))) <$> xs))) p
    = Some (ys, p') /\
    ys ≡ₚ concat ((fun x => repeat x (Z.to_nat (Weight x / g))) <$> xs) /\ turn_start g xs p'.
Proof.
  intros Hne (_ & _ & q & Hi & Hc & Hg & Hm & Hq).
  assert (Forall (fun x => exists q0, 0 < q0 /\ Weight x = q0 * g) xs) as Hw.
  { destruct Hi as (_ & _ & Hn & _). rewrite <- Hm. unfold members. rewrite Hc. simpl.
    apply Forall_fmap. eapply Forall_impl; [exact Hn|]. simpl. rewrite Hg. by intros n [_ H]. }
  destruct (concat_shares_nonempty g xs) as [k Hk]; [rewrite <- Hg; apply Hi|done|done|].
  destruct (iwrr_turn q xs Hi Hc Hm Hne) as (ys & p' & H1 & H2 & H3 & H4 & H5 & H6).
  rewrite Hg in *. rewrite Hk in *. exists ys, p'. rewrite Hq. split; [done|]. split; [done|].
  split; [done|]. split; [done|]. by exists p'.
Qed.

Lemma iwrr_start offset instances :
  instances <> [] -> Forall (fun x => 0 < Weight x) instances ->
  turn_start (gcdW instances) instances (newInterleaved offset instances).
Proof.
  intros Hne Hpos. set (xs := rotate_from offset instances).
  pose proof (rotate_perm offset instances) as Hp. fold xs in Hp.
  assert (xs <> []) as Hne' by (intros E; rewrite E in Hp; by apply Permutation_nil_l in Hp).
  assert (Forall (fun x => 0 < Weight x) xs) as Hpos' by (by rewrite Hp).
  pose proof (gcdW_perm _ _ Hpos' Hp) as HG.
  destruct (gcdW_divides xs Hpos') as (_ & Hg & Hd). specialize (Hg Hne').
  set (ns := (fun x => mkINode x (Weight x)) <$> xs).
  assert (i_ins <$> ns = xs) as Hins.
  { subst ns. rewrite <- list_fmap_compose. apply list_fmap_id. }
  assert (members (mkIwrr ns [] (gcdW xs)) ≡ₚ instances) as Hm.
  { unfold members. simpl. by rewrite app_nil_r, Hins. }
  unfold newInterleaved. fold xs ns. split_and!; [done|done|].
  exists (mkIwrr [] ns (gcdW xs)). split_and!; try done.
  - split_and!; simpl; try done. subst ns. apply Forall_fmap.
    apply Forall_forall. intros x Hx. simpl. split; [done|].
    rewrite Forall_forall in Hd, Hpos'. destruct (Hd x Hx) as [q Hq].
    specialize (Hpos' x Hx). exists q. split; [|done]. nia.
  - unfold members. simpl. by rewrite Hins.
  - intros k. symmetry. by rewrite iwrr_swap.
Qed.

(** The interleaved variant is fair: turn after turn of [totalWeight / gcd] calls, it
    returns each instance exactly [weight / gcd] times and never meets an empty queue. *)
Theorem interleaved_turns_are_fair offset instances m :
  instances <> [] -> Forall (fun x => 0 < Weight x) instances ->
  let N := length (concat (share instances <$> instances)) in
  exists ys p, iwrr_calls (m * N) (newInterleaved offset instances) = Some (ys, p) /\
    exists zs p', iwrr_calls N p = Some (zs, p') /\ zs ≡ₚ concat (share instances <$> instances).
Proof.
  intros Hne Hpos N. pose proof (iwrr_start offset instances Hne Hpos) as Hs.
  assert (exists ys p, iwrr_calls (m * N) (newInterleaved offset instances) = Some (ys, p) /\
    turn_start (gcdW instances) instances p) as (ys & p & Hc & Ht).
  { induction m as [|m (ys & p & Hc & Ht)]; [by exists [], (newInterleaved offset instances)|].
    destruct (iwrr_next_turn _ _ _ Hne Ht) as (zs & p' & H1 & _ & H3).
    exists (ys ++ zs), p'. split; [|done]. change (iwrr_calls N p = Some (zs, p')) in H1.
    replace (S m * N)%nat with (m * N + N)%nat by lia. rewrite iwrr_calls_app, Hc. simpl. by rewrite H1. }
  exists ys, p. split; [done|].
  destruct (iwrr_next_turn _ _ _ Hne Ht) as (zs & p' & H1 & H2 & _). eauto.
Qed.

(** * The weighted random choice *)

(** The weighted random choice is proportional: of the [weightSum] possible draws,
    exactly the [Weight x] draws in the interval of its position select an instance, and no
    draw selects nothing. *)
Theorem weighted_random_interval xs r :
  Forall (fun x => 0 < Weight x) xs -> 0 <= r < totalW xs ->
  exists i x, walk r xs = Some x /\ xs !! i = Some x /\
    totalW (take i xs) <= r < totalW (take i xs) + Weight x.
Proof.
  intros Hpos. revert r. induction Hpos as [|x xs Hx _ IH]; intros r Hr.
  { unfold totalW in Hr. simpl in Hr. lia. }
  simpl. unfold totalW in Hr. rewrite fmap_cons, sumZ_cons in Hr. fold (totalW xs) in Hr.
  destruct (r - Weight x <? 0) eqn:E; bool_to_prop.
  - exists 0%nat, x. split_and!; try done; unfold totalW; simpl; lia.
  - destruct (IH (r - Weight x)) as (i & y & Hw & Hi & Hb); [lia|].
    exists (S i), y. split_and!; try done; unfold totalW in *; cbn [take]; rewrite fmap_cons, sumZ_cons; lia.
Qed.

Lemma weighted_random_walk xs r :
  Forall (fun x => 0 < Weight x) xs -> 0 <= r < totalW xs -> exists x, walk r xs = Some x /\ x ∈ xs.
Proof.
  intros Hpos. revert r. induction Hpos as [|x xs Hx _ IH]; intros r Hr.
  { unfold totalW in Hr. simpl in Hr. lia. }
  simpl. unfold totalW in Hr. rewrite fmap_cons, sumZ_cons in Hr. fold (totalW xs) in Hr.
  destruct (r - Weight x <? 0) eqn:E; bool_to_prop; [exists x; split; [done|constructor]|].
  destruct (IH (r - Weight x)) as (y & Hw & Hi); [lia|]. exists y. split; [done|by constructor].
Qed.

Lemma newInterleaved_ok offset instances :
  instances <> [] -> Forall (fun x => 0 < Weight x) instances ->
  iinv (newInterleaved offset instances) /\ members (newInterleaved offset instances) ≡ₚ instances.
Proof.
  intros Hne Hpos. pose proof (rotate_perm offset instances) as Hp.
  unfold newInterleaved. set (xs := rotate_from offset instances) in *.
  assert (xs <> []) as Hne' by (intros E; rewrite E in Hp; by apply Permutation_nil_l in Hp).
  assert (Forall (fun x => 0 < Weight x) xs) as Hpos' by (by rewrite Hp).
  destruct (gcdW_divides xs Hpos') as (_ & Hg & Hd). specialize (Hg Hne').
  split.
  - split_and!; simpl; try done; try apply Forall_nil_2; apply Forall_fmap, Forall_forall; intros x Hx; simpl;
      rewrite Forall_forall in Hd, Hpos'; destruct (Hd x Hx) as [q Hq]; specialize (Hpos' x Hx);
      exists q; (split; [nia|done]).
  - unfold members. simpl. rewrite app_nil_r, <- list_fmap_compose. by rewrite list_fmap_id.
Qed.

End pickers.

Lemma round_robin_full_turn_witness :
  exists ys p, rr_calls 3 (mkRR three_hosts 41) = Some (ys, p) /\ ys ≡ₚ three_hosts.
Proof. apply (round_robin_full_turn three_hosts 41); [discriminate|lia|reflexivity]. Defined.

Lemma interleaved_turns_are_fair_witness :
  let N := length (concat (share three_hosts <$> three_hosts)) in
  exists ys p, iwrr_calls (2 * N) (newInterleaved 2 three_hosts) = Some (ys, p) /\
    exists zs p', iwrr_calls N p = Some (zs, p') /\
      zs ≡ₚ concat (share three_hosts <$> three_hosts).
Proof. apply (interleaved_turns_are_fair 2 three_hosts 2); [discriminate|repeat constructor]. Defined.

Lemma weighted_random_interval_witness :
  exists i x, walk 29 three_hosts = Some x /\ three_hosts !! i = Some x /\
    totalW (take i three_hosts) <= 29 < totalW (take i three_hosts) + Weight x.
Proof. apply (weighted_random_interval three_hosts 29); [repeat constructor|vm_compute; split; congruence]. Defined.
