(* ===== verification/Alias.v ===== *)
(** The alias-method picker (src/pkg/loadbalance/weighted_random_with_alias_method.go).

    [init] is run on float64 values (Rocq's executable IEEE 754 specification at
    binary64); the theorems are about its structure and hold whatever the rounding does:
    the pairing loop ends, every alias is a position, every probability slot is written,
    and [Next] returns an instance for every draw. *)

From Stdlib Require Import Floats.SpecFloat.
From S2P Require Import Prelude Discovery Wrr Pickers.

(** * float64 *)

Definition f_prec : Z := 53.
Definition f_emax : Z := 1024.
Definition f_of_Z (z : Z) : spec_float := binary_normalize f_prec f_emax z 0 false.
Definition f_mul := SFmul f_prec f_emax.
Definition f_div := SFdiv f_prec f_emax.
Definition f_sub := SFsub f_prec f_emax.
Definition f_one : spec_float := f_of_Z 1.

Section alias.
Context {I : Type} `{!Instance_ I}.

Record aliasPicker := mkAlias {
  a_instances : list I;
  alias : list Z;
  prob : list spec_float
}.

(** The working arrays of [init]; the stacks have their top at the end. *)
Record work := mkWork {
  w_alias : list Z;
  w_prob : list spec_float;
  scaledProb : list spec_float;
  small : list Z;
  large : list Z
}.

(** Appends [i] to the stack its scaled probability belongs to. *)
Definition push (i : Z) (p : spec_float) (small large : list Z) : list Z * list Z :=
  if SFltb p f_one then (small ++ [i], large) else (small, large ++ [i]).

(** The first loop: scaled probabilities and the two stacks. *)
Fixpoint classify (i : Z) (n totalWeight : Z) (xs : list I) (small large : list Z)
    : list spec_float * list Z * list Z :=
  match xs with
  | [] => ([], small, large)
  | x :: xs =>
      let p := f_div (f_mul (f_of_Z (Weight x)) (f_of_Z n)) (f_of_Z totalWeight) in
      let '(small, large) := push i p small large in
      let '(ps, small, large) := classify (i + 1) n totalWeight xs small large in
      (p :: ps, small, large)
  end.

(** One iteration of the pairing loop; [None] when the loop condition fails or an index is
    out of range. *)
Definition pair_step (w : work) : option work :=
  l ← last (small w);
  g ← last (large w);
  let sm := removelast (small w) in
  let lg := removelast (large w) in
  pl ← at_ (scaledProb w) l;
  pg ← at_ (scaledProb w) g;
  prob ← set_at (w_prob w) l pl;
  als ← set_at (w_alias w) l g;
  let pg := f_sub pg (f_sub f_one pl) in
  sp ← set_at (scaledProb w) g pg;
  let '(sm, lg) := push g pg sm lg in
  Some (mkWork als prob sp sm lg).

Fixpoint pair_loop (fuel : nat) (w : work) : option work :=
  match fuel with
  | O => None
  | S fuel =>
      match small w, large w with
      | [], _ | _, [] => Some w
      | _, _ => w ← pair_step w; pair_loop fuel w
      end
  end.

(** The two final loops pop a stack and write 1.0 for each of its positions. *)
Fixpoint set_ones (is_ : list Z) (prob : list spec_float) : option (list spec_float) :=
  match is_ with
  | [] => Some prob
  | i :: is_ => prob ← set_at prob i f_one; set_ones is_ prob
  end.

Definition f_zero : spec_float := S754_zero false.

Definition alias_init (instances : list I) (weightSum : Z) : option aliasPicker :=
  let n := length instances in
  let '(sp, sm, lg) := classify 0 (Z.of_nat n) weightSum instances [] [] in
  w ← pair_loop (S n) (mkWork (replicate n 0) (replicate n f_zero) sp sm lg);
  prob ← set_ones (rev (large w)) (w_prob w);
  prob ← set_ones (rev (small w)) prob;
  Some (mkAlias instances (w_alias w) prob).

(** [None] is a panic of [Intn] or an index panic. *)
Definition alias_Next (d : draw) (a : aliasPicker) : option I :=
  i ← Intn d (lenZ (a_instances a));
  p ← at_ (prob a) i;
  if SFltb (Float64 d) p then at_ (a_instances a) i
  else j ← at_ (alias a) i; at_ (a_instances a) j.

(** * The structure of [init] *)

Definition in_range (n : nat) (i : Z) : Prop := 0 <= i < Z.of_nat n.

Definition work_ok (n : nat) (w : work) : Prop :=
  length (w_alias w) = n /\ length (w_prob w) = n /\ length (scaledProb w) = n /\
  Forall (in_range n) (w_alias w) /\ Forall (in_range n) (small w ++ large w).

Lemma push_spec i p sm lg :
  let '(sm', lg') := push i p sm lg in
  sm' ++ lg' ≡ₚ i :: sm ++ lg /\ (length sm' + length lg' = S (length sm + length lg))%nat.
Proof.
  unfold push. destruct (SFltb p f_one); (split; [|rewrite length_app; simpl; lia]).
  - rewrite <- (assoc_L (++)). simpl. by rewrite <- Permutation_middle.
  - rewrite (assoc_L (++)). by rewrite <- Permutation_cons_append.
Qed.

Lemma classify_spec i n t xs sm lg :
  let '(ps, sm', lg') := classify i n t xs sm lg in
  length ps = length xs /\
  sm' ++ lg' ≡ₚ ((fun k => i + Z.of_nat k) <$> seq 0 (length xs)) ++ sm ++ lg.
Proof.
  revert i sm lg. induction xs as [|x xs IH]; intros i sm lg; simpl; [done|].
  set (p := f_div _ _). pose proof (push_spec i p sm lg) as Hp.
  destruct (push i p sm lg) as [sm1 lg1]. destruct Hp as [Hp _].
  specialize (IH (i + 1) sm1 lg1). destruct (classify _ _ _ _ _ _) as [[ps sm2] lg2].
  destruct IH as [IH1 IH2]. simpl. split; [lia|]. rewrite IH2, Hp, <- seq_shift.
  rewrite Z.add_0_r, <- Permutation_middle. f_equiv. f_equiv.
  change (List.map S (seq 0 (length xs))) with (S <$> seq 0 (length xs)).
  rewrite <- list_fmap_compose. erewrite list_fmap_ext; [done|]. intros k y _. simpl. lia.
Qed.

Lemma set_at_Some {A} (l : list A) i x :
  0 <= i < lenZ l -> set_at l i x = Some (<[Z.to_nat i := x]> l).
Proof. intros. unfold set_at. by rewrite decide_True. Qed.

Lemma pair_step_spec n w :
  work_ok n w -> small w <> [] -> large w <> [] ->
  exists w', pair_step w = Some w' /\ work_ok n w' /\
    (S (length (small w' ++ large w')) = length (small w ++ large w))%nat.
Proof.
  intros (Ha & Hp & Hs & Hal & Hst) Hsm Hlg.
  destruct (exists_last Hsm) as (sm & l & Esm), (exists_last Hlg) as (lg & g & Elg).
  unfold pair_step. rewrite Esm, Elg, !last_snoc, !removelast_last. cbn [mbind option_bind].
  rewrite Esm, Elg, !Forall_app in Hst. destruct Hst as [[Hsm' Hl] [Hlg' Hg]].
  rewrite !Forall_singleton in Hl, Hg. unfold in_range in Hl, Hg.
  assert (is_Some (at_ (scaledProb w) l)) as [pl ->] by (apply at_is_Some; unfold lenZ; lia).
  assert (is_Some (at_ (scaledProb w) g)) as [pg ->] by (apply at_is_Some; unfold lenZ; lia).
  cbn [mbind option_bind]. rewrite !set_at_Some by (unfold lenZ; lia). cbn [mbind option_bind].
  pose proof (push_spec g (f_sub pg (f_sub f_one pl)) sm lg) as Hpush.
  destruct (push _ _ sm lg) as [sm' lg']. destruct Hpush as [Hperm Hlen].
  eexists. split; [done|]. split.
  - split_and!; simpl; rewrite ?length_insert; try done.
    + by apply Forall_insert.
    + rewrite Hperm. constructor; [done|]. by apply Forall_app.
  - simpl. rewrite !length_app in *. simpl. lia.
Qed.

Lemma pair_loop_spec n fuel w :
  work_ok n w -> (length (small w ++ large w) < fuel)%nat ->
  exists w', pair_loop fuel w = Some w' /\ work_ok n w'.
Proof.
  revert w. induction fuel as [|fuel IH]; intros w Hw Hf; [lia|]. cbn [pair_loop].
  destruct (small w) as [|s sm] eqn:Es; [eauto|]. destruct (large w) as [|g lg] eqn:El; [eauto|].
  destruct (pair_step_spec n w Hw) as (w' & -> & Hw' & Hl); [congruence|congruence|].
  rewrite Es, El in Hl. cbn [mbind option_bind]. apply IH; [done|]. lia.
Qed.

Lemma set_ones_spec n js pr :
  length pr = n -> Forall (in_range n) js ->
  exists pr', set_ones js pr = Some pr' /\ length pr' = n.
Proof.
  intros Hl Hj. revert pr Hl. induction Hj as [|i js Hi _ IH]; intros pr Hl; [by exists pr|].
  cbn [set_ones]. rewrite set_at_Some by (unfold in_range, lenZ in *; lia). cbn [mbind option_bind].
  apply IH. by rewrite length_insert.
Qed.

Lemma alias_init_spec instances s :
  exists a, alias_init instances s = Some a /\ a_instances a = instances /\
    length (alias a) = length instances /\ length (prob a) = length instances /\
    Forall (in_range (length instances)) (alias a).
Proof.
  unfold alias_init. set (n := length instances).
  pose proof (classify_spec 0 (Z.of_nat n) s instances [] []) as Hc.
  destruct (classify _ _ _ _ _ _) as [[sp sm] lg]. destruct Hc as [Hlen Hperm].
  rewrite app_nil_r in Hperm. fold n in Hlen, Hperm.
  set (w0 := mkWork (replicate n 0) (replicate n f_zero) sp sm lg).
  assert (work_ok n w0) as Hw.
  { split_and!; simpl; rewrite ?length_replicate; try done.
    - destruct (decide (n = 0%nat)) as [->|]; [done|]. apply Forall_replicate. unfold in_range. lia.
    - rewrite Hperm. apply Forall_fmap, Forall_forall. intros k Hk%elem_of_seq.
      unfold in_range. simpl. lia. }
  destruct (pair_loop_spec n (S n) w0 Hw) as (w & -> & Hw').
  { simpl. rewrite Hperm, length_fmap, length_seq. lia. }
  cbn [mbind option_bind]. destruct Hw' as (H1 & H2 & H3 & H4 & H5).
  apply Forall_app in H5 as [H5 H6].
  destruct (set_ones_spec n (rev (large w)) (w_prob w) H2) as (p1 & -> & Hp1).
  { by rewrite <- Permutation_rev. }
  cbn [mbind option_bind].
  destruct (set_ones_spec n (rev (small w)) p1 Hp1) as (p2 & -> & Hp2).
  { by rewrite <- Permutation_rev. }
  cbn [mbind option_bind]. eexists. split; [done|]. done.
Qed.

(** What a picker over [xs] looks like after [init]. *)
Definition alias_ok (xs : list I) (a : aliasPicker) : Prop :=
  a_instances a = xs /\ length (alias a) = length xs /\ length (prob a) = length xs /\
  Forall (in_range (length xs)) (alias a).

Lemma alias_Next_ok xs a d :
  xs <> [] -> alias_ok xs a -> draw_ok d -> exists x, alias_Next d a = Some x /\ x ∈ xs.
Proof.
  intros Hne (Hi & Hal & Hpr & Hr) Hd. unfold alias_Next. rewrite Hi.
  assert (0 < lenZ xs) as Hl by (destruct xs; [done|unfold lenZ; simpl; lia]).
  destruct (Intn_ok d _ Hd Hl) as (i & -> & Hir). cbn [mbind option_bind].
  assert (is_Some (at_ (prob a) i)) as [p ->] by (apply at_is_Some; unfold lenZ in *; lia).
  assert (forall j, 0 <= j < lenZ xs -> exists x, at_ xs j = Some x /\ x ∈ xs) as Hget.
  { intros j Hj. destruct (proj2 (at_is_Some xs j) Hj) as [x Hx]. exists x. split; [done|].
    rewrite at_lookup in Hx by lia. by apply list_elem_of_lookup_2 in Hx. }
  cbn [mbind option_bind]. case_match; [by apply Hget|].
  assert (is_Some (at_ (alias a) i)) as [j Hj] by (apply at_is_Some; unfold lenZ in *; lia).
  rewrite Hj. cbn [mbind option_bind]. apply Hget. rewrite at_lookup in Hj by lia.
  rewrite Forall_lookup in Hr. apply (Hr _ _ Hj).
Qed.

(** The alias method is total.  For any instances and any float64 rounding, [init]
    ends within its fuel without an index panic, and [Next] returns one of the instances
    for every pair of draws. *)
Theorem alias_method_total instances s d :
  instances <> [] -> draw_ok d ->
  exists a, alias_init instances s = Some a /\
    exists x, alias_Next d a = Some x /\ x ∈ instances.
Proof.
  intros Hne Hd. destruct (alias_init_spec instances s) as (a & Ha & Hok).
  exists a. split; [done|]. by apply alias_Next_ok.
Qed.

End alias.

Definition some_draw : draw := mkDraw (fun n => n - 1) (f_div (f_of_Z 3) (f_of_Z 4)).

Lemma some_draw_ok : draw_ok some_draw.
Proof. intros n Hn. simpl. lia. Qed.

Lemma alias_method_total_witness :
  exists a, alias_init three_hosts 60 = Some a /\
    exists x, alias_Next some_draw a = Some x /\ x ∈ three_hosts.
Proof. apply alias_method_total; [discriminate|apply some_draw_ok]. Defined.
