(* ===== verification/Balancer.v ===== *)
(** The weighted balancer (src/pkg/loadbalance/weighted_balancer.go): choice of the picker
    for a discovery result, and the cache of pickers that Rebalance and Delete maintain.

    Each picker discharges the interface [SoundPicker]; the balancer's theorems use only
    the interface. *)

From S2P Require Import Prelude Discovery Wrr Pickers Alias.

Section instances_.
Context {I : Type} `{!Instance_ I}.

Abbreviation positive := (Forall (fun x : I => 0 < Weight x)).

(** * The pickers discharge the interface *)

Lemma length_pos (xs : list I) : xs <> [] -> 0 < lenZ xs.
Proof. destruct xs; [done|]. unfold lenZ. simpl. lia. Qed.

#[export] Instance rr_sound : SoundPicker I (rrPicker (I := I)).
Proof.
  refine {| pick := fun _ => rr_Next; sound := fun xs p => rr_instances p = xs /\ xs <> [] |}.
  intros xs p d [<- Hne] _. destruct (rr_Next_spec p Hne) as (x & -> & Hx).
  do 2 eexists. split_and!; try done. by apply list_elem_of_lookup_2 in Hx.
Defined.

#[export] Instance wrr_sound : SoundPicker I (wrrPicker (I := I)).
Proof.
  refine {| pick := fun _ => Next;
            sound := fun xs p => exists ys, ys ≡ₚ xs /\ ys <> [] /\ positive ys /\
                                   no_overflow ys /\ pinv ys p |}.
  intros xs p d (ys & Hp & Hne & Hpos & Hno & Hpv) _.
  destruct (Next_spec ys Hne Hpos Hno p Hpv) as (p' & Hpv' & _ & ->).
  destruct (V_pos ys Hne Hpos) as [HV _].
  set (idx := Z.to_nat (_ mod _)). assert (is_Some (table ys !! idx)) as [x Hx].
  { apply lookup_lt_is_Some. rewrite length_table by done. subst idx.
    assert (0 < Z.of_nat (V ys)) as HV' by lia.
    pose proof (Z.mod_pos_bound (round_next (iterator p)) _ HV'). lia. }
  exists x, p'. rewrite Hx. split_and!; [done| |by exists ys].
  rewrite <- Hp. apply list_elem_of_lookup_2 in Hx. unfold table in Hx.
  apply list_elem_of_omap in Hx as (j & _ & Hj). by apply list_elem_of_lookup_2 in Hj.
Defined.

Lemma iinv_swap p : iinv p -> i_current p = [] -> iinv (mkIwrr (i_next p) [] (i_gcd p)).
Proof.
  intros (Hg & _ & Hn & _) _. split_and!; simpl; try done.
  - eapply Forall_impl; [exact Hn|]. simpl. intros n [-> H]. done.
  - eapply Forall_impl; [exact Hn|]. by intros n [_ H].
Qed.

#[export] Instance iwrr_sound : SoundPicker I (iwrrPicker (I := I)).
Proof.
  refine {| pick := fun _ => iwrr_Next;
            sound := fun xs p => iinv p /\ members p ≡ₚ xs /\ xs <> [] |}.
  intros xs p d (Hi & Hm & Hne) _.
  assert (exists q, iinv q /\ i_current q <> [] /\ members q ≡ₚ xs /\ iwrr_Next p = iwrr_Next q)
    as (q & Hiq & Hcq & Hmq & ->).
  { destruct (i_current p) as [|n cur] eqn:Ec; [|exists p; rewrite Ec; done].
    exists (mkIwrr (i_next p) [] (i_gcd p)). unfold members in *. rewrite Ec in Hm. simpl in *.
    split_and!; [by apply iinv_swap| |by rewrite app_nil_r|].
    - intros E. rewrite E in Hm. by apply Permutation_nil_l in Hm.
    - unfold iwrr_Next. rewrite Ec. simpl. by destruct (i_next p). }
  destruct (iwrr_step q Hiq Hcq) as (x & p' & -> & Hi' & Hg & Hm' & Hr).
  exists x, p'. split_and!; try done; [|by rewrite Hm'].
  rewrite <- Hmq. unfold members. rewrite fmap_app, elem_of_app. left.
  assert (x ∈ concat (rest (i_gcd q) <$> i_current q)) as Hin by (rewrite Hr; constructor).
  apply list_elem_of_In, in_concat in Hin as (l & Hl%list_elem_of_In & Hx).
  apply list_elem_of_fmap in Hl as (n & -> & Hn). unfold rest in Hx. apply repeat_spec in Hx. subst.
  by apply list_elem_of_fmap_2.
Defined.

Lemma at_elem (xs : list I) i : 0 <= i < lenZ xs -> exists x, at_ xs i = Some x /\ x ∈ xs.
Proof.
  intros Hi. destruct (proj2 (at_is_Some xs i) Hi) as [x Hx]. exists x. split; [done|].
  rewrite at_lookup in Hx by lia. by apply list_elem_of_lookup_2 in Hx.
Qed.

(** The random pickers keep no state between calls. *)
Record randomPicker := mkRandom { rd_instances : list I }.

#[export] Instance random_sound : SoundPicker I randomPicker.
Proof.
  refine {| pick := fun d p => x ← random_Next d (rd_instances p); Some (Some x, p);
            sound := fun xs p => rd_instances p = xs /\ xs <> [] |}.
  intros xs p d [<- Hne] Hd.
  destruct (Intn_ok d (lenZ (rd_instances p)) Hd) as (i & Hi & Hr); [by apply length_pos|].
  destruct (at_elem (rd_instances p) i Hr) as (x & Hx & Hin).
  exists x, p. unfold random_Next. rewrite Hi. cbn [mbind option_bind]. by rewrite Hx.
Defined.

#[export] Instance wrand_sound : SoundPicker I (wrandPicker (I := I)).
Proof.
  refine {| pick := fun d p => x ← wrand_Next d p; Some (x, p);
            sound := fun xs p => wr_instances p = xs /\ weightSum p = totalW xs /\
                                 xs <> [] /\ positive xs |}.
  intros xs p d (<- & Hs & Hne & Hpos) Hd.
  destruct (Intn_ok d (weightSum p) Hd) as (w & Hw & Hr); [rewrite Hs; by apply totalW_pos|].
  destruct (weighted_random_walk (wr_instances p) w) as (x & Hx & Hin); [done|lia|].
  exists x, p. unfold wrand_Next. rewrite Hw. cbn [mbind option_bind]. by rewrite Hx.
Defined.

#[export] Instance alias_sound : SoundPicker I (aliasPicker (I := I)).
Proof.
  refine {| pick := fun d p => x ← alias_Next d p; Some (Some x, p);
            sound := fun xs p => xs <> [] /\ alias_ok xs p |}.
  intros xs p d [Hne Hok] Hd. destruct (alias_Next_ok xs p d Hne Hok Hd) as (x & Hx & Hin).
  exists x, p. by rewrite Hx.
Defined.

(** * Creating a picker *)

Inductive lbKind := lbKindRoundRobin | lbKindInterleaved | lbKindRandom | lbKindRandomWithAliasMethod.

Inductive anyPicker :=
| PDummy
| PRoundRobin (p : rrPicker (I := I))
| PWeightedRoundRobin (p : wrrPicker (I := I))
| PInterleaved (p : iwrrPicker (I := I))
| PRandom (p : randomPicker)
| PWeightedRandom (p : wrandPicker (I := I))
| PAlias (p : aliasPicker (I := I)).

Definition wrap {P} (c : P -> anyPicker) (r : option (option I * P)) : option (option I * anyPicker) :=
  '(x, p) ← r; Some (x, c p).

(** The dynamic dispatch of [Picker.Next]. *)
Definition any_Next (d : draw) (p : anyPicker) : option (option I * anyPicker) :=
  match p with
  | PDummy => Some (None, PDummy)
  | PRoundRobin p => wrap PRoundRobin (pick d p)
  | PWeightedRoundRobin p => wrap PWeightedRoundRobin (pick d p)
  | PInterleaved p => wrap PInterleaved (pick d p)
  | PRandom p => wrap PRandom (pick d p)
  | PWeightedRandom p => wrap PWeightedRandom (pick d p)
  | PAlias p => wrap PAlias (pick d p)
  end.

Definition any_ok (xs : list I) (p : anyPicker) : Prop :=
  match p with
  | PDummy => xs = []
  | PRoundRobin p => sound xs p
  | PWeightedRoundRobin p => sound xs p
  | PInterleaved p => sound xs p
  | PRandom p => sound xs p
  | PWeightedRandom p => sound xs p
  | PAlias p => sound xs p
  end.

(** The loop over the discovered instances: kept instances, their weight sum, and whether
    all weights seen are equal. *)
Fixpoint select (es : list I) (instances : list I) (weightSum : Z) (balance : bool)
    : list I * Z * bool :=
  match es with
  | [] => (instances, weightSum, balance)
  | e :: es =>
      let weight := Weight e in
      if weight <=? 0 then select es instances weightSum balance
      else
        let balance := match last instances with
                       | Some p => if negb (Weight p =? weight) then false else balance
                       | None => balance
                       end in
        select es (instances ++ [e]) (i64 (weightSum + weight)) balance
  end.

(** [seed]: the random initial state of the round, [offset]: the random rotation.  [None]
    is a panic. *)
Definition createPicker (kind : lbKind) (seed offset : Z) (e : Result I) : option anyPicker :=
  let '(instances, weightSum, balance) := select (Instances e) [] 0 true in
  match instances with
  | [] => Some PDummy
  | _ =>
      match kind with
      | lbKindRoundRobin =>
          if balance then Some (PRoundRobin (mkRR instances seed))
          else p ← newWeightedRoundRobinPicker offset instances; Some (PWeightedRoundRobin p)
      | lbKindInterleaved =>
          if balance then Some (PRoundRobin (mkRR instances seed))
          else Some (PInterleaved (newInterleaved offset instances))
      | lbKindRandomWithAliasMethod =>
          if balance then Some (PRandom (mkRandom instances))
          else p ← alias_init instances weightSum; Some (PAlias p)
      | lbKindRandom =>
          if balance then Some (PRandom (mkRandom instances))
          else Some (PWeightedRandom (mkWRand instances weightSum))
      end
  end.

Definition usable (e : Result I) : list I := filter (fun x => 0 < Weight x) (Instances e).

(** What the balancer asks of the weights of a result: the ints and the round-robin table
    do not overflow. *)
Definition moderate (e : Result I) : Prop := no_overflow (usable e) /\ table_fits (usable e).

Lemma select_spec es xs s b :
  0 <= s -> s + totalW (filter (fun x => 0 < Weight x) es) < 2 ^ 63 ->
  let '(ys, s', b') := select es xs s b in
  ys = xs ++ filter (fun x => 0 < Weight x) es /\ s' = s + totalW (filter (fun x => 0 < Weight x) es).
Proof.
  revert xs s b. induction es as [|e es IH]; intros xs s b H0 Hs; simpl.
  { rewrite app_nil_r. unfold totalW. simpl. split; [done|lia]. }
  rewrite filter_cons in Hs |- *. destruct (Weight e <=? 0) eqn:E; bool_to_prop.
  - rewrite decide_False in Hs |- * by lia. by apply IH.
  - rewrite decide_True in Hs |- * by lia.
    assert (0 <= totalW (filter (fun x => 0 < Weight x) es)) as Hnn.
    { apply totalW_nonneg, Forall_forall. by intros x [? _]%list_elem_of_filter. }
    unfold totalW in Hs, Hnn. rewrite fmap_cons, sumZ_cons in Hs. rewrite i64_id by lia.
    assert (0 <= s + Weight e) as Hs1 by lia.
    assert (s + Weight e + totalW (filter (fun x => 0 < Weight x) es) < 2 ^ 63) as Hs2
      by (unfold totalW; lia).
    specialize (IH (xs ++ [e]) (s + Weight e)
      (match last xs with Some p => if negb (Weight p =? Weight e) then false else b | None => b end)
      Hs1 Hs2).
    destruct (select _ _ _ _) as [[ys s'] b']. destruct IH as [-> ->].
    rewrite <- (assoc_L (++)). split; [done|]. unfold totalW. rewrite fmap_cons, sumZ_cons. lia.
Qed.

Lemma usable_positive e : positive (usable e).
Proof. apply Forall_forall. intros x Hx. by apply list_elem_of_filter in Hx as [Hx _]. Qed.

Lemma moderate_sum e : moderate e -> totalW (usable e) < 2 ^ 63.
Proof.
  intros [Hno _]. destruct (decide (usable e = [])) as [->|Hne]; [done|].
  apply totalW_fits; [done|apply usable_positive|done].
Qed.

Lemma createPicker_ok kind seed offset e :
  moderate e ->
  exists p, createPicker kind seed offset e = Some p /\ any_ok (usable e) p /\
    (p = PDummy <-> usable e = []).
Proof.
  intros Hmod. pose proof (moderate_sum e Hmod) as Hsum. destruct Hmod as [Hno Hfit].
  unfold createPicker. pose proof (select_spec (Instances e) [] 0 true ltac:(lia) Hsum) as Hs.
  destruct (select _ _ _ _) as [[ys s] b]. destruct Hs as [-> ->]. simpl.
  fold (usable e). pose proof (usable_positive e) as Hpos. rewrite Z.add_0_l.
  destruct (usable e) as [|x xs] eqn:Eu; [by exists PDummy|]. rewrite <- Eu in *.
  assert (usable e <> []) as Hne by (rewrite Eu; done).
  assert (exists p, newWeightedRoundRobinPicker offset (usable e) = Some p /\ sound (usable e) p)
    as (wp & Hwp & Hws).
  { destruct (newWrr_pinv offset (usable e) Hne Hpos Hno Hfit) as (H1 & H2 & H2' & wp & H3 & H4 & _).
    exists wp. split; [done|]. exists (rotate_from offset (usable e)).
    split_and!; try done. apply rotate_perm. }
  destruct (alias_init_spec (usable e) (totalW (usable e))) as (a & Ha & Hal).
  destruct kind, b; rewrite ?Hwp, ?Ha; simpl; eexists; (split; [reflexivity|]); (split; [|done]); simpl;
    try done.
  - destruct (newInterleaved_ok offset (usable e) Hne Hpos) as [H1 H2]. done.
Qed.

(** * The balancer and its picker cache *)

(** [pickerCache] maps a cache key to a picker object of the heap [pickers]: a picker
    handed out earlier and the cached one are the same object. *)
Record weightedBalancer := mkWB {
  kind : lbKind; pickerCache : gmap string nat; pickers : list anyPicker }.

Definition NewBalancer (k : lbKind) : weightedBalancer := mkWB k ∅ [].

Definition alloc (p : anyPicker) (b : weightedBalancer) : nat * weightedBalancer :=
  (length (pickers b), mkWB (kind b) (pickerCache b) (pickers b ++ [p])).

Definition Store (key : string) (l : nat) (b : weightedBalancer) : weightedBalancer :=
  mkWB (kind b) (<[key := l]> (pickerCache b)) (pickers b).

Definition GetPicker (seed offset : Z) (e : Result I) (b : weightedBalancer)
    : option (nat * weightedBalancer) :=
  if negb (Cacheable e) then
    p ← createPicker (kind b) seed offset e; Some (alloc p b)
  else
    match pickerCache b !! CacheKey e with
    | Some l => Some (l, b)
    | None =>
        p ← createPicker (kind b) seed offset e;
        let '(l, b) := alloc p b in Some (l, Store (CacheKey e) l b)
    end.

Definition Rebalance (seed offset : Z) (c : Change I) (b : weightedBalancer)
    : option weightedBalancer :=
  if negb (Cacheable (ChResult c)) then Some b
  else
    p ← createPicker (kind b) seed offset (ChResult c);
    let '(l, b) := alloc p b in Some (Store (CacheKey (ChResult c)) l b).

Definition Delete (c : Change I) (b : weightedBalancer) : weightedBalancer :=
  if negb (Cacheable (ChResult c)) then b
  else mkWB (kind b) (delete (CacheKey (ChResult c)) (pickerCache b)) (pickers b).

Definition Name (b : weightedBalancer) : string :=
  match kind b with
  | lbKindRoundRobin => "weight_round_robin"
  | lbKindInterleaved => "interleaved_weighted_round_robin"
  | lbKindRandomWithAliasMethod => "weight_random_with_alias_method"
  | lbKindRandom => "weight_random"
  end.

(** A call of [Next] on a picker obtained from [GetPicker]. *)
Definition NextOf (l : nat) (d : draw) (b : weightedBalancer)
    : option (option I * weightedBalancer) :=
  p ← pickers b !! l; '(r, p) ← any_Next d p;
  Some (r, mkWB (kind b) (pickerCache b) (<[l := p]> (pickers b))).

Inductive balancerOp :=
| OGet (seed offset : Z) (e : Result I)
| ORebalance (seed offset : Z) (c : Change I)
| ODelete (c : Change I)
| ONext (l : nat) (d : draw).

Definition op_ok (o : balancerOp) : Prop :=
  match o with
  | OGet _ _ e => moderate e
  | ORebalance _ _ c => moderate (ChResult c)
  | ODelete _ => True
  | ONext _ d => draw_ok d
  end.

(** One operation of a client; a [Next] on a picker nobody was given does not occur. *)
Definition exec_op (o : balancerOp) (b : weightedBalancer) : option weightedBalancer :=
  match o with
  | OGet s f e => snd <$> GetPicker s f e b
  | ORebalance s f c => Rebalance s f c b
  | ODelete c => Some (Delete c b)
  | ONext l d => match pickers b !! l with None => Some b | Some _ => snd <$> NextOf l d b end
  end.

Fixpoint exec_ops (os : list balancerOp) (b : weightedBalancer) : option weightedBalancer :=
  match os with [] => Some b | o :: os => b ← exec_op o b; exec_ops os b end.

(** The specification: per cache key, the discovery result in force. *)
Definition spec_op (m : gmap string (Result I)) (o : balancerOp) : gmap string (Result I) :=
  match o with
  | OGet _ _ e => if Cacheable e then <[CacheKey e := default e (m !! CacheKey e)]> m else m
  | ORebalance _ _ c => if Cacheable (ChResult c) then <[CacheKey (ChResult c) := ChResult c]> m else m
  | ODelete c => if Cacheable (ChResult c) then delete (CacheKey (ChResult c)) m else m
  | ONext _ _ => m
  end.

Definition in_force (m : gmap string (Result I)) (e : Result I) : Result I :=
  if Cacheable e then default e (m !! CacheKey e) else e.

Definition refines (b : weightedBalancer) (m : gmap string (Result I)) : Prop :=
  forall k, match pickerCache b !! k, m !! k with
            | Some l, Some e => exists p, pickers b !! l = Some p /\ any_ok (usable e) p
            | None, None => True
            | _, _ => False
            end.

(** Every picker of the heap was created for some list of instances. *)
Definition heap_ok (b : weightedBalancer) : Prop :=
  Forall (fun p => exists xs, any_ok xs p) (pickers b).

Lemma any_Next_ok xs p d :
  any_ok xs p -> draw_ok d ->
  exists r p', any_Next d p = Some (r, p') /\ any_ok xs p' /\
    match r with Some x => x ∈ xs | None => xs = [] end.
Proof.
  intros Hok Hd. destruct p as [|p|p|p|p|p|p]; [by exists None, PDummy| | | | | | ];
    unfold any_ok in Hok; unfold any_Next;
    destruct (pick_sound xs p d Hok Hd) as (x & p' & -> & Hx & Hs);
    (eexists (Some x), _; split; [reflexivity|]; by split).
Qed.

Lemma refines_alloc b m p :
  refines b m -> refines (snd (alloc p b)) m.
Proof.
  intros HR k. specialize (HR k). simpl in *. repeat case_match; try done.
  destruct HR as (q & Hq & Hok). exists q. split; [|done]. by apply lookup_app_l_Some.
Qed.

Lemma refines_store b m p e :
  refines b m -> any_ok (usable e) p ->
  refines (Store (CacheKey e) (length (pickers b)) (snd (alloc p b))) (<[CacheKey e := e]> m).
Proof.
  intros HR Hok k. pose proof (refines_alloc b m p HR k) as HR'. simpl in *.
  destruct (decide (CacheKey e = k)) as [<-|Hne].
  - rewrite !lookup_insert_eq. exists p. split; [|done]. by apply list_lookup_middle.
  - by rewrite !lookup_insert_ne.
Qed.

Lemma heap_ok_alloc b p xs : heap_ok b -> any_ok xs p -> heap_ok (snd (alloc p b)).
Proof. intros Hh Hp. apply Forall_app. split; [done|]. constructor; [by exists xs|done]. Qed.

Lemma NextOf_ok b l d p xs :
  heap_ok b -> pickers b !! l = Some p -> any_ok xs p -> draw_ok d ->
  exists r b', NextOf l d b = Some (r, b') /\ heap_ok b' /\
    match r with Some x => x ∈ xs | None => xs = [] end.
Proof.
  intros Hh Hl Hok Hd. destruct (any_Next_ok xs p d Hok Hd) as (r & p' & HN & Hok' & Hr).
  unfold NextOf. rewrite Hl. simpl. rewrite HN. simpl. do 2 eexists. split; [done|]. split; [|done].
  apply Forall_insert; [done|by exists xs].
Qed.

Lemma NextOf_refines b m l d p :
  heap_ok b -> refines b m -> pickers b !! l = Some p -> draw_ok d ->
  exists r b', NextOf l d b = Some (r, b') /\ refines b' m.
Proof.
  intros Hh HR Hl Hd.
  assert (exists r p', any_Next d p = Some (r, p') /\ forall xs, any_ok xs p -> any_ok xs p')
    as (r & p' & HN & Hok).
  { unfold heap_ok in Hh. rewrite Forall_lookup in Hh. destruct (Hh l p Hl) as [xs Hxs].
    destruct (any_Next_ok xs p d Hxs Hd) as (r & p' & HN & _ & _). exists r, p'. split; [done|].
    intros ys Hys. destruct (any_Next_ok ys p d Hys Hd) as (r' & q & HN' & Hq & _).
    rewrite HN in HN'. by simplify_eq. }
  exists r. eexists. unfold NextOf. rewrite Hl. simpl. rewrite HN. simpl. split; [done|].
  intros k. specialize (HR k). simpl. repeat case_match; try done.
  destruct HR as (q & Hq & Hqo). destruct (decide (n = l)) as [->|Hne].
  - exists p'. rewrite list_lookup_insert_eq by (by eapply lookup_lt_Some). split; [done|].
    simplify_eq. by apply Hok.
  - exists q. by rewrite list_lookup_insert_ne.
Qed.

(** [GetPicker] hands out a picker for the result in force. *)
Lemma GetPicker_ok s f e b m :
  moderate e -> heap_ok b -> refines b m ->
  exists l b' p, GetPicker s f e b = Some (l, b') /\ heap_ok b' /\
    refines b' (spec_op m (OGet s f e)) /\ pickers b' !! l = Some p /\ any_ok (usable (in_force m e)) p.
Proof.
  intros Hmod Hh HR. destruct (createPicker_ok (kind b) s f e Hmod) as (p & Hp & Hok & _).
  unfold GetPicker, in_force, spec_op. rewrite Hp. destruct (Cacheable e); simpl.
  - pose proof (HR (CacheKey e)) as HRk.
    destruct (pickerCache b !! CacheKey e) as [l|] eqn:El, (m !! CacheKey e) as [e'|] eqn:Em; try done.
    + destruct HRk as (q & Hq & Hqo). exists l, b, q. simpl. rewrite insert_id by done. done.
    + do 2 eexists. exists p. split; [done|]. split; [by eapply heap_ok_alloc|].
      split; [by apply refines_store|]. split; [|done]. by apply list_lookup_middle.
  - do 2 eexists. exists p. split; [done|]. split; [by eapply heap_ok_alloc|].
    split; [by apply refines_alloc|]. split; [|done]. by apply list_lookup_middle.
Qed.

Lemma exec_op_ok o b m :
  op_ok o -> heap_ok b -> refines b m ->
  exists b', exec_op o b = Some b' /\ heap_ok b' /\ refines b' (spec_op m o).
Proof.
  intros Ho Hh HR. destruct o as [s f e|s f c|c|l d]; simpl.
  - destruct (GetPicker_ok s f e b m Ho Hh HR) as (l & b' & p & -> & Hh' & HR' & _). by exists b'.
  - unfold Rebalance. destruct (createPicker_ok (kind b) s f (ChResult c) Ho) as (p & -> & Hok & _).
    destruct (Cacheable (ChResult c)); simpl; [|by exists b]. eexists. split; [done|].
    split; [by eapply heap_ok_alloc|by apply refines_store].
  - exists (Delete c b). unfold Delete. split; [done|]. destruct (Cacheable (ChResult c)); simpl; [|done].
    split; [done|]. intros k. specialize (HR k). simpl.
    destruct (decide (CacheKey (ChResult c) = k)) as [<-|Hne];
      [by rewrite !lookup_delete_eq|by rewrite !lookup_delete_ne].
  - destruct (pickers b !! l) as [p|] eqn:El; [|by exists b]. simpl in Ho.
    pose proof Hh as Hl. unfold heap_ok in Hl. rewrite Forall_lookup in Hl.
    destruct (Hl l p El) as [xs Hxs].
    destruct (NextOf_ok b l d p xs Hh El Hxs Ho) as (r & b' & HN & Hh' & _).
    destruct (NextOf_refines b m l d p Hh HR El Ho) as (r' & b'' & HN' & HR').
    rewrite HN in *. simplify_eq/=. by exists b''.
Qed.

Lemma exec_ops_ok os b m :
  Forall op_ok os -> heap_ok b -> refines b m ->
  exists b', exec_ops os b = Some b' /\ heap_ok b' /\ refines b' (foldl spec_op m os).
Proof.
  intros Hos. revert b m. induction Hos as [|o os Ho Hos IH]; intros b m Hh HR; simpl; [by exists b|].
  destruct (exec_op_ok o b m Ho Hh HR) as (b' & -> & Hh' & HR'). by apply IH.
Qed.

(** C8: the balancer serves the discovery result in force.  Weights are moderate: the
    positive weights of every result passed in sum to less than 2^63 divided by their
    number, and to at most 2^44 times their gcd.  Then after any sequence of
    [GetPicker], [Rebalance], [Delete] and [Next] calls, on any balancer kind, the next
    [GetPicker] succeeds and its picker's [Next] returns an instance of positive weight of
    the result in force for that cache key (the last one rebalanced, or the one first asked
    for), and returns nil only when that result has no instance of positive weight. *)
Theorem balancer_serves_result_in_force k os s f e d :
  Forall op_ok os -> moderate e -> draw_ok d ->
  exists b l b' r b'',
    exec_ops os (NewBalancer k) = Some b /\
    GetPicker s f e b = Some (l, b') /\ NextOf l d b' = Some (r, b'') /\
    match r with
    | Some x => x ∈ Instances (in_force (foldl spec_op ∅ os) e) /\ 0 < Weight x
    | None => Forall (fun x => Weight x <= 0) (Instances (in_force (foldl spec_op ∅ os) e))
    end.
Proof.
  intros Hos Hmod Hd. destruct (exec_ops_ok os (NewBalancer k) ∅ Hos) as (b & Hb & Hh & HR).
  { constructor. }
  { intros k'. simpl. by rewrite !lookup_empty. }
  destruct (GetPicker_ok s f e b _ Hmod Hh HR) as (l & b' & p & HG & Hh' & _ & Hl & Hok).
  destruct (NextOf_ok b' l d p _ Hh' Hl Hok Hd) as (r & b'' & HN & _ & Hr).
  exists b, l, b', r, b''. split_and!; try done. destruct r as [x|].
  - by apply list_elem_of_filter in Hr as [? ?].
  - apply Forall_forall. intros x Hx. destruct (decide (0 < Weight x)) as [Hw|]; [|lia].
    assert (x ∈ usable (in_force (foldl spec_op ∅ os) e)) as Hin by (by apply list_elem_of_filter).
    rewrite Hr in Hin. by apply not_elem_of_nil in Hin.
Qed.

End instances_.

Definition hosts_result : Result (string * Z) := mkResult true "svc" three_hosts.
Definition hosts_change : Change (string * Z) :=
  mkChange (mkResult true "svc" [("10.0.0.9:80", 0); ("10.0.0.4:80", 5)]) [] [] [].

Lemma hosts_moderate : moderate hosts_result.
Proof. split; vm_compute; [reflexivity|discriminate]. Qed.

Lemma change_moderate : moderate (ChResult hosts_change).
Proof. split; vm_compute; [reflexivity|discriminate]. Qed.

Lemma balancer_serves_result_in_force_witness :
  exists b l b' r b'',
    exec_ops [OGet 7 2 hosts_result; ONext 0 some_draw; ORebalance 1 1 hosts_change]
      (NewBalancer lbKindInterleaved) = Some b /\
    GetPicker 3 0 hosts_result b = Some (l, b') /\ NextOf l some_draw b' = Some (r, b'') /\
    match r with
    | Some x => x ∈ [("10.0.0.9:80", 0); ("10.0.0.4:80", 5)] /\ 0 < Weight x
    | None => Forall (fun x => Weight x <= 0) [("10.0.0.9:80", 0); ("10.0.0.4:80", 5)]
    end.
Proof.
  apply (balancer_serves_result_in_force lbKindInterleaved
    [OGet 7 2 hosts_result; ONext 0 some_draw; ORebalance 1 1 hosts_change] 3 0 hosts_result some_draw).
  - apply Forall_cons_2; [exact hosts_moderate|]. apply Forall_cons_2; [exact some_draw_ok|].
    apply Forall_cons_2; [exact change_moderate|]. by apply Forall_nil_2.
  - exact hosts_moderate.
  - apply some_draw_ok.
Defined.

(** Weights whose sum leaves an int: the random picker is created and panics. *)
Lemma overflowing_weights_panic :
  match createPicker lbKindRandom 0 0 (mkResult true "svc" [("a"%string, 2 ^ 62); ("b"%string, 2 ^ 62 + 1)]) with
  | Some p => any_Next some_draw p = None
  | None => False
  end.
Proof. vm_compute. reflexivity. Qed.
