(* ===== verification/Consist.v ===== *)
(** The consistent-hash balancer (src/pkg/loadbalance/consist.go) and the integer length it
    uses (src/pkg/utils/int_len.go).

    The code builds the hash inputs of all virtual nodes in one reused byte buffer, sorts
    the ring, and finds a key's owner by binary search.  The theorems relate this to the
    mathematical ring: the multiset of virtual nodes, the successor of a key, and the
    stability of owners when an instance leaves. *)

From Stdlib Require Import Sorting.Sorted.
From stdpp Require Import sorting.
From S2P Require Import Prelude Discovery.

(** Enough rounds for the decimal digits of [k]. *)
Definition digit_fuel (k : Z) : nat := S (Z.to_nat (Z.log2 k)).

(** [utils.GetUIntLen] *)
Fixpoint GetUIntLen_loop (fuel : nat) (cnt n : Z) : Z :=
  match fuel with
  | O => cnt
  | S fuel => if 10 <=? n then GetUIntLen_loop fuel (cnt + 1) (n / 10) else cnt
  end.

Definition GetUIntLen (n : Z) : Z := GetUIntLen_loop (digit_fuel n) 1 n.

(** [sort.Search(n, f)]: the binary search of the standard library, at most [n] rounds. *)
Fixpoint Search_loop (fuel : nat) (f : Z -> option bool) (i j : Z) : option Z :=
  match fuel with
  | O => Some i
  | S fuel =>
      if i <? j then
        let h := Z.shiftr (i + j) 1 in
        ok ← f h;
        if negb ok then Search_loop fuel f (h + 1) j else Search_loop fuel f i h
      else Some i
  end.

Definition Search (n : Z) (f : Z -> option bool) : option Z := Search_loop (Z.to_nat n) f 0 n.

(** A virtual node: its hash and a pointer into the array of real nodes. *)
Record virtualNode := mkV { hash : Z; RealNode : option nat }.

(** [sort.Sort] is not stable: it promises a permutation sorted by [Less]. *)
Class Sorter := {
  sort_ : list virtualNode -> list virtualNode;
  sort_perm : forall vs, sort_ vs ≡ₚ vs;
  sort_sorted : forall vs, StronglySorted Z.le (hash <$> sort_ vs)
}.

(** [maphash.Bytes] and [maphash.String], a uint64, under the seed of the process. *)
Class Hasher := {
  hashBytes : list byte -> Z;
  hash_range : forall b, 0 <= hashBytes b < 2 ^ 64
}.

Section consist.
Context {I Req : Type} `{!Instance_ I, !Sorter, !Hasher}.

Record ConsistentHashOption := mkOption {
  GetKey : option (Req -> string); Replica : Z; VirtualFactor : Z; Weighted : bool; ExpireDuration : Z }.

Definition NewConsistentHashOption (f : Req -> string) : ConsistentHashOption := mkOption (Some f) 0 100 true 0.

Record consistInfo := mkInfo { realNodes : list I; virtualNodes : list virtualNode }.

Record consistBalancer := mkCB { cachedConsistInfo : gmap string consistInfo; opt : ConsistentHashOption }.

Definition addr (x : I) : list byte := String.list_byte_of_string (Address x).

Definition getVirtualNodeLen (o : ConsistentHashOption) (x : I) : Z :=
  if Weighted o then i64 (Weight x * VirtualFactor o) else VirtualFactor o.

(** [for j := from; j < len(b); j++ { b[j] = 0 }] *)
Fixpoint zero_tail (n : nat) (j : Z) (b : list byte) : option (list byte) :=
  match n with
  | O => Some b
  | S n => b ← set_at b j Byte.x00; zero_tail n (j + 1) b
  end.

(** The loop that writes the decimal digits of [k] from the end of the buffer. *)
Fixpoint write_digits (fuel : nat) (l cnt k : Z) (b : list byte) : option (list byte) :=
  match fuel with
  | O => Some b
  | S fuel =>
      if 0 <? k then b ← set_at b (l - 1 - cnt) (Zbyte (k mod 10)); write_digits fuel l (cnt + 1) (k / 10) b
      else Some b
  end.

Fixpoint node_loop (n : nat) (j : Z) (i : nat) (l cur : Z) (b : list byte) (ret : list virtualNode)
    : option (list byte * list virtualNode) :=
  match n with
  | O => Some (b, ret)
  | S n =>
      b ← write_digits (digit_fuel j) l 0 j b;
      ret ← set_at ret (cur + j) (mkV (hashBytes b) (Some i));
      node_loop n (j + 1) i l cur b ret
  end.

Fixpoint nodes_loop (o : ConsistentHashOption) (rs : list I) (i : nat) (l cur : Z) (b : list byte)
    (ret : list virtualNode) : option (list virtualNode) :=
  match rs with
  | [] => Some ret
  | x :: rs =>
      let bAddr := addr x in
      let b := copy_ b bAddr in
      b ← zero_tail (Z.to_nat (lenZ b - (lenZ bAddr + 1))) (lenZ bAddr + 1) b;
      b ← set_at b (lenZ bAddr) Byte.x23;
      let vLen := getVirtualNodeLen o x in
      '(b, ret) ← node_loop (Z.to_nat vLen) 0 i l cur b ret;
      nodes_loop o rs (S i) l (i64 (cur + vLen)) b ret
  end.

Definition totalLen (o : ConsistentHashOption) (rs : list I) : Z :=
  foldl (fun t x => i64 (t + getVirtualNodeLen o x)) 0 rs.

Definition maxLen (rs : list I) : Z :=
  foldl (fun m x => if m <? lenZ (addr x) then lenZ (addr x) else m) 0 rs.

Definition maxSerial (o : ConsistentHashOption) (rs : list I) : Z :=
  foldl (fun m x => if m <? getVirtualNodeLen o x then getVirtualNodeLen o x else m) 0 rs.

Definition keyLen (o : ConsistentHashOption) (rs : list I) : Z :=
  maxLen rs + 1 + GetUIntLen (maxSerial o rs).

(** [None] is a panic: a length out of range, of nodes of 16 bytes, or an index out of
    range. *)
Definition buildVirtualNodes (o : ConsistentHashOption) (rs : list I) : option (list virtualNode) :=
  if negb (make_ok 16 (totalLen o rs)) then None
  else
    let ret := replicate (Z.to_nat (totalLen o rs)) (mkV 0 None) in
    if totalLen o rs =? 0 then Some ret
    else
      let l := keyLen o rs in
      ret ← nodes_loop o rs 0 l 0 (replicate (Z.to_nat l) Byte.x00) ret;
      Some (sort_ ret).

Definition newConsistInfo (o : ConsistentHashOption) (e : Result I) : option consistInfo :=
  vs ← buildVirtualNodes o (Instances e); Some (mkInfo (Instances e) vs).

Definition buildConsistResult (info : consistInfo) (key : Z) : option I :=
  let vs := virtualNodes info in
  index ← Search (lenZ vs) (fun i => v ← at_ vs i; Some (key <? hash v));
  let index := if index =? lenZ vs then 0 else index in
  v ← at_ vs index; i ← RealNode v; realNodes info !! i.

(** Result: [None] a panic, [Some None] nil. *)
Definition consist_Next (o : ConsistentHashOption) (info : consistInfo) (request : Req)
    : option (option I) :=
  match realNodes info with
  | [] => Some None
  | _ =>
      f ← GetKey o;
      let key := f request in
      if String.eqb key EmptyString then Some None
      else x ← buildConsistResult info (hashBytes (String.list_byte_of_string key)); Some (Some x)
  end.

Definition NewConsistBalancer (o : ConsistentHashOption) : option consistBalancer :=
  match GetKey o with
  | None => None
  | Some _ => if VirtualFactor o =? 0 then None else Some (mkCB ∅ o)
  end.

Definition consist_GetPicker (e : Result I) (cb : consistBalancer) : option (consistInfo * consistBalancer) :=
  if Cacheable e then
    match cachedConsistInfo cb !! CacheKey e with
    | Some ci => Some (ci, cb)
    | None =>
        ci ← newConsistInfo (opt cb) e;
        Some (ci, mkCB (<[CacheKey e := ci]> (cachedConsistInfo cb)) (opt cb))
    end
  else ci ← newConsistInfo (opt cb) e; Some (ci, cb).

Definition consist_Rebalance (c : Change I) (cb : consistBalancer) : option consistBalancer :=
  if negb (Cacheable (ChResult c)) then Some cb
  else
    ci ← newConsistInfo (opt cb) (ChResult c);
    Some (mkCB (<[CacheKey (ChResult c) := ci]> (cachedConsistInfo cb)) (opt cb)).

Definition consist_Delete (c : Change I) (cb : consistBalancer) : consistBalancer :=
  if negb (Cacheable (ChResult c)) then cb
  else mkCB (delete (CacheKey (ChResult c)) (cachedConsistInfo cb)) (opt cb).

(** * Digits *)

(** The decimal digits of [k], most significant first; none for zero. *)
Fixpoint digits_f (fuel : nat) (k : Z) : list byte :=
  match fuel with
  | O => []
  | S fuel => if 0 <? k then digits_f fuel (k / 10) ++ [Zbyte (k mod 10)] else []
  end.

Definition digits (k : Z) : list byte := digits_f (digit_fuel k) k.

Lemma digit_fuel_enough k : k < 2 ^ Z.of_nat (digit_fuel k).
Proof.
  unfold digit_fuel. rewrite Nat2Z.inj_succ, Z2Nat.id by apply Z.log2_nonneg.
  destruct (Z.leb_spec k 0); [|by apply Z.log2_spec].
  pose proof (Z.pow_pos_nonneg 2 (Z.succ (Z.log2 k)) ltac:(lia)).
  pose proof (Z.log2_nonneg k). lia.
Qed.

Lemma digits_upper fuel k n :
  0 <= k < 10 ^ Z.of_nat n -> (length (digits_f fuel k) <= n)%nat.
Proof.
  revert k n. induction fuel as [|fuel IH]; intros k n Hk; simpl; [lia|].
  destruct (Z.ltb_spec 0 k); simpl; [|lia]. destruct n as [|n].
  { simpl in Hk. lia. }
  rewrite length_app. simpl. specialize (IH (k / 10) n).
  rewrite Nat2Z.inj_succ, Z.pow_succ_r in Hk by lia.
  assert (0 <= k / 10 < 10 ^ Z.of_nat n); [|specialize (IH ltac:(done)); lia].
  split; [apply Z.div_pos; lia|apply Z.div_lt_upper_bound; lia].
Qed.

Lemma digits_lower fuel k :
  0 <= k < 2 ^ Z.of_nat fuel -> k < 10 ^ Z.of_nat (length (digits_f fuel k)).
Proof.
  revert k. induction fuel as [|fuel IH]; intros k Hk; [simpl in *; lia|].
  simpl. destruct (Z.ltb_spec 0 k); simpl; [|lia].
  rewrite length_app. simpl. rewrite Nat.add_1_r, Nat2Z.inj_succ, Z.pow_succ_r by lia.
  rewrite Nat2Z.inj_succ, Z.pow_succ_r in Hk by lia.
  assert (0 <= k / 10 < 2 ^ Z.of_nat fuel) as Hk'.
  { split; [apply Z.div_pos; lia|]. apply Z.div_lt_upper_bound; lia. }
  specialize (IH _ Hk'). pose proof (Z.div_mod k 10 ltac:(lia)).
  pose proof (Z.mod_pos_bound k 10 ltac:(lia)). lia.
Qed.

Lemma digits_mono j k : 0 <= j <= k -> (length (digits j) <= length (digits k))%nat.
Proof.
  intros Hj. apply digits_upper. split; [lia|]. unfold digits.
  pose proof (digits_lower (digit_fuel k) k). pose proof (digit_fuel_enough k). lia.
Qed.

Lemma GetUIntLen_loop_spec fuel cnt n :
  0 <= n < 2 ^ Z.of_nat fuel ->
  exists c, GetUIntLen_loop fuel cnt n = cnt + Z.of_nat c /\ n < 10 ^ Z.of_nat (S c).
Proof.
  revert cnt n. induction fuel as [|fuel IH]; intros cnt n Hn; simpl GetUIntLen_loop.
  { exists 0%nat. simpl in *. lia. }
  rewrite Nat2Z.inj_succ, Z.pow_succ_r in Hn by lia.
  destruct (Z.leb_spec 10 n); [|exists 0%nat; simpl; lia].
  destruct (IH (cnt + 1) (n / 10)) as (c & -> & Hc).
  { split; [apply Z.div_pos; lia|]. apply Z.div_lt_upper_bound; lia. }
  exists (S c). split; [lia|]. rewrite Nat2Z.inj_succ, Z.pow_succ_r by lia.
  pose proof (Z.div_mod n 10 ltac:(lia)). pose proof (Z.mod_pos_bound n 10 ltac:(lia)). lia.
Qed.

(** The serial field is wide enough for every serial number up to the maximum. *)
Lemma serial_fits j m :
  0 <= j <= m -> Z.of_nat (length (digits j)) <= GetUIntLen m.
Proof.
  intros Hj. unfold GetUIntLen.
  destruct (GetUIntLen_loop_spec (digit_fuel m) 1 m) as (c & -> & Hc).
  { pose proof (digit_fuel_enough m). lia. }
  pose proof (digits_upper (digit_fuel j) j (S c) ltac:(lia)) as Hup. unfold digits. lia.
Qed.

Lemma write_digits_spec fuel l cnt k p q :
  lenZ p = l - cnt -> (length (digits_f fuel k) <= length p)%nat ->
  write_digits fuel l cnt k (p ++ q) =
    Some (take (length p - length (digits_f fuel k)) p ++ digits_f fuel k ++ q).
Proof.
  revert cnt k p q. induction fuel as [|fuel IH]; intros cnt k p q Hl Hd.
  { simpl in *. by rewrite Nat.sub_0_r, firstn_all. }
  simpl in *. destruct (Z.ltb_spec 0 k); [|by rewrite Nat.sub_0_r, firstn_all].
  rewrite length_app in Hd. simpl in Hd. unfold lenZ in Hl.
  destruct p as [|x p _] using rev_ind; [simpl in Hd; lia|]. rewrite length_app in Hd, Hl. simpl in Hd, Hl.
  rewrite <- app_assoc. simpl. rewrite set_at_middle by (unfold lenZ; lia). simpl.
  rewrite IH by (unfold lenZ; lia). rewrite !length_app. simpl.
  rewrite take_app_le by lia. do 2 f_equal; [f_equal; lia|]. by rewrite <- app_assoc.
Qed.

(** * The hash inputs *)

(** [address # 0...0 digits], [l] bytes wide. *)
Definition vkey (l : Z) (a : list byte) (j : Z) : list byte :=
  a ++ Byte.x23 :: replicate (Z.to_nat l - 1 - length a - length (digits j)) Byte.x00 ++ digits j.

Lemma write_serial l a j m D :
  (length a + 1 + length (digits j) <= Z.to_nat l)%nat -> length D = m -> (m <= length (digits j))%nat ->
  write_digits (digit_fuel j) l 0 j
    (a ++ Byte.x23 :: replicate (Z.to_nat l - 1 - length a - m) Byte.x00 ++ D) = Some (vkey l a j).
Proof.
  intros Hl HD Hm. set (b := a ++ _).
  assert (length b = Z.to_nat l) as Hb.
  { subst b. rewrite length_app. simpl. rewrite length_app, length_replicate. lia. }
  rewrite <- (app_nil_r b). rewrite write_digits_spec; unfold lenZ; rewrite ?Hb; try lia; [|unfold digits in *; lia].
  f_equal. rewrite app_nil_r. fold (digits j). unfold vkey. subst b.
  rewrite take_app_ge by lia.
  replace (Z.to_nat l - length (digits j) - length a)%nat
    with (S (Z.to_nat l - 1 - length a - length (digits j))) by lia.
  rewrite firstn_cons, take_app_le, take_replicate, Nat.min_l by (rewrite ?length_replicate; lia).
  by rewrite <- app_assoc.
Qed.

Lemma zero_tail_spec n p q :
  length q = n -> zero_tail n (lenZ p) (p ++ q) = Some (p ++ replicate n Byte.x00).
Proof.
  revert p q. induction n as [|n IH]; intros p q Hq.
  { destruct q; [done|simpl in *; lia]. }
  destruct q as [|x q]; [simpl in *; lia|]. simpl. rewrite set_at_middle by done. simpl.
  replace (lenZ p + 1) with (lenZ (p ++ [Byte.x00])) by (unfold lenZ; rewrite length_app; simpl; lia).
  rewrite (cons_middle _ p q), app_assoc, IH by (simpl in *; lia). by rewrite <- app_assoc.
Qed.

(** The virtual nodes of one real node, as the code numbers them. *)
Definition vnodes (o : ConsistentHashOption) (l : Z) (i : nat) (x : I) : list virtualNode :=
  (fun j => mkV (hashBytes (vkey l (addr x) j)) (Some i)) <$> seqZ 0 (getVirtualNodeLen o x).

Lemma node_loop_spec n : forall j i l cur x b D pre rest,
  0 <= j -> lenZ pre = cur + j -> (n <= length rest)%nat ->
  (length (addr x) < Z.to_nat l)%nat ->
  (forall k, j <= k < j + Z.of_nat n -> (length (addr x) + 1 + length (digits k) <= Z.to_nat l)%nat) ->
  b = addr x ++ Byte.x23 :: replicate (Z.to_nat l - 1 - length (addr x) - length D) Byte.x00 ++ D ->
  (length D <= length (digits j) /\ length (addr x) + 1 + length D <= Z.to_nat l)%nat ->
  exists b', length b' = Z.to_nat l /\ node_loop n j i l cur b (pre ++ rest) =
    Some (b', pre ++ ((fun k => mkV (hashBytes (vkey l (addr x) k)) (Some i)) <$> seqZ j (Z.of_nat n))
              ++ drop n rest).
Proof.
  induction n as [|n IH]; intros j i l cur x b D pre rest Hj Hpre Hrest Ha Hfit -> [HD HDl].
  { eexists. simpl node_loop. split; [|done].
    rewrite length_app. simpl. rewrite length_app, length_replicate. lia. }
  destruct rest as [|v rest]; [simpl in *; lia|]. cbn [node_loop].
  rewrite (write_serial l (addr x) j (length D) D) by (try done; apply Hfit; lia). cbn [mbind option_bind].
  rewrite set_at_middle by done. cbn [mbind option_bind].
  rewrite (cons_middle _ pre rest), app_assoc.
  destruct (IH (j + 1) i l cur x (vkey l (addr x) j) (digits j)
    (pre ++ [mkV (hashBytes (vkey l (addr x) j)) (Some i)]) rest) as (b' & Hb' & HN).
  - lia.
  - unfold lenZ in *. rewrite length_app. simpl. lia.
  - simpl in *. lia.
  - done.
  - intros k Hk. apply Hfit. lia.
  - done.
  - split; [apply digits_mono; lia|apply Hfit; lia].
  - exists b'. split; [done|]. rewrite HN. f_equal. f_equal. rewrite <- app_assoc. f_equal.
    rewrite (seqZ_cons j (Z.of_nat (S n))) by lia.
    replace (Z.pred (Z.of_nat (S n))) with (Z.of_nat n) by lia. by rewrite <- Z.add_1_r.
Qed.

Lemma nodes_loop_spec o l rs : forall i cur b pre rest,
  0 <= l -> length b = Z.to_nat l -> lenZ pre = cur ->
  Forall (fun x => 0 <= getVirtualNodeLen o x /\ lenZ (addr x) < l /\
    forall k, 0 <= k < getVirtualNodeLen o x -> lenZ (addr x) + 1 + lenZ (digits k) <= l) rs ->
  sumZ (getVirtualNodeLen o <$> rs) = lenZ rest -> cur + lenZ rest < 2 ^ 63 ->
  nodes_loop o rs i l cur b (pre ++ rest) = Some (pre ++ concat (imap (fun k => vnodes o l (i + k)) rs)).
Proof.
  induction rs as [|x rs IH]; intros i cur b pre rest Hl Hb Hpre Hrs Hrest Hcur.
  { simpl in *. destruct rest; [done|unfold lenZ in *; simpl in *; lia]. }
  apply Forall_cons in Hrs as [(Hv & Ha & Hfit) Hrs]. rewrite fmap_cons, sumZ_cons in Hrest.
  assert (0 <= sumZ (getVirtualNodeLen o <$> rs)) as Hs.
  { apply sumZ_nonneg, Forall_fmap. eapply Forall_impl; [exact Hrs|]. by intros y (? & _). }
  set (a := addr x) in *. set (n := Z.to_nat (getVirtualNodeLen o x)).
  cbn [nodes_loop]. fold a. unfold lenZ in *. rewrite (i64_id (cur + _)) by lia. rewrite length_copy_, Hb.
  assert (exists c q, copy_ b a = a ++ c :: q /\ length q = (Z.to_nat l - 1 - length a)%nat)
    as (c & q & -> & Hq).
  { unfold copy_. rewrite take_ge by lia. destruct (drop (length a) b) as [|c q] eqn:Ed.
    - apply (f_equal length) in Ed. rewrite length_drop in Ed. simpl in Ed. lia.
    - exists c, q. split; [done|]. apply (f_equal length) in Ed. rewrite length_drop in Ed. simpl in Ed. lia. }
  rewrite (cons_middle c a q), app_assoc.
  replace (Z.of_nat (length a) + 1) with (lenZ (a ++ [c])) by (unfold lenZ; rewrite length_app; simpl; lia).
  rewrite zero_tail_spec; [|unfold lenZ; rewrite length_app; simpl; lia]. cbn [mbind option_bind].
  rewrite <- app_assoc. simpl app at 2. rewrite set_at_middle by done. cbn [mbind option_bind].
  assert (n <= length rest)%nat as Hn by (subst n; lia).
  destruct (node_loop_spec n 0 i l cur x (a ++ Byte.x23 :: replicate (Z.to_nat l - 1 - length a) Byte.x00)
    [] pre rest) as (b' & Hb' & HN); unfold lenZ; fold a; try (simpl; lia).
  - intros k Hk. specialize (Hfit k). subst n. lia.
  - simpl. by rewrite Nat.sub_0_r, app_nil_r.
  - replace (Z.to_nat (Z.of_nat (Z.to_nat l) - Z.of_nat (length (a ++ [c]))))
      with (Z.to_nat l - 1 - length a)%nat by (rewrite length_app; simpl; lia).
    fold n. rewrite HN. cbn [mbind option_bind]. rewrite app_assoc. rewrite IH; try done.
    + rewrite imap_cons. cbn [concat]. unfold vnodes at 2. rewrite Nat.add_0_r. subst n.
      rewrite Z2Nat.id by done. rewrite <- app_assoc. do 4 f_equal. apply imap_ext. intros k y _.
      simpl. f_equal. lia.
    + unfold lenZ. rewrite length_app, length_fmap, length_seqZ. lia.
    + unfold lenZ. rewrite length_drop. lia.
    + unfold lenZ. rewrite length_drop. lia.
Qed.

(** * The ring *)

(** All virtual nodes, each with the instance that owns it. *)
Definition ring (o : ConsistentHashOption) (l : Z) (xs : list I) : list (Z * I) :=
  xs ≫= fun x => (fun j => (hashBytes (vkey l (addr x) j), x)) <$> seqZ 0 (getVirtualNodeLen o x).

Lemma ring_cons o l x xs :
  ring o l (x :: xs) =
  ((fun j => (hashBytes (vkey l (addr x) j), x)) <$> seqZ 0 (getVirtualNodeLen o x)) ++ ring o l xs.
Proof. done. Qed.

Lemma ring_app o l xs ys : ring o l (xs ++ ys) = ring o l xs ++ ring o l ys.
Proof. apply bind_app. Qed.

Lemma length_ring o l xs :
  Forall (fun x => 0 <= getVirtualNodeLen o x) xs ->
  lenZ (ring o l xs) = sumZ (getVirtualNodeLen o <$> xs).
Proof.
  induction 1 as [|x xs Hx _ IH]; [done|]. rewrite ring_cons, fmap_cons, sumZ_cons.
  unfold lenZ in *. rewrite length_app, length_fmap, length_seqZ. lia.
Qed.

Definition resolve (xs : list I) (v : virtualNode) : option (Z * I) :=
  i ← RealNode v; x ← xs !! i; Some (hash v, x).

Lemma resolve_vnodes o l xs ys i :
  (forall k y, ys !! k = Some y -> xs !! (i + k)%nat = Some y) ->
  resolve xs <$> concat (imap (fun k => vnodes o l (i + k)) ys) = Some <$> ring o l ys.
Proof.
  revert i. induction ys as [|y ys IH]; intros i Hys; [done|].
  rewrite imap_cons. cbn [concat]. rewrite ring_cons, !fmap_app. f_equal.
  - unfold vnodes. rewrite <- !list_fmap_compose. apply list_fmap_ext. intros k j _. simpl.
    unfold resolve. simpl. by rewrite (Hys 0%nat y eq_refl).
  - rewrite <- (IH (S i)).
    + do 2 f_equal. apply imap_ext. intros k z _. simpl. f_equal. lia.
    + intros k z Hk. rewrite <- (Hys (S k) z Hk). f_equal. lia.
Qed.

Lemma foldl_max (f : I -> Z) xs m :
  let r := foldl (fun m x => if m <? f x then f x else m) m xs in
  m <= r /\ forall x, x ∈ xs -> f x <= r.
Proof.
  revert m. induction xs as [|x xs IH]; intros m; simpl; [split; [lia|by intros x ?%not_elem_of_nil]|].
  destruct (IH (if m <? f x then f x else m)) as [H1 H2].
  destruct (m <? f x) eqn:E; bool_to_prop; (split; [lia|]); intros y [->|Hy]%elem_of_cons; eauto; lia.
Qed.

(** No instance has a negative number of virtual nodes, and the array of all of them can be
    allocated. *)
Definition lens_ok (o : ConsistentHashOption) (rs : list I) : Prop :=
  Forall (fun x => 0 <= getVirtualNodeLen o x) rs /\ sumZ (getVirtualNodeLen o <$> rs) <= 2 ^ 44.

Lemma lens_nonneg o rs : lens_ok o rs -> 0 <= sumZ (getVirtualNodeLen o <$> rs).
Proof. intros [Hn _]. by apply sumZ_nonneg, Forall_fmap. Qed.

Lemma totalLen_sum o rs : lens_ok o rs -> totalLen o rs = sumZ (getVirtualNodeLen o <$> rs).
Proof.
  intros [Hok Hs]. unfold totalLen. cut (forall g, 0 <= g -> g + sumZ (getVirtualNodeLen o <$> rs) < 2 ^ 63 ->
    foldl (fun t x => i64 (t + getVirtualNodeLen o x)) g rs = g + sumZ (getVirtualNodeLen o <$> rs)).
  { intros Hn. rewrite Hn; lia. }
  clear Hs. induction Hok as [|x rs Hx Hok IH]; intros g Hg Hs; [simpl; lia|].
  assert (0 <= sumZ (getVirtualNodeLen o <$> rs)) by (by apply sumZ_nonneg, Forall_fmap).
  rewrite fmap_cons, sumZ_cons in *. simpl foldl. rewrite i64_id, IH by lia. lia.
Qed.

(** The buffer version builds exactly the virtual nodes of the ring, sorted. *)
Lemma buildVirtualNodes_spec o rs :
  lens_ok o rs ->
  exists vs, buildVirtualNodes o rs = Some vs /\ StronglySorted Z.le (hash <$> vs) /\
    resolve rs <$> vs ≡ₚ Some <$> ring o (keyLen o rs) rs.
Proof.
  intros Hlens. unfold buildVirtualNodes. rewrite totalLen_sum by done.
  pose proof (lens_nonneg o rs Hlens) as Hs. destruct Hlens as [Hok Hmax].
  unfold make_ok. rewrite (proj2 (Z.leb_le 0 _)), (proj2 (Z.leb_le _ (2 ^ 48))) by lia. cbn [andb negb].
  pose proof (resolve_vnodes o (keyLen o rs) rs rs 0 ltac:(done)) as Hres.
  assert (nodes_loop o rs 0 (keyLen o rs) 0 (replicate (Z.to_nat (keyLen o rs)) Byte.x00)
    (replicate (Z.to_nat (sumZ (getVirtualNodeLen o <$> rs))) (mkV 0 None)) =
    Some (concat (imap (fun k => vnodes o (keyLen o rs) (0 + k)) rs))) as Hn.
  { destruct (foldl_max (fun x => lenZ (addr x)) rs 0) as [HL0 HL].
    destruct (foldl_max (getVirtualNodeLen o) rs 0) as [HS0 HS].
    fold (maxLen rs) in HL0, HL. fold (maxSerial o rs) in HS0, HS.
    pose proof (serial_fits 0 (maxSerial o rs) ltac:(lia)) as H0s.
    apply (nodes_loop_spec o (keyLen o rs) rs 0 0 _ []); unfold keyLen, lenZ in *; try done.
    - lia.
    - by rewrite length_replicate.
    - apply Forall_forall. intros x Hx. rewrite Forall_forall in Hok.
      specialize (Hok x Hx). specialize (HL x Hx). specialize (HS x Hx). split_and!; [done|lia|].
      intros k Hk. pose proof (serial_fits k (maxSerial o rs) ltac:(lia)). lia.
    - rewrite length_replicate. lia.
    - rewrite length_replicate. lia. }
  destruct (Z.eqb_spec (sumZ (getVirtualNodeLen o <$> rs)) 0) as [E|E].
  - rewrite E in *. eexists. split; [done|]. split; [simpl; constructor|].
    pose proof (length_ring o (keyLen o rs) rs Hok) as Hlen. rewrite E in Hlen.
    by destruct (ring o (keyLen o rs) rs); [|unfold lenZ in Hlen; simpl in Hlen; lia].
  - rewrite Hn. simpl. eexists. split; [done|]. split; [apply sort_sorted|].
    rewrite sort_perm. by rewrite <- Hres.
Qed.

(** * Search *)

Lemma Search_loop_spec (f : Z -> option bool) g n fuel : forall i j,
  (forall h, 0 <= h < n -> f h = Some (g h)) ->
  (forall h k, 0 <= h <= k -> k < n -> g h = true -> g k = true) ->
  0 <= i <= j -> j <= n -> j - i <= Z.of_nat fuel ->
  (forall h, 0 <= h < i -> g h = false) -> (forall h, j <= h < n -> g h = true) ->
  exists k, Search_loop fuel f i j = Some k /\ 0 <= k <= n /\
    (forall h, 0 <= h < k -> g h = false) /\ (forall h, k <= h < n -> g h = true).
Proof.
  induction fuel as [|fuel IH]; intros i j Hf Hg Hij Hj Hfu Hlo Hhi; simpl.
  { exists i. replace j with i in * by lia. split_and!; try done; lia. }
  destruct (Z.ltb_spec i j); [|exists i; replace j with i in * by lia; split_and!; try done; lia].
  rewrite Z.shiftr_div_pow2, Z.pow_1_r by lia. set (h := (i + j) / 2).
  assert (i <= h < j) as Hh.
  { subst h. split; [apply Z.div_le_lower_bound|apply Z.div_lt_upper_bound]; lia. }
  rewrite Hf by lia. cbn [mbind option_bind]. destruct (g h) eqn:Eg; simpl.
  - apply IH; try done; try lia. intros k Hk. apply (Hg h k); [lia|lia|done].
  - apply IH; try done; try lia. intros k Hk. destruct (g k) eqn:Ek; [|done].
    assert (g h = true); [|congruence]. apply (Hg k h); [lia|lia|done].
Qed.

(** The successor of [key] on a ring: the least hash above it, or else the least of all. *)
Definition successor (ps : list (Z * I)) (key : Z) (p : Z * I) : Prop :=
  p ∈ ps /\
  ((key < fst p /\ forall q, q ∈ ps -> key < fst q -> fst p <= fst q) \/
   ((forall q, q ∈ ps -> fst q <= key) /\ forall q, q ∈ ps -> fst p <= fst q)).

Lemma sorted_lookup (vs : list virtualNode) i j v w :
  StronglySorted Z.le (hash <$> vs) -> vs !! i = Some v -> vs !! j = Some w -> (i <= j)%nat ->
  hash v <= hash w.
Proof.
  intros Hs. revert i j. induction vs as [|u vs IH]; intros i j Hi Hj Hij; [done|].
  rewrite fmap_cons in Hs. apply StronglySorted_inv in Hs as [Hs Hall]. rewrite Forall_fmap, Forall_forall in Hall.
  destruct i as [|i], j as [|j]; simplify_eq/=; try lia.
  - apply Hall. by apply list_elem_of_lookup_2 in Hj.
  - apply (IH Hs i j); try done. lia.
Qed.

(** Positions of the sorted array and points of the ring correspond. *)
Lemma ring_nodes o l rs vs :
  resolve rs <$> vs ≡ₚ Some <$> ring o l rs ->
  (forall v, v ∈ vs -> exists i x, RealNode v = Some i /\ rs !! i = Some x /\ (hash v, x) ∈ ring o l rs) /\
  (forall q, q ∈ ring o l rs -> exists k v, vs !! k = Some v /\ hash v = fst q).
Proof.
  intros Hp. set (R := ring o l rs) in *.
  assert (forall v, v ∈ vs -> exists i x, RealNode v = Some i /\ rs !! i = Some x /\ (hash v, x) ∈ R) as Hv.
  { intros v Hv. assert (resolve rs v ∈ Some <$> R) as Hin by (rewrite <- Hp; by apply list_elem_of_fmap_2).
    apply list_elem_of_fmap in Hin as ([h x] & Hr & Hin). unfold resolve in Hr.
    destruct (RealNode v) as [i|] eqn:Ei; [|done]. simpl in Hr. destruct (rs !! i) as [y|] eqn:Ey; [|done].
    simplify_eq/=. by exists i, x. }
  split; [done|]. intros q Hq.
  assert (Some q ∈ resolve rs <$> vs) as Hin by (rewrite Hp; by apply list_elem_of_fmap_2).
  apply list_elem_of_fmap in Hin as (v & Hr & Hin). apply list_elem_of_lookup in Hin as [k Hk].
  exists k, v. split; [done|]. destruct (Hv v) as (i & x & Hi & Hx & _); [by eapply list_elem_of_lookup_2|].
  unfold resolve in Hr. rewrite Hi in Hr. simpl in Hr. rewrite Hx in Hr. by simplify_eq/=.
Qed.

(** The binary search finds the first hash above the key. *)
Lemma Search_hash vs key :
  StronglySorted Z.le (hash <$> vs) ->
  exists k, Search (lenZ vs) (fun i => v ← at_ vs i; Some (key <? hash v)) = Some k /\ 0 <= k <= lenZ vs /\
    (forall m v, vs !! m = Some v -> if decide (Z.of_nat m < k) then hash v <= key else key < hash v).
Proof.
  intros Hs. set (g := fun i => match vs !! Z.to_nat i with Some v => key <? hash v | None => true end).
  destruct (Search_loop_spec (fun i => v ← at_ vs i; Some (key <? hash v)) g (lenZ vs)
    (Z.to_nat (lenZ vs)) 0 (lenZ vs)) as (k & Hk & Hkr & Hlo & Hhi); try (unfold lenZ in *; lia).
  { intros h Hh. subst g. destruct (proj2 (at_is_Some vs h) Hh) as [v Hat]. rewrite Hat. simpl.
    rewrite at_lookup in Hat by lia. by rewrite Hat. }
  { intros h j Hh Hj. subst g. simpl.
    destruct (vs !! Z.to_nat j) as [w|] eqn:Ew; [|done].
    destruct (vs !! Z.to_nat h) as [v|] eqn:Ev; intros E; bool_to_prop.
    - pose proof (sorted_lookup vs _ _ v w Hs Ev Ew ltac:(lia)). lia.
    - apply lookup_ge_None in Ev. apply lookup_lt_Some in Ew. lia. }
  exists k. split; [exact Hk|]. split; [done|]. intros m v Hm.
  pose proof (lookup_lt_Some _ _ _ Hm) as Hml.
  case_decide; [specialize (Hlo (Z.of_nat m) ltac:(lia))|
                specialize (Hhi (Z.of_nat m) ltac:(unfold lenZ; lia))]; subst g; simpl in *;
    rewrite Nat2Z.id, Hm in *; bool_to_prop; lia.
Qed.

Lemma buildConsistResult_spec o rs vs key :
  resolve rs <$> vs ≡ₚ Some <$> ring o (keyLen o rs) rs -> StronglySorted Z.le (hash <$> vs) ->
  ring o (keyLen o rs) rs <> [] ->
  exists h x, buildConsistResult (mkInfo rs vs) key = Some x /\
    successor (ring o (keyLen o rs) rs) key (h, x).
Proof.
  intros Hp Hs Hne. destruct (ring_nodes _ _ _ _ Hp) as [Hv HR].
  set (R := ring o (keyLen o rs) rs) in *.
  assert (0 < lenZ vs) as Hlen.
  { destruct vs; [|unfold lenZ; simpl; lia]. destruct R as [|q R']; [done|].
    destruct (HR q (list_elem_of_here q R')) as (k & v & Hk & _). done. }
  destruct (Search_hash vs key Hs) as (k & Hk & Hkr & Hspl).
  unfold buildConsistResult. cbn [virtualNodes realNodes]. rewrite Hk. cbn [mbind option_bind].
  set (idx := if k =? lenZ vs then 0 else k).
  assert (0 <= idx < lenZ vs) as Hidx by (subst idx; destruct (Z.eqb_spec k (lenZ vs)); lia).
  destruct (proj2 (at_is_Some vs idx) Hidx) as [v Hat]. rewrite Hat. rewrite at_lookup in Hat by lia.
  cbn [mbind option_bind]. destruct (Hv v) as (i & x & Hi & Hx & Hin); [by eapply list_elem_of_lookup_2|].
  exists (hash v), x. rewrite Hi. simpl. split; [done|]. split; [done|]. simpl.
  subst idx. destruct (Z.eqb_spec k (lenZ vs)) as [E|E].
  - right. split; intros q Hq; destruct (HR q Hq) as (m & w & Hm & <-).
    + specialize (Hspl m w Hm). pose proof (lookup_lt_Some _ _ _ Hm).
      rewrite decide_True in Hspl; [done|unfold lenZ in *; lia].
    + apply (sorted_lookup vs _ _ v w Hs Hat Hm). lia.
  - left. split.
    + specialize (Hspl _ v Hat). by rewrite decide_False in Hspl by lia.
    + intros q Hq Hlt. destruct (HR q Hq) as (m & w & Hm & Hw). rewrite <- Hw in *.
      apply (sorted_lookup vs _ _ v w Hs Hat Hm). specialize (Hspl m w Hm).
      case_decide; lia.
Qed.

(** * The theorems *)

Lemma consist_lookup o e :
  lens_ok o (Instances e) ->
  exists ci, newConsistInfo o e = Some ci /\ realNodes ci = Instances e /\
    (ring o (keyLen o (Instances e)) (Instances e) <> [] -> forall key,
      exists h x, buildConsistResult ci key = Some x /\
        successor (ring o (keyLen o (Instances e)) (Instances e)) key (h, x)).
Proof.
  intros Hok. destruct (buildVirtualNodes_spec o (Instances e) Hok) as (vs & Hb & Hs & Hp).
  unfold newConsistInfo. rewrite Hb. simpl. eexists. split; [done|]. split; [done|].
  intros Hne key. by apply buildConsistResult_spec.
Qed.

Lemma consist_owner o e f req :
  GetKey o = Some f -> f req <> EmptyString ->
  lens_ok o (Instances e) -> 0 < totalLen o (Instances e) ->
  exists ci h x, newConsistInfo o e = Some ci /\ consist_Next o ci req = Some (Some x) /\
    successor (ring o (keyLen o (Instances e)) (Instances e))
      (hashBytes (String.list_byte_of_string (f req))) (h, x).
Proof.
  intros Hk Hne Hok Htot. destruct (consist_lookup o e Hok) as (ci & Hci & Hr & Hl).
  pose proof (length_ring o (keyLen o (Instances e)) (Instances e) (proj1 Hok)) as Hlen.
  rewrite <- totalLen_sum in Hlen by done.
  destruct (Hl ltac:(intros E; rewrite E in Hlen; unfold lenZ in Hlen; simpl in Hlen; lia)
    (hashBytes (String.list_byte_of_string (f req)))) as (h & x & Hb & Hs).
  exists ci, h, x. split; [done|]. split; [|done]. unfold consist_Next. rewrite Hr, Hk.
  destruct (Instances e); [unfold totalLen in Htot; simpl in Htot; lia|]. cbn [mbind option_bind].
  rewrite (proj2 (String.eqb_neq _ _) Hne), Hb. done.
Qed.

(** Without virtual nodes there is no owner: the array index panics. *)
Lemma consist_no_virtual_nodes o e f req :
  GetKey o = Some f -> f req <> EmptyString -> Instances e <> [] -> totalLen o (Instances e) = 0 ->
  exists ci, newConsistInfo o e = Some ci /\ consist_Next o ci req = None.
Proof.
  intros Hk Hne Hi Ht. unfold newConsistInfo, buildVirtualNodes. rewrite Ht. simpl.
  eexists. split; [done|]. unfold consist_Next. simpl. destruct (Instances e); [done|].
  rewrite Hk. simpl. by rewrite (proj2 (String.eqb_neq _ _) Hne).
Qed.

Lemma successor_unique ps key p q :
  NoDup (fst <$> ps) -> successor ps key p -> successor ps key q -> p = q.
Proof.
  intros Hnd [Hp [[Hp1 Hp2]|[Hp1 Hp2]]] [Hq [[Hq1 Hq2]|[Hq1 Hq2]]].
  all: assert (fst p = fst q) as E.
  all: try (apply Z.le_antisymm; by auto).
  all: try (specialize (Hp1 q Hq); lia).
  all: try (specialize (Hq1 p Hp); lia).
  all: apply list_elem_of_lookup in Hp as [i Hi]; apply list_elem_of_lookup in Hq as [j Hj];
    assert (i = j) as -> by (eapply (NoDup_lookup _ _ _ (fst p) Hnd); rewrite list_lookup_fmap;
      [by rewrite Hi|by rewrite Hj, E]); congruence.
Qed.

Lemma successor_sub ps qs key p :
  (forall q, q ∈ qs -> q ∈ ps) -> p ∈ qs -> successor ps key p -> successor qs key p.
Proof.
  intros Hsub Hp [_ [[H1 H2]|[H1 H2]]]; (split; [done|]); [left|right]; split; auto.
Qed.

Lemma lens_remove o l x r :
  lens_ok o (l ++ x :: r) -> lens_ok o (l ++ r) /\ totalLen o (l ++ r) <= totalLen o (l ++ x :: r).
Proof.
  intros Hok. pose proof Hok as [Hall Hs].
  assert (lens_ok o (l ++ r)) as Hok'.
  { apply Forall_app in Hall as [Hl [Hx Hr]%Forall_cons]. split; [by apply Forall_app|].
    rewrite fmap_app, sumZ_app in *. rewrite fmap_cons, sumZ_cons in Hs. lia. }
  split; [done|]. rewrite !totalLen_sum by done. rewrite !fmap_app, !sumZ_app, fmap_cons, sumZ_cons.
  apply Forall_app in Hall as [_ [Hx _]%Forall_cons]. lia.
Qed.

(** The owner of a request is its successor on the ring.  With non-negative numbers of
    virtual nodes, at most 2^44 in all, the
    ring is built without a panic from the reused buffer, and for a request with a
    non-empty key [Next] returns the instance that owns the least virtual-node hash above
    the key's hash, or the least of all when there is none above. *)
Theorem consist_owner_is_successor o e f req :
  GetKey o = Some f -> f req <> EmptyString ->
  lens_ok o (Instances e) -> 0 < totalLen o (Instances e) ->
  exists ci h x, newConsistInfo o e = Some ci /\ consist_Next o ci req = Some (Some x) /\
    successor (ring o (keyLen o (Instances e)) (Instances e))
      (hashBytes (String.list_byte_of_string (f req))) (h, x).
Proof. apply consist_owner. Qed.

(** C10: removing an instance only moves that instance's keys.  When no instance has a
    negative number of virtual nodes (its weight times the factor, in an int), there are at
    most 2^44 of them and some remain after the removal, the removal leaves the width of the
    hash input unchanged, and virtual-node hashes are distinct, both rings are built, and
    every request with a non-empty key that was not owned by the removed instance keeps its
    owner. *)
Theorem consist_removal_is_minimal o ck l x r f req y :
  GetKey o = Some f -> f req <> EmptyString ->
  lens_ok o (l ++ x :: r) -> 0 < totalLen o (l ++ r) ->
  keyLen o (l ++ r) = keyLen o (l ++ x :: r) ->
  NoDup (fst <$> ring o (keyLen o (l ++ x :: r)) (l ++ x :: r)) ->
  exists before after, newConsistInfo o (mkResult true ck (l ++ x :: r)) = Some before /\
    newConsistInfo o (mkResult true ck (l ++ r)) = Some after /\
    (consist_Next o before req = Some (Some y) ->
     y = x \/ consist_Next o after req = Some (Some y)).
Proof.
  intros Hk Hne Hok Htot Hl Hnd. destruct (lens_remove o l x r Hok) as [Hok' Hle].
  set (before := mkResult true ck (l ++ x :: r)). set (after := mkResult true ck (l ++ r)).
  destruct (consist_owner o before f req Hk Hne) as (cb & h & z & Hcb & HN & HS); [done|simpl; lia|].
  destruct (consist_owner o after f req Hk Hne) as (ca & h' & z' & Hca & HN' & HS'); [done|done|].
  exists cb, ca. split; [done|]. split; [done|]. intros Hy. rewrite HN in Hy. simplify_eq.
  simpl in *. rewrite Hl in HS'. set (L := keyLen o (l ++ x :: r)) in *.
  rewrite ring_app, ring_cons in HS, Hnd. rewrite ring_app in HS'.
  set (X := _ <$> seqZ 0 _) in *.
  destruct HS as [Hin HS]. apply elem_of_app in Hin as Hin2. rewrite elem_of_app in Hin2.
  destruct Hin2 as [Hi|[Hi|Hi]].
  2: { left. subst X. apply list_elem_of_fmap in Hi as (j & Hj & _). congruence. }
  all: right; rewrite HN'; do 2 f_equal.
  all: assert ((h, y) = (h', z')) as E; [|congruence].
  all: eapply successor_unique; [|eapply successor_sub; [| |split; [exact Hin|exact HS]]|exact HS'].
  all: try (intros q; rewrite !elem_of_app; tauto).
  all: try (rewrite !elem_of_app; tauto).
  all: rewrite !fmap_app in *; eapply sublist_NoDup; [exact Hnd|].
  all: apply sublist_app; [done|]; by apply sublist_inserts_l.
Qed.

End consist.

Arguments ConsistentHashOption : clear implicits.
Arguments consistInfo : clear implicits.
Arguments consistBalancer : clear implicits.

(** * A concrete ring *)

Definition hash_le (v w : virtualNode) : Prop := hash v <= hash w.
#[export] Instance hash_le_dec v w : Decision (hash_le v w) := decide (hash v <= hash w).
#[export] Instance hash_le_total : Total hash_le.
Proof. intros v w. unfold hash_le. lia. Qed.
#[export] Instance hash_le_trans : Transitive hash_le.
Proof. intros u v w. unfold hash_le. lia. Qed.

#[export] Instance merge_sorter : Sorter.
Proof.
  refine {| sort_ := merge_sort hash_le |}.
  - intros vs. apply merge_sort_Permutation.
  - intros vs. pose proof (StronglySorted_merge_sort hash_le vs) as Hs.
    induction Hs as [|v vs' _ IH Hall]; [constructor|].
    rewrite fmap_cons. constructor; [done|]. apply Forall_fmap. exact Hall.
Defined.

(** A polynomial hash, for evaluation. *)
#[export] Instance poly_hasher : Hasher :=
  {| hashBytes := fun b => u64 (foldl (fun h b => h * 131 + byteZ b + 7) 17 b);
     hash_range := fun b => Z.mod_pos_bound _ (2 ^ 64) eq_refl |}.

Definition sample_option : ConsistentHashOption string := mkOption (Some (fun r => r)) 0 3 false 0.
Definition sample_hosts : list (string * Z) := [("a1"%string, 1); ("b2"%string, 0); ("c3"%string, 2)].

Lemma consist_owner_is_successor_witness :
  exists ci h x, newConsistInfo sample_option (mkResult true "svc" sample_hosts) = Some ci /\
    consist_Next sample_option ci "user-7"%string = Some (Some x) /\
    successor (ring sample_option (keyLen sample_option sample_hosts) sample_hosts)
      (hashBytes (String.list_byte_of_string "user-7")) (h, x).
Proof.
  apply (consist_owner_is_successor sample_option (mkResult true "svc" sample_hosts) (fun r => r)).
  - reflexivity.
  - discriminate.
  - split; [repeat constructor|]; vm_compute; congruence.
  - reflexivity.
Defined.

Lemma consist_removal_is_minimal_witness :
  exists before after,
    newConsistInfo sample_option (mkResult true "svc" sample_hosts) = Some before /\
    newConsistInfo sample_option (mkResult true "svc" [("a1"%string, 1); ("c3"%string, 2)]) = Some after /\
    (consist_Next sample_option before "user-7"%string = Some (Some ("a1"%string, 1)) ->
     ("a1"%string, 1) = ("b2"%string, 0) \/
     consist_Next sample_option after "user-7"%string = Some (Some ("a1"%string, 1))).
Proof.
  apply (consist_removal_is_minimal sample_option "svc" [("a1"%string, 1)] ("b2"%string, 0)
    [("c3"%string, 2)] (fun r => r)).
  - reflexivity.
  - discriminate.
  - split; [repeat constructor|]; vm_compute; congruence.
  - reflexivity.
  - reflexivity.
  - eapply (bool_decide_unpack (NoDup _)). vm_compute. exact Logic.I.
Defined.
