(* ===== verification/GoText.v ===== *)
(** The parts of Go's standard library that the text codecs of the source use, on strings as
    byte lists: strconv, unicode/utf8, encoding/base64 and the [strings] predicates, with
    the round trips the codecs rely on. *)

From S2P Require Import Prelude.

Abbreviation text := (list byte).

Definition bs (s : string) : text := String.list_byte_of_string s.

Definition text_eqb (a b : text) : bool := bool_decide (a = b).

(** [strings.HasPrefix], [strings.HasSuffix] *)
Fixpoint HasPrefix (s p : text) : bool :=
  match p, s with
  | [], _ => true
  | c :: p, d :: s => Byte.eqb c d && HasPrefix s p
  | _ :: _, [] => false
  end.

Definition HasSuffix (s p : text) : bool := HasPrefix (rev s) (rev p).

(** * strconv *)

(** The value of a digit in base 10 or 16. *)
Definition digit (base : Z) (c : byte) : option Z :=
  let z := byteZ c in
  let d := if (48 <=? z) && (z <=? 57) then z - 48
           else if (97 <=? z) && (z <=? 122) then z - 97 + 10
           else if (65 <=? z) && (z <=? 90) then z - 65 + 10
           else base in
  if d <? base then Some d else None.

Fixpoint ParseUint_loop (base max acc : Z) (s : text) : option Z :=
  match s with
  | [] => Some acc
  | c :: s =>
      d ← digit base c;
      let n := acc * base + d in
      if max <? n then None else ParseUint_loop base max n s
  end.

(** [strconv.ParseUint(s, base, bits)]; [None] is a syntax or range error. *)
Definition ParseUint (base bits : Z) (s : text) : option Z :=
  match s with [] => None | _ => ParseUint_loop base (2 ^ bits - 1) 0 s end.

(** [strconv.ParseInt(s, 10, 64)] and, on 64-bit machines, [strconv.Atoi(s)]. *)
Definition ParseInt (s : text) : option Z :=
  match s with
  | [] => None
  | c :: s' =>
      let neg := byteZ c =? 45 in
      let body := if (byteZ c =? 43) || (byteZ c =? 45) then s' else s in
      un ← ParseUint 10 64 body;
      if negb neg && (2 ^ 63 <=? un) then None
      else if neg && (2 ^ 63 <? un) then None
      else Some (if neg then - un else un)
  end.

Fixpoint dec_f (fuel : nat) (z : Z) : text :=
  match fuel with
  | O => []
  | S fuel => (if z <? 10 then [] else dec_f fuel (z / 10)) ++ [Zbyte (48 + z mod 10)]
  end.

(** [strconv.FormatInt(z, 10)] *)
Definition FormatInt (z : Z) : text :=
  if z <? 0 then Zbyte 45 :: dec_f (S (Z.to_nat (Z.log2 (- z)))) (- z)
  else dec_f (S (Z.to_nat (Z.log2 z))) z.

Lemma digit_10 d : 0 <= d < 10 -> digit 10 (Zbyte (48 + d)) = Some d.
Proof.
  intros Hd. unfold digit. rewrite byteZ_Zbyte, Z.mod_small by lia.
  destruct (Z.leb_spec 48 (48 + d)); [|lia]. destruct (Z.leb_spec (48 + d) 57); [|lia]. simpl.
  destruct (Z.ltb_spec (48 + d - 48) 10); [|lia]. f_equal. lia.
Qed.

Lemma ParseUint_loop_app base max a s t :
  ParseUint_loop base max a (s ++ t) = (b ← ParseUint_loop base max a s; ParseUint_loop base max b t).
Proof.
  revert a. induction s as [|c s IH]; intros a; [done|]. simpl.
  destruct (digit base c); simpl; [|done]. by case_match.
Qed.

Lemma dec_f_parse fuel z max :
  0 <= z < 2 ^ Z.of_nat fuel -> z <= max ->
  dec_f fuel z <> [] /\ ParseUint_loop 10 max 0 (dec_f fuel z) = Some z \/ fuel = O.
Proof.
  revert z. induction fuel as [|fuel IH]; intros z Hz Hm; [by right|left].
  split; [simpl; by destruct (if z <? 10 then [] else dec_f fuel (z / 10))|].
  rewrite Nat2Z.inj_succ, Z.pow_succ_r in Hz by lia.
  pose proof (Z.div_mod z 10 ltac:(lia)). pose proof (Z.mod_pos_bound z 10 ltac:(lia)).
  assert (forall a, a * 10 + z mod 10 = z -> ParseUint_loop 10 max a [Zbyte (48 + z mod 10)] = Some z) as Hlast.
  { intros a Ha. simpl. rewrite digit_10 by lia. simpl. rewrite Ha.
    by destruct (Z.ltb_spec max z); [lia|]. }
  simpl dec_f. rewrite ParseUint_loop_app. destruct (Z.ltb_spec z 10).
  - simpl ParseUint_loop at 1. cbn [mbind option_bind]. apply Hlast.
    rewrite Z.mod_small by lia. lia.
  - destruct (IH (z / 10)) as [[_ ->]| ->].
    + split; [apply Z.div_pos; lia|apply Z.div_lt_upper_bound; lia].
    + lia.
    + cbn [mbind option_bind]. apply Hlast. lia.
    + simpl in Hz. lia.
Qed.

Lemma log2_fuel z : 0 <= z -> z < 2 ^ Z.of_nat (S (Z.to_nat (Z.log2 z))).
Proof.
  intros Hz. rewrite Nat2Z.inj_succ, Z2Nat.id by apply Z.log2_nonneg.
  destruct (Z.eq_dec z 0) as [->|]; [by vm_compute|]. apply Z.log2_spec. lia.
Qed.

Lemma dec_f_head fuel z : 0 <= z -> Forall (fun c => 48 <= byteZ c <= 57) (dec_f fuel z).
Proof.
  revert z. induction fuel as [|fuel IH]; intros z Hz; simpl; [done|]. apply Forall_app. split.
  - destruct (z <? 10); [done|]. apply IH. by apply Z.div_pos; lia.
  - constructor; [|done]. pose proof (Z.mod_pos_bound z 10 ltac:(lia)).
    rewrite byteZ_Zbyte, Z.mod_small; lia.
Qed.

Lemma length_dec_f fuel z n : 0 <= z < 10 ^ Z.of_nat n -> (0 < n)%nat -> (length (dec_f fuel z) <= n)%nat.
Proof.
  revert z n. induction fuel as [|fuel IH]; intros z n Hz Hn; simpl; [lia|].
  rewrite length_app. simpl. destruct (Z.ltb_spec z 10); simpl; [lia|].
  destruct n as [|[|n]]; [lia|simpl in Hz; lia|].
  assert (0 <= z / 10 < 10 ^ Z.of_nat (S n)) as Hd.
  { rewrite (Nat2Z.inj_succ (S n)), Z.pow_succ_r in Hz by lia.
    split; [apply Z.div_pos; lia|apply Z.div_lt_upper_bound; lia]. }
  specialize (IH (z / 10) (S n) Hd). lia.
Qed.

Lemma ParseUint_dec_f z :
  0 <= z < 2 ^ 64 -> let s := dec_f (S (Z.to_nat (Z.log2 z))) z in
  ParseUint 10 64 s = Some z /\ exists c s', s = c :: s' /\ 48 <= byteZ c <= 57.
Proof.
  intros Hz. pose proof (log2_fuel z ltac:(lia)) as Hf. set (fuel := S _) in *.
  destruct (dec_f_parse fuel z (2 ^ 64 - 1)) as [[Hne Hp]|]; [lia|lia| |done].
  pose proof (dec_f_head fuel z ltac:(lia)) as Hd. cbv zeta.
  destruct (dec_f fuel z) as [|c s] eqn:E; [done|]. apply Forall_cons in Hd as [Hc _]. split; [done|eauto].
Qed.

Lemma ParseInt_FormatInt z : - 2 ^ 63 <= z < 2 ^ 63 -> ParseInt (FormatInt z) = Some z.
Proof.
  intros Hz. unfold FormatInt. destruct (Z.ltb_spec z 0).
  - destruct (ParseUint_dec_f (- z) ltac:(lia)) as [Hp _]. cbn [ParseInt]. change (byteZ (Zbyte 45)) with 45. cbn [Z.eqb Pos.eqb orb].
    rewrite Hp. cbn [mbind option_bind negb andb]. destruct (Z.ltb_spec (2 ^ 63) (- z)); [lia|]. f_equal. lia.
  - destruct (ParseUint_dec_f z ltac:(lia)) as (Hp & c & s & E & Hc). cbv zeta in *. rewrite E in *.
    unfold ParseInt. destruct (Z.eqb_spec (byteZ c) 43); [lia|]. destruct (Z.eqb_spec (byteZ c) 45); [lia|].
    simpl orb. cbn iota. rewrite Hp. cbn [mbind option_bind negb andb].
    by destruct (Z.leb_spec (2 ^ 63) z); [lia|].
Qed.

(** * unicode/utf8 *)

Definition RuneError : Z := 65533.

Definition within (lo : Z) (b : byte) (hi : Z) : bool := (lo <=? byteZ b) && (byteZ b <=? hi).

(** [utf8.DecodeRuneInString]: the rune and its width. *)
Definition DecodeRune (s : text) : Z * nat :=
  match s with
  | [] => (RuneError, 0%nat)
  | b0 :: t =>
      let z := byteZ b0 in
      if z <? 128 then (z, 1%nat)
      else if within 194 b0 223 then
        match t with
        | b1 :: _ =>
            if within 128 b1 191 then ((z - 192) * 64 + (byteZ b1 - 128), 2%nat) else (RuneError, 1%nat)
        | [] => (RuneError, 1%nat)
        end
      else if within 224 b0 239 then
        match t with
        | b1 :: b2 :: _ =>
            if within (if z =? 224 then 160 else 128) b1 (if z =? 237 then 159 else 191) && within 128 b2 191
            then ((z - 224) * 4096 + (byteZ b1 - 128) * 64 + (byteZ b2 - 128), 3%nat)
            else (RuneError, 1%nat)
        | _ => (RuneError, 1%nat)
        end
      else if within 240 b0 244 then
        match t with
        | b1 :: b2 :: b3 :: _ =>
            if within (if z =? 240 then 144 else 128) b1 (if z =? 244 then 143 else 191)
               && within 128 b2 191 && within 128 b3 191
            then ((z - 240) * 262144 + (byteZ b1 - 128) * 4096 + (byteZ b2 - 128) * 64 + (byteZ b3 - 128), 4%nat)
            else (RuneError, 1%nat)
        | _ => (RuneError, 1%nat)
        end
      else (RuneError, 1%nat)
  end.

(** Surrogates and values out of range are replaced. *)
Definition rune_or_error (r : Z) : Z :=
  if (r <? 0) || (1114111 <? r) || ((55296 <=? r) && (r <=? 57343)) then RuneError else r.

(** [string(r)] *)
Definition EncodeRune (r : Z) : text :=
  let r := rune_or_error r in
  if r <=? 127 then [Zbyte r]
  else if r <=? 2047 then [Zbyte (192 + r / 64); Zbyte (128 + r mod 64)]
  else if r <=? 65535 then [Zbyte (224 + r / 4096); Zbyte (128 + (r / 64) mod 64); Zbyte (128 + r mod 64)]
  else [Zbyte (240 + r / 262144); Zbyte (128 + (r / 4096) mod 64); Zbyte (128 + (r / 64) mod 64);
        Zbyte (128 + r mod 64)].

(** The string with every invalid byte replaced by U+FFFD. *)
Fixpoint sanitize_f (fuel : nat) (s : text) : text :=
  match fuel with
  | O => []
  | S fuel =>
      match s with
      | [] => []
      | _ => let '(r, n) := DecodeRune s in EncodeRune r ++ sanitize_f fuel (drop n s)
      end
  end.

Definition sanitize (s : text) : text := sanitize_f (length s) s.

(** [utf8.ValidString] *)
Fixpoint Valid_f (fuel : nat) (s : text) : bool :=
  match fuel with
  | O => true
  | S fuel =>
      match s with
      | [] => true
      | _ =>
          let '(r, n) := DecodeRune s in
          negb ((r =? RuneError) && (n =? 1)%nat) && Valid_f fuel (drop n s)
      end
  end.

Definition Valid (s : text) : bool := Valid_f (length s) s.

Lemma Zbyte_eq z b : z = byteZ b -> Zbyte z = b.
Proof. intros ->. apply Zbyte_byteZ. Qed.

Ltac decide_tests :=
  repeat match goal with
  | |- context [?a <? ?b] => destruct (Z.ltb_spec a b); try lia
  | |- context [?a <=? ?b] => destruct (Z.leb_spec a b); try lia
  | |- context [?a =? ?b] => destruct (Z.eqb_spec a b); try lia
  end.

Lemma valid_rune r :
  0 <= r <= 1114111 -> ~ (55296 <= r <= 57343) ->
  rune_or_error r = r.
Proof. intros Hr Hs. unfold rune_or_error. by decide_tests. Qed.

Lemma EncodeRune_1 r : 0 <= r < 128 -> EncodeRune r = [Zbyte r].
Proof. intros Hr. unfold EncodeRune. rewrite valid_rune by lia. by decide_tests. Qed.

Lemma EncodeRune_2 r :
  128 <= r < 2048 -> EncodeRune r = [Zbyte (192 + r / 64); Zbyte (128 + r mod 64)].
Proof. intros Hr. unfold EncodeRune. rewrite valid_rune by lia. by decide_tests. Qed.

Lemma EncodeRune_3 r :
  2048 <= r < 65536 -> ~ (55296 <= r <= 57343) ->
  EncodeRune r = [Zbyte (224 + r / 4096); Zbyte (128 + (r / 64) mod 64); Zbyte (128 + r mod 64)].
Proof. intros Hr Hs. unfold EncodeRune. rewrite valid_rune by lia. by decide_tests. Qed.

Lemma EncodeRune_4 r :
  65536 <= r <= 1114111 ->
  EncodeRune r = [Zbyte (240 + r / 262144); Zbyte (128 + (r / 4096) mod 64);
                  Zbyte (128 + (r / 64) mod 64); Zbyte (128 + r mod 64)].
Proof. intros Hr. unfold EncodeRune. rewrite valid_rune by lia. by decide_tests. Qed.

Ltac solve_div := Z.to_euclidean_division_equations; lia.

Lemma DecodeRune_cases s :
  s <> [] ->
  let '(r, n) := DecodeRune s in
  (1 <= n <= length s)%nat /\
  (EncodeRune r = take n s /\ (n = 1%nat -> 0 <= r < 128) /\ (n <> 1%nat -> 128 <= r) \/
   r = RuneError /\ n = 1%nat).
Proof.
  intros Hs. destruct s as [|b0 t]; [done|]. unfold DecodeRune, within.
  pose proof (byteZ_range b0).
  destruct (Z.ltb_spec (byteZ b0) 128).
  { split; [simpl; lia|left]. split; [|split; [lia|done]]. rewrite EncodeRune_1, Zbyte_byteZ by lia. done. }
  repeat match goal with
  | |- context [match ?t with [] => _ | _ :: _ => _ end] => destruct t as [|? ?]
  | |- context [if ?c then _ else _] => destruct c eqn:?
  end; try (by split; [simpl; lia|right]).
  all: rewrite ?andb_true_iff in *; destruct_and?; bool_to_prop.
  all: split; [simpl; lia|left].
  all: repeat match goal with H : context [if ?c then _ else _] |- _ => destruct c eqn:? end; bool_to_prop;
    try (exfalso; lia); (split; [|lia]).
  all: first [rewrite EncodeRune_2 by lia|rewrite EncodeRune_3 by lia|rewrite EncodeRune_4 by lia].
  all: simpl; repeat (apply f_equal2; [apply Zbyte_eq; solve_div|]); done.
Qed.

Lemma EncodeRune_high r : 128 <= r -> Forall (fun b => 128 <= byteZ b) (EncodeRune r).
Proof.
  intros Hr. unfold EncodeRune.
  assert (128 <= rune_or_error r <= 1114111) as Hr'.
  { unfold rune_or_error, RuneError. decide_tests; simpl; lia. }
  set (r' := rune_or_error r) in *. clearbody r'. clear Hr. destruct (Z.leb_spec r' 127); [lia|].
  destruct (Z.leb_spec r' 2047); [|destruct (Z.leb_spec r' 65535)];
    repeat constructor; rewrite byteZ_Zbyte; solve_div.
Qed.

Lemma sanitize_ascii s : Forall (fun b => byteZ b < 128) s -> sanitize s = s.
Proof.
  unfold sanitize. induction 1 as [|b s Hb _ IH]; [done|]. cbn [length sanitize_f].
  unfold DecodeRune. rewrite (proj2 (Z.ltb_lt _ _) Hb). pose proof (byteZ_range b).
  rewrite EncodeRune_1, Zbyte_byteZ by lia. change (drop 1 (b :: s)) with s. by rewrite IH.
Qed.

Lemma Valid_sanitize s : Valid s = true -> sanitize s = s.
Proof.
  unfold Valid, sanitize. cut (forall n, (length s <= n)%nat -> Valid_f n s = true -> sanitize_f n s = s).
  { intros Hc. by apply Hc. }
  intros n. revert s. induction n as [|n IH]; intros s Hn HV.
  { by destruct s; [|simpl in Hn; lia]. }
  simpl in *. destruct s as [|b t]; [done|]. set (s := b :: t) in *.
  pose proof (DecodeRune_cases s ltac:(done)) as Hc. destruct (DecodeRune s) as [r k].
  apply andb_true_iff in HV as [Hne HV]. destruct Hc as [Hk [[He _]|[-> ->]]]; [|done].
  rewrite He, IH; [apply take_drop| |done]. rewrite length_drop. lia.
Qed.

(** * encoding/base64 *)

Definition alphabet : text := bs "ABCDEFGHIJKLMNOPQRSTUVWXYZabcdefghijklmnopqrstuvwxyz0123456789+/".

Definition enc6 (v : Z) : byte := default Byte.x00 (at_ alphabet v).

(** The decode map of the encoding. *)
Definition dec6 (c : byte) : option Z :=
  let z := byteZ c in
  if (65 <=? z) && (z <=? 90) then Some (z - 65)
  else if (97 <=? z) && (z <=? 122) then Some (z - 71)
  else if (48 <=? z) && (z <=? 57) then Some (z + 4)
  else if z =? 43 then Some 62
  else if z =? 47 then Some 63
  else None.

(** [base64.RawStdEncoding.EncodeToString] *)
Fixpoint RawEncode (s : text) : text :=
  match s with
  | a :: b :: c :: s =>
      let val := byteZ a * 65536 + byteZ b * 256 + byteZ c in
      enc6 (val / 262144 mod 64) :: enc6 (val / 4096 mod 64) :: enc6 (val / 64 mod 64) :: enc6 (val mod 64)
        :: RawEncode s
  | [a; b] =>
      let val := byteZ a * 65536 + byteZ b * 256 in
      [enc6 (val / 262144 mod 64); enc6 (val / 4096 mod 64); enc6 (val / 64 mod 64)]
  | [a] =>
      let val := byteZ a * 65536 in
      [enc6 (val / 262144 mod 64); enc6 (val / 4096 mod 64)]
  | [] => []
  end.

Definition newline (c : byte) : bool := (byteZ c =? 10) || (byteZ c =? 13).

Fixpoint skip_newlines (s : text) : text :=
  match s with
  | c :: s' => if newline c then skip_newlines s' else s
  | [] => []
  end.

(** The bytes of a quantum of [length q] sextets. *)
Definition quantum (q : list Z) : text :=
  let val := foldl (fun v d => v * 64 + d) 0 (q ++ replicate (4 - length q) 0) in
  take (length q - 1) [Zbyte (val / 65536); Zbyte (val / 256); Zbyte val].

(** [DecodeString] of the standard encoding, with padding ([pad]) or without.  [None] is a
    CorruptInputError. *)
Fixpoint Decode_go (pad : bool) (src : text) (q : list Z) (out : text) : option text :=
  match src with
  | [] =>
      match q with
      | [] => Some out
      | [_] => None
      | _ => if pad then None else Some (out ++ quantum q)
      end
  | c :: src =>
      match dec6 c with
      | Some d =>
          if (length q =? 3)%nat then Decode_go pad src [] (out ++ quantum (q ++ [d]))
          else Decode_go pad src (q ++ [d]) out
      | None =>
          if newline c then Decode_go pad src q out
          else if negb (pad && (byteZ c =? 61)) then None
          else
            match q with
            | [] | [_] => None
            | [_; _] =>
                match skip_newlines src with
                | c2 :: src =>
                    if byteZ c2 =? 61 then
                      match skip_newlines src with [] => Some (out ++ quantum q) | _ => None end
                    else None
                | [] => None
                end
            | _ => match skip_newlines src with [] => Some (out ++ quantum q) | _ => None end
            end
      end
  end.

Definition DecodeString (pad : bool) (s : text) : option text := Decode_go pad s [] [].

Lemma dec6_enc6 v : 0 <= v < 64 -> dec6 (enc6 v) = Some v.
Proof.
  intros Hv. assert (forallb (fun n => bool_decide (dec6 (enc6 (Z.of_nat n)) = Some (Z.of_nat n))) (seq 0 64) = true)
    as Hall by (vm_compute; reflexivity).
  rewrite forallb_forall in Hall. specialize (Hall (Z.to_nat v)). rewrite in_seq in Hall.
  specialize (Hall ltac:(lia)). apply bool_decide_eq_true in Hall. by rewrite Z2Nat.id in Hall by lia.
Qed.

Lemma Zbyte_mod_eq z b : z mod 256 = byteZ b -> Zbyte z = b.
Proof. intros E. apply (inj byteZ). by rewrite byteZ_Zbyte. Qed.

#[local] Opaque enc6 dec6 quantum.

Lemma mod64 z : 0 <= z mod 64 < 64.
Proof. apply Z.mod_pos_bound. lia. Qed.

(** Decoding inverts the unpadded encoding; the padded decoder does on whole quanta. *)
Lemma Decode_RawEncode pad n : forall s out,
  (length s <= n)%nat -> pad = false \/ (length s mod 3 = 0)%nat ->
  Decode_go pad (RawEncode s) [] out = Some (out ++ s).
Proof.
  induction n as [|n IH]; intros s out Hn Hp.
  { destruct s; [by rewrite app_nil_r|simpl in Hn; lia]. }
  destruct s as [|a [|b [|c s]]].
  - by rewrite app_nil_r.
  - destruct Hp as [->|]; [|done]. pose proof (byteZ_range a). simpl.
    rewrite !dec6_enc6 by apply mod64. simpl. f_equal. f_equal.
    with_strategy transparent [quantum] (unfold quantum). simpl. f_equal. apply Zbyte_mod_eq. solve_div.
  - destruct Hp as [->|]; [|done]. pose proof (byteZ_range a). pose proof (byteZ_range b). simpl.
    rewrite !dec6_enc6 by apply mod64. simpl. f_equal. f_equal.
    with_strategy transparent [quantum] (unfold quantum). simpl.
    apply f_equal2; [|apply f_equal2; [|done]]; apply Zbyte_mod_eq; solve_div.
  - pose proof (byteZ_range a). pose proof (byteZ_range b). pose proof (byteZ_range c). simpl.
    repeat (rewrite dec6_enc6 by apply mod64; simpl).
    rewrite IH; [|simpl in Hn; lia|].
    + rewrite <- app_assoc. do 2 f_equal.
      with_strategy transparent [quantum] (unfold quantum). simpl.
      repeat (apply f_equal2; [apply Zbyte_mod_eq; solve_div|]). done.
    + destruct Hp as [->|Hp]; [by left|right]. simpl length in Hp.
      replace (S (S (S (length s)))) with (length s + 1 * 3)%nat in Hp by lia.
      by rewrite Nat.Div0.mod_add in Hp.
Qed.

Lemma length_RawEncode n s :
  (length s <= n)%nat -> (length (RawEncode s) mod 4 = 0 <-> length s mod 3 = 0)%nat.
Proof.
  revert s. induction n as [|n IH]; intros s Hn.
  { by destruct s; [|simpl in Hn; lia]. }
  destruct s as [|a [|b [|c s]]]; try done. simpl length.
  replace (S (S (S (length s)))) with (length s + 1 * 3)%nat by lia.
  replace (S (S (S (S (length (RawEncode s)))))) with (length (RawEncode s) + 1 * 4)%nat by lia.
  rewrite !Nat.Div0.mod_add. apply IH. simpl in Hn. lia.
Qed.
