(* ===== verification/Headers.v ===== *)
(** Decoding of a gRPC header list (src/pkg/remote/trans/nphttp2/grpc/http_util.go,
    [decodeState]) and construction of the client's request headers
    (http2_client.go, [createHeaderFields]).

    Theorems: what the client writes the server reads back, metadata included; a client
    that accepts a header block always has a status to report. *)

From S2P Require Import Prelude GoText HttpUtil.

(** codes.Code *)
Definition Unknown : Z := 2.
Definition PermissionDenied : Z := 7.
Definition Unimplemented : Z := 12.
Definition Internal : Z := 13.
Definition Unavailable : Z := 14.
Definition Unauthenticated : Z := 16.

(** A status as its protobuf message: code, message and the encoded details. *)
Record status := mkStatus { st_code : Z; st_msg : text; st_details : list text }.

(** The protobuf decoder of status details and the JSON decoder of the business extras. *)
Class HeaderLib := {
  UnmarshalStatus : text -> option status;
  JSONStr2Map : text -> option (gmap text text)
}.

Inductive httpMsg :=
| MissingHTTPStatus
| HTTPStatusCode (n : Z)
| MissingContentType
| UnexpectedContentType (ct : text).

(** The errors of the decoder; all but the last carry code Internal. *)
Inductive headerErr :=
| HeaderListTooLarge
| MalformedGrpcStatus
| MalformedBizStatus
| MalformedBizExtra
| MalformedStatusDetails
| MalformedTimeout (e : timeoutErr)
| MalformedHttpStatus
| MalformedTags
| MalformedTrace
| HTTPFallback (code : Z) (msgs : list httpMsg).

Record parsedHeaderData := mkData {
  encoding : text;
  acceptEncoding : text;
  statusGen : option status;
  bizStatus : option (Z * text * gmap text text * status);
  rawStatusCode : option Z;
  rawStatusMsg : text;
  bizStatusCode : option Z;
  bizStatusExtra : gmap text text;
  httpStatus : option Z;
  timeoutSet : bool;
  timeout : Z;
  method : text;
  mdata : gmap text (list text);
  statsTags : text;
  statsTrace : text;
  subtype : text;
  isGRPC : bool;
  grpcErr : option headerErr;
  httpErr : option headerErr;
  contentTypeErr : option httpMsg
}.

Definition data0 : parsedHeaderData :=
  mkData [] [] None None None [] None ∅ None false 0 [] ∅ [] [] [] false None None None.

(** Field updates. *)
Definition set_encoding v d :=
  mkData v (acceptEncoding d) (statusGen d) (bizStatus d) (rawStatusCode d) (rawStatusMsg d)
    (bizStatusCode d) (bizStatusExtra d) (httpStatus d) (timeoutSet d) (timeout d) (method d)
    (mdata d) (statsTags d) (statsTrace d) (subtype d) (isGRPC d) (grpcErr d) (httpErr d)
    (contentTypeErr d).
Definition set_acceptEncoding v d :=
  mkData (encoding d) v (statusGen d) (bizStatus d) (rawStatusCode d) (rawStatusMsg d)
    (bizStatusCode d) (bizStatusExtra d) (httpStatus d) (timeoutSet d) (timeout d) (method d)
    (mdata d) (statsTags d) (statsTrace d) (subtype d) (isGRPC d) (grpcErr d) (httpErr d)
    (contentTypeErr d).
Definition set_statusGen v d :=
  mkData (encoding d) (acceptEncoding d) v (bizStatus d) (rawStatusCode d) (rawStatusMsg d)
    (bizStatusCode d) (bizStatusExtra d) (httpStatus d) (timeoutSet d) (timeout d) (method d)
    (mdata d) (statsTags d) (statsTrace d) (subtype d) (isGRPC d) (grpcErr d) (httpErr d)
    (contentTypeErr d).
Definition set_bizStatus v d :=
  mkData (encoding d) (acceptEncoding d) (statusGen d) v (rawStatusCode d) (rawStatusMsg d)
    (bizStatusCode d) (bizStatusExtra d) (httpStatus d) (timeoutSet d) (timeout d) (method d)
    (mdata d) (statsTags d) (statsTrace d) (subtype d) (isGRPC d) (grpcErr d) (httpErr d)
    (contentTypeErr d).
Definition set_rawStatusCode v d :=
  mkData (encoding d) (acceptEncoding d) (statusGen d) (bizStatus d) v (rawStatusMsg d)
    (bizStatusCode d) (bizStatusExtra d) (httpStatus d) (timeoutSet d) (timeout d) (method d)
    (mdata d) (statsTags d) (statsTrace d) (subtype d) (isGRPC d) (grpcErr d) (httpErr d)
    (contentTypeErr d).
Definition set_rawStatusMsg v d :=
  mkData (encoding d) (acceptEncoding d) (statusGen d) (bizStatus d) (rawStatusCode d) v
    (bizStatusCode d) (bizStatusExtra d) (httpStatus d) (timeoutSet d) (timeout d) (method d)
    (mdata d) (statsTags d) (statsTrace d) (subtype d) (isGRPC d) (grpcErr d) (httpErr d)
    (contentTypeErr d).
Definition set_bizStatusCode v d :=
  mkData (encoding d) (acceptEncoding d) (statusGen d) (bizStatus d) (rawStatusCode d)
    (rawStatusMsg d) v (bizStatusExtra d) (httpStatus d) (timeoutSet d) (timeout d) (method d)
    (mdata d) (statsTags d) (statsTrace d) (subtype d) (isGRPC d) (grpcErr d) (httpErr d)
    (contentTypeErr d).
Definition set_bizStatusExtra v d :=
  mkData (encoding d) (acceptEncoding d) (statusGen d) (bizStatus d) (rawStatusCode d)
    (rawStatusMsg d) (bizStatusCode d) v (httpStatus d) (timeoutSet d) (timeout d) (method d)
    (mdata d) (statsTags d) (statsTrace d) (subtype d) (isGRPC d) (grpcErr d) (httpErr d)
    (contentTypeErr d).
Definition set_httpStatus v d :=
  mkData (encoding d) (acceptEncoding d) (statusGen d) (bizStatus d) (rawStatusCode d)
    (rawStatusMsg d) (bizStatusCode d) (bizStatusExtra d) v (timeoutSet d) (timeout d) (method
    d) (mdata d) (statsTags d) (statsTrace d) (subtype d) (isGRPC d) (grpcErr d) (httpErr d)
    (contentTypeErr d).
Definition set_timeoutSet v d :=
  mkData (encoding d) (acceptEncoding d) (statusGen d) (bizStatus d) (rawStatusCode d)
    (rawStatusMsg d) (bizStatusCode d) (bizStatusExtra d) (httpStatus d) v (timeout d) (method
    d) (mdata d) (statsTags d) (statsTrace d) (subtype d) (isGRPC d) (grpcErr d) (httpErr d)
    (contentTypeErr d).
Definition set_timeout v d :=
  mkData (encoding d) (acceptEncoding d) (statusGen d) (bizStatus d) (rawStatusCode d)
    (rawStatusMsg d) (bizStatusCode d) (bizStatusExtra d) (httpStatus d) (timeoutSet d) v
    (method d) (mdata d) (statsTags d) (statsTrace d) (subtype d) (isGRPC d) (grpcErr d)
    (httpErr d) (contentTypeErr d).
Definition set_method v d :=
  mkData (encoding d) (acceptEncoding d) (statusGen d) (bizStatus d) (rawStatusCode d)
    (rawStatusMsg d) (bizStatusCode d) (bizStatusExtra d) (httpStatus d) (timeoutSet d) (timeout
    d) v (mdata d) (statsTags d) (statsTrace d) (subtype d) (isGRPC d) (grpcErr d) (httpErr d)
    (contentTypeErr d).
Definition set_mdata v d :=
  mkData (encoding d) (acceptEncoding d) (statusGen d) (bizStatus d) (rawStatusCode d)
    (rawStatusMsg d) (bizStatusCode d) (bizStatusExtra d) (httpStatus d) (timeoutSet d) (timeout
    d) (method d) v (statsTags d) (statsTrace d) (subtype d) (isGRPC d) (grpcErr d) (httpErr d)
    (contentTypeErr d).
Definition set_statsTags v d :=
  mkData (encoding d) (acceptEncoding d) (statusGen d) (bizStatus d) (rawStatusCode d)
    (rawStatusMsg d) (bizStatusCode d) (bizStatusExtra d) (httpStatus d) (timeoutSet d) (timeout
    d) (method d) (mdata d) v (statsTrace d) (subtype d) (isGRPC d) (grpcErr d) (httpErr d)
    (contentTypeErr d).
Definition set_statsTrace v d :=
  mkData (encoding d) (acceptEncoding d) (statusGen d) (bizStatus d) (rawStatusCode d)
    (rawStatusMsg d) (bizStatusCode d) (bizStatusExtra d) (httpStatus d) (timeoutSet d) (timeout
    d) (method d) (mdata d) (statsTags d) v (subtype d) (isGRPC d) (grpcErr d) (httpErr d)
    (contentTypeErr d).
Definition set_subtype v d :=
  mkData (encoding d) (acceptEncoding d) (statusGen d) (bizStatus d) (rawStatusCode d)
    (rawStatusMsg d) (bizStatusCode d) (bizStatusExtra d) (httpStatus d) (timeoutSet d) (timeout
    d) (method d) (mdata d) (statsTags d) (statsTrace d) v (isGRPC d) (grpcErr d) (httpErr d)
    (contentTypeErr d).
Definition set_isGRPC v d :=
  mkData (encoding d) (acceptEncoding d) (statusGen d) (bizStatus d) (rawStatusCode d)
    (rawStatusMsg d) (bizStatusCode d) (bizStatusExtra d) (httpStatus d) (timeoutSet d) (timeout
    d) (method d) (mdata d) (statsTags d) (statsTrace d) (subtype d) v (grpcErr d) (httpErr d)
    (contentTypeErr d).
Definition set_grpcErr v d :=
  mkData (encoding d) (acceptEncoding d) (statusGen d) (bizStatus d) (rawStatusCode d)
    (rawStatusMsg d) (bizStatusCode d) (bizStatusExtra d) (httpStatus d) (timeoutSet d) (timeout
    d) (method d) (mdata d) (statsTags d) (statsTrace d) (subtype d) (isGRPC d) v (httpErr d)
    (contentTypeErr d).
Definition set_httpErr v d :=
  mkData (encoding d) (acceptEncoding d) (statusGen d) (bizStatus d) (rawStatusCode d)
    (rawStatusMsg d) (bizStatusCode d) (bizStatusExtra d) (httpStatus d) (timeoutSet d) (timeout
    d) (method d) (mdata d) (statsTags d) (statsTrace d) (subtype d) (isGRPC d) (grpcErr d) v
    (contentTypeErr d).
Definition set_contentTypeErr v d :=
  mkData (encoding d) (acceptEncoding d) (statusGen d) (bizStatus d) (rawStatusCode d)
    (rawStatusMsg d) (bizStatusCode d) (bizStatusExtra d) (httpStatus d) (timeoutSet d) (timeout
    d) (method d) (mdata d) (statsTags d) (statsTrace d) (subtype d) (isGRPC d) (grpcErr d)
    (httpErr d) v.

(** The cases of the switch on the header name. *)
Inductive hkind :=
| HContentType | HGrpcEncoding | HGrpcAcceptEncoding | HGrpcStatus | HGrpcMessage | HBizStatus
| HBizExtra | HStatusDetails | HGrpcTimeout | HPath | HStatus | HTags | HTrace | HOther.

Fixpoint switch (name : text) (cases : list (text * hkind)) : hkind :=
  match cases with
  | [] => HOther
  | (n, k) :: cases => if text_eqb name n then k else switch name cases
  end.

Definition header_cases : list (text * hkind) :=
  [(bs "content-type", HContentType); (bs "grpc-encoding", HGrpcEncoding);
   (bs "grpc-accept-encoding", HGrpcAcceptEncoding); (bs "grpc-status", HGrpcStatus);
   (bs "grpc-message", HGrpcMessage); (bs "biz-status", HBizStatus); (bs "biz-extra", HBizExtra);
   (bs "grpc-status-details-bin", HStatusDetails); (bs "grpc-timeout", HGrpcTimeout);
   (bs ":path", HPath); (bs ":status", HStatus); (bs "grpc-tags-bin", HTags);
   (bs "grpc-trace-bin", HTrace)].

Definition header_kind (name : text) : hkind := switch name header_cases.

Definition addMetadata (k v : text) (d : parsedHeaderData) : parsedHeaderData :=
  set_mdata (<[k := default [] (mdata d !! k) ++ [v]]> (mdata d)) d.

Definition HTTPStatusConvTab (n : Z) : option Z :=
  if n =? 400 then Some Internal
  else if n =? 401 then Some Unauthenticated
  else if n =? 403 then Some PermissionDenied
  else if n =? 404 then Some Unimplemented
  else if n =? 429 then Some Unavailable
  else if n =? 502 then Some Unavailable
  else if n =? 503 then Some Unavailable
  else if n =? 504 then Some Unavailable
  else None.

Section decode.
Context `{!HeaderLib}.

Definition processHeaderField (f : text * text) (d : parsedHeaderData) : parsedHeaderData :=
  let '(Name, Value) := f in
  match header_kind Name with
  | HContentType =>
      let '(sub, valid) := contentSubtype Value in
      if negb valid then set_contentTypeErr (Some (UnexpectedContentType Value)) d
      else set_isGRPC true (addMetadata Name Value (set_subtype sub d))
  | HGrpcEncoding => set_encoding Value d
  | HGrpcAcceptEncoding => set_acceptEncoding Value d
  | HGrpcStatus =>
      match ParseInt Value with
      | None => set_grpcErr (Some MalformedGrpcStatus) d
      | Some code => set_rawStatusCode (Some code) d
      end
  | HGrpcMessage => set_rawStatusMsg (decodeGrpcMessage Value) d
  | HBizStatus =>
      match ParseInt Value with
      | None => set_grpcErr (Some MalformedBizStatus) d
      | Some code => set_bizStatusCode (Some code) d
      end
  | HBizExtra =>
      match JSONStr2Map Value with
      | None => set_grpcErr (Some MalformedBizExtra) d
      | Some extra => set_bizStatusExtra extra d
      end
  | HStatusDetails =>
      match decodeBinHeader Value with
      | None => set_grpcErr (Some MalformedStatusDetails) d
      | Some v =>
          match UnmarshalStatus v with
          | None => set_grpcErr (Some MalformedStatusDetails) d
          | Some s => set_statusGen (Some s) d
          end
      end
  | HGrpcTimeout =>
      let d := set_timeoutSet true d in
      match decodeTimeout Value with
      | inl t => set_timeout t d
      | inr e => set_grpcErr (Some (MalformedTimeout e)) (set_timeout 0 d)
      end
  | HPath => set_method Value d
  | HStatus =>
      match ParseInt Value with
      | None => set_httpErr (Some MalformedHttpStatus) d
      | Some code => set_httpStatus (Some code) d
      end
  | HTags =>
      match decodeBinHeader Value with
      | None => set_grpcErr (Some MalformedTags) d
      | Some v => addMetadata Name v (set_statsTags v d)
      end
  | HTrace =>
      match decodeBinHeader Value with
      | None => set_grpcErr (Some MalformedTrace) d
      | Some v => addMetadata Name v (set_statsTrace v d)
      end
  | HOther =>
      if isReservedHeader Name && negb (isWhitelistedHeader Name) then d
      else
        match decodeMetadataHeader Name Value with
        | None => d
        | Some v => addMetadata Name v d
        end
  end.

Definition constructHTTPErrMsg (d : parsedHeaderData) : list httpMsg :=
  [match httpStatus d with None => MissingHTTPStatus | Some n => HTTPStatusCode n end;
   match contentTypeErr d with None => MissingContentType | Some e => e end].

(** The decoded data and the returned error. *)
Definition decodeHeader (serverSide Truncated : bool) (Fields : list (text * text)) (d : parsedHeaderData)
    : parsedHeaderData * option headerErr :=
  if Truncated then (d, Some HeaderListTooLarge)
  else
    let d := foldl (fun d f => processHeaderField f d) d Fields in
    if isGRPC d then
      match grpcErr d with
      | Some e => (d, Some e)
      | None =>
          if serverSide then (d, None)
          else
            match rawStatusCode d, statusGen d with
            | None, None => (set_rawStatusCode (Some Unknown) d, None)
            | _, _ => (d, None)
            end
      end
    else
      match httpErr d with
      | Some e => (d, Some e)
      | None =>
          let code := match httpStatus d with
                      | None => Internal
                      | Some n => default Unknown (HTTPStatusConvTab n)
                      end in
          (d, Some (HTTPFallback code (constructHTTPErrMsg d)))
      end.

(** [None] is a panic. *)
Definition safeCastInt32 (n : Z) : option Z :=
  if (MaxInt32 <? n) || (n <? - 2 ^ 31) then None else Some n.

Definition status_ (d : parsedHeaderData) : option (status * parsedHeaderData) :=
  match statusGen d with
  | Some s => Some (s, d)
  | None =>
      n ← rawStatusCode d; c ← safeCastInt32 n;
      let s := mkStatus c (rawStatusMsg d) [] in Some (s, set_statusGen (Some s) d)
  end.

Definition bizStatusErr (d : parsedHeaderData)
    : option (option (Z * text * gmap text text * status) * parsedHeaderData) :=
  match bizStatus d, bizStatusCode d with
  | None, Some n =>
      c ← safeCastInt32 n;
      '(s, d) ← status_ d;
      let e := (c, rawStatusMsg d, bizStatusExtra d, s) in
      Some (Some e, set_bizStatus (Some e) d)
  | e, _ => Some (e, d)
  end.

End decode.

(** * The client's request headers *)

Record CallHdr := mkCallHdr {
  Host : text; Method : text; SendCompress : text; ContentSubtype : text; PreviousAttempts : Z }.

Definition defaultUserAgent : text := bs "kitex/v0.16.3".

(** [strings.ToLower] on ASCII, which header names are. *)
Definition ToLower (s : text) : text :=
  (fun c => if (65 <=? byteZ c) && (byteZ c <=? 90) then Zbyte (byteZ c + 32) else c) <$> s.

(** One entry of the metadata map. *)
Definition md_fields (e : text * list text) : list (text * text) :=
  let '(k, vv) := e in
  if isReservedHeader k then [] else (fun v => (k, encodeMetadataHeader k v)) <$> vv.

(** One appended slice of alternating keys and values; [k] survives from slice to slice. *)
Fixpoint added_fields (k : text) (even : bool) (vv : list text) : text * list (text * text) :=
  match vv with
  | [] => (k, [])
  | v :: vv =>
      if even then added_fields v false vv
      else
        let '(k', fs) := added_fields k true vv in
        if isReservedHeader k then (k', fs) else (k', (ToLower k, encodeMetadataHeader k v) :: fs)
  end.

Fixpoint all_added (k : text) (added : list (list text)) : list (text * text) :=
  match added with
  | [] => []
  | vv :: added => let '(k, fs) := added_fields k true vv in fs ++ all_added k added
  end.

(** [deadline]: the time left of the context; [out]: the outgoing metadata, its map in the
    order of the iteration. *)
Definition createHeaderFields (scheme : text) (callHdr : CallHdr) (deadline : option Z)
    (out : option (list (text * list text) * list (list text))) : list (text * text) :=
  [(bs ":method", bs "POST"); (bs ":scheme", scheme); (bs ":path", Method callHdr);
   (bs ":authority", Host callHdr); (bs "content-type", contentType (ContentSubtype callHdr));
   (bs "user-agent", defaultUserAgent); (bs "te", bs "trailers")]
  ++ (if 0 <? PreviousAttempts callHdr
      then [(bs "grpc-previous-rpc-attempts", FormatInt (PreviousAttempts callHdr))] else [])
  ++ match SendCompress callHdr with
     | [] => []
     | c => [(bs "grpc-encoding", c); (bs "grpc-accept-encoding", c)]
     end
  ++ match deadline with Some t => [(bs "grpc-timeout", encodeTimeout t)] | None => [] end
  ++ match out with Some (md, added) => (md ≫= md_fields) ++ all_added [] added | None => [] end.

(** * The server reads what the client wrote *)

(** A key whose header is plain metadata on both sides. *)
Definition user_key (k : text) : Prop :=
  header_kind k = HOther /\ isReservedHeader k = false /\ k <> bs "grpc-previous-rpc-attempts".

Definition values (k : text) (kvs : list (text * text)) : list text :=
  snd <$> filter (fun kv => fst kv = k) kvs.

Definition add_fields (kvs : list (text * text)) (m : gmap text (list text)) : gmap text (list text) :=
  foldl (fun m kv => <[fst kv := default [] (m !! fst kv) ++ [snd kv]]> m) m kvs.

Lemma add_fields_lookup kvs m k :
  default [] (add_fields kvs m !! k) = default [] (m !! k) ++ values k kvs.
Proof.
  unfold values. revert m. induction kvs as [|[k' v] kvs IH]; intros m; [by rewrite app_nil_r|].
  cbn [add_fields foldl fst snd]. fold (add_fields kvs). change (foldl _ ?a kvs) with (add_fields kvs a).
  rewrite IH, filter_cons. cbn [fst snd]. case_decide as E.
  - subst. rewrite lookup_insert_eq. rewrite fmap_cons. cbn [from_option id]. by rewrite <- app_assoc.
  - by rewrite lookup_insert_ne.
Qed.

(** The metadata as key-value pairs, in the order they are written. *)
Fixpoint pairs_of (vv : list text) : list (text * text) :=
  match vv with k :: v :: vv => (k, v) :: pairs_of vv | _ => [] end.

Definition sent (md : list (text * list text)) (added : list (list text)) : list (text * text) :=
  (md ≫= fun '(k, vv) => pair k <$> vv) ++ (added ≫= pairs_of).

Definition encoded (kv : text * text) : text * text := (fst kv, encodeMetadataHeader (fst kv) (snd kv)).

(** Appended metadata: slices of key-value pairs with lower-case keys. *)
Definition added_ok (vv : list text) : Prop :=
  Nat.even (length vv) = true /\ Forall (fun kv => user_key (fst kv) /\ ToLower (fst kv) = fst kv) (pairs_of vv).

Lemma added_fields_spec vv k :
  added_ok vv -> snd (added_fields k true vv) = encoded <$> pairs_of vv.
Proof.
  remember (length vv) as n eqn:Hn. revert vv k Hn.
  induction (lt_wf n) as [n _ IH]. intros vv k -> [He Hall].
  destruct vv as [|k' [|v vv]]; [done|done|]. simpl in *.
  apply Forall_cons in Hall as [[(_ & Hr & _) Hlow] Hall]. simpl in *.
  specialize (IH (length vv) ltac:(lia) vv k' eq_refl (conj He Hall)).
  destruct (added_fields k' true vv) as [k2 fs]. rewrite Hr. simpl in *. rewrite IH, Hlow. done.
Qed.

Lemma all_added_spec added k :
  Forall added_ok added -> all_added k added = encoded <$> (added ≫= pairs_of).
Proof.
  intros Hall. revert k. induction Hall as [|vv added Hv _ IH]; intros k; [done|].
  rewrite bind_cons, fmap_app. simpl. pose proof (added_fields_spec vv k Hv) as Hf.
  destruct (added_fields k true vv) as [k' fs]. simpl in Hf. by rewrite Hf, IH.
Qed.

Lemma md_fields_spec md :
  Forall (fun e => user_key (fst e)) md ->
  md ≫= md_fields = encoded <$> (md ≫= fun '(k, vv) => pair k <$> vv).
Proof.
  induction 1 as [|[k vv] md (_ & Hr & _) _ IH]; [done|]. rewrite !bind_cons, fmap_app, IH. f_equal.
  simpl in *. rewrite Hr. by rewrite <- list_fmap_compose.
Qed.

Section server.
Context `{!HeaderLib}.

Lemma process_user k v d :
  user_key k -> processHeaderField (k, encodeMetadataHeader k v) d = addMetadata k v d.
Proof.
  intros (Hk & Hr & _). unfold processHeaderField. rewrite Hk, Hr. simpl.
  by rewrite metadata_roundtrip.
Qed.

Lemma process_users kvs d :
  Forall (fun kv => user_key (fst kv)) kvs ->
  foldl (fun d f => processHeaderField f d) d (encoded <$> kvs) = set_mdata (add_fields kvs (mdata d)) d.
Proof.
  intros Hall. revert d. induction Hall as [|[k v] kvs Hk _ IH]; intros d; [by destruct d|].
  rewrite fmap_cons. cbn [foldl]. unfold encoded at 1. cbn [fst snd]. by rewrite process_user, IH.
Qed.

(** What the fixed request headers do. *)
Lemma process_ignored v d :
  processHeaderField (bs ":method", v) d = d /\ processHeaderField (bs ":scheme", v) d = d /\
  processHeaderField (bs "te", v) d = d.
Proof. done. Qed.

Lemma process_content_type sub d :
  processHeaderField (bs "content-type", contentType sub) d =
  set_isGRPC true (addMetadata (bs "content-type") (contentType sub) (set_subtype sub d)).
Proof.
  unfold processHeaderField. change (header_kind (bs "content-type")) with HContentType. cbv iota.
  by rewrite content_type_roundtrip.
Qed.

Lemma process_timeout t d :
  t <= MaxInt64 ->
  exists u, processHeaderField (bs "grpc-timeout", encodeTimeout t) d = set_timeout u (set_timeoutSet true d) /\
    (0 < t -> t <= u <= MaxInt64 /\ 99999 * (u - t) < t) /\ (t <= 0 -> u = 0).
Proof.
  intros Ht. unfold processHeaderField. change (header_kind (bs "grpc-timeout")) with HGrpcTimeout. cbv iota.
  destruct (Z.leb_spec t 0).
  - exists 0. unfold encodeTimeout. rewrite (proj2 (Z.leb_le t 0)) by done. split; [done|]. split; [lia|done].
  - destruct (encode_decode_timeout t ltac:(lia)) as (u & -> & Hu1 & Hu2 & _).
    exists u. split; [done|]. split; [done|lia].
Qed.

(** The part of the decoded data the request determines. *)
Definition request_data (h : CallHdr) (d : parsedHeaderData) : Prop :=
  isGRPC d = true /\ grpcErr d = None /\ method d = Method h /\ subtype d = ContentSubtype h /\
  forall k, user_key k -> mdata d !! k = None.

Lemma request_prefix scheme h :
  let d := foldl (fun d f => processHeaderField f d) data0
    [(bs ":method", bs "POST"); (bs ":scheme", scheme); (bs ":path", Method h);
     (bs ":authority", Host h); (bs "content-type", contentType (ContentSubtype h));
     (bs "user-agent", defaultUserAgent); (bs "te", bs "trailers")] in
  request_data h d /\ encoding d = [] /\ timeoutSet d = false.
Proof.
  cbn [foldl]. destruct (process_ignored (bs "POST") data0) as (-> & _ & _).
  destruct (process_ignored scheme data0) as (_ & -> & _).
  change (processHeaderField (bs ":path", Method h) data0) with (set_method (Method h) data0).
  change (processHeaderField (bs ":authority", Host h) ?d) with (addMetadata (bs ":authority") (Host h) d).
  rewrite process_content_type.
  change (processHeaderField (bs "user-agent", ?v) ?d) with (addMetadata (bs "user-agent") v d).
  destruct (process_ignored (bs "trailers") (addMetadata (bs "user-agent") defaultUserAgent
    (set_isGRPC true (addMetadata (bs "content-type") (contentType (ContentSubtype h))
      (set_subtype (ContentSubtype h) (addMetadata (bs ":authority") (Host h)
        (set_method (Method h) data0))))))) as (_ & _ & ->).
  split; [|done]. split_and!; try done. intros k (Hk & Hr & _). unfold addMetadata. cbn [mdata set_mdata set_isGRPC set_subtype set_method data0].
  rewrite !lookup_insert_ne; [apply lookup_empty| | |]; intros <-; revert Hk Hr; by vm_compute.
Qed.

Lemma request_attempts h n d :
  request_data h d ->
  let d' := processHeaderField (bs "grpc-previous-rpc-attempts", n) d in
  request_data h d' /\ encoding d' = encoding d /\ timeoutSet d' = timeoutSet d.
Proof.
  intros (H1 & H2 & H3 & H4 & H5). cbv zeta.
  change (processHeaderField (bs "grpc-previous-rpc-attempts", n) d)
    with (addMetadata (bs "grpc-previous-rpc-attempts") n d).
  split; [|done]. split_and!; try done. intros k Hk. unfold addMetadata. cbn [mdata set_mdata].
  rewrite lookup_insert_ne; [by apply H5|]. by destruct Hk as (_ & _ & ?).
Qed.

Lemma user_tail h d md added :
  request_data h d -> Forall (fun e => user_key (fst e)) md -> Forall added_ok added ->
  exists d', foldl (fun d f => processHeaderField f d) d ((md ≫= md_fields) ++ all_added [] added) = d' /\
    isGRPC d' = true /\ grpcErr d' = None /\ method d' = Method h /\ subtype d' = ContentSubtype h /\
    encoding d' = encoding d /\ timeoutSet d' = timeoutSet d /\ timeout d' = timeout d /\
    forall k, user_key k -> default [] (mdata d' !! k) = values k (sent md added).
Proof.
  intros (H1 & H2 & H3 & H4 & H5) Hmd Hadd. eexists. split; [done|].
  rewrite md_fields_spec, all_added_spec, <- fmap_app by done. fold (sent md added).
  rewrite process_users.
  - split_and!; try done. intros k Hk. cbn [mdata set_mdata]. rewrite add_fields_lookup.
    by rewrite (H5 k Hk).
  - unfold sent. apply Forall_app. split.
    + apply Forall_bind. eapply Forall_impl; [exact Hmd|]. intros [k vv] Hk. apply Forall_fmap, Forall_forall.
      by intros v _.
    + apply Forall_bind. eapply Forall_impl; [exact Hadd|]. intros vv [_ Hvv].
      eapply Forall_impl; [exact Hvv|]. by intros kv [? _].
Qed.

(** C4: the server reads what the client wrote.  For every call with a deadline of at most
    MaxInt64 nanoseconds and every metadata with ordinary keys (no pseudo-header, reserved
    or gRPC-defined name), the appended ones in pairs and in lower case, decoding the request headers succeeds and yields the method, the
    content-subtype, the compression, a timeout no shorter than the one left (and zero when
    none was left), and for every ordinary metadata key exactly the values sent, binary
    values included, in order. *)
Theorem request_headers_roundtrip scheme h deadline md added :
  Forall (fun e => user_key (fst e)) md -> Forall added_ok added ->
  (forall t, deadline = Some t -> t <= MaxInt64) ->
  exists d, decodeHeader true false (createHeaderFields scheme h deadline (Some (md, added))) data0 = (d, None) /\
    method d = Method h /\ subtype d = ContentSubtype h /\ encoding d = SendCompress h /\
    match deadline with
    | None => timeoutSet d = false
    | Some t => timeoutSet d = true /\
        (0 < t -> t <= timeout d <= MaxInt64 /\ 99999 * (timeout d - t) < t) /\ (t <= 0 -> timeout d = 0)
    end /\
    forall k, user_key k -> default [] (mdata d !! k) = values k (sent md added).
Proof.
  intros Hmd Hadd Hdl. unfold decodeHeader, createHeaderFields. cbv zeta. rewrite !foldl_app.
  destruct (request_prefix scheme h) as (HR & HE & HT). set (d1 := foldl _ data0 _) in *.
  set (d2 := foldl _ d1 _). assert (request_data h d2 /\ encoding d2 = [] /\ timeoutSet d2 = false) as (HR2 & HE2 & HT2).
  { subst d2. destruct (0 <? PreviousAttempts h); [|done]. cbn [foldl].
    destruct (request_attempts h (FormatInt (PreviousAttempts h)) d1 HR) as (? & -> & ->). done. }
  set (d3 := foldl _ d2 _).
  assert (request_data h d3 /\ encoding d3 = SendCompress h /\ timeoutSet d3 = false) as (HR3 & HE3 & HT3).
  { subst d3. destruct (SendCompress h) as [|c cs] eqn:Ec; [done|]. cbn [foldl].
    change (processHeaderField (bs "grpc-encoding", ?v) ?d) with (set_encoding v d).
    change (processHeaderField (bs "grpc-accept-encoding", ?v) ?d) with (set_acceptEncoding v d). done. }
  set (d4 := foldl _ d3 _).
  assert (request_data h d4 /\ encoding d4 = SendCompress h /\
    match deadline with
    | None => timeoutSet d4 = false
    | Some t => timeoutSet d4 = true /\
        (0 < t -> t <= timeout d4 <= MaxInt64 /\ 99999 * (timeout d4 - t) < t) /\ (t <= 0 -> timeout d4 = 0)
    end) as (HR4 & HE4 & HT4).
  { subst d4. destruct deadline as [t|]; [|done]. cbn [foldl].
    by destruct (process_timeout t d3 (Hdl t eq_refl)) as (u & -> & Hu1 & Hu2). }
  rewrite <- foldl_app.
  destruct (user_tail h d4 md added HR4 Hmd Hadd) as (d & -> & H1 & H2 & H3 & H4 & H5 & H6 & H7 & H8).
  exists d. rewrite H1, H2, H3, H4, H5, H6, H7, HE4. done.
Qed.

(** A client that accepts a header block has a status.  When [decodeHeader] reports no
    error on the client, [status] returns one, unless the peer sent no status details and a
    grpc-status that does not fit an int32, where the conversion panics. *)
Theorem client_status_total trunc fields d0 d :
  decodeHeader false trunc fields d0 = (d, None) ->
  match status_ d with
  | Some (s, d') => statusGen d' = Some s /\ (statusGen d = None -> rawStatusCode d = Some (st_code s))
  | None => statusGen d = None /\
      exists n, rawStatusCode d = Some n /\ (MaxInt32 < n \/ n < - 2 ^ 31)
  end.
Proof.
  intros Hd. assert (statusGen d <> None \/ rawStatusCode d <> None) as Hs.
  { unfold decodeHeader in Hd. destruct trunc; [done|].
    set (e := foldl _ d0 fields) in *. destruct (isGRPC e); [|by destruct (httpErr e)].
    destruct (grpcErr e); [done|]. destruct (rawStatusCode e) eqn:E1, (statusGen e) eqn:E2; simplify_eq;
      try (by left; congruence); right; rewrite ?E1; done. }
  unfold status_. destruct (statusGen d) as [s|] eqn:E; [by rewrite E|].
  destruct Hs as [|Hs]; [done|]. destruct (rawStatusCode d) as [n|] eqn:En; [|done]. simpl.
  unfold safeCastInt32. destruct (Z.ltb_spec MaxInt32 n); simpl; [split; eauto|].
  destruct (Z.ltb_spec n (- 2 ^ 31)); simpl; [split; eauto|done].
Qed.

End server.

(** * Concrete headers *)

#[local] Instance no_lib : HeaderLib := {| UnmarshalStatus := fun _ => None; JSONStr2Map := fun _ => Some ∅ |}.

Definition sample_call : CallHdr := mkCallHdr (bs "svc") (bs "/Echo/Ping") [] (bs "proto") 1.

Lemma user_key_dec_ok k :
  bool_decide (isReservedHeader k = false /\ k <> bs "grpc-previous-rpc-attempts") &&
  (match header_kind k with HOther => true | _ => false end) = true -> user_key k.
Proof.
  intros [H1 H2]%andb_true_iff. apply bool_decide_eq_true in H1. by destruct (header_kind k) eqn:E.
Qed.

Lemma request_headers_roundtrip_witness :
  exists d, decodeHeader true false (createHeaderFields (bs "http") sample_call (Some 1500000)
      (Some ([(bs "trace-bin", [bs "ab"])], [[bs "k"; bs "v1"; bs "k"; bs "v2"]]))) data0 = (d, None) /\
    default [] (mdata d !! bs "k") = [bs "v1"; bs "v2"].
Proof.
  destruct (request_headers_roundtrip (bs "http") sample_call (Some 1500000)
    [(bs "trace-bin", [bs "ab"])] [[bs "k"; bs "v1"; bs "k"; bs "v2"]]) as (d & Hd & _ & _ & _ & _ & Hk).
  - constructor; [|constructor]. by apply user_key_dec_ok.
  - constructor; [|constructor]. split; [reflexivity|].
    repeat constructor; (reflexivity || discriminate).
  - intros t [= <-]. unfold MaxInt64. lia.
  - exists d. split; [exact Hd|]. rewrite Hk by (by apply user_key_dec_ok). reflexivity.
Defined.

Definition bad_status : list (text * text) :=
  [(bs "content-type", bs "application/grpc"); (bs "grpc-status", bs "99999999999")].

Lemma client_status_total_witness :
  statusGen (fst (decodeHeader false false bad_status data0)) = None /\
  exists n, rawStatusCode (fst (decodeHeader false false bad_status data0)) = Some n /\
    (MaxInt32 < n \/ n < - 2 ^ 31).
Proof.
  pose proof (client_status_total false bad_status data0 _ (surjective_pairing _)) as H.
  assert (status_ (fst (decodeHeader false false bad_status data0)) = None) as E by (vm_compute; reflexivity).
  rewrite E in H. exact H.
Defined.

(** A key appended with capitals is encoded by its original spelling but decoded by its
    lower-case one: the value of a binary key is lost. *)
Lemma mixed_case_binary_key :
  mdata (fst (decodeHeader true false (createHeaderFields (bs "http") sample_call None
    (Some ([], [[bs "Token-Bin"; bs "a!b"]]))) data0)) !! bs "token-bin" = None.
Proof. vm_compute. reflexivity. Qed.
