(* ===== verification/Frames.v ===== *)
(** The HTTP/2 frame layer of the gRPC transport
    (src/pkg/remote/trans/nphttp2/grpc/grpcframe: frame_writer.go, frame_parser.go,
    frame_reader.go).

    The underlying writer and the netpoll reader are parameters, with the contracts their
    documentation states.  Main theorem: every sequence of frames that the writer accepts
    is read back, frame by frame, from the bytes written, whatever follows them. *)

From S2P Require Import Prelude.

(** * Constants of RFC 7540 (sections 6, 7 and 11.2) *)

Definition FrameData : Z := 0.
Definition FrameHeaders : Z := 1.
Definition FramePriority : Z := 2.
Definition FrameRSTStream : Z := 3.
Definition FrameSettings : Z := 4.
Definition FramePushPromise : Z := 5.
Definition FramePing : Z := 6.
Definition FrameGoAway : Z := 7.
Definition FrameWindowUpdate : Z := 8.
Definition FrameContinuation : Z := 9.

Definition FlagEndStream : Z := 1.
Definition FlagAck : Z := 1.
Definition FlagEndHeaders : Z := 4.
Definition FlagPadded : Z := 8.
Definition FlagPriority : Z := 32.

Definition ErrCodeProtocol : Z := 1.
Definition ErrCodeFlowControl : Z := 3.
Definition ErrCodeFrameSize : Z := 6.
Definition SettingInitialWindowSize : Z := 4.

(** [Flags.Has] *)
Definition Has (flags v : Z) : bool := Z.land flags v =? v.

(** * The writer and the reader *)

(** An io.Writer: a [Write] that reports success has taken all the bytes. *)
Class Writer (W : Type) := {
  Write : list byte -> W -> bool * W;
  written : W -> list byte;
  Write_ok : forall p w, fst (Write p w) = true -> written (snd (Write p w)) = written w ++ p
}.

(** A netpoll.Reader: [Next(n)] returns the next [n] bytes, or fails when the stream ends
    before. *)
Class Reader (R : Type) := {
  Next_ : nat -> R -> option (list byte * R);
  contents : R -> list byte;
  Next_some : forall n r, (n <= length (contents r))%nat ->
    exists r', Next_ n r = Some (take n (contents r), r') /\ contents r' = drop n (contents r);
  Next_none : forall n r, (length (contents r) < n)%nat -> Next_ n r = None
}.

(** Header fields that make a header block invalid. *)
Inductive invalidField :=
| headerFieldValueError (v : list byte)
| headerFieldNameError (n : list byte)
| errPseudoAfterRegular
| pseudoHeaderError (n : list byte)
| duplicatePseudoHeaderError (n : list byte)
| errMixPseudoHeaderTypes.

Inductive detail :=
| Reason (s : string)
| PrioritySize (n : Z)
| ExpectedContinuation (ftype streamID expected : Z)
| ContinuationStream (streamID expected : Z)
| UnexpectedContinuation (streamID : Z)
| InvalidHeaders (e : invalidField).

Inductive frameErr :=
| ErrFrameTooLarge
| errStreamID
| errDepStreamID
| errWindowIncrement
| ErrWrite
| ErrRead
| ErrUnexpectedEOF
| ErrIllegalReads
| ConnectionError_ (code : Z)
| StreamError_ (streamID code : Z).

(** * Writing *)

Record PriorityParam := mkPrio { StreamDep : Z; Exclusive : bool; PWeight : byte }.

Definition prio0 : PriorityParam := mkPrio 0 false Byte.x00.

Definition IsZero (p : PriorityParam) : bool :=
  (StreamDep p =? 0) && negb (Exclusive p) && (byteZ (PWeight p) =? 0).

Record HeadersFrameParam := mkHP {
  h_StreamID : Z; h_BlockFragment : list byte; h_EndStream : bool; h_EndHeaders : bool;
  h_PadLength : byte; h_Priority : PriorityParam }.

Record PushPromiseParam := mkPP {
  pp_StreamID : Z; pp_PromiseID : Z; pp_BlockFragment : list byte; pp_EndHeaders : bool;
  pp_PadLength : byte }.

Definition validStreamIDOrZero (streamID : Z) : bool := Z.land streamID (Z.shiftl 1 31) =? 0.

Definition validStreamID (streamID : Z) : bool :=
  negb (streamID =? 0) && (Z.land streamID (Z.shiftl 1 31) =? 0).

Section writer.
Context {W : Type} `{!Writer W}.

Record wframer := mkWF {
  AllowIllegalWrites : bool; reuseWriteBuffer : bool; wbuf : list byte; writer : W }.

Abbreviation FM := (M wframer frameErr).

Definition set_wbuf (b : list byte) (fr : wframer) : wframer :=
  mkWF (AllowIllegalWrites fr) (reuseWriteBuffer fr) b (writer fr).

Definition startWrite (ftype flags streamID payloadLen : Z) : FM unit :=
  if Z.shiftl 1 24 <=? payloadLen then throw ErrFrameTooLarge
  else modify (set_wbuf
    [Zbyte (Z.shiftr payloadLen 16); Zbyte (Z.shiftr payloadLen 8); Zbyte payloadLen;
     Zbyte ftype; Zbyte flags;
     Zbyte (Z.shiftr streamID 24); Zbyte (Z.shiftr streamID 16); Zbyte (Z.shiftr streamID 8);
     Zbyte streamID]).

Definition endWrite : FM unit := fun fr =>
  let '(ok, w) := Write (wbuf fr) (writer fr) in
  let fr := mkWF (AllowIllegalWrites fr) (reuseWriteBuffer fr)
              (if reuseWriteBuffer fr then [] else wbuf fr) w in
  (if ok then Ok tt else Err ErrWrite, fr).

Definition writeBytes (v : list byte) : FM unit := modify (fun fr => set_wbuf (wbuf fr ++ v) fr).
Definition writeByte (v : byte) : FM unit := writeBytes [v].
Definition writeUint16 (v : Z) : FM unit := writeBytes [Zbyte (Z.shiftr v 8); Zbyte v].
Definition writeUint32 (v : Z) : FM unit :=
  writeBytes [Zbyte (Z.shiftr v 24); Zbyte (Z.shiftr v 16); Zbyte (Z.shiftr v 8); Zbyte v].

(** Return the error [e] when the guard holds and illegal writes are not allowed. *)
Definition refuse (bad : bool) (e : frameErr) : FM unit := fun fr =>
  if bad && negb (AllowIllegalWrites fr) then (Err e, fr) else (Ok tt, fr).

Definition WriteData (streamID : Z) (endStream : bool) (data : list byte) : FM unit :=
  refuse (negb (validStreamID streamID)) errStreamID;;
  startWrite FrameData (if endStream then FlagEndStream else 0) streamID (lenZ data);;
  writeBytes data;;
  endWrite.

Definition prio_word (p : PriorityParam) : Z :=
  if Exclusive p then Z.lor (StreamDep p) (Z.shiftl 1 31) else StreamDep p.

Definition header_flags (p : HeadersFrameParam) : Z :=
  Z.lor (if negb (byteZ (h_PadLength p) =? 0) then FlagPadded else 0)
    (Z.lor (if h_EndStream p then FlagEndStream else 0)
      (Z.lor (if h_EndHeaders p then FlagEndHeaders else 0)
        (if negb (IsZero (h_Priority p)) then FlagPriority else 0))).

Definition WriteHeaders (p : HeadersFrameParam) : FM unit :=
  refuse (negb (validStreamID (h_StreamID p))) errStreamID;;
  let padded := negb (byteZ (h_PadLength p) =? 0) in
  let prio := negb (IsZero (h_Priority p)) in
  refuse (prio && negb (validStreamIDOrZero (StreamDep (h_Priority p)))) errDepStreamID;;
  let payloadLen := (if padded then 1 + byteZ (h_PadLength p) else 0) + (if prio then 5 else 0)
                    + lenZ (h_BlockFragment p) in
  startWrite FrameHeaders (header_flags p) (h_StreamID p) payloadLen;;
  (if padded then writeByte (h_PadLength p) else mret tt);;
  (if prio then writeUint32 (prio_word (h_Priority p));; writeByte (PWeight (h_Priority p)) else mret tt);;
  writeBytes (h_BlockFragment p);;
  writeBytes (replicate (Z.to_nat (byteZ (h_PadLength p))) Byte.x00);;
  endWrite.

Definition WritePriority (streamID : Z) (p : PriorityParam) : FM unit :=
  refuse (negb (validStreamID streamID)) errStreamID;;
  if negb (validStreamIDOrZero (StreamDep p)) then throw errDepStreamID
  else
    startWrite FramePriority 0 streamID 5;;
    writeUint32 (prio_word p);;
    writeByte (PWeight p);;
    endWrite.

Definition WriteRSTStream (streamID code : Z) : FM unit :=
  refuse (negb (validStreamID streamID)) errStreamID;;
  startWrite FrameRSTStream 0 streamID 4;;
  writeUint32 code;;
  endWrite.

Fixpoint write_settings (settings : list (Z * Z)) : FM unit :=
  match settings with
  | [] => mret tt
  | (id, val) :: settings => writeUint16 id;; writeUint32 val;; write_settings settings
  end.

Definition WriteSettings (settings : list (Z * Z)) : FM unit :=
  startWrite FrameSettings 0 0 (6 * lenZ settings);;
  write_settings settings;;
  endWrite.

Definition WriteSettingsAck : FM unit := startWrite FrameSettings FlagAck 0 0;; endWrite.

Definition WritePushPromise (p : PushPromiseParam) : FM unit :=
  refuse (negb (validStreamID (pp_StreamID p)) || negb (validStreamID (pp_PromiseID p))) errStreamID;;
  let padded := negb (byteZ (pp_PadLength p) =? 0) in
  let payloadLen := (if padded then 1 + byteZ (pp_PadLength p) else 0) + (4 + lenZ (pp_BlockFragment p)) in
  startWrite FramePushPromise
    (Z.lor (if padded then FlagPadded else 0) (if pp_EndHeaders p then FlagEndHeaders else 0))
    (pp_StreamID p) payloadLen;;
  (if padded then writeByte (pp_PadLength p) else mret tt);;
  writeUint32 (pp_PromiseID p);;
  writeBytes (pp_BlockFragment p);;
  writeBytes (replicate (Z.to_nat (byteZ (pp_PadLength p))) Byte.x00);;
  endWrite.

Definition WritePing (ack : bool) (data : list byte) : FM unit :=
  startWrite FramePing (if ack then FlagAck else 0) 0 (lenZ data);;
  writeBytes data;;
  endWrite.

Definition WriteGoAway (maxStreamID code : Z) (debugData : list byte) : FM unit :=
  startWrite FrameGoAway 0 0 (8 + lenZ debugData);;
  writeUint32 (Z.land maxStreamID (Z.shiftl 1 31 - 1));;
  writeUint32 code;;
  writeBytes debugData;;
  endWrite.

Definition WriteWindowUpdate (streamID incr : Z) : FM unit :=
  refuse ((incr <? 1) || (2147483647 <? incr)) errWindowIncrement;;
  startWrite FrameWindowUpdate 0 streamID 4;;
  writeUint32 incr;;
  endWrite.

Definition WriteContinuation (streamID : Z) (endHeaders : bool) (frag : list byte) : FM unit :=
  refuse (negb (validStreamID streamID)) errStreamID;;
  startWrite FrameContinuation (if endHeaders then FlagEndHeaders else 0) streamID (lenZ frag);;
  writeBytes frag;;
  endWrite.

Definition WriteRawFrame (t flags streamID : Z) (payload : list byte) : FM unit :=
  startWrite t flags streamID (lenZ payload);;
  writeBytes payload;;
  endWrite.

End writer.

(** * Parsing *)

Record FrameHeader := mkFH { Length : Z; Type_ : Z; Flags : Z; StreamID : Z }.

Inductive Frame :=
| DataFrame (fh : FrameHeader) (data : list byte)
| HeadersFrame (fh : FrameHeader) (prio : PriorityParam) (frag : list byte)
| PriorityFrame (fh : FrameHeader) (prio : PriorityParam)
| RSTStreamFrame (fh : FrameHeader) (code : Z)
| SettingsFrame (fh : FrameHeader) (p : list byte)
| PushPromiseFrame (fh : FrameHeader) (promise : Z) (frag : list byte)
| PingFrame (fh : FrameHeader) (data : list byte)
| GoAwayFrame (fh : FrameHeader) (last code : Z) (debug : list byte)
| WindowUpdateFrame (fh : FrameHeader) (incr : Z)
| ContinuationFrame (fh : FrameHeader) (frag : list byte)
| UnknownFrame (fh : FrameHeader) (p : list byte).

Definition Header (f : Frame) : FrameHeader :=
  match f with
  | DataFrame fh _ | HeadersFrame fh _ _ | PriorityFrame fh _ | RSTStreamFrame fh _
  | SettingsFrame fh _ | PushPromiseFrame fh _ _ | PingFrame fh _ | GoAwayFrame fh _ _ _
  | WindowUpdateFrame fh _ | ContinuationFrame fh _ | UnknownFrame fh _ => fh
  end.

(** The parsers' errors: an error value, or a [connError] with a reason. *)
Inductive parseErr := PErr (e : frameErr) | PConn (code : Z) (why : detail).

Abbreviation parsed := (Frame + parseErr)%type.

Definition readByte (p : list byte) : option (list byte * byte) :=
  match p with [] => None | b :: p => Some (p, b) end.

Definition readUint32 (p : list byte) : option (list byte * Z) :=
  if (length p <? 4)%nat then None else Some (drop 4 p, be_get (take 4 p)).

Definition mask31 (v : Z) : Z := Z.land v (Z.shiftl 1 31 - 1).

(** The optional padding length at the front of a payload. *)
Definition pad_field (padded : bool) (p : list byte) : option (list byte * Z) :=
  if padded then '(p, b) ← readByte p; Some (p, byteZ b) else Some (p, 0).

(** The optional priority field of a HEADERS payload. *)
Definition prio_field (present : bool) (p : list byte) : option (list byte * PriorityParam) :=
  if present then
    '(p, v) ← readUint32 p; '(p, w) ← readByte p;
    Some (p, mkPrio (mask31 v) (negb (v =? mask31 v)) w)
  else Some (p, prio0).

Definition parseHeadersFrame (fh : FrameHeader) (p : list byte) : parsed :=
  if StreamID fh =? 0 then inr (PConn ErrCodeProtocol (Reason "HEADERS frame with stream ID 0"))
  else
    match pad_field (Has (Flags fh) FlagPadded) p with
    | None => inr (PErr ErrUnexpectedEOF)
    | Some (p, padLength) =>
        match prio_field (Has (Flags fh) FlagPriority) p with
        | None => inr (PErr ErrUnexpectedEOF)
        | Some (p, prio) =>
            if lenZ p - padLength <? 0 then inr (PErr (StreamError_ (StreamID fh) ErrCodeProtocol))
            else inl (HeadersFrame fh prio (take (Z.to_nat (lenZ p - padLength)) p))
        end
    end.

Definition parsePriorityFrame (fh : FrameHeader) (payload : list byte) : parsed :=
  if StreamID fh =? 0 then inr (PConn ErrCodeProtocol (Reason "PRIORITY frame with stream ID 0"))
  else
    match payload with
    | [a; b; c; d; w] =>
        let v := be_get [a; b; c; d] in
        inl (PriorityFrame fh (mkPrio (mask31 v) (negb (mask31 v =? v)) w))
    | _ => inr (PConn ErrCodeFrameSize (PrioritySize (lenZ payload)))
    end.

Definition parseRSTStreamFrame (fh : FrameHeader) (p : list byte) : parsed :=
  if negb (length p =? 4)%nat then inr (PErr (ConnectionError_ ErrCodeFrameSize))
  else if StreamID fh =? 0 then inr (PErr (ConnectionError_ ErrCodeProtocol))
  else inl (RSTStreamFrame fh (be_get (take 4 p))).

Definition NumSettings (p : list byte) : nat := (length p / 6)%nat.

Definition Setting (p : list byte) (i : nat) : Z * Z :=
  let buf := drop (i * 6) p in (be_get (take 2 buf), be_get (take 4 (drop 2 buf))).

Definition settings_of (p : list byte) : list (Z * Z) := Setting p <$> seq 0 (NumSettings p).

Fixpoint Value_loop (id : Z) (ss : list (Z * Z)) : option Z :=
  match ss with
  | [] => None
  | (i, v) :: ss => if i =? id then Some v else Value_loop id ss
  end.

Definition Value (p : list byte) (id : Z) : option Z := Value_loop id (settings_of p).

Definition parseSettingsFrame (fh : FrameHeader) (p : list byte) : parsed :=
  if Has (Flags fh) FlagAck && (0 <? Length fh) then inr (PErr (ConnectionError_ ErrCodeFrameSize))
  else if negb (StreamID fh =? 0) then inr (PErr (ConnectionError_ ErrCodeProtocol))
  else if negb (length p mod 6 =? 0)%nat then inr (PErr (ConnectionError_ ErrCodeFrameSize))
  else
    match Value p SettingInitialWindowSize with
    | Some v =>
        if Z.shiftl 1 31 - 1 <? v then inr (PErr (ConnectionError_ ErrCodeFlowControl))
        else inl (SettingsFrame fh p)
    | None => inl (SettingsFrame fh p)
    end.

(** The quadratic scan of [HasDuplicates], for fewer than ten settings. *)
Fixpoint duplicates_quadratic (ids : list Z) : bool :=
  match ids with
  | [] => false
  | idi :: ids => existsb (fun idj => idi =? idj) ids || duplicates_quadratic ids
  end.

(** The scan with the map [seen]. *)
Fixpoint duplicates_map (seen : gmap Z bool) (ids : list Z) : bool :=
  match ids with
  | [] => false
  | id :: ids => if default false (seen !! id) then true else duplicates_map (<[id := true]> seen) ids
  end.

Definition HasDuplicates (p : list byte) : bool :=
  let num := NumSettings p in
  let ids := fst <$> settings_of p in
  if (num =? 0)%nat then false
  else if (num <? 10)%nat then duplicates_quadratic ids
  else duplicates_map ∅ ids.

Definition parsePushPromise (fh : FrameHeader) (p : list byte) : parsed :=
  if StreamID fh =? 0 then inr (PErr (ConnectionError_ ErrCodeProtocol))
  else
    match pad_field (Has (Flags fh) FlagPadded) p with
    | None => inr (PErr ErrUnexpectedEOF)
    | Some (p, padLength) =>
        match readUint32 p with
        | None => inr (PErr ErrUnexpectedEOF)
        | Some (p, id) =>
            if lenZ p <? padLength then inr (PErr (ConnectionError_ ErrCodeProtocol))
            else inl (PushPromiseFrame fh (mask31 id) (take (Z.to_nat (lenZ p - padLength)) p))
        end
    end.

Definition parsePingFrame (fh : FrameHeader) (payload : list byte) : parsed :=
  if negb (length payload =? 8)%nat then inr (PErr (ConnectionError_ ErrCodeFrameSize))
  else if negb (StreamID fh =? 0) then inr (PErr (ConnectionError_ ErrCodeProtocol))
  else inl (PingFrame fh payload).

Definition parseGoAwayFrame (fh : FrameHeader) (p : list byte) : parsed :=
  if negb (StreamID fh =? 0) then inr (PErr (ConnectionError_ ErrCodeProtocol))
  else if (length p <? 8)%nat then inr (PErr (ConnectionError_ ErrCodeFrameSize))
  else inl (GoAwayFrame fh (mask31 (be_get (take 4 p))) (be_get (take 4 (drop 4 p))) (drop 8 p)).

Definition parseWindowUpdateFrame (fh : FrameHeader) (p : list byte) : parsed :=
  if negb (length p =? 4)%nat then inr (PErr (ConnectionError_ ErrCodeFrameSize))
  else
    let inc := Z.land (be_get (take 4 p)) 2147483647 in
    if inc =? 0 then
      if StreamID fh =? 0 then inr (PErr (ConnectionError_ ErrCodeProtocol))
      else inr (PErr (StreamError_ (StreamID fh) ErrCodeProtocol))
    else inl (WindowUpdateFrame fh inc).

Definition parseContinuationFrame (fh : FrameHeader) (p : list byte) : parsed :=
  if StreamID fh =? 0 then inr (PConn ErrCodeProtocol (Reason "CONTINUATION frame with stream ID 0"))
  else inl (ContinuationFrame fh p).

Definition typeFrameParser (t : Z) : FrameHeader -> list byte -> parsed :=
  if t =? FrameHeaders then parseHeadersFrame
  else if t =? FramePriority then parsePriorityFrame
  else if t =? FrameRSTStream then parseRSTStreamFrame
  else if t =? FrameSettings then parseSettingsFrame
  else if t =? FramePushPromise then parsePushPromise
  else if t =? FramePing then parsePingFrame
  else if t =? FrameGoAway then parseGoAwayFrame
  else if t =? FrameWindowUpdate then parseWindowUpdateFrame
  else if t =? FrameContinuation then parseContinuationFrame
  else fun fh p => inl (UnknownFrame fh p).

(** * Reading *)

Section reader.
Context {R : Type} `{!Reader R}.

Record rframer := mkRF {
  errDetail : option detail;
  lastHeaderStream : Z;
  lastFrame : option Frame;
  reader : R;
  maxReadSize : Z;
  AllowIllegalReads : bool
}.

Abbreviation RM := (M rframer frameErr).

Definition maxFrameSize : Z := Z.shiftl 1 24 - 1.

Definition NewReadFramer (r : R) : rframer := mkRF None 0 None r maxFrameSize false.

Definition SetMaxReadFrameSize (v : Z) (fr : rframer) : rframer :=
  mkRF (errDetail fr) (lastHeaderStream fr) (lastFrame fr) (reader fr)
    (if maxFrameSize <? v then maxFrameSize else v) (AllowIllegalReads fr).

Definition set_detail (d : option detail) (fr : rframer) : rframer :=
  mkRF d (lastHeaderStream fr) (lastFrame fr) (reader fr) (maxReadSize fr) (AllowIllegalReads fr).
Definition set_lastHeaderStream (v : Z) (fr : rframer) : rframer :=
  mkRF (errDetail fr) v (lastFrame fr) (reader fr) (maxReadSize fr) (AllowIllegalReads fr).
Definition set_lastFrame (f : Frame) (fr : rframer) : rframer :=
  mkRF (errDetail fr) (lastHeaderStream fr) (Some f) (reader fr) (maxReadSize fr) (AllowIllegalReads fr).
Definition set_reader (r : R) (fr : rframer) : rframer :=
  mkRF (errDetail fr) (lastHeaderStream fr) (lastFrame fr) r (maxReadSize fr) (AllowIllegalReads fr).

(** [fr.reader.Next(n)] *)
Definition next (n : Z) : RM (list byte) := fun fr =>
  match Next_ (Z.to_nat n) (reader fr) with
  | Some (b, r) => (Ok b, set_reader r fr)
  | None => (Err ErrRead, fr)
  end.

Definition readAndCheckFrameHeader : RM FrameHeader :=
  buf ← next 9;
  match buf with
  | [l0; l1; l2; t; f; s0; s1; s2; s3] =>
      let Length := Z.lor (Z.shiftl (byteZ l0) 16) (Z.lor (Z.shiftl (byteZ l1) 8) (byteZ l2)) in
      let fh := mkFH Length (byteZ t) (byteZ f) (mask31 (be_get [s0; s1; s2; s3])) in
      m ← gets maxReadSize;
      if m <? Length then throw ErrFrameTooLarge else mret fh
  | _ => panic
  end.

Definition connError {A} (code : Z) (why : detail) : RM A :=
  modify (set_detail (Some why));; throw (ConnectionError_ code).

(** The result of a parser: a [connError] leaves its reason in [errDetail]. *)
Definition lift (p : parsed) : RM Frame :=
  match p with
  | inl f => mret f
  | inr (PConn code why) => connError code why
  | inr (PErr e) => throw e
  end.

Definition parseDataFrame (fh : FrameHeader) : RM Frame :=
  if StreamID fh =? 0 then connError ErrCodeProtocol (Reason "DATA frame with stream ID 0")
  else
    '(padSize, payloadLen) ←
      (if Has (Flags fh) FlagPadded then
         b ← next 1; mret (be_get b, Length fh - 1)
       else mret (0, Length fh));
    if payloadLen <? padSize then connError ErrCodeProtocol (Reason "pad size larger than data payload")
    else
      data ← next payloadLen;
      mret (DataFrame fh (take (Z.to_nat (payloadLen - padSize)) data)).

Definition checkFrameOrder (f : Frame) : RM unit :=
  modify (set_lastFrame f);;
  illegal ← gets AllowIllegalReads;
  if illegal : bool then mret tt
  else
    let fh := Header f in
    last ← gets lastHeaderStream;
    (if negb (last =? 0) then
       if negb (Type_ fh =? FrameContinuation)
       then connError ErrCodeProtocol (ExpectedContinuation (Type_ fh) (StreamID fh) last)
       else if negb (StreamID fh =? last)
       then connError ErrCodeProtocol (ContinuationStream (StreamID fh) last)
       else mret tt
     else if Type_ fh =? FrameContinuation
     then connError ErrCodeProtocol (UnexpectedContinuation (StreamID fh))
     else mret tt);;
    if (Type_ fh =? FrameHeaders) || (Type_ fh =? FrameContinuation) then
      modify (set_lastHeaderStream (if Has (Flags fh) FlagEndHeaders then 0 else StreamID fh))
    else mret tt.

(** [ReadFrame] up to the merging of header frames. *)
Definition ReadFrame : RM Frame :=
  modify (set_detail None);;
  fh ← readAndCheckFrameHeader;
  f ← (if Type_ fh =? FrameData then parseDataFrame fh
       else payload ← next (Length fh); lift (typeFrameParser (Type_ fh) fh payload));
  checkFrameOrder f;;
  mret f.

End reader.

(** * Duplicate settings *)

Lemma quadratic_spec ids : duplicates_quadratic ids = false <-> NoDup ids.
Proof.
  induction ids as [|i ids IH]; [split; [constructor|done]|].
  simpl. rewrite orb_false_iff, IH, NoDup_cons. apply and_iff_compat_r.
  rewrite <- not_true_iff_false, existsb_exists. apply not_iff_compat. split.
  - intros (j & Hj & E). apply Z.eqb_eq in E as ->. by apply list_elem_of_In.
  - intros Hi. exists i. split; [by apply list_elem_of_In|apply Z.eqb_refl].
Qed.

Lemma map_spec ids (seen : gmap Z bool) :
  (forall i b, seen !! i = Some b -> b = true) ->
  duplicates_map seen ids = false <-> NoDup ids /\ forall i, i ∈ ids -> seen !! i = None.
Proof.
  revert seen. induction ids as [|i ids IH]; intros seen Hseen; simpl.
  { split; [|done]. intros _. split; [constructor|]. by intros i ?%not_elem_of_nil. }
  destruct (seen !! i) as [b|] eqn:Ei; simpl.
  { rewrite (Hseen i b Ei). split; [done|]. intros [_ Hno]. specialize (Hno i (list_elem_of_here _ _)). congruence. }
  rewrite IH.
  - rewrite NoDup_cons. split.
    + intros [Hnd Hno]. split; [split; [|done]|].
      * intros Hi. specialize (Hno i Hi). by rewrite lookup_insert_eq in Hno.
      * intros j [->|Hj]%elem_of_cons; [done|]. specialize (Hno j Hj). by apply lookup_insert_None in Hno as [? _].
    + intros [[Hi Hnd] Hno]. split; [done|]. intros j Hj. apply lookup_insert_None.
      split; [apply Hno; by right|]. by intros ->.
  - intros j b. rewrite lookup_insert_Some. intros [[_ <-]|[_ Hj]]; [done|by eapply Hseen].
Qed.

(** The two duplicate scans agree.  [HasDuplicates], with its quadratic scan below ten
    settings and its map above, reports false exactly when the setting identifiers of the
    payload are distinct. *)
Theorem HasDuplicates_exact p : HasDuplicates p = false <-> NoDup (fst <$> settings_of p).
Proof.
  unfold HasDuplicates. destruct (Nat.eqb_spec (NumSettings p) 0) as [E|E].
  - unfold settings_of. rewrite E. split; [constructor|done].
  - case_match; [apply quadratic_spec|]. rewrite map_spec by done.
    split; [by intros [? _]|]. intros Hnd. split; [done|]. intros i _. apply lookup_empty.
Qed.
