(* ===== verification/FramesSpec.v ===== *)
(** Frames written are frames read: the wire format of each write operation, the parser on
    it, and the round trip of sequences of frames (see Frames). *)

From S2P Require Import Prelude Frames.

(** * Bits *)

Lemma lor_shiftl_add a k b : 0 <= k -> 0 <= b < 2 ^ k -> Z.lor (Z.shiftl a k) b = a * 2 ^ k + b.
Proof.
  intros Hk Hb. rewrite <- Z.shiftl_mul_pow2 by done. rewrite <- Z.add_lor_land.
  enough (Z.land (Z.shiftl a k) b = 0) as -> by lia.
  apply Z.bits_inj'. intros n Hn. rewrite Z.land_spec, Z.bits_0, Z.shiftl_spec by done.
  destruct (Z.ltb_spec n k); [by rewrite Z.testbit_neg_r by lia|].
  rewrite <- (Z.mod_small b (2 ^ k)) by done. rewrite Z.mod_pow2_bits_high by lia. apply andb_false_r.
Qed.

Lemma mask31_mod v : mask31 v = v mod 2 ^ 31.
Proof. unfold mask31. change (Z.shiftl 1 31 - 1) with (Z.ones 31). by apply Z.land_ones. Qed.

Lemma validStreamIDOrZero_lt v : 0 <= v < 2 ^ 32 -> validStreamIDOrZero v = true -> v < 2 ^ 31.
Proof.
  unfold validStreamIDOrZero. intros Hv H. apply Z.eqb_eq in H. destruct (Z.lt_ge_cases v (2 ^ 31)); [done|].
  assert (Z.testbit (Z.land v (Z.shiftl 1 31)) 31 = true) as Hb; [|by rewrite H in Hb].
  rewrite Z.land_spec. apply andb_true_iff. split; [|done].
  apply Z.testbit_true; [lia|]. replace (v / 2 ^ 31) with 1; [done|].
  apply (Z.div_unique v (2 ^ 31) 1 (v - 2 ^ 31)); lia.
Qed.

Lemma validStreamID_range v : 0 <= v < 2 ^ 32 -> validStreamID v = true -> 0 < v < 2 ^ 31.
Proof.
  unfold validStreamID. intros Hv [H1 H2]%andb_true_iff.
  pose proof (validStreamIDOrZero_lt v Hv H2). destruct (Z.eqb_spec v 0); [done|lia].
Qed.

Lemma prio_word_spec p :
  0 <= StreamDep p < 2 ^ 31 -> prio_word p = StreamDep p + (if Exclusive p then 2 ^ 31 else 0).
Proof.
  intros Hs. unfold prio_word. destruct (Exclusive p); [|lia].
  rewrite Z.lor_comm, lor_shiftl_add by lia. lia.
Qed.

Lemma be_put_4 v :
  [Zbyte (Z.shiftr v 24); Zbyte (Z.shiftr v 16); Zbyte (Z.shiftr v 8); Zbyte v] = be_put 4 v.
Proof. rewrite !Z.shiftr_div_pow2 by lia. simpl. by rewrite Z.div_1_r. Qed.

Lemma be_put_2 v : [Zbyte (Z.shiftr v 8); Zbyte v] = be_put 2 v.
Proof. rewrite !Z.shiftr_div_pow2 by lia. simpl. by rewrite Z.div_1_r. Qed.

Lemma be_get_3 a b c :
  Z.lor (Z.shiftl (byteZ a) 16) (Z.lor (Z.shiftl (byteZ b) 8) (byteZ c)) = be_get [a; b; c].
Proof.
  pose proof (byteZ_range a). pose proof (byteZ_range b). pose proof (byteZ_range c).
  rewrite (lor_shiftl_add (byteZ b)) by lia. rewrite lor_shiftl_add by lia.
  unfold be_get. simpl. lia.
Qed.

(** * The wire form *)

Definition frame_bytes (ft fl sid : Z) (p : list byte) : list byte :=
  be_put 3 (lenZ p) ++ [Zbyte ft; Zbyte fl] ++ be_put 4 sid ++ p.

(** The write operations. *)
Inductive wop :=
| WData (sid : Z) (endStream : bool) (data : list byte)
| WHeaders (p : HeadersFrameParam)
| WPriority (sid : Z) (p : PriorityParam)
| WRSTStream (sid code : Z)
| WSettings (ss : list (Z * Z))
| WSettingsAck
| WPushPromise (p : PushPromiseParam)
| WPing (ack : bool) (data : list byte)
| WGoAway (lastID code : Z) (debug : list byte)
| WWindowUpdate (sid incr : Z)
| WContinuation (sid : Z) (endHeaders : bool) (frag : list byte)
| WRaw (t flags sid : Z) (payload : list byte).

Definition padded (b : byte) : bool := negb (byteZ b =? 0).
Definition pad_head (b : byte) : list byte := if padded b then [b] else [].
Definition pad_tail (b : byte) : list byte := replicate (Z.to_nat (byteZ b)) Byte.x00.

Definition payload (o : wop) : list byte :=
  match o with
  | WData _ _ data => data
  | WHeaders p =>
      pad_head (h_PadLength p)
      ++ (if negb (IsZero (h_Priority p))
          then be_put 4 (prio_word (h_Priority p)) ++ [PWeight (h_Priority p)] else [])
      ++ h_BlockFragment p ++ pad_tail (h_PadLength p)
  | WPriority _ p => be_put 4 (prio_word p) ++ [PWeight p]
  | WRSTStream _ code => be_put 4 code
  | WSettings ss => ss ≫= fun '(id, v) => be_put 2 id ++ be_put 4 v
  | WSettingsAck => []
  | WPushPromise p =>
      pad_head (pp_PadLength p) ++ be_put 4 (pp_PromiseID p) ++ pp_BlockFragment p ++ pad_tail (pp_PadLength p)
  | WPing _ data => data
  | WGoAway lastID code debug => be_put 4 (mask31 lastID) ++ be_put 4 code ++ debug
  | WWindowUpdate _ incr => be_put 4 incr
  | WContinuation _ _ frag => frag
  | WRaw _ _ _ p => p
  end.

Definition op_type (o : wop) : Z :=
  match o with
  | WData _ _ _ => FrameData | WHeaders _ => FrameHeaders | WPriority _ _ => FramePriority
  | WRSTStream _ _ => FrameRSTStream | WSettings _ | WSettingsAck => FrameSettings
  | WPushPromise _ => FramePushPromise | WPing _ _ => FramePing | WGoAway _ _ _ => FrameGoAway
  | WWindowUpdate _ _ => FrameWindowUpdate | WContinuation _ _ _ => FrameContinuation
  | WRaw t _ _ _ => t
  end.

Definition op_flags (o : wop) : Z :=
  match o with
  | WData _ es _ => if es then FlagEndStream else 0
  | WHeaders p => header_flags p
  | WSettingsAck => FlagAck
  | WPushPromise p =>
      Z.lor (if padded (pp_PadLength p) then FlagPadded else 0) (if pp_EndHeaders p then FlagEndHeaders else 0)
  | WPing ack _ => if ack then FlagAck else 0
  | WContinuation _ eh _ => if eh then FlagEndHeaders else 0
  | WRaw _ fl _ _ => fl
  | _ => 0
  end.

Definition op_stream (o : wop) : Z :=
  match o with
  | WData sid _ _ | WPriority sid _ | WRSTStream sid _ | WWindowUpdate sid _ | WContinuation sid _ _
  | WRaw _ _ sid _ => sid
  | WHeaders p => h_StreamID p
  | WPushPromise p => pp_StreamID p
  | _ => 0
  end.

Section write.
Context {W : Type} `{!Writer W}.

Definition write_op (o : wop) : M (wframer (W := W)) frameErr unit :=
  match o with
  | WData sid es data => WriteData sid es data
  | WHeaders p => WriteHeaders p
  | WPriority sid p => WritePriority sid p
  | WRSTStream sid code => WriteRSTStream sid code
  | WSettings ss => WriteSettings ss
  | WSettingsAck => WriteSettingsAck
  | WPushPromise p => WritePushPromise p
  | WPing ack data => WritePing ack data
  | WGoAway lastID code debug => WriteGoAway lastID code debug
  | WWindowUpdate sid incr => WriteWindowUpdate sid incr
  | WContinuation sid eh frag => WriteContinuation sid eh frag
  | WRaw t fl sid p => WriteRawFrame t fl sid p
  end.

(** [m] appends [p] to the buffer; [m] appends [p] and then ends the frame. *)
Definition appends (m : M (wframer (W := W)) frameErr unit) (p : list byte) : Prop :=
  forall fr, m fr = (Ok tt, set_wbuf (wbuf fr ++ p) fr).
Definition finishes (m : M (wframer (W := W)) frameErr unit) (p : list byte) : Prop :=
  forall fr, m fr = endWrite (set_wbuf (wbuf fr ++ p) fr).

Lemma appends_bytes p : appends (writeBytes p) p.
Proof. done. Qed.

Lemma appends_u32 v : appends (writeUint32 v) (be_put 4 v).
Proof. intros fr. unfold writeUint32. by rewrite be_put_4. Qed.

Lemma appends_u16 v : appends (writeUint16 v) (be_put 2 v).
Proof. intros fr. unfold writeUint16. by rewrite be_put_2. Qed.

Lemma appends_nil : appends (mret tt) [].
Proof. intros [a b c d]. unfold set_wbuf. simpl. by rewrite app_nil_r. Qed.

Lemma appends_if (b : bool) m p : appends m p -> appends (if b then m else mret tt) (if b then p else []).
Proof. destruct b; [done|intros _; apply appends_nil]. Qed.

Lemma appends_bind m n p q : appends m p -> appends n q -> appends (m;; n) (p ++ q).
Proof.
  intros Hm Hn fr. unfold mbind, M_bind. rewrite Hm, Hn. unfold set_wbuf. simpl. by rewrite app_assoc.
Qed.

Lemma finishes_end : finishes endWrite [].
Proof. intros [a b c d]. unfold set_wbuf. simpl. by rewrite app_nil_r. Qed.

Lemma finishes_bind m n p q : appends m p -> finishes n q -> finishes (m;; n) (p ++ q).
Proof.
  intros Hm Hn fr. unfold mbind, M_bind. rewrite Hm, Hn. unfold set_wbuf. simpl. by rewrite app_assoc.
Qed.

Lemma appends_settings ss :
  appends (write_settings ss) (ss ≫= fun '(id, v) => be_put 2 id ++ be_put 4 v).
Proof.
  induction ss as [|[id v] ss IH]; [apply appends_nil|]. rewrite bind_cons. cbn [write_settings].
  rewrite <- app_assoc. apply appends_bind; [apply appends_u16|]. apply appends_bind; [apply appends_u32|done].
Qed.

(** A frame that was written successfully. *)
Definition wrote (ft fl sid : Z) (p : list byte) (fr : wframer (W := W)) (r : outcome frameErr unit)
    (fr' : wframer (W := W)) : Prop :=
  r = Ok tt ->
  AllowIllegalWrites fr' = AllowIllegalWrites fr /\ lenZ p < 2 ^ 24 /\
  written (writer fr') = written (writer fr) ++ frame_bytes ft fl sid p.

Lemma header_bytes ft fl sid p :
  [Zbyte (Z.shiftr (lenZ p) 16); Zbyte (Z.shiftr (lenZ p) 8); Zbyte (lenZ p); Zbyte ft; Zbyte fl;
   Zbyte (Z.shiftr sid 24); Zbyte (Z.shiftr sid 16); Zbyte (Z.shiftr sid 8); Zbyte sid] ++ p
  = frame_bytes ft fl sid p.
Proof. unfold frame_bytes. rewrite !Z.shiftr_div_pow2 by lia. simpl. by rewrite !Z.div_1_r. Qed.

Lemma emit_spec ft fl sid n body p fr :
  finishes body p -> n = lenZ p -> wp (startWrite ft fl sid n;; body) fr (wrote ft fl sid p fr).
Proof.
  intros Hb ->. unfold wp, startWrite, mbind, M_bind.
  destruct (Z.leb_spec (Z.shiftl 1 24) (lenZ p)); [done|]. unfold modify. rewrite Hb.
  unfold endWrite. cbn [set_wbuf wbuf writer AllowIllegalWrites reuseWriteBuffer]. rewrite header_bytes.
  pose proof (Write_ok (frame_bytes ft fl sid p) (writer fr)) as Hw.
  destruct (Write (frame_bytes ft fl sid p) (writer fr)) as [ok w']. simpl in *.
  intros Hr. destruct ok; [|done]. split; [done|]. split; [done|]. by apply Hw.
Qed.

Lemma wp_refuse bad e (m : M (wframer (W := W)) frameErr unit) fr Q :
  AllowIllegalWrites fr = false -> Q (Err e) fr -> (bad = false -> wp m fr Q) ->
  wp (refuse bad e;; m) fr Q.
Proof.
  intros Ha He Hm. unfold wp, refuse, mbind, M_bind in *. rewrite Ha. by destruct bad; [|apply Hm].
Qed.

(** The guards the operations check. *)
Definition op_guard (o : wop) : Prop :=
  match o with
  | WData sid _ _ | WRSTStream sid _ | WContinuation sid _ _ => validStreamID sid = true
  | WHeaders p => validStreamID (h_StreamID p) = true /\
      (IsZero (h_Priority p) = false -> validStreamIDOrZero (StreamDep (h_Priority p)) = true)
  | WPriority sid p => validStreamID sid = true /\ validStreamIDOrZero (StreamDep p) = true
  | WPushPromise p => validStreamID (pp_StreamID p) = true /\ validStreamID (pp_PromiseID p) = true
  | WWindowUpdate _ incr => 1 <= incr <= 2147483647
  | _ => True
  end.

Lemma length_pad b : (if negb (byteZ b =? 0) then 1 + byteZ b else 0) = lenZ (pad_head b) + lenZ (pad_tail b).
Proof.
  unfold pad_head, pad_tail, padded, lenZ. rewrite length_replicate. pose proof (byteZ_range b).
  destruct (Z.eqb_spec (byteZ b) 0); simpl; lia.
Qed.

Ltac finish_frame :=
  repeat first
    [ apply finishes_end
    | eapply finishes_bind;
      [first [apply appends_settings | apply appends_u32 | apply appends_u16 | apply appends_bytes
             | apply appends_if; first [apply appends_bytes | apply appends_bind; [apply appends_u32|apply appends_bytes]]
             | apply appends_nil]|] ].

(** What a successful operation guarantees. *)
Definition op_wrote (o : wop) (fr : wframer (W := W)) (r : outcome frameErr unit) (fr' : wframer (W := W)) : Prop :=
  r = Ok tt ->
  op_guard o /\ AllowIllegalWrites fr' = false /\ lenZ (payload o) < 2 ^ 24 /\
  written (writer fr') = written (writer fr) ++ frame_bytes (op_type o) (op_flags o) (op_stream o) (payload o).

Lemma op_emit o n body p fr :
  AllowIllegalWrites fr = false -> op_guard o -> finishes body p -> p = payload o -> n = lenZ p ->
  wp (startWrite (op_type o) (op_flags o) (op_stream o) n;; body) fr (op_wrote o fr).
Proof.
  intros Ha Hg Hb Hp Hn. subst p. eapply wp_mono; [by apply emit_spec|].
  intros r fr' HW Hr. destruct (HW Hr) as (H1 & H2 & H3). split_and!; try done. by rewrite H1.
Qed.

Lemma length_settings (ss : list (Z * Z)) :
  lenZ (ss ≫= fun '(id, v) => be_put 2 id ++ be_put 4 v) = 6 * lenZ ss.
Proof.
  induction ss as [|[id v] ss IH]; [done|]. rewrite bind_cons. unfold lenZ in *.
  cbv beta iota. rewrite !length_app, !length_be_put. cbn [length]. lia.
Qed.

Ltac frame_lengths :=
  rewrite ?app_nil_r; unfold lenZ; rewrite ?length_app, ?length_be_put; simpl length; lia.

Lemma write_op_spec o fr :
  AllowIllegalWrites fr = false -> wp (write_op o) fr (op_wrote o fr).
Proof.
  intros Ha. destruct o; cbn [write_op].
  - apply wp_refuse; [done|done|]. intros Hg%negb_false_iff.
    apply (op_emit (WData sid endStream data) _ _ (data ++ [])); try done; [finish_frame|by rewrite app_nil_r|frame_lengths].
  - apply wp_refuse; [done|done|]. intros Hg%negb_false_iff. cbv zeta.
    apply wp_refuse; [done|done|]. intros Hd. eapply (op_emit (WHeaders p)); [done| |finish_frame| |].
    + split; [done|]. intros Hz. rewrite Hz in Hd. simpl in Hd. by apply negb_false_iff in Hd.
    + simpl. by rewrite app_nil_r.
    + rewrite (length_pad (h_PadLength p)). unfold lenZ, pad_head, pad_tail, padded. rewrite !length_app.
      destruct (IsZero (h_Priority p)); simpl length; rewrite ?length_app, ?length_be_put; simpl; lia.
  - apply wp_refuse; [done|done|]. intros Hg%negb_false_iff.
    destruct (validStreamIDOrZero (StreamDep p)) eqn:Hd; cbn [negb]; [|done].
    eapply (op_emit (WPriority sid p)); [done|done|finish_frame| |frame_lengths].
    simpl. by rewrite ?app_nil_r.
  - apply wp_refuse; [done|done|]. intros Hg%negb_false_iff.
    eapply (op_emit (WRSTStream sid code)); [done|done|finish_frame| |frame_lengths]. by rewrite ?app_nil_r.
  - eapply (op_emit (WSettings ss)); [done|done|finish_frame| |]; rewrite ?app_nil_r; [done|].
    by rewrite length_settings.
  - by eapply (op_emit WSettingsAck); [done|done|finish_frame| |].
  - apply wp_refuse; [done|done|]. intros [Hg%negb_false_iff Hp%negb_false_iff]%orb_false_iff. cbv zeta.
    eapply (op_emit (WPushPromise p)); [done|done|finish_frame| |].
    + simpl. by rewrite app_nil_r.
    + rewrite (length_pad (pp_PadLength p)). unfold pad_head, pad_tail, padded. frame_lengths.
  - eapply (op_emit (WPing ack data)); [done|done|finish_frame| |frame_lengths]. by rewrite ?app_nil_r.
  - eapply (op_emit (WGoAway lastID code debug)); [done|done|finish_frame| |frame_lengths]. simpl. by rewrite ?app_nil_r.
  - apply wp_refuse; [done|done|]. intros [H1 H2]%orb_false_iff. bool_to_prop.
    eapply (op_emit (WWindowUpdate sid incr)); [done|simpl; lia|finish_frame| |frame_lengths]. by rewrite ?app_nil_r.
  - apply wp_refuse; [done|done|]. intros Hg%negb_false_iff.
    eapply (op_emit (WContinuation sid endHeaders frag)); [done|done|finish_frame| |frame_lengths].
    by rewrite ?app_nil_r.
  - eapply (op_emit (WRaw t flags sid payload0)); [done|done|finish_frame| |frame_lengths]. by rewrite ?app_nil_r.
Qed.

End write.

(** * Reading back *)

Definition op_header (o : wop) : FrameHeader :=
  mkFH (lenZ (payload o)) (op_type o) (op_flags o) (op_stream o).

(** The frame the reader returns for a written operation. *)
Definition expected (o : wop) : Frame :=
  match o with
  | WData _ _ data => DataFrame (op_header o) data
  | WHeaders p => HeadersFrame (op_header o) (h_Priority p) (h_BlockFragment p)
  | WPriority _ p => PriorityFrame (op_header o) p
  | WRSTStream _ code => RSTStreamFrame (op_header o) code
  | WSettings _ | WSettingsAck => SettingsFrame (op_header o) (payload o)
  | WPushPromise p => PushPromiseFrame (op_header o) (pp_PromiseID p) (pp_BlockFragment p)
  | WPing _ data => PingFrame (op_header o) data
  | WGoAway lastID code debug => GoAwayFrame (op_header o) (mask31 lastID) code debug
  | WWindowUpdate _ incr => WindowUpdateFrame (op_header o) incr
  | WContinuation _ _ frag => ContinuationFrame (op_header o) frag
  | WRaw _ _ _ p => UnknownFrame (op_header o) p
  end.

(** The arguments fit their Go types; initial windows are legal; raw frames are extensions. *)
Definition op_ok (o : wop) : Prop :=
  0 <= op_stream o < 2 ^ 32 /\
  match o with
  | WHeaders p => 0 <= StreamDep (h_Priority p) < 2 ^ 32
  | WPriority _ p => 0 <= StreamDep p < 2 ^ 32
  | WRSTStream _ code => 0 <= code < 2 ^ 32
  | WSettings ss => Forall (fun '(id, v) => 0 <= id < 2 ^ 16 /\ 0 <= v < 2 ^ 32) ss /\
      (forall v, Value_loop SettingInitialWindowSize ss = Some v -> v < 2 ^ 31)
  | WPushPromise p => 0 <= pp_PromiseID p < 2 ^ 32
  | WPing _ data => length data = 8%nat
  | WGoAway lastID code _ => 0 <= lastID < 2 ^ 32 /\ 0 <= code < 2 ^ 32
  | WWindowUpdate sid incr => sid < 2 ^ 31
  | WRaw t fl sid _ => 10 <= t < 256 /\ 0 <= fl < 256 /\ sid < 2 ^ 31
  | _ => True
  end.

Lemma op_stream_range o : op_ok o -> op_guard o -> 0 <= op_stream o < 2 ^ 31.
Proof.
  intros [Hs Ho] Hg. destruct o; simpl in *; try lia.
  all: try (pose proof (validStreamID_range _ Hs Hg); lia).
  all: destruct Hg as [Hg _]; pose proof (validStreamID_range _ Hs Hg); lia.
Qed.

Lemma op_type_range o : op_ok o -> 0 <= op_type o < 256.
Proof. intros [_ Ho]. destruct o; try done. simpl in *. lia. Qed.

Lemma op_flags_range o : op_ok o -> 0 <= op_flags o < 256.
Proof.
  intros [_ Ho]. destruct o; simpl in *; try done; unfold header_flags, padded; repeat case_match; try done; lia.
Qed.

Lemma be_get_put_app n z rest :
  0 <= z < 256 ^ Z.of_nat n -> be_get (take n (be_put n z ++ rest)) = z.
Proof.
  intros Hz. rewrite take_app_le by (rewrite length_be_put; lia).
  rewrite take_ge by (rewrite length_be_put; lia). by apply be_get_put_id.
Qed.

Lemma drop_put n z rest : drop n (be_put n z ++ rest) = rest.
Proof. rewrite <- (length_be_put n z) at 1. apply drop_app_length. Qed.

Lemma readUint32_put v rest : 0 <= v < 2 ^ 32 -> readUint32 (be_put 4 v ++ rest) = Some (rest, v).
Proof.
  intros Hv. unfold readUint32. destruct (Nat.ltb_spec (length (be_put 4 v ++ rest)) 4) as [Hl|].
  { rewrite length_app, length_be_put in Hl. lia. }
  by rewrite be_get_put_app, drop_put by done.
Qed.

(** Flags tested by the parsers. *)
Lemma headers_padded p : Has (header_flags p) FlagPadded = padded (h_PadLength p).
Proof. unfold header_flags, padded. by repeat case_match. Qed.

Lemma headers_priority p : Has (header_flags p) FlagPriority = negb (IsZero (h_Priority p)).
Proof. unfold header_flags. by repeat case_match. Qed.

Lemma push_padded (b c : bool) :
  Has (Z.lor (if b then FlagPadded else 0) (if c then FlagEndHeaders else 0)) FlagPadded = b.
Proof. by destruct b, c. Qed.

Lemma pad_field_spec b rest : pad_field (padded b) (pad_head b ++ rest) = Some (rest, byteZ b).
Proof.
  unfold pad_field, pad_head, padded. destruct (Z.eqb_spec (byteZ b) 0) as [->|]; done.
Qed.

Lemma strip_padding frag b :
  lenZ (frag ++ pad_tail b) - byteZ b = lenZ frag /\
  take (Z.to_nat (lenZ (frag ++ pad_tail b) - byteZ b)) (frag ++ pad_tail b) = frag.
Proof.
  pose proof (byteZ_range b).
  assert (lenZ (frag ++ pad_tail b) - byteZ b = lenZ frag) as E.
  { unfold lenZ, pad_tail. rewrite length_app, length_replicate. lia. }
  split; [done|]. rewrite E. unfold lenZ. by rewrite Nat2Z.id, take_app_length.
Qed.

Lemma IsZero_prio0 p : IsZero p = true -> p = prio0.
Proof.
  destruct p as [d e w]. unfold IsZero. simpl. rewrite !andb_true_iff, negb_true_iff, !Z.eqb_eq.
  intros [[-> ->] Hw]. unfold prio0. f_equal. by apply (inj byteZ).
Qed.

Lemma prio_value d e w :
  0 <= d < 2 ^ 31 ->
  let v := prio_word (mkPrio d e w) in
  0 <= v < 2 ^ 32 /\ mask31 v = d /\ (v =? d) = negb e.
Proof.
  intros Hd. simpl. rewrite prio_word_spec by done. simpl.
  rewrite mask31_mod. destruct e; simpl.
  - split; [lia|]. split; [|apply Z.eqb_neq; lia].
    rewrite <- (Z.mul_1_l (2 ^ 31)) at 1. by rewrite Z.mod_add, Z.mod_small by lia.
  - split; [lia|]. rewrite Z.add_0_r. split; [by apply Z.mod_small|apply Z.eqb_refl].
Qed.

Lemma prio_field_spec p rest :
  (IsZero p = false -> 0 <= StreamDep p < 2 ^ 31) ->
  prio_field (negb (IsZero p))
    ((if negb (IsZero p) then be_put 4 (prio_word p) ++ [PWeight p] else []) ++ rest) = Some (rest, p).
Proof.
  intros Hd. unfold prio_field. destruct (IsZero p) eqn:E; simpl negb; cbn iota.
  { by rewrite (IsZero_prio0 p E). }
  destruct p as [d e w]. destruct (prio_value d e w (Hd eq_refl)) as (Hv & Hm & He).
  rewrite <- app_assoc, readUint32_put by done. cbn [mbind option_bind]. simpl. rewrite Hm, He.
  by rewrite negb_involutive.
Qed.

Lemma Setting_S b i : Setting b (S i) = Setting (drop 6 b) i.
Proof.
  unfold Setting. assert (drop (i * 6) (drop 6 b) = drop (S i * 6) b) as ->; [|done].
  rewrite drop_drop. done.
Qed.

Lemma settings_of_payload ss :
  Forall (fun '(id, v) => 0 <= id < 2 ^ 16 /\ 0 <= v < 2 ^ 32) ss ->
  settings_of (payload (WSettings ss)) = ss.
Proof.
  induction 1 as [|[id v] ss [Hid Hv] _ IH]; [done|]. unfold settings_of. cbn [payload]. rewrite bind_cons.
  fold (payload (WSettings ss)). cbv beta iota. set (b := payload (WSettings ss)) in *.
  assert (NumSettings ((be_put 2 id ++ be_put 4 v) ++ b) = S (NumSettings b)) as ->.
  { unfold NumSettings. rewrite !length_app, !length_be_put.
    replace (2 + 4 + length b)%nat with (length b + 1 * 6)%nat by lia. rewrite Nat.div_add by lia. lia. }
  cbn [seq]. rewrite fmap_cons, <- fmap_S_seq, <- list_fmap_compose. f_equal.
  - unfold Setting. rewrite drop_0, <- app_assoc, be_get_put_app, drop_put, be_get_put_app by done. done.
  - transitivity (settings_of b); [|exact IH]. apply list_fmap_ext. intros k i _. simpl.
    by rewrite Setting_S.
Qed.

Lemma settings_multiple ss : (length (payload (WSettings ss)) mod 6 = 0)%nat.
Proof.
  pose proof (length_settings ss) as H. change (lenZ (payload (WSettings ss)) = 6 * lenZ ss) in H.
  unfold lenZ in H. replace (length (payload (WSettings ss))) with (length ss * 6)%nat by lia.
  apply Nat.Div0.mod_mul.
Qed.

Lemma take4_put v : 0 <= v < 2 ^ 32 -> be_get (take 4 (be_put 4 v)) = v.
Proof. intros Hv. rewrite <- (app_nil_r (be_put 4 v)). by apply be_get_put_app. Qed.

Lemma nonzero_stream o : op_ok o -> validStreamID (op_stream o) = true -> (op_stream o =? 0) = false.
Proof. intros [Hs _] Hv. apply Z.eqb_neq. pose proof (validStreamID_range _ Hs Hv). lia. Qed.

(** Each parser inverts its writer. *)
Lemma parse_headers p :
  op_ok (WHeaders p) -> op_guard (WHeaders p) ->
  parseHeadersFrame (op_header (WHeaders p)) (payload (WHeaders p)) = inl (expected (WHeaders p)).
Proof.
  intros Hok [Hg Hd]. unfold parseHeadersFrame. cbn [op_header StreamID Flags op_flags op_stream].
  rewrite (nonzero_stream (WHeaders p) Hok Hg : (h_StreamID p =? 0) = false).
  rewrite headers_padded, headers_priority. cbn [payload]. rewrite pad_field_spec, prio_field_spec.
  - destruct (strip_padding (h_BlockFragment p) (h_PadLength p)) as [E ->]. rewrite E.
    by destruct (Z.ltb_spec (lenZ (h_BlockFragment p)) 0); [unfold lenZ in *; lia|].
  - intros Hz. destruct Hok as [_ Hok]. split; [apply Hok|]. by apply validStreamIDOrZero_lt, Hd.
Qed.

Lemma parse_priority sid p :
  op_ok (WPriority sid p) -> op_guard (WPriority sid p) ->
  parsePriorityFrame (op_header (WPriority sid p)) (payload (WPriority sid p)) = inl (expected (WPriority sid p)).
Proof.
  intros Hok [Hg Hd]. unfold parsePriorityFrame. cbn [op_header StreamID op_stream].
  rewrite (nonzero_stream (WPriority sid p) Hok Hg : (sid =? 0) = false). destruct Hok as [_ Hp].
  destruct p as [d e w]. pose proof (validStreamIDOrZero_lt _ Hp Hd) as Hd'. simpl in Hp, Hd'.
  destruct (prio_value d e w ltac:(lia)) as (Hv & Hm & He).
  cbn [payload PWeight]. set (v := prio_word (mkPrio d e w)) in *.
  change (be_put 4 v ++ [w]) with [Zbyte (v / 256 ^ Z.of_nat 3); Zbyte (v / 256 ^ Z.of_nat 2);
    Zbyte (v / 256 ^ Z.of_nat 1); Zbyte (v / 256 ^ Z.of_nat 0); w]. cbv iota zeta.
  change [Zbyte (v / 256 ^ Z.of_nat 3); Zbyte (v / 256 ^ Z.of_nat 2);
    Zbyte (v / 256 ^ Z.of_nat 1); Zbyte (v / 256 ^ Z.of_nat 0)] with (be_put 4 v).
  rewrite be_get_put_id, Hm by done. rewrite Z.eqb_sym, He, negb_involutive. done.
Qed.

Lemma parse_settings ss :
  op_ok (WSettings ss) ->
  parseSettingsFrame (op_header (WSettings ss)) (payload (WSettings ss)) = inl (expected (WSettings ss)).
Proof.
  intros (_ & Hss & Hw). unfold parseSettingsFrame. cbn [op_header StreamID Flags op_flags op_stream].
  change (Has 0 FlagAck) with false. simpl andb. cbn iota. simpl (negb (0 =? 0)). cbn iota.
  rewrite (proj2 (Nat.eqb_eq _ _) (settings_multiple ss)). simpl negb. cbn iota.
  unfold Value. rewrite settings_of_payload by done.
  destruct (Value_loop SettingInitialWindowSize ss) as [v|]; [|done].
  specialize (Hw v eq_refl). change (Z.shiftl 1 31 - 1) with (2 ^ 31 - 1).
  by destruct (Z.ltb_spec (2 ^ 31 - 1) v); [lia|].
Qed.

Lemma parse_push p :
  op_ok (WPushPromise p) -> op_guard (WPushPromise p) ->
  parsePushPromise (op_header (WPushPromise p)) (payload (WPushPromise p)) = inl (expected (WPushPromise p)).
Proof.
  intros Hok [Hg Hp]. unfold parsePushPromise. cbn [op_header StreamID Flags op_flags op_stream].
  rewrite (nonzero_stream (WPushPromise p) Hok Hg : (pp_StreamID p =? 0) = false).
  destruct Hok as [_ Hpid]. simpl in Hpid. rewrite push_padded. cbn [payload].
  rewrite pad_field_spec, readUint32_put by done.
  destruct (strip_padding (pp_BlockFragment p) (pp_PadLength p)) as [E ->].
  destruct (Z.ltb_spec (lenZ (pp_BlockFragment p ++ pad_tail (pp_PadLength p))) (byteZ (pp_PadLength p)));
    [unfold lenZ in *; lia|].
  pose proof (validStreamID_range _ Hpid Hp). rewrite mask31_mod, Z.mod_small by lia. done.
Qed.

Lemma parse_goaway lastID code debug :
  op_ok (WGoAway lastID code debug) ->
  parseGoAwayFrame (op_header (WGoAway lastID code debug)) (payload (WGoAway lastID code debug))
  = inl (expected (WGoAway lastID code debug)).
Proof.
  intros (_ & Hl & Hc). unfold parseGoAwayFrame. simpl (StreamID _). simpl (negb (0 =? 0)). cbn iota.
  cbn [payload]. destruct (Nat.ltb_spec (length (be_put 4 (mask31 lastID) ++ be_put 4 code ++ debug)) 8) as [H|_].
  { rewrite !length_app, !length_be_put in H. lia. }
  assert (0 <= mask31 lastID < 2 ^ 31) as Hm by (rewrite mask31_mod; apply Z.mod_pos_bound; lia).
  rewrite be_get_put_app by (simpl; lia). rewrite drop_put, be_get_put_app by done.
  change 8%nat with (4 + 4)%nat. rewrite <- drop_drop, !drop_put.
  rewrite (mask31_mod (mask31 lastID)), Z.mod_small by done. done.
Qed.

Lemma parse_ok o :
  op_ok o -> op_guard o -> op_type o <> FrameData ->
  typeFrameParser (op_type o) (op_header o) (payload o) = inl (expected o).
Proof.
  intros Hok Hg Ht. destruct o; cbn [op_type]; try done.
  - by apply parse_headers.
  - by apply parse_priority.
  - change (typeFrameParser FrameRSTStream) with parseRSTStreamFrame. unfold parseRSTStreamFrame.
    cbn [payload op_header StreamID op_stream]. rewrite length_be_put.
    rewrite (nonzero_stream (WRSTStream sid code) Hok Hg : (sid =? 0) = false).
    destruct Hok as [_ Hc]. cbn [Nat.eqb negb]. by rewrite take4_put by done.
  - by apply parse_settings.
  - by apply parse_push.
  - destruct Hok as [_ Hl]. simpl in Hl. change (typeFrameParser FramePing) with parsePingFrame.
    unfold parsePingFrame. cbn [payload]. by rewrite Hl.
  - by apply parse_goaway.
  - change (typeFrameParser FrameWindowUpdate) with parseWindowUpdateFrame. unfold parseWindowUpdateFrame.
    cbn [payload]. rewrite length_be_put. simpl in Hg. rewrite take4_put by lia.
    change 2147483647 with (Z.ones 31). rewrite Z.land_ones, Z.mod_small by lia. cbn [Nat.eqb negb]. cbv zeta.
    by destruct (Z.eqb_spec incr 0); [lia|].
  - change (typeFrameParser FrameContinuation) with parseContinuationFrame. unfold parseContinuationFrame.
    cbn [op_header StreamID op_stream]. by rewrite (nonzero_stream (WContinuation sid endHeaders frag) Hok Hg : (sid =? 0) = false).
  - destruct Hok as (_ & Ht' & _). simpl in *. unfold typeFrameParser.
    unfold FrameHeaders, FramePriority, FrameRSTStream, FrameSettings, FramePushPromise, FramePing,
      FrameGoAway, FrameWindowUpdate, FrameContinuation.
    repeat match goal with |- context [t =? ?k] => destruct (Z.eqb_spec t k); [lia|] end. done.
Qed.

Section read.
Context {R : Type} `{!Reader R}.

Abbreviation rf_ := (rframer (R := R)).

(** The header-block state after a frame; [None] when the frame is out of order. *)
Definition follows (l : Z) (o : wop) : option Z :=
  if negb (l =? 0) && negb ((op_type o =? FrameContinuation) && (op_stream o =? l)) then None
  else if (l =? 0) && (op_type o =? FrameContinuation) then None
  else if (op_type o =? FrameHeaders) || (op_type o =? FrameContinuation)
       then Some (if Has (op_flags o) FlagEndHeaders then 0 else op_stream o)
       else Some l.

Lemma expected_header o : Header (expected o) = op_header o.
Proof. by destruct o. Qed.

Lemma next_spec n (fr : rf_) p rest :
  contents (reader fr) = p ++ rest -> lenZ p = n ->
  exists r, next n fr = (Ok p, set_reader r fr) /\ contents r = rest.
Proof.
  intros Hc Hl. unfold next. replace (Z.to_nat n) with (length p) by (unfold lenZ in Hl; lia).
  destruct (Next_some (length p) (reader fr)) as (r & -> & Hr); [rewrite Hc, length_app; lia|].
  exists r. rewrite Hc in *. rewrite take_app_length. split; [done|]. rewrite Hr. apply drop_app_length.
Qed.

Lemma read_header o (fr : rf_) rest :
  op_ok o -> op_guard o -> lenZ (payload o) < 2 ^ 24 -> lenZ (payload o) <= maxReadSize fr ->
  contents (reader fr) = frame_bytes (op_type o) (op_flags o) (op_stream o) (payload o) ++ rest ->
  exists r, readAndCheckFrameHeader fr = (Ok (op_header o), set_reader r fr) /\
    contents r = payload o ++ rest.
Proof.
  intros Hok Hg Hlen Hmax Hc. unfold frame_bytes in Hc.
  set (n := lenZ (payload o)) in *. set (sid := op_stream o) in *.
  assert (contents (reader fr) = [Zbyte (n / 256 ^ 2); Zbyte (n / 256 ^ 1); Zbyte (n / 256 ^ 0); Zbyte (op_type o);
    Zbyte (op_flags o); Zbyte (sid / 256 ^ 3); Zbyte (sid / 256 ^ 2); Zbyte (sid / 256 ^ 1);
    Zbyte (sid / 256 ^ 0)] ++ payload o ++ rest) as Hc'.
  { by rewrite Hc. }
  destruct (next_spec 9 fr _ _ Hc' eq_refl) as (r & Hn & Hr). exists r. split; [|done].
  unfold readAndCheckFrameHeader, mbind, M_bind. rewrite Hn. cbn [gets]. rewrite be_get_3.
  change [Zbyte (n / 256 ^ 2); Zbyte (n / 256 ^ 1); Zbyte (n / 256 ^ 0)] with (be_put 3 n).
  change [Zbyte (sid / 256 ^ 3); Zbyte (sid / 256 ^ 2); Zbyte (sid / 256 ^ 1); Zbyte (sid / 256 ^ 0)]
    with (be_put 4 sid).
  pose proof (op_stream_range o Hok Hg) as Hs. fold sid in Hs.
  rewrite (be_get_put_id 3) by (subst n; unfold lenZ in *; simpl; lia).
  rewrite (be_get_put_id 4) by (simpl; lia). unfold gets. cbn [maxReadSize set_reader].
  destruct (Z.ltb_spec (maxReadSize fr) n); [lia|].
  unfold mret, M_ret. do 2 f_equal. unfold op_header. fold n sid.
  rewrite !byteZ_Zbyte, mask31_mod. pose proof (op_type_range o Hok). pose proof (op_flags_range o Hok).
  by rewrite !Z.mod_small by lia.
Qed.

Lemma order_spec o (fr : rf_) l :
  AllowIllegalReads fr = false -> follows (lastHeaderStream fr) o = Some l ->
  checkFrameOrder (expected o) fr = (Ok tt, set_lastHeaderStream l (set_lastFrame (expected o) fr)).
Proof.
  intros Ha Hf. destruct fr as [d lhs lf rd mx ai]. simpl in *. subst ai.
  unfold checkFrameOrder, mbind, M_bind, modify, gets. simpl. rewrite expected_header.
  unfold follows in Hf. cbn [op_header Type_ StreamID Flags].
  destruct (Z.eqb_spec lhs 0) as [->|]; simpl in *.
  - destruct (op_type o =? FrameContinuation); [done|]. simpl in *. rewrite orb_false_r in *.
    destruct (op_type o =? FrameHeaders); by simplify_eq.
  - destruct (op_type o =? FrameContinuation); [|done]. simpl in *.
    destruct (op_stream o =? lhs); [|done]. simpl in *. rewrite orb_true_r in *. by simplify_eq.
Qed.

Lemma data_unpadded (b : bool) : Has (if b then FlagEndStream else 0) FlagPadded = false.
Proof. by destruct b. Qed.

(** Reading one frame that was written. *)
Lemma ReadFrame_spec o (fr : rf_) rest l :
  op_ok o -> op_guard o -> lenZ (payload o) < 2 ^ 24 -> lenZ (payload o) <= maxReadSize fr ->
  AllowIllegalReads fr = false -> follows (lastHeaderStream fr) o = Some l ->
  contents (reader fr) = frame_bytes (op_type o) (op_flags o) (op_stream o) (payload o) ++ rest ->
  exists fr', ReadFrame fr = (Ok (expected o), fr') /\ contents (reader fr') = rest /\
    lastHeaderStream fr' = l /\ maxReadSize fr' = maxReadSize fr /\ AllowIllegalReads fr' = false.
Proof.
  intros Hok Hg Hlen Hmax Ha Hf Hc.
  destruct (read_header o (set_detail None fr) rest) as (r & Hh & Hr); try done.
  set (fr1 := set_reader r (set_detail None fr)) in *.
  destruct (next_spec (lenZ (payload o)) fr1 (payload o) rest Hr eq_refl) as (r' & Hn & Hr').
  set (fr2 := set_reader r' fr1) in *.
  assert ((if op_type o =? FrameData then parseDataFrame (op_header o)
     else payload0 ← next (lenZ (payload o)); lift (typeFrameParser (op_type o) (op_header o) payload0)) fr1
    = (Ok (expected o), fr2)) as Hp.
  { destruct (Z.eqb_spec (op_type o) FrameData) as [Et|Et].
    - destruct o; simpl in Et; try done.
      + unfold parseDataFrame. cbn [op_header StreamID Flags op_flags op_stream Length].
        rewrite (nonzero_stream (WData sid endStream data) Hok Hg : (sid =? 0) = false).
        rewrite data_unpadded. cbv iota. unfold mbind, M_bind, mret, M_ret.
        cbn [payload] in *. destruct (Z.ltb_spec (lenZ data) 0); [unfold lenZ in *; lia|].
        rewrite Hn. cbv iota beta. rewrite Z.sub_0_r. unfold lenZ. rewrite Nat2Z.id, firstn_all. done.
      + destruct Hok as (_ & Ht & _). simpl in Ht. unfold FrameData in Et. lia.
    - unfold mbind, M_bind. rewrite Hn. by rewrite parse_ok. }
  pose proof (order_spec o fr2 l Ha Hf) as Ho.
  exists (set_lastHeaderStream l (set_lastFrame (expected o) fr2)). split; [|done].
  unfold ReadFrame. unfold mbind at 1, M_bind at 1. unfold modify. cbv iota beta.
  unfold mbind at 1, M_bind at 1. rewrite Hh. cbv iota beta.
  unfold mbind at 1, M_bind at 1. cbn [op_header Type_ Length]. rewrite Hp. cbv iota beta.
  unfold mbind, M_bind. by rewrite Ho.
Qed.

End read.

(** * Sequences of frames *)

Section roundtrip.
Context {W R : Type} `{!Writer W, !Reader R}.

Fixpoint write_ops (os : list wop) : M (wframer (W := W)) frameErr unit :=
  match os with
  | [] => mret tt
  | o :: os => write_op o;; write_ops os
  end.

Fixpoint read_frames (n : nat) : M (rframer (R := R)) frameErr (list Frame) :=
  match n with
  | O => mret []
  | S n => f ← ReadFrame; fs ← read_frames n; mret (f :: fs)
  end.

(** CONTINUATION frames directly follow the header frame they continue. *)
Fixpoint in_order (l : Z) (os : list wop) : bool :=
  match os with
  | [] => true
  | o :: os => match follows l o with Some l => in_order l os | None => false end
  end.

Definition wire (os : list wop) : list byte :=
  os ≫= fun o => frame_bytes (op_type o) (op_flags o) (op_stream o) (payload o).

Lemma write_ops_spec os fr :
  AllowIllegalWrites fr = false ->
  wp (write_ops os) fr (fun r fr' => r = Ok tt ->
    Forall (fun o => op_guard o /\ lenZ (payload o) < 2 ^ 24) os /\
    written (writer fr') = written (writer fr) ++ wire os).
Proof.
  revert fr. induction os as [|o os IH]; intros fr Ha.
  { apply wp_ret. intros _. split; [constructor|]. by rewrite app_nil_r. }
  apply wp_bind. eapply wp_mono; [by apply write_op_spec|]. intros r fr1 H1.
  destruct r as [[]|e|]; [|done|done]. destruct (H1 eq_refl) as (Hg & Ha1 & Hl & Hw).
  eapply wp_mono; [by apply IH|]. intros r fr2 H2 Hr. destruct (H2 Hr) as (Hos & Hw2).
  split; [by constructor|]. rewrite Hw2, Hw. unfold wire. by rewrite bind_cons, <- app_assoc.
Qed.

Lemma read_frames_spec os : forall (fr : rframer (R := R)) rest,
  Forall (fun o => op_guard o /\ lenZ (payload o) < 2 ^ 24) os -> Forall op_ok os ->
  Forall (fun o => lenZ (payload o) <= maxReadSize fr) os ->
  AllowIllegalReads fr = false -> in_order (lastHeaderStream fr) os = true ->
  contents (reader fr) = wire os ++ rest ->
  exists fr', read_frames (length os) fr = (Ok (expected <$> os), fr') /\ contents (reader fr') = rest.
Proof.
  induction os as [|o os IH]; intros fr rest Hg Hok Hm Ha Hord Hc; [by exists fr|].
  apply Forall_cons in Hg as [[Hg Hl] Hgs]. apply Forall_cons in Hok as [Hok Hoks].
  apply Forall_cons in Hm as [Hm Hms]. simpl in Hord.
  destruct (follows (lastHeaderStream fr) o) as [l|] eqn:Hf; [|done].
  unfold wire in Hc. rewrite bind_cons, <- app_assoc in Hc.
  destruct (ReadFrame_spec o fr _ l Hok Hg Hl Hm Ha Hf Hc) as (fr1 & HR & Hc1 & Hl1 & Hm1 & Ha1).
  destruct (IH fr1 rest) as (fr2 & HR2 & Hc2); try done; [by rewrite Hm1|by rewrite Hl1|].
  exists fr2. split; [|done]. cbn [length read_frames]. unfold mbind, M_bind. rewrite HR. by rewrite HR2.
Qed.


End roundtrip.

(** * A concrete connection *)

#[export] Instance buffer_writer : Writer (list byte) := {|
  Write := fun p w => (true, w ++ p); written := fun w => w; Write_ok := fun p w _ => eq_refl |}.

#[export] Instance buffer_reader : Reader (list byte).
Proof.
  refine {| Next_ := fun n r => if (length r <? n)%nat then None else Some (take n r, drop n r);
            contents := fun r => r |}.
  - intros n r Hn. destruct (Nat.ltb_spec (length r) n); [lia|]. by eexists.
  - intros n r Hn. by destruct (Nat.ltb_spec (length r) n); [|lia].
Defined.

Definition sample_ops : list wop :=
  [WSettings [(4, 65535); (3, 100)];
   WHeaders (mkHP 1 [Byte.x82; Byte.x84] false false Byte.x02 (mkPrio 7 true Byte.x10));
   WContinuation 1 true [Byte.x86]; WData 1 true [Byte.x61; Byte.x62]; WWindowUpdate 0 5].

Definition sample_framer : wframer (W := list byte) := mkWF false true [] [].

Definition sample_wire : list byte :=
  Eval vm_compute in writer (snd (write_ops sample_ops sample_framer)).

