(* ===== verification/MetaHeaders.v ===== *)
(** Merging of HEADERS and CONTINUATION frames into one decoded header list
    (src/pkg/remote/trans/nphttp2/grpc/grpcframe: frame_reader.go [readMetaFrame],
    frame_parser.go [MetaHeadersFrame]), on top of the raw reader of Frames.

    The HPACK decoder and the token tables of httpguts are parameters.  Theorems: on any
    bytes the reader neither panics nor loops, returns only frames in order and within the
    size limit, and consumes exactly them; a header block is decoded independently of how
    it was fragmented. *)

From S2P Require Import Prelude GoText Frames FramesSpec.

Definition ErrCodeCompression : Z := 9.

Abbreviation field := (text * text)%type.

(** The incremental HPACK decoder: [hd_write] feeds bytes under a string-length limit and
    returns the fields they complete, [hd_close] is false when a field is left incomplete. *)
Class HpackDecoder (D : Type) := {
  hd_write : Z -> list byte -> D -> option (list field * D);
  hd_close : D -> bool;
  hd_incremental : forall m a b d,
    hd_write m (a ++ b) d =
      ('(f1, d1) ← hd_write m a d; '(f2, d2) ← hd_write m b d1; Some (f1 ++ f2, d2))
}.

(** The character tables of golang.org/x/net/http/httpguts. *)
Class HttpGuts := {
  ValidHeaderFieldValue : text -> bool;
  IsTokenRune : Z -> bool
}.

(** [hf.Size()], RFC 7541 section 4.1. *)
Definition Size (hf : field) : Z := lenZ (fst hf) + lenZ (snd hf) + 32.

Definition IsPseudo (hf : field) : bool := HasPrefix (fst hf) (bs ":").

Record MetaHeadersFrame := mkMeta { mh_headers : Frame; Fields : list field; Truncated : bool }.

Fixpoint PseudoFields (fs : list field) : list field :=
  match fs with
  | [] => []
  | hf :: fs => if IsPseudo hf then hf :: PseudoFields fs else []
  end.

Fixpoint RegularFields (fs : list field) : list field :=
  match fs with
  | [] => []
  | hf :: fs' => if IsPseudo hf then RegularFields fs' else fs
  end.

Fixpoint PseudoValue (pseudo : text) (fs : list field) : text :=
  match fs with
  | [] => []
  | hf :: fs =>
      if negb (IsPseudo hf) then []
      else if text_eqb (drop 1 (fst hf)) pseudo then snd hf
      else PseudoValue pseudo fs
  end.

Definition request_pseudo (n : text) : bool :=
  existsb (text_eqb n) [bs ":method"; bs ":path"; bs ":scheme"; bs ":authority"].

(** The loop of [checkPseudos]; [seen] holds the fields before. *)
Fixpoint pseudo_loop (pf seen : list field) (isRequest isResponse : bool) : (bool * bool) + invalidField :=
  match pf with
  | [] => inl (isRequest, isResponse)
  | hf :: pf =>
      let next r s :=
        if existsb (fun hf2 => text_eqb (fst hf) (fst hf2)) seen
        then inr (duplicatePseudoHeaderError (fst hf))
        else pseudo_loop pf (seen ++ [hf]) r s in
      if request_pseudo (fst hf) then next true isResponse
      else if text_eqb (fst hf) (bs ":status") then next isRequest true
      else inr (pseudoHeaderError (fst hf))
  end.

Definition checkPseudos (fs : list field) : option invalidField :=
  match pseudo_loop (PseudoFields fs) [] false false with
  | inr e => Some e
  | inl (isRequest, isResponse) =>
      if isRequest && isResponse then Some errMixPseudoHeaderTypes else None
  end.

Section meta.
Context {R D : Type} `{!Reader R, !HpackDecoder D, !HttpGuts}.

(** The runes of a string that the range loop visits. *)
Fixpoint runes_f (fuel : nat) (s : text) : list Z :=
  match fuel with
  | O => []
  | S fuel => match s with [] => [] | _ => let '(r, n) := DecodeRune s in r :: runes_f fuel (drop n s) end
  end.

Definition validWireHeaderFieldName (v : text) : bool :=
  match v with
  | [] => false
  | _ => forallb (fun r => IsTokenRune r && negb ((65 <=? r) && (r <=? 90))) (runes_f (length v) v)
  end.

(** The variables of the emit callback. *)
Record emitState := mkEmit {
  invalid : option invalidField; sawRegular : bool; remainSize : Z;
  fields : list field; truncated : bool; enabled : bool }.

Definition emit (e : emitState) (hf : field) : emitState :=
  if negb (enabled e) then e
  else
    let inv := if negb (ValidHeaderFieldValue (snd hf)) then Some (headerFieldValueError (snd hf))
               else invalid e in
    let '(inv, saw) :=
      if IsPseudo hf then (if sawRegular e then Some errPseudoAfterRegular else inv, sawRegular e)
      else (if negb (validWireHeaderFieldName (fst hf)) then Some (headerFieldNameError (fst hf)) else inv, true) in
    match inv with
    | Some _ => mkEmit inv saw (remainSize e) (fields e) (truncated e) false
    | None =>
        if remainSize e <? Size hf then mkEmit inv saw (remainSize e) (fields e) true false
        else mkEmit inv saw (remainSize e - Size hf) (fields e ++ [hf]) (truncated e) true
    end.

(** The framer with its decoder. *)
Record mframer := mkMF { raw : rframer (R := R); dec : D; MaxHeaderListSize : Z }.

Abbreviation MM := (M mframer frameErr).

Definition maxHeaderListSize (fr : mframer) : Z :=
  if MaxHeaderListSize fr =? 0 then Z.shiftl 16 20 else MaxHeaderListSize fr.

Definition liftR {A} (m : M (rframer (R := R)) frameErr A) : MM A := fun fr =>
  let '(r, rf) := m (raw fr) in (r, mkMF rf (dec fr) (MaxHeaderListSize fr)).

Definition hpack_write (frag : list byte) : MM (list field) := fun fr =>
  match hd_write (maxHeaderListSize fr) frag (dec fr) with
  | Some (fs, d) => (Ok fs, mkMF (raw fr) d (MaxHeaderListSize fr))
  | None => (Err (ConnectionError_ ErrCodeCompression), fr)
  end.

(** The loop over the fragments; the fuel bounds the frames left in the stream. *)
Fixpoint meta_loop (fuel : nat) (e : emitState) (frag : list byte) (ended : bool) : MM emitState :=
  match fuel with
  | O => panic
  | S fuel =>
      fs ← hpack_write frag;
      let e := foldl emit e fs in
      if ended then mret e
      else
        f ← liftR ReadFrame;
        match f with
        | ContinuationFrame fh frag => meta_loop fuel e frag (Has (Flags fh) FlagEndHeaders)
        | _ => panic
        end
  end.

Definition fail_stream {A} (streamID : Z) (e : invalidField) : MM A :=
  liftR (modify (set_detail (Some (InvalidHeaders e))));;
  throw (StreamError_ streamID ErrCodeProtocol).

Definition readMetaFrame (fh : FrameHeader) (prio : PriorityParam) (frag : list byte) : MM MetaHeadersFrame :=
  illegal ← gets (fun fr => AllowIllegalReads (raw fr));
  if illegal : bool then throw ErrIllegalReads
  else
    max ← gets maxHeaderListSize;
    fuel ← gets (fun fr => S (length (contents (reader (raw fr)))));
    e ← meta_loop fuel (mkEmit None false max [] false true) frag (Has (Flags fh) FlagEndHeaders);
    closed ← gets (fun fr => hd_close (dec fr));
    if negb closed then throw (ConnectionError_ ErrCodeCompression)
    else
      match invalid e with
      | Some err => fail_stream (StreamID fh) err
      | None =>
          match checkPseudos (fields e) with
          | Some err => fail_stream (StreamID fh) err
          | None => mret (mkMeta (HeadersFrame fh prio []) (fields e) (truncated e))
          end
      end.

(** [ReadFrame] of a framer with a header decoder. *)
Definition ReadFrameMeta : MM (Frame + MetaHeadersFrame) :=
  f ← liftR ReadFrame;
  match f with
  | HeadersFrame fh prio frag => mh ← readMetaFrame fh prio frag; mret (inr mh)
  | _ => mret (inl f)
  end.

(** * Reading arbitrary bytes *)

(** What a frame returned by the reader satisfies, whatever the bytes were. *)
Definition read_ok (fr fr' : rframer (R := R)) (f : Frame) : Prop :=
  exists b, contents (reader fr) = b ++ contents (reader fr') /\ lenZ b = 9 + Length (Header f) /\
    0 <= Length (Header f) <= maxReadSize fr /\
    (if decide (lastHeaderStream fr = 0) then Type_ (Header f) <> FrameContinuation
     else Type_ (Header f) = FrameContinuation /\ StreamID (Header f) = lastHeaderStream fr) /\
    lastHeaderStream fr' =
      (if decide (Type_ (Header f) = FrameHeaders \/ Type_ (Header f) = FrameContinuation)
       then if Has (Flags (Header f)) FlagEndHeaders then 0 else StreamID (Header f)
       else lastHeaderStream fr) /\
    maxReadSize fr' = maxReadSize fr /\ AllowIllegalReads fr' = false /\
    (Type_ (Header f) = FrameContinuation -> exists frag, f = ContinuationFrame (Header f) frag) /\
    (forall fh prio frag, f = HeadersFrame fh prio frag -> Type_ fh = FrameHeaders /\ StreamID fh <> 0).

Lemma wp_next n (fr : rframer (R := R)) Q :
  0 <= n ->
  (forall p r, contents (reader fr) = p ++ contents r -> lenZ p = n -> Q (Ok p) (set_reader r fr)) ->
  Q (Err ErrRead) fr -> wp (next n) fr Q.
Proof.
  intros Hn Hok Herr. unfold wp, next.
  destruct (decide (Z.to_nat n <= length (contents (reader fr)))%nat) as [Hl|Hl].
  - destruct (Next_some (Z.to_nat n) (reader fr) Hl) as (r & -> & Hr). apply Hok.
    + by rewrite Hr, take_drop.
    + unfold lenZ. rewrite length_take. lia.
  - rewrite Next_none by lia. done.
Qed.

Lemma wp_connError {A} code why (fr : rframer (R := R)) (Q : outcome frameErr A -> _ -> Prop) :
  Q (Err (ConnectionError_ code)) (set_detail (Some why) fr) -> wp (connError code why) fr Q.
Proof. done. Qed.

Lemma parser_header fh p f :
  typeFrameParser (Type_ fh) fh p = inl f ->
  Header f = fh /\ (Type_ fh = FrameContinuation -> exists frag, f = ContinuationFrame fh frag) /\
  (forall fh' prio frag, f = HeadersFrame fh' prio frag -> Type_ fh' = FrameHeaders /\ StreamID fh' <> 0).
Proof.
  unfold typeFrameParser. intros Hp.
  repeat match type of Hp with
  | context [Type_ fh =? ?k] => destruct (Z.eqb_spec (Type_ fh) k) as [Et|]
  end.
  all: unfold parseHeadersFrame, parsePriorityFrame, parseRSTStreamFrame, parseSettingsFrame,
    parsePushPromise, parsePingFrame, parseGoAwayFrame, parseWindowUpdateFrame, parseContinuationFrame in Hp.
  all: repeat case_match; simplify_eq; bool_to_prop; (split; [done|]);
    (split; [intros Ec; first [by rewrite Ec in *|by eexists]|by intros; simplify_eq]).
Qed.

Lemma read_header_safe (fr : rframer (R := R)) :
  wp readAndCheckFrameHeader fr (fun r fr' =>
    r <> Panic /\ forall fh, r = Ok fh -> exists b r, fr' = set_reader r fr /\
      contents (reader fr) = b ++ contents r /\ lenZ b = 9 /\ 0 <= Length fh <= maxReadSize fr).
Proof.
  apply wp_bind, wp_next; [lia| |done]. intros p r Hc Hl.
  do 9 (destruct p as [|? p]; [unfold lenZ in Hl; simpl in Hl; lia|]).
  destruct p; [|unfold lenZ in Hl; simpl in Hl; lia]. apply wp_bind, wp_gets. rewrite be_get_3.
  pose proof (be_get_range [b; b0; b1]) as Hr.
  destruct (Z.ltb_spec (maxReadSize (set_reader r fr)) (be_get [b; b0; b1])); [done|].
  apply wp_ret. split; [done|]. intros fh [= <-]. exists [b; b0; b1; b2; b3; b4; b5; b6; b7], r. simpl in *.
  split; [done|]. split; [exact Hc|]. split; [exact Hl|]. lia.
Qed.

Lemma parse_data_safe fh (fr : rframer (R := R)) :
  Type_ fh = FrameData -> 0 <= Length fh ->
  wp (parseDataFrame fh) fr (fun r fr' => r <> Panic /\ forall f, r = Ok f -> Header f = fh /\
    (forall fh' prio frag, f <> HeadersFrame fh' prio frag) /\
    exists b r, fr' = set_reader r fr /\ contents (reader fr) = b ++ contents r /\ lenZ b = Length fh).
Proof.
  intros Ht Hl. unfold parseDataFrame. destruct (StreamID fh =? 0); [by apply wp_connError|].
  apply wp_bind. destruct (Has (Flags fh) FlagPadded).
  - apply wp_bind, wp_next; [lia| |done]. intros p r Hc Hp. apply wp_ret. cbv beta iota.
    pose proof (be_get_range p).
    destruct (Z.ltb_spec (Length fh - 1) (be_get p)); [by apply wp_connError|].
    apply wp_bind, wp_next; [lia| |done]. intros d r2 Hc2 Hd. apply wp_ret. split; [done|].
    intros f [= <-]. split; [done|]. split; [done|]. exists (p ++ d), r2. split; [by destruct fr|].
    split; [|unfold lenZ in *; rewrite length_app; lia]. simpl in Hc2. by rewrite Hc, Hc2, app_assoc.
  - apply wp_ret. cbv beta iota. destruct (Z.ltb_spec (Length fh) 0); [lia|].
    apply wp_bind, wp_next; [lia| |done]. intros d r2 Hc2 Hd. apply wp_ret. split; [done|].
    intros f [= <-]. split; [done|]. split; [done|]. by exists d, r2.
Qed.

Lemma order_safe f (fr : rframer (R := R)) :
  AllowIllegalReads fr = false ->
  wp (checkFrameOrder f) fr (fun r fr' => r <> Panic /\ (r = Ok tt ->
    reader fr' = reader fr /\ maxReadSize fr' = maxReadSize fr /\ AllowIllegalReads fr' = false /\
    (if decide (lastHeaderStream fr = 0) then Type_ (Header f) <> FrameContinuation
     else Type_ (Header f) = FrameContinuation /\ StreamID (Header f) = lastHeaderStream fr) /\
    lastHeaderStream fr' =
      (if decide (Type_ (Header f) = FrameHeaders \/ Type_ (Header f) = FrameContinuation)
       then if Has (Flags (Header f)) FlagEndHeaders then 0 else StreamID (Header f)
       else lastHeaderStream fr))).
Proof.
  intros Ha. unfold checkFrameOrder. apply wp_bind, wp_modify, wp_bind, wp_gets. simpl. rewrite Ha.
  apply wp_bind, wp_gets. simpl.
  destruct (Z.eqb_spec (lastHeaderStream fr) 0) as [E0|E0]; simpl;
    [rewrite decide_True by done|rewrite decide_False by done];
    destruct (Z.eqb_spec (Type_ (Header f)) FrameContinuation) as [Ec|Ec]; simpl; try (by apply wp_bind, wp_connError).
  - apply wp_bind, wp_ret. rewrite orb_false_r.
    destruct (Z.eqb_spec (Type_ (Header f)) FrameHeaders);
      [rewrite decide_True by tauto|rewrite decide_False by tauto];
      [apply wp_modify|apply wp_ret]; (split; [done|]); intros _; simpl; split_and!; done.
  - destruct (Z.eqb_spec (StreamID (Header f)) (lastHeaderStream fr)); simpl; [|by apply wp_bind, wp_connError].
    apply wp_bind, wp_ret. rewrite orb_true_r, decide_True by tauto. apply wp_modify. split; [done|].
    intros _. simpl. split_and!; done.
Qed.

Lemma ReadFrame_safe (fr : rframer (R := R)) :
  AllowIllegalReads fr = false ->
  wp ReadFrame fr (fun r fr' => r <> Panic /\ forall f, r = Ok f -> read_ok fr fr' f).
Proof.
  intros Ha. unfold ReadFrame. apply wp_bind, wp_modify, wp_bind.
  eapply wp_mono; [apply read_header_safe|]. intros r fr1 [Hnp Hok].
  destruct r as [fh|e|]; [|done|done]. destruct (Hok fh eq_refl) as (b & r & -> & Hc & Hb & Hl). simpl in *.
  apply wp_bind. eapply (wp_mono _ _ (fun r' fr' => r' <> Panic /\ forall f, r' = Ok f -> Header f = fh /\
    (Type_ fh = FrameContinuation -> exists frag, f = ContinuationFrame fh frag) /\
    (forall fh' prio frag, f = HeadersFrame fh' prio frag -> Type_ fh' = FrameHeaders /\ StreamID fh' <> 0) /\
    exists p r2, fr' = set_reader r2 (set_reader r (set_detail None fr)) /\ contents r = p ++ contents r2 /\
      lenZ p = Length fh)).
  - destruct (Z.eqb_spec (Type_ fh) FrameData) as [Et|Et].
    + eapply wp_mono; [apply parse_data_safe; [done|lia]|]. intros r' fr' [H1 H2]. split; [done|].
      intros f Hf. destruct (H2 f Hf) as (H3 & Hnh & p & r2 & H4 & H5 & H6). split; [done|].
      split; [intros Ec; rewrite Et in Ec; done|]. split; [intros ? ? ? E; by apply Hnh in E|]. by exists p, r2.
    + apply wp_bind, wp_next; [lia| |done]. intros p r2 Hc2 Hp.
      destruct (typeFrameParser (Type_ fh) fh p) as [f|[e|code why]] eqn:Ep; simpl;
        [apply wp_ret|by apply wp_throw|by apply wp_connError].
      split; [done|]. intros f' [= <-]. destruct (parser_header _ _ _ Ep) as (H1 & H2 & H3).
      split; [done|]. split; [done|]. split; [done|]. by exists p, r2.
  - intros r' fr2 [Hnp' Hok']. destruct r' as [f|e|]; [|done|done].
    destruct (Hok' f eq_refl) as (Hh & Hcont & Hhd & p & r2 & -> & Hc2 & Hp).
    apply wp_bind. eapply wp_mono; [apply order_safe; done|]. intros r'' fr3 [Hnp3 Hok3].
    destruct r'' as [[]|e|]; [|done|done]. destruct (Hok3 eq_refl) as (H1 & H2 & H3 & H4 & H5).
    apply wp_ret. split; [done|]. intros f' [= <-]. exists (b ++ p). simpl in *. rewrite H1. simpl.
    rewrite Hh in *. split_and!; try done; try lia.
    + by rewrite Hc, Hc2, app_assoc.
    + unfold lenZ in *. rewrite length_app. lia.
Qed.

(** C38: any byte stream is read safely.  On arbitrary input the raw reader never panics;
    a frame it returns is no larger than the limit, accounts exactly for the bytes
    consumed, and is in order: inside a header block only its own CONTINUATION frames are
    returned, outside none. *)
Theorem read_any_bytes_safe (fr : rframer (R := R)) :
  AllowIllegalReads fr = false ->
  fst (ReadFrame fr) <> Panic /\
  forall f, fst (ReadFrame fr) = Ok f -> read_ok fr (snd (ReadFrame fr)) f.
Proof. intros Ha. exact (ReadFrame_safe fr Ha). Qed.

Lemma meta_loop_safe fuel : forall e frag (ended : bool) (fr : mframer),
  AllowIllegalReads (raw fr) = false -> (ended = false -> lastHeaderStream (raw fr) <> 0) ->
  (length (contents (reader (raw fr))) < fuel)%nat ->
  wp (meta_loop fuel e frag ended) fr (fun r _ => r <> Panic).
Proof.
  induction fuel as [|fuel IH]; intros e frag ended fr Ha Hend Hf; [lia|]. cbn [meta_loop].
  apply wp_bind. unfold wp at 1, hpack_write.
  destruct (hd_write (maxHeaderListSize fr) frag (dec fr)) as [[fs d]|]; [|done]. cbv beta iota. simpl.
  destruct ended; [by apply wp_ret|]. apply wp_bind. unfold wp at 1, liftR. simpl.
  pose proof (ReadFrame_safe (raw fr) Ha) as Hs. unfold wp in Hs.
  destruct (ReadFrame (raw fr)) as [[f|er|] rf]; simpl in *; [|done|by destruct Hs].
  destruct Hs as [_ Hs]. destruct (Hs f eq_refl) as (b & Hc & Hb & Hlen & Hord & Hlast & _ & Ha' & Hcont & _).
  rewrite decide_False in Hord by (by apply Hend). destruct Hord as [Ht Hsid].
  destruct (Hcont Ht) as [frag' ->]. simpl in *. apply IH; simpl; [done| |].
  - intros Hn. rewrite decide_True in Hlast by (by right). rewrite Hn in Hlast. rewrite Hlast, Hsid. by apply Hend.
  - apply (f_equal length) in Hc. rewrite length_app in Hc. unfold lenZ in Hb. lia.
Qed.

(** Reading header blocks never panics or loops.  On arbitrary input [ReadFrame] with a
    header decoder terminates without a panic: the fragments loop ends within the bytes
    available, and every frame it meets is the CONTINUATION the type assertion expects. *)
Theorem read_meta_never_panics (fr : mframer) :
  AllowIllegalReads (raw fr) = false -> fst (ReadFrameMeta fr) <> Panic.
Proof.
  intros Ha. cut (wp ReadFrameMeta fr (fun r _ => r <> Panic)); [done|].
  unfold ReadFrameMeta. apply wp_bind. unfold wp at 1, liftR.
  pose proof (ReadFrame_safe (raw fr) Ha) as Hs. unfold wp in Hs.
  destruct (ReadFrame (raw fr)) as [[f|er|] rf]; simpl in *; [|done|by destruct Hs].
  destruct Hs as [_ Hs]. destruct (Hs f eq_refl) as (b & _ & _ & _ & _ & Hlast & _ & Ha' & _ & Hhd).
  destruct f; try (by apply wp_ret). destruct (Hhd _ _ _ eq_refl) as [Ht Hsid]. simpl in *.
  apply wp_bind. eapply (wp_mono _ _ (fun r _ => r <> Panic)); [|by intros [] s' Hr; [apply wp_ret| |]].
  unfold readMetaFrame. apply wp_bind, wp_gets. simpl. rewrite Ha'.
  apply wp_bind, wp_gets, wp_bind, wp_gets, wp_bind.
  eapply wp_mono; [apply meta_loop_safe|]; simpl; try done.
  - intros Hn. rewrite Hlast, decide_True by (by left). by rewrite Hn.
  - lia.
  - intros r fr' Hr. destruct r as [e|er|]; [|done|done]. apply wp_bind, wp_gets.
    unfold fail_stream. destruct (hd_close (dec fr')); simpl; [|done].
    destruct (invalid e); [done|]. destruct (checkPseudos (fields e)); done.
Qed.

(** * Reassembly *)

(** Fields that are valid and have their pseudo-headers first. *)
Fixpoint valid_from (saw : bool) (fs : list field) : bool :=
  match fs with
  | [] => true
  | hf :: fs =>
      ValidHeaderFieldValue (snd hf) &&
      (if IsPseudo hf then negb saw && valid_from saw fs
       else validWireHeaderFieldName (fst hf) && valid_from true fs)
  end.

(** The longest prefix within the size limit. *)
Fixpoint take_fit (max : Z) (fs : list field) : list field :=
  match fs with
  | [] => []
  | hf :: fs => if max <? Size hf then [] else hf :: take_fit (max - Size hf) fs
  end.

Lemma emit_disabled fs e : enabled e = false -> foldl emit e fs = e.
Proof. intros He. induction fs as [|hf fs IH]; [done|]. simpl. unfold emit at 2. by rewrite He. Qed.

Lemma emit_valid fs : forall saw max acc,
  valid_from saw fs = true ->
  let e := foldl emit (mkEmit None saw max acc false true) fs in
  invalid e = None /\ fields e = acc ++ take_fit max fs /\
  truncated e = negb (length (take_fit max fs) =? length fs)%nat.
Proof.
  induction fs as [|hf fs IH]; intros saw max acc Hv; [simpl; by rewrite app_nil_r|].
  cbn [foldl]. simpl in Hv. apply andb_true_iff in Hv as [Hval Hv].
  assert (exists saw', emit (mkEmit None saw max acc false true) hf =
    (if max <? Size hf then mkEmit None saw' max acc true false
     else mkEmit None saw' (max - Size hf) (acc ++ [hf]) false true) /\ valid_from saw' fs = true)
    as (saw' & -> & Hv').
  { unfold emit. cbn [enabled negb invalid sawRegular remainSize fields truncated]. rewrite Hval. simpl negb.
    destruct (IsPseudo hf); apply andb_true_iff in Hv as [H1 H2].
    - apply negb_true_iff in H1. rewrite H1. by exists false; rewrite <- H1.
    - exists true. rewrite H1. done. }
  cbn [take_fit]. destruct (Z.ltb_spec max (Size hf)).
  - rewrite emit_disabled by done. simpl. by rewrite app_nil_r.
  - destruct (IH saw' (max - Size hf) (acc ++ [hf]) Hv') as (H1 & H2 & H3). simpl in *.
    split; [done|]. rewrite H2, <- app_assoc. split; [done|]. by rewrite H3.
Qed.

(** The CONTINUATION frames that carry the remaining fragments, the last one ending the
    block. *)
Fixpoint cont_ops (sid : Z) (frags : list (list byte)) : list wop :=
  match frags with
  | [] => []
  | [f] => [WContinuation sid true f]
  | f :: frags => WContinuation sid false f :: cont_ops sid frags
  end.

Lemma cont_ops_cons sid f frags :
  cont_ops sid (f :: frags) =
  WContinuation sid (match frags with [] => true | _ => false end) f :: cont_ops sid frags.
Proof. by destruct frags. Qed.

Lemma follows_cont sid (b : bool) f :
  0 < sid < 2 ^ 31 -> follows sid (WContinuation sid b f) = Some (if b then 0 else sid).
Proof.
  intros Hs. unfold follows. cbn [op_type op_stream op_flags]. rewrite !Z.eqb_refl.
  rewrite (proj2 (Z.eqb_neq sid 0)) by lia. by destruct b.
Qed.

Lemma end_flag (b : bool) : Has (if b then FlagEndHeaders else 0) FlagEndHeaders = b.
Proof. by destruct b. Qed.

Lemma meta_loop_spec frags : forall fuel e frag (fr : mframer) sid rest fs d,
  0 < sid < 2 ^ 31 -> validStreamID sid = true ->
  Forall (fun f => lenZ f < 2 ^ 24 /\ lenZ f <= maxReadSize (raw fr)) frags ->
  AllowIllegalReads (raw fr) = false ->
  (frags <> [] -> lastHeaderStream (raw fr) = sid) ->
  contents (reader (raw fr)) = wire (cont_ops sid frags) ++ rest ->
  hd_write (maxHeaderListSize fr) (frag ++ concat frags) (dec fr) = Some (fs, d) ->
  (length frags < fuel)%nat ->
  exists fr', meta_loop fuel e frag (match frags with [] => true | _ => false end) fr = (Ok (foldl emit e fs), fr') /\
    contents (reader (raw fr')) = rest /\ dec fr' = d /\ lastHeaderStream (raw fr') =
      match frags with [] => lastHeaderStream (raw fr) | _ => 0 end.
Proof.
  induction frags as [|f frags IH]; intros fuel e frag fr sid rest fs d Hsid Hv Hfr Ha Hl Hc Hw Hfu;
    (destruct fuel as [|fuel]; [lia|]); cbn [meta_loop].
  { rewrite app_nil_r in Hw. unfold mbind, M_bind, hpack_write. rewrite Hw. eexists. split; [reflexivity|]. done. }
  cbn [concat] in Hw. rewrite hd_incremental in Hw.
  destruct (hd_write (maxHeaderListSize fr) frag (dec fr)) as [[f1 d1]|] eqn:E1; [|done]. cbn [mbind option_bind] in Hw.
  destruct (hd_write (maxHeaderListSize fr) (f ++ concat frags) d1) as [[f2 d2]|] eqn:E2; [|done]. simpl in Hw.
  simplify_eq. apply Forall_cons in Hfr as [[Hf1 Hf2] Hfr].
  rewrite cont_ops_cons in Hc. unfold wire in Hc. rewrite bind_cons, <- app_assoc in Hc.
  set (fin := match frags with [] => true | _ => false end) in *.
  destruct (ReadFrame_spec (WContinuation sid fin f) (raw fr) (wire (cont_ops sid frags) ++ rest) (if fin then 0 else sid)
    ltac:(split; [simpl; lia|done]) Hv Hf1 Hf2 Ha) as (rf & HR & Hc' & Hl' & Hm' & Ha').
  { rewrite (Hl ltac:(done)). by apply follows_cont. }
  { exact Hc. }
  destruct (IH fuel (foldl emit e f1) f (mkMF rf d1 (MaxHeaderListSize fr)) sid rest f2 d) as (fr' & HM & H1 & H2 & H3);
    try done.
  { simpl. by rewrite Hm'. }
  { intros Hne. simpl. rewrite Hl'. subst fin. by destruct frags. }
  { simpl in *. lia. }
  exists fr'. split.
  - unfold mbind at 1, M_bind at 1, hpack_write. rewrite E1. cbv beta iota zeta.
    unfold mbind, M_bind, liftR. cbn [raw dec MaxHeaderListSize]. rewrite HR. cbv beta iota.
    cbn [expected op_header Flags op_flags]. fold fin in HM.
    rewrite end_flag, foldl_app. exact HM.
  - split; [done|]. split; [done|]. rewrite H3. simpl. rewrite Hl'. by destruct frags.
Qed.

Lemma headers_end p : Has (header_flags p) FlagEndHeaders = h_EndHeaders p.
Proof. unfold header_flags. by repeat case_match. Qed.

Lemma length_wire os : (length os <= length (wire os))%nat.
Proof.
  induction os as [|o os IH]; [done|]. unfold wire. rewrite bind_cons. fold (wire os).
  unfold frame_bytes. rewrite !length_app, !length_be_put. simpl. lia.
Qed.

Lemma length_cont_ops sid frags : length (cont_ops sid frags) = length frags.
Proof. induction frags as [|f frags IH]; [done|]. rewrite cont_ops_cons. simpl. by rewrite IH. Qed.

Lemma cont_sizes sid frags (P : Z -> Prop) :
  Forall (fun o => P (lenZ (payload o))) (cont_ops sid frags) -> Forall (fun f => P (lenZ f)) frags.
Proof.
  induction frags as [|f frags IH]; [done|]. rewrite cont_ops_cons. intros [H1 H2]%Forall_cons.
  constructor; [done|by apply IH].
Qed.

Lemma readMetaFrame_run fh prio frag (fr fr' : mframer) e :
  AllowIllegalReads (raw fr) = false ->
  meta_loop (S (length (contents (reader (raw fr))))) (mkEmit None false (maxHeaderListSize fr) [] false true)
    frag (Has (Flags fh) FlagEndHeaders) fr = (Ok e, fr') ->
  hd_close (dec fr') = true -> invalid e = None -> checkPseudos (fields e) = None ->
  readMetaFrame fh prio frag fr = (Ok (mkMeta (HeadersFrame fh prio []) (fields e) (truncated e)), fr').
Proof.
  intros Ha HM Hc Hi Hp. unfold readMetaFrame, mbind, M_bind, gets. rewrite Ha, HM, Hc. simpl negb.
  cbn iota. by rewrite Hi, Hp.
Qed.

(** C9: a header block is decoded independently of its fragmentation.  A HEADERS frame and
    its CONTINUATION frames, however the block was split, yield one MetaHeadersFrame with
    the fields of the whole block in order, cut to the longest prefix within the list
    limit and marked truncated exactly when something was cut; the reader is left after
    the last fragment. *)
Theorem header_block_reassembled p frags (fr : mframer) rest fs d :
  op_ok (WHeaders p) -> op_guard (WHeaders p) -> lastHeaderStream (raw fr) = 0 ->
  AllowIllegalReads (raw fr) = false ->
  h_EndHeaders p = (match frags with [] => true | _ => false end) ->
  Forall (fun o => lenZ (payload o) < 2 ^ 24 /\ lenZ (payload o) <= maxReadSize (raw fr))
    (WHeaders p :: cont_ops (h_StreamID p) frags) ->
  contents (reader (raw fr)) = wire (WHeaders p :: cont_ops (h_StreamID p) frags) ++ rest ->
  hd_write (maxHeaderListSize fr) (h_BlockFragment p ++ concat frags) (dec fr) = Some (fs, d) ->
  hd_close d = true -> valid_from false fs = true ->
  checkPseudos (take_fit (maxHeaderListSize fr) fs) = None ->
  exists fr', ReadFrameMeta fr =
      (Ok (inr (mkMeta (HeadersFrame (op_header (WHeaders p)) (h_Priority p) [])
         (take_fit (maxHeaderListSize fr) fs)
         (negb (length (take_fit (maxHeaderListSize fr) fs) =? length fs)%nat))), fr') /\
    contents (reader (raw fr')) = rest /\ dec fr' = d /\ lastHeaderStream (raw fr') = 0.
Proof.
  intros Hok Hg Hl0 Ha Hend Hsz Hc Hw Hcl Hval Hps. apply Forall_cons in Hsz as [[Hs1 Hs2] Hsz].
  unfold wire in Hc. rewrite bind_cons, <- app_assoc in Hc.
  pose proof Hg as [Hv _]. pose proof Hok as [Hsid _]. pose proof (validStreamID_range _ Hsid Hv) as Hr.
  change (op_stream (WHeaders p)) with (h_StreamID p) in Hr.
  destruct (ReadFrame_spec (WHeaders p) (raw fr) (wire (cont_ops (h_StreamID p) frags) ++ rest)
    (match frags with [] => 0 | _ => h_StreamID p end) Hok Hg Hs1 Hs2 Ha) as (rf & HR & Hc' & Hl' & Hm' & Ha').
  { rewrite Hl0. unfold follows. simpl. rewrite headers_end, Hend. by destruct frags. }
  { exact Hc. }
  destruct (meta_loop_spec frags (S (length (contents (reader rf)))) (mkEmit None false (maxHeaderListSize fr) [] false true)
    (h_BlockFragment p) (mkMF rf (dec fr) (MaxHeaderListSize fr)) (h_StreamID p) rest fs d)
    as (fr' & HM & H1 & H2 & H3); try done.
  { simpl. rewrite Hm'. by apply (cont_sizes (h_StreamID p) frags (fun n => n < 2 ^ 24 /\ n <= maxReadSize (raw fr))). }
  { intros Hne. simpl. rewrite Hl'. by destruct frags. }
  { rewrite Hc', length_app. pose proof (length_wire (cont_ops (h_StreamID p) frags)).
    rewrite length_cont_ops in *. lia. }
  exists fr'. split; [|split; [done|split; [done|]]]; [|rewrite H3; simpl; rewrite Hl'; by destruct frags].
  destruct (emit_valid fs false (maxHeaderListSize fr) [] Hval) as (He1 & He2 & He3). simpl in He2.
  unfold ReadFrameMeta, mbind, M_bind, liftR. rewrite HR. cbn [expected].
  erewrite readMetaFrame_run; [|done| |by rewrite H2|exact He1|by rewrite He2].
  - rewrite He2, He3. done.
  - cbn [op_header Flags op_flags raw]. rewrite headers_end, Hend. exact HM.
Qed.

End meta.

(** * A concrete decoder *)

(** One field per byte, enough to evaluate the reader. *)
#[local] Instance byte_decoder : HpackDecoder unit.
Proof.
  refine {| hd_write := fun _ a d => Some ((fun b => ([b], [])) <$> a, d); hd_close := fun _ => true |}.
  intros m a b d. simpl. by rewrite fmap_app.
Defined.

#[local] Instance any_token : HttpGuts := {| ValidHeaderFieldValue := fun _ => true; IsTokenRune := fun _ => true |}.

Definition sample_block : HeadersFrameParam := mkHP 1 [Byte.x61] true false Byte.x00 prio0.
Definition sample_frags : list (list byte) := [[Byte.x62]; [Byte.x63; Byte.x64]].

Definition block_framer : mframer (R := list byte) (D := unit) :=
  mkMF (NewReadFramer (wire (WHeaders sample_block :: cont_ops 1 sample_frags) ++ [Byte.x00])) tt 100.

Lemma read_any_bytes_safe_witness :
  fst (ReadFrame (NewReadFramer (R := list byte) [Byte.x01; Byte.x02])) <> Panic.
Proof. apply (read_any_bytes_safe (R := list byte) (NewReadFramer [Byte.x01; Byte.x02])). reflexivity. Defined.

Lemma read_meta_never_panics_witness : fst (ReadFrameMeta block_framer) <> Panic.
Proof. apply (read_meta_never_panics (R := list byte) (D := unit) block_framer). reflexivity. Defined.

Lemma header_block_reassembled_witness :
  exists fr', ReadFrameMeta block_framer =
      (Ok (inr (mkMeta (HeadersFrame (op_header (WHeaders sample_block)) prio0 [])
         [([Byte.x61], []); ([Byte.x62], []); ([Byte.x63], [])] true)), fr') /\
    contents (reader (raw fr')) = [Byte.x00].
Proof.
  destruct (header_block_reassembled (R := list byte) (D := unit) sample_block sample_frags block_framer
    [Byte.x00] [([Byte.x61], []); ([Byte.x62], []); ([Byte.x63], []); ([Byte.x64], [])] tt) as (fr' & H1 & H2 & _).
  - split; simpl; lia.
  - split; [reflexivity|discriminate].
  - reflexivity.
  - reflexivity.
  - reflexivity.
  - apply (bool_decide_unpack _). vm_compute. exact Logic.I.
  - reflexivity.
  - reflexivity.
  - reflexivity.
  - reflexivity.
  - reflexivity.
  - exists fr'. split; [exact H1|exact H2].
Defined.
