(* ===== verification/Kerrors.v ===== *)
(** The framework's errors (src/pkg/kerrors/kerrors.go): the basic errors, the detailed
    errors that wrap a cause, and the timeout test the retryers use. *)

From S2P Require Import Prelude.

(** The package's basic errors; each is one pointer, compared by identity. *)
Inductive basicError :=
  | ErrInternalException | ErrServiceDiscovery | ErrGetConnection | ErrLoadbalance
  | ErrNoMoreInstance | ErrRPCTimeout | ErrCanceledByBusiness | ErrTimeoutByBusiness
  | ErrACL | ErrCircuitBreak | ErrRemoteOrNetwork | ErrOverlimit | ErrPanic | ErrBiz
  | ErrRetry | ErrRPCFinish | ErrRoute | ErrPayloadValidation.

#[export] Instance basicError_eq_dec : EqDecision basicError.
Proof. solve_decision. Defined.

Definition basicMessage (b : basicError) : string :=
  match b with
  | ErrInternalException => "internal exception"
  | ErrServiceDiscovery => "service discovery error"
  | ErrGetConnection => "get connection error"
  | ErrLoadbalance => "loadbalance error"
  | ErrNoMoreInstance => "no more instances to retry"
  | ErrRPCTimeout => "rpc timeout"
  | ErrCanceledByBusiness => "canceled by business"
  | ErrTimeoutByBusiness => "timeout by business"
  | ErrACL => "request forbidden"
  | ErrCircuitBreak => "forbidden by circuitbreaker"
  | ErrRemoteOrNetwork => "remote or network error"
  | ErrOverlimit => "request over limit"
  | ErrPanic => "panic"
  | ErrBiz => "biz error"
  | ErrRetry => "retry error"
  | ErrRPCFinish => "rpc call finished"
  | ErrRoute => "rpc route failed"
  | ErrPayloadValidation => "payload validation error"
  end.

(** An error type of other code: its text, what its own [Is] method says of a basic error
    ([false] without one) and what [os.IsTimeout] says of it. *)
Class ForeignError (F : Type) := {
  foreignError : F -> string;
  foreignIs : F -> basicError -> bool;
  foreignTimeout : F -> bool
}.

#[export] Instance string_error : ForeignError string :=
  {| foreignError := fun s => s; foreignIs := fun _ _ => false; foreignTimeout := fun _ => false |}.

Section kerrors.
Context {F : Type} `{!ForeignError F}.

(** A non-nil [error]. [Wrapped] is an error of other code that unwraps to its cause, as
    [fmt.Errorf] with the verb %w builds it. *)
Inductive error :=
  | Basic (b : basicError)
  | Detailed (basic : basicError) (cause : option error) (stack extraMsg : string)
  | Foreign (f : F)
  | Wrapped (f : F) (cause : error).

Definition WithCause (b : basicError) (cause : option error) : error := Detailed b cause "" "".

Definition WithCauseAndStack (b : basicError) (cause : option error) (stack : string) : error :=
  Detailed b cause stack "".

Definition WithCauseAndExtraMsg (b : basicError) (cause : option error) (extraMsg : string) : error :=
  Detailed b cause "" extraMsg.

(** The method [DetailedError.WithExtraMsg], on the object behind the pointer. *)
Definition WithExtraMsg (e : error) (msg : string) : error :=
  match e with
  | Detailed b c s _ => Detailed b c s msg
  | e => e
  end.

(** The message with the extra text in brackets. *)
Definition appendMsg (errMsg extra : string) : string :=
  if bool_decide (extra = EmptyString) then errMsg
  else (errMsg +:+ "[" +:+ extra +:+ "]")%string.

Fixpoint Error (e : error) : string :=
  match e with
  | Basic b => basicMessage b
  | Detailed b c _ x =>
      let msg := appendMsg (basicMessage b) x in
      match c with Some c => (msg +:+ ": " +:+ Error c)%string | None => msg end
  | Foreign f | Wrapped f _ => foreignError f
  end.

(** [errors.Is(err, target)] for a basic error as target: identity, then the error's own
    [Is] method, then its cause. *)
Fixpoint Is (e : error) (target : basicError) : bool :=
  match e with
  | Basic b => bool_decide (b = target)
  | Detailed b c _ _ =>
      bool_decide (b = target) || match c with Some c => Is c target | None => false end
  | Foreign f => foreignIs f target
  | Wrapped f c => foreignIs f target || Is c target
  end.

(** [os.IsTimeout] looks at the error itself, which for a detailed error asks its cause. *)
Fixpoint Timeout (e : error) : bool :=
  match e with
  | Basic b => bool_decide (b = ErrRPCTimeout)
  | Detailed b c _ _ =>
      bool_decide (b = ErrRPCTimeout) || match c with Some c => Timeout c | None => false end
  | Foreign f | Wrapped f _ => foreignTimeout f
  end.

Definition IsKitexError (e : error) : bool :=
  match e with Basic _ | Detailed _ _ _ _ => true | _ => false end.

(** [TimeoutCheckFunc] is the package variable, nil unless the user sets it. *)
Definition IsTimeoutError (TimeoutCheckFunc : option (error -> bool)) (e : error) : bool :=
  match TimeoutCheckFunc with Some f => f e | None => Is e ErrRPCTimeout end.

(** Extra text changes neither what an error is nor whether it is a timeout. *)
Lemma Is_WithExtraMsg e msg t : Is (WithExtraMsg e msg) t = Is e t.
Proof. by destruct e. Qed.

Lemma IsTimeoutError_WithExtraMsg e msg :
  IsTimeoutError None (WithExtraMsg e msg) = IsTimeoutError None e.
Proof. apply Is_WithExtraMsg. Qed.
End kerrors.

Arguments error F : clear implicits.
