(* ===== verification/RetryPolicy.v ===== *)
(** Retry policies (src/pkg/retry/policy.go, failure.go, backup.go, mixed.go): the policy
    records with their builders, setters, checks, equality and copies, and the back-off
    strategies. *)

From Stdlib Require Import Floats.SpecFloat.
From S2P Require Import Prelude Kerrors.

(** * float64

    A float64 is a [spec_float] of the Standard Library's IEEE-754 specification; its
    comparisons are Go's, so a NaN differs from itself. *)

Abbreviation float64 := spec_float.

Definition f_zero : float64 := S754_zero false.
(** The doubles nearest to 0.1 and 0.3. *)
Definition defaultCBErrRate : float64 := S754_finite false 7205759403792794 (-56).
Definition f_0_3 : float64 := S754_finite false 5404319552844595 (-54).

Definition IsNaN (x : float64) : bool := match x with S754_nan => true | _ => false end.

(** [float64(n)]: the nearest double. *)
Definition float_of_int (n : Z) : float64 := binary_normalize 53 1024 n 0 false.

(** The integer [fmt.Sprintf] with %1.0f prints: the exact value rounded half to even. *)
Definition round_even (m : positive) (e : Z) : Z :=
  if 0 <=? e then Zpos m * 2 ^ e
  else
    let q := Zpos m / 2 ^ (- e) in
    let r := Zpos m mod 2 ^ (- e) in
    let half := 2 ^ (- e - 1) in
    if (half <? r) || ((r =? half) && Z.odd q) then q + 1 else q.

(** [strconv.Atoi(fmt.Sprintf("%1.0f", x))] with the error ignored: what is not a number
    gives 0, what is out of range its nearest int. *)
Definition sprint_atoi (x : float64) : Z :=
  match x with
  | S754_finite s m e =>
      let z := if s then - round_even m e else round_even m e in
      Z.max (- 2 ^ 63) (Z.min MaxInt64 z)
  | _ => 0
  end.

(** * The policies *)

Definition FailureType : Z := 0.
Definition BackupType : Z := 1.
Definition MixedType : Z := 2.

Definition TypeString (t : Z) : string :=
  if t =? FailureType then "Failure"
  else if t =? BackupType then "Backup"
  else if t =? MixedType then "Mixed"
  else EmptyString.

(** [ErrorRate] is the only field of the embedded [CBPolicy]. *)
Record StopPolicy := mkStop {
  MaxRetryTimes : Z; MaxDurationMS : Z; DisableChainStop : bool; DDLStop : bool;
  ErrorRate : float64 }.

(** A nil map is [None]. *)
Record BackOffPolicy := mkBackOff { BackOffType : string; CfgItems : option (gmap string float64) }.

Definition NoneBackOffType : string := "none".
Definition FixedBackOffType : string := "fixed".
Definition RandomBackOffType : string := "random".
Definition FixMSBackOffCfgKey : string := "fix_ms".
Definition MinMSBackOffCfgKey : string := "min_ms".
Definition MaxMSBackOffCfgKey : string := "max_ms".

(** What the retryers handle without looking inside. *)
Class RpcTypes := {
  Ctx : Type;
  RPCInfo : Type;
  Response : Type;
  ErrT : Type;
  #[global] ErrT_error :: ForeignError ErrT
}.

Section policy.
Context `{!RpcTypes}.

Record ShouldResultRetry := mkSRR {
  ErrorRetryWithCtx : option (Ctx -> error ErrT -> option RPCInfo -> bool);
  RespRetryWithCtx : option (Ctx -> option Response -> option RPCInfo -> bool);
  ErrorRetry : option (error ErrT -> option RPCInfo -> bool);
  RespRetry : option (option Response -> option RPCInfo -> bool);
  NotRetryForTimeout : bool }.

Record FailurePolicy := mkFailure {
  f_StopPolicy : StopPolicy;
  f_BackOffPolicy : option BackOffPolicy;
  f_RetrySameNode : bool;
  f_ShouldResultRetry : option ShouldResultRetry;
  f_Extra : string }.

Record BackupPolicy := mkBackup {
  b_RetryDelayMS : Z; b_StopPolicy : StopPolicy; b_RetrySameNode : bool }.

Record MixedPolicy := mkMixed { m_RetryDelayMS : Z; m_FailurePolicy : FailurePolicy }.

Record Policy := mkPolicy {
  Enable : bool; PType : Z;
  p_FailurePolicy : option FailurePolicy;
  p_BackupPolicy : option BackupPolicy;
  p_MixedPolicy : option MixedPolicy }.

Definition emptyPolicy : Policy := mkPolicy false 0 None None None.

(** ** Builders and setters; [None] is a panic. *)

Definition BuildFailurePolicy (p : option FailurePolicy) : Policy :=
  match p with None => emptyPolicy | Some _ => mkPolicy true FailureType p None None end.

Definition BuildBackupRequest (p : option BackupPolicy) : Policy :=
  match p with None => emptyPolicy | Some _ => mkPolicy true BackupType None p None end.

Definition BuildMixedPolicy (p : option MixedPolicy) : Policy :=
  match p with None => emptyPolicy | Some _ => mkPolicy true MixedType None None p end.

Definition AllErrorRetry : ShouldResultRetry :=
  mkSRR (Some (fun _ _ _ => true)) None None None false.

Definition maxFailureRetryTimes : Z := 5.
Definition maxBackupRetryTimes : Z := 2.
Definition maxMixRetryTimes : Z := 3.
Definition defaultBackupRetryTimes : Z := 1.

Definition NewFailurePolicy : FailurePolicy :=
  mkFailure (mkStop 2 0 false false defaultCBErrRate)
    (Some (mkBackOff NoneBackOffType None)) false None EmptyString.

Definition set_f_stop (s : StopPolicy) (p : FailurePolicy) : FailurePolicy :=
  mkFailure s (f_BackOffPolicy p) (f_RetrySameNode p) (f_ShouldResultRetry p) (f_Extra p).

Definition set_f_backoff (b : option BackOffPolicy) (p : FailurePolicy) : FailurePolicy :=
  mkFailure (f_StopPolicy p) b (f_RetrySameNode p) (f_ShouldResultRetry p) (f_Extra p).

Definition set_f_rr (rr : option ShouldResultRetry) (p : FailurePolicy) : FailurePolicy :=
  mkFailure (f_StopPolicy p) (f_BackOffPolicy p) (f_RetrySameNode p) rr (f_Extra p).

Definition set_times (n : Z) (s : StopPolicy) : StopPolicy :=
  mkStop n (MaxDurationMS s) (DisableChainStop s) (DDLStop s) (ErrorRate s).

Definition set_rate (r : float64) (s : StopPolicy) : StopPolicy :=
  mkStop (MaxRetryTimes s) (MaxDurationMS s) (DisableChainStop s) (DDLStop s) r.

Definition NewFailurePolicyWithResultRetry (rr : option ShouldResultRetry) : FailurePolicy :=
  set_f_rr rr NewFailurePolicy.

Definition f_WithMaxRetryTimes (n : Z) (p : FailurePolicy) : option FailurePolicy :=
  if (n <? 0) || (maxFailureRetryTimes <? n) then None
  else Some (set_f_stop (set_times n (f_StopPolicy p)) p).

Definition f_WithMaxDurationMS (maxMS : Z) (p : FailurePolicy) : FailurePolicy :=
  let s := f_StopPolicy p in
  set_f_stop (mkStop (MaxRetryTimes s) maxMS (DisableChainStop s) (DDLStop s) (ErrorRate s)) p.

Definition f_DisableChainRetryStop (p : FailurePolicy) : FailurePolicy :=
  let s := f_StopPolicy p in
  set_f_stop (mkStop (MaxRetryTimes s) (MaxDurationMS s) true (DDLStop s) (ErrorRate s)) p.

Definition f_WithDDLStop (p : FailurePolicy) : FailurePolicy :=
  let s := f_StopPolicy p in
  set_f_stop (mkStop (MaxRetryTimes s) (MaxDurationMS s) (DisableChainStop s) true (ErrorRate s)) p.

(** Go's [p.ErrorRate <= 0 || p.ErrorRate > 0.3]; [true] is a nil error. *)
Definition checkCBErrorRate (r : float64) : bool := negb (SFleb r f_zero || SFltb f_0_3 r).

Definition checkFixedBackOff (fixMS : Z) : bool := negb (fixMS =? 0).
Definition checkRandomBackOff (minMS maxMS : Z) : bool := negb (maxMS <=? minMS).

Definition f_WithFixedBackOff (fixMS : Z) (p : FailurePolicy) : option FailurePolicy :=
  if negb (checkFixedBackOff fixMS) then None
  else Some (set_f_backoff (Some (mkBackOff FixedBackOffType
         (Some {[FixMSBackOffCfgKey := float_of_int fixMS]}))) p).

Definition f_WithRandomBackOff (minMS maxMS : Z) (p : FailurePolicy) : option FailurePolicy :=
  if negb (checkRandomBackOff minMS maxMS) then None
  else Some (set_f_backoff (Some (mkBackOff RandomBackOffType
         (Some (<[MaxMSBackOffCfgKey := float_of_int maxMS]>
                  {[MinMSBackOffCfgKey := float_of_int minMS]})))) p).

Definition f_WithRetryBreaker (errRate : float64) (p : FailurePolicy) : option FailurePolicy :=
  if negb (checkCBErrorRate errRate) then None
  else Some (set_f_stop (set_rate errRate (f_StopPolicy p)) p).

Definition f_WithRetrySameNode (p : FailurePolicy) : FailurePolicy :=
  mkFailure (f_StopPolicy p) (f_BackOffPolicy p) true (f_ShouldResultRetry p) (f_Extra p).

Definition f_WithSpecifiedResultRetry (rr : option ShouldResultRetry) (p : FailurePolicy) : FailurePolicy :=
  match rr with Some _ => set_f_rr rr p | None => p end.

Definition NewBackupPolicy (delayMS : Z) : option BackupPolicy :=
  if delayMS =? 0 then None
  else Some (mkBackup delayMS (mkStop defaultBackupRetryTimes 0 false false defaultCBErrRate) false).

Definition b_WithMaxRetryTimes (n : Z) (p : BackupPolicy) : option BackupPolicy :=
  if (n <? 0) || (maxBackupRetryTimes <? n) then None
  else Some (mkBackup (b_RetryDelayMS p) (set_times n (b_StopPolicy p)) (b_RetrySameNode p)).

Definition b_WithRetryBreaker (errRate : float64) (p : BackupPolicy) : option BackupPolicy :=
  if negb (checkCBErrorRate errRate) then None
  else Some (mkBackup (b_RetryDelayMS p) (set_rate errRate (b_StopPolicy p)) (b_RetrySameNode p)).

Definition b_DisableChainRetryStop (p : BackupPolicy) : BackupPolicy :=
  let s := b_StopPolicy p in
  mkBackup (b_RetryDelayMS p)
    (mkStop (MaxRetryTimes s) (MaxDurationMS s) true (DDLStop s) (ErrorRate s)) (b_RetrySameNode p).

Definition b_WithRetrySameNode (p : BackupPolicy) : BackupPolicy :=
  mkBackup (b_RetryDelayMS p) (b_StopPolicy p) true.

Definition NewMixedPolicy (delayMS : Z) : option MixedPolicy :=
  if delayMS =? 0 then None
  else Some (mkMixed delayMS
         (mkFailure (mkStop defaultBackupRetryTimes 0 false false defaultCBErrRate)
            (Some (mkBackOff NoneBackOffType None)) false None EmptyString)).

Definition NewMixedPolicyWithResultRetry (delayMS : Z) (rr : option ShouldResultRetry) : option MixedPolicy :=
  fp ← NewMixedPolicy delayMS;
  Some (mkMixed (m_RetryDelayMS fp) (set_f_rr rr (m_FailurePolicy fp))).

(** ** Equality

    [StopPolicy != StopPolicy] compares the struct field by field. *)

Definition stop_eqb (a b : StopPolicy) : bool :=
  (MaxRetryTimes a =? MaxRetryTimes b) && (MaxDurationMS a =? MaxDurationMS b)
  && Bool.eqb (DisableChainStop a) (DisableChainStop b) && Bool.eqb (DDLStop a) (DDLStop b)
  && SFeqb (ErrorRate a) (ErrorRate b).

(** [m[k]] of a map that may be nil. *)
Definition cfg (m : option (gmap string float64)) (k : string) : float64 :=
  default f_zero (m ≫= fun m => m !! k).

Definition cfg_keys (m : option (gmap string float64)) : list string :=
  match m with Some m => (map_to_list m).*1 | None => [] end.

Definition BackOff_Equals (p np : option BackOffPolicy) : bool :=
  match p, np with
  | None, None => true
  | None, Some _ | Some _, None => false
  | Some p, Some np =>
      bool_decide (BackOffType p = BackOffType np)
      && (lenZ (cfg_keys (CfgItems p)) =? lenZ (cfg_keys (CfgItems np)))
      && forallb (fun k => SFeqb (cfg (CfgItems p) k) (cfg (CfgItems np) k)) (cfg_keys (CfgItems p))
  end.

Definition Failure_Equals (p np : option FailurePolicy) : bool :=
  match p, np with
  | None, None => true
  | None, Some _ | Some _, None => false
  | Some p, Some np =>
      stop_eqb (f_StopPolicy p) (f_StopPolicy np)
      && BackOff_Equals (f_BackOffPolicy p) (f_BackOffPolicy np)
      && Bool.eqb (f_RetrySameNode p) (f_RetrySameNode np)
      && bool_decide (f_Extra p = f_Extra np)
  end.

Definition Backup_Equals (p np : option BackupPolicy) : bool :=
  match p, np with
  | None, None => true
  | None, Some _ | Some _, None => false
  | Some p, Some np =>
      (b_RetryDelayMS p =? b_RetryDelayMS np) && stop_eqb (b_StopPolicy p) (b_StopPolicy np)
      && Bool.eqb (b_RetrySameNode p) (b_RetrySameNode np)
  end.

Definition Mixed_Equals (p np : option MixedPolicy) : bool :=
  match p, np with
  | None, None => true
  | None, Some _ | Some _, None => false
  | Some p, Some np =>
      (m_RetryDelayMS p =? m_RetryDelayMS np)
      && Failure_Equals (Some (m_FailurePolicy p)) (Some (m_FailurePolicy np))
  end.

Definition Policy_Equals (p np : Policy) : bool :=
  Bool.eqb (Enable p) (Enable np) && (PType p =? PType np)
  && Failure_Equals (p_FailurePolicy p) (p_FailurePolicy np)
  && Backup_Equals (p_BackupPolicy p) (p_BackupPolicy np)
  && Mixed_Equals (p_MixedPolicy p) (p_MixedPolicy np).

(** ** Copies: the map is rebuilt entry by entry. *)

Definition copyCfgItems (p : BackOffPolicy) : option (gmap string float64) :=
  match CfgItems p with
  | None => None
  | Some m => Some (foldl (fun acc kv => <[kv.1 := kv.2]> acc) ∅ (map_to_list m))
  end.

Definition BackOff_DeepCopy (p : option BackOffPolicy) : option BackOffPolicy :=
  p ← p; Some (mkBackOff (BackOffType p) (copyCfgItems p)).

Definition Failure_DeepCopy (p : option FailurePolicy) : option FailurePolicy :=
  p ← p; Some (mkFailure (f_StopPolicy p) (BackOff_DeepCopy (f_BackOffPolicy p))
                 (f_RetrySameNode p) (f_ShouldResultRetry p) (f_Extra p)).

Definition Backup_DeepCopy (p : option BackupPolicy) : option BackupPolicy :=
  p ← p; Some (mkBackup (b_RetryDelayMS p) (b_StopPolicy p) (b_RetrySameNode p)).

Definition Mixed_DeepCopy (p : option MixedPolicy) : option MixedPolicy :=
  p ← p; fp ← Failure_DeepCopy (Some (m_FailurePolicy p)); Some (mkMixed (m_RetryDelayMS p) fp).

Definition Policy_DeepCopy (p : option Policy) : option Policy :=
  p ← p; Some (mkPolicy (Enable p) (PType p) (Failure_DeepCopy (p_FailurePolicy p))
                 (Backup_DeepCopy (p_BackupPolicy p)) (Mixed_DeepCopy (p_MixedPolicy p))).

(** ** Which results are retried *)

Definition IsValid (rr : ShouldResultRetry) : bool :=
  bool_decide (is_Some (ErrorRetryWithCtx rr)) || bool_decide (is_Some (RespRetryWithCtx rr))
  || bool_decide (is_Some (RespRetry rr)) || bool_decide (is_Some (ErrorRetry rr)).

Definition isRetryForTimeout (p : FailurePolicy) : bool :=
  match f_ShouldResultRetry p with None => true | Some rr => negb (NotRetryForTimeout rr) end.

Definition isRespRetry (ctx : Ctx) (resp : option Response) (ri : option RPCInfo) (p : FailurePolicy) : bool :=
  match f_ShouldResultRetry p with
  | Some rr => match RespRetryWithCtx rr with Some f => f ctx resp ri | None => false end
  | None => false
  end.

Definition isErrorRetry (ctx : Ctx) (err : error ErrT) (ri : option RPCInfo) (p : FailurePolicy) : bool :=
  match f_ShouldResultRetry p with
  | Some rr => match ErrorRetryWithCtx rr with Some f => f ctx err ri | None => false end
  | None => false
  end.

Definition convert (rr : ShouldResultRetry) : ShouldResultRetry :=
  mkSRR
    (match ErrorRetry rr, ErrorRetryWithCtx rr with
     | Some f, None => Some (fun _ err ri => f err ri)
     | _, c => c
     end)
    (match RespRetry rr, RespRetryWithCtx rr with
     | Some f, None => Some (fun _ resp ri => f resp ri)
     | _, c => c
     end)
    (ErrorRetry rr) (RespRetry rr) (NotRetryForTimeout rr).

Definition convertResultRetry (p : FailurePolicy) : FailurePolicy :=
  set_f_rr (convert <$> f_ShouldResultRetry p) p.

(** ** Checks and back-off *)

(** [None] is an error; otherwise the policy with an invalid error rate replaced. *)
Definition checkStopPolicy (sp : StopPolicy) (maxRetryTimes : Z) : option StopPolicy :=
  let rt := MaxRetryTimes sp in
  if (rt <? 0) || (maxRetryTimes <? rt) then None
  else Some (if checkCBErrorRate (ErrorRate sp) then sp else set_rate defaultCBErrRate sp).

Inductive BackOff := noneBackOff | fixedBackOff (fixMS : Z) | randomBackOff (minMS maxMS : Z).

(** [inr] carries the back-off returned beside the error. *)
Definition initBackOff (policy : option BackOffPolicy) : BackOff + BackOff :=
  match policy with
  | None => inl noneBackOff
  | Some p =>
      if bool_decide (BackOffType p = NoneBackOffType) then inl noneBackOff
      else if bool_decide (BackOffType p = FixedBackOffType) then
        match CfgItems p with
        | None => inr noneBackOff
        | Some _ =>
            let fixMSInt := sprint_atoi (cfg (CfgItems p) FixMSBackOffCfgKey) in
            if checkFixedBackOff fixMSInt then inl (fixedBackOff fixMSInt) else inr noneBackOff
        end
      else if bool_decide (BackOffType p = RandomBackOffType) then
        match CfgItems p with
        | None => inr noneBackOff
        | Some _ =>
            let minMSInt := sprint_atoi (cfg (CfgItems p) MinMSBackOffCfgKey) in
            let maxMSInt := sprint_atoi (cfg (CfgItems p) MaxMSBackOffCfgKey) in
            if checkRandomBackOff minMSInt maxMSInt then inl (randomBackOff minMSInt maxMSInt)
            else inr noneBackOff
        end
      else inr noneBackOff
  end.

(** The milliseconds [Wait] sleeps, given the number [Intn] draws; [Intn] panics on a
    bound that is not positive. *)
Definition Wait (bo : BackOff) (intn : Z -> Z) : option Z :=
  match bo with
  | noneBackOff => Some 0
  | fixedBackOff fixMS => Some fixMS
  | randomBackOff minMS maxMS =>
      if i64 (maxMS - minMS) <=? 0 then None else Some (i64 (minMS + intn (i64 (maxMS - minMS))))
  end.
End policy.

(** * Whole numbers as float64 *)

Lemma iter_xO p d : Zpos (Pos.iter xO p d) = Zpos p * 2 ^ Zpos d.
Proof.
  induction d as [|d IH] using Pos.peano_ind; [cbn; lia|].
  rewrite Pos.iter_succ, Pos2Z.inj_succ, Z.pow_succ_r by lia. lia.
Qed.

Lemma digits2_iter_xO p d : digits2_pos (Pos.iter xO p d) = (digits2_pos p + d)%positive.
Proof.
  induction d as [|d IH] using Pos.peano_ind; [cbn; lia|].
  rewrite Pos.iter_succ. cbn. lia.
Qed.

Lemma digits2_bounds p : 2 ^ (Zpos (digits2_pos p) - 1) <= Zpos p < 2 ^ Zpos (digits2_pos p).
Proof.
  induction p as [p IH|p IH|]; cbn [digits2_pos]; [| |cbn; lia];
    rewrite Pos2Z.inj_succ; replace (Z.succ (Zpos (digits2_pos p)) - 1) with (Z.succ (Zpos (digits2_pos p) - 1)) by lia;
    rewrite !Z.pow_succ_r by lia; lia.
Qed.

(** A mantissa of exactly 53 bits needs no rounding. *)
Lemma binary_round_aux_exact s m e :
  Zpos (digits2_pos m) = 53 -> -1074 <= e <= 971 ->
  binary_round_aux 53 1024 s (Zpos m) e loc_Exact = S754_finite s m e.
Proof.
  intros Hm He. unfold binary_round_aux.
  assert (shr_fexp 53 1024 (Zpos m) e loc_Exact = (Build_shr_record (Zpos m) false false, e)) as Hs.
  { unfold shr_fexp, Zdigits2, fexp, emin. rewrite Hm.
    replace (Z.max (53 + e - 53) (3 - 1024 - 53) - e) with 0 by lia. done. }
  rewrite Hs. cbn [shr_m loc_of_shr_record round_nearest_even]. rewrite Hs. cbn [shr_m].
  destruct (Z.leb_spec e (1024 - 53)); [done|lia].
Qed.

Lemma binary_round_int s p :
  Zpos p < 2 ^ 53 ->
  exists k, 0 <= k <= 52 /\
    binary_round 53 1024 s p 0 = S754_finite s (Z.to_pos (Zpos p * 2 ^ k)) (- k).
Proof.
  intros Hp. pose proof (digits2_bounds p) as [Hlo _].
  assert (Zpos (digits2_pos p) <= 53) as Hd.
  { apply Z.le_ngt. intros Hd. pose proof (Z.pow_le_mono_r 2 53 (Zpos (digits2_pos p) - 1)). lia. }
  exists (53 - Zpos (digits2_pos p)). split; [lia|].
  unfold binary_round, shl_align, fexp, emin. rewrite Z.add_0_r, Z.sub_0_r, Z.max_l by lia.
  destruct (Zpos (digits2_pos p) - 53) as [|d|d] eqn:E; [|lia|].
  - replace (53 - Zpos (digits2_pos p)) with 0 by lia. rewrite Z.pow_0_r, Z.mul_1_r.
    apply binary_round_aux_exact; simpl; lia.
  - rewrite binary_round_aux_exact by (rewrite ?digits2_iter_xO; lia).
    replace (53 - Zpos (digits2_pos p)) with (Zpos d) by lia. rewrite <- iter_xO. done.
Qed.

Lemma round_even_exact p k : 0 <= k -> round_even (Z.to_pos (Zpos p * 2 ^ k)) (- k) = Zpos p.
Proof.
  intros Hk. unfold round_even. assert (0 < 2 ^ k) by lia.
  rewrite !Z2Pos.id by lia. destruct (Z.leb_spec 0 (- k)).
  { replace k with 0 by lia. simpl. lia. }
  rewrite !Z.opp_involutive, Z.mod_mul, Z.div_mul by lia.
  assert (0 < 2 ^ (k - 1)) by (apply Z.pow_pos_nonneg; lia).
  destruct (Z.ltb_spec (2 ^ (k - 1)) 0), (Z.eqb_spec 0 (2 ^ (k - 1))); simpl; lia.
Qed.

(** The setters store an int as a float64 and [initBackOff] prints and parses it back. *)
Lemma sprint_atoi_int n : - 2 ^ 53 < n < 2 ^ 53 -> sprint_atoi (float_of_int n) = n.
Proof.
  intros Hn. unfold float_of_int, binary_normalize. destruct n as [|p|p]; [done| |];
    [destruct (binary_round_int false p) as (k & Hk & ->)|destruct (binary_round_int true p) as (k & Hk & ->)];
    try lia; simpl; rewrite round_even_exact by lia; unfold MaxInt64; lia.
Qed.

Section policy_facts.
Context `{!RpcTypes}.

(** * Back-off *)

Lemma cfg_singleton k v : cfg (Some {[k := v]}) k = v.
Proof. unfold cfg. simpl. by rewrite lookup_singleton_eq. Qed.

(** The policies the setters build give the back-off they name. *)
Lemma initBackOff_fixed n p q :
  - 2 ^ 53 < n < 2 ^ 53 -> f_WithFixedBackOff n p = Some q ->
  initBackOff (f_BackOffPolicy q) = inl (fixedBackOff n).
Proof.
  intros Hn. unfold f_WithFixedBackOff. destruct (checkFixedBackOff n) eqn:E; [|done].
  intros [= <-]. cbn [initBackOff f_BackOffPolicy set_f_backoff BackOffType CfgItems].
  rewrite cfg_singleton, sprint_atoi_int, E by done. done.
Qed.

Lemma initBackOff_random a b p q :
  - 2 ^ 53 < a < 2 ^ 53 -> - 2 ^ 53 < b < 2 ^ 53 -> f_WithRandomBackOff a b p = Some q ->
  initBackOff (f_BackOffPolicy q) = inl (randomBackOff a b).
Proof.
  intros Ha Hb. unfold f_WithRandomBackOff. destruct (checkRandomBackOff a b) eqn:E; [|done].
  intros [= <-]. cbn [initBackOff f_BackOffPolicy set_f_backoff BackOffType CfgItems].
  assert (cfg (Some (<[MaxMSBackOffCfgKey := float_of_int b]> {[MinMSBackOffCfgKey := float_of_int a]}))
            MinMSBackOffCfgKey = float_of_int a) as ->.
  { unfold cfg. simpl. rewrite lookup_insert_ne by done. by rewrite lookup_singleton_eq. }
  assert (cfg (Some (<[MaxMSBackOffCfgKey := float_of_int b]> {[MinMSBackOffCfgKey := float_of_int a]}))
            MaxMSBackOffCfgKey = float_of_int b) as ->.
  { unfold cfg. simpl. by rewrite lookup_insert_eq. }
  rewrite !sprint_atoi_int, E by done. done.
Qed.

(** The sleeps of a random back-off stay in the range the policy was built with: a
    policy made by [WithRandomBackOff(a, b)] is accepted, its back-off never panics on the
    bound given to [Intn], and each wait is at least [a] and below [b] milliseconds,
    whatever [Intn] draws within its contract. *)
Theorem random_backoff_bounds a b p q intn :
  - 2 ^ 53 < a < 2 ^ 53 -> - 2 ^ 53 < b < 2 ^ 53 ->
  f_WithRandomBackOff a b p = Some q ->
  (forall n, 0 < n -> 0 <= intn n < n) ->
  exists bo ms, initBackOff (f_BackOffPolicy q) = inl bo /\ Wait bo intn = Some ms /\ a <= ms < b.
Proof.
  intros Ha Hb Hq Hi. exists (randomBackOff a b).
  assert (a < b) as Hab.
  { unfold f_WithRandomBackOff, checkRandomBackOff in Hq. destruct (Z.leb_spec b a); [done|lia]. }
  rewrite (initBackOff_random a b p q) by done. unfold Wait.
  rewrite (i64_id (b - a)) by lia. destruct (Z.leb_spec (b - a) 0); [lia|].
  specialize (Hi (b - a) ltac:(lia)). rewrite i64_id by lia.
  eexists. split_and!; [done|done|lia|lia].
Qed.

(** * Copies and equality *)

Lemma copyCfgItems_id p : copyCfgItems p = CfgItems p.
Proof.
  unfold copyCfgItems. destruct (CfgItems p) as [m|]; [f_equal|done].
  assert (forall l : list (string * float64),
    foldl (fun acc kv => <[kv.1 := kv.2]> acc) ∅ l = (list_to_map (reverse l) : gmap string float64)) as ->.
  { induction l as [|kv l IH] using rev_ind; [done|]. rewrite foldl_snoc, reverse_snoc, IH. done. }
  rewrite <- (list_to_map_to_list m) at 2. apply list_to_map_proper; [|apply reverse_Permutation].
  rewrite fmap_reverse, reverse_Permutation. apply NoDup_fst_map_to_list.
Qed.

Lemma Policy_DeepCopy_id p : Policy_DeepCopy (Some p) = Some p.
Proof.
  assert (forall b, BackOff_DeepCopy b = b) as Hb.
  { intros [b|]; [|done]. unfold BackOff_DeepCopy. simpl. rewrite copyCfgItems_id. by destruct b. }
  assert (forall f, Failure_DeepCopy f = f) as Hf.
  { intros [f|]; [|done]. unfold Failure_DeepCopy. simpl. rewrite Hb. by destruct f. }
  assert (forall b, Backup_DeepCopy b = b) as Hk by by intros [[]|].
  assert (forall m, Mixed_DeepCopy m = m) as Hm.
  { intros [[d f]|]; [|done]. unfold Mixed_DeepCopy. cbn [mbind option_bind m_FailurePolicy m_RetryDelayMS].
    rewrite Hf. done. }
  destruct p. unfold Policy_DeepCopy. simpl. rewrite Hf, Hk, Hm. done.
Qed.

(** [Equals] is not symmetric: it visits the keys of its receiver only, and a key the
    other policy lacks reads as 0. *)
Lemma BackOff_Equals_not_symmetric :
  let p := mkBackOff FixedBackOffType (Some {[MinMSBackOffCfgKey := f_zero]}) in
  let q := mkBackOff FixedBackOffType (Some {[FixMSBackOffCfgKey := float_of_int 5]}) in
  BackOff_Equals (Some p) (Some q) = true /\ BackOff_Equals (Some q) (Some p) = false.
Proof. vm_compute. done. Qed.
End policy_facts.

(** Opaque types for closed examples. *)
Definition unit_types : RpcTypes :=
  {| Ctx := unit; RPCInfo := unit; Response := unit; ErrT := string |}.

Lemma random_backoff_bounds_witness :
  exists bo ms,
    initBackOff (f_BackOffPolicy (set_f_backoff (Some (mkBackOff RandomBackOffType
      (Some (<[MaxMSBackOffCfgKey := float_of_int 50]> {[MinMSBackOffCfgKey := float_of_int 20]}))))
      (@NewFailurePolicy unit_types))) = inl bo /\
    Wait bo (fun n => n / 2) = Some ms /\ 20 <= ms < 50.
Proof.
  apply (@random_backoff_bounds unit_types 20 50 (@NewFailurePolicy unit_types)).
  - lia.
  - lia.
  - reflexivity.
  - intros n Hn. split; [apply Z.div_pos; lia|apply Z.div_lt_upper_bound; lia].
Defined.
