(* ===== verification/Retryer.v ===== *)
(** The retryers' state and decisions (src/pkg/retry/failure_retryer.go, backup_retryer.go,
    mixed_retryer.go, util.go, percentage_limit.go): updating the policy, the stop
    conditions, whether a result is retried, and the loop of the failure retryer. *)

From Stdlib Require Import Floats.SpecFloat.
From S2P Require Import Prelude Kerrors GoText RetryPolicy.

(** What the retryers use of the rest of the program. [World] holds the clock, the random
    source and the circuit breaker's statistics. *)
Class RetryEnv `{!RpcTypes} := {
  Request : Type;
  World : Type;
  Now : World -> Z * World;                       (* time.Now, in nanoseconds *)
  Sleep : Z -> World -> World;                    (* time.Sleep, in milliseconds *)
  Intn : Z -> World -> Z * World;                 (* fastrand.Intn *)
  Metric : string -> World -> float64 * Z;        (* a metricer's ErrorRate and Samples *)
  PanelSucceed : string -> World -> World;
  PanelFail : string -> World -> World;
  PanelTimeout : string -> World -> World;
  GetPersistentValue : Ctx -> string -> option string; (* metainfo *)
  GetInstance : RPCInfo -> option string;         (* the instance called, by its address *)
  SetInstance : string -> RPCInfo -> RPCInfo;
  ddlStopFunc : option (Ctx -> StopPolicy -> World -> bool * string);
  TimeoutCheckFunc : option (error ErrT -> bool);
  isRemote : RPCInfo -> bool;                     (* the callee is a remote info *)
  SetTag : string -> string -> RPCInfo -> RPCInfo;
  ctxCanceled : Ctx -> bool;
  ctxTo : Ctx -> string * string * option string; (* service, method, address of the callee *)
  errorsNew : string -> ErrT;
  panicInfo : ErrT;                               (* the text of a recovered panic *)
  isResult : Response -> bool;                    (* implements utils.KitexResult *)
  SetSuccess : Response -> Response -> option Response; (* dst.SetSuccess(src.GetResult()) *)
  ReflectSet : Response -> Response -> option Response; (* dst.Elem().Set(src.Elem()) *)
  fmt_rate : float64 -> string;                   (* verb %0.3f *)
  fmt_duration : Z -> string                      (* time.Duration.String *)
}.

Definition itoa (n : Z) : string := String.string_of_list_byte (FormatInt n).

Section retryer.
Context `{!RpcTypes, !RetryEnv}.

Abbreviation err_ := (error ErrT).

(** * The circuit breaker's part *)

Inductive ErrorType := TypeIgnorable | TypeTimeout | TypeFailure | TypeSuccess.

Record Control := mkControl {
  GetKey : Ctx -> Request -> string * bool;
  GetErrorType : Ctx -> Request -> option err_ -> ErrorType }.

(** [cbPanel] says that the panel is not nil. *)
Record cbContainer := mkCbC {
  cbCtl : option Control; cbPanel : bool; cbStat : bool; enablePercentageLimit : bool }.

Definition cb_IsValid (c : cbContainer) : bool := bool_decide (is_Some (cbCtl c)) && cbPanel c.

Definition RecordStat (ctx : Ctx) (req : Request) (err : option err_) (cbKey : string) (ctl : Control)
    (w : World) : World :=
  match GetErrorType ctl ctx req err with
  | TypeTimeout => PanelTimeout cbKey w
  | TypeFailure => PanelFail cbKey w
  | TypeSuccess => PanelSucceed cbKey w
  | TypeIgnorable => w
  end.

Definition recordRetryStat (cbKey : string) (callTimes : Z) (w : World) : World :=
  if 1 <? callTimes then PanelFail cbKey w else PanelSucceed cbKey w.

(** * Stop conditions: whether to stop, and the reason *)

Definition TransitKey : string := "RetryReq".

Definition IsRemoteRetryRequest (ctx : Ctx) : bool :=
  bool_decide (is_Some (GetPersistentValue ctx TransitKey)).

Definition cbMinSample : Z := 10.

Definition circuitBreakerStop (sp : StopPolicy) (c : cbContainer) (m : float64 * Z) : bool * string :=
  if negb (cb_IsValid c) then (false, EmptyString)
  else
    let '(errRate, sample) := m in
    if (sample <? cbMinSample) || SFltb errRate (ErrorRate sp) then (false, EmptyString)
    else (true, ("retry circuit break, errRate=" +:+ fmt_rate errRate +:+ ", sample=" +:+ itoa sample)%string).

Definition ddlStop (ctx : Ctx) (sp : StopPolicy) (w : World) : bool * string :=
  if negb (DDLStop sp) then (false, EmptyString)
  else match ddlStopFunc with
       | None => (false, EmptyString)
       | Some f => f ctx sp w
       end.

Definition chainStop (ctx : Ctx) (sp : StopPolicy) : bool * string :=
  if DisableChainStop sp then (false, EmptyString)
  else if negb (IsRemoteRetryRequest ctx) then (false, EmptyString)
  else (true, "chain stop retry"%string).

(** * Results *)

Definition isRetryErr (ctx : Ctx) (err : option err_) (ri : option RPCInfo) (fp : FailurePolicy) : bool :=
  match err with
  | None => false
  | Some e =>
      if isRetryForTimeout fp && IsTimeoutError TimeoutCheckFunc e then true
      else isErrorRetry ctx e ri fp
  end.

Definition isRetryResult (ctx : Ctx) (ri : option RPCInfo) (resp : option Response) (err : option err_)
    (fp : FailurePolicy) : bool :=
  match err with
  | None => isRespRetry ctx resp ri fp
  | Some _ => isRetryErr ctx err ri fp
  end.

Definition appendErrMsg (err : option err_) (msg : string) : option err_ :=
  (fun e => WithExtraMsg e msg) <$> err.

Definition makeRetryErr (ctx : Ctx) (msg : string) (callTimes : Z) : err_ :=
  let '(service, method, target) := ctxTo ctx in
  let errMsg := ("retry[" +:+ itoa (callTimes - 1) +:+ "] failed, " +:+ msg
                 +:+ ", toService=" +:+ service +:+ ", method=" +:+ method)%string in
  let errMsg := match target with Some a => (errMsg +:+ ", remote=" +:+ a)%string | None => errMsg end in
  let errMsg := if ctxCanceled ctx then (errMsg +:+ ", context canceled by business.")%string else errMsg in
  WithCause ErrRetry (Some (Foreign (errorsNew errMsg))).

Definition panicToErr : err_ := Foreign panicInfo.

Definition recordRetryInfo (ri : RPCInfo) (callTimes : Z) (lastCosts : string) : RPCInfo :=
  if 1 <? callTimes then
    if isRemote ri then SetTag "last_cost" lastCosts (SetTag "retry" (itoa (callTimes - 1)) ri) else ri
  else ri.

(** The retry's RPC info: the instance of the previous call, or a tag that names it. *)
Definition handleRetryInstance (retrySameNode : bool) (prevRI retryRI : RPCInfo) : RPCInfo :=
  match GetInstance prevRI with
  | None => retryRI
  | Some inst =>
      if retrySameNode then SetInstance inst retryRI
      else if isRemote retryRI then SetTag "prev_inst" inst retryRI else retryRI
  end.

(** What [newRespFunc] returns for a method. *)
Definition getNewRespFunc (oneWay : bool) (newResult : Response) : option Response :=
  if oneWay then None else Some newResult.

(** The caller's response after the copy; [None] is a panic. *)
Definition shallowCopyResults (src dst : option Response) : option (option Response) :=
  match src, dst with
  | Some s, Some d => Some <$> (if isResult s && isResult d then SetSuccess s d else ReflectSet s d)
  | _, _ => Some dst
  end.

(** * The three retryers *)

(** Why [UpdatePolicy] refuses a policy or complains about it; kept as [errMsg]. *)
Inductive updErr := TypeNotMatch (t : Z) | InvalidDelay | InvalidTimes (n : Z) | BackOffFailed.

Record failureRetryer := mkFR {
  fr_enable : bool; fr_backOff : option BackOff; fr_specified : option ShouldResultRetry;
  fr_cb : cbContainer; fr_policy : option FailurePolicy; fr_errMsg : option updErr }.

Record backupRetryer := mkBR {
  br_enable : bool; br_retryDelay : Z; br_policy : option BackupPolicy;
  br_cb : cbContainer; br_errMsg : option updErr }.

Record mixedRetryer := mkMR {
  mr_enable : bool; mr_backOff : option BackOff; mr_specified : option ShouldResultRetry;
  mr_cb : cbContainer; mr_policy : option MixedPolicy; mr_retryDelay : Z; mr_errMsg : option updErr }.

(** The specified rule afterwards, and the policy with the rule in force. *)
Definition setSpecifiedResultRetryIfNeeded (rr : option ShouldResultRetry) (spec : option ShouldResultRetry)
    (fp : option FailurePolicy) : option ShouldResultRetry * option FailurePolicy :=
  let spec := match rr with Some _ => rr | None => spec end in
  (spec,
   (fun fp => convertResultRetry (match spec with Some _ => set_f_rr spec fp | None => fp end)) <$> fp).

Definition ms (n : Z) : Z := n * 1000000.

Definition fr_fail (e : updErr) (r : failureRetryer) : option updErr * failureRetryer :=
  (Some e, mkFR (fr_enable r) (fr_backOff r) (fr_specified r) (fr_cb r) (fr_policy r) (Some e)).

Definition fr_UpdatePolicy (rp : Policy) (r : failureRetryer) : option updErr * failureRetryer :=
  if negb (Enable rp) then
    (None, mkFR false (fr_backOff r) (fr_specified r) (fr_cb r) (fr_policy r) (fr_errMsg r))
  else
    match p_FailurePolicy rp with
    | None => fr_fail (TypeNotMatch (PType rp)) r
    | Some fp =>
        if negb (PType rp =? FailureType) then fr_fail (TypeNotMatch (PType rp)) r
        else match checkStopPolicy (f_StopPolicy fp) maxFailureRetryTimes with
             | None => fr_fail (InvalidTimes (MaxRetryTimes (f_StopPolicy fp))) r
             | Some sp =>
                 let fp := set_f_stop sp fp in
                 let '(spec, pol) := setSpecifiedResultRetryIfNeeded (fr_specified r) (fr_specified r) (Some fp) in
                 match initBackOff (f_BackOffPolicy fp) with
                 | inr _ => (None, mkFR true (fr_backOff r) spec (fr_cb r) pol (Some BackOffFailed))
                 | inl bo => (None, mkFR true (Some bo) spec (fr_cb r) pol (fr_errMsg r))
                 end
             end
    end.

Definition br_fail (e : updErr) (r : backupRetryer) : option updErr * backupRetryer :=
  (Some e, mkBR (br_enable r) (br_retryDelay r) (br_policy r) (br_cb r) (Some e)).

Definition br_UpdatePolicy (rp : Policy) (r : backupRetryer) : option updErr * backupRetryer :=
  if negb (Enable rp) then
    (None, mkBR false (br_retryDelay r) (br_policy r) (br_cb r) (br_errMsg r))
  else
    match p_BackupPolicy rp with
    | None => br_fail (TypeNotMatch (PType rp)) r
    | Some bp =>
        if negb (PType rp =? BackupType) then br_fail (TypeNotMatch (PType rp)) r
        else if b_RetryDelayMS bp =? 0 then br_fail InvalidDelay r
        else match checkStopPolicy (b_StopPolicy bp) maxBackupRetryTimes with
             | None => br_fail (InvalidTimes (MaxRetryTimes (b_StopPolicy bp))) r
             | Some sp =>
                 (None, mkBR true (ms (b_RetryDelayMS bp))
                          (Some (mkBackup (b_RetryDelayMS bp) sp (b_RetrySameNode bp)))
                          (br_cb r) (br_errMsg r))
             end
    end.

Definition mr_fail (e : updErr) (r : mixedRetryer) : option updErr * mixedRetryer :=
  (Some e, mkMR (mr_enable r) (mr_backOff r) (mr_specified r) (mr_cb r) (mr_policy r) (mr_retryDelay r) (Some e)).

Definition mr_UpdatePolicy (rp : Policy) (r : mixedRetryer) : option updErr * mixedRetryer :=
  if negb (Enable rp) then
    (None, mkMR false (mr_backOff r) (mr_specified r) (mr_cb r) (mr_policy r) (mr_retryDelay r) (mr_errMsg r))
  else
    match p_MixedPolicy rp with
    | None => mr_fail (TypeNotMatch (PType rp)) r
    | Some mp =>
        if negb (PType rp =? MixedType) then mr_fail (TypeNotMatch (PType rp)) r
        else if m_RetryDelayMS mp =? 0 then mr_fail InvalidDelay r
        else match checkStopPolicy (f_StopPolicy (m_FailurePolicy mp)) maxMixRetryTimes with
             | None => mr_fail (InvalidTimes (MaxRetryTimes (f_StopPolicy (m_FailurePolicy mp)))) r
             | Some sp =>
                 let fp := set_f_stop sp (m_FailurePolicy mp) in
                 let '(spec, pol) := setSpecifiedResultRetryIfNeeded (mr_specified r) (mr_specified r) (Some fp) in
                 let pol := mkMixed (m_RetryDelayMS mp) <$> pol in
                 match initBackOff (f_BackOffPolicy fp) with
                 | inr _ => (None, mkMR true (mr_backOff r) spec (mr_cb r) pol (ms (m_RetryDelayMS mp)) (Some BackOffFailed))
                 | inl bo => (None, mkMR true (Some bo) spec (mr_cb r) pol (ms (m_RetryDelayMS mp)) (mr_errMsg r))
                 end
             end
    end.

Definition newFailureRetryer (p : Policy) (rr : option ShouldResultRetry) (c : cbContainer)
    : updErr + failureRetryer :=
  match fr_UpdatePolicy p (mkFR false None rr c None None) with
  | (Some e, _) => inl e
  | (None, r) => inr r
  end.

Definition newBackupRetryer (p : Policy) (c : cbContainer) : updErr + backupRetryer :=
  match br_UpdatePolicy p (mkBR false 0 None c None) with
  | (Some e, _) => inl e
  | (None, r) => inr r
  end.

Definition newMixedRetryer (p : Policy) (rr : option ShouldResultRetry) (c : cbContainer)
    : updErr + mixedRetryer :=
  match mr_UpdatePolicy p (mkMR false None rr c None 0 None) with
  | (Some e, _) => inl e
  | (None, r) => inr r
  end.

(** ** Whether a call may be retried at all; [None] is a nil dereference *)

Definition fr_AllowRetry (ctx : Ctx) (w : World) (r : failureRetryer) : option (string * bool) :=
  if negb (fr_enable r) then Some (EmptyString, false)
  else
    p ← fr_policy r;
    let sp := f_StopPolicy p in
    if MaxRetryTimes sp =? 0 then Some (EmptyString, false)
    else
      let '(stop, msg) := chainStop ctx sp in
      if stop : bool then Some (msg, false)
      else
        let '(stop, msg) := ddlStop ctx sp w in
        if stop : bool then Some (msg, false) else Some (EmptyString, true).

Definition br_AllowRetry (ctx : Ctx) (r : backupRetryer) : option (string * bool) :=
  if negb (br_enable r) then Some (EmptyString, false)
  else
    p ← br_policy r;
    let sp := b_StopPolicy p in
    if MaxRetryTimes sp =? 0 then Some (EmptyString, false)
    else
      let '(stop, msg) := chainStop ctx sp in
      if stop : bool then Some (msg, false) else Some (EmptyString, true).

Definition mr_AllowRetry (ctx : Ctx) (w : World) (r : mixedRetryer) : option (string * bool) :=
  if negb (mr_enable r) then Some (EmptyString, false)
  else
    p ← mr_policy r;
    let sp := f_StopPolicy (m_FailurePolicy p) in
    if MaxRetryTimes sp =? 0 then Some (EmptyString, false)
    else
      let '(stop, msg) := chainStop ctx sp in
      if stop : bool then Some (msg, false)
      else
        let '(stop, msg) := ddlStop ctx sp w in
        if stop : bool then Some (msg, false) else Some (EmptyString, true).

Definition fr_AppendErrMsgIfNeeded (ctx : Ctx) (err : option err_) (ri : option RPCInfo) (msg : string)
    (r : failureRetryer) : option (option err_) :=
  match err, fr_policy r with
  | None, _ => Some None
  | Some _, None => None
  | Some _, Some p => Some (if isRetryErr ctx err ri p then appendErrMsg err msg else err)
  end.

Definition br_AppendErrMsgIfNeeded (err : option err_) (msg : string) : option err_ :=
  match err with
  | Some e => if IsTimeoutError TimeoutCheckFunc e then appendErrMsg err msg else err
  | None => None
  end.

Definition mr_AppendErrMsgIfNeeded (ctx : Ctx) (err : option err_) (ri : option RPCInfo) (msg : string)
    (r : mixedRetryer) : option (option err_) :=
  p ← mr_policy r;
  Some (if isRetryErr ctx err ri (m_FailurePolicy p) then appendErrMsg err msg else err).

(** [Prepare]; [None] is a nil dereference. *)
Definition fr_Prepare (prevRI retryRI : RPCInfo) (r : failureRetryer) : option RPCInfo :=
  p ← fr_policy r; Some (handleRetryInstance (f_RetrySameNode p) prevRI retryRI).
Definition br_Prepare (prevRI retryRI : RPCInfo) (r : backupRetryer) : option RPCInfo :=
  p ← br_policy r; Some (handleRetryInstance (b_RetrySameNode p) prevRI retryRI).
Definition mr_Prepare (prevRI retryRI : RPCInfo) (r : mixedRetryer) : option RPCInfo :=
  p ← mr_policy r; Some (handleRetryInstance (f_RetrySameNode (m_FailurePolicy p)) prevRI retryRI).

(** ** Whether the next attempt may start

    [failureCommon.shouldRetry]: [None] is the panic of a nil back-off (or of its draw);
    otherwise the reason, the verdict and the milliseconds slept. *)
Definition shouldRetry (ctx : Ctx) (cbKey : string) (fp : FailurePolicy) (c : cbContainer)
    (bo : option BackOff) (w : World) : option (string * bool * World) :=
  let '(stop, msg) := circuitBreakerStop (f_StopPolicy fp) c (Metric cbKey w) in
  if stop : bool then Some (msg, false, w)
  else
    let '(stop, msg) := ddlStop ctx (f_StopPolicy fp) w in
    if stop : bool then Some (msg, false, w)
    else
      bo ← bo;
      match bo with
      | randomBackOff a b =>
          n ← Wait bo (fun k => fst (Intn k w));
          Some (EmptyString, true, Sleep n (snd (Intn (i64 (b - a)) w)))
      | noneBackOff => Some (EmptyString, true, w)
      | fixedBackOff n => Some (EmptyString, true, Sleep n w)
      end.

Definition fr_ShouldRetry (ctx : Ctx) (cbKey : string) (r : failureRetryer) (w : World)
    : option (string * bool * World) :=
  if negb (fr_enable r) then Some (EmptyString, false, w)
  else p ← fr_policy r; shouldRetry ctx cbKey p (fr_cb r) (fr_backOff r) w.

Definition br_ShouldRetry (cbKey : string) (r : backupRetryer) (w : World) : option (string * bool * World) :=
  if negb (br_enable r) then Some (EmptyString, false, w)
  else
    p ← br_policy r;
    let '(stop, msg) := circuitBreakerStop (b_StopPolicy p) (br_cb r) (Metric cbKey w) in
    if stop : bool then Some (msg, false, w) else Some (EmptyString, true, w).

Definition mr_ShouldRetry (ctx : Ctx) (cbKey : string) (r : mixedRetryer) (w : World)
    : option (string * bool * World) :=
  if negb (mr_enable r) then Some (EmptyString, false, w)
  else p ← mr_policy r; shouldRetry ctx cbKey (m_FailurePolicy p) (mr_cb r) (mr_backOff r) w.

(** * The loop of the failure retryer

    The state of a run: the world, the retryer (another goroutine may update its policy
    while a call is in flight) and the calls made, each with the world and the retryer at
    its return. *)

Record attempt := mkAtt {
  a_ri : RPCInfo; a_resp : option Response; a_err : option err_; a_world : World; a_retryer : failureRetryer }.

Record St := mkSt { world : World; fr : failureRetryer; calls : list attempt }.

Abbreviation RM := (M St Empty_set).

Definition in_world {A} (f : World -> A * World) : RM A := fun s =>
  let '(a, w) := f (world s) in (Ok a, mkSt w (fr s) (calls s)).

Definition upd_world (f : World -> World) : RM unit :=
  modify (fun s => mkSt (f (world s)) (fr s) (calls s)).

(** A call and its effects on the shared state: [None] is a panic of the call. *)
Definition RPCCallFunc : Type :=
  Ctx -> Request -> option Response -> World -> failureRetryer ->
  option (RPCInfo * option Response * option err_) * (World * failureRetryer).

Definition rpc_call (rpcCall : RPCCallFunc) (ctx : Ctx) (req : Request) (resp : option Response)
    : RM (RPCInfo * option Response * option err_) := fun s =>
  match rpcCall ctx req resp (world s) (fr s) with
  | (None, (w, r)) => (Panic, mkSt w r (calls s))
  | (Some (ri, rs, e), (w, r)) => (Ok (ri, rs, e), mkSt w r (calls s ++ [mkAtt ri rs e w r]))
  end.

Definition ShouldRetry (ctx : Ctx) (cbKey : string) : RM (string * bool) := fun s =>
  match fr_ShouldRetry ctx cbKey (fr s) (world s) with
  | None => (Panic, s)
  | Some (msg, ok, w) => (Ok (msg, ok), mkSt w (fr s) (calls s))
  end.

Definition isExceedMaxDuration (ctx : Ctx) (start maxDuration callTimes : Z) : RM (option err_) :=
  if 0 <? maxDuration then
    t ← in_world Now;
    if maxDuration <? t - start
    then mret (Some (makeRetryErr ctx ("exceed max duration[" +:+ fmt_duration maxDuration +:+ "]")%string callTimes))
    else mret None
  else mret None.

(** The variables of the loop. *)
Record loopVars := mkLV {
  callTimes : Z; callCosts : string; cRI : option RPCInfo; lerr : option err_; curResp : option Response }.

Definition set_lerr (e : option err_) (v : loopVars) : loopVars :=
  mkLV (callTimes v) (callCosts v) (cRI v) e (curResp v).

(** One call of the loop, from [callTimes++] to the recorded statistics; the result is
    whether to go on. *)
Definition do_call (rpcCall : RPCCallFunc) (ctx : Ctx) (req : Request) (newResp : option Response)
    (c : cbContainer) (ctl : Control) (cbKey : string) (callStart : Z) (costs : string) (v : loopVars)
    : RM (loopVars * bool) :=
  let ct := i32 (callTimes v + 1) in
  (if enablePercentageLimit c then upd_world (recordRetryStat cbKey ct) else mret tt);;
  '(ri, rs, e) ← rpc_call rpcCall ctx req newResp;
  t ← in_world Now;
  let costs := (costs +:+ itoa (Z.quot (t - callStart) 1000))%string in
  (if negb (enablePercentageLimit c) && cbStat c then upd_world (RecordStat ctx req e cbKey ctl) else mret tt);;
  pol ← gets (fun s => fr_policy (fr s));
  match pol with
  | None => panic
  | Some fp => mret (mkLV ct costs (Some ri) e rs, isRetryResult ctx (Some ri) rs e fp)
  end.

(** [n] iterations are left of [for i := 0; i <= retryTimes; i++]. *)
Fixpoint do_loop (rpcCall : RPCCallFunc) (ctx : Ctx) (req : Request) (newResp : option Response)
    (c : cbContainer) (ctl : Control) (cbKey : string) (startTime maxDuration : Z)
    (n : nat) (i : Z) (v : loopVars) : RM loopVars :=
  match n with
  | O => mret v
  | S n =>
      if i =? 0 then
        '(v, again) ← do_call rpcCall ctx req newResp c ctl cbKey startTime (callCosts v) v;
        if again : bool then do_loop rpcCall ctx req newResp c ctl cbKey startTime maxDuration n (i + 1) v else mret v
      else
        exceed ← isExceedMaxDuration ctx startTime maxDuration (callTimes v);
        match exceed with
        | Some e => mret (set_lerr (Some e) v)
        | None =>
            '(msg, ok) ← ShouldRetry ctx cbKey;
            if negb ok then
              mret (if bool_decide (msg = EmptyString) then v
                    else set_lerr (appendErrMsg (lerr v)
                           ("retried " +:+ itoa (i - 1) +:+ ", " +:+ msg)%string) v)
            else
              callStart ← in_world Now;
              '(v, again) ← do_call rpcCall ctx req newResp c ctl cbKey callStart (callCosts v +:+ ",")%string v;
              if again : bool then do_loop rpcCall ctx req newResp c ctl cbKey startTime maxDuration n (i + 1) v else mret v
        end
  end.

(** The results of [Do] and the caller's response object. *)
Record doResult := mkDo {
  lastRI : option RPCInfo; recycleRI : bool; do_err : option err_; dst : option Response }.

(** The deferred [recover]. *)
Definition recover (resp : option Response) (m : RM doResult) : RM doResult := fun s =>
  match m s with
  | (Panic, s') => (Ok (mkDo None false (Some panicToErr) resp), s')
  | rs => rs
  end.

(** [newResp] is what [newRespFunc] returns: nil for a one-way method. *)
Definition Do (rpcCall : RPCCallFunc) (ctx : Ctx) (req : Request) (newResp resp : option Response)
    : RM doResult :=
  r ← gets fr;
  match fr_policy r, cbCtl (fr_cb r) with
  | Some p, Some ctl =>
      let maxDuration := if 0 <? MaxDurationMS (f_StopPolicy p) then ms (MaxDurationMS (f_StopPolicy p)) else 0 in
      let retryTimes := MaxRetryTimes (f_StopPolicy p) in
      let cbKey := fst (GetKey ctl ctx req) in
      recover resp (
        startTime ← in_world Now;
        v ← do_loop rpcCall ctx req newResp (fr_cb r) ctl cbKey startTime maxDuration
              (Z.to_nat (retryTimes + 1)) 0 (mkLV 0 EmptyString None None None);
        match shallowCopyResults (curResp v) resp with
        | None => panic
        | Some d =>
            match cRI v with
            | None => if 1 <? callTimes v then panic else mret (mkDo None false (lerr v) d)
            | Some ri =>
                let ri := recordRetryInfo ri (callTimes v) (callCosts v) in
                if bool_decide (lerr v = None) && (callTimes v =? 1)
                then mret (mkDo (Some ri) true None d)
                else mret (mkDo (Some ri) false (lerr v) d)
            end
        end)
  | _, _ => panic
  end.
End retryer.
