(* ===== verification/RetryDemo.v ===== *)
(** A concrete environment for the retryers: the clock advances by a microsecond when read,
    the circuit breaker has no samples, and a response has a success and a declared
    exception, as the result types the code generator writes. The second component of
    the world counts the calls the server has seen. *)

From S2P Require Import Prelude Kerrors RetryPolicy Retryer.

#[export] Instance demo_types : RpcTypes :=
  {| Ctx := unit; RPCInfo := list (string * string); Response := option string * option string;
     ErrT := string |}.

#[export] Instance demo_env : RetryEnv := {|
  Request := unit; World := Z * Z;
  Now := fun w => (w.1, (w.1 + 1000, w.2)); Sleep := fun n w => (w.1 + ms n, w.2);
  Intn := fun _ w => (0, w); Metric := fun _ _ => (f_zero, 0);
  PanelSucceed := fun _ w => w; PanelFail := fun _ w => w; PanelTimeout := fun _ w => w;
  GetPersistentValue := fun _ _ => None; GetInstance := fun _ => None; SetInstance := fun _ ri => ri; ddlStopFunc := None; TimeoutCheckFunc := None;
  isRemote := fun _ => true; SetTag := fun k v ri => (k, v) :: ri;
  ctxCanceled := fun _ => false; ctxTo := fun _ => ("svc", "method", None)%string;
  errorsNew := fun s => s; panicInfo := "panic"%string;
  isResult := fun _ => true; SetSuccess := fun src dst => Some (src.1, dst.2);
  ReflectSet := fun src _ => Some src; fmt_rate := fun _ => "0.000"%string; fmt_duration := itoa |}.

Definition demo_control : Control := mkControl (fun _ _ => ("key"%string, true)) (fun _ _ _ => TypeSuccess).
Definition demo_cb : cbContainer := mkCbC (Some demo_control) true true false.

Definition demo_world : World := (0, 0).
Definition demo_ri : RPCInfo := [].
