(* ===== verification/RetryLoop.v ===== *)
(** Correctness of the failure retryer: the invariant its policy updates keep, and what a
    run of its loop does (src/pkg/retry/failure_retryer.go). *)

From Stdlib Require Import Floats.SpecFloat.
From S2P Require Import Prelude Kerrors GoText RetryPolicy Retryer RetryDemo.

Section loop.
Context `{!RpcTypes, !RetryEnv}.
Context (rpcCall : RPCCallFunc) (ctx : Ctx) (req : Request) (newResp : option Response).

(** Whether the result of a call is to be retried, by the policy in force at its return;
    [None] when there is none. *)
Definition judged (a : attempt) : option bool :=
  isRetryResult ctx (Some (a_ri a)) (a_resp a) (a_err a) <$> fr_policy (a_retryer a).

(** * What a run does, call by call

    A run of [Do] from the state [s], with the breaker container, the control, the breaker
    key, the maximal duration and the number of retries it read at its start. *)
Section runs.
Context (s : St) (c : cbContainer) (ctl : Control) (cbKey : string) (maxDuration retryTimes : Z).

Definition startTime : Z := fst (Now (world s)).

(** The world once the end of a call was timed and its outcome recorded. *)
Definition after_call (a : attempt) : World :=
  let w := snd (Now (a_world a)) in
  if negb (enablePercentageLimit c) && cbStat c then RecordStat ctx req (a_err a) cbKey ctl w else w.

(** The test for the total duration after a call, and the world it leaves. *)
Definition overtime (a : attempt) : bool :=
  (0 <? maxDuration) && (maxDuration <? fst (Now (after_call a)) - startTime).
Definition timed (a : attempt) : World :=
  if 0 <? maxDuration then snd (Now (after_call a)) else after_call a.

(** After the calls [made], [a] the last of them, a retry is due: the result asks for it,
    retries and time are left.  It is up to the retryer. *)
Definition retry_due (made : list attempt) (a : attempt) : Prop :=
  judged a = Some true /\ lenZ made <= retryTimes /\ overtime a = false.

Definition verdict (a : attempt) : option (string * bool * World) :=
  fr_ShouldRetry ctx cbKey (a_retryer a) (timed a).

(** Why a run that made the calls [made], [a] the last of them, ends with an error value:
    the result is not to be retried, the retries are used up, the time is over, or the
    retryer refuses the next attempt. *)
Inductive stopped (made : list attempt) (a : attempt) : option (error ErrT) -> Prop :=
  | stop_done : judged a = Some false -> stopped made a (a_err a)
  | stop_exhausted : judged a = Some true -> lenZ made = retryTimes + 1 -> stopped made a (a_err a)
  | stop_duration :
      judged a = Some true -> lenZ made <= retryTimes -> overtime a = true ->
      stopped made a
        (Some (makeRetryErr ctx ("exceed max duration[" +:+ fmt_duration maxDuration +:+ "]")%string (lenZ made)))
  | stop_refused msg w :
      retry_due made a -> verdict a = Some (msg, false, w) ->
      stopped made a
        (if bool_decide (msg = EmptyString) then a_err a
         else appendErrMsg (a_err a) ("retried " +:+ itoa (lenZ made - 1) +:+ ", " +:+ msg)%string).

(** After the calls [made] another call starts, in the given world and with the given
    retryer. *)
Inductive calling : list attempt -> World -> failureRetryer -> Prop :=
  | call_first : calling [] (snd (Now (world s))) (fr s)
  | call_again made a msg w :
      retry_due (made ++ [a]) a -> verdict a = Some (msg, true, w) ->
      calling (made ++ [a]) (snd (Now w)) (a_retryer a).

(** The call after [n] others. *)
Definition call_nth (n : Z) (w : World) (r : failureRetryer) :=
  rpcCall ctx req newResp (if enablePercentageLimit c then recordRetryStat cbKey (n + 1) w else w) r.

Definition returned (a : attempt) : option (RPCInfo * option Response * option (error ErrT)) * (World * failureRetryer) :=
  (Some (a_ri a, a_resp a, a_err a), (a_world a, a_retryer a)).

(** Each call of the run was due, and is what the remote side made of it. *)
Definition is_run (made : list attempt) : Prop :=
  forall pre a post, made = pre ++ a :: post ->
    exists w r, calling pre w r /\ call_nth (lenZ pre) w r = returned a.

(** Where the loop panics after the calls [made]: in the next call, on a retryer without
    policy, or in the back-off. *)
Inductive panicked (made : list attempt) : Prop :=
  | panic_call w r wr : calling made w r -> call_nth (lenZ made) w r = (None, wr) -> panicked made
  | panic_policy pre a : made = pre ++ [a] -> judged a = None -> panicked made
  | panic_backoff pre a : made = pre ++ [a] -> retry_due made a -> verdict a = None -> panicked made.

Lemma is_run_nil : is_run [].
Proof. intros pre a post E. by destruct pre. Qed.

Lemma is_run_snoc made a w r :
  is_run made -> calling made w r -> call_nth (lenZ made) w r = returned a -> is_run (made ++ [a]).
Proof.
  intros Hr Hc Hn pre x post E. destruct post as [|y post _] using rev_ind.
  - apply app_inj_tail in E as [<- <-]. eauto.
  - rewrite app_comm_cons, app_assoc in E. apply app_inj_tail in E as [E _]. by apply (Hr pre x post).
Qed.

Lemma in_world_spec {A} (f : World -> A * World) s1 Q :
  Q (Ok (fst (f (world s1)))) (mkSt (snd (f (world s1))) (fr s1) (calls s1)) -> wp (in_world f) s1 Q.
Proof. intros HQ. unfold wp, in_world. by destruct (f (world s1)). Qed.

Lemma do_call_spec t costs v s1 :
  0 <= callTimes v < 2 ^ 31 - 1 ->
  wp (do_call rpcCall ctx req newResp c ctl cbKey t costs v) s1 (fun r s' =>
    match r with
    | Ok (v', again) => exists a costs', call_nth (callTimes v) (world s1) (fr s1) = returned a /\
        calls s' = calls s1 ++ [a] /\ world s' = after_call a /\ fr s' = a_retryer a /\
        judged a = Some again /\
        v' = mkLV (callTimes v + 1) costs' (Some (a_ri a)) (a_err a) (a_resp a)
    | Err _ => False
    | Panic =>
        (calls s' = calls s1 /\ exists wr, call_nth (callTimes v) (world s1) (fr s1) = (None, wr)) \/
        exists a, call_nth (callTimes v) (world s1) (fr s1) = returned a /\
          calls s' = calls s1 ++ [a] /\ judged a = None
    end).
Proof.
  intros Hct. unfold do_call, call_nth. rewrite i32_id by lia. apply wp_bind.
  set (w1 := if enablePercentageLimit c then recordRetryStat cbKey (callTimes v + 1) (world s1) else world s1).
  apply wp_mono with (Q := fun r s' => r = Ok tt /\ s' = mkSt w1 (fr s1) (calls s1)).
  { subst w1. destruct (enablePercentageLimit c); [apply wp_modify|apply wp_ret]; [done|by destruct s1]. }
  intros r1 s2 [-> ->]. apply wp_bind. unfold wp at 1, rpc_call. cbn [world fr calls].
  destruct (rpcCall ctx req newResp w1 (fr s1)) as [[[[ri rs] e]|] [w r]] eqn:Ec; simpl; [|eauto].
  set (a := mkAtt ri rs e w r).
  apply wp_bind, in_world_spec. cbn [world fr calls]. apply wp_bind.
  apply wp_mono with (Q := fun r2 s' => r2 = Ok tt /\ s' = mkSt (after_call a) r (calls s1 ++ [a])).
  { unfold after_call. destruct (negb _ && _); [apply wp_modify|apply wp_ret]; done. }
  intros r2 s2 [-> ->]. apply wp_bind, wp_gets. cbn [fr].
  destruct (fr_policy r) as [fp|] eqn:Ep; [apply wp_ret|unfold wp, panic; simpl; right].
  - exists a. eexists. split_and!; try done. unfold judged. simpl. by rewrite Ep.
  - exists a. split_and!; try done. unfold judged. simpl. by rewrite Ep.
Qed.

Lemma ShouldRetry_spec s1 :
  wp (ShouldRetry ctx cbKey) s1 (fun r s' =>
    match r with
    | Ok (msg, ok) => calls s' = calls s1 /\ fr s' = fr s1 /\
        fr_ShouldRetry ctx cbKey (fr s1) (world s1) = Some (msg, ok, world s')
    | Err _ => False
    | Panic => calls s' = calls s1 /\ fr_ShouldRetry ctx cbKey (fr s1) (world s1) = None
    end).
Proof.
  unfold wp, ShouldRetry. destruct (fr_ShouldRetry _ _ _ _) as [[[msg ok] w']|]; simpl; eauto.
Qed.

Lemma isExceedMaxDuration_spec a n s1 :
  world s1 = after_call a ->
  wp (isExceedMaxDuration ctx startTime maxDuration n) s1 (fun r s' =>
    calls s' = calls s1 /\ fr s' = fr s1 /\ world s' = timed a /\
    r = Ok (if overtime a
            then Some (makeRetryErr ctx ("exceed max duration[" +:+ fmt_duration maxDuration +:+ "]")%string n)
            else None)).
Proof.
  intros Hw. unfold isExceedMaxDuration, overtime, timed.
  destruct (0 <? maxDuration); simpl; [|by apply wp_ret].
  apply wp_bind, in_world_spec. rewrite Hw. by case_match; apply wp_ret.
Qed.

(** What the loop has to show for itself, from the calls [calls s] made before it. *)
Definition run_post (r : outcome Empty_set loopVars) (s' : St) : Prop :=
  match r with
  | Ok v => exists made a, calls s' = calls s ++ made ++ [a] /\ lenZ (made ++ [a]) <= retryTimes + 1 /\
      is_run (made ++ [a]) /\ callTimes v = lenZ (made ++ [a]) /\
      cRI v = Some (a_ri a) /\ curResp v = a_resp a /\ stopped (made ++ [a]) a (lerr v)
  | Err _ => False
  | Panic => exists made, calls s' = calls s ++ made /\ lenZ made <= retryTimes + 1 /\
      is_run made /\ panicked made
  end.

(** The variables after the call [a], the [k]-th of the run. *)
Definition vars_after (a : attempt) (k : Z) (v : loopVars) : Prop :=
  callTimes v = k /\ cRI v = Some (a_ri a) /\ lerr v = a_err a /\ curResp v = a_resp a.

Section steps.
Context (HR : 0 <= retryTimes < 2 ^ 31 - 1).

(** What the loop shows when [n] iterations are left after the calls [made] and [a]. *)
Definition loop_ok (n : nat) : Prop := forall made a v s1,
  calls s1 = calls s ++ made ++ [a] -> is_run (made ++ [a]) -> judged a = Some true ->
  world s1 = after_call a -> fr s1 = a_retryer a ->
  lenZ (made ++ [a]) + Z.of_nat n = retryTimes + 1 -> vars_after a (lenZ (made ++ [a])) v ->
  wp (do_loop rpcCall ctx req newResp c ctl cbKey startTime maxDuration n (lenZ (made ++ [a])) v) s1 run_post.

(** A call followed by the rest of the loop. *)
Lemma call_then_loop n made t costs v s1 :
  loop_ok n -> calls s1 = calls s ++ made -> is_run made -> calling made (world s1) (fr s1) ->
  lenZ made + Z.of_nat (S n) = retryTimes + 1 -> callTimes v = lenZ made ->
  wp ('(v, again) ← do_call rpcCall ctx req newResp c ctl cbKey t costs v;
      if again : bool
      then do_loop rpcCall ctx req newResp c ctl cbKey startTime maxDuration n (lenZ made + 1) v
      else mret v) s1 run_post.
Proof.
  intros IH Hc Hrun Hcall Hn Hct.
  assert (forall a : attempt, lenZ (made ++ [a]) = lenZ made + 1) as Hlen.
  { intros a. unfold lenZ. rewrite length_app. simpl. lia. }
  apply wp_bind. eapply wp_mono; [apply do_call_spec; unfold lenZ in *; lia|]. rewrite Hct.
  intros [[v' again]|[]|] s'; simpl.
  - intros (a & costs' & Hret & Hs' & Hw & Hf & Hj & ->). rewrite Hc, <- app_assoc in Hs'.
    pose proof (is_run_snoc _ _ _ _ Hrun Hcall Hret) as Hrun'. destruct again.
    + rewrite <- (Hlen a). apply IH; try done. rewrite Hlen. lia.
    + apply wp_ret. exists made, a. rewrite Hlen.
      split_and!; [done|lia|done|done|done|done|by apply stop_done].
  - intros [[Hs' [wr Hret]]|(a & Hret & Hs' & Hj)]; [exists made|exists (made ++ [a])]; rewrite Hs', Hc, ?app_assoc.
    + split_and!; [done|lia|done|by eapply panic_call].
    + split_and!; [done|rewrite Hlen; lia|by eapply is_run_snoc|by eapply panic_policy].
Qed.

Lemma do_loop_ok n : loop_ok n.
Proof.
  induction n as [|n IH]; intros made a v s1 Hc Hrun Ha Hw Hf Hn Hv; pose proof Hv as (Hct & Hri & He & Hrs); simpl.
  - apply wp_ret. exists made, a. rewrite He.
    split_and!; [done|lia|done|done|done|done|apply stop_exhausted; [done|lia]].
  - destruct (Z.eqb_spec (lenZ (made ++ [a])) 0) as [E|_].
    { unfold lenZ in E. rewrite length_app in E. simpl in E. lia. }
    apply wp_bind. eapply wp_mono; [by apply isExceedMaxDuration_spec|].
    intros r s2 (Hc2 & Hf2 & Hw2 & ->). destruct (overtime a) eqn:Eo.
    { apply wp_ret. exists made, a. rewrite Hc2, Hct.
      split_and!; [done|lia|done|done|done|done|apply stop_duration; [done|lia|done]]. }
    assert (retry_due (made ++ [a]) a) as Hdue by (split_and!; [done|lia|done]).
    apply wp_bind. eapply wp_mono; [apply ShouldRetry_spec|]. rewrite Hw2, Hf2, Hf, Hc2, Hc. fold (verdict a).
    intros [[msg ok]|[]|] s3; simpl; [intros (Hc3 & Hf3 & Hr)|intros [Hc3 Hr]].
    2: { exists (made ++ [a]). split_and!; [done|lia|done|by eapply panic_backoff]. }
    destruct ok; simpl.
    + apply wp_bind, in_world_spec. apply call_then_loop; try done; try lia.
      cbn [world fr]. rewrite Hf3. by eapply call_again.
    + apply wp_ret. exists made, a.
      split_and!; [done|lia|done|by case_bool_decide|by case_bool_decide|by case_bool_decide|].
      pose proof (stop_refused (made ++ [a]) a msg _ Hdue Hr) as Hst.
      rewrite <- He in Hst. case_bool_decide; exact Hst.
Qed.

Lemma do_loop_start costs s1 :
  s1 = mkSt (snd (Now (world s))) (fr s) (calls s) ->
  wp (do_loop rpcCall ctx req newResp c ctl cbKey startTime maxDuration (Z.to_nat (retryTimes + 1)) 0
        (mkLV 0 costs None None None)) s1 run_post.
Proof.
  intros ->. replace (Z.to_nat (retryTimes + 1)) with (S (Z.to_nat retryTimes)) by lia. simpl.
  apply (call_then_loop (Z.to_nat retryTimes) [] startTime costs); try done.
  - apply do_loop_ok.
  - by rewrite app_nil_r.
  - apply is_run_nil.
  - apply call_first.
  - unfold lenZ. simpl. lia.
Qed.
End steps.
End runs.

Lemma recover_spec resp (m : M St Empty_set doResult) s (Q : outcome Empty_set doResult -> St -> Prop) :
  wp m s (fun r s' => Q (match r with Panic => Ok (mkDo None false (Some panicToErr) resp) | r => r end) s') ->
  wp (recover resp m) s Q.
Proof. unfold wp, recover. destruct (m s) as [[d|e|] s']; done. Qed.

(** C15: what the failure retryer's [Do] does for any behaviour of the remote side, the
    clock, the breaker and concurrent policy updates, when the policy it starts with allows
    0 to 5 retries and the control of its breaker is set. It returns, after at most
    [MaxRetryTimes + 1] calls. The first call is always made; another one is made exactly
    when the policy in force at the return of the one before asks for a retry, retries and
    time are left, and the retryer agrees, on the state this run left. The run ends for one
    of four reasons, evaluated on that state too: the result is final, the retries are used
    up, the total duration is exceeded, or the retryer refuses, with its reason attached to
    the error; the last call's RPC info (tagged with the number of retries) and response are
    handed back, and the RPC info is recycled only after a single successful call. Only a
    panic of the remote call, of a retryer without policy or back-off, or of the copy of the
    response ends it otherwise, with the panic's error. *)
Theorem failure_do_spec s p ctl resp :
  fr_policy (fr s) = Some p -> cbCtl (fr_cb (fr s)) = Some ctl ->
  0 <= MaxRetryTimes (f_StopPolicy p) <= maxFailureRetryTimes ->
  let R := MaxRetryTimes (f_StopPolicy p) in
  let D := if 0 <? MaxDurationMS (f_StopPolicy p) then ms (MaxDurationMS (f_StopPolicy p)) else 0 in
  let c := fr_cb (fr s) in
  let key := fst (GetKey ctl ctx req) in
  exists d s' made, Do rpcCall ctx req newResp resp s = (Ok d, s') /\
    calls s' = calls s ++ made /\ lenZ made <= R + 1 /\ is_run s c ctl key D R made /\
    ((d = mkDo None false (Some panicToErr) resp /\ panicked s c ctl key D R made) \/
     exists pre a e costs, made = pre ++ [a] /\ stopped s c ctl key D R made a e /\
       match shallowCopyResults (a_resp a) resp with
       | None => d = mkDo None false (Some panicToErr) resp
       | Some r => d = mkDo (Some (recordRetryInfo (a_ri a) (lenZ made) costs))
                            (bool_decide (e = None) && (lenZ made =? 1)) e r
       end).
Proof.
  intros Hp Hctl HR R D c key. unfold maxFailureRetryTimes in HR.
  match goal with |- exists d s' made, _ /\ @?P d s' made => 
    assert (wp (Do rpcCall ctx req newResp resp) s (fun r s' => exists d made, r = Ok d /\ P d s' made)) as Hwp end.
  2: { unfold wp in Hwp. destruct (Do _ _ _ _ _ s) as [r s']. simpl in Hwp.
       destruct Hwp as (d & made & -> & Hd). by exists d, s', made. }
  unfold Do. apply wp_bind, wp_gets. rewrite Hp, Hctl. apply recover_spec.
  apply wp_bind, in_world_spec. apply wp_bind.
  eapply wp_mono; [by apply (do_loop_start s c ctl key D R); [lia|]|].
  intros [v|[]|] s'; unfold run_post.
  - intros (pre & a & Hc & Hl & Hrun & Hct & Hri & Hrs & Hst). rewrite Hri, Hrs.
    destruct (shallowCopyResults (a_resp a) resp) as [d|] eqn:Ed.
    + destruct (bool_decide _ && _) eqn:Eb; apply wp_ret; do 2 eexists; split_and!; try done; right;
        exists pre, a, (lerr v); eexists; rewrite Ed, <- Hct, Eb; split_and!; try done.
      apply andb_true_iff in Eb as [Eb _]. apply bool_decide_eq_true in Eb. by rewrite Eb.
    + exists (mkDo None false (Some panicToErr) resp), (pre ++ [a]). split_and!; try done.
      right. exists pre, a, (lerr v), EmptyString. by rewrite Ed.
  - intros (made & Hc & Hl & Hr & Hpk). exists (mkDo None false (Some panicToErr) resp), made.
    split_and!; try done. by left.
Qed.
End loop.

(** * Runs in the concrete environment *)

Definition demo_policy : FailurePolicy := NewFailurePolicy.

Definition demo_retryer : failureRetryer :=
  match newFailureRetryer (BuildFailurePolicy (Some demo_policy)) None demo_cb with
  | inr r => r
  | inl _ => mkFR false None None demo_cb None None
  end.

(** The server answers from its [n]-th call on, with a declared exception. *)
Definition demo_server (n : Z) : RPCCallFunc := fun _ _ _ w r =>
  let w := (w.1, w.2 + 1) in
  (Some (if w.2 <? n then ([], Some (None, None), Some (WithCause ErrRPCTimeout None))
         else ([], Some (None, Some "declared exception"%string), None)), (w, r)).

Definition demo_state (r : failureRetryer) : St := mkSt (0, 0) r [].

Lemma failure_do_spec_witness :
  exists d s' made,
    Do (demo_server 3) tt tt (Some (None, None)) (Some (None, None)) (demo_state demo_retryer) = (Ok d, s') /\
    calls s' = [] ++ made /\ lenZ made <= 3.
Proof.
  destruct (failure_do_spec (demo_server 3) tt tt (Some (None, None)) (demo_state demo_retryer)
    (convertResultRetry demo_policy) demo_control (Some (None, None))) as (d & s' & made & H1 & H2 & H3 & _).
  - vm_compute. reflexivity.
  - vm_compute. reflexivity.
  - vm_compute. split; discriminate.
  - exists d, s', made. split; [exact H1|]. split; [exact H2|]. vm_compute in H3 |- *. exact H3.
Defined.

(** The run above retries twice and succeeds, yet the exception the server declared in its
    response is lost: [shallowCopyResults] copies only the success of a generated result
    type, so the caller sees neither a result nor the exception. *)
Lemma declared_exception_is_lost :
  match Do (demo_server 3) tt tt (Some (None, None)) (Some (None, None)) (demo_state demo_retryer) with
  | (Ok d, s') => do_err d = None /\ length (calls s') = 3%nat /\
      a_resp <$> last (calls s') = Some (Some (None, Some "declared exception"%string)) /\
      dst d = Some (None, None)
  | _ => False
  end.
Proof. vm_compute. done. Qed.

(** A policy with an unknown back-off type is accepted without a back-off: the first retry
    dereferences nil and the timeout the call failed with is replaced by a panic error. *)
Lemma invalid_backoff_panics_on_retry :
  let p := set_f_backoff (Some (mkBackOff "exponential" None)) demo_policy in
  match newFailureRetryer (BuildFailurePolicy (Some p)) None demo_cb with
  | inr r =>
      fr_enable r = true /\ fr_backOff r = None /\
      match Do (demo_server 3) tt tt (Some (None, None)) (Some (None, None)) (demo_state r) with
      | (Ok d, s') => do_err d = Some panicToErr /\ lastRI d = None /\ length (calls s') = 1%nat
      | _ => False
      end
  | inl _ => False
  end.
Proof. vm_compute. done. Qed.
