(* ===== verification/RetryRace.v ===== *)
(** The backup and the mixed retryer's [Do] (src/pkg/retry/backup_retryer.go,
    mixed_retryer.go): the loop that starts calls in goroutines and waits on a timer and a
    buffered channel, as a step relation over all interleavings. *)

From Stdlib Require Import Floats.SpecFloat.
From S2P Require Import Prelude Kerrors GoText RetryPolicy Retryer.

Section race.
Context `{!RpcTypes, !RetryEnv}.

(** [resultWrapper]; [r_ri] is nil when the call panicked. *)
Record resultWrapper := mkRes {
  r_ri : option RPCInfo; r_resp : option Response; r_err : option (error ErrT) }.

(** A goroutine: not scheduled yet, in its call (the [ct]-th started, since [t]), after
    its send, or ended at once because the run was over. *)
Inductive gstate := GSpawned | GRunning (ct t : Z) | GDone | GAborted.

(** What [Do] returned, with the caller's response object. *)
Inductive ret :=
  | RResult (ri : option RPCInfo) (e : option (error ErrT)) (d : option Response)
  | RDuration (e : error ErrT)
  | RPanic.

(** Where the loop is: about to start a call, at the [select], or returned. *)
Inductive mpc := MSpawn | MSelect | MReturned (r : ret).

(** [T] is the retryer, shared with goroutines that update its policy. [received] are the
    results taken from the channel, each with the retryer as it was then; its length is
    the mixed retryer's [doneCount]. *)
Record raceState (T : Type) := mkRace {
  pc : mpc; callCount : Z; received : list (resultWrapper * T); gs : list gstate;
  done : list resultWrapper; timer : bool; abort : bool; startedCalls : Z; costs : string;
  retryer : T; rworld : World }.
Arguments mkRace {T}.
Arguments pc {T}.
Arguments callCount {T}.
Arguments received {T}.
Arguments gs {T}.
Arguments done {T}.
Arguments timer {T}.
Arguments abort {T}.
Arguments startedCalls {T}.
Arguments costs {T}.
Arguments retryer {T}.
Arguments rworld {T}.

Section shared.
Context {T : Type}.
Context (cb : cbContainer) (ctl : Control) (ctx : Ctx) (req : Request) (cbKey : string) (retryTimes : Z).

Abbreviation state := (raceState T).

Definition set_pc (p : mpc) (s : state) : state :=
  mkRace p (callCount s) (received s) (gs s) (done s) (timer s) (abort s) (startedCalls s) (costs s) (retryer s) (rworld s).
Definition set_timer (b : bool) (s : state) : state :=
  mkRace (pc s) (callCount s) (received s) (gs s) (done s) b (abort s) (startedCalls s) (costs s) (retryer s) (rworld s).
Definition set_abort (s : state) : state :=
  mkRace (pc s) (callCount s) (received s) (gs s) (done s) (timer s) true (startedCalls s) (costs s) (retryer s) (rworld s).
Definition set_rworld (w : World) (s : state) : state :=
  mkRace (pc s) (callCount s) (received s) (gs s) (done s) (timer s) (abort s) (startedCalls s) (costs s) (retryer s) w.

(** The state when the loop is entered: [doCall] is true and the timer runs. *)
Definition race_init (r : T) (w : World) : state :=
  mkRace MSpawn 0 [] [] [] true false 0 EmptyString r w.

(** [i++; gofunc.GoFunc(...)] *)
Definition spawn (s : state) : state :=
  mkRace MSelect (callCount s + 1) (received s) (gs s ++ [GSpawned]) (done s) (timer s) (abort s)
         (startedCalls s) (costs s) (retryer s) (rworld s).

(** The goroutine [k] up to its call. *)
Definition g_start (k : nat) (s : state) : option state :=
  match gs s !! k with
  | Some GSpawned =>
      if abort s then
        Some (mkRace (pc s) (callCount s) (received s) (<[k := GAborted]> (gs s)) (done s) (timer s) (abort s)
                     (startedCalls s) (costs s) (retryer s) (rworld s))
      else
        let ct := i32 (startedCalls s + 1) in
        let '(t, w) := Now (rworld s) in
        let w := if enablePercentageLimit cb then recordRetryStat cbKey ct w else w in
        Some (mkRace (pc s) (callCount s) (received s) (<[k := GRunning ct t]> (gs s)) (done s) (timer s) (abort s)
                     ct (costs s) (retryer s) w)
  | _ => None
  end.

(** [recordCost] *)
Definition recordCost (ct start now : Z) (aborted : bool) (sb : string) : string :=
  if aborted then sb
  else
    let b := if bool_decide (sb = EmptyString) then sb else (sb +:+ ",")%string in
    (b +:+ itoa ct +:+ "-" +:+ itoa (Z.quot (now - start) 1000))%string.

(** The send of a goroutine into the channel, of capacity [retryTimes+1]: blocked when the
    buffer is full. *)
Definition send (k : nat) (res : resultWrapper) (s : state) : option state :=
  if lenZ (done s) <? retryTimes + 1 then
    Some (mkRace (pc s) (callCount s) (received s) (<[k := GDone]> (gs s)) (done s ++ [res]) (timer s) (abort s)
                 (startedCalls s) (costs s) (retryer s) (rworld s))
  else None.

(** The call of goroutine [k] returned [ri], [rs] and [e], leaving the world [w]: the cost
    and the statistics are recorded and the result is sent. *)
Definition g_finish (k : nat) (ri : RPCInfo) (rs : option Response) (e : option (error ErrT)) (w : World)
    (s : state) : option state :=
  match gs s !! k with
  | Some (GRunning ct t) =>
      let '(now, w) := Now w in
      let sb := recordCost ct t now (abort s) (costs s) in
      let w := if negb (enablePercentageLimit cb) && cbStat cb then RecordStat ctx req e cbKey ctl w else w in
      send k (mkRes (Some ri) rs e)
        (mkRace (pc s) (callCount s) (received s) (gs s) (done s) (timer s) (abort s) (startedCalls s) sb (retryer s) w)
  | _ => None
  end.

(** The call of goroutine [k] panicked. *)
Definition g_panic (k : nat) (rs : option Response) (w : World) (s : state) : option state :=
  match gs s !! k with
  | Some (GRunning _ _) => send k (mkRes None rs (Some panicToErr)) (set_rworld w s)
  | _ => None
  end.

(** A result is taken from the channel. *)
Definition take_done (res : resultWrapper) (rest : list resultWrapper) (s : state) : state :=
  mkRace (pc s) (callCount s) (received s ++ [(res, retryer s)]) (gs s) rest (timer s) (abort s)
         (startedCalls s) (costs s) (retryer s) (rworld s).

(** [recordRetryInfo] on a possibly nil info; [None] is a panic. *)
Definition record_info (ri : option RPCInfo) (s : state) : option (option RPCInfo) :=
  match ri with
  | Some ri => Some (Some (recordRetryInfo ri (startedCalls s) (costs s)))
  | None => if 1 <? startedCalls s then None else Some None
  end.

(** The goroutines' steps. *)
Inductive g_step : state -> state -> Prop :=
  | gs_start k s s' : g_start k s = Some s' -> g_step s s'
  | gs_finish k ri rs e w s s' : g_finish k ri rs e w s = Some s' -> g_step s s'
  | gs_panic k rs w s s' : g_panic k rs w s = Some s' -> g_step s s'.
End shared.

(** * The backup retryer *)

Section backup.
Context (cb : cbContainer) (ctl : Control) (ctx : Ctx) (req : Request) (cbKey : string) (retryTimes : Z)
        (resp : option Response).
Abbreviation bstate := (raceState backupRetryer).

Definition b_timer (s : bstate) : option bstate :=
  match pc s, timer s with
  | MSelect, true =>
      match br_ShouldRetry cbKey (retryer s) (rworld s) with
      | None => Some (set_pc (MReturned RPanic) s)
      | Some (_, ok, w) =>
          let s := set_rworld w s in
          Some (if ok && (callCount s <=? retryTimes)
                then set_pc MSpawn (set_timer true s) else set_timer false s)
      end
  | _, _ => None
  end.

Definition b_receive (s : bstate) : option bstate :=
  match pc s, done s with
  | MSelect, res :: rest =>
      let s := take_done res rest s in
      match shallowCopyResults (r_resp res) resp with
      | None => Some (set_pc (MReturned RPanic) s)
      | Some d =>
          let s := set_abort s in
          match record_info (r_ri res) s with
          | None => Some (set_pc (MReturned RPanic) s)
          | Some ri => Some (set_pc (MReturned (RResult ri (r_err res) d)) s)
          end
      end
  | _, _ => None
  end.

Inductive b_step : bstate -> bstate -> Prop :=
  | bs_spawn s : pc s = MSpawn -> b_step s (spawn s)
  | bs_timer s s' : b_timer s = Some s' -> b_step s s'
  | bs_receive s s' : b_receive s = Some s' -> b_step s s'
  | bs_go s s' : g_step cb ctl ctx req cbKey retryTimes s s' -> b_step s s'.

(** Another goroutine updates the policy, or the world moves on. *)
Inductive b_env : bstate -> bstate -> Prop :=
  | be_update p s : b_env s (mkRace (pc s) (callCount s) (received s) (gs s) (done s) (timer s) (abort s)
      (startedCalls s) (costs s) (snd (br_UpdatePolicy p (retryer s))) (rworld s))
  | be_world w s : b_env s (set_rworld w s).

Inductive b_reachable (r : backupRetryer) (w : World) : bstate -> Prop :=
  | br_init : b_reachable r w (race_init r w)
  | br_step s s' : b_reachable r w s -> b_step s s' -> b_reachable r w s'
  | br_env s s' : b_reachable r w s -> b_env s s' -> b_reachable r w s'.
End backup.

(** * The mixed retryer *)

Section mixed.
Context (cb : cbContainer) (ctl : Control) (ctx : Ctx) (req : Request) (cbKey : string) (retryTimes : Z)
        (resp : option Response) (startTime maxDuration : Z).
Abbreviation mstate := (raceState mixedRetryer).

Definition m_spawn (s : mstate) : option mstate :=
  match pc s with
  | MSpawn =>
      if (0 <? callCount s) && (0 <? maxDuration) then
        let '(t, w) := Now (rworld s) in
        let s := set_rworld w s in
        Some (if maxDuration <? t - startTime
              then set_pc (MReturned (RDuration (makeRetryErr ctx
                     ("exceed max duration[" +:+ fmt_duration maxDuration +:+ "]")%string (startedCalls s)))) s
              else spawn s)
      else Some (spawn s)
  | _ => None
  end.

Definition m_timer (s : mstate) : option mstate :=
  match pc s, timer s with
  | MSelect, true =>
      match mr_ShouldRetry ctx cbKey (retryer s) (rworld s) with
      | None => Some (set_pc (MReturned RPanic) s)
      | Some (_, ok, w) =>
          let s := set_rworld w s in
          Some (if ok && (callCount s <? retryTimes + 1)
                then set_pc MSpawn (set_timer true s) else set_timer false s)
      end
  | _, _ => None
  end.

(** The end of the receive branch: the run is over with [res]. *)
Definition m_return (res : resultWrapper) (s : mstate) : mstate :=
  let s := set_abort s in
  match record_info (r_ri res) s with
  | None => set_pc (MReturned RPanic) s
  | Some ri =>
      match shallowCopyResults (r_resp res) resp with
      | None => set_pc (MReturned RPanic) s
      | Some d => set_pc (MReturned (RResult ri (r_err res) d)) s
      end
  end.

Definition m_judge (res : resultWrapper) (r : mixedRetryer) : option bool :=
  p ← mr_policy r; Some (isRetryResult ctx (r_ri res) (r_resp res) (r_err res) (m_FailurePolicy p)).

Definition m_receive (s : mstate) : option mstate :=
  match pc s, done s with
  | MSelect, res :: rest =>
      let s := take_done res rest s in
      if lenZ (received s) <? retryTimes + 1 then
        match m_judge res (retryer s) with
        | None => Some (set_pc (MReturned RPanic) s)
        | Some again =>
            if callCount s <? retryTimes + 1 then
              if again then
                match mr_ShouldRetry ctx cbKey (retryer s) (rworld s) with
                | None => Some (set_pc (MReturned RPanic) s)
                | Some (msg, true, w) => Some (set_pc MSpawn (set_timer true (set_rworld w s)))
                | Some (msg, false, w) =>
                    let s := set_rworld w s in
                    let e := if bool_decide (msg = EmptyString) then r_err res
                             else appendErrMsg (r_err res) ("retried " +:+ itoa (callCount s - 1) +:+ ", " +:+ msg)%string in
                    Some (m_return (mkRes (r_ri res) (r_resp res) e) s)
                end
              else Some (m_return res s)
            else if again then Some s
            else Some (m_return res s)
        end
      else Some (m_return res s)
  | _, _ => None
  end.

Inductive m_step : mstate -> mstate -> Prop :=
  | mst_spawn s s' : m_spawn s = Some s' -> m_step s s'
  | mst_timer s s' : m_timer s = Some s' -> m_step s s'
  | mst_receive s s' : m_receive s = Some s' -> m_step s s'
  | mst_go s s' : g_step cb ctl ctx req cbKey retryTimes s s' -> m_step s s'.

Inductive m_env : mstate -> mstate -> Prop :=
  | me_update p s : m_env s (mkRace (pc s) (callCount s) (received s) (gs s) (done s) (timer s) (abort s)
      (startedCalls s) (costs s) (snd (mr_UpdatePolicy p (retryer s))) (rworld s))
  | me_world w s : m_env s (set_rworld w s).

Inductive m_reachable (r : mixedRetryer) (w : World) : mstate -> Prop :=
  | mre_init : m_reachable r w (race_init r w)
  | mre_step s s' : m_reachable r w s -> m_step s s' -> m_reachable r w s'
  | mre_env s s' : m_reachable r w s -> m_env s s' -> m_reachable r w s'.
End mixed.
End race.

Arguments mkRace {_ _ T}.
Arguments pc {_ _ T}.
Arguments callCount {_ _ T}.
Arguments received {_ _ T}.
Arguments gs {_ _ T}.
Arguments done {_ _ T}.
Arguments timer {_ _ T}.
Arguments abort {_ _ T}.
Arguments startedCalls {_ _ T}.
Arguments costs {_ _ T}.
Arguments retryer {_ _ T}.
Arguments rworld {_ _ T}.
