(* ===== verification/RetryRaceSpec.v ===== *)
(** Correctness of the backup and the mixed retryer under every interleaving: the number of
    calls, the channel that never blocks a goroutine, termination, and which result is
    returned. *)

From Stdlib Require Import Floats.SpecFloat.
From S2P Require Import Prelude Kerrors GoText RetryPolicy Retryer RetryDemo RetryRace.

Section spec.
Context `{!RpcTypes, !RetryEnv}.

(** Goroutines that sent, that started their call, and what is left of each one's work. *)
Definition is_done (g : gstate) : Z := match g with GDone => 1 | _ => 0 end.
Definition is_started (g : gstate) : Z := match g with GRunning _ _ | GDone => 1 | _ => 0 end.
Definition work (g : gstate) : Z := match g with GSpawned => 4 | GRunning _ _ => 3 | _ => 0 end.

Definition finished (g : gstate) : Prop := g = GDone \/ g = GAborted.

Section invariant.
Context {T : Type} (retryTimes : Z) (HR : 0 <= retryTimes < 2 ^ 31 - 1).

Record rinv (s : raceState T) : Prop := mkInv {
  i_calls : lenZ (gs s) = callCount s;
  i_bound : callCount s <= retryTimes + 1;
  i_done : lenZ (received s) + lenZ (done s) = sumZ (is_done <$> gs s);
  i_started : startedCalls s = sumZ (is_started <$> gs s);
  i_abort : abort s = false -> GAborted ∉ gs s;
  i_select : pc s = MSelect -> abort s = false /\ lenZ (received s) < callCount s;
  i_spawn : pc s = MSpawn -> abort s = false /\ callCount s <= retryTimes }.

(** The channel has room while some goroutine has not sent. *)
Lemma channel_has_room s k g :
  rinv s -> gs s !! k = Some g -> g <> GDone -> lenZ (done s) < retryTimes + 1.
Proof.
  intros Hi Hk Hg. destruct Hi.
  assert (sumZ (is_done <$> gs s) < lenZ (gs s)); [|unfold lenZ in *; lia].
  pose proof (sumZ_insert is_done (gs s) k g GDone Hk) as E.
  assert (sumZ (is_done <$> <[k := GDone]> (gs s)) <= lenZ (gs s)) as Hb.
  { replace (lenZ (gs s)) with (lenZ (<[k := GDone]> (gs s))) by (unfold lenZ; by rewrite length_insert).
    rewrite <- sumZ_fmap_const. apply sumZ_fmap_bound. intros [] _; simpl; lia. }
  destruct g; try done; simpl in *; lia.
Qed.

Lemma running_can_send s k ct t res :
  rinv s -> gs s !! k = Some (GRunning ct t) -> is_Some (send retryTimes k res s).
Proof.
  intros Hi Hk. unfold send. pose proof (channel_has_room s k _ Hi Hk ltac:(done)).
  destruct (Z.ltb_spec (lenZ (done s)) (retryTimes + 1)); [by eexists|lia].
Qed.

(** The measure the steps of the program decrease. *)
Definition pc_work (p : mpc) : Z := match p with MSpawn => 1 | MSelect => 2 | MReturned _ => 0 end.
Definition measure (s : raceState T) : Z :=
  8 * (retryTimes + 1 - callCount s) + sumZ (work <$> gs s) + lenZ (done s)
  + (if timer s then 1 else 0) + pc_work (pc s).

Lemma measure_nonneg s : rinv s -> 0 <= measure s.
Proof.
  intros []. unfold measure.
  assert (0 <= sumZ (work <$> gs s)).
  { apply sumZ_nonneg, Forall_fmap, Forall_forall. intros [] _; simpl; lia. }
  destruct (timer s), (pc s); unfold lenZ in *; simpl; lia.
Qed.

Lemma started_bound s k g :
  rinv s -> gs s !! k = Some g -> 0 <= startedCalls s <= retryTimes + 1 /\ (g = GSpawned -> startedCalls s <= retryTimes).
Proof.
  intros Hi Hk. destruct Hi. rewrite i_started0.
  pose proof (sumZ_insert is_started (gs s) k g GDone Hk) as E.
  assert (forall l, 0 <= sumZ (is_started <$> l) <= lenZ l) as Hb.
  { intros l. split.
    - apply sumZ_nonneg, Forall_fmap, Forall_forall. intros [] _; simpl; lia.
    - rewrite <- sumZ_fmap_const. apply sumZ_fmap_bound. intros [] _; simpl; lia. }
  pose proof (Hb (gs s)). pose proof (Hb (<[k := GDone]> (gs s))) as Hb'.
  unfold lenZ in *. rewrite length_insert in Hb'. split; [lia|]. intros ->. simpl in *. lia.
Qed.

Lemma no_abort_insert (l : list gstate) k g : GAborted ∉ l -> g <> GAborted -> GAborted ∉ <[k := g]> l.
Proof.
  intros Hl Hg [i Hi]%list_elem_of_lookup. apply Hl. apply list_elem_of_lookup.
  rewrite list_lookup_insert in Hi. case_decide; [congruence|by exists i].
Qed.

Lemma rinv_init r w : rinv (race_init r w).
Proof. split; simpl; try done; try lia. set_solver. Qed.

Lemma rinv_spawn s : rinv s -> pc s = MSpawn -> rinv (spawn s) /\ measure (spawn s) < measure s.
Proof.
  intros [] Hpc. destruct i_spawn0 as [Ha Hc]; [done|]. split.
  - split; simpl; rewrite ?fmap_app, ?sumZ_app; simpl; try lia; try done.
    + unfold lenZ in *. rewrite length_app. simpl. lia.
    + intros _. specialize (i_abort0 Ha). set_solver.
    + intros _. split; [done|].
      assert (sumZ (is_done <$> gs s) <= lenZ (gs s)) as Hd.
      { rewrite <- sumZ_fmap_const. apply sumZ_fmap_bound. intros [] _; simpl; lia. }
      unfold lenZ in *. lia.
  - unfold measure. simpl. rewrite Hpc, fmap_app, sumZ_app. simpl. lia.
Qed.

Lemma rinv_send k ct t res s s' :
  rinv s -> gs s !! k = Some (GRunning ct t) -> send retryTimes k res s = Some s' ->
  rinv s' /\ measure s' < measure s.
Proof.
  intros [] Hk. unfold send. destruct (_ <? _); [|done]. intros [= <-].
  split; [split|unfold measure]; simpl; try done;
    rewrite ?(sumZ_insert _ _ _ _ GDone Hk); unfold lenZ in *; rewrite ?length_insert, ?length_app; simpl; try lia.
  intros Ha. apply no_abort_insert; auto.
Qed.

Lemma rinv_upd_world w s : rinv s -> rinv (set_rworld w s) /\ measure (set_rworld w s) = measure s.
Proof. intros []. by split. Qed.

Lemma rinv_g_step cb ctl ctx req cbKey s s' :
  rinv s -> g_step cb ctl ctx req cbKey retryTimes s s' -> rinv s' /\ measure s' < measure s.
Proof.
  intros Hi Hst. revert Hi. destruct Hst as [k s0 s1 Hs|k ri rs e w s0 s1 Hs|k rs w s0 s1 Hs]; intros Hi.
  - unfold g_start in Hs. destruct (gs s0 !! k) as [[]|] eqn:Hk; try done.
    destruct (abort s0) eqn:Ha.
    + injection Hs as <-. destruct Hi.
      split; [split|unfold measure]; simpl; try done;
        rewrite ?(sumZ_insert _ _ _ _ GAborted Hk); unfold lenZ in *; rewrite ?length_insert; simpl; try lia.
      all: rewrite Ha in *; auto.
    + destruct (started_bound s0 k GSpawned Hi Hk) as [Hb Hb']. specialize (Hb' eq_refl).
      destruct (Now (rworld s0)) as [t w]. injection Hs as <-. destruct Hi.
      split; [split|unfold measure]; simpl; try done;
        rewrite ?(sumZ_insert _ _ _ _ (GRunning _ _) Hk); unfold lenZ in *; rewrite ?length_insert; simpl; try lia.
      * rewrite i32_id by lia. lia.
      * intros _. apply no_abort_insert; auto.
      * intros E. destruct (i_select0 E). done.
      * intros E. destruct (i_spawn0 E). done.
  - unfold g_finish in Hs. destruct (gs s0 !! k) as [[| ct t| |]|] eqn:Hk; try done.
    destruct (Now w) as [now w']. eapply (rinv_send k ct t) in Hs; [exact Hs| |exact Hk]. by destruct Hi.
  - unfold g_panic in Hs. destruct (gs s0 !! k) as [[| ct t| |]|] eqn:Hk; try done.
    eapply (rinv_send k ct t) in Hs; [exact Hs| |exact Hk]. by destruct Hi.
Qed.

(** No goroutine step is possible only when every goroutine has sent or was aborted. *)
Lemma g_stuck cb ctl ctx req cbKey s :
  rinv s -> (forall s', ~ g_step cb ctl ctx req cbKey retryTimes s s') -> Forall finished (gs s).
Proof.
  intros Hi Hs. apply Forall_lookup. intros k g Hk. destruct g as [|ct t| |]; unfold finished; auto; exfalso.
  - destruct (g_start cb cbKey k s) as [s'|] eqn:E; [by eapply Hs, gs_start|].
    unfold g_start in E. rewrite Hk in E. destruct (abort s); [done|]. by destruct (Now (rworld s)).
  - destruct (g_panic retryTimes k None (rworld s) s) as [s'|] eqn:E; [by eapply Hs, gs_panic|].
    unfold g_panic, send in E. rewrite Hk in E. simpl in E.
    pose proof (channel_has_room s k _ Hi Hk ltac:(done)).
    destruct (Z.ltb_spec (lenZ (done s)) (retryTimes + 1)); [done|lia].
Qed.

(** While the loop waits, a result is in the channel or a goroutine is on its way. *)
Lemma select_not_stuck cb ctl ctx req cbKey s :
  rinv s -> pc s = MSelect -> (forall s', ~ g_step cb ctl ctx req cbKey retryTimes s s') -> done s <> [].
Proof.
  intros Hi Hpc Hs E. pose proof (g_stuck _ _ _ _ _ _ Hi Hs) as Hf. destruct Hi.
  destruct (i_select0 Hpc) as [Ha Hlt]. specialize (i_abort0 Ha).
  assert (sumZ (is_done <$> gs s) = lenZ (gs s)) as Hd.
  { rewrite <- sumZ_fmap_const. f_equal. apply list_fmap_ext. intros i g Hg.
    rewrite Forall_lookup in Hf. destruct (Hf i g Hg) as [->| ->]; [done|].
    exfalso. apply i_abort0, list_elem_of_lookup. by exists i. }
  rewrite E in i_done0. unfold lenZ in *. simpl in *. lia.
Qed.

(** The loop moves on without touching the goroutines or the channel. *)
Lemma rinv_move s p t w :
  rinv s -> (p = MSelect -> pc s = MSelect) ->
  (p = MSpawn -> abort s = false /\ callCount s <= retryTimes) ->
  rinv (set_pc p (set_timer t (set_rworld w s))).
Proof. intros [] Hse Hsp. split; simpl; auto. Qed.

(** Taking a result, then going back to the loop or leaving it. *)
Lemma rinv_take res rest s s' x :
  rinv s -> pc s = MSelect -> done s = res :: rest ->
  gs s' = gs s -> callCount s' = callCount s -> received s' = received s ++ [x] -> done s' = rest ->
  startedCalls s' = startedCalls s ->
  (pc s' = MSpawn -> abort s' = false /\ callCount s <= retryTimes) ->
  (pc s' = MSelect -> abort s' = false /\ lenZ (received s) + 1 < callCount s /\ timer s' = timer s) ->
  rinv s' /\ measure s' < measure s.
Proof.
  intros [] Hpc Hd Hg Hc Hr Hd' Hst Hsp Hse. destruct (i_select0 Hpc) as [Ha Hlt].
  rewrite Hd in *. split; [split|unfold measure; rewrite Hpc, Hd, Hd', Hg, Hc];
    rewrite ?Hg, ?Hc, ?Hr, ?Hd', ?Hst; try done; unfold lenZ in *; rewrite ?length_app; simpl in *; try lia; auto.
  - intros E. destruct (Hse E) as (? & ? & _). split; [done|lia].
  - destruct (pc s'); simpl.
    + destruct (timer s'), (timer s); lia.
    + destruct (Hse eq_refl) as (_ & _ & ->). destruct (timer s); lia.
    + destruct (timer s'), (timer s); lia.
Qed.
End invariant.

(** * The backup retryer *)

Section backup.
Context (cb : cbContainer) (ctl : Control) (ctx : Ctx) (req : Request) (cbKey : string) (retryTimes : Z)
        (resp : option Response).
Context (HR : 0 <= retryTimes < 2 ^ 31 - 1).

Lemma rinv_b_step s s' :
  rinv retryTimes s -> b_step cb ctl ctx req cbKey retryTimes resp s s' ->
  rinv retryTimes s' /\ measure retryTimes s' < measure retryTimes s.
Proof.
  intros Hi Hst. revert Hi. destruct Hst as [s Hpc|s s' Hs|s s' Hs|s s' Hs]; intros Hi.
  - by apply rinv_spawn.
  - unfold b_timer in Hs. destruct (pc s) eqn:Hpc; try done. destruct (timer s) eqn:Ht; [|done].
    pose proof Hi as []. destruct (i_select0 Hpc) as [Ha Hlt].
    destruct (br_ShouldRetry _ _ _) as [[[msg ok] w]|]; injection Hs as <-.
    + destruct (ok && _) eqn:E.
      * apply andb_true_iff in E as [_ E]. simpl in E. apply Z.leb_le in E.
        split; [by apply rinv_move|]. unfold measure. simpl. rewrite Hpc, Ht. simpl. lia.
      * split; [|unfold measure; simpl; rewrite Hpc, Ht; simpl; lia].
        split; simpl; auto; rewrite Hpc; done.
    + split; [by split|]. unfold measure. simpl. rewrite Hpc. simpl. lia.
  - unfold b_receive in Hs. destruct (pc s) eqn:Hpc; try done. destruct (done s) as [|res rest] eqn:Hd; [done|].
    destruct (shallowCopyResults _ _) as [d|]; [destruct (record_info _ _) as [ri|]|]; injection Hs as <-;
      eapply rinv_take; eauto; done.
  - by eapply rinv_g_step.
Qed.

Lemma rinv_b_reachable r w s : b_reachable cb ctl ctx req cbKey retryTimes resp r w s -> rinv retryTimes s.
Proof.
  induction 1 as [|s s' _ IH Hs|s s' _ IH Hs]; [by apply rinv_init|by eapply rinv_b_step|].
  destruct Hs; destruct IH; by split.
Qed.

(** The backup retryer's [Do] under every interleaving of its loop, its goroutines, the
    timer and concurrent policy updates: at most [retryTimes + 1] calls are started; no
    goroutine ever blocks on its send; the program's own steps decrease a measure, so a
    run has finitely many of them; and when none is left [Do] has returned and every
    goroutine has ended. *)
Theorem backup_run_ends r w s :
  b_reachable cb ctl ctx req cbKey retryTimes resp r w s ->
  lenZ (gs s) <= retryTimes + 1 /\
  (forall k ct t res, gs s !! k = Some (GRunning ct t) -> is_Some (send retryTimes k res s)) /\
  (forall s', b_step cb ctl ctx req cbKey retryTimes resp s s' ->
     0 <= measure retryTimes s' < measure retryTimes s) /\
  ((forall s', ~ b_step cb ctl ctx req cbKey retryTimes resp s s') ->
     (exists v, pc s = MReturned v) /\ Forall finished (gs s)).
Proof.
  intros Hr. apply rinv_b_reachable in Hr as Hi. split_and!.
  - destruct Hi. lia.
  - intros k ct t res Hk. by eapply running_can_send.
  - intros s' Hs. destruct (rinv_b_step s s' Hi Hs) as [Hi' Hm].
    pose proof (measure_nonneg retryTimes s' Hi'). lia.
  - intros Hs.
    assert (forall s', ~ g_step cb ctl ctx req cbKey retryTimes s s') as Hg by (intros s' ?; by eapply Hs, bs_go).
    split; [|by eapply g_stuck].
    destruct (pc s) eqn:Hpc; [by exfalso; eapply Hs, bs_spawn| |by eexists].
    pose proof (select_not_stuck retryTimes cb ctl ctx req cbKey s Hi Hpc Hg) as Hd. exfalso.
    destruct (b_receive resp s) as [s'|] eqn:E; [by eapply Hs, bs_receive|].
    unfold b_receive in E. rewrite Hpc in E. destruct (done s); [done|].
    destruct (shallowCopyResults _ _); [|done]. by destruct (record_info _ _).
Qed.
End backup.

(** * The mixed retryer *)

Section mixed.
Context (cb : cbContainer) (ctl : Control) (ctx : Ctx) (req : Request) (cbKey : string) (retryTimes : Z)
        (resp : option Response) (startTime maxDuration : Z).
Context (HR : 0 <= retryTimes < 2 ^ 31 - 1).

Abbreviation mstep := (m_step cb ctl ctx req cbKey retryTimes resp startTime maxDuration).
Abbreviation mreach := (m_reachable cb ctl ctx req cbKey retryTimes resp startTime maxDuration).

Lemma m_return_fields res s :
  exists r, pc (m_return resp res s) = MReturned r /\
  gs (m_return resp res s) = gs s /\ callCount (m_return resp res s) = callCount s /\
  received (m_return resp res s) = received s /\ done (m_return resp res s) = done s /\
  startedCalls (m_return resp res s) = startedCalls s.
Proof.
  unfold m_return. destruct (record_info _ _); [destruct (shallowCopyResults _ _)|]; simpl; eauto 10.
Qed.

Lemma rinv_m_return res0 res rest w s :
  rinv retryTimes s -> pc s = MSelect -> done s = res :: rest ->
  let s' := m_return resp res0 (set_rworld w (take_done res rest s)) in
  rinv retryTimes s' /\ measure retryTimes s' < measure retryTimes s.
Proof.
  intros Hi Hpc Hd s'.
  destruct (m_return_fields res0 (set_rworld w (take_done res rest s))) as (r & Hp & Hg & Hc & Hre & Hdo & Hst).
  fold s' in Hp, Hg, Hc, Hre, Hdo, Hst. simpl in *.
  eapply rinv_take; eauto; rewrite Hp; done.
Qed.

Lemma rinv_m_receive s s' :
  rinv retryTimes s -> m_receive ctx cbKey retryTimes resp s = Some s' ->
  rinv retryTimes s' /\ measure retryTimes s' < measure retryTimes s.
Proof.
  intros Hi. unfold m_receive. destruct (pc s) eqn:Hpc; try done.
  destruct (done s) as [|res rest] eqn:Hd; [done|].
  pose proof Hi as Hi'. destruct Hi'. destruct (i_select0 Hpc) as [Ha Hlt].
  assert (forall res0, rinv retryTimes (m_return resp res0 (take_done res rest s)) /\
    measure retryTimes (m_return resp res0 (take_done res rest s)) < measure retryTimes s) as Hret.
  { intros res0. pose proof (rinv_m_return res0 res rest (rworld s) s Hi Hpc Hd) as Hm. exact Hm. }
  assert (lenZ (received (take_done res rest s)) = lenZ (received s) + 1) as Hlen.
  { unfold lenZ. simpl. rewrite length_app. simpl. lia. }
  rewrite Hlen. destruct (Z.ltb_spec (lenZ (received s) + 1) (retryTimes + 1)) as [Hl|Hl].
  2: { intros [= <-]. apply Hret. }
  destruct (m_judge _ _ _) as [again|].
  2: { intros [= <-]. eapply rinv_take; eauto; done. }
  simpl. destruct (Z.ltb_spec (callCount s) (retryTimes + 1)) as [Hc|Hc].
  - destruct again; [|intros [= <-]; apply Hret].
    destruct (mr_ShouldRetry _ _ _ _) as [[[msg [|]] w]|]; intros [= <-].
    + eapply rinv_take; eauto; simpl; [|done]. intros _. split; [done|lia].
    + by apply rinv_m_return.
    + eapply rinv_take; eauto; done.
  - destruct again; intros [= <-]; [|apply Hret].
    eapply rinv_take; eauto; simpl; rewrite Hpc; try done. intros _. split_and!; [done|lia|done].
Qed.

Lemma rinv_m_step s s' :
  rinv retryTimes s -> mstep s s' ->
  rinv retryTimes s' /\ measure retryTimes s' < measure retryTimes s.
Proof.
  intros Hi Hst. revert Hi. destruct Hst as [s s' Hs|s s' Hs|s s' Hs|s s' Hs]; intros Hi.
  - unfold m_spawn in Hs. destruct (pc s) eqn:Hpc; try done.
    destruct ((0 <? callCount s) && _); [|injection Hs as <-; by apply rinv_spawn].
    destruct (Now (rworld s)) as [t w]. destruct (maxDuration <? _); injection Hs as <-.
    + split; [destruct Hi; by split|]. unfold measure. simpl. rewrite Hpc. simpl. lia.
    + destruct (rinv_upd_world retryTimes w s Hi) as [Hi' <-]. by apply rinv_spawn.
  - unfold m_timer in Hs. destruct (pc s) eqn:Hpc; try done. destruct (timer s) eqn:Ht; [|done].
    pose proof Hi as []. destruct (i_select0 Hpc) as [Ha Hlt].
    destruct (mr_ShouldRetry _ _ _ _) as [[[msg ok] w]|]; injection Hs as <-.
    + destruct (ok && _) eqn:E.
      * apply andb_true_iff in E as [_ E]. simpl in E. apply Z.ltb_lt in E.
        split; [apply rinv_move; [done|done|split; [done|lia]]|]. unfold measure. simpl. rewrite Hpc, Ht. simpl. lia.
      * split; [|unfold measure; simpl; rewrite Hpc, Ht; simpl; lia].
        split; simpl; auto; rewrite Hpc; done.
    + split; [by split|]. unfold measure. simpl. rewrite Hpc. simpl. lia.
  - by apply rinv_m_receive.
  - by eapply rinv_g_step.
Qed.

Lemma rinv_m_reachable r w s : mreach r w s -> rinv retryTimes s.
Proof.
  induction 1 as [|s s' _ IH Hs|s s' _ IH Hs]; [by apply rinv_init|by eapply rinv_m_step|].
  destruct Hs; destruct IH; by split.
Qed.

Lemma m_receive_enabled s : pc s = MSelect -> done s <> [] -> is_Some (m_receive ctx cbKey retryTimes resp s).
Proof.
  intros Hpc Hd. unfold m_receive. rewrite Hpc. destruct (done s) as [|res rest]; [done|].
  destruct (_ <? _); [|eauto]. destruct (m_judge _ _ _) as [[|]|]; [| |eauto].
  - destruct (_ <? _); [|eauto]. destruct (mr_ShouldRetry _ _ _ _) as [[[? []] ?]|]; eauto.
  - destruct (_ <? _); eauto.
Qed.

(** * Which result the mixed retryer returns *)

Definition retriable (x : resultWrapper * mixedRetryer) : Prop := m_judge ctx (fst x) (snd x) = Some true.

(** Why the run ended with the result [res], received as the [n]-th when the retryer was
    [rt], and the error it returns. *)
Inductive m_ended (n : Z) (res : resultWrapper) (rt : mixedRetryer) : option (error ErrT) -> Prop :=
  | me_final : m_judge ctx res rt = Some false -> m_ended n res rt (r_err res)
  | me_last : n = retryTimes + 1 -> m_ended n res rt (r_err res)
  | me_refused k msg w w' :
      m_judge ctx res rt = Some true -> mr_ShouldRetry ctx cbKey rt w = Some (msg, false, w') ->
      m_ended n res rt (if bool_decide (msg = EmptyString) then r_err res
                        else appendErrMsg (r_err res) ("retried " +:+ itoa k +:+ ", " +:+ msg)%string).

Definition m_history (s : raceState mixedRetryer) : Prop :=
  match pc s with
  | MReturned (RResult ri e d) => exists pre res rt, received s = pre ++ [(res, rt)] /\ Forall retriable pre /\
      shallowCopyResults (r_resp res) resp = Some d /\ m_ended (lenZ (received s)) res rt e
  | MReturned _ => True
  | _ => Forall retriable (received s)
  end.

Lemma m_history_return n res e rt pre s :
  received s = pre ++ [(res, rt)] -> Forall retriable pre -> n = lenZ (received s) -> m_ended n res rt e ->
  m_history (m_return resp (mkRes (r_ri res) (r_resp res) e) s).
Proof.
  intros Hr Hf Hn He. unfold m_return, m_history. simpl.
  destruct (record_info _ _); [|done]. destruct (shallowCopyResults _ _) as [d|] eqn:Ed; [|done]. simpl.
  exists pre, res, rt. split_and!; try done. by rewrite <- Hn.
Qed.

Lemma m_history_receive s s' :
  m_history s -> m_receive ctx cbKey retryTimes resp s = Some s' -> rinv retryTimes s -> m_history s'.
Proof.
  intros Hh Hs Hi. unfold m_receive in Hs. unfold m_history in Hh.
  destruct (pc s) eqn:Hpc; try done. destruct (done s) as [|res rest] eqn:Hd; [done|].
  pose proof (i_select retryTimes s Hi Hpc) as [_ Hlt]. pose proof (i_bound retryTimes s Hi).
  set (s1 := take_done res rest s) in *.
  assert (received s1 = received s ++ [(res, retryer s)]) as Hr by done.
  assert (forall e, m_ended (lenZ (received s1)) res (retryer s) e ->
    m_history (m_return resp (mkRes (r_ri res) (r_resp res) e) s1)) as Hret by (intros; by eapply m_history_return).
  assert (mkRes (r_ri res) (r_resp res) (r_err res) = res) as Eres by by destruct res.
  destruct (Z.ltb_spec (lenZ (received s1)) (retryTimes + 1)) as [Hl|Hl].
  2: { injection Hs as <-. rewrite <- Eres. apply Hret, me_last.
       rewrite Hr in *. unfold lenZ in *. rewrite length_app in *. simpl in *. lia. }
  change (retryer s1) with (retryer s) in Hs. destruct (m_judge ctx res (retryer s)) as [[|]|] eqn:Ej; [| |injection Hs as <-; done].
  - assert (Forall retriable (received s1)) as Hf by (rewrite Hr; apply Forall_app; split; [done|by repeat constructor]).
    destruct (callCount s1 <? retryTimes + 1).
    + destruct (mr_ShouldRetry ctx cbKey (retryer s) (rworld s1)) as [[[msg [|]] w]|] eqn:Es; injection Hs as <-; try done.
      eapply (m_history_return _ res _ (retryer s)); [exact Hr|done|done|by eapply me_refused].
    + injection Hs as <-. unfold m_history. change (pc s1) with (pc s). by rewrite Hpc.
  - destruct (callCount s1 <? retryTimes + 1); injection Hs as <-; rewrite <- Eres; apply Hret; by apply me_final.
Qed.

Lemma m_history_go s s' :
  m_history s -> g_step cb ctl ctx req cbKey retryTimes s s' -> m_history s'.
Proof.
  assert (forall k res (s s' : raceState mixedRetryer), send retryTimes k res s = Some s' ->
    pc s' = pc s /\ received s' = received s) as Hsend.
  { intros k res t t'. unfold send. destruct (_ <? _); [|done]. by intros [= <-]. }
  intros Hh Hst. enough (pc s' = pc s /\ received s' = received s) as [Hp Hr].
  { unfold m_history in *. by rewrite Hp, Hr. }
  destruct Hst as [k s s' Hs|k ri rs e w s s' Hs|k rs w s s' Hs].
  - unfold g_start in Hs. destruct (gs s !! k) as [[]|]; try done.
    destruct (abort s); [by injection Hs as <-|]. destruct (Now (rworld s)). by injection Hs as <-.
  - unfold g_finish in Hs. destruct (gs s !! k) as [[]|]; try done. destruct (Now w). by apply Hsend in Hs.
  - unfold g_panic in Hs. destruct (gs s !! k) as [[]|]; try done. by apply Hsend in Hs.
Qed.

Lemma m_history_reachable r w s : mreach r w s -> m_history s.
Proof.
  induction 1 as [|s s' Hr IH Hs|s s' Hr IH Hs]; [by constructor| |by destruct Hs].
  apply rinv_m_reachable in Hr. destruct Hs as [s s' Hs|s s' Hs|s s' Hs|s s' Hs].
  - unfold m_spawn in Hs. unfold m_history in *. destruct (pc s) eqn:Hpc; try done.
    destruct ((0 <? callCount s) && _); [|by injection Hs as <-].
    destruct (Now (rworld s)). by destruct (maxDuration <? _); injection Hs as <-.
  - unfold m_timer in Hs. unfold m_history in *. destruct (pc s) eqn:Hpc; try done. destruct (timer s); [|done].
    destruct (mr_ShouldRetry _ _ _ _) as [[[msg ok] w']|]; injection Hs as <-; [|done].
    destruct (ok && _); simpl; [done|]. by rewrite Hpc.
  - by eapply m_history_receive.
  - by eapply m_history_go.
Qed.

(** C16: The mixed retryer's [Do] under every interleaving: at most [retryTimes + 1] calls, no
    goroutine blocks on its send, every run ends with [Do] returned and all goroutines
    over; and the result it returns is the last one received, all earlier ones having been
    judged retriable, because that result is final, because every allowed call has
    answered, or because the retryer refused another attempt. *)
Theorem mixed_run_ends r w s :
  mreach r w s ->
  lenZ (gs s) <= retryTimes + 1 /\
  (forall k ct t res, gs s !! k = Some (GRunning ct t) -> is_Some (send retryTimes k res s)) /\
  (forall s', mstep s s' -> 0 <= measure retryTimes s' < measure retryTimes s) /\
  ((forall s', ~ mstep s s') -> (exists v, pc s = MReturned v) /\ Forall finished (gs s)) /\
  (forall ri e d, pc s = MReturned (RResult ri e d) ->
     exists pre res rt, received s = pre ++ [(res, rt)] /\ Forall retriable pre /\
       shallowCopyResults (r_resp res) resp = Some d /\ m_ended (lenZ (received s)) res rt e).
Proof.
  intros Hr. apply rinv_m_reachable in Hr as Hi. split_and!.
  - destruct Hi. lia.
  - intros k ct t res Hk. by eapply running_can_send.
  - intros s' Hs. destruct (rinv_m_step s s' Hi Hs) as [Hi' Hm].
    pose proof (measure_nonneg retryTimes s' Hi'). lia.
  - intros Hs.
    assert (forall s', ~ g_step cb ctl ctx req cbKey retryTimes s s') as Hg by (intros s' ?; by eapply Hs, mst_go).
    split; [|by eapply g_stuck].
    destruct (pc s) eqn:Hpc; [| |by eexists]; exfalso.
    + assert (is_Some (m_spawn ctx startTime maxDuration s)) as [s' E]; [|by eapply Hs, mst_spawn].
      unfold m_spawn. rewrite Hpc. destruct (_ && _); [|eauto]. destruct (Now (rworld s)). eauto.
    + pose proof (select_not_stuck retryTimes cb ctl ctx req cbKey s Hi Hpc Hg) as Hd.
      destruct (m_receive_enabled s Hpc Hd) as [s' E]. by eapply Hs, mst_receive.
  - intros ri e d Hpc. apply m_history_reachable in Hr. unfold m_history in Hr. by rewrite Hpc in Hr.
Qed.
End mixed.
End spec.

(** * Schedules: one choice per step, executed *)

Section schedule.
Context `{!RpcTypes, !RetryEnv}.

Inductive choice :=
  | ChSpawn | ChTimer | ChReceive | ChStart (k : nat)
  | ChFinish (k : nat) (ri : RPCInfo) (rs : option Response) (e : option (error ErrT)) (w : World).

Context (cb : cbContainer) (ctl : Control) (ctx : Ctx) (req : Request) (cbKey : string) (retryTimes : Z)
        (resp : option Response) (startTime maxDuration : Z).

Definition b_choose (s : raceState backupRetryer) (c : choice) : option (raceState backupRetryer) :=
  match c with
  | ChSpawn => match pc s with MSpawn => Some (spawn s) | _ => None end
  | ChTimer => b_timer cbKey retryTimes s
  | ChReceive => b_receive resp s
  | ChStart k => g_start cb cbKey k s
  | ChFinish k ri rs e w => g_finish cb ctl ctx req cbKey retryTimes k ri rs e w s
  end.

Definition m_choose (s : raceState mixedRetryer) (c : choice) : option (raceState mixedRetryer) :=
  match c with
  | ChSpawn => m_spawn ctx startTime maxDuration s
  | ChTimer => m_timer ctx cbKey retryTimes s
  | ChReceive => m_receive ctx cbKey retryTimes resp s
  | ChStart k => g_start cb cbKey k s
  | ChFinish k ri rs e w => g_finish cb ctl ctx req cbKey retryTimes k ri rs e w s
  end.

Definition run_schedule {S} (choose : S -> choice -> option S) (s : S) (cs : list choice) : option S :=
  foldl (fun s c => s ← s; choose s c) (Some s) cs.

Lemma run_schedule_ind {S} (choose : S -> choice -> option S) (P : S -> Prop) cs s s' :
  (forall s c s', P s -> choose s c = Some s' -> P s') -> P s ->
  run_schedule choose s cs = Some s' -> P s'.
Proof.
  intros Hstep Hs. revert s'. induction cs as [|c cs IH] using rev_ind; intros s'; unfold run_schedule; simpl.
  - by intros [= <-].
  - rewrite foldl_snoc. intros (s1 & H1 & H2)%bind_Some. eauto.
Qed.

Lemma b_schedule_reachable r w cs s :
  run_schedule b_choose (race_init r w) cs = Some s ->
  b_reachable cb ctl ctx req cbKey retryTimes resp r w s.
Proof.
  apply run_schedule_ind; [|constructor]. intros s1 c s2 Hr Hc. eapply br_step; [exact Hr|].
  destruct c; simpl in Hc.
  - destruct (pc s1) eqn:Hpc; try done. injection Hc as <-. by apply bs_spawn.
  - by apply bs_timer.
  - by apply bs_receive.
  - by eapply bs_go, gs_start.
  - by eapply bs_go, gs_finish.
Qed.

Lemma m_schedule_reachable r w cs s :
  run_schedule m_choose (race_init r w) cs = Some s ->
  m_reachable cb ctl ctx req cbKey retryTimes resp startTime maxDuration r w s.
Proof.
  apply run_schedule_ind; [|constructor]. intros s1 c s2 Hr Hc. eapply mre_step; [exact Hr|].
  destruct c; simpl in Hc.
  - by apply mst_spawn.
  - by apply mst_timer.
  - by apply mst_receive.
  - by eapply mst_go, gs_start.
  - by eapply mst_go, gs_finish.
Qed.
End schedule.

(** * Runs in the concrete environment *)

Definition demo_backup : backupRetryer :=
  match newBackupRetryer (BuildBackupRequest (NewBackupPolicy 10)) demo_cb with
  | inr r => r
  | inl _ => mkBR false 0 None demo_cb None
  end.

Definition demo_mixed : mixedRetryer :=
  match newMixedRetryer (BuildMixedPolicy (NewMixedPolicy 10)) None demo_cb with
  | inr r => r
  | inl _ => mkMR false None None demo_cb None 0 None
  end.

(** A first call that hangs, a backup call after the delay, and the backup's answer. *)
Definition backup_schedule : list choice :=
  [ChSpawn; ChStart 0; ChTimer; ChSpawn; ChStart 1; ChFinish 1 demo_ri None None demo_world; ChReceive].

Definition backup_end : raceState backupRetryer :=
  Eval vm_compute in
  default (race_init demo_backup demo_world)
    (run_schedule (b_choose demo_cb demo_control tt tt "key" 1 None) (race_init demo_backup demo_world) backup_schedule).

Lemma backup_end_reachable : b_reachable demo_cb demo_control tt tt "key" 1 None demo_backup demo_world backup_end.
Proof. apply (b_schedule_reachable _ _ _ _ _ _ _ _ _ backup_schedule). vm_cast_no_check (eq_refl (Some backup_end)). Qed.

Lemma backup_run_ends_witness :
  match pc backup_end with MReturned (RResult _ None _) => True | _ => False end /\ lenZ (gs backup_end) <= 1 + 1.
Proof.
  split; [exact I|].
  apply (backup_run_ends demo_cb demo_control tt tt "key" 1 None ltac:(lia) demo_backup demo_world).
  exact backup_end_reachable.
Defined.

(** A first call that times out and is retried, the second answering. *)
Definition mixed_schedule : list choice :=
  [ChSpawn; ChStart 0; ChFinish 0 demo_ri None (Some (WithCause ErrRPCTimeout None)) demo_world; ChReceive;
   ChSpawn; ChStart 1; ChFinish 1 demo_ri None None demo_world; ChReceive].

Definition mixed_end : raceState mixedRetryer :=
  Eval vm_compute in
  default (race_init demo_mixed demo_world)
    (run_schedule (m_choose demo_cb demo_control tt tt "key" 1 None 0 0) (race_init demo_mixed demo_world) mixed_schedule).

Lemma mixed_end_reachable : m_reachable demo_cb demo_control tt tt "key" 1 None 0 0 demo_mixed demo_world mixed_end.
Proof. apply (m_schedule_reachable _ _ _ _ _ _ _ _ _ _ _ mixed_schedule). vm_cast_no_check (eq_refl (Some mixed_end)). Qed.

Lemma mixed_run_ends_witness :
  match pc mixed_end with MReturned (RResult _ None _) => True | _ => False end /\ lenZ (gs mixed_end) <= 1 + 1.
Proof.
  split; [exact I|].
  apply (mixed_run_ends demo_cb demo_control tt tt "key" 1 None 0 0 ltac:(lia) demo_mixed demo_world).
  exact mixed_end_reachable.
Defined.
