(* ===== verification/RetryContainer.v ===== *)
(** The retry container (src/pkg/retry/retryer.go): the retryers of a client by method, set
    up by code or by remote configuration, and how a call is routed through them. *)

From Stdlib Require Import Floats.SpecFloat.
From S2P Require Import Prelude Kerrors GoText RetryPolicy Retryer RetryDemo.

Section container.
Context `{!RpcTypes, !RetryEnv}.

(** The interface [Retryer]. *)
Inductive Retryer :=
  | RFailure (r : failureRetryer)
  | RBackup (r : backupRetryer)
  | RMixed (r : mixedRetryer).

Definition Type_ (r : Retryer) : Z :=
  match r with RFailure _ => FailureType | RBackup _ => BackupType | RMixed _ => MixedType end.

Definition UpdatePolicy (p : Policy) (r : Retryer) : option updErr * Retryer :=
  match r with
  | RFailure r => let '(e, r) := fr_UpdatePolicy p r in (e, RFailure r)
  | RBackup r => let '(e, r) := br_UpdatePolicy p r in (e, RBackup r)
  | RMixed r => let '(e, r) := mr_UpdatePolicy p r in (e, RMixed r)
  end.

Definition AllowRetry (ctx : Ctx) (w : World) (r : Retryer) : option (string * bool) :=
  match r with
  | RFailure r => fr_AllowRetry ctx w r
  | RBackup r => br_AllowRetry ctx r
  | RMixed r => mr_AllowRetry ctx w r
  end.

Definition AppendErrMsgIfNeeded (ctx : Ctx) (err : option (error ErrT)) (ri : option RPCInfo) (msg : string)
    (r : Retryer) : option (option (error ErrT)) :=
  match r with
  | RFailure r => fr_AppendErrMsgIfNeeded ctx err ri msg r
  | RBackup _ => Some (br_AppendErrMsgIfNeeded err msg)
  | RMixed r => mr_AppendErrMsgIfNeeded ctx err ri msg r
  end.

Definition as_retryer {A} (f : A -> Retryer) (x : updErr + A) : updErr + Retryer :=
  match x with inl e => inl e | inr a => inr (f a) end.

Definition NewRetryer (p : Policy) (rr : option ShouldResultRetry) (c : cbContainer) : updErr + Retryer :=
  if PType p =? MixedType then as_retryer RMixed (newMixedRetryer p rr c)
  else if PType p =? BackupType then as_retryer RBackup (newBackupRetryer p c)
  else as_retryer RFailure (newFailureRetryer p rr c).

(** The last message, kept for dumps; the times in it are left out. *)
Inductive cmsg := MsgNone | MsgDelete (key : string) | MsgUpdate (key : string) | MsgNew (key : string)
  | MsgDisable (key : string) | MsgFailed (key : string) (e : updErr).

Record Container := mkContainer {
  hasCodeCfg : bool;
  retryerMap : gmap string Retryer;
  c_cb : cbContainer;
  c_msg : cmsg;
  genRetryKey : option (Ctx -> RPCInfo -> string);
  shouldResultRetry : option ShouldResultRetry }.

Definition set_map (m : gmap string Retryer) (msg : cmsg) (c : Container) : Container :=
  mkContainer (hasCodeCfg c) m (c_cb c) msg (genRetryKey c) (shouldResultRetry c).

Definition set_code (b : bool) (c : Container) : Container :=
  mkContainer b (retryerMap c) (c_cb c) (c_msg c) (genRetryKey c) (shouldResultRetry c).

(** What the options of [NewRetryContainer] set; a suite is given by the control it
    serves, its panel never being nil. *)
Record settings := mkSettings {
  o_suite : option Control; o_ctl : option Control; o_panel : bool; o_stat : bool; o_pct : bool;
  o_key : option (Ctx -> RPCInfo -> string) }.

(** [newSuite] is the control of a suite made by [newCBSuite]; [None] is a panic. *)
Definition NewRetryContainer (newSuite : Control) (o : settings) : option Container :=
  let o := if o_pct o then mkSettings (Some newSuite) None false false true (o_key o) else o in
  let cb :=
    if bool_decide (o_ctl o = None) && negb (o_panel o) then
      match o_suite o with
      | None => mkCbC (Some newSuite) true true (o_pct o)
      | Some s => mkCbC (Some s) true (o_stat o) (o_pct o)
      end
    else mkCbC (o_ctl o) (o_panel o) (o_stat o) (o_pct o) in
  if negb (cb_IsValid cb) then None
  else Some (mkContainer false ∅ cb MsgNone (o_key o) None).

Definition initRetryer (method : string) (p : Policy) (c : Container) : option updErr * Container :=
  match NewRetryer p (shouldResultRetry c) (c_cb c) with
  | inl e => (Some e, set_map (retryerMap c) (MsgFailed method e) c)
  | inr r => (None, set_map (<[method := r]> (retryerMap c))
                      (if Enable p then MsgNew method else MsgDisable method) c)
  end.

(** The loop of [InitWithPolicies] over the entries in the order Go visits them. *)
Fixpoint init_loop (ps : list (string * Policy)) (inited : bool) (c : Container)
    : option updErr * bool * Container :=
  match ps with
  | [] => (None, inited, c)
  | (m, p) :: ps =>
      if Enable p then
        match retryerMap c !! m with
        | Some _ => init_loop ps true c
        | None =>
            match initRetryer m p c with
            | (Some e, c) => (Some e, true, set_map (retryerMap c) (MsgFailed m e) c)
            | (None, c) => init_loop ps true c
            end
        end
      else init_loop ps inited c
  end.

(** [None] is a nil map. *)
Definition InitWithPolicies (ps : option (list (string * Policy))) (c : Container) : option updErr * Container :=
  match ps with
  | None => (None, c)
  | Some ps =>
      match init_loop ps false c with
      | (Some e, _, c) => (Some e, c)
      | (None, inited, c) => (None, set_code inited c)
      end
  end.

Definition DeletePolicy (key : string) (c : Container) : Container :=
  let c := set_map (retryerMap c) MsgNone c in
  if hasCodeCfg c then c
  else match retryerMap c !! key with
       | Some _ => set_map (delete key (retryerMap c)) (MsgDelete key) c
       | None => c
       end.

Definition NotifyPolicyChange (key : string) (p : Policy) (c : Container) : Container :=
  let c := set_map (retryerMap c) MsgNone c in
  if hasCodeCfg c then c
  else
    match retryerMap c !! key with
    | Some r =>
        if Type_ r =? PType p then
          set_map (<[key := snd (UpdatePolicy p r)]> (retryerMap c)) (MsgUpdate key) c
        else snd (initRetryer key p (set_map (delete key (retryerMap c)) (MsgDelete key) c))
    | None => snd (initRetryer key p c)
    end.

(** What [updateRetryer] does to one retryer; [None] is the nil dereference of the policy
    of a mixed retryer that has none. *)
Definition apply_specified (rr : option ShouldResultRetry) (r : Retryer) : option Retryer :=
  match r with
  | RFailure r =>
      let '(spec, pol) := setSpecifiedResultRetryIfNeeded rr (fr_specified r) (fr_policy r) in
      Some (RFailure (mkFR (fr_enable r) (fr_backOff r) spec (fr_cb r) pol (fr_errMsg r)))
  | RMixed r =>
      mp ← mr_policy r;
      let '(spec, pol) := setSpecifiedResultRetryIfNeeded rr (mr_specified r) (Some (m_FailurePolicy mp)) in
      Some (RMixed (mkMR (mr_enable r) (mr_backOff r) spec (mr_cb r) (mkMixed (m_RetryDelayMS mp) <$> pol)
                         (mr_retryDelay r) (mr_errMsg r)))
  | RBackup r => Some (RBackup r)
  end.

Definition updateRetryer (rr : option ShouldResultRetry) (c : Container) : option Container :=
  let c := mkContainer (hasCodeCfg c) (retryerMap c) (c_cb c) (c_msg c) (genRetryKey c) rr in
  match rr with
  | None => Some c
  | Some _ =>
      if bool_decide (map_Forall (fun _ r => is_Some (apply_specified rr r)) (retryerMap c))
      then Some (set_map (omap (apply_specified rr) (retryerMap c)) (c_msg c) c)
      else None
  end.

Definition Init (mp : option (list (string * Policy))) (rr : option ShouldResultRetry) (c : Container)
    : option (option updErr * Container) :=
  c ← updateRetryer rr c; Some (InitWithPolicies mp c).

Definition Wildcard : string := "*".

Definition getRetryer (ctx : Ctx) (ri : RPCInfo) (method : string) (c : Container) : option Retryer :=
  let key := match genRetryKey c with Some f => f ctx ri | None => method end in
  match retryerMap c !! key with
  | Some r => Some r
  | None => retryerMap c !! Wildcard
  end.

(** How [WithRetryIfNeeded] makes the call: without a retryer, once because the retryer
    does not allow a retry (with its reason), or through the retryer's [Do]. *)
Inductive route := NoRetryer | OnceWith (r : Retryer) (msg : string) | Through (r : Retryer).

(** [None] is a nil dereference. *)
Definition WithRetryIfNeeded (ctx : Ctx) (callOptRetry : option Policy) (ri : RPCInfo) (method : string)
    (w : World) (c : Container) : option route :=
  let retryer :=
    match callOptRetry with
    | Some p =>
        if Enable p then match NewRetryer p None (c_cb c) with inr r => Some r | inl _ => None end
        else getRetryer ctx ri method c
    | None => getRetryer ctx ri method c
    end in
  match retryer with
  | None => Some NoRetryer
  | Some r =>
      '(msg, ok) ← AllowRetry ctx w r;
      Some (if ok : bool then Through r else OnceWith r msg)
  end.

(** * Well-formed retryers *)

Definition enabled (r : Retryer) : bool :=
  match r with RFailure r => fr_enable r | RBackup r => br_enable r | RMixed r => mr_enable r end.

Definition stop_of (r : Retryer) : option StopPolicy :=
  match r with
  | RFailure r => f_StopPolicy <$> fr_policy r
  | RBackup r => b_StopPolicy <$> br_policy r
  | RMixed r => (fun p => f_StopPolicy (m_FailurePolicy p)) <$> mr_policy r
  end.

Definition cb_of (r : Retryer) : cbContainer :=
  match r with RFailure r => fr_cb r | RBackup r => br_cb r | RMixed r => mr_cb r end.

Definition max_times (r : Retryer) : Z :=
  match r with
  | RFailure _ => maxFailureRetryTimes | RBackup _ => maxBackupRetryTimes | RMixed _ => maxMixRetryTimes
  end.

(** The stop policy a configuration carries for retryers of its type. *)
Definition policy_stop (p : Policy) (t : Z) : option StopPolicy :=
  if t =? MixedType then (fun p => f_StopPolicy (m_FailurePolicy p)) <$> p_MixedPolicy p
  else if t =? BackupType then b_StopPolicy <$> p_BackupPolicy p
  else f_StopPolicy <$> p_FailurePolicy p.

Definition stop_ok (max : Z) (sp : StopPolicy) : Prop :=
  0 <= MaxRetryTimes sp <= max /\ checkCBErrorRate (ErrorRate sp) = true.

Definition wf (r : Retryer) : Prop :=
  enabled r = true -> exists sp, stop_of r = Some sp /\ stop_ok (max_times r) sp.

Lemma checkStopPolicy_ok sp max sp' :
  checkStopPolicy sp max = Some sp' -> stop_ok max sp' /\ MaxRetryTimes sp' = MaxRetryTimes sp.
Proof.
  unfold checkStopPolicy, stop_ok. destruct (Z.ltb_spec (MaxRetryTimes sp) 0); [done|].
  destruct (Z.ltb_spec max (MaxRetryTimes sp)); [done|]. simpl.
  destruct (checkCBErrorRate (ErrorRate sp)) eqn:E; intros [= <-]; simpl; repeat split; try done; lia.
Qed.

(** What an update does: a refused policy changes nothing but the message, a disabled one
    only disables, an accepted one is in force afterwards. *)
Definition update_effect (p : Policy) (r r' : Retryer) (e : option updErr) : Prop :=
  match e with
  | Some _ => enabled r' = enabled r /\ stop_of r' = stop_of r
  | None => enabled r' = Enable p /\
      (Enable p = false -> stop_of r' = stop_of r) /\
      (Enable p = true -> PType p = Type_ r /\
         exists sp sp', policy_stop p (Type_ r) = Some sp /\ stop_of r' = Some sp' /\
           MaxRetryTimes sp' = MaxRetryTimes sp /\ stop_ok (max_times r) sp')
  end.

(** Closes the branches where the update leaves the policy alone. *)
Ltac unchanged En :=
  intros [= <- <-]; unfold update_effect; simpl; rewrite ?En; repeat split; try done.

Lemma UpdatePolicy_effect p r e r' :
  UpdatePolicy p r = (e, r') ->
  Type_ r' = Type_ r /\ cb_of r' = cb_of r /\ max_times r' = max_times r /\ update_effect p r r' e.
Proof.
  destruct r as [r|r|r]; simpl.
  - unfold fr_UpdatePolicy, fr_fail. destruct (Enable p) eqn:En; simpl; [|by unchanged En].
    destruct (p_FailurePolicy p) as [fp|] eqn:Ef; [|by unchanged En].
    destruct (Z.eqb_spec (PType p) FailureType) as [Et|]; simpl; [|by unchanged En].
    destruct (checkStopPolicy _ _) as [sp|] eqn:Es; [|by unchanged En].
    apply checkStopPolicy_ok in Es as [Hok Heq].
    assert (policy_stop p FailureType = Some (f_StopPolicy fp)) as Hp by (unfold policy_stop; simpl; by rewrite Ef).
    destruct (initBackOff _); intros [= <- <-]; unfold update_effect; simpl; rewrite En; repeat split; try done;
      eexists _, sp; (split; [exact Hp|]); by destruct (fr_specified r).
  - unfold br_UpdatePolicy, br_fail. destruct (Enable p) eqn:En; simpl; [|by unchanged En].
    destruct (p_BackupPolicy p) as [bp|] eqn:Ef; [|by unchanged En].
    destruct (Z.eqb_spec (PType p) BackupType) as [Et|]; simpl; [|by unchanged En].
    destruct (_ =? 0); [by unchanged En|].
    destruct (checkStopPolicy _ _) as [sp|] eqn:Es; [|by unchanged En].
    apply checkStopPolicy_ok in Es as [Hok Heq].
    assert (policy_stop p BackupType = Some (b_StopPolicy bp)) as Hp by (unfold policy_stop; simpl; by rewrite Ef).
    intros [= <- <-]; unfold update_effect; simpl; rewrite En; repeat split; try done. by eexists _, _.
  - unfold mr_UpdatePolicy, mr_fail. destruct (Enable p) eqn:En; simpl; [|by unchanged En].
    destruct (p_MixedPolicy p) as [mp|] eqn:Ef; [|by unchanged En].
    destruct (Z.eqb_spec (PType p) MixedType) as [Et|]; simpl; [|by unchanged En].
    destruct (_ =? 0); [by unchanged En|].
    destruct (checkStopPolicy _ _) as [sp|] eqn:Es; [|by unchanged En].
    apply checkStopPolicy_ok in Es as [Hok Heq].
    assert (policy_stop p MixedType = Some (f_StopPolicy (m_FailurePolicy mp))) as Hp
      by (unfold policy_stop; simpl; by rewrite Ef).
    destruct (initBackOff _); intros [= <- <-]; unfold update_effect; simpl; rewrite En; repeat split; try done;
      eexists _, sp; (split; [exact Hp|]); by destruct (mr_specified r).
Qed.

Lemma UpdatePolicy_wf p r e r' : UpdatePolicy p r = (e, r') -> wf r -> wf r'.
Proof.
  intros (Ht & _ & Hm & He)%UpdatePolicy_effect Hw Hen. rewrite Hm. unfold update_effect in He.
  destruct e; [destruct He as [He Hs]; rewrite Hs; apply Hw; congruence|].
  destruct He as (He & _ & Hacc). destruct Hacc as (_ & sp & sp' & _ & ? & _ & ?); [congruence|eauto].
Qed.

Lemma NewRetryer_wf p rr c r : NewRetryer p rr c = inr r -> wf r /\ cb_of r = c /\ enabled r = Enable p.
Proof.
  assert (forall r0 e r1, UpdatePolicy p r0 = (e, r1) -> e = None -> enabled r0 = false ->
    cb_of r0 = c -> wf r1 /\ cb_of r1 = c /\ enabled r1 = Enable p) as Hu.
  { intros r0 e r1 Hup -> Hen Hcb. apply UpdatePolicy_effect in Hup as Hef.
    apply UpdatePolicy_wf in Hup; [|by intros ?; congruence]. destruct Hef as (_ & -> & _ & ? & _). done. }
  unfold NewRetryer, newMixedRetryer, newBackupRetryer, newFailureRetryer, as_retryer.
  destruct (_ =? MixedType); [|destruct (_ =? BackupType)].
  - destruct (mr_UpdatePolicy p _) as [[e|] r1] eqn:E; intros [= <-].
    eapply (Hu (RMixed (mkMR false None rr c None 0 None))); [simpl; by rewrite E|done..].
  - destruct (br_UpdatePolicy p _) as [[e|] r1] eqn:E; intros [= <-].
    eapply (Hu (RBackup (mkBR false 0 None c None))); [simpl; by rewrite E|done..].
  - destruct (fr_UpdatePolicy p _) as [[e|] r1] eqn:E; intros [= <-].
    eapply (Hu (RFailure (mkFR false None rr c None None))); [simpl; by rewrite E|done..].
Qed.

Lemma apply_specified_wf rr r r' :
  apply_specified rr r = Some r' ->
  (wf r -> wf r') /\ cb_of r' = cb_of r /\ stop_of r' = stop_of r /\ enabled r' = enabled r.
Proof.
  destruct r as [r|r|r]; simpl.
  - intros [= <-]. unfold wf. simpl.
    assert (forall p, f_StopPolicy <$> (setSpecifiedResultRetryIfNeeded rr (fr_specified r) p).2
            = f_StopPolicy <$> p) as E.
    { intros [p|]; simpl; [|done]. by destruct rr, (fr_specified r). }
    simpl in E. rewrite E. auto.
  - intros [= <-]. auto.
  - intros (mp & Hmp & Hr)%bind_Some. injection Hr as <-. unfold wf. simpl. rewrite Hmp. simpl.
    by destruct rr, (mr_specified r).
Qed.

(** * Containers *)

Definition good (c : Container) : Prop :=
  cb_IsValid (c_cb c) = true /\
  map_Forall (fun _ r => wf r /\ cb_of r = c_cb c) (retryerMap c).

Lemma good_set_map m msg c :
  good c -> map_Forall (fun _ r => wf r /\ cb_of r = c_cb c) m -> good (set_map m msg c).
Proof. intros [Hv _] Hm. by split. Qed.

Lemma initRetryer_good k p c : good c -> good (snd (initRetryer k p c)).
Proof.
  intros Hg. unfold initRetryer. destruct (NewRetryer _ _ _) as [e|r] eqn:E; simpl.
  - apply good_set_map; [done|apply Hg].
  - apply NewRetryer_wf in E as (Hw & Hc & _). apply good_set_map; [done|].
    apply map_Forall_insert_2; [done|apply Hg].
Qed.

Lemma init_loop_good ps : forall b c, good c -> good (snd (init_loop ps b c)).
Proof.
  induction ps as [|[m p] ps IH]; intros b c Hg; simpl; [done|].
  destruct (Enable p); [|by apply IH]. destruct (retryerMap c !! m); [by apply IH|].
  pose proof (initRetryer_good m p c Hg) as Hi. destruct (initRetryer m p c) as [[e|] c']; simpl in *; [|by apply IH].
  apply good_set_map; [done|apply Hi].
Qed.

Lemma InitWithPolicies_good ps c : good c -> good (snd (InitWithPolicies ps c)).
Proof.
  intros Hg. unfold InitWithPolicies. destruct ps as [ps|]; [|done].
  pose proof (init_loop_good ps false c Hg) as Hi. by destruct (init_loop ps false c) as [[[e|] b] c'].
Qed.

Lemma DeletePolicy_good k c : good c -> good (DeletePolicy k c).
Proof.
  intros Hg. unfold DeletePolicy. simpl.
  assert (good (set_map (retryerMap c) MsgNone c)) by (apply good_set_map; [done|apply Hg]).
  destruct (hasCodeCfg c); [done|]. destruct (retryerMap c !! k); [|done].
  apply good_set_map; [done|]. apply map_Forall_delete, Hg.
Qed.

Lemma NotifyPolicyChange_good k p c : good c -> good (NotifyPolicyChange k p c).
Proof.
  intros Hg. unfold NotifyPolicyChange. simpl.
  assert (good (set_map (retryerMap c) MsgNone c)) as Hg' by (apply good_set_map; [done|apply Hg]).
  destruct (hasCodeCfg c); [done|]. destruct (retryerMap c !! k) as [r|] eqn:E.
  - destruct (Type_ r =? PType p).
    + apply good_set_map; [done|]. apply map_Forall_insert_2; [|apply Hg].
      destruct Hg as [_ Hm]. destruct (Hm k r E) as [Hw Hc].
      destruct (UpdatePolicy p r) as [e r'] eqn:Eu. simpl. split; [by eapply UpdatePolicy_wf|].
      apply UpdatePolicy_effect in Eu as (_ & -> & _). done.
    + apply initRetryer_good, good_set_map; [done|]. apply map_Forall_delete, Hg.
  - by apply initRetryer_good.
Qed.

Lemma updateRetryer_good rr c c' : good c -> updateRetryer rr c = Some c' -> good c'.
Proof.
  intros Hg. unfold updateRetryer. destruct rr as [rr|]; [|by intros [= <-]].
  case_bool_decide as Hf; [|done]. intros [= <-]. apply good_set_map; [done|].
  intros k r'. rewrite lookup_omap. intros (r & Hr & Ha)%bind_Some.
  destruct Hg as [_ Hm]. destruct (Hm k r Hr) as [Hw Hc].
  apply apply_specified_wf in Ha as (Hwf & Hcb & _). split; [auto|by rewrite Hcb].
Qed.

(** Containers reached from a new one by the exported operations. *)
Inductive creachable : Container -> Prop :=
  | cr_new ctl o c : NewRetryContainer ctl o = Some c -> creachable c
  | cr_init mp rr c e c' : creachable c -> Init mp rr c = Some (e, c') -> creachable c'
  | cr_policies ps c : creachable c -> creachable (snd (InitWithPolicies ps c))
  | cr_notify k p c : creachable c -> creachable (NotifyPolicyChange k p c)
  | cr_delete k c : creachable c -> creachable (DeletePolicy k c).

Lemma creachable_good c : creachable c -> good c.
Proof.
  induction 1 as [ctl o c Hn|mp rr c e c' _ IH Hi|ps c _ IH|k p c _ IH|k c _ IH].
  - unfold NewRetryContainer in Hn. cbv zeta in Hn.
    destruct (negb (cb_IsValid _)) eqn:E; [done|]. injection Hn as <-. apply negb_false_iff in E.
    split; [exact E|apply map_Forall_empty].
  - unfold Init in Hi. apply bind_Some in Hi as (c1 & Hu & Hs). injection Hs as Hs.
    apply updateRetryer_good in Hu; [|done]. pose proof (InitWithPolicies_good mp c1 Hu). by rewrite Hs in *.
  - by apply InitWithPolicies_good.
  - by apply NotifyPolicyChange_good.
  - by apply DeletePolicy_good.
Qed.

Lemma AllowRetry_wf ctx w r :
  wf r -> exists msg ok, AllowRetry ctx w r = Some (msg, ok) /\
    (ok = true -> enabled r = true /\ exists sp, stop_of r = Some sp /\ stop_ok (max_times r) sp /\
       MaxRetryTimes sp <> 0 /\ (IsRemoteRetryRequest ctx = true -> DisableChainStop sp = true)).
Proof.
  intros Hw. destruct r as [r|r|r]; unfold wf in Hw; simpl in *;
    unfold fr_AllowRetry, br_AllowRetry, mr_AllowRetry.
  - destruct (fr_enable r); [|by eexists _, _]. destruct Hw as (sp & Hsp & Hok); [done|].
    destruct (fr_policy r) as [p|]; [|done]. injection Hsp as <-. simpl.
    destruct (Z.eqb_spec (MaxRetryTimes (f_StopPolicy p)) 0); [by eexists _, _|]. unfold chainStop.
    destruct (DisableChainStop (f_StopPolicy p)) eqn:Ed, (IsRemoteRetryRequest ctx); simpl; try (by eexists _, _);
      destruct (ddlStop ctx (f_StopPolicy p) w) as [[] ?]; eexists _, _; split; try done; intros _; eauto 10.
  - destruct (br_enable r); [|by eexists _, _]. destruct Hw as (sp & Hsp & Hok); [done|].
    destruct (br_policy r) as [p|]; [|done]. injection Hsp as <-. simpl.
    destruct (Z.eqb_spec (MaxRetryTimes (b_StopPolicy p)) 0); [by eexists _, _|]. unfold chainStop.
    destruct (DisableChainStop (b_StopPolicy p)) eqn:Ed, (IsRemoteRetryRequest ctx); simpl;
      eexists _, _; split; try done; intros _; eauto 10.
  - destruct (mr_enable r); [|by eexists _, _]. destruct Hw as (sp & Hsp & Hok); [done|].
    destruct (mr_policy r) as [p|]; [|done]. injection Hsp as <-. simpl.
    destruct (Z.eqb_spec (MaxRetryTimes (f_StopPolicy (m_FailurePolicy p))) 0); [by eexists _, _|]. unfold chainStop.
    destruct (DisableChainStop (f_StopPolicy (m_FailurePolicy p))) eqn:Ed, (IsRemoteRetryRequest ctx); simpl; try (by eexists _, _);
      destruct (ddlStop ctx (f_StopPolicy (m_FailurePolicy p)) w) as [[] ?]; eexists _, _; split; try done; intros _; eauto 10.
Qed.

(** C34: Whatever configuration a client has received, in code or remotely and valid or not,
    every call is routed without a nil dereference, and it runs through a retryer's [Do]
    only with a policy in force whose retry count is between 1 and the maximum of its type
    and whose breaker threshold is valid; a request that is itself a retry of an upstream
    is retried only where the policy disables the chain stop. *)
Theorem container_routes_safely c ctx opt ri method w :
  creachable c ->
  exists rt, WithRetryIfNeeded ctx opt ri method w c = Some rt /\
    forall r, rt = Through r -> enabled r = true /\ cb_IsValid (cb_of r) = true /\
      exists sp, stop_of r = Some sp /\ 1 <= MaxRetryTimes sp <= max_times r /\
        checkCBErrorRate (ErrorRate sp) = true /\
        (IsRemoteRetryRequest ctx = true -> DisableChainStop sp = true).
Proof.
  intros [Hv Hm]%creachable_good. unfold WithRetryIfNeeded.
  match goal with |- context [match ?x with Some _ => _ | None => Some NoRetryer end] =>
    assert (forall r, x = Some r -> wf r /\ cb_IsValid (cb_of r) = true) as Hr; [|destruct x as [r|]] end.
  - assert (forall r, getRetryer ctx ri method c = Some r -> wf r /\ cb_IsValid (cb_of r) = true) as Hget.
    { intros r. unfold getRetryer. case_match eqn:E; intros Hs; simplify_eq;
        [apply Hm in E|apply Hm in Hs]; naive_solver congruence. }
    destruct opt as [p|]; [|done]. destruct (Enable p); [|done]. intros r.
    destruct (NewRetryer p None (c_cb c)) as [|r'] eqn:E; intros [= <-].
    apply NewRetryer_wf in E as (? & -> & _). done.
  - destruct (Hr r eq_refl) as [Hw Hcb]. destruct (AllowRetry_wf ctx w r Hw) as (msg & ok & -> & Hok).
    eexists. split; [done|]. intros r' Hrt. simpl in Hrt. destruct ok; [injection Hrt as <-|done].
    destruct Hok as (He & sp & Hsp & [Hb Hc] & Hnz & Hchain); [done|].
    split_and!; [done|done|]. exists sp. split_and!; [done|lia|lia|done|done].
  - eexists. split; [done|]. by intros r.
Qed.

(** Code configuration wins: once set, remote notifications leave the retryers alone. *)
Lemma code_config_wins c k p :
  hasCodeCfg c = true ->
  retryerMap (NotifyPolicyChange k p c) = retryerMap c /\ retryerMap (DeletePolicy k c) = retryerMap c.
Proof. intros Hc. unfold NotifyPolicyChange, DeletePolicy. simpl. by rewrite Hc. Qed.
End container.

(** * In the concrete environment *)

Definition demo_container : Container :=
  mkContainer false ∅ demo_cb MsgNone None None.

Definition notified : Container :=
  NotifyPolicyChange "echo" (BuildBackupRequest (NewBackupPolicy 10)) demo_container.

Lemma container_routes_safely_witness :
  match WithRetryIfNeeded tt None demo_ri "echo" demo_world notified with Some (Through _) => True | _ => False end /\
  exists rt, WithRetryIfNeeded tt None demo_ri "echo" demo_world notified = Some rt.
Proof.
  split; [vm_compute; exact I|].
  destruct (container_routes_safely notified tt None demo_ri "echo" demo_world) as (rt & Hrt & _).
  - apply cr_notify. apply (cr_new demo_control (mkSettings None (Some demo_control) true true false None)).
    reflexivity.
  - exists rt. exact Hrt.
Defined.

(** A remote configuration that disables mixed retry leaves a mixed retryer without a
    policy; the [Init] that follows with a result rule dereferences it. *)
Lemma init_after_disabled_mixed_panics :
  Init None (Some AllErrorRetry)
    (NotifyPolicyChange "echo" (mkPolicy false MixedType None None None) demo_container) = None.
Proof. vm_compute. reflexivity. Qed.
