(* ===== verification/ByteBuf.v ===== *)
(** The default byte buffer (src/pkg/remote/default_bytebuf.go): one array that grows by
    copying. The arrays live in a memory shared with the slices handed out, so that a
    slice of [Malloc] or [Next] aliases the buffer exactly as long as the code lets it. *)

From S2P Require Import Prelude.

(** * Memory and slices *)

Abbreviation memory := (list (list byte)).

(** A Go slice: the array, its offset in it, length and capacity. *)
Record slice := mkSlice { s_arr : nat; s_off : Z; s_len : Z; s_cap : Z }.

Definition nil_slice : slice := mkSlice 0 0 0 0.

Definition array (m : memory) (a : nat) : list byte := default [] (m !! a).

Definition load (m : memory) (s : slice) : list byte :=
  take (Z.to_nat (s_len s)) (drop (Z.to_nat (s_off s)) (array m (s_arr s))).

(** [bs] over the bytes from position [i] of a list. *)
Definition overwrite (l : list byte) (i : nat) (bs : list byte) : list byte :=
  take i l ++ take (length l - i) bs ++ drop (i + length bs) l.

(** [copy(s, bs)] *)
Definition store (m : memory) (s : slice) (bs : list byte) : memory :=
  <[s_arr s := overwrite (array m (s_arr s)) (Z.to_nat (s_off s)) (take (Z.to_nat (s_len s)) bs)]> m.

(** [s[lo:hi]]; [None] is a panic. *)
Definition subslice (s : slice) (lo hi : Z) : option slice :=
  if bool_decide (0 <= lo <= hi) && (hi <=? s_cap s)
  then Some (mkSlice (s_arr s) (s_off s + lo) (hi - lo) (s_cap s - lo)) else None.

(** * The buffer *)

Inductive bufErr := ErrUnreadable | ErrUnwritable | ErrEOF | ErrNotEnough (n remain : Z).

Definition BitReadable : Z := 1.
Definition BitWritable : Z := 2.

Record defaultByteBuffer := mkBuf { buff : slice; readIdx : Z; writeIdx : Z; status : Z }.

(** Memory the allocator returns uncleared. *)
Class DirtyMemory := {
  dirty : Z -> list byte;
  length_dirty n : length (dirty n) = Z.to_nat n
}.

#[export] Instance zero_memory : DirtyMemory :=
  {| dirty := fun n => replicate (Z.to_nat n) Byte.x00; length_dirty := fun n => length_replicate (Z.to_nat n) _ |}.

Section bytebuf.
Context `{!DirtyMemory}.

(** The memory and the buffer an operation works on. *)
Record bst := mkBst { mem : memory; buf : defaultByteBuffer }.

Abbreviation BM := (M bst bufErr).

Definition zero_buf : defaultByteBuffer := mkBuf nil_slice 0 0 0.

(** [dirtmake.Bytes(n, n)] *)
Definition dirtmake (n : Z) (m : memory) : slice * memory := (mkSlice (length m) 0 n n, m ++ [dirty n]).

(** The constructors; the pool hands out zeroed buffers. *)
Definition newReaderByteBuffer (s : slice) (m : memory) : bst := mkBst m (mkBuf s 0 (s_len s) BitReadable).

Definition estimate (n : Z) : Z := if n <=? 0 then 256 else n.

Definition newWriterByteBuffer (estimatedLength : Z) (m : memory) : bst :=
  let '(s, m) := dirtmake (estimate estimatedLength) m in mkBst m (mkBuf s 0 0 BitWritable).

Definition newReaderWriterByteBuffer (estimatedLength : Z) (m : memory) : bst :=
  let '(s, m) := dirtmake (estimate estimatedLength) m in
  mkBst m (mkBuf s 0 0 (Z.lor BitReadable BitWritable)).

Definition readable (b : defaultByteBuffer) : bool := negb (Z.land (status b) BitReadable =? 0).
Definition writable (b : defaultByteBuffer) : bool := negb (Z.land (status b) BitWritable =? 0).

Definition ReadableLen (b : defaultByteBuffer) : Z := if readable b then writeIdx b - readIdx b else -1.
Definition WrittenLen (b : defaultByteBuffer) : Z := if writable b then writeIdx b else -1.
Definition ReadLen (b : defaultByteBuffer) : Z := readIdx b.
Definition writableLen (b : defaultByteBuffer) : Z := if writable b then s_cap (buff b) - writeIdx b else -1.

Definition readableCheck (n : Z) : BM unit :=
  b ← gets buf;
  if (writeIdx b <=? readIdx b) && (0 <? n) then throw ErrEOF
  else if ReadableLen b <? n then throw (ErrNotEnough n (ReadableLen b))
  else mret tt.

Definition set_buf (f : defaultByteBuffer -> defaultByteBuffer) : BM unit :=
  modify (fun s => mkBst (mem s) (f (buf s))).

Definition advance_read (n : Z) (b : defaultByteBuffer) : defaultByteBuffer :=
  mkBuf (buff b) (readIdx b + n) (writeIdx b) (status b).
Definition advance_write (n : Z) (b : defaultByteBuffer) : defaultByteBuffer :=
  mkBuf (buff b) (readIdx b) (writeIdx b + n) (status b).

(** A slice expression on the buffer. *)
Definition cut (lo hi : Z) : BM slice :=
  b ← gets buf;
  match subslice (buff b) lo hi with Some s => mret s | None => panic end.

Definition if_readable {A} (m : BM A) : BM A :=
  b ← gets buf; if readable b then m else throw ErrUnreadable.
Definition if_writable {A} (m : BM A) : BM A :=
  b ← gets buf; if writable b then m else throw ErrUnwritable.

Definition Peek (n : Z) : BM slice :=
  if_readable (readableCheck n;; b ← gets buf; cut (readIdx b) (readIdx b + n)).

(** The read index moves even when the peek failed. *)
Definition Next (n : Z) : BM slice :=
  if_readable (fun s =>
    match Peek n s with
    | (Panic, s) => (Panic, s)
    | (r, s) => (r, mkBst (mem s) (advance_read n (buf s)))
    end).

Definition Skip (n : Z) : BM unit :=
  if_readable (readableCheck n;; set_buf (advance_read n)).

(** The bytes behind a slice, now. *)
Definition bytes_of (s : slice) : BM (list byte) := gets (fun st => load (mem st) s).

(** [Read(p)]: the bytes copied to [p], whose length is [pl]. *)
Definition Read (pl : Z) : BM (list byte) :=
  if_readable (
    b ← gets buf;
    let readable := ReadableLen b in
    if readable =? 0 then throw ErrEOF
    else s ← Next (if pl <=? readable then pl else readable); bytes_of s).

Definition ReadString (n : Z) : BM (list byte) := if_readable (s ← Next n; bytes_of s).
Definition ReadBinary (pl : Z) : BM (list byte) := if_readable (s ← Next pl; bytes_of s).

(** The doubling loop of [ensureWritable] on an int; [None] when it does not end within
    the fuel. *)
Fixpoint grow (fuel : nat) (newCapacity minNewCapacity : Z) : option Z :=
  match fuel with
  | O => None
  | S fuel => if newCapacity <? minNewCapacity then grow fuel (i64 (newCapacity * 2)) minNewCapacity
              else Some newCapacity
  end.

(** The new array with the old content. *)
Definition regrow (newCapacity : Z) (b : defaultByteBuffer) : BM unit := fun s =>
  let '(sl, m) := dirtmake newCapacity (mem s) in
  (Ok tt, mkBst (store m sl (load m (buff b))) (mkBuf sl (readIdx b) (writeIdx b) (status b))).

(** Doubling an int 64 times leaves no bit of it: a longer run of the loop does not end,
    which is represented by [panic]. *)
Definition ensureWritable (minWritableBytes : Z) : BM unit :=
  b ← gets buf;
  if minWritableBytes <=? writableLen b then mret tt
  else
    match grow 65 (s_cap (buff b)) (writeIdx b + minWritableBytes) with
    | None => panic
    | Some newCapacity => regrow newCapacity b
    end.

Definition Malloc (n : Z) : BM slice :=
  if_writable (
    ensureWritable n;;
    b ← gets buf;
    set_buf (advance_write n);;
    cut (writeIdx b) (writeIdx b + n)).

(** [copy(b.buff[b.writeIdx:b.writeIdx+n], p)] and the advance. *)
Definition append_bytes (n : Z) (p : list byte) : BM unit :=
  ensureWritable n;;
  b ← gets buf;
  s ← cut (writeIdx b) (writeIdx b + n);
  modify (fun st => mkBst (store (mem st) s p) (buf st));;
  set_buf (advance_write n).

Definition WriteString (p : list byte) : BM Z := if_writable (append_bytes (lenZ p) p;; mret (lenZ p)).
Definition WriteBinary (p : list byte) : BM Z := if_writable (append_bytes (lenZ p) p;; mret (lenZ p)).
Definition Write (p : list byte) : BM Z := if_writable (WriteBinary p).

Definition Flush : BM unit := if_writable (mret tt).

(** The bytes copied out. *)
Definition Bytes : BM (list byte) :=
  if_writable (b ← gets buf; s ← cut 0 (writeIdx b); bytes_of s).

(** [AppendBuffer] of another buffer, which is released afterwards; the status of the
    receiver is not checked. *)
Definition AppendBuffer (sub : defaultByteBuffer) : BM unit :=
  p ← bytes_of (buff sub); append_bytes (writeIdx sub) p.

Definition Release : BM unit := set_buf (fun _ => zero_buf).

(** * Lemmas *)

Lemma overwrite_fits l i bs :
  (i + length bs <= length l)%nat -> overwrite l i bs = take i l ++ bs ++ drop (i + length bs) l.
Proof. intros Hl. unfold overwrite. rewrite (take_ge bs) by lia. done. Qed.

Lemma length_overwrite l i bs :
  (i + length bs <= length l)%nat -> length (overwrite l i bs) = length l.
Proof. intros Hl. rewrite overwrite_fits by done. rewrite !length_app, length_take, length_drop. lia. Qed.

(** The buffer's slice lies in its array and its indices in the slice. *)
Record wf (st : bst) : Prop := mkWf {
  w_arr : (s_arr (buff (buf st)) < length (mem st))%nat;
  w_off : 0 <= s_off (buff (buf st));
  w_cap : 0 <= s_len (buff (buf st)) <= s_cap (buff (buf st));
  w_fit : s_off (buff (buf st)) + s_cap (buff (buf st)) <= lenZ (array (mem st) (s_arr (buff (buf st))));
  w_idx : 0 <= readIdx (buf st) <= writeIdx (buf st);
  w_len : writeIdx (buf st) <= s_len (buff (buf st));
  w_write : writable (buf st) = true -> s_len (buff (buf st)) = s_cap (buff (buf st)) /\ 1 <= s_cap (buff (buf st)) }.

(** What has been written. *)
Definition data (st : bst) : list byte :=
  take (Z.to_nat (writeIdx (buf st)))
    (drop (Z.to_nat (s_off (buff (buf st)))) (array (mem st) (s_arr (buff (buf st))))).

Lemma length_data st : wf st -> lenZ (data st) = writeIdx (buf st).
Proof.
  intros []. unfold data, lenZ in *. rewrite length_take, length_drop. lia.
Qed.

Lemma subslice_fits s lo hi :
  0 <= lo <= hi -> hi <= s_cap s ->
  subslice s lo hi = Some (mkSlice (s_arr s) (s_off s + lo) (hi - lo) (s_cap s - lo)).
Proof.
  intros Hl Hh. unfold subslice. rewrite bool_decide_true by done. by destruct (Z.leb_spec hi (s_cap s)); [|lia].
Qed.

Lemma load_cut st lo hi :
  wf st -> 0 <= lo <= hi -> hi <= writeIdx (buf st) ->
  load (mem st) (mkSlice (s_arr (buff (buf st))) (s_off (buff (buf st)) + lo) (hi - lo) (s_cap (buff (buf st)) - lo))
  = take (Z.to_nat (hi - lo)) (drop (Z.to_nat lo) (data st)).
Proof.
  intros [] Hl Hh. unfold load, data. simpl.
  rewrite skipn_firstn_comm, drop_drop, take_take. f_equal; [lia|]. f_equal. lia.
Qed.

(** ** Reading *)

Definition fits (n : Z) (st : bst) : Prop := 0 <= n /\ readIdx (buf st) + n <= writeIdx (buf st).

(** The next [n] bytes. *)
Definition upcoming (n : Z) (st : bst) : list byte :=
  take (Z.to_nat n) (drop (Z.to_nat (readIdx (buf st))) (data st)).

Lemma wp_if_readable {A} (m : M bst bufErr A) st Q :
  readable (buf st) = true -> wp m st Q -> wp (if_readable m) st Q.
Proof. intros Hr Hm. unfold if_readable. apply wp_bind, wp_gets. by rewrite Hr. Qed.

Lemma wp_if_writable {A} (m : M bst bufErr A) st Q :
  writable (buf st) = true -> wp m st Q -> wp (if_writable m) st Q.
Proof. intros Hr Hm. unfold if_writable. apply wp_bind, wp_gets. by rewrite Hr. Qed.

Lemma readableCheck_spec n st (Q : outcome bufErr unit -> bst -> Prop) :
  wf st -> readable (buf st) = true -> 0 <= n ->
  (fits n st -> Q (Ok tt) st) ->
  (~ fits n st -> Q (Err (if readIdx (buf st) =? writeIdx (buf st) then ErrEOF
                          else ErrNotEnough n (writeIdx (buf st) - readIdx (buf st)))) st) ->
  wp (readableCheck n) st Q.
Proof.
  intros [] Hr Hn Hok Herr. unfold readableCheck, fits in *. apply wp_bind, wp_gets. unfold ReadableLen. rewrite Hr.
  destruct (Z.leb_spec (writeIdx (buf st)) (readIdx (buf st))), (Z.ltb_spec 0 n); simpl.
  - apply wp_throw. destruct (Z.eqb_spec (readIdx (buf st)) (writeIdx (buf st))); [apply Herr|]; lia.
  - destruct (Z.ltb_spec (writeIdx (buf st) - readIdx (buf st)) n); [lia|]. apply wp_ret, Hok. lia.
  - destruct (Z.ltb_spec (writeIdx (buf st) - readIdx (buf st)) n).
    + apply wp_throw. destruct (Z.eqb_spec (readIdx (buf st)) (writeIdx (buf st))); [lia|]. apply Herr. lia.
    + apply wp_ret, Hok. lia.
  - destruct (Z.ltb_spec (writeIdx (buf st) - readIdx (buf st)) n); [lia|]. apply wp_ret, Hok. lia.
Qed.

Definition read_error (n : Z) (st : bst) : bufErr :=
  if readIdx (buf st) =? writeIdx (buf st) then ErrEOF
  else ErrNotEnough n (writeIdx (buf st) - readIdx (buf st)).

Lemma Peek_spec n st (Q : outcome bufErr slice -> bst -> Prop) :
  wf st -> readable (buf st) = true -> 0 <= n ->
  (forall s, fits n st -> load (mem st) s = upcoming n st -> Q (Ok s) st) ->
  (~ fits n st -> Q (Err (read_error n st)) st) ->
  wp (Peek n) st Q.
Proof.
  intros Hw Hr Hn Hok Herr. unfold Peek. apply wp_if_readable; [done|]. apply wp_bind.
  apply readableCheck_spec; try done. intros [H0 H1]. apply wp_bind, wp_gets. unfold cut. apply wp_bind, wp_gets.
  pose proof Hw as []. rewrite subslice_fits by lia. apply wp_ret. apply Hok; [done|].
  rewrite load_cut by (done || lia). unfold upcoming. f_equal. lia.
Qed.

Lemma buf_Next_spec n st (Q : outcome bufErr slice -> bst -> Prop) :
  wf st -> readable (buf st) = true -> 0 <= n ->
  (forall s, fits n st -> load (mem st) s = upcoming n st -> Q (Ok s) (mkBst (mem st) (advance_read n (buf st)))) ->
  (~ fits n st -> Q (Err (read_error n st)) (mkBst (mem st) (advance_read n (buf st)))) ->
  wp (Next n) st Q.
Proof.
  intros Hw Hr Hn Hok Herr. unfold Next. apply wp_if_readable; [done|].
  assert (wp (Peek n) st (fun r st' => st' = st /\ match r with
    | Ok s => fits n st /\ load (mem st) s = upcoming n st
    | Err e => ~ fits n st /\ e = read_error n st
    | Panic => False end)) as Hp.
  { apply Peek_spec; auto. }
  unfold wp in *. destruct (Peek n st) as [[s|e|] st']; simpl in *; destruct Hp as [-> Hp]; simpl.
  - apply Hok; apply Hp.
  - destruct Hp as [Hp ->]. auto.
  - done.
Qed.

Lemma wf_advance_read n st : wf st -> fits n st -> wf (mkBst (mem st) (advance_read n (buf st))).
Proof. intros [] []. split; simpl in *; try done; lia. Qed.

(** ** Writing *)

(** The loop ends: from a capacity of at least 1 it reaches the least doubling that is
    large enough, without overflow. *)
Lemma grow_spec fuel c m :
  1 <= c -> m <= 2 ^ 62 -> m <= c * 2 ^ (Z.of_nat fuel - 1) -> (0 < fuel)%nat ->
  exists c', grow fuel c m = Some c' /\ m <= c' /\ c <= c' /\ (c' = c \/ c' < 2 * m).
Proof.
  revert c. induction fuel as [|fuel IH]; intros c Hc Hm Hf H0; [lia|]. simpl.
  destruct (Z.ltb_spec c m) as [Hlt|Hge]; [|exists c; split_and!; [done|lia|lia|by left]].
  rewrite i64_id by lia.
  destruct fuel as [|fuel]; [simpl in Hf; lia|].
  destruct (IH (c * 2)) as (c' & Hg & H1 & H2 & H3); [lia|done| |lia|].
  - replace (Z.of_nat (S (S fuel)) - 1) with (Z.succ (Z.of_nat (S fuel) - 1)) in Hf by lia.
    rewrite Z.pow_succ_r in Hf by lia. lia.
  - exists c'. split_and!; [done|lia|lia|]. right. lia.
Qed.

Lemma grow_enough c m : 1 <= c -> m <= 2 ^ 62 ->
  exists c', grow 65 c m = Some c' /\ m <= c' /\ c <= c' /\ (c' = c \/ c' < 2 * m).
Proof.
  intros Hc Hm. apply grow_spec; [done|done| |lia]. change (Z.of_nat 65 - 1) with 64. lia.
Qed.

(** What [ensureWritable] keeps: the indices, the status, the written bytes and every
    array that was there; the buffer moves to a fresh array only when it must grow. *)
Definition same_content (st st' : bst) : Prop :=
  readIdx (buf st') = readIdx (buf st) /\ writeIdx (buf st') = writeIdx (buf st) /\
  status (buf st') = status (buf st) /\ data st' = data st /\
  (forall a, (a < length (mem st))%nat -> array (mem st') a = array (mem st) a).

Lemma array_app_l m x a : (a < length m)%nat -> array (m ++ [x]) a = array m a.
Proof. intros Ha. unfold array. by rewrite lookup_app_l. Qed.

Lemma array_insert_eq m a x : (a < length m)%nat -> array (<[a := x]> m) a = x.
Proof. intros Ha. unfold array. by rewrite list_lookup_insert_eq. Qed.

Lemma array_insert_ne m a b x : a <> b -> array (<[a := x]> m) b = array m b.
Proof. intros Ha. unfold array. by rewrite list_lookup_insert_ne. Qed.

Lemma regrow_spec c st :
  wf st -> writable (buf st) = true -> s_cap (buff (buf st)) <= c ->
  wp (regrow c (buf st)) st (fun r st' => r = Ok tt /\ wf st' /\ same_content st st' /\
    s_cap (buff (buf st')) = c /\ s_arr (buff (buf st')) = length (mem st)).
Proof.
  intros Hw Hwr Hc. unfold wp, regrow, dirtmake. simpl.
  set (old := load (mem st ++ [dirty c]) (buff (buf st))).
  pose proof Hw as []. destruct (w_write0 Hwr) as [Hl H1].
  assert (old = take (Z.to_nat (s_len (buff (buf st)))) (drop (Z.to_nat (s_off (buff (buf st)))) (array (mem st) (s_arr (buff (buf st)))))) as Hold.
  { unfold old, load. by rewrite array_app_l. }
  assert (lenZ old = s_len (buff (buf st))) as Hlo.
  { rewrite Hold. unfold lenZ in *. rewrite length_take, length_drop. lia. }
  assert (array (store (mem st ++ [dirty c]) (mkSlice (length (mem st)) 0 c c) old) (length (mem st))
          = old ++ drop (length old) (dirty c)) as Ha.
  { unfold store. simpl. rewrite array_insert_eq by (rewrite length_app; simpl; lia).
    assert (array (mem st ++ [dirty c]) (length (mem st)) = dirty c) as ->.
    { unfold array. by rewrite lookup_app_r, Nat.sub_diag by lia. }
    rewrite (take_ge old) by (unfold lenZ in *; lia).
    rewrite overwrite_fits by (rewrite length_dirty; unfold lenZ in *; lia). done. }
  split; [done|]. split_and!; simpl; try done.
  - split; simpl; rewrite ?Ha; unfold store, lenZ in *; rewrite ?length_insert, ?length_app, ?length_drop, ?length_dirty; simpl; lia.
  - split_and!; simpl; try done; [|by intros a Hlt; unfold store; simpl; rewrite array_insert_ne by lia; apply array_app_l].
    unfold data. simpl. rewrite Ha, Hold, drop_0, take_app_le.
    + rewrite take_take. f_equal. lia.
    + rewrite <- Hold. unfold lenZ in *. lia.
Qed.

Lemma ensureWritable_spec n st :
  wf st -> writable (buf st) = true -> 0 <= n -> writeIdx (buf st) + n <= 2 ^ 62 ->
  wp (ensureWritable n) st (fun r st' => r = Ok tt /\ wf st' /\ same_content st st' /\
    writeIdx (buf st') + n <= s_cap (buff (buf st')) /\
    (st' = st \/ s_cap (buff (buf st)) < writeIdx (buf st) + n /\ s_arr (buff (buf st')) = length (mem st))).
Proof.
  intros Hw Hwr Hn Hb. unfold ensureWritable. apply wp_bind, wp_gets. unfold writableLen. rewrite Hwr.
  destruct (Z.leb_spec n (s_cap (buff (buf st)) - writeIdx (buf st))) as [Hle|Hgt].
  - apply wp_ret. split_and!; [done|done| |lia|by left]. by split_and!.
  - pose proof Hw as []. destruct (w_write0 Hwr) as [Hl H1].
    destruct (grow_enough (s_cap (buff (buf st))) (writeIdx (buf st) + n)) as (c & -> & Hc1 & Hc2 & _); [lia|lia|].
    eapply wp_mono; [by apply regrow_spec|]. intros r st' (-> & Hw' & Hs & Hcap & Harr).
    destruct Hs as (Hr' & Hw2 & Hst & Hd & Hm). split_and!; try done; [lia|]. right. split; [lia|done].
Qed.

(** The bytes go after what was written; other arrays do not change. *)
Lemma append_bytes_spec p st :
  wf st -> writable (buf st) = true -> writeIdx (buf st) + lenZ p <= 2 ^ 62 ->
  wp (append_bytes (lenZ p) p) st (fun r st' => r = Ok tt /\ wf st' /\
    data st' = data st ++ p /\ readIdx (buf st') = readIdx (buf st) /\
    writeIdx (buf st') = writeIdx (buf st) + lenZ p /\ status (buf st') = status (buf st)).
Proof.
  intros Hw Hwr Hb. unfold append_bytes. apply wp_bind.
  eapply wp_mono; [apply ensureWritable_spec; [done|done|unfold lenZ; lia|done]|].
  intros r st1 (-> & Hw1 & (Hr1 & Hi1 & Hs1 & Hd1 & _) & Hc1 & _). apply wp_bind, wp_gets. apply wp_bind.
  pose proof Hw1 as []. assert (0 <= lenZ p) by (unfold lenZ; lia).
  assert (writable (buf st1) = true) as Hwr1 by (unfold writable in *; by rewrite Hs1).
  destruct (w_write0 Hwr1) as [Hl1 _].
  unfold cut. apply wp_bind, wp_gets. rewrite subslice_fits by lia. apply wp_ret. apply wp_bind, wp_modify, wp_modify.
  set (s := buff (buf st1)) in *. set (A := array (mem st1) (s_arr s)) in *.
  set (i := Z.to_nat (s_off s + writeIdx (buf st1))).
  assert (i + length p <= length A)%nat as Hfit by (unfold i, lenZ in *; lia).
  assert (array (store (mem st1) (mkSlice (s_arr s) (s_off s + writeIdx (buf st1))
            (writeIdx (buf st1) + lenZ p - writeIdx (buf st1)) (s_cap s - writeIdx (buf st1))) p) (s_arr s)
          = take i A ++ p ++ drop (i + length p) A) as Ha.
  { unfold store. simpl. rewrite array_insert_eq by done. rewrite (take_ge p) by (unfold lenZ; lia).
    fold A i. by apply overwrite_fits. }
  split; [done|]. split_and!; simpl; try lia; try done.
  - split; simpl; fold s; rewrite ?Ha; unfold store; rewrite ?length_insert; unfold lenZ in *; fold A in w_fit0;
      rewrite ?length_app, ?length_take, ?length_drop; try lia; try done.
  - rewrite <- Hd1. unfold data. simpl. fold s. rewrite Ha. fold A. unfold i.
    rewrite drop_app_le by (rewrite length_take; unfold lenZ in *; lia).
    rewrite skipn_firstn_comm.
    replace (Z.to_nat (s_off s + writeIdx (buf st1)) - Z.to_nat (s_off s))%nat with (Z.to_nat (writeIdx (buf st1))) by lia.
    set (d := take (Z.to_nat (writeIdx (buf st1))) (drop (Z.to_nat (s_off s)) A)).
    assert (length d = Z.to_nat (writeIdx (buf st1))) as Hd.
    { unfold d. rewrite length_take, length_drop. unfold lenZ in *. lia. }
    rewrite app_assoc, take_app_le by (rewrite length_app; unfold lenZ in *; lia).
    rewrite take_ge; [done|]. rewrite length_app. unfold lenZ in *. lia.
Qed.

(** * The buffer as a byte stream *)

Inductive op :=
  | OWrite (p : list byte) | OWriteString (p : list byte) | OWriteBinary (p : list byte)
  | OPeek (n : Z) | ONext (n : Z) | OSkip (n : Z) | ORead (n : Z) | OReadString (n : Z) | OReadBinary (n : Z)
  | OBytes.

Inductive out := OutBytes (l : list byte) | OutNum (n : Z) | OutUnit | OutErr (e : bufErr) | OutPanic.

Definition result {A} (f : A -> out) (m : M bst bufErr A) (st : bst) : out * bst :=
  match m st with
  | (Ok a, st) => (f a, st)
  | (Err e, st) => (OutErr e, st)
  | (Panic, st) => (OutPanic, st)
  end.

Definition exec (o : op) : bst -> out * bst :=
  match o with
  | OWrite p => result OutNum (Write p)
  | OWriteString p => result OutNum (WriteString p)
  | OWriteBinary p => result OutNum (WriteBinary p)
  | OPeek n => result OutBytes (s ← Peek n; bytes_of s)
  | ONext n => result OutBytes (s ← Next n; bytes_of s)
  | OSkip n => result (fun _ => OutUnit) (Skip n)
  | ORead n => result OutBytes (Read n)
  | OReadString n => result OutBytes (ReadString n)
  | OReadBinary n => result OutBytes (ReadBinary n)
  | OBytes => result OutBytes Bytes
  end.

(** The specification: all bytes written so far and the position of the reader. *)
Record stream := mkStream { sdata : list byte; spos : Z }.

Definition s_fits (n : Z) (s : stream) : bool := spos s + n <=? lenZ (sdata s).
Definition s_next (n : Z) (s : stream) : list byte := take (Z.to_nat n) (drop (Z.to_nat (spos s)) (sdata s)).
Definition s_err (n : Z) (s : stream) : bufErr :=
  if spos s =? lenZ (sdata s) then ErrEOF else ErrNotEnough n (lenZ (sdata s) - spos s).

Definition spec (o : op) (s : stream) : out * stream :=
  match o with
  | OWrite p | OWriteString p | OWriteBinary p => (OutNum (lenZ p), mkStream (sdata s ++ p) (spos s))
  | OPeek n => (if s_fits n s then OutBytes (s_next n s) else OutErr (s_err n s), s)
  | OSkip n => if s_fits n s then (OutUnit, mkStream (sdata s) (spos s + n)) else (OutErr (s_err n s), s)
  | ONext n | OReadString n | OReadBinary n => (OutBytes (s_next n s), mkStream (sdata s) (spos s + n))
  | ORead n =>
      let remain := lenZ (sdata s) - spos s in
      if remain =? 0 then (OutErr ErrEOF, s)
      else let n := if n <=? remain then n else remain in
           (OutBytes (s_next n s), mkStream (sdata s) (spos s + n))
  | OBytes => (OutBytes (sdata s), s)
  end.

(** What the caller has to respect: counts are not negative, [Next] and its relatives do
    not ask for more than there is, and the data stays below 2^62 bytes. *)
Definition op_ok (o : op) (s : stream) : Prop :=
  match o with
  | OWrite p | OWriteString p | OWriteBinary p => lenZ (sdata s) + lenZ p <= 2 ^ 62
  | OPeek n | OSkip n | ORead n => 0 <= n
  | ONext n | OReadString n | OReadBinary n => 0 <= n /\ s_fits n s = true
  | OBytes => True
  end.

Definition rel (st : bst) (s : stream) : Prop :=
  wf st /\ status (buf st) = Z.lor BitReadable BitWritable /\ data st = sdata s /\ readIdx (buf st) = spos s.

Lemma wp_result {A} (f : A -> out) (m : M bst bufErr A) st (P : out * bst -> Prop) :
  wp m st (fun r st' => P (match r with Ok a => f a | Err e => OutErr e | Panic => OutPanic end, st')) ->
  P (result f m st).
Proof. unfold wp, result. by destruct (m st) as [[] ?]. Qed.

Section refine.
Context (st : bst) (s : stream) (Hrel : rel st s).

Lemma rel_readable : readable (buf st) = true.
Proof. destruct Hrel as (_ & Hs & _). unfold readable. by rewrite Hs. Qed.

Lemma rel_writable : writable (buf st) = true.
Proof. destruct Hrel as (_ & Hs & _). unfold writable. by rewrite Hs. Qed.

Lemma rel_len : writeIdx (buf st) = lenZ (sdata s).
Proof. destruct Hrel as (Hw & _ & <- & _). by rewrite length_data. Qed.

Lemma rel_fits n : 0 <= n -> (fits n st <-> s_fits n s = true).
Proof.
  intros Hn. pose proof rel_len as Hl. destruct Hrel as (_ & _ & _ & Hr).
  unfold fits, s_fits. rewrite Z.leb_le, Hl, Hr. lia.
Qed.

Lemma rel_upcoming n : upcoming n st = s_next n s.
Proof. destruct Hrel as (_ & _ & Hd & Hr). unfold upcoming, s_next. by rewrite Hd, Hr. Qed.

Lemma rel_error n : read_error n st = s_err n s.
Proof. destruct Hrel as (_ & _ & _ & Hr). unfold read_error, s_err. by rewrite rel_len, Hr. Qed.

Lemma rel_advance n : fits n st -> rel (mkBst (mem st) (advance_read n (buf st))) (mkStream (sdata s) (spos s + n)).
Proof.
  intros Hf. destruct Hrel as (Hw & Hs & Hd & Hr). split_and!; [by apply wf_advance_read|done|done|simpl; lia].
Qed.

Lemma rel_append p : lenZ (sdata s) + lenZ p <= 2 ^ 62 ->
  wp (append_bytes (lenZ p) p) st (fun r st' => r = Ok tt /\ rel st' (mkStream (sdata s ++ p) (spos s))).
Proof.
  intros Hb. pose proof rel_writable as Hwr. pose proof rel_len as Hl.
  destruct Hrel as (Hw & Hs & Hd & Hr).
  eapply wp_mono; [apply append_bytes_spec; [done|done|lia]|].
  intros r st' (-> & Hw' & Hd' & Hr' & Hi' & Hs'). split; [done|]. split_and!; simpl; congruence || done.
Qed.

Lemma rel_Next n (Q : outcome bufErr (list byte) -> bst -> Prop) :
  0 <= n -> s_fits n s = true ->
  (forall st', rel st' (mkStream (sdata s) (spos s + n)) -> Q (Ok (s_next n s)) st') ->
  wp (s ← Next n; bytes_of s) st Q.
Proof.
  intros Hn Hf HQ. apply wp_bind. apply buf_Next_spec; [apply Hrel|apply rel_readable|done| |].
  - intros sl Hfit Hl. apply wp_gets. simpl. rewrite Hl, rel_upcoming. by apply HQ, rel_advance.
  - intros Hnf. exfalso. apply Hnf. by apply rel_fits.
Qed.

Lemma exec_refines o : op_ok o s ->
  exists st', exec o st = (fst (spec o s), st') /\ rel st' (snd (spec o s)).
Proof.
  intros Hok. pose proof rel_readable as Hr. pose proof rel_writable as Hwr.
  enough (let x := exec o st in x.1 = (spec o s).1 /\ rel x.2 (spec o s).2) as [E1 E2].
  { exists (exec o st).2. split; [|done]. rewrite <- E1. by destruct (exec o st). }
  destruct o as [p|p|p|n|n|n|n|n|n|]; simpl in *; apply wp_result.
  - unfold Write, WriteBinary. apply wp_if_writable; [done|]. apply wp_if_writable; [done|]. apply wp_bind.
    eapply wp_mono; [by apply rel_append|]. intros r st' [-> Hr']. by apply wp_ret.
  - unfold WriteString. apply wp_if_writable; [done|]. apply wp_bind.
    eapply wp_mono; [by apply rel_append|]. intros r st' [-> Hr']. by apply wp_ret.
  - unfold WriteBinary. apply wp_if_writable; [done|]. apply wp_bind.
    eapply wp_mono; [by apply rel_append|]. intros r st' [-> Hr']. by apply wp_ret.
  - apply wp_bind. apply Peek_spec; [apply Hrel|done|done| |].
    + intros sl Hf Hl. apply wp_gets. rewrite Hl, rel_upcoming. apply rel_fits in Hf; [|done]. by rewrite Hf.
    + intros Hf. rewrite rel_fits in Hf by done. destruct (s_fits n s); [done|]. by rewrite rel_error.
  - destruct Hok. by apply rel_Next.
  - unfold Skip. apply wp_if_readable; [done|]. apply wp_bind. apply readableCheck_spec; [apply Hrel|done|done| |].
    + intros Hf. apply wp_modify. pose proof (rel_advance n Hf). apply rel_fits in Hf; [|done]. by rewrite Hf.
    + intros Hf. rewrite rel_fits in Hf by done. destruct (s_fits n s); [done|].
      fold (read_error n st). by rewrite rel_error.
  - unfold Read. apply wp_if_readable; [done|]. apply wp_bind, wp_gets. unfold ReadableLen. rewrite Hr.
    pose proof rel_len as Hl. pose proof Hrel as (Hw & _ & _ & Hp). rewrite Hl, Hp.
    destruct (Z.eqb_spec (lenZ (sdata s) - spos s) 0); [by apply wp_throw|].
    assert (spos s <= lenZ (sdata s)) by (destruct Hw; lia).
    apply rel_Next; [destruct (Z.leb_spec n (lenZ (sdata s) - spos s)); lia| |done].
    unfold s_fits. apply Z.leb_le. destruct (Z.leb_spec n (lenZ (sdata s) - spos s)); lia.
  - destruct Hok. unfold ReadString. apply wp_if_readable; [done|]. by apply rel_Next.
  - destruct Hok. unfold ReadBinary. apply wp_if_readable; [done|]. by apply rel_Next.
  - unfold Bytes. apply wp_if_writable; [done|]. apply wp_bind, wp_gets, wp_bind. unfold cut. apply wp_bind, wp_gets.
    pose proof Hrel as (Hw & _ & Hd & _). pose proof Hw as []. rewrite subslice_fits by lia. apply wp_ret, wp_gets. simpl.
    rewrite load_cut by (done || lia). rewrite drop_0, Hd, Z.sub_0_r, rel_len.
    rewrite take_ge by (unfold lenZ; lia). done.
Qed.
End refine.

Fixpoint run (os : list op) (st : bst) : list out * bst :=
  match os with
  | [] => ([], st)
  | o :: os => let '(x, st) := exec o st in let '(xs, st) := run os st in (x :: xs, st)
  end.

Fixpoint spec_run (os : list op) (s : stream) : list out * stream :=
  match os with
  | [] => ([], s)
  | o :: os => let '(x, s) := spec o s in let '(xs, s) := spec_run os s in (x :: xs, s)
  end.

Fixpoint ops_ok (os : list op) (s : stream) : Prop :=
  match os with
  | [] => True
  | o :: os => op_ok o s /\ ops_ok os (snd (spec o s))
  end.

Lemma run_refines os : forall st s, rel st s -> ops_ok os s ->
  fst (run os st) = fst (spec_run os s) /\ rel (snd (run os st)) (snd (spec_run os s)).
Proof.
  induction os as [|o os IH]; intros st s Hr Hok; [done|]. destruct Hok as [Ho Hos]. simpl.
  destruct (exec_refines st s Hr o Ho) as (st' & -> & Hr'). destruct (spec o s) as [x s'] eqn:E. simpl in *.
  destruct (IH st' s' Hr' Hos) as [E1 E2]. destruct (run os st') as [xs st2], (spec_run os s') as [ys s2]. simpl in *.
  by rewrite E1.
Qed.

Lemma rel_new n m : rel (newReaderWriterByteBuffer n m) (mkStream [] 0).
Proof.
  unfold newReaderWriterByteBuffer, dirtmake. assert (1 <= estimate n) as He by (unfold estimate; destruct (Z.leb_spec n 0); lia).
  assert (array (m ++ [dirty (estimate n)]) (length m) = dirty (estimate n)) as Ha.
  { unfold array. by rewrite lookup_app_r, Nat.sub_diag by lia. }
  split_and!; [|done|done|done].
  split; simpl; rewrite ?Ha; unfold lenZ; rewrite ?length_app, ?length_dirty; simpl; lia.
Qed.

(** C40: The default buffer is a byte stream: for any sequence of Write, WriteString,
    WriteBinary, Peek, Skip, Read, Bytes, Next, ReadString and ReadBinary on a new
    reader-writer buffer, of any initial size, every result is the one of a list of bytes
    with a read position - in particular no growth of the array loses or reorders a byte,
    and Peek, Skip and Read past the end report EOF or the exact shortage - as long as
    counts are not negative, Next, ReadString and ReadBinary ask for no more than there is,
    and the data stays below 2^62 bytes. *)
Theorem bytebuf_is_a_stream n m os :
  ops_ok os (mkStream [] 0) ->
  fst (run os (newReaderWriterByteBuffer n m)) = fst (spec_run os (mkStream [] 0)) /\
  data (snd (run os (newReaderWriterByteBuffer n m))) = sdata (snd (spec_run os (mkStream [] 0))).
Proof.
  intros Hok. destruct (run_refines os (newReaderWriterByteBuffer n m) (mkStream [] 0) (rel_new n m) Hok) as [H1 H2].
  split; [done|]. apply H2.
Qed.

(** * Slices handed out *)

(** The slice [Malloc] returns is the newest part of the buffer: what its holder stores in
    it is what the buffer holds there. *)
Lemma Malloc_spec n st :
  wf st -> writable (buf st) = true -> 0 <= n -> writeIdx (buf st) + n <= 2 ^ 62 ->
  wp (Malloc n) st (fun r st' => exists s, r = Ok s /\ wf st' /\ s_len s = n /\
    s_arr s = s_arr (buff (buf st')) /\ s_off s = s_off (buff (buf st')) + writeIdx (buf st) /\
    writeIdx (buf st') = writeIdx (buf st) + n /\ take (Z.to_nat (writeIdx (buf st))) (data st') = data st).
Proof.
  intros Hw Hwr Hn Hb. unfold Malloc. apply wp_if_writable; [done|]. apply wp_bind.
  eapply wp_mono; [by apply ensureWritable_spec|].
  intros r st1 (-> & Hw1 & (Hr1 & Hi1 & Hs1 & Hd1 & _) & Hc1 & _). apply wp_bind, wp_gets, wp_bind, wp_modify.
  unfold cut. apply wp_bind, wp_gets. simpl. pose proof Hw1 as [].
  assert (writable (buf st1) = true) as Hwr1 by (unfold writable in *; by rewrite Hs1).
  destruct (w_write0 Hwr1) as [Hl1 _].
  rewrite subslice_fits by lia. apply wp_ret. eexists. split; [done|]. simpl.
  split_and!; try lia.
  - split; simpl; try done; lia.
  - rewrite <- Hd1. unfold data. simpl. rewrite take_take. f_equal. lia.
Qed.
End bytebuf.

Definition demo_ops : list op :=
  [OWrite (be_put 4 7); OPeek 2; ONext 4; OWriteString (be_put 2 9); ORead 10; ORead 1; OBytes; OPeek 1].

Lemma bytebuf_is_a_stream_witness :
  ops_ok demo_ops (mkStream [] 0) /\
  fst (run demo_ops (newReaderWriterByteBuffer 1 [])) = fst (spec_run demo_ops (mkStream [] 0)).
Proof.
  assert (ops_ok demo_ops (mkStream [] 0)) as Hok.
  { vm_compute. repeat split; try discriminate. }
  split; [exact Hok|]. apply (bytebuf_is_a_stream 1 [] demo_ops). exact Hok.
Defined.

(** A failed [Next] moves the read index all the same: the [Read] that follows slices the
    buffer backwards and panics. *)
Lemma read_after_failed_next_panics :
  fst (run [OWrite (be_put 2 7); ONext 3; ORead 1] (newReaderWriterByteBuffer 8 []))
  = [OutNum 2; OutErr (ErrNotEnough 3 2); OutPanic].
Proof. vm_compute. reflexivity. Qed.

(** A length field reserved by [Malloc] and filled after the buffer has grown is lost: the
    slice still points into the old array. *)
Lemma length_field_lost_on_growth :
  let '(r, st) := Malloc 4 (newWriterByteBuffer 4 []) in
  match r with
  | Ok field =>
      let st := snd (result OutNum (WriteBinary (be_put 4 1)) st) in
      let st := mkBst (store (mem st) field (be_put 4 4)) (buf st) in
      fst (result OutBytes Bytes st) = OutBytes (be_put 4 0 ++ be_put 4 1)
  | _ => False
  end.
Proof. vm_compute. reflexivity. Qed.
