(* ===== verification/SkipDecoder.v ===== *)
(** The skip decoder of the Thrift codec (src/pkg/remote/codec/thrift/codec_apache.go,
    [netpollSkipDecoder]): it finds the length of a Thrift struct of the binary protocol
    in a netpoll reader without consuming it, so that the struct can be taken out whole.

    The bytes a value may have are given by a grammar, [encodes]; the theorem says that the
    decoder accepts exactly the grammar, up to the nesting limit. *)

From S2P Require Import Prelude.

(** * The reader

    netpoll.Reader: [Len] bytes have arrived, [Peek n] waits for more.  [stream] is all the
    connection will deliver before it ends. *)
Class NetpollReader (R : Type) := {
  r_Len : R -> Z;
  r_Peek : Z -> R -> option (list byte) * R;
  stream : R -> list byte;
  r_Len_arrived r : 0 <= r_Len r <= lenZ (stream r);
  r_Peek_spec n r : 0 <= n ->
    fst (r_Peek n r) = (if n <=? lenZ (stream r) then Some (take (Z.to_nat n) (stream r)) else None)
    /\ stream (snd (r_Peek n r)) = stream r
}.

Inductive skipErr := EReader | EDepthLimit | EDataLength | EUnknownType (t : Z) | OutOfFuel.

(** thrift.TType *)
Definition STOP : Z := 0.
Definition BOOL : Z := 2.
Definition BYTE : Z := 3.
Definition DOUBLE : Z := 4.
Definition I16 : Z := 6.
Definition I32 : Z := 8.
Definition I64 : Z := 10.
Definition STRING : Z := 11.
Definition STRUCT : Z := 12.
Definition MAP : Z := 13.
Definition SET : Z := 14.
Definition LIST : Z := 15.

Definition typeToSize (t : Z) : Z :=
  if (t =? BOOL) || (t =? BYTE) then 1
  else if t =? DOUBLE then 8
  else if t =? I16 then 2
  else if t =? I32 then 4
  else if t =? I64 then 8
  else 0.

Definition defaultRecursionDepth : nat := 64.

Section decoder.
Context {R : Type} `{!NetpollReader R}.

Record netpollSkipDecoder := mkSD { n_ : Z; b_ : list byte; r_ : R }.

Abbreviation SM := (M netpollSkipDecoder skipErr).

Definition newNetpollSkipDecoder (r : R) : netpollSkipDecoder := mkSD 0 [] r.

Definition skipnSlow (n : Z) : SM unit := fun p =>
  let sz := n_ p + n in
  let sz := if sz <? r_Len (r_ p) then r_Len (r_ p) else sz in
  match r_Peek sz (r_ p) with
  | (None, r) => (Err EReader, mkSD (n_ p) (b_ p) r)
  | (Some b, r) => (Ok tt, mkSD (n_ p + n) b r)
  end.

Definition skipn (n : Z) : SM unit := fun p =>
  if n_ p + n <=? lenZ (b_ p) then (Ok tt, mkSD (n_ p + n) (b_ p) (r_ p)) else skipnSlow n p.

Definition lastbyte : SM Z := fun p =>
  match at_ (b_ p) (n_ p - 1) with Some b => (Ok (byteZ b), p) | None => (Panic, p) end.

(** [p.b[p.n-n:]] and the [n] bytes of it the callers look at. *)
Definition lastbytes (n : Z) : SM (list byte) := fun p =>
  if bool_decide (0 <= n_ p - n) && (n_ p <=? lenZ (b_ p))
  then (Ok (take (Z.to_nat n) (drop (Z.to_nat (n_ p - n)) (b_ p))), p) else (Panic, p).

(** The loop over the fields of a struct; [rec] skips a value of a type. *)
Fixpoint skip_fields (rec : Z -> SM unit) (fuel : nat) : SM unit :=
  match fuel with
  | O => throw OutOfFuel
  | S fuel =>
      skipn 1;;
      tp ← lastbyte;
      if tp =? STOP then mret tt
      else if 0 <? typeToSize tp then skipn (2 + typeToSize tp);; skip_fields rec fuel
      else skipn 2;; rec tp;; skip_fields rec fuel
  end.

(** A key, a value or an element: by its size where the type has one. *)
Definition skip_item (rec : Z -> SM unit) (t : Z) : SM unit :=
  if 0 <? typeToSize t then skipn (typeToSize t) else rec t.

(** [for i := int32(0); i < sz; i++ { body }], left at the first error. *)
Fixpoint skip_times (body : SM unit) (i sz : Z) (fuel : nat) : SM unit :=
  if i <? sz then
    match fuel with
    | O => throw OutOfFuel
    | S fuel => body;; skip_times body (i + 1) sz fuel
    end
  else mret tt.

Definition skip_string : SM unit :=
  skipn 4;;
  l ← lastbytes 4;
  let sz := i32 (be_get l) in
  if sz <? 0 then throw EDataLength else skipn sz.

Definition skip_map (rec : Z -> SM unit) (fuel : nat) : SM unit :=
  skipn 6;;
  b ← lastbytes 6;
  let kt := be_get (take 1 b) in
  let vt := be_get (take 1 (drop 1 b)) in
  let sz := i32 (be_get (drop 2 b)) in
  if sz <? 0 then throw EDataLength
  else if (0 <? typeToSize kt) && (0 <? typeToSize vt) then skipn (sz * (typeToSize kt + typeToSize vt))
  else skip_times (skip_item rec kt;; skip_item rec vt) 0 sz fuel.

Definition skip_list (rec : Z -> SM unit) (fuel : nat) : SM unit :=
  skipn 5;;
  b ← lastbytes 5;
  let vt := be_get (take 1 b) in
  let sz := i32 (be_get (drop 1 b)) in
  if sz <? 0 then throw EDataLength
  else if 0 <? typeToSize vt then skipn (sz * typeToSize vt)
  else skip_times (rec vt) 0 sz fuel.

(** Every turn of a loop skips at least a byte: the fuel is one more than the bytes of
    the stream. *)
Fixpoint skipType (fuel : nat) (maxdepth : nat) (t : Z) : SM unit :=
  match maxdepth with
  | O => throw EDepthLimit
  | S maxdepth =>
      if 0 <? typeToSize t then skipn (typeToSize t)
      else if t =? STRING then skip_string
      else if t =? STRUCT then skip_fields (skipType fuel maxdepth) fuel
      else if t =? MAP then skip_map (skipType fuel maxdepth) fuel
      else if (t =? SET) || (t =? LIST) then skip_list (skipType fuel maxdepth) fuel
      else throw (EUnknownType t)
  end.

Definition SkipStruct : SM Z := fun p =>
  (skipType (S (length (stream (r_ p)))) defaultRecursionDepth STRUCT;; gets n_) p.
End decoder.

Arguments netpollSkipDecoder : clear implicits.

(** * The binary protocol

    [encodes d t w]: [w] is the encoding of a value of type [t] whose values without a
    fixed size nest at most [d] deep.  [fields] are a struct's fields with the stop byte,
    [elems k] are [k] values in sequence, one after the other of the types [ts]. *)
Inductive encodes : nat -> Z -> list byte -> Prop :=
| enc_fixed d t w : 0 < typeToSize t -> lenZ w = typeToSize t -> encodes d t w
| enc_string d w : lenZ w < 2 ^ 31 -> encodes (S d) STRING (be_put 4 (lenZ w) ++ w)
| enc_struct d w : fields d w -> encodes (S d) STRUCT w
| enc_map d (kt vt : byte) k w :
    Z.of_nat k < 2 ^ 31 -> elems d [byteZ kt; byteZ vt] k w ->
    encodes (S d) MAP (kt :: vt :: be_put 4 (Z.of_nat k) ++ w)
| enc_list d t (vt : byte) k w :
    t = SET \/ t = LIST -> Z.of_nat k < 2 ^ 31 -> elems d [byteZ vt] k w ->
    encodes (S d) t (vt :: be_put 4 (Z.of_nat k) ++ w)
with fields : nat -> list byte -> Prop :=
| fields_stop d : fields d [Byte.x00]
| fields_cons d (t : byte) id v w :
    byteZ t <> STOP -> length id = 2%nat -> encodes d (byteZ t) v -> fields d w ->
    fields d (t :: id ++ v ++ w)
with elems : nat -> list Z -> nat -> list byte -> Prop :=
| elems_nil d ts : elems d ts 0 []
| elems_cons d ts k v w : items d ts v -> elems d ts k w -> elems d ts (S k) (v ++ w)
with items : nat -> list Z -> list byte -> Prop :=
| items_nil d : items d [] []
| items_cons d t ts v w : encodes d t v -> items d ts w -> items d (t :: ts) (v ++ w).

(** * The decoder against the grammar *)

Section proofs.
Context {R : Type} `{!NetpollReader R}.
Implicit Types p : netpollSkipDecoder R.

Definition inv p : Prop :=
  0 <= n_ p <= lenZ (b_ p) /\ b_ p = take (length (b_ p)) (stream (r_ p)).

(** What is still to be skipped. *)
Definition rest p : list byte := drop (Z.to_nat (n_ p)) (stream (r_ p)).

(** The decoder has moved over [w]. *)
Definition step p (w : list byte) p' : Prop :=
  inv p' /\ n_ p' = n_ p + lenZ w /\ rest p = w ++ rest p' /\ stream (r_ p') = stream (r_ p).

Lemma step_trans p1 p2 p3 w1 w2 : step p1 w1 p2 -> step p2 w2 p3 -> step p1 (w1 ++ w2) p3.
Proof.
  intros (_ & N1 & R1 & S1) (I2 & N2 & R2 & S2). repeat split; [apply I2|apply I2|apply I2| | |congruence].
  - unfold lenZ in *. rewrite length_app. lia.
  - by rewrite R1, R2, app_assoc.
Qed.

Lemma step_refl p : inv p -> step p [] p.
Proof. intros Hi. repeat split; try apply Hi; unfold lenZ; simpl; lia. Qed.

Lemma step_inv p w p' : step p w p' -> inv p'.
Proof. apply proj1. Qed.

Lemma step_rest p w p' : step p w p' -> length (rest p) = (length w + length (rest p'))%nat.
Proof. intros (_ & _ & -> & _). apply length_app. Qed.

Lemma inv_bound p : inv p -> n_ p <= lenZ (stream (r_ p)).
Proof.
  intros [Hn Hb]. assert (length (b_ p) <= length (stream (r_ p)))%nat; [|unfold lenZ in *; lia].
  rewrite Hb at 1. rewrite length_take. lia.
Qed.

Lemma length_rest p : inv p -> lenZ (rest p) = lenZ (stream (r_ p)) - n_ p.
Proof. intros Hi. pose proof (inv_bound p Hi). destruct Hi. unfold rest, lenZ in *. rewrite length_drop. lia. Qed.

(** Moving [k] bytes on, with a window at least that long. *)
Lemma move_step p k b r :
  inv p -> 0 <= k -> k <= lenZ (rest p) ->
  n_ p + k <= lenZ b -> b = take (length b) (stream r) -> stream r = stream (r_ p) ->
  step p (take (Z.to_nat k) (rest p)) (mkSD (n_ p + k) b r).
Proof.
  intros Hi Hk Hr Hb Hw Hs. pose proof Hi as [Hn _].
  assert (lenZ (take (Z.to_nat k) (rest p)) = k) as L by (unfold lenZ in *; rewrite length_take; lia).
  repeat split; simpl; [lia|lia|done|lia| |done].
  rewrite <- (take_drop (Z.to_nat k) (rest p)) at 1. f_equal.
  unfold rest. cbn [n_ r_]. rewrite drop_drop, Hs. f_equal. lia.
Qed.

Lemma skipn_spec k p (Q : outcome skipErr unit -> netpollSkipDecoder R -> Prop) :
  inv p -> 0 <= k ->
  (forall w p', step p w p' -> lenZ w = k -> Q (Ok tt) p') ->
  (forall p', lenZ (rest p) < k -> Q (Err EReader) p') ->
  wp (skipn k) p Q.
Proof.
  intros Hi Hk HOk HErr. pose proof (length_rest p Hi) as L. pose proof Hi as [Hn Hb].
  assert (forall b r, k <= lenZ (rest p) -> n_ p + k <= lenZ b -> b = take (length b) (stream r) ->
    stream r = stream (r_ p) -> Q (Ok tt) (mkSD (n_ p + k) b r)) as Go.
  { intros b r Hr Hl Hw Hs. apply (HOk (take (Z.to_nat k) (rest p))).
    - by apply move_step.
    - unfold lenZ in *. rewrite length_take. lia. }
  unfold wp, skipn. destruct (_ <=? _) eqn:E; bool_to_prop; simpl.
  - apply Go; try done. pose proof (inv_bound p Hi).
    assert (lenZ (b_ p) <= lenZ (stream (r_ p))) by (rewrite Hb; unfold lenZ; rewrite length_take; lia). lia.
  - unfold skipnSlow. set (sz := if _ <? _ then _ else _).
    pose proof (r_Len_arrived (r_ p)) as A.
    assert (n_ p + k <= sz /\ (sz <= lenZ (stream (r_ p)) \/ sz = n_ p + k)) as [S1 S2]
      by (subst sz; destruct (_ <? _) eqn:?; bool_to_prop; lia).
    destruct (r_Peek_spec sz (r_ p) ltac:(lia)) as [P1 P2].
    destruct (r_Peek sz (r_ p)) as [o r]. cbn [fst snd] in *. subst o.
    destruct (sz <=? _) eqn:F; bool_to_prop; simpl; [|apply HErr; lia].
    apply Go; [lia| | |done].
    + unfold lenZ in *. rewrite length_take. lia.
    + rewrite P2, length_take. f_equal. unfold lenZ in *. lia.
Qed.

(** After moving over [w], the last bytes of the window are [w]. *)
Lemma window_last p w p' :
  inv p -> step p w p' -> take (length w) (drop (Z.to_nat (n_ p)) (b_ p')) = w.
Proof.
  intros [Hn _] ([[? Hl] Hb] & N & Hr & Hs).
  assert (drop (Z.to_nat (n_ p)) (stream (r_ p')) = w ++ rest p') as E by (rewrite Hs; exact Hr).
  rewrite Hb. rewrite skipn_firstn_comm, E, take_take.
  rewrite Nat.min_l by (unfold lenZ in *; lia). by rewrite take_app_length.
Qed.

Lemma wp_lastbytes {A} (w : list byte) p p' k (f : list byte -> M (netpollSkipDecoder R) skipErr A) Q :
  inv p -> step p w p' -> lenZ w = k -> wp (f w) p' Q -> wp (lastbytes k ≫= f) p' Q.
Proof.
  intros Hi Hs <- HQ. apply wp_bind. unfold wp at 1, lastbytes.
  pose proof Hs as (Hi' & N & _ & _). pose proof Hi as [? _]. pose proof Hi' as [? _].
  rewrite bool_decide_true by lia. rewrite (proj2 (Z.leb_le _ _)) by lia. simpl.
  replace (Z.to_nat (n_ p' - lenZ w)) with (Z.to_nat (n_ p)) by lia.
  replace (Z.to_nat (lenZ w)) with (length w) by (unfold lenZ; lia).
  by rewrite (window_last p w p').
Qed.

Lemma wp_lastbyte {A} (c : byte) p p' (f : Z -> M (netpollSkipDecoder R) skipErr A) Q :
  inv p -> step p [c] p' -> wp (f (byteZ c)) p' Q -> wp (lastbyte ≫= f) p' Q.
Proof.
  intros Hi Hs HQ. apply wp_bind. unfold wp at 1, lastbyte.
  pose proof (window_last p [c] p' Hi Hs) as W. pose proof Hs as (_ & N & _ & _). pose proof Hi as [? _].
  change (lenZ [c]) with 1 in N. rewrite at_lookup by lia.
  replace (Z.to_nat (n_ p' - 1)) with (Z.to_nat (n_ p)) by lia.
  assert (b_ p' !! Z.to_nat (n_ p) = Some c) as ->; [|done].
  rewrite <- (Nat.add_0_r (Z.to_nat (n_ p))), <- lookup_drop.
  destruct (drop _ (b_ p')) as [|x l]; [done|]. simpl in W. by injection W as ->.
Qed.

(** ** What the grammar has, the decoder skips *)

Abbreviation SM := (M (netpollSkipDecoder R) skipErr).

Definition skips (m : SM unit) (w : list byte) : Prop :=
  forall p z, inv p -> rest p = w ++ z -> wp m p (fun r p' => r = Ok tt /\ step p w p').

Lemma step_prefix p w p' v z : step p w p' -> rest p = v ++ z -> length w = length v -> w = v.
Proof. intros (_ & _ & E & _) E' L. rewrite E in E'. by apply app_inj_1 in E' as [-> _]. Qed.

Lemma skipn_skips w : skips (skipn (lenZ w)) w.
Proof.
  intros p z Hi Hr. apply skipn_spec; [done|unfold lenZ; lia| |].
  - intros w' p' Hs L. rewrite (step_prefix _ _ _ _ _ Hs Hr) in Hs by (unfold lenZ in L; lia). done.
  - intros p'. rewrite Hr. unfold lenZ. rewrite length_app. lia.
Qed.

Lemma skips_bind m1 m2 w1 w2 : skips m1 w1 -> skips m2 w2 -> skips (m1;; m2) (w1 ++ w2).
Proof.
  intros H1 H2 p z Hi Hr. rewrite <- app_assoc in Hr. apply wp_bind.
  eapply wp_mono; [by eapply H1|]. intros r p1 [-> Hs]. 
  eapply wp_mono; [apply (H2 p1 z)|].
  - eapply step_inv, Hs.
  - destruct Hs as (_ & _ & E & _). rewrite Hr in E. by apply app_inv_head in E.
  - intros r p2 [-> Hs2]. eauto using step_trans.
Qed.

Lemma skips_look k w1 w2 (f : list byte -> SM unit) :
  lenZ w1 = k -> skips (f w1) w2 -> skips (skipn k;; l ← lastbytes k; f l) (w1 ++ w2).
Proof.
  intros <- Hf p z Hi Hr. apply wp_bind. rewrite <- app_assoc in Hr.
  eapply wp_mono; [by eapply skipn_skips|]. intros r p1 [-> Hs].
  apply (wp_lastbytes w1 p); [done|done|done|].
  eapply wp_mono; [apply (Hf p1 z)|].
  - eapply step_inv, Hs.
  - destruct Hs as (_ & _ & E & _). rewrite Hr in E. by apply app_inv_head in E.
  - intros r p2 [-> Hs2]. eauto using step_trans.
Qed.

Lemma skips_look1 c w2 (f : Z -> SM unit) :
  skips (f (byteZ c)) w2 -> skips (skipn 1;; t ← lastbyte; f t) (c :: w2).
Proof.
  intros Hf p z Hi Hr. apply wp_bind. change (c :: w2) with ([c] ++ w2) in *. rewrite <- app_assoc in Hr.
  eapply wp_mono; [by eapply (skipn_skips [c])|]. intros r p1 [-> Hs].
  apply (wp_lastbyte c p); [done|done|].
  eapply wp_mono; [apply (Hf p1 z)|].
  - eapply step_inv, Hs.
  - destruct Hs as (_ & _ & E & _). rewrite Hr in E. by apply app_inv_head in E.
  - intros r p2 [-> Hs2]. eauto using step_trans.
Qed.

Lemma skips_ret : skips (mret tt) [].
Proof. intros p z Hi Hr. apply wp_ret. auto using step_refl. Qed.

Lemma skips_nil_r m w : skips m w -> skips (m;; mret tt) w.
Proof. intros Hm. rewrite <- (app_nil_r w). apply skips_bind; [done|apply skips_ret]. Qed.

(** The sizes of values whose types have one. *)
Definition fixed (ts : list Z) : Prop := Forall (fun t => 0 < typeToSize t) ts.

Lemma fixed_encodes d t w : 0 < typeToSize t -> encodes d t w -> lenZ w = typeToSize t.
Proof.
  intros Ht Hw. inversion Hw as [| | | |? ? ? ? ? [-> | ->]]; subst; done.
Qed.

Lemma fixed_items d ts w : fixed ts -> items d ts w -> lenZ w = sumZ (typeToSize <$> ts).
Proof.
  intros Hf. revert w. induction Hf as [|t ts Ht Hf IH]; intros w Hw; inversion Hw; subst; [done|].
  rewrite fmap_cons, sumZ_cons, <- (IH w0) by done.
  erewrite <- fixed_encodes; [|done|done]. unfold lenZ. rewrite length_app. lia.
Qed.

Lemma fixed_elems d ts k w :
  fixed ts -> elems d ts k w -> lenZ w = Z.of_nat k * sumZ (typeToSize <$> ts).
Proof.
  intros Hf. revert w. induction k as [|k IH]; intros w Hw; inversion Hw; subst; [done|].
  specialize (IH w0 ltac:(done)). pose proof (fixed_items _ _ _ Hf ltac:(done)).
  unfold lenZ in *. rewrite length_app. lia.
Qed.

Lemma skip_item_slow rec t : typeToSize t <= 0 -> skip_item rec t = (rec t : SM unit).
Proof. intros Ht. unfold skip_item. by rewrite (proj2 (Z.ltb_ge _ _)). Qed.

Lemma size_field k : 0 <= k < 2 ^ 31 -> i32 (be_get (be_put 4 k)) = k.
Proof. intros Hk. rewrite be_get_put_id by (simpl; lia). apply i32_id. lia. Qed.

Lemma be_get_1 c : be_get [c] = byteZ c.
Proof. done. Qed.

Lemma size_not_negative k (A B : SM unit) : 0 <= k -> (if k <? 0 then A else B) = B.
Proof. intros Hk. by rewrite (proj2 (Z.ltb_ge _ _)). Qed.

Lemma skips_times d ts k w fuel (body : SM unit) :
  (forall v, length v <= length w -> items d ts v -> skips body v)%nat ->
  elems d ts k w -> (k <= fuel)%nat ->
  forall i, skips (skip_times body i (i + Z.of_nat k) fuel) w.
Proof.
  intros Hb Hw. revert fuel. revert Hb. induction Hw as [|d ts k v w Hv Hw IH]; intros Hb fuel Hf i.
  - destruct fuel; simpl; rewrite Z.add_0_r, Z.ltb_irrefl; apply skips_ret.
  - destruct fuel as [|fuel]; [lia|]. cbn [skip_times]. rewrite (proj2 (Z.ltb_lt _ _)) by lia.
    rewrite length_app in Hb.
    apply skips_bind; [apply Hb; [lia|done]|].
    replace (i + Z.of_nat (S k)) with (i + 1 + Z.of_nat k) by lia. apply IH; [|lia].
    intros v' L. apply Hb. lia.
Qed.

Lemma fields_nonempty d w : fields d w -> (1 <= length w)%nat.
Proof. intros []; simpl; lia. Qed.

Lemma encodes_nonempty d t w : encodes d t w -> (1 <= length w)%nat.
Proof.
  intros [d' t' w' Ht L|d' w' Hl|d' w' Hw|d' kt vt k w' Hk Hw|d' t' vt k w' Ht Hk Hw].
  - unfold lenZ in L. lia.
  - rewrite length_app, length_be_put. lia.
  - by eapply fields_nonempty.
  - simpl. lia.
  - simpl. lia.
Qed.

Lemma items_nonempty d ts w : ts <> [] -> items d ts w -> (1 <= length w)%nat.
Proof.
  intros Ht Hw. inversion Hw as [|? ? ? ? ? Hv]; subst; [done|]. rewrite length_app.
  pose proof (encodes_nonempty _ _ _ Hv). lia.
Qed.

Lemma elems_length d ts k w : ts <> [] -> elems d ts k w -> (k <= length w)%nat.
Proof.
  intros Ht. induction 1 as [|d ts k v w Hv Hw IH]; simpl; [lia|]. rewrite length_app.
  pose proof (items_nonempty _ _ _ Ht Hv). specialize (IH Ht). lia.
Qed.

Section level.
Variables (fuel d : nat).
Hypothesis IH : forall t w, encodes d t w -> (length w < fuel)%nat -> skips (skip_item (skipType fuel d) t) w.

Lemma fields_skips w fuel' :
  fields d w -> (length w < fuel)%nat -> (length w <= fuel')%nat -> skips (skip_fields (skipType fuel d) fuel') w.
Proof.
  intros Hw. remember d as d' eqn:Ed in Hw. revert fuel'.
  induction Hw as [d'|d' t id v w Ht Hid Hv Hw IHw]; subst d'; intros fuel' Hf Hf'.
  - destruct fuel'; [simpl in Hf'; lia|]. simpl. apply skips_look1. apply skips_ret.
  - specialize (IHw eq_refl). destruct fuel' as [|fuel']; [simpl in Hf'; lia|]. cbn [skip_fields].
    cbn [length] in Hf, Hf'. rewrite !length_app in Hf, Hf'.
    apply skips_look1. rewrite (proj2 (Z.eqb_neq _ _)) by done.
    assert (length v < fuel)%nat as Hlv by lia. specialize (IH _ _ Hv Hlv). unfold skip_item in IH.
    destruct (0 <? typeToSize (byteZ t)) eqn:E; bool_to_prop.
    + rewrite app_assoc. apply skips_bind; [|apply IHw; lia].
      rewrite <- (fixed_encodes d _ v E Hv).
      replace (2 + lenZ v) with (lenZ (id ++ v)) by (unfold lenZ; rewrite length_app; lia). apply skipn_skips.
    + apply skips_bind; [|apply skips_bind; [done|apply IHw; lia]].
      replace 2 with (lenZ id) by (unfold lenZ; lia). apply skipn_skips.
Qed.

Lemma pair_skips kt vt v :
  items d [kt; vt] v -> (length v < fuel)%nat ->
  skips (skip_item (skipType fuel d) kt;; skip_item (skipType fuel d) vt) v.
Proof.
  intros Hv Hl. inversion Hv as [|? ? ? v1 w1 H1 H2]; subst. inversion H2 as [|? ? ? v2 w2 H3 H4]; subst.
  inversion H4; subst. rewrite app_nil_r in *. rewrite length_app in Hl. apply skips_bind; apply IH; try done; lia.
Qed.

Lemma one_skips vt v :
  typeToSize vt <= 0 -> items d [vt] v -> (length v < fuel)%nat -> skips (skipType fuel d vt) v.
Proof.
  intros Ht Hv Hl. inversion Hv as [|? ? ? v1 w1 H1 H2]; subst. inversion H2; subst.
  rewrite app_nil_r in *. rewrite <- (skip_item_slow (skipType fuel d)) by done. by apply IH.
Qed.

Lemma map_skips kt vt k w :
  Z.of_nat k < 2 ^ 31 -> elems d [byteZ kt; byteZ vt] k w -> (length w < fuel)%nat ->
  skips (skip_map (skipType fuel d) fuel) (kt :: vt :: be_put 4 (Z.of_nat k) ++ w).
Proof.
  intros Hk Hw Hf. unfold skip_map.
  change (kt :: vt :: be_put 4 (Z.of_nat k) ++ w) with ((kt :: vt :: be_put 4 (Z.of_nat k)) ++ w).
  apply skips_look; [done|]. cbn [take drop]. rewrite ?take_0, ?drop_0, !be_get_1. cbn zeta.
  rewrite size_field, size_not_negative by lia.
  destruct ((0 <? typeToSize (byteZ kt)) && _) eqn:E.
  - bool_to_prop. replace (typeToSize (byteZ kt) + typeToSize (byteZ vt))
      with (sumZ (typeToSize <$> [byteZ kt; byteZ vt])) by (simpl; lia).
    erewrite <- fixed_elems; [apply skipn_skips| |done]. repeat constructor; done.
  - rewrite <- (Z.add_0_l (Z.of_nat k)). eapply skips_times; [|done|].
    + intros v Hl Hv. apply pair_skips; [done|lia].
    + enough (k <= length w)%nat by lia. eapply elems_length, Hw. discriminate.
Qed.

Lemma list_skips vt k w :
  Z.of_nat k < 2 ^ 31 -> elems d [byteZ vt] k w -> (length w < fuel)%nat ->
  skips (skip_list (skipType fuel d) fuel) (vt :: be_put 4 (Z.of_nat k) ++ w).
Proof.
  intros Hk Hw Hf. unfold skip_list.
  change (vt :: be_put 4 (Z.of_nat k) ++ w) with ((vt :: be_put 4 (Z.of_nat k)) ++ w).
  apply skips_look; [done|]. cbn [take drop]. rewrite ?take_0, ?drop_0, !be_get_1. cbn zeta.
  rewrite size_field, size_not_negative by lia.
  destruct (0 <? typeToSize (byteZ vt)) eqn:E; bool_to_prop.
  - replace (typeToSize (byteZ vt)) with (sumZ (typeToSize <$> [byteZ vt])) by (simpl; lia).
    erewrite <- fixed_elems; [apply skipn_skips| |done]. repeat constructor; done.
  - rewrite <- (Z.add_0_l (Z.of_nat k)). eapply skips_times; [|done|].
    + intros v Hl Hv. apply one_skips; [done|done|lia].
    + enough (k <= length w)%nat by lia. eapply elems_length, Hw. discriminate.
Qed.
End level.

Lemma encodes_skips fuel d t w :
  encodes d t w -> (length w < fuel)%nat -> skips (skip_item (skipType fuel d) t) w.
Proof.
  revert t w. induction d as [|d IH]; intros t w Hw Hf.
  - inversion Hw; subst. unfold skip_item. rewrite (proj2 (Z.ltb_lt _ _)) by done.
    replace (typeToSize t) with (lenZ w). apply skipn_skips.
  - inversion Hw as [? ? ? Ht L|? w' Hl|? w' Hw'|? kt vt k w' Hk Hw'|? ? vt k w' Ht Hk Hw']; subst.
    + unfold skip_item. rewrite (proj2 (Z.ltb_lt _ _)) by done. rewrite <- L. apply skipn_skips.
    + change (skips skip_string (be_put 4 (lenZ w') ++ w')). apply skips_look; [done|].
      cbn zeta. rewrite size_field, size_not_negative by (unfold lenZ in *; lia). apply skipn_skips.
    + change (skips (skip_fields (skipType fuel d) fuel) w). apply fields_skips; [done|done|lia|lia].
    + change (skips (skip_map (skipType fuel d) fuel) (kt :: vt :: be_put 4 (Z.of_nat k) ++ w')).
      apply map_skips; try done. cbn [length] in Hf. rewrite length_app in Hf. lia.
    + assert (skip_item (skipType fuel (S d)) t = skip_list (skipType fuel d) fuel) as -> by (by destruct Ht as [-> | ->]).
      apply list_skips; try done. cbn [length] in Hf. rewrite length_app in Hf. lia.
Qed.

(** ** What the decoder skips, the grammar has

    [finds F G m]: with fewer than [F] bytes left, [m] fails for a reason other than the
    fuel or moves over a string of [G]. *)
Definition finds (F : nat) (G : list byte -> Prop) (m : SM unit) : Prop :=
  forall p, inv p -> (length (rest p) < F)%nat ->
  wp m p (fun r p' => match r with
    | Ok _ => exists w, G w /\ step p w p'
    | Err e => e <> OutOfFuel
    | Panic => False
    end).

Lemma finds_mono F F' (G G' : list byte -> Prop) m :
  (F' <= F)%nat -> (forall w, G w -> G' w) -> finds F G m -> finds F' G' m.
Proof.
  intros HF HG Hm p Hi Hp. eapply wp_mono; [apply Hm; [done|lia]|].
  intros [a|e|] p'; [|done|done]. intros (w & Hw & Hs). eauto.
Qed.

Lemma finds_impl F (G G' : list byte -> Prop) m :
  (forall w, G w -> G' w) -> finds F G m -> finds F G' m.
Proof. intros HG. by apply finds_mono. Qed.

Lemma finds_skipn F k : 0 <= k -> finds F (fun w => lenZ w = k) (skipn k).
Proof. intros Hk p Hi _. apply skipn_spec; [done|done| |done]. eauto. Qed.

Lemma finds_throw F G e : e <> OutOfFuel -> finds F G (throw e).
Proof. intros He p _ _. by apply wp_throw. Qed.

Lemma finds_ret F : finds F (fun w => w = []) (mret tt).
Proof. intros p Hi _. apply wp_ret. exists []. auto using step_refl. Qed.

Definition seqg (G1 : list byte -> Prop) (G2 : list byte -> list byte -> Prop) (w : list byte) : Prop :=
  exists w1 w2, w = w1 ++ w2 /\ G1 w1 /\ G2 w1 w2.

(** The second part runs with less fuel where the first is sure to move. *)
Lemma finds_bind F F' (G1 G2 : list byte -> Prop) m1 m2 :
  (forall w, G1 w -> F <= length w + F')%nat ->
  finds F G1 m1 -> finds F' G2 m2 -> finds F (seqg G1 (fun _ => G2)) (m1;; m2).
Proof.
  intros HF H1 H2 p Hi Hp. apply wp_bind. eapply wp_mono; [by apply H1|].
  intros [[]|e|] p1; [|done|done]. intros (w1 & Hw1 & Hs1).
  eapply wp_mono; [apply H2|].
  - by eapply step_inv.
  - pose proof (step_rest _ _ _ Hs1). specialize (HF _ Hw1). lia.
  - intros [[]|e|] p2; [|done|done]. intros (w2 & Hw2 & Hs2).
    exists (w1 ++ w2). split; [by exists w1, w2|]. by eapply step_trans.
Qed.

Lemma finds_look F k (G : list byte -> list byte -> Prop) (f : list byte -> SM unit) :
  0 <= k -> (forall l, lenZ l = k -> finds F (G l) (f l)) ->
  finds F (seqg (fun l => lenZ l = k) G) (skipn k;; l ← lastbytes k; f l).
Proof.
  intros Hk Hf p Hi Hp. apply wp_bind. apply skipn_spec; [done|done| |done].
  intros l p1 Hs1 Hl. apply (wp_lastbytes l p); [done|done|done|].
  eapply wp_mono; [apply (Hf l Hl)|].
  - by eapply step_inv.
  - pose proof (step_rest _ _ _ Hs1). lia.
  - intros [[]|e|] p2; [|done|done]. intros (w2 & Hw2 & Hs2).
    exists (l ++ w2). split; [by exists l, w2|]. by eapply step_trans.
Qed.

Lemma finds_look1 F (G : byte -> list byte -> Prop) (f : Z -> SM unit) :
  (forall c, finds F (G c) (f (byteZ c))) ->
  finds (S F) (fun w => exists c w', w = c :: w' /\ G c w') (skipn 1;; t ← lastbyte; f t).
Proof.
  intros Hf p Hi Hp. apply wp_bind. apply skipn_spec; [done|done| |done].
  intros l p1 Hs1 Hl. destruct l as [|c [|]]; [done| |unfold lenZ in Hl; simpl in Hl; lia].
  apply (wp_lastbyte c p); [done|done|].
  eapply wp_mono; [apply (Hf c)|].
  - by eapply step_inv.
  - pose proof (step_rest _ _ _ Hs1) as L. simpl in L. lia.
  - intros [[]|e|] p2; [|done|done]. intros (w2 & Hw2 & Hs2).
    exists (c :: w2). split; [by exists c, w2|]. change (c :: w2) with ([c] ++ w2). by eapply step_trans.
Qed.

Lemma fixed_sum ts : fixed ts -> 0 <= sumZ (typeToSize <$> ts).
Proof. intros Hf. apply sumZ_nonneg, Forall_fmap. eapply Forall_impl; [apply Hf|]. simpl. lia. Qed.

Lemma fixed_items_split d ts w : fixed ts -> lenZ w = sumZ (typeToSize <$> ts) -> items d ts w.
Proof.
  intros Hf. revert w. induction Hf as [|t ts Ht Hf IH]; intros w L.
  - destruct w; [constructor|unfold lenZ in L; simpl in L; lia].
  - rewrite fmap_cons, sumZ_cons in L. pose proof (fixed_sum ts Hf).
    rewrite <- (take_drop (Z.to_nat (typeToSize t)) w).
    constructor; [constructor; [done|]|apply IH]; unfold lenZ in *; rewrite ?length_take, ?length_drop; lia.
Qed.

Lemma fixed_elems_split d ts k w :
  fixed ts -> lenZ w = Z.of_nat k * sumZ (typeToSize <$> ts) -> elems d ts k w.
Proof.
  intros Hf. revert w. pose proof (fixed_sum ts Hf). induction k as [|k IH]; intros w L.
  - destruct w; [constructor|unfold lenZ in L; simpl in L; lia].
  - rewrite <- (take_drop (Z.to_nat (sumZ (typeToSize <$> ts))) w).
    constructor; [apply fixed_items_split; [done|]|apply IH]; unfold lenZ in *; rewrite ?length_take, ?length_drop; lia.
Qed.

Lemma finds_times F d ts (body : SM unit) sz :
  ts <> [] -> finds F (items d ts) body ->
  forall i fuel, (fuel <= F)%nat -> i <= sz ->
  finds fuel (elems d ts (Z.to_nat (sz - i))) (skip_times body i sz fuel).
Proof.
  intros Ht Hb i fuel. revert i. induction fuel as [|fuel IH]; intros i HF Hi; cbn [skip_times].
  - intros p _ Hp. lia.
  - destruct (i <? sz) eqn:E; bool_to_prop.
    + eapply finds_impl; [|eapply (finds_bind _ fuel (items d ts)); [|eapply finds_mono; [exact HF|done|exact Hb]|apply (IH (i + 1)); lia]].
      * intros w (w1 & w2 & -> & H1 & H2). replace (Z.to_nat (sz - i)) with (S (Z.to_nat (sz - (i + 1)))) by lia.
        by constructor.
      * intros w Hw. pose proof (items_nonempty _ _ _ Ht Hw). lia.
    + eapply finds_impl; [|apply finds_ret]. intros w ->. replace (Z.to_nat (sz - i)) with 0%nat by lia. constructor.
Qed.

Section level_sound.
Variables (F d : nat).
Hypothesis IH : forall t, finds F (encodes d t) (skip_item (skipType F d) t).

Lemma rec_finds t : typeToSize t <= 0 -> finds F (encodes d t) (skipType F d t).
Proof. intros Ht. rewrite <- (skip_item_slow (skipType F d)) by done. apply IH. Qed.

Lemma fields_finds fuel : (fuel <= F)%nat -> finds fuel (fields d) (skip_fields (skipType F d) fuel).
Proof.
  induction fuel as [|fuel IHf]; intros HF; cbn [skip_fields]; [intros p _ Hp; lia|].
  eapply finds_impl; [|apply (finds_look1 _ (fun c w' => fields d (c :: w')))].
  { by intros w (c & w' & -> & Hw). }
  intros c. destruct (byteZ c =? STOP) eqn:E; bool_to_prop.
  { eapply finds_impl; [|apply finds_ret]. intros w ->.
    replace c with Byte.x00 by (apply (inj byteZ); by rewrite E). constructor. }
  specialize (IHf ltac:(lia)). destruct (0 <? typeToSize (byteZ c)) eqn:Es; bool_to_prop.
  - eapply finds_impl; [|eapply (finds_bind _ fuel); [|apply finds_skipn; lia|exact IHf]]; [|intros w L; lia].
    intros w (w1 & w2 & -> & H1 & H2). rewrite <- (take_drop 2 w1), <- app_assoc.
    constructor; [done| | |done]; [unfold lenZ in H1; rewrite length_take; lia|].
    constructor; [done|]. unfold lenZ in *. rewrite length_drop. lia.
  - eapply finds_impl; [|eapply (finds_bind _ fuel); [|apply finds_skipn; lia|]]; [|intros w L; lia|].
    2:{ eapply (finds_bind _ fuel); [|eapply finds_mono, rec_finds; [lia|done|done]|exact IHf]. lia. }
    intros w (id & w' & -> & Hid & v & w2 & -> & Hv & Hw). constructor; [done|unfold lenZ in Hid; lia|done|done].
Qed.

Lemma pair_finds kt vt : finds F (items d [kt; vt]) (skip_item (skipType F d) kt;; skip_item (skipType F d) vt).
Proof.
  eapply finds_impl; [|eapply (finds_bind _ F); [|apply IH|apply IH]]; [|lia].
  intros w (v1 & v2 & -> & H1 & H2). constructor; [done|]. rewrite <- (app_nil_r v2).
  constructor; [done|constructor].
Qed.

Lemma one_finds vt : typeToSize vt <= 0 -> finds F (items d [vt]) (skipType F d vt).
Proof.
  intros Ht. eapply finds_impl, rec_finds; [|done]. intros v Hv. rewrite <- (app_nil_r v).
  constructor; [done|constructor].
Qed.

(** A count as read from four bytes. *)
Lemma size_read l : lenZ l = 4 -> 0 <= i32 (be_get l) ->
  l = be_put 4 (i32 (be_get l)) /\ i32 (be_get l) < 2 ^ 31.
Proof.
  intros L Hz. pose proof (be_get_range l) as Hr. replace (length l) with 4%nat in Hr by (unfold lenZ in L; lia).
  change (256 ^ Z.of_nat 4) with (2 ^ 32) in Hr. pose proof (i32_range (be_get l)). split; [|lia].
  assert (i32 (be_get l) = be_get l) as ->.
  { unfold i32, wrapS in *. change (32 - 1) with 31 in *.
    destruct (Z_lt_le_dec (be_get l) (2 ^ 31)); [rewrite Z.mod_small; lia|].
    exfalso. revert Hz. replace (be_get l + 2 ^ 31) with (be_get l - 2 ^ 31 + 1 * 2 ^ 32) by lia.
    rewrite Z_mod_plus_full, Z.mod_small; lia. }
  replace 4%nat with (length l) by (unfold lenZ in L; lia). by rewrite be_put_get.
Qed.

Lemma string_finds t : t = STRING -> finds F (encodes (S d) t) skip_string.
Proof.
  intros ->. eapply finds_impl; [|apply (finds_look F 4 (fun l w => 0 <= i32 (be_get l) /\ lenZ w = i32 (be_get l)))]; [|lia|].
  - intros w (l & v & -> & Hl & Hz & Hv). destruct (size_read l Hl Hz) as [E Hr].
    rewrite E, <- Hv. apply enc_string. lia.
  - intros l Hl. cbn zeta. destruct (_ <? 0) eqn:E; bool_to_prop; [by apply finds_throw|].
    eapply finds_impl; [|by apply finds_skipn]. auto.
Qed.

Lemma split_size l j : lenZ l = j + 4 -> 0 <= j -> 0 <= i32 (be_get (drop (Z.to_nat j) l)) ->
  l = take (Z.to_nat j) l ++ be_put 4 (i32 (be_get (drop (Z.to_nat j) l)))
  /\ i32 (be_get (drop (Z.to_nat j) l)) < 2 ^ 31.
Proof.
  intros Hl Hj Hz. destruct (size_read (drop (Z.to_nat j) l)) as [E Hr]; [unfold lenZ in *; rewrite length_drop; lia|done|].
  split; [|done]. by rewrite <- E, take_drop.
Qed.

Lemma map_finds : finds F (encodes (S d) MAP) (skip_map (skipType F d) F).
Proof.
  eapply finds_impl; [|apply (finds_look F 6 (fun l w => 0 <= i32 (be_get (drop 2 l)) /\
    elems d [be_get (take 1 l); be_get (take 1 (drop 1 l))] (Z.to_nat (i32 (be_get (drop 2 l)))) w))]; [|lia|].
  - intros w (l & v & -> & Hl & Hz & Hv). destruct (split_size l 2 Hl ltac:(lia) Hz) as [E Hr].
    destruct l as [|kt [|vt l]]; try (unfold lenZ in Hl; simpl in Hl; lia).
    change (drop (Z.to_nat 2) (kt :: vt :: l)) with l in *. change (drop 2 (kt :: vt :: l)) with l in *.
    rewrite E, <- app_assoc. rewrite <- (Z2Nat.id (i32 (be_get l))) by done.
    apply enc_map; [lia|]. exact Hv.
  - intros l Hl. cbn zeta. destruct (_ <? 0) eqn:E; bool_to_prop; [by apply finds_throw|].
    destruct (_ && _) eqn:Ef.
    + bool_to_prop. eapply finds_impl; [|apply finds_skipn; nia]. intros w Hw. split; [done|].
      apply fixed_elems_split; [by repeat constructor|].
      cbn beta in Hw. rewrite Hw, Z2Nat.id, ?fmap_cons, ?sumZ_cons by done. simpl sumZ. lia.
    + eapply finds_impl; [|eapply finds_times with (d := d); [|apply pair_finds|done|done]]; [|discriminate].
      intros w Hw. rewrite Z.sub_0_r in Hw. done.
Qed.

Lemma list_finds t : t = SET \/ t = LIST -> finds F (encodes (S d) t) (skip_list (skipType F d) F).
Proof.
  intros Ht. eapply finds_impl; [|apply (finds_look F 5 (fun l w => 0 <= i32 (be_get (drop 1 l)) /\
    elems d [be_get (take 1 l)] (Z.to_nat (i32 (be_get (drop 1 l)))) w))]; [|lia|].
  - intros w (l & v & -> & Hl & Hz & Hv). destruct (split_size l 1 Hl ltac:(lia) Hz) as [E Hr].
    destruct l as [|vt l]; try (unfold lenZ in Hl; simpl in Hl; lia).
    change (drop (Z.to_nat 1) (vt :: l)) with l in *. change (drop 1 (vt :: l)) with l in *.
    rewrite E, <- app_assoc. rewrite <- (Z2Nat.id (i32 (be_get l))) by done.
    apply enc_list; [done|lia|exact Hv].
  - intros l Hl. cbn zeta. destruct (_ <? 0) eqn:E; bool_to_prop; [by apply finds_throw|].
    destruct (0 <? _) eqn:Ef; bool_to_prop.
    + eapply finds_impl; [|apply finds_skipn; nia]. intros w Hw. split; [done|].
      apply fixed_elems_split; [by repeat constructor|].
      cbn beta in Hw. rewrite Hw, Z2Nat.id, ?fmap_cons, ?sumZ_cons by done. simpl sumZ. lia.
    + eapply finds_impl; [|eapply finds_times with (d := d); [|by apply one_finds|done|done]]; [|discriminate].
      intros w Hw. rewrite Z.sub_0_r in Hw. done.
Qed.
End level_sound.

Lemma skipType_finds F d t : finds F (encodes d t) (skip_item (skipType F d) t).
Proof.
  revert t. induction d as [|d IH]; intros t; unfold skip_item; cbn [skipType].
  - destruct (0 <? _) eqn:E; bool_to_prop; [|by apply finds_throw].
    eapply finds_impl; [|apply finds_skipn; lia]. intros w Hw. by constructor.
  - destruct (0 <? _) eqn:E; bool_to_prop.
    { eapply finds_impl; [|apply finds_skipn; lia]. intros w Hw. by constructor. }
    destruct (t =? STRING) eqn:E1; bool_to_prop; [by apply string_finds|].
    destruct (t =? STRUCT) eqn:E2; bool_to_prop.
    { eapply finds_impl; [|by apply fields_finds]. intros w Hw. subst t. by constructor. }
    destruct (t =? MAP) eqn:E3; bool_to_prop; [subst t; by apply map_finds|].
    destruct (_ || _) eqn:E4; [|by apply finds_throw].
    apply list_finds; [done|]. apply orb_prop in E4 as []; bool_to_prop; auto.
Qed.

Lemma skip_decides d (r : R) :
  let F := S (length (stream r)) in
  match fst ((skipType F d STRUCT;; gets n_) (newNetpollSkipDecoder r)) with
  | Ok n => 0 <= n <= lenZ (stream r) /\ encodes d STRUCT (take (Z.to_nat n) (stream r))
  | Err e => e <> OutOfFuel /\ forall k, ~ encodes d STRUCT (take k (stream r))
  | Panic => False
  end.
Proof.
  intros F. set (p := newNetpollSkipDecoder r).
  assert (inv p) as Hi by (split; simpl; [unfold lenZ; simpl; lia|done]).
  assert (rest p = stream r) as Hr by done.
  pose proof (skip_item_slow (skipType F d) STRUCT ltac:(done)) as Es.
  pose proof (skipType_finds F d STRUCT p Hi ltac:(rewrite Hr; lia)) as Sound. rewrite Es in Sound.
  unfold wp in Sound. unfold mbind, M_bind.
  destruct (skipType F d STRUCT p) as [[[]|e|] p'] eqn:E; cbn [fst snd gets] in *.
  - destruct Sound as (w & Hw & (Hi' & N & Rw & _)). rewrite Hr in Rw. simpl in N. rewrite N, Rw.
    split; [unfold lenZ; rewrite length_app; lia|].
    replace (Z.to_nat (0 + lenZ w)) with (length w) by (unfold lenZ; lia). by rewrite take_app_length.
  - split; [done|]. intros k Hk.
    pose proof (encodes_skips F d STRUCT _ Hk ltac:(rewrite length_take; lia) p (drop k (stream r)) Hi) as C.
    rewrite Es in C. unfold wp in C. rewrite E in C. destruct C as [C _]; [by rewrite take_drop|]. done.
  - done.
Qed.
End proofs.

(** C13: The skip decoder decides the grammar of Thrift structs.  On every connection,
    whatever has arrived of it when the decoder looks, [SkipStruct] ends without a panic;
    when it returns [n], the next [n] bytes are the encoding of a struct nested at most 64
    deep, and when it fails no prefix of what the connection delivers is one.  The fast
    paths over values of a fixed size skip what the slow paths would. *)
Theorem skip_struct_exact {R} `{!NetpollReader R} (r : R) :
  match fst (SkipStruct (newNetpollSkipDecoder r)) with
  | Ok n => 0 <= n <= lenZ (stream r)
            /\ encodes defaultRecursionDepth STRUCT (take (Z.to_nat n) (stream r))
  | Err e => e <> OutOfFuel /\ forall k, ~ encodes defaultRecursionDepth STRUCT (take k (stream r))
  | Panic => False
  end.
Proof. exact (skip_decides defaultRecursionDepth r). Qed.

(** * A connection that delivers in chunks *)

(** The bytes that have arrived, and what each wait for more adds. *)
Record chunked := mkChunked { arrived : list byte; later : list (list byte) }.

Fixpoint arrive (n : nat) (have : list byte) (more : list (list byte)) : chunked :=
  if decide (n <= length have)%nat then mkChunked have more
  else match more with
       | [] => mkChunked have []
       | c :: more => arrive n (have ++ c) more
       end.

Lemma arrive_spec n have more :
  arrived (arrive n have more) ++ concat (later (arrive n have more)) = have ++ concat more
  /\ ((n <= length (have ++ concat more))%nat -> (n <= length (arrived (arrive n have more)))%nat).
Proof.
  revert have. induction more as [|c more IH]; intros have; simpl; case_decide as Hd; simpl; [done| |done|].
  - split; [done|]. by rewrite app_nil_r.
  - specialize (IH (have ++ c)). rewrite <- !app_assoc in IH. done.
Qed.

Definition chunked_Peek (n : Z) (r : chunked) : option (list byte) * chunked :=
  let r' := arrive (Z.to_nat n) (arrived r) (later r) in
  (if n <=? lenZ (arrived r') then Some (take (Z.to_nat n) (arrived r')) else None, r').

#[export] Program Instance chunked_reader : NetpollReader chunked := {|
  r_Len := fun r => lenZ (arrived r);
  r_Peek := chunked_Peek;
  stream := fun r => arrived r ++ concat (later r)
|}.
Next Obligation. intros r. simpl. unfold lenZ. rewrite length_app. lia. Qed.
Next Obligation.
  intros n r Hn. simpl. destruct (arrive_spec (Z.to_nat n) (arrived r) (later r)) as [E L].
  split; [|done]. rewrite <- E in *. destruct (n <=? lenZ (_ ++ _)) eqn:En; bool_to_prop.
  - specialize (L ltac:(unfold lenZ in En; lia)). rewrite (proj2 (Z.leb_le _ _)) by (unfold lenZ; lia).
    by rewrite take_app_le.
  - rewrite (proj2 (Z.leb_gt _ _)); [done|]. unfold lenZ in *. rewrite length_app in En. lia.
Qed.

(** A struct with an i32, a string and a map from i16 to lists of strings, in three
    chunks and with the next message behind it. *)
Definition demo_struct : list byte :=
  [Zbyte I32; Zbyte 0; Zbyte 1] ++ be_put 4 7 ++
  [Zbyte STRING; Zbyte 0; Zbyte 2] ++ be_put 4 2 ++ [Zbyte 104; Zbyte 105] ++
  [Zbyte MAP; Zbyte 0; Zbyte 3; Zbyte I16; Zbyte LIST] ++ be_put 4 1 ++
    be_put 2 9 ++ [Zbyte STRING] ++ be_put 4 1 ++ be_put 4 0 ++
  [Zbyte STOP].

Definition demo_conn : chunked :=
  mkChunked (take 5 demo_struct) [take 15 (drop 5 demo_struct); drop 20 demo_struct ++ [Zbyte 128]].

Definition demo_length : outcome skipErr Z := fst (SkipStruct (newNetpollSkipDecoder demo_conn)).

Lemma demo_length_eq : demo_length = Ok 37.
Proof. by vm_compute. Qed.

Lemma demo_prefix : take (Z.to_nat 37) (stream demo_conn) = demo_struct.
Proof. by vm_compute. Qed.

Lemma skip_struct_exact_witness : encodes defaultRecursionDepth STRUCT demo_struct.
Proof.
  pose proof (skip_struct_exact demo_conn) as T. fold demo_length in T. rewrite demo_length_eq in T.
  rewrite <- demo_prefix. exact (proj2 T).
Defined.
