(* ===== verification/CodecBase.v ===== *)
(** What the message codecs share (src/pkg/remote/codec/util.go, bytebuf_util.go,
    src/pkg/remote/message.go, payload_codec.go): the buffers they read and write as
    interfaces, the message they fill, the errors they return, the integer and string
    fields, and the checks of sequence id, message type and method name.

    The buffers are interfaces because the codecs run on netpoll's and bufiox's; the
    promises are those the codecs rely on.  [OutBuffer] promises that a slice handed out by
    [Malloc] stays part of what is written, which a buffer that grows by copying breaks
    ([ByteBuf.length_field_lost_on_growth]). *)

From S2P Require Import Prelude GoText ByteBuf.

(** * Buffers *)

(** remote.ByteBuffer as a writer. [None] and [false] are errors of the connection. *)
Class OutBuffer (B : Type) := {
  place : Type;
  Malloc : Z -> B -> option place * B;
  WriteBytes : list byte -> B -> bool * B;
  Fill : place -> list byte -> B -> B;
  contents : B -> list byte;
  (** where the slice lies in what is written *)
  p_off : place -> Z;
  p_len : place -> Z;
  Malloc_ok n b p b' : 0 <= n -> Malloc n b = (Some p, b') ->
    (exists hole, lenZ hole = n /\ contents b' = contents b ++ hole)
    /\ p_off p = lenZ (contents b) /\ p_len p = n;
  WriteBytes_ok bs b b' : WriteBytes bs b = (true, b') -> contents b' = contents b ++ bs;
  Fill_ok p bs b : 0 <= p_off p -> p_off p + p_len p <= lenZ (contents b) -> lenZ bs = p_len p ->
    contents (Fill p bs b) = overwrite (contents b) (Z.to_nat (p_off p)) bs
}.
Arguments place B {_}.

(** [out.WrittenLen()] *)
Definition WrittenLen {B} `{!OutBuffer B} (b : B) : Z := lenZ (contents b).

(** A buffer whose connection does not fail. *)
Class ReliableOut (B : Type) `{!OutBuffer B} : Prop := {
  Malloc_reliable n b : 0 <= n -> is_Some (fst (Malloc n b));
  WriteBytes_reliable bs b : fst (WriteBytes bs b) = true
}.

(** remote.ByteBuffer as a reader; the calls the codecs make with a length that is not
    negative are specified. *)
Class InBuffer (R : Type) := {
  in_Peek : Z -> R -> outcome unit (list byte) * R;
  in_Next : Z -> R -> outcome unit (list byte) * R;
  in_Skip : Z -> R -> outcome unit unit * R;
  in_ReadLen : R -> Z;
  remaining : R -> list byte;
  in_Peek_spec n r : 0 <= n ->
    fst (in_Peek n r) = (if n <=? lenZ (remaining r) then Ok (take (Z.to_nat n) (remaining r)) else Err tt)
    /\ remaining (snd (in_Peek n r)) = remaining r /\ in_ReadLen (snd (in_Peek n r)) = in_ReadLen r;
  in_Next_spec n r : 0 <= n ->
    if n <=? lenZ (remaining r)
    then fst (in_Next n r) = Ok (take (Z.to_nat n) (remaining r))
         /\ remaining (snd (in_Next n r)) = drop (Z.to_nat n) (remaining r)
         /\ in_ReadLen (snd (in_Next n r)) = in_ReadLen r + n
    else fst (in_Next n r) = Err tt;
  in_Skip_spec n r : 0 <= n ->
    if n <=? lenZ (remaining r)
    then fst (in_Skip n r) = Ok tt
         /\ remaining (snd (in_Skip n r)) = drop (Z.to_nat n) (remaining r)
         /\ in_ReadLen (snd (in_Skip n r)) = in_ReadLen r + n
    else fst (in_Skip n r) = Err tt
}.

(** * Errors *)

(** perrors.protocolException with its type, remote.TransError with its type,
    kerrors.ErrPayloadValidation with a cause, the buffer's own errors and plain ones. *)
Inductive cerr :=
| ProtocolErr (typeID : Z) (msg : string)
| TransErr (typeID : Z) (msg : string)
| RemoteErr (typeID : Z) (msg : text)
| ValidationErr (msg : string)
| BufferErr
| PlainErr (msg : string).

Definition UnknownProtocolError : Z := 0.
Definition InvalidData : Z := 1.
Definition BadVersion : Z := 4.

Definition UnknownMethod : Z := 1.
Definition InvalidMessageTypeException : Z := 2.
Definition BadSequenceID : Z := 4.
Definition InternalError : Z := 6.
Definition ProtocolError : Z := 7.
Definition InvalidProtocol : Z := 9.
Definition UnknownService : Z := 20.

Definition NewProtocolErrorWithMsg (m : string) : cerr := ProtocolErr UnknownProtocolError m.

(** * The message *)

(** remote.MessageType *)
Definition InvalidMessageType : Z := 0.
Definition Call : Z := 1.
Definition Reply : Z := 2.
Definition Exception : Z := 3.
Definition Oneway : Z := 4.
Definition Stream : Z := 5.
Definition Heartbeat : Z := 6.

Inductive RPCRole := Server | Client.

(** serviceinfo.PayloadCodec *)
Definition Thrift : Z := 0.
Definition Protobuf : Z := 1.

(** transport.Protocol *)
Definition PurePayload : Z := 0.
Definition TTHeader : Z := 2.
Definition Framed : Z := 4.
Definition TTHeaderFramed : Z := 6.

(** A tag of type ttheader.HeaderFlags, or of another type. *)
Inductive flagsTag := HeaderFlags (f : Z) | OtherTag.

(** What the codecs use of an rpcinfo.EndpointInfo. *)
Record endpoint := mkEp { ep_service : text; ep_method : text; ep_addr : option text }.

(** rpcinfo.RPCInfo: invocation, configuration, end points and sizes of the statistics.
    [from_ep] and [to_ep] are absent where the end point is not a MutableEndpointInfo;
    [to_remote] tells whether RPCInfo.To() is a remoteinfo.RemoteInfo whose instance can be
    given another address.  A method's [NewArgs] may return nil. *)
Record rpcinfo (D : Type) := mkRI {
  seqID : Z;
  methodName : text;
  serviceName : text;
  packageName : text;
  methodInfo : option (option D);
  transProto : Z;
  codecType : Z;
  from_ep : option endpoint;
  to_ep : option endpoint;
  to_remote : bool;
  sendSize : Z;
  recvSize : Z
}.
Arguments mkRI {D}.
Arguments seqID {D}. Arguments methodName {D}. Arguments serviceName {D}.
Arguments packageName {D}. Arguments methodInfo {D}. Arguments transProto {D}.
Arguments codecType {D}. Arguments from_ep {D}. Arguments to_ep {D}. Arguments to_remote {D}.
Arguments sendSize {D}. Arguments recvSize {D}.

(** remote.message *)
Record message (D : Type) := mkMsg {
  msgType : Z;
  rpcRole : RPCRole;
  mdata : option D;
  payloadSize : Z;
  intInfo : gmap Z text;
  strInfo : gmap text text;
  flags_tag : option flagsTag;
  mesh_tag : bool;
  ri : rpcinfo D
}.
Arguments mkMsg {D}.
Arguments msgType {D}. Arguments rpcRole {D}. Arguments mdata {D}. Arguments payloadSize {D}.
Arguments intInfo {D}. Arguments strInfo {D}. Arguments flags_tag {D}. Arguments mesh_tag {D}.
Arguments ri {D}.

Section message.
Context {D : Type}.
Implicit Types m : message D.

(** ** Setters *)

Definition set_msgType (v : Z) m : message D :=
  mkMsg v (rpcRole m) (mdata m) (payloadSize m) (intInfo m) (strInfo m) (flags_tag m) (mesh_tag m) (ri m).
Definition set_mdata (v : option D) m : message D :=
  mkMsg (msgType m) (rpcRole m) v (payloadSize m) (intInfo m) (strInfo m) (flags_tag m) (mesh_tag m) (ri m).
Definition set_payloadSize (v : Z) m : message D :=
  mkMsg (msgType m) (rpcRole m) (mdata m) v (intInfo m) (strInfo m) (flags_tag m) (mesh_tag m) (ri m).
Definition set_intInfo (v : gmap Z text) m : message D :=
  mkMsg (msgType m) (rpcRole m) (mdata m) (payloadSize m) v (strInfo m) (flags_tag m) (mesh_tag m) (ri m).
Definition set_strInfo (v : gmap text text) m : message D :=
  mkMsg (msgType m) (rpcRole m) (mdata m) (payloadSize m) (intInfo m) v (flags_tag m) (mesh_tag m) (ri m).
Definition set_flags_tag (v : option flagsTag) m : message D :=
  mkMsg (msgType m) (rpcRole m) (mdata m) (payloadSize m) (intInfo m) (strInfo m) v (mesh_tag m) (ri m).
Definition set_mesh_tag (v : bool) m : message D :=
  mkMsg (msgType m) (rpcRole m) (mdata m) (payloadSize m) (intInfo m) (strInfo m) (flags_tag m) v (ri m).
Definition upd_ri (f : rpcinfo D -> rpcinfo D) m : message D :=
  mkMsg (msgType m) (rpcRole m) (mdata m) (payloadSize m) (intInfo m) (strInfo m) (flags_tag m) (mesh_tag m) (f (ri m)).
Definition set_seqID (v : Z) : message D -> message D := upd_ri (fun i =>
  mkRI v (methodName i) (serviceName i) (packageName i) (methodInfo i) (transProto i)
    (codecType i) (from_ep i) (to_ep i) (to_remote i) (sendSize i) (recvSize i)).
Definition set_methodName (v : text) : message D -> message D := upd_ri (fun i =>
  mkRI (seqID i) v (serviceName i) (packageName i) (methodInfo i) (transProto i)
    (codecType i) (from_ep i) (to_ep i) (to_remote i) (sendSize i) (recvSize i)).
Definition set_serviceName (v : text) : message D -> message D := upd_ri (fun i =>
  mkRI (seqID i) (methodName i) v (packageName i) (methodInfo i) (transProto i)
    (codecType i) (from_ep i) (to_ep i) (to_remote i) (sendSize i) (recvSize i)).
Definition set_packageName (v : text) : message D -> message D := upd_ri (fun i =>
  mkRI (seqID i) (methodName i) (serviceName i) v (methodInfo i) (transProto i)
    (codecType i) (from_ep i) (to_ep i) (to_remote i) (sendSize i) (recvSize i)).
Definition set_methodInfo (v : option (option D)) : message D -> message D := upd_ri (fun i =>
  mkRI (seqID i) (methodName i) (serviceName i) (packageName i) v (transProto i)
    (codecType i) (from_ep i) (to_ep i) (to_remote i) (sendSize i) (recvSize i)).
Definition set_transProto (v : Z) : message D -> message D := upd_ri (fun i =>
  mkRI (seqID i) (methodName i) (serviceName i) (packageName i) (methodInfo i) v
    (codecType i) (from_ep i) (to_ep i) (to_remote i) (sendSize i) (recvSize i)).
Definition set_codecType (v : Z) : message D -> message D := upd_ri (fun i =>
  mkRI (seqID i) (methodName i) (serviceName i) (packageName i) (methodInfo i) (transProto i)
    v (from_ep i) (to_ep i) (to_remote i) (sendSize i) (recvSize i)).
Definition set_from_ep (v : option endpoint) : message D -> message D := upd_ri (fun i =>
  mkRI (seqID i) (methodName i) (serviceName i) (packageName i) (methodInfo i) (transProto i)
    (codecType i) v (to_ep i) (to_remote i) (sendSize i) (recvSize i)).
Definition set_to_ep (v : option endpoint) : message D -> message D := upd_ri (fun i =>
  mkRI (seqID i) (methodName i) (serviceName i) (packageName i) (methodInfo i) (transProto i)
    (codecType i) (from_ep i) v (to_remote i) (sendSize i) (recvSize i)).
Definition set_sendSize (v : Z) : message D -> message D := upd_ri (fun i =>
  mkRI (seqID i) (methodName i) (serviceName i) (packageName i) (methodInfo i) (transProto i)
    (codecType i) (from_ep i) (to_ep i) (to_remote i) v (recvSize i)).
Definition set_recvSize (v : Z) : message D -> message D := upd_ri (fun i =>
  mkRI (seqID i) (methodName i) (serviceName i) (packageName i) (methodInfo i) (transProto i)
    (codecType i) (from_ep i) (to_ep i) (to_remote i) (sendSize i) v).

(** transInfo.PutTransIntInfo, PutTransStrInfo: the new entries win. *)
Definition PutTransIntInfo (kv : gmap Z text) m : message D := set_intInfo (kv ∪ intInfo m) m.
Definition PutTransStrInfo (kv : gmap text text) m : message D := set_strInfo (kv ∪ strInfo m) m.

(** message.NewData *)
Definition NewData m : bool * message D :=
  match mdata m with
  | Some _ => (false, m)
  | None =>
      let m := match methodInfo (ri m) with Some args => set_mdata args m | None => m end in
      (match mdata m with Some _ => true | None => false end, m)
  end.
End message.

(** A codec's state: the message and one buffer. *)
Record cst (D IO : Type) := mkCst { cm : message D; cio : IO }.
Arguments mkCst {D IO}. Arguments cm {D IO}. Arguments cio {D IO}.

Abbreviation CM D IO := (M (cst D IO) cerr).

Section monadic.
Context {D IO : Type}.

Definition get_msg : CM D IO (message D) := gets cm.
Definition on_msg (f : message D -> message D) : CM D IO unit := modify (fun s => mkCst (f (cm s)) (cio s)).
Definition get_io : CM D IO IO := gets cio.

(** [if err := m; err != nil { return f(err) }] *)
Definition map_err {A} (f : cerr -> cerr) (c : CM D IO A) : CM D IO A := fun s =>
  match c s with (Err e, s') => (Err (f e), s') | x => x end.

(** perrors.NewProtocolErrorWithErrMsg and NewProtocolError: a protocol error stays. *)
Definition NewProtocolErrorWithErrMsg (m : string) (e : cerr) : cerr :=
  match e with ProtocolErr _ _ => e | _ => ProtocolErr UnknownProtocolError m end.
End monadic.

(** * The fields of a buffer (bytebuf_util.go) *)

Definition Size32 : Z := 4.
Definition Size16 : Z := 2.

(** Go's slice expressions [b[lo:]] and [b[lo:hi]] on a slice without spare capacity, and
    the integers of encoding/binary: out of range they panic.  [Err tt] is io.EOF. *)
Definition slice_from (b : list byte) (lo : Z) : outcome unit (list byte) :=
  if (0 <=? lo) && (lo <=? lenZ b) then Ok (drop (Z.to_nat lo) b) else Panic.
Definition slice_range (b : list byte) (lo hi : Z) : outcome unit (list byte) :=
  if (0 <=? lo) && (lo <=? hi) && (hi <=? lenZ b)
  then Ok (take (Z.to_nat (hi - lo)) (drop (Z.to_nat lo) b)) else Panic.
Definition BigEndian_Uint (n : nat) (b : list byte) : outcome unit Z :=
  if lenZ b <? Z.of_nat n then Panic else Ok (be_get (take n b)).

(** A pure computation that may panic, inside a codec. *)
Definition lift_pure {D IO A} (o : outcome unit A) : CM D IO A := fun s =>
  (match o with Ok a => Ok a | Err _ => Err BufferErr | Panic => Panic end, s).

Section out.
Context {D B : Type} `{!OutBuffer B}.

Definition out_Malloc (n : Z) : CM D B (place B) := fun s =>
  match Malloc n (cio s) with
  | (Some p, b) => (Ok p, mkCst (cm s) b)
  | (None, b) => (Err BufferErr, mkCst (cm s) b)
  end.

Definition out_Write (bs : list byte) : CM D B unit := fun s =>
  let '(ok, b) := WriteBytes bs (cio s) in (if ok then Ok tt else Err BufferErr, mkCst (cm s) b).

Definition out_Fill (p : place B) (bs : list byte) : CM D B unit :=
  modify (fun s => mkCst (cm s) (Fill p bs (cio s))).

Definition out_WrittenLen : CM D B Z := gets (fun s => WrittenLen (cio s)).

Definition WriteUint32 (val : Z) : CM D B unit := buf ← out_Malloc Size32; out_Fill buf (be_put 4 val).
Definition WriteUint16 (val : Z) : CM D B unit := buf ← out_Malloc Size16; out_Fill buf (be_put 2 val).
Definition WriteByte (val : byte) : CM D B unit := buf ← out_Malloc 1; out_Fill buf [val].

Definition WriteString (val : text) : CM D B Z :=
  WriteUint32 (u32 (lenZ val));; out_Write val;; mret (lenZ val + 4).

Definition WriteString2BLen (val : text) : CM D B Z :=
  WriteUint16 (u16 (lenZ val));; out_Write val;; mret (lenZ val + 2).
End out.

Section inb.
Context {D R : Type} `{!InBuffer R}.

Definition lift_in {A} (f : R -> outcome unit A * R) : CM D R A := fun s =>
  let '(o, r) := f (cio s) in
  (match o with Ok a => Ok a | Err _ => Err BufferErr | Panic => Panic end, mkCst (cm s) r).

Definition rd_Peek (n : Z) : CM D R (list byte) := lift_in (in_Peek n).
Definition rd_Next (n : Z) : CM D R (list byte) := lift_in (in_Next n).
Definition rd_Skip (n : Z) : CM D R unit := lift_in (in_Skip n).
Definition rd_ReadLen : CM D R Z := gets (fun s => in_ReadLen (cio s)).

Definition ReadUint32 : CM D R Z := buf ← rd_Next Size32; lift_pure (BigEndian_Uint 4 buf).
Definition PeekUint32 : CM D R Z := buf ← rd_Peek Size32; lift_pure (BigEndian_Uint 4 buf).
Definition ReadUint16 : CM D R Z := buf ← rd_Next Size16; lift_pure (BigEndian_Uint 2 buf).

Definition ReadString : CM D R (text * Z) :=
  strLen ← ReadUint32;
  if strLen =? 0 then throw (PlainErr "invalid string length in ReadString")
  else str ← rd_Next strLen; mret (str, strLen + Size32).
End inb.

Definition Bytes2Uint32 (bytes : list byte) : outcome unit Z :=
  if lenZ bytes <? 4 then Err tt else BigEndian_Uint 4 bytes.
Definition Bytes2Uint16 (bytes : list byte) (off : Z) : outcome unit Z :=
  if lenZ bytes - off <? 2 then Err tt
  else match slice_from bytes off with Ok b => BigEndian_Uint 2 b | Err e => Err e | Panic => Panic end.
Definition Bytes2Uint8 (bytes : list byte) (off : Z) : outcome unit Z :=
  if lenZ bytes - off <? 1 then Err tt
  else match slice_from bytes off with Ok b => BigEndian_Uint 1 b | Err e => Err e | Panic => Panic end.

Definition ReadString2BLen (bytes : list byte) (off : Z) : outcome unit (text * Z) :=
  match Bytes2Uint16 bytes off with
  | Ok length =>
      let off := off + 2 in
      if lenZ bytes - off <? length then Err tt
      else match slice_range bytes off (off + length) with
           | Ok buf => Ok (buf, length + 2)
           | Err e => Err e
           | Panic => Panic
           end
  | Err e => Err e
  | Panic => Panic
  end.

(** * Checks on a decoded message (util.go) *)

(** serviceinfo.ServiceInfo: its name, package and methods with their [NewArgs]. *)
Record ServiceInfo (D : Type) := mkSvc {
  svc_name : text;
  svc_package : text;
  svc_method : text -> option (option D)
}.
Arguments mkSvc {D}. Arguments svc_name {D}. Arguments svc_package {D}. Arguments svc_method {D}.

(** remote.ServiceSearcher, which the server's code implements; the codec calls it with
    strict = false. *)
Class ServiceSearcher (D : Type) := {
  SearchService : text -> text -> Z -> option (ServiceInfo D)
}.

Section checks.
Context {D IO : Type}.

Definition SetOrCheckSeqID (seq : Z) : CM D IO unit :=
  m ← get_msg;
  if (msgType m =? Call) || (msgType m =? Oneway) then on_msg (set_seqID seq)
  else if msgType m =? Reply then
    if seqID (ri m) =? seq then mret tt
    else throw (TransErr BadSequenceID "out of order sequence response")
  else mret tt.

Definition UpdateMsgType (mt : Z) : CM D IO unit :=
  m ← get_msg;
  if mt =? msgType m then mret tt
  else
    match rpcRole m with
    | Server =>
        if negb (mt =? Call) && negb (mt =? Oneway) && negb (mt =? Stream)
        then throw (TransErr InvalidMessageTypeException "server side, invalid message type")
        else on_msg (set_msgType mt)
    | Client =>
        if negb (mt =? Reply) && negb (mt =? Exception) && negb (mt =? Stream)
        then throw (TransErr InvalidMessageTypeException "client side, invalid message type")
        else on_msg (set_msgType mt)
    end.

Definition NewDataIfNeeded : CM D IO unit :=
  m ← get_msg;
  match mdata m with
  | Some _ => mret tt
  | None =>
      let '(ok, m') := NewData m in
      on_msg (fun _ => m');;
      if ok then mret tt else throw (TransErr InternalError "message data for codec is nil")
  end.

Context `{!ServiceSearcher D}.

Definition set_ep_method (name : text) (e : endpoint) : endpoint := mkEp (ep_service e) name (ep_addr e).

Definition SetOrCheckMethodName (name : text) : CM D IO unit :=
  m ← get_msg;
  if text_eqb name [] then throw (PlainErr "method name that receive is empty")
  else
    match rpcRole m with
    | Client =>
        if text_eqb (methodName (ri m)) name then mret tt else throw (PlainErr "wrong method name")
    | Server =>
        on_msg (set_methodName name);;
        match SearchService (serviceName (ri m)) name (codecType (ri m)) with
        | None => throw (TransErr UnknownService "unknown service")
        | Some svc =>
            match svc_method svc name with
            | None => throw (TransErr UnknownMethod "unknown method")
            | Some args =>
                on_msg (set_packageName (svc_package svc));;
                on_msg (set_serviceName (svc_name svc));;
                on_msg (set_methodInfo (Some args));;
                match to_ep (ri m) with
                | Some e => on_msg (set_to_ep (Some (set_ep_method name e)))
                | None => panic
                end
            end
        end
    end.
End checks.
