(* ===== verification/Crc.v ===== *)
(** The payload checksum of the default codec (src/pkg/remote/codec/validate.go,
    [getCRC32C]): Go's crc32.Update over the Castagnoli table and its text in hexadecimal.

    Lemmas: payloads that differ in one byte have different checksums. *)

From S2P Require Import Prelude GoText.

(** * hash/crc32 *)

Definition Castagnoli : Z := 0x82f63b78.

(** One bit of the table's construction. *)
Definition crc_bit (crc : Z) : Z :=
  if Z.land crc 1 =? 1 then Z.lxor (Z.shiftr crc 1) Castagnoli else Z.shiftr crc 1.

Definition table_entry (i : Z) : Z := Nat.iter 8 crc_bit i.

(** crc32.MakeTable(crc32.Castagnoli) *)
Definition crc32cTable : list Z := Eval vm_compute in (fun i => table_entry (Z.of_nat i)) <$> seq 0 256.

(** [tab[byte(crc)^v] ^ (crc >> 8)] *)
Definition crc_step (crc : Z) (v : byte) : Z :=
  Z.lxor (default 0 (crc32cTable !! Z.to_nat (Z.lxor (crc mod 256) (byteZ v)))) (Z.shiftr crc 8).

(** [^crc] on uint32. *)
Definition not32 (z : Z) : Z := 2 ^ 32 - 1 - z.

Definition crc_Update (crc : Z) (p : list byte) : Z := not32 (foldl crc_step (not32 crc) p).

(** * encoding/hex *)

Definition hextable : text := bs "0123456789abcdef".

Definition hex_byte (b : byte) : text :=
  [default Byte.x00 (at_ hextable (byteZ b / 16)); default Byte.x00 (at_ hextable (byteZ b mod 16))].

Definition EncodeToString (src : list byte) : text := mjoin (hex_byte <$> src).

(** The table is a nil pointer until the first validator is made. *)
Definition getCRC32C (table : bool) (payload : list byte) : text :=
  if negb table then [] else EncodeToString (be_put 4 (crc_Update 0 payload)).

(** * Corruption of one byte *)

Definition is_u32 (z : Z) : Prop := 0 <= z < 2 ^ 32.

Lemma hex_byte_inj a b : hex_byte a = hex_byte b -> a = b.
Proof.
  intros E. pose proof (byteZ_range a). pose proof (byteZ_range b).
  assert (forall i j, 0 <= i < 16 -> 0 <= j < 16 -> default Byte.x00 (at_ hextable i) = default Byte.x00 (at_ hextable j) -> i = j) as I.
  { assert (Forall (fun i => Forall (fun j => default Byte.x00 (at_ hextable (Z.of_nat i)) = default Byte.x00 (at_ hextable (Z.of_nat j)) -> i = j) (seq 0 16)) (seq 0 16)) as F.
    { apply (bool_decide_eq_true_1 _). by vm_compute. }
    intros i j Hi Hj Eij. rewrite Forall_forall in F. specialize (F (Z.to_nat i) ltac:(apply elem_of_seq; lia)).
    rewrite Forall_forall in F. specialize (F (Z.to_nat j) ltac:(apply elem_of_seq; lia)).
    rewrite !Z2Nat.id in F by lia. specialize (F Eij). lia. }
  injection E as E1 E2.
  assert (forall c, 0 <= byteZ c / 16 < 16 /\ 0 <= byteZ c mod 16 < 16) as Hr.
  { intros c. pose proof (byteZ_range c). split; [split; [apply Z.div_pos|apply Z.div_lt_upper_bound]; lia|].
    apply Z.mod_pos_bound. lia. }
  apply I in E1; [|apply Hr|apply Hr]. apply I in E2; [|apply Hr|apply Hr].
  apply (inj byteZ). pose proof (Z.div_mod (byteZ a) 16). pose proof (Z.div_mod (byteZ b) 16). lia.
Qed.

Lemma EncodeToString_inj a b : length a = length b -> EncodeToString a = EncodeToString b -> a = b.
Proof.
  revert b. induction a as [|x a IH]; intros [|y b] L E; try done. simpl in L. unfold EncodeToString in E.
  simpl in E. injection E as E1 E2 E. f_equal; [apply hex_byte_inj; unfold hex_byte; congruence|].
  apply IH; [lia|exact E].
Qed.

(** The top byte of an entry determines its index. *)
Lemma table_top i j :
  (i < 256)%nat -> (j < 256)%nat ->
  Z.shiftr (default 0 (crc32cTable !! i)) 24 = Z.shiftr (default 0 (crc32cTable !! j)) 24 -> i = j.
Proof.
  assert (NoDup ((fun i => Z.shiftr (default 0 (crc32cTable !! i)) 24) <$> seq 0 256)) as N.
  { apply (bool_decide_eq_true_1 _). by vm_compute. }
  intros Hi Hj E. eapply NoDup_lookup; [exact N| |].
  - rewrite list_lookup_fmap, lookup_seq_lt by done. reflexivity.
  - rewrite list_lookup_fmap, lookup_seq_lt by done. simpl. by rewrite E.
Qed.

Lemma table_u32 i : is_u32 (default 0 (crc32cTable !! i)).
Proof.
  assert (Forall is_u32 crc32cTable) as F.
  { repeat (apply Forall_cons; split; [split; [|]; vm_compute; congruence|]). apply Forall_nil. done. }
  destruct (crc32cTable !! i) eqn:E; simpl; [|split; vm_compute; congruence].
  rewrite Forall_lookup in F. by eapply F.
Qed.

Lemma crc_index_lt crc v : (Z.to_nat (Z.lxor (crc mod 256) (byteZ v)) < 256)%nat.
Proof.
  pose proof (byteZ_range v). pose proof (Z.mod_pos_bound crc 256 ltac:(lia)).
  assert (0 <= Z.lxor (crc mod 256) (byteZ v)) by (apply Z.lxor_nonneg; lia).
  destruct (decide (Z.lxor (crc mod 256) (byteZ v) = 0)) as [->|]; [simpl; lia|].
  enough (Z.lxor (crc mod 256) (byteZ v) < 2 ^ 8) by (change (2 ^ 8) with 256 in *; lia).
  apply Z.log2_lt_pow2; [lia|]. eapply Z.le_lt_trans; [apply Z.log2_lxor; lia|].
  assert (forall x, 0 <= x < 256 -> Z.log2 x < 8) as L.
  { intros x Hx. destruct (decide (x = 0)) as [->|]; [done|]. apply Z.log2_lt_pow2; [lia|]. change (2 ^ 8) with 256. lia. }
  apply Z.max_lub_lt; apply L; lia.
Qed.

(** Splitting a 32-bit word at bit 24 in the sum of two steps. *)
Lemma crc_step_u32 crc v : is_u32 crc -> is_u32 (crc_step crc v).
Proof.
  intros Hc. unfold crc_step. pose proof (table_u32 (Z.to_nat (Z.lxor (crc mod 256) (byteZ v)))) as Ht.
  unfold is_u32 in *. assert (0 <= Z.shiftr crc 8 < 2 ^ 32).
  { rewrite Z.shiftr_div_pow2 by lia. split; [apply Z.div_pos; lia|]. apply Z.div_lt_upper_bound; lia. }
  split; [apply Z.lxor_nonneg; lia|].
  set (x := default 0 _) in *. destruct (decide (Z.lxor x (Z.shiftr crc 8) = 0)) as [->|Hn]; [lia|].
  assert (0 <= Z.lxor x (Z.shiftr crc 8)) by (apply Z.lxor_nonneg; lia).
  apply Z.log2_lt_pow2; [lia|]. eapply Z.le_lt_trans; [apply Z.log2_lxor; lia|].
  assert (forall y, 0 <= y < 2 ^ 32 -> Z.log2 y < 32) as L.
  { intros y Hy. destruct (decide (y = 0)) as [->|]; [done|]. apply Z.log2_lt_pow2; lia. }
  apply Z.max_lub_lt; by apply L.
Qed.

Lemma lxor_cancel_l a b c : Z.lxor a b = Z.lxor a c -> b = c.
Proof.
  intros E. rewrite <- (Z.lxor_0_l b), <- (Z.lxor_0_l c), <- (Z.lxor_nilpotent a), !Z.lxor_assoc. by rewrite E.
Qed.

Lemma lxor_cancel_r a b c : Z.lxor b a = Z.lxor c a -> b = c.
Proof. rewrite !(Z.lxor_comm _ a). apply lxor_cancel_l. Qed.

(** The table index two words use when they step to the same word. *)
Lemma crc_step_index c1 c2 v1 v2 :
  is_u32 c1 -> is_u32 c2 -> crc_step c1 v1 = crc_step c2 v2 ->
  Z.lxor (c1 mod 256) (byteZ v1) = Z.lxor (c2 mod 256) (byteZ v2) /\ Z.shiftr c1 8 = Z.shiftr c2 8.
Proof.
  intros H1 H2 E. unfold crc_step in E.
  assert (forall c, is_u32 c -> Z.shiftr (Z.shiftr c 8) 24 = 0) as Z0.
  { intros c Hc. unfold is_u32 in Hc. rewrite Z.shiftr_shiftr by lia. change (8 + 24) with 32.
    rewrite Z.shiftr_div_pow2 by lia. apply Z.div_small. lia. }
  assert (forall c v, 0 <= Z.lxor (c mod 256) (byteZ v)) as Hnn.
  { intros c v. pose proof (byteZ_range v). pose proof (Z.mod_pos_bound c 256 ltac:(lia)). apply Z.lxor_nonneg; lia. }
  assert (Z.lxor (c1 mod 256) (byteZ v1) = Z.lxor (c2 mod 256) (byteZ v2)) as I.
  { apply Z2Nat.inj; [apply Hnn|apply Hnn|]. apply table_top; [apply crc_index_lt|apply crc_index_lt|].
    apply (f_equal (fun z => Z.shiftr z 24)) in E. rewrite !Z.shiftr_lxor, !Z0, !Z.lxor_0_r in E by done. exact E. }
  split; [done|]. rewrite I in E. by apply lxor_cancel_l in E.
Qed.

Lemma crc_step_inj c1 c2 v : is_u32 c1 -> is_u32 c2 -> crc_step c1 v = crc_step c2 v -> c1 = c2.
Proof.
  intros H1 H2 E. destruct (crc_step_index _ _ _ _ H1 H2 E) as [I S]. apply lxor_cancel_r in I.
  rewrite !Z.shiftr_div_pow2 in S by lia. change (2 ^ 8) with 256 in S.
  rewrite (Z.div_mod c1 256), (Z.div_mod c2 256) by lia. congruence.
Qed.

Lemma crc_step_byte c v1 v2 : is_u32 c -> crc_step c v1 = crc_step c v2 -> v1 = v2.
Proof.
  intros Hc E. destruct (crc_step_index _ _ _ _ Hc Hc E) as [I _]. apply (inj byteZ). by apply lxor_cancel_l in I.
Qed.

Lemma crc_fold_u32 p c : is_u32 c -> is_u32 (foldl crc_step c p).
Proof. revert c. induction p as [|v p IH]; intros c Hc; [done|]. apply IH. by apply crc_step_u32. Qed.

Lemma crc_fold_inj p c1 c2 : is_u32 c1 -> is_u32 c2 -> foldl crc_step c1 p = foldl crc_step c2 p -> c1 = c2.
Proof.
  revert c1 c2. induction p as [|v p IH]; intros c1 c2 H1 H2 E; [done|].
  apply (crc_step_inj _ _ v H1 H2). apply IH; [by apply crc_step_u32|by apply crc_step_u32|exact E].
Qed.

Lemma crc_Update_u32 p : is_u32 (crc_Update 0 p).
Proof.
  unfold crc_Update. assert (is_u32 (not32 0)) as H0 by (unfold is_u32, not32; lia).
  pose proof (crc_fold_u32 p _ H0). unfold is_u32, not32 in *. lia.
Qed.

(** Two payloads that differ in exactly one byte. *)
Lemma getCRC32C_one_byte pre x y post :
  x <> y -> getCRC32C true (pre ++ x :: post) <> getCRC32C true (pre ++ y :: post).
Proof.
  intros Hxy E. unfold getCRC32C in E. cbn [negb] in E.
  apply EncodeToString_inj in E; [|by rewrite !length_be_put].
  apply (f_equal be_get) in E.
  rewrite !be_get_put_id in E by (apply (crc_Update_u32 _)). apply Hxy.
  assert (is_u32 (not32 0)) as H0 by (unfold is_u32, not32; lia).
  set (c := foldl crc_step (not32 0) pre). assert (is_u32 c) as Hc by (by apply crc_fold_u32).
  apply (crc_step_byte c); [done|].
  apply (crc_fold_inj post); [by apply crc_step_u32|by apply crc_step_u32|].
  unfold crc_Update in E. rewrite !foldl_app in E. cbn [foldl] in E. fold c in E. unfold not32 in E. lia.
Qed.

Lemma length_getCRC32C p : length (getCRC32C true p) = 8%nat.
Proof. done. Qed.

(** The check value of the published CRC-32C. *)
Example crc32c_check_value : getCRC32C true (bs "123456789") = bs "e3069283".
Proof. by vm_compute. Qed.
