(* ===== verification/Codec.v ===== *)
(** The default codec (src/pkg/remote/codec/default_codec.go, header_codec.go, validate.go):
    transport headers, framing, protocol sniffing, size limits and payload checksums
    around a payload codec.

    The TTHeader library (cloudwego/gopkg) is the class [TTHeaderLib]; the payload codecs
    are records of two functions. *)

From S2P Require Import Prelude GoText ByteBuf CodecBase Crc.

(** * The TTHeader library *)

Definition TTHeaderMagic : Z := 0x10000000.
Definition MeshHeaderMagic : Z := 0xFFAF0000.
Definition ProtocolIDDefault : Z := 0.

Record EncodeParam := mkEncodeParam {
  e_Flags : Z; e_SeqID : Z; e_ProtocolID : Z; e_IntInfo : gmap Z text; e_StrInfo : gmap text text
}.

Record DecodeParam := mkDecodeParam {
  d_Flags : Z; d_SeqID : Z; d_IntInfo : gmap Z text; d_StrInfo : gmap text text; d_PayloadLen : Z
}.

(** ttheader.Encode writes a length field to be filled later and the header [tt_head];
    ttheader.Decode reads both back, for the parameters the format can carry. *)
Class TTHeaderLib (B R : Type) `{!OutBuffer B, !InBuffer R} := {
  tt_Encode : EncodeParam -> B -> option (place B) * B;
  tt_Decode : R -> option DecodeParam * R;
  tt_head : EncodeParam -> list byte;
  tt_fits : EncodeParam -> Prop;
  tt_head_magic p : exists flags body,
    0 <= flags < 2 ^ 16 /\ tt_head p = be_put 4 (TTHeaderMagic + flags) ++ body;
  tt_Encode_spec p b : tt_fits p ->
    match tt_Encode p b with
    | (Some f, b') => p_off f = lenZ (contents b) /\ p_len f = 4
        /\ exists hole, lenZ hole = 4 /\ contents b' = contents b ++ hole ++ tt_head p
    | (None, _) => True
    end;
  tt_Encode_reliable p b : ReliableOut B -> tt_fits p -> is_Some (fst (tt_Encode p b));
  tt_Decode_spec p total rest r : tt_fits p -> lenZ (tt_head p) <= total < 2 ^ 32 ->
    remaining r = be_put 4 total ++ tt_head p ++ rest ->
    fst (tt_Decode r)
    = Some (mkDecodeParam (e_Flags p) (e_SeqID p) (e_IntInfo p) (e_StrInfo p) (total - lenZ (tt_head p)))
    /\ remaining (snd (tt_Decode r)) = rest
    /\ in_ReadLen (snd (tt_Decode r)) = in_ReadLen r + 4 + lenZ (tt_head p);
  tt_Decode_len r d : fst (tt_Decode r) = Some d -> 0 <= d_PayloadLen d
}.

(** netpoll's LinkBuffer, in which a payload is built before its checksum is known. *)
Class LinkBuffer (B : Type) `{!OutBuffer B} := {
  NewLinkBuffer : B;
  lb_Bytes : B -> option (list byte);
  NewLinkBuffer_empty : contents NewLinkBuffer = [];
  lb_Bytes_ok b p : lb_Bytes b = Some p -> p = contents b;
  lb_Bytes_reliable b : ReliableOut B -> is_Some (lb_Bytes b)
}.

(** * Payload codecs and validators *)

(** remote.PayloadCodec *)
Record PayloadCodec (D B R : Type) := mkPC { pc_Marshal : CM D B unit; pc_Unmarshal : CM D R unit }.
Arguments mkPC {D B R}. Arguments pc_Marshal {D B R}. Arguments pc_Unmarshal {D B R}.

(** The codec set on the message and the registered ones. *)
Record payloadCodecs (D B R : Type) := mkPCs {
  pc_custom : option (PayloadCodec D B R);
  pc_registered : Z -> option (PayloadCodec D B R)
}.
Arguments mkPCs {D B R}. Arguments pc_custom {D B R}. Arguments pc_registered {D B R}.

(** What a validator sees of its context: the RPCInfo and the log id. *)
Record vctx (D : Type) := mkVctx { v_ri : rpcinfo D; v_logID : option text }.
Arguments mkVctx {D}. Arguments v_ri {D}. Arguments v_logID {D}.

(** PayloadValidator; [pv_crc] tells the codec's own validator from a user's.  [None] is an
    error. *)
Record PayloadValidator (D : Type) := mkPV {
  pv_crc : bool;
  pv_Key : vctx D -> text;
  pv_Generate : vctx D -> list byte -> option (bool * text);
  pv_Validate : vctx D -> text -> list byte -> option bool
}.
Arguments mkPV {D}. Arguments pv_crc {D}. Arguments pv_Key {D}. Arguments pv_Generate {D}. Arguments pv_Validate {D}.

Record CodecConfig (D : Type) := mkCfg { MaxSize : Z; CRC32Check : bool; Validator : option (PayloadValidator D) }.
Arguments mkCfg {D}. Arguments MaxSize {D}. Arguments CRC32Check {D}. Arguments Validator {D}.

Definition HeaderCRC32C : text := bs "crc32c".
Definition HeaderIDLServiceName : text := bs "isn".
Definition HeaderTransRemoteAddr : text := bs "rip".
Definition PayloadValidatorPrefix : text := bs "PV_".
Definition maxPayloadChecksumLength : Z := 4096.

(** transmeta's integer keys *)
Definition LogID : Z := 2.
Definition FromService : Z := 3.
Definition ToService : Z := 6.
Definition ToMethod : Z := 9.
Definition FromMethod : Z := 20.

(** ** The CRC validator (validate.go) *)

Definition crc_Validate (table : bool) (expectedValue : text) (inputPayload : list byte) : option bool :=
  if text_eqb expectedValue [] then Some true
  else if negb (text_eqb (getCRC32C table inputPayload) expectedValue) then None
  else Some true.

Definition crcPayloadValidator {D} (table : bool) : PayloadValidator D :=
  mkPV true (fun _ => HeaderCRC32C) (fun _ p => Some (true, getCRC32C table p)) (fun _ => crc_Validate table).

(** The constructor makes the table. *)
Definition NewCRC32PayloadValidator {D} : PayloadValidator D := crcPayloadValidator true.

Definition NewDefaultCodec {D} : CodecConfig D := mkCfg 0 false None.
Definition NewDefaultCodecWithSizeLimit {D} (maxSize : Z) : CodecConfig D := mkCfg maxSize false None.
Definition NewDefaultCodecWithConfig {D} (cfg : CodecConfig D) : CodecConfig D :=
  if CRC32Check cfg then mkCfg (MaxSize cfg) true (Some NewCRC32PayloadValidator) else cfg.

(** * Sniffing *)

Definition ThriftV1Magic : Z := 0x80010000.
Definition ProtobufV1Magic : Z := 0x90010000.
Definition MagicMask : Z := 0xffff0000.

(** [flagBuf[:Size32]] and [flagBuf[Size32:]] as integers; both panic on a shorter buffer. *)
Definition first4 (flagBuf : list byte) : outcome unit Z :=
  match slice_range flagBuf 0 Size32 with Ok b => BigEndian_Uint 4 b | Err e => Err e | Panic => Panic end.
Definition second4 (flagBuf : list byte) : outcome unit Z :=
  match slice_from flagBuf Size32 with Ok b => BigEndian_Uint 4 b | Err e => Err e | Panic => Panic end.

Definition has_magic (magic : Z) (o : outcome unit Z) : outcome unit bool :=
  match o with Ok z => Ok (Z.land z MagicMask =? magic) | Err e => Err e | Panic => Panic end.

Definition IsTTHeader (flagBuf : list byte) : outcome unit bool := has_magic TTHeaderMagic (second4 flagBuf).
Definition isMeshHeader (flagBuf : list byte) : outcome unit bool := has_magic MeshHeaderMagic (first4 flagBuf).
Definition isProtobufKitex (flagBuf : list byte) : outcome unit bool := has_magic ProtobufV1Magic (second4 flagBuf).
Definition isThriftBinary (flagBuf : list byte) : outcome unit bool := has_magic ThriftV1Magic (first4 flagBuf).
Definition isThriftFramedBinary (flagBuf : list byte) : outcome unit bool := has_magic ThriftV1Magic (second4 flagBuf).

Definition checkPayloadSize (payloadLen maxSize : Z) : option cerr :=
  if (0 <? maxSize) && (0 <? payloadLen) && (maxSize <? payloadLen)
  then Some (ProtocolErr InvalidData "invalid data: payload size larger than the limit") else None.

(** [tp&bit == bit] *)
Definition has (tp bit : Z) : bool := Z.land tp bit =? bit.

(** * Header information of a message (header_codec.go) *)

Section header.
Context {D : Type}.
Implicit Types m : message D.

Definition getFlags m : Z := match flags_tag m with Some (HeaderFlags f) => f | _ => 0 end.

Definition setFlags (flags : Z) m : message D :=
  if msgType m =? Call then set_flags_tag (Some (HeaderFlags flags)) m else m.

Definition getProtocolID (ct : Z) : Z := if ct =? Protobuf then ProtocolIDDefault else ProtocolIDDefault.

(** A map lookup in Go: the zero value where the key is missing. *)
Definition str_of (kv : gmap text text) (k : text) : text := default [] (kv !! k).
Definition int_of (kv : gmap Z text) (k : Z) : text := default [] (kv !! k).

Definition nonempty (t : text) : bool := negb (text_eqb t []).

Definition with_addr (a : text) (e : endpoint) : endpoint := mkEp (ep_service e) (ep_method e) (Some a).
Definition with_service (s : text) (e : endpoint) : endpoint := mkEp s (ep_method e) (ep_addr e).

(** [if v != "" { set(v) }] *)
Definition if_set {A} (v : text) (f : text -> A -> A) (a : A) : A := if nonempty v then f v a else a.

Definition fillBasicInfoOfTTHeader m : message D :=
  match rpcRole m with
  | Server =>
      let m := match from_ep (ri m) with
               | Some fi =>
                   let fi := if_set (str_of (strInfo m) HeaderTransRemoteAddr) with_addr fi in
                   let fi := if_set (int_of (intInfo m) FromService) with_service fi in
                   set_from_ep (Some fi) m
               | None => m
               end in
      match strInfo m !! HeaderIDLServiceName with
      | Some svcName => set_serviceName svcName m
      | None => m
      end
  | Client =>
      match to_ep (ri m) with
      | Some ti =>
          if to_remote (ri m)
          then set_to_ep (Some (if_set (str_of (strInfo m) HeaderTransRemoteAddr) with_addr ti)) m else m
      | None => m
      end
  end.

(** fillRPCInfoBeforeValidate: the message with its RPCInfo filled and the log id that
    goes into the context. *)
Definition fillRPCInfoBeforeValidate m : message D * option text :=
  match rpcRole m with
  | Client => (m, None)
  | Server =>
      let m := match from_ep (ri m) with
               | Some e =>
                   let e := if_set (int_of (intInfo m) FromService) with_service e in
                   let e := if_set (int_of (intInfo m) FromMethod) set_ep_method e in
                   set_from_ep (Some e) m
               | None => m
               end in
      let m := match to_ep (ri m) with
               | Some e =>
                   let e := if_set (int_of (intInfo m) ToMethod) set_ep_method e in
                   let e := if_set (int_of (intInfo m) ToService) with_service e in
                   set_to_ep (Some e) m
               | None => m
               end in
      let logid := int_of (intInfo m) LogID in
      (m, if nonempty logid then Some logid else None)
  end.

Definition getValidatorKey (ctx : vctx D) (p : PayloadValidator D) : text :=
  if pv_crc p then pv_Key p ctx else PayloadValidatorPrefix ++ pv_Key p ctx.

(** The entries of a mesh header: index, map and outcome.  The map keeps the entries read
    before an error. *)
Fixpoint read_kvs (n : nat) (idx : Z) (buf : list byte) (info : gmap text text) : Z * gmap text text * outcome unit unit :=
  match n with
  | O => (idx, info, Ok tt)
  | S n =>
      match ReadString2BLen buf idx with
      | Ok (key, k) =>
          let idx := idx + k in
          match ReadString2BLen buf idx with
          | Ok (val, k) => read_kvs n (idx + k) buf (<[key := val]> info)
          | Err e => (idx, info, Err e)
          | Panic => (idx, info, Panic)
          end
      | Err e => (idx, info, Err e)
      | Panic => (idx, info, Panic)
      end
  end.

Definition readStrKVInfo (idx : Z) (buf : list byte) (info : gmap text text) : Z * gmap text text * outcome unit bool :=
  match Bytes2Uint16 buf idx with
  | Ok kvSize =>
      let idx := idx + 2 in
      if kvSize <=? 0 then (idx, info, Ok false)
      else let '(idx, info, o) := read_kvs (Z.to_nat kvSize) idx buf info in
           (idx, info, match o with Ok _ => Ok true | Err e => Err e | Panic => Panic end)
  | Err e => (idx + 2, info, Err e)
  | Panic => (idx + 2, info, Panic)
  end.
End header.

(** * The codec *)

Section codec.
Context {D B R : Type} `{!OutBuffer B, !InBuffer R, !LinkBuffer B, !TTHeaderLib B R}.
Variable pcs : payloadCodecs D B R.
Variable c : CodecConfig D.

Definition GetPayloadCodec (m : message D) : option (PayloadCodec D B R) :=
  match pc_custom pcs with
  | Some pc => Some pc
  | None => pc_registered pcs (codecType (ri m))
  end.

(** [defer f()] *)
Definition deferred {IO A} (f : cst D IO -> cst D IO) (m : CM D IO A) : CM D IO A := fun s =>
  let '(r, s) := m s in (r, f s).

(** ** Encoding *)

Definition tt_encode : CM D B (place B) := fun s =>
  let m := cm s in
  match tt_Encode (mkEncodeParam (getFlags m) (seqID (ri m)) (getProtocolID (codecType (ri m))) (intInfo m) (strInfo m)) (cio s) with
  | (Some f, b) => (Ok f, mkCst m b)
  | (None, b) => (Err (ProtocolErr UnknownProtocolError "ttheader encode failed"), mkCst m b)
  end.

Definition encodePayload : CM D B unit :=
  m ← get_msg;
  match GetPayloadCodec m with
  | None => throw (PlainErr "payload codec not found")
  | Some pc => pc_Marshal pc
  end.

Definition record_send (s : cst D B) : cst D B := mkCst (set_sendSize (u64 (WrittenLen (cio s))) (cm s)) (cio s).

Definition fail_if (e : option cerr) {IO} : CM D IO unit :=
  match e with Some e => throw e | None => mret tt end.

Definition EncodePayload : CM D B unit :=
  deferred record_send
    (headerLen ← out_WrittenLen;
     m ← get_msg;
     let tp := transProto (ri m) in
     if has tp Framed then
       framedLenField ← out_Malloc Size32;
       encodePayload;;
       w ← out_WrittenLen;
       let payloadLen := w - (headerLen + Size32) in
       out_Fill framedLenField (be_put 4 (u32 payloadLen));;
       w ← out_WrittenLen;
       let payloadLen := if has tp TTHeader then w - Size32 else payloadLen in
       fail_if (checkPayloadSize payloadLen (MaxSize c))
     else
       encodePayload;;
       m ← get_msg;
       if codecType (ri m) =? Protobuf
       then throw (NewProtocolErrorWithMsg "protobuf just support 'framed' trans proto")
       else
         w ← out_WrittenLen;
         let payloadLen := if has tp TTHeader then w - Size32 else 0 in
         fail_if (checkPayloadSize payloadLen (MaxSize c))).

Definition vctx_of (m : message D) : vctx D := mkVctx (ri m) None.

Definition payloadChecksumGenerate (pv : PayloadValidator D) (payload : list byte) : CM D B unit :=
  m ← get_msg;
  match pv_Generate pv (vctx_of m) payload with
  | None => throw (ValidationErr "generate failed")
  | Some (need, value) =>
      if need then
        if maxPayloadChecksumLength <? lenZ value
        then throw (ValidationErr "payload checksum value exceeds the limit")
        else on_msg (fun m => set_strInfo (<[getValidatorKey (vctx_of m) pv := value]> (strInfo m)) m)
      else mret tt
  end.

(** [me.EncodePayload(ctx, message, payloadOut)]: on a buffer of its own. *)
Definition in_link_buffer (me : CM D B unit) : CM D B B := fun s =>
  let '(r, s') := me (mkCst (cm s) NewLinkBuffer) in
  (match r with Ok _ => Ok (cio s') | Err e => Err e | Panic => Panic end, mkCst (cm s') (cio s)).

(** [err = out.WriteBinary(payload)], looked at only by the last return. *)
Definition out_Write_err (bs : list byte) : CM D B (option cerr) := fun s =>
  let '(ok, b) := WriteBytes bs (cio s) in (Ok (if ok then None else Some BufferErr), mkCst (cm s) b).

Definition encodeMetaAndPayloadWithPayloadValidator (pv : PayloadValidator D) (me : CM D B unit) : CM D B unit :=
  writer ← in_link_buffer me;
  match lb_Bytes writer with
  | None => throw BufferErr
  | Some payload =>
      payloadChecksumGenerate pv payload;;
      on_msg (set_payloadSize (lenZ payload));;
      totalLenField ← tt_encode;
      err ← out_Write_err payload;
      w ← out_WrittenLen;
      out_Fill totalLenField (be_put 4 (u32 (w - Size32)));;
      fail_if err
  end.

Definition EncodeMetaAndPayload (me : CM D B unit) : CM D B unit :=
  m ← get_msg;
  let tp := transProto (ri m) in
  if has tp TTHeader then
    match Validator c with
    | Some pv => encodeMetaAndPayloadWithPayloadValidator pv me
    | None =>
        totalLenField ← tt_encode;
        me;;
        w ← out_WrittenLen;
        out_Fill totalLenField (be_put 4 (u32 (w - Size32)))
    end
  else me.

Definition Encode : CM D B unit := EncodeMetaAndPayload EncodePayload.

(** ** Decoding *)

(** A failed check of the sequence id in the header is only logged. *)
Definition ignore_err {IO} (m : CM D IO unit) : CM D IO unit := fun s =>
  match m s with (Err _, s') => (Ok tt, s') | x => x end.

Definition tt_lift : CM D R DecodeParam := fun s =>
  match tt_Decode (cio s) with
  | (Some d, r) => (Ok d, mkCst (cm s) r)
  | (None, r) => (Err (ProtocolErr UnknownProtocolError "ttheader decode failed"), mkCst (cm s) r)
  end.

Definition tt_decode : CM D R unit :=
  param ← tt_lift;
  on_msg (setFlags (d_Flags param));;
  ignore_err (SetOrCheckSeqID (d_SeqID param));;
  on_msg (PutTransIntInfo (d_IntInfo param));;
  on_msg (PutTransStrInfo (d_StrInfo param));;
  on_msg fillBasicInfoOfTTHeader;;
  on_msg (set_payloadSize (d_PayloadLen param)).

Definition mesh_decode : CM D R unit :=
  headerMeta ← map_err (fun _ => NewProtocolErrorWithMsg "meshHeader read header meta failed") (rd_Next Size32);
  isMesh ← lift_pure (isMeshHeader headerMeta);
  if negb isMesh then throw (NewProtocolErrorWithMsg "not MeshHeader protocol")
  else
    lenField ← lift_pure (slice_from headerMeta Size16);
    headerLen ← lift_pure (BigEndian_Uint 2 lenField);
    headerInfo ← map_err (fun _ => NewProtocolErrorWithMsg "meshHeader read header buf failed") (rd_Next headerLen);
    m ← get_msg;
    let '(_, info, o) := readStrKVInfo 0 headerInfo (strInfo m) in
    on_msg (set_strInfo info);;
    map_err (fun _ => NewProtocolErrorWithMsg "meshHeader read kv info failed") (lift_pure o);;
    on_msg fillBasicInfoOfTTHeader.

Definition payloadChecksumValidate (pv : PayloadValidator D) : CM D R unit :=
  m ← get_msg;
  let '(m, logid) := fillRPCInfoBeforeValidate m in
  on_msg (fun _ => m);;
  let ctx := mkVctx (ri m) logid in
  let expectedValue := str_of (strInfo m) (getValidatorKey ctx pv) in
  payload ← rd_Peek (payloadSize m);
  match pv_Validate pv ctx expectedValue payload with
  | None => throw (ValidationErr "validation failed, err")
  | Some false => throw (ValidationErr "validation failed")
  | Some true => mret tt
  end.

(** Takes the length field of a framed payload. *)
Definition take_frame (flagBuf : list byte) : CM D R unit :=
  payloadLen ← lift_pure (first4 flagBuf);
  on_msg (set_payloadSize payloadLen);;
  rd_Skip Size32.

Definition checkPayload (flagBuf : list byte) (isTTHeader : bool) : CM D R unit :=
  pc ← (isThrift ← lift_pure (isThriftBinary flagBuf);
        if (isThrift : bool) then mret (if isTTHeader then TTHeader else PurePayload, Thrift)
        else
          isThriftFramed ← lift_pure (isThriftFramedBinary flagBuf);
          if (isThriftFramed : bool) then
            take_frame flagBuf;; mret (if isTTHeader then TTHeaderFramed else Framed, Thrift)
          else
            isProtobuf ← lift_pure (isProtobufKitex flagBuf);
            if (isProtobuf : bool) then
              take_frame flagBuf;; mret (if isTTHeader then TTHeaderFramed else Framed, Protobuf)
            else
              lift_pure (first4 flagBuf);;
              lift_pure (second4 flagBuf);;
              throw (NewProtocolErrorWithMsg "invalid payload"));
  m ← get_msg;
  fail_if (checkPayloadSize (payloadSize m) (MaxSize c));;
  on_msg (set_transProto (fst pc));;
  on_msg (set_codecType (snd pc)).

Definition DecodeMeta : CM D R unit :=
  flagBuf ← map_err (NewProtocolErrorWithErrMsg "default codec read failed") (rd_Peek (2 * Size32));
  isTTHeader ← lift_pure (IsTTHeader flagBuf);
  if (isTTHeader : bool) then
    tt_decode;;
    flagBuf ← map_err (NewProtocolErrorWithErrMsg "ttheader read payload first 8 byte failed") (rd_Peek (2 * Size32));
    match Validator c with Some pv => payloadChecksumValidate pv | None => mret tt end;;
    checkPayload flagBuf true
  else
    isMesh ← lift_pure (isMeshHeader flagBuf);
    if (isMesh : bool) then
      on_msg (set_mesh_tag true);;
      mesh_decode;;
      flagBuf ← map_err (NewProtocolErrorWithErrMsg "meshHeader read payload first 8 byte failed") (rd_Peek (2 * Size32));
      checkPayload flagBuf false
    else checkPayload flagBuf false.

Definition record_recv (s : cst D R) : cst D R := mkCst (set_recvSize (u64 (in_ReadLen (cio s))) (cm s)) (cio s).

Definition DecodePayload : CM D R unit :=
  deferred record_recv
    (hasRead ← rd_ReadLen;
     m ← get_msg;
     match GetPayloadCodec m with
     | None => throw (PlainErr "payload codec not found")
     | Some pc =>
         pc_Unmarshal pc;;
         m ← get_msg;
         if payloadSize m =? 0
         then n ← rd_ReadLen; on_msg (set_payloadSize (n - hasRead))
         else mret tt
     end).

Definition Decode : CM D R unit := DecodeMeta;; DecodePayload.
End codec.
