(* ===== verification/CodecDemo.v ===== *)
(** Concrete buffers and a concrete header format for the interfaces of the codecs, on
    which their theorems are applied. *)

From S2P Require Import Prelude GoText ByteBuf CodecBase Crc Codec.

(** * Buffers *)

(** A written list; a slice is its offset and length. *)
#[export] Program Instance list_out : OutBuffer (list byte) := {|
  place := Z * Z;
  Malloc := fun n b => (Some (lenZ b, n), b ++ replicate (Z.to_nat n) Byte.x00);
  WriteBytes := fun bs b => (true, b ++ bs);
  Fill := fun p bs b => overwrite b (Z.to_nat (fst p)) bs;
  contents := fun b => b;
  p_off := fst;
  p_len := snd
|}.
Next Obligation.
  intros n b p b' Hn [= <- <-]. split; [|done]. eexists. split; [|done]. unfold lenZ. rewrite length_replicate. lia.
Qed.
Next Obligation. by intros bs b b' [= <-]. Qed.
Next Obligation. done. Qed.

#[export] Instance list_reliable : ReliableOut (list byte).
Proof. split; [by eexists|done]. Qed.

#[export] Program Instance list_link : LinkBuffer (list byte) := {| NewLinkBuffer := []; lb_Bytes := Some |}.
Next Obligation. done. Qed.
Next Obligation. by intros b p [= ->]. Qed.
Next Obligation. by eexists. Qed.

(** The bytes still to be read and the number read. *)
Record input := mkInput { left : list byte; readn : Z }.

Definition take_input (n : Z) (r : input) : outcome unit (list byte) * input :=
  if n <=? lenZ (left r)
  then (Ok (take (Z.to_nat n) (left r)), mkInput (drop (Z.to_nat n) (left r)) (readn r + n))
  else (Err tt, r).

#[export] Program Instance list_in : InBuffer input := {|
  in_Peek := fun n r => (fst (take_input n r), r);
  in_Next := take_input;
  in_Skip := fun n r => let '(o, r') := take_input n r in
    (match o with Ok _ => Ok tt | Err e => Err e | Panic => Panic end, r');
  in_ReadLen := readn;
  remaining := left
|}.
Next Obligation. intros n r Hn. unfold take_input. by case_match. Qed.
Next Obligation. intros n r Hn. unfold take_input. by case_match. Qed.
Next Obligation. intros n r Hn. unfold take_input. by case_match. Qed.

(** * A header format

    Magic and flags, sequence id, the size of the information and the two maps, coded as
    one number. *)
Abbreviation infos := (gmap Z text * gmap text text)%type.

Definition info_code (p : EncodeParam) : positive := encode ((e_IntInfo p, e_StrInfo p) : infos).
Definition info_size (p : EncodeParam) : nat := S (Pos.to_nat (Pos.size (info_code p)) / 8).
Definition demo_head (p : EncodeParam) : list byte :=
  be_put 4 (TTHeaderMagic + e_Flags p mod 2 ^ 16) ++ be_put 4 (u32 (e_SeqID p))
  ++ be_put 2 (Z.of_nat (info_size p)) ++ be_put (info_size p) (Z.pos (info_code p)).

Definition demo_fits (p : EncodeParam) : Prop :=
  0 <= e_Flags p < 2 ^ 16 /\ - 2 ^ 31 <= e_SeqID p < 2 ^ 31 /\ Z.of_nat (info_size p) < 2 ^ 16.

Definition demo_Decode (r : input) : option DecodeParam * input :=
  let l := left r in
  let n := be_get (take 2 (drop 12 l)) in
  let body := take (Z.to_nat n) (drop 14 l) in
  let size := be_get (take 4 l) - (10 + n) in
  match be_get body with
  | Z.pos code =>
      match (decode code : option infos) with
      | Some (ii, si) =>
          if size <? 0 then (None, r)
          else (Some (mkDecodeParam (be_get (take 2 (drop 6 l))) (i32 (be_get (take 4 (drop 8 l)))) ii si size),
                mkInput (drop (Z.to_nat (14 + n)) l) (readn r + (14 + n)))
      | None => (None, r)
      end
  | _ => (None, r)
  end.

Lemma info_fits p : Z.pos (info_code p) < 256 ^ Z.of_nat (info_size p).
Proof.
  pose proof (Pos.size_gt (info_code p)) as L. unfold info_size. set (k := Pos.size (info_code p)) in *.
  change 256 with (2 ^ 8). rewrite <- Z.pow_mul_r by lia.
  assert (Z.pos (info_code p) < 2 ^ Z.pos k) as L' by (rewrite <- Pos2Z.inj_pow; exact L).
  eapply Z.lt_le_trans; [exact L'|]. apply Z.pow_le_mono_r; [lia|].
  pose proof (Nat.div_mod (Pos.to_nat k) 8 ltac:(lia)). pose proof (Nat.mod_upper_bound (Pos.to_nat k) 8 ltac:(lia)). lia.
Qed.

Lemma length_demo_head p : length (demo_head p) = (10 + info_size p)%nat.
Proof. unfold demo_head. rewrite !length_app, !length_be_put. lia. Qed.

Lemma demo_Decode_ok p total rest r :
  demo_fits p -> lenZ (demo_head p) <= total < 2 ^ 32 -> left r = be_put 4 total ++ demo_head p ++ rest ->
  demo_Decode r
  = (Some (mkDecodeParam (e_Flags p) (e_SeqID p) (e_IntInfo p) (e_StrInfo p) (total - lenZ (demo_head p))),
     mkInput rest (readn r + (4 + lenZ (demo_head p)))).
Proof.
  intros (Hf & Hs & Hi) Ht Hr.
  assert (lenZ (demo_head p) = 10 + Z.of_nat (info_size p)) as Lh by (unfold lenZ; rewrite length_demo_head; lia).
  unfold demo_Decode. set (l := left r) in *.
  set (z := TTHeaderMagic + e_Flags p mod 2 ^ 16) in *.
  assert (l = be_put 4 total ++ [Zbyte (z / 256 ^ 3); Zbyte (z / 256 ^ 2)] ++ be_put 2 z ++ be_put 4 (u32 (e_SeqID p))
    ++ be_put 2 (Z.of_nat (info_size p)) ++ be_put (info_size p) (Z.pos (info_code p)) ++ rest) as El.
  { rewrite Hr. unfold demo_head. by rewrite <- !app_assoc. }
  assert (be_get (take 4 l) = total) as ->.
  { rewrite El. change 4%nat with (length (be_put 4 total)) at 1. rewrite take_app_length. apply be_get_put_id. simpl. unfold lenZ in *; lia. }
  assert (be_get (take 2 (drop 6 l)) = e_Flags p) as ->.
  { assert (take 2 (drop 6 l) = be_put 2 z) as -> by (by rewrite El). rewrite be_get_put. change (256 ^ Z.of_nat 2) with (2 ^ 16).
    subst z. change TTHeaderMagic with (0x1000 * 2 ^ 16). rewrite Z.add_comm, Z_mod_plus_full, Z.mod_mod by lia. apply Z.mod_small. lia. }
  assert (take 4 (drop 8 l) = be_put 4 (u32 (e_SeqID p))) as ->.
  { by rewrite El. }
  assert (be_get (take 2 (drop 12 l)) = Z.of_nat (info_size p)) as ->.
  { assert (take 2 (drop 12 l) = be_put 2 (Z.of_nat (info_size p))) as -> by (by rewrite El).
    apply be_get_put_id. simpl. lia. }
  assert (drop 14 l = be_put (info_size p) (Z.pos (info_code p)) ++ rest) as Eb by (by rewrite El).
  rewrite Eb, Nat2Z.id, take_app_length' by (by rewrite length_be_put).
  rewrite be_get_put_id by (pose proof (info_fits p); lia).
  unfold info_code. rewrite decode_encode. rewrite (proj2 (Z.ltb_ge _ _)) by lia.
  rewrite be_get_put_id by (pose proof (u32_range (e_SeqID p)); simpl; lia). rewrite i32_u32 by done.
  f_equal; [f_equal; f_equal; lia|]. f_equal; [|lia].
  replace (Z.to_nat (14 + Z.of_nat (info_size p))) with (14 + info_size p)%nat by lia.
  rewrite <- drop_drop, Eb. by rewrite drop_app_length' by (by rewrite length_be_put).
Qed.

#[export] Program Instance demo_ttheader : TTHeaderLib (list byte) input := {|
  tt_Encode := fun p b => (Some (lenZ b, 4), b ++ [Byte.x00; Byte.x00; Byte.x00; Byte.x00] ++ demo_head p);
  tt_Decode := demo_Decode;
  tt_head := demo_head;
  tt_fits := demo_fits
|}.
Next Obligation.
  intros p. unfold demo_head. eexists _, _. split; [|reflexivity]. apply Z.mod_pos_bound. lia.
Qed.
Next Obligation. intros p b _. simpl. split; [done|]. split; [done|]. by exists [Byte.x00; Byte.x00; Byte.x00; Byte.x00]. Qed.
Next Obligation. by eexists. Qed.
Next Obligation.
  intros p total rest r Hf Ht Hr. simpl in *. rewrite (demo_Decode_ok p total rest r) by done. simpl. repeat split. lia.
Qed.
Next Obligation.
  intros r d. simpl. unfold demo_Decode. repeat case_match; simpl; intros; simplify_eq; bool_to_prop; simpl; lia.
Qed.
