(* ===== verification/CodecSpec.v ===== *)
(** Theorems about the default codec: what [Encode] writes [Decode] reads back, in every
    transport protocol; a payload damaged in one byte is refused under the checksum;
    sniffing any bytes is safe and keeps to the size limit. *)

From S2P Require Import Prelude GoText ByteBuf CodecBase Crc Codec CodecDemo.

(** * Buffers *)

Lemma overwrite_hole (a hole f w : list byte) :
  length hole = length f -> overwrite (a ++ hole ++ w) (length a) f = a ++ f ++ w.
Proof.
  intros L. unfold overwrite. rewrite take_app_length. f_equal. rewrite !length_app.
  rewrite take_ge by lia. f_equal. rewrite <- L, app_assoc, <- (length_app a hole). apply drop_app_length.
Qed.

Section buffers.
Context {D B R : Type} `{!OutBuffer B, !InBuffer R}.
Implicit Types (m : message D) (b : B) (r : R).

Lemma wp_out_Malloc n m b (Q : outcome cerr (place B) -> cst D B -> Prop) :
  ReliableOut B -> 0 <= n ->
  (forall p b' hole, lenZ hole = n -> contents b' = contents b ++ hole ->
     p_off p = lenZ (contents b) -> p_len p = n -> Q (Ok p) (mkCst m b')) ->
  wp (out_Malloc n) (mkCst m b) Q.
Proof.
  intros Hr Hn HQ. unfold wp, out_Malloc. cbn [cio cm].
  destruct (Malloc_reliable n b Hn) as [p Hp]. destruct (Malloc n b) as [o b'] eqn:E. simpl in Hp. subst o.
  destruct (Malloc_ok _ _ _ _ Hn E) as ((hole & L & C) & O & N). simpl. by eapply HQ.
Qed.

Lemma wp_out_Write w m b (Q : outcome cerr unit -> cst D B -> Prop) :
  ReliableOut B -> (forall b', contents b' = contents b ++ w -> Q (Ok tt) (mkCst m b')) ->
  wp (out_Write w) (mkCst m b) Q.
Proof.
  intros Hr HQ. unfold wp, out_Write. cbn [cio cm]. pose proof (WriteBytes_reliable w b) as Hw.
  destruct (WriteBytes w b) as [ok b'] eqn:E. simpl in Hw. subst ok. apply WriteBytes_ok in E. simpl. by apply HQ.
Qed.

(** Filling the slice between [a] and [w]. *)
Lemma wp_out_Fill p f a hole w m b (Q : outcome cerr unit -> cst D B -> Prop) :
  contents b = a ++ hole ++ w -> p_off p = lenZ a -> p_len p = lenZ f -> length hole = length f ->
  (forall b', contents b' = a ++ f ++ w -> Q (Ok tt) (mkCst m b')) ->
  wp (out_Fill p f) (mkCst m b) Q.
Proof.
  intros C O N L HQ. apply wp_modify. cbn [cio cm]. apply HQ.
  rewrite Fill_ok, C, O; [|unfold lenZ in *; lia| |done].
  - replace (Z.to_nat (lenZ a)) with (length a) by (unfold lenZ; lia). by apply overwrite_hole.
  - rewrite C, O, N. unfold lenZ. rewrite !length_app. lia.
Qed.

Lemma wp_WriteUint32 v m b (Q : outcome cerr unit -> cst D B -> Prop) :
  ReliableOut B -> (forall b', contents b' = contents b ++ be_put 4 v -> Q (Ok tt) (mkCst m b')) ->
  wp (WriteUint32 v) (mkCst m b) Q.
Proof.
  intros Hr HQ. apply wp_bind, wp_out_Malloc; [done|by unfold Size32|]. intros p b' hole L C O N.
  eapply (wp_out_Fill p _ (contents b) hole []); [by rewrite app_nil_r|done|by rewrite N|unfold lenZ, Size32 in L; rewrite length_be_put; lia|].
  intros b2 C2. apply HQ. by rewrite C2, app_nil_r.
Qed.

Lemma wp_rd_Peek n m r (Q : outcome cerr (list byte) -> cst D R -> Prop) :
  0 <= n ->
  (n <= lenZ (remaining r) -> forall r', remaining r' = remaining r -> in_ReadLen r' = in_ReadLen r ->
     Q (Ok (take (Z.to_nat n) (remaining r))) (mkCst m r')) ->
  (lenZ (remaining r) < n -> forall r', Q (Err BufferErr) (mkCst m r')) ->
  wp (rd_Peek n) (mkCst m r) Q.
Proof.
  intros Hn HOk HErr. unfold wp, rd_Peek, lift_in. cbn [cio cm].
  destruct (in_Peek_spec n r Hn) as (E & Er & El). destruct (in_Peek n r) as [o r']. cbn [fst snd] in *. subst o.
  destruct (n <=? _) eqn:Hc; bool_to_prop; simpl; auto.
Qed.

Lemma wp_rd_Next n m r (Q : outcome cerr (list byte) -> cst D R -> Prop) :
  0 <= n ->
  (n <= lenZ (remaining r) -> forall r', remaining r' = drop (Z.to_nat n) (remaining r) ->
     in_ReadLen r' = in_ReadLen r + n -> Q (Ok (take (Z.to_nat n) (remaining r))) (mkCst m r')) ->
  (lenZ (remaining r) < n -> forall r', Q (Err BufferErr) (mkCst m r')) ->
  wp (rd_Next n) (mkCst m r) Q.
Proof.
  intros Hn HOk HErr. unfold wp, rd_Next, lift_in. cbn [cio cm].
  pose proof (in_Next_spec n r Hn) as E. destruct (in_Next n r) as [o r']. cbn [fst snd] in *.
  destruct (n <=? _) eqn:Hc; bool_to_prop; [destruct E as (-> & ? & ?)|rewrite E]; simpl; auto.
Qed.

Lemma wp_rd_Skip n m r (Q : outcome cerr unit -> cst D R -> Prop) :
  0 <= n ->
  (n <= lenZ (remaining r) -> forall r', remaining r' = drop (Z.to_nat n) (remaining r) ->
     in_ReadLen r' = in_ReadLen r + n -> Q (Ok tt) (mkCst m r')) ->
  (lenZ (remaining r) < n -> forall r', Q (Err BufferErr) (mkCst m r')) ->
  wp (rd_Skip n) (mkCst m r) Q.
Proof.
  intros Hn HOk HErr. unfold wp, rd_Skip, lift_in. cbn [cio cm].
  pose proof (in_Skip_spec n r Hn) as E. destruct (in_Skip n r) as [o r']. cbn [fst snd] in *.
  destruct (n <=? _) eqn:Hc; bool_to_prop; [destruct E as (-> & ? & ?)|rewrite E]; simpl; auto.
Qed.

(** Reading a prefix that is there. *)
Lemma wp_rd_Next_app w rest m r (Q : outcome cerr (list byte) -> cst D R -> Prop) n :
  remaining r = w ++ rest -> n = lenZ w ->
  (forall r', remaining r' = rest -> in_ReadLen r' = in_ReadLen r + n -> Q (Ok w) (mkCst m r')) ->
  wp (rd_Next n) (mkCst m r) Q.
Proof.
  intros E -> HQ. apply wp_rd_Next; [unfold lenZ; lia| |].
  - intros _ r' Er El. rewrite E in *. replace (Z.to_nat (lenZ w)) with (length w) in * by (unfold lenZ; lia).
    rewrite take_app_length. rewrite drop_app_length in Er. auto.
  - rewrite E. unfold lenZ. rewrite length_app. lia.
Qed.

Lemma wp_on_msg {IO} f m (io : IO) (Q : outcome cerr unit -> cst D IO -> Prop) :
  Q (Ok tt) (mkCst (f m) io) -> wp (on_msg f) (mkCst m io) Q.
Proof. done. Qed.

Lemma wp_map_err {IO A} f (c : CM D IO A) s (Q : outcome cerr A -> cst D IO -> Prop) :
  wp c s (fun o s' => Q (match o with Err e => Err (f e) | _ => o end) s') -> wp (map_err f c) s Q.
Proof. unfold wp, map_err. destruct (c s) as [[a|e|] s']; auto. Qed.

Lemma wp_deferred {IO A} f (c : CM D IO A) s (Q : outcome cerr A -> cst D IO -> Prop) :
  wp c s (fun o s' => Q o (f s')) -> wp (deferred f c) s Q.
Proof. unfold wp, deferred. destruct (c s) as [o s']. auto. Qed.
End buffers.

Lemma wp_lift_pure {D IO A} (o : outcome unit A) a (s : cst D IO) (Q : outcome cerr A -> cst D IO -> Prop) :
  o = Ok a -> Q (Ok a) s -> wp (lift_pure o) s Q.
Proof. by intros ->. Qed.

Lemma BigEndian_Uint_ok n b : (n <= length b)%nat -> BigEndian_Uint n b = Ok (be_get (take n b)).
Proof. intros L. unfold BigEndian_Uint. rewrite (proj2 (Z.ltb_ge _ _)); [done|unfold lenZ; lia]. Qed.

Lemma slice_from_ok b lo : 0 <= lo <= lenZ b -> slice_from b lo = Ok (drop (Z.to_nat lo) b).
Proof.
  intros L. unfold slice_from. by rewrite (proj2 (Z.leb_le 0 lo)), (proj2 (Z.leb_le lo _)) by lia.
Qed.

Lemma slice_range_ok b lo hi :
  0 <= lo <= hi -> hi <= lenZ b -> slice_range b lo hi = Ok (take (Z.to_nat (hi - lo)) (drop (Z.to_nat lo) b)).
Proof.
  intros L L'. unfold slice_range.
  by rewrite (proj2 (Z.leb_le 0 lo)), (proj2 (Z.leb_le lo hi)), (proj2 (Z.leb_le hi _)) by lia.
Qed.

(** Symbolic execution of a codec, one rule per construct. *)
Ltac cstep :=
  lazymatch goal with
  | |- wp (mbind _ _) _ _ => apply wp_bind
  | |- wp (mret _) _ _ => apply wp_ret
  | |- wp (throw _) _ _ => apply wp_throw
  | |- wp get_msg _ _ => apply wp_gets
  | |- wp out_WrittenLen _ _ => apply wp_gets
  | |- wp rd_ReadLen _ _ => apply wp_gets
  | |- wp (on_msg _) _ _ => apply wp_on_msg
  | |- wp (map_err _ _) _ _ => apply wp_map_err
  | |- wp (deferred _ _) _ _ => apply wp_deferred
  end; cbn beta iota zeta; cbn [cm cio].

(** [lift_pure o] first in a sequence, where [o] is known to be [Ok a]. *)
Ltac lstep E := cstep; eapply wp_lift_pure; [exact E|]; cbn beta iota zeta; cbn [cm cio].

(** * Magic numbers *)

Lemma land_MagicMask x : 0 <= x < 2 ^ 32 -> Z.land x MagicMask = x / 2 ^ 16 * 2 ^ 16.
Proof.
  intros Hx. change MagicMask with (Z.land (Z.ones 32) (Z.lnot (Z.ones 16))).
  rewrite Z.land_assoc, Z.land_ones, Z.mod_small by lia.
  rewrite <- Z.ldiff_land, Z.ldiff_ones_r by lia.
  by rewrite Z.shiftl_mul_pow2, Z.shiftr_div_pow2.
Qed.

Lemma land_magic magic f :
  0 <= f < 2 ^ 16 -> 0 <= magic < 2 ^ 32 -> magic mod 2 ^ 16 = 0 -> Z.land (magic + f) MagicMask = magic.
Proof.
  intros Hf Hm M0. pose proof (Z.div_mod magic (2 ^ 16) ltac:(lia)) as E. rewrite M0 in E.
  assert (magic / 2 ^ 16 < 2 ^ 16) by (apply Z.div_lt_upper_bound; lia).
  rewrite land_MagicMask by lia.
  replace (magic + f) with (f + magic / 2 ^ 16 * 2 ^ 16) by lia.
  rewrite Z.div_add, (Z.div_small f) by lia. lia.
Qed.

(** A length below 2^31 is none of the magic numbers that have the top bit. *)
Lemma length_no_magic x magic : 0 <= x < 2 ^ 31 -> 2 ^ 31 <= magic -> (Z.land x MagicMask =? magic) = false.
Proof.
  intros Hx Hm. apply Z.eqb_neq. rewrite land_MagicMask by lia.
  pose proof (Z.div_mod x (2 ^ 16) ltac:(lia)). pose proof (Z.mod_pos_bound x (2 ^ 16) ltac:(lia)). lia.
Qed.

Lemma take_take_app (a b : list byte) n k : (n <= k)%nat -> take n (take k (a ++ b)) = take n (a ++ b).
Proof. intros L. rewrite take_take. by rewrite Nat.min_l. Qed.

Lemma first4_ok b : (4 <= length b)%nat -> first4 b = Ok (be_get (take 4 b)).
Proof.
  intros L. unfold first4. rewrite slice_range_ok by (unfold lenZ, Size32; lia).
  change (Z.to_nat (Size32 - 0)) with 4%nat. change (Z.to_nat 0) with 0%nat. rewrite drop_0.
  rewrite BigEndian_Uint_ok by (rewrite length_take; lia). by rewrite take_take.
Qed.

Lemma second4_ok b : (8 <= length b)%nat -> second4 b = Ok (be_get (take 4 (drop 4 b))).
Proof.
  intros L. unfold second4. rewrite slice_from_ok by (unfold lenZ, Size32; lia).
  change (Z.to_nat Size32) with 4%nat. apply BigEndian_Uint_ok. rewrite length_drop. lia.
Qed.

Lemma first4_put z w : 0 <= z < 2 ^ 32 -> first4 (take 8 (be_put 4 z ++ w)) = Ok z.
Proof.
  intros Hz. rewrite first4_ok by (rewrite length_take, length_app, length_be_put; lia).
  rewrite take_take, Nat.min_l by lia.
  rewrite take_app_length' by (by rewrite length_be_put). f_equal. apply be_get_put_id. exact Hz.
Qed.

Lemma second4_put z w : 4 <= lenZ w -> second4 (take 8 (be_put 4 z ++ w)) = Ok (be_get (take 4 w)).
Proof.
  intros L. unfold lenZ in L. rewrite second4_ok by (rewrite length_take, length_app, length_be_put; lia).
  rewrite skipn_firstn_comm, take_take, Nat.min_l by lia.
  by rewrite drop_app_length' by (by rewrite length_be_put).
Qed.

(** * What a payload codec promises

    [wire m] is what [Marshal] writes for a message it can send; [Unmarshal] takes exactly
    these bytes into a message that [receives] them, which then is [delivered].  The first
    bytes carry the codec's magic number and are not taken for a TTHeader. *)
Definition codec_magic (ct : Z) : Z := if ct =? Thrift then ThriftV1Magic else ProtobufV1Magic.

Record PayloadContract {D B R} `{!OutBuffer B, !InBuffer R} (ct : Z) (pc : PayloadCodec D B R) := {
  wire : message D -> list byte;
  sendable : message D -> Prop;
  receives : message D -> message D -> Prop;
  delivered : message D -> message D -> message D;
  wire_long m : sendable m -> 8 <= lenZ (wire m);
  wire_magic m : sendable m -> Z.land (be_get (take 4 (wire m))) MagicMask = codec_magic ct;
  wire_not_ttheader m : sendable m -> IsTTHeader (take 8 (wire m)) = Ok false;
  Marshal_ok m b : ReliableOut B -> sendable m ->
    wp (pc_Marshal pc) (mkCst m b) (fun o s => o = Ok tt /\ cm s = m /\ contents (cio s) = contents b ++ wire m);
  Unmarshal_ok m m' r rest : sendable m -> receives m m' -> remaining r = wire m ++ rest ->
    wp (pc_Unmarshal pc) (mkCst m' r) (fun o s =>
      o = Ok tt /\ cm s = delivered m m' /\ remaining (cio s) = rest
      /\ in_ReadLen (cio s) = in_ReadLen r + lenZ (wire m));
  delivered_size m m' : payloadSize (delivered m m') = payloadSize m'
}.
Arguments wire {D B R _ _ ct pc}. Arguments sendable {D B R _ _ ct pc}.
Arguments receives {D B R _ _ ct pc}. Arguments delivered {D B R _ _ ct pc}.

(** * Round trip *)

Section roundtrip.
Context {D B R : Type} `{!OutBuffer B, !InBuffer R, !LinkBuffer B, !TTHeaderLib B R, !ReliableOut B}.
Variables (ct : Z) (pc : PayloadCodec D B R) (K : PayloadContract ct pc).
Variables (pcs : payloadCodecs D B R) (c : CodecConfig D).
Implicit Types m : message D.

(** The payload as it follows the header. *)
Definition framed_payload m : list byte :=
  if has (transProto (ri m)) Framed then be_put 4 (lenZ (wire K m)) ++ wire K m else wire K m.

(** The message as the header is written: with the checksum where the codec has one. *)
Definition with_checksum m : message D :=
  match Validator c with
  | Some _ => set_payloadSize (lenZ (framed_payload m))
      (set_strInfo (<[HeaderCRC32C := getCRC32C true (framed_payload m)]> (strInfo m)) m)
  | None => m
  end.

Definition header_param m : EncodeParam :=
  let m := with_checksum m in
  mkEncodeParam (getFlags m) (seqID (ri m)) (getProtocolID (codecType (ri m))) (intInfo m) (strInfo m).

(** The bytes on the wire. *)
Definition on_the_wire m : list byte :=
  if has (transProto (ri m)) TTHeader
  then be_put 4 (lenZ (tt_head (header_param m)) + lenZ (framed_payload m)) ++ tt_head (header_param m) ++ framed_payload m
  else framed_payload m.

(** What the sender must respect: a protocol the payload codec supports, the size limit
    where there is one, and 32-bit lengths. *)
Record sends m : Prop := mkSends {
  s_codec : GetPayloadCodec pcs m = Some pc;
  s_type : codecType (ri m) = ct;
  s_ct : ct = Thrift \/ ct = Protobuf;
  s_proto : transProto (ri m) ∈ [PurePayload; TTHeader; Framed; TTHeaderFramed];
  s_framed : ct = Protobuf -> has (transProto (ri m)) Framed = true;
  s_sendable : sendable K m;
  s_validator : Validator c = None \/ Validator c = Some NewCRC32PayloadValidator;
  s_header : has (transProto (ri m)) TTHeader = true -> tt_fits (header_param m);
  s_small : lenZ (on_the_wire m) < 2 ^ 31;
  s_limit : 0 < MaxSize c -> lenZ (on_the_wire m) <= MaxSize c
}.

(** ** Encoding *)

Lemma size_ok n k : (0 < MaxSize c -> n <= MaxSize c) -> k <= n -> checkPayloadSize k (MaxSize c) = None.
Proof.
  intros Hl Hk. unfold checkPayloadSize. destruct (_ && _) eqn:E; [|done]. bool_to_prop. specialize (Hl H). lia.
Qed.

Lemma EncodePayload_ok m b :
  GetPayloadCodec pcs m = Some pc -> codecType (ri m) = ct -> sendable K m ->
  (ct = Protobuf -> has (transProto (ri m)) Framed = true) ->
  lenZ (wire K m) < 2 ^ 31 ->
  (0 < MaxSize c -> lenZ (contents b) + lenZ (framed_payload m) <= MaxSize c) ->
  wp (EncodePayload pcs c) (mkCst m b) (fun o s =>
    o = Ok tt /\ (exists n, cm s = set_sendSize n m) /\ contents (cio s) = contents b ++ framed_payload m).
Proof.
  intros Hpc Hct Hs Hf Hsm Hl. unfold EncodePayload. do 5 cstep.
  unfold framed_payload in *. cbn [cm cio].
  assert (forall (s : cst D B) (Q : outcome cerr unit -> cst D B -> Prop), cm s = m ->
    (forall b', contents b' = contents (cio s) ++ wire K m -> Q (Ok tt) (mkCst m b')) -> wp (encodePayload pcs) s Q) as Enc.
  { intros [m0 b0] Q E HQ. simpl in E. subst m0. unfold encodePayload. cstep. cstep. cbn [cm]. rewrite Hpc.
    eapply wp_mono; [by apply (Marshal_ok _ _ K)|]. intros o [m1 b1] (-> & E & C). simpl in *. subst m1. by apply HQ. }
  destruct (has (transProto (ri m)) Framed) eqn:F.
  - cstep. apply wp_out_Malloc; [done|by unfold Size32|]. intros p b1 hole L C O N.
    cstep. apply Enc; [done|]. cbn [cio]. intros b2 C2. cstep. cstep. cstep.
    rewrite C, <- app_assoc in C2.
    eapply (wp_out_Fill p _ (contents b) hole (wire K m)); [done|done|by rewrite N|unfold lenZ, Size32 in L; rewrite length_be_put; lia|].
    intros b3 C3. cstep. cstep. unfold fail_if.
    assert (u32 (WrittenLen b2 - (WrittenLen b + Size32)) = lenZ (wire K m)) as E.
    { unfold WrittenLen. rewrite C2. unfold lenZ in *. rewrite !length_app.
      replace (_ - _) with (Z.of_nat (length (wire K m))) by (unfold Size32 in *; lia). apply u32_id. lia. }
    cbn [cio] in *. rewrite E in C3.
    rewrite (size_ok (lenZ (contents b) + (4 + lenZ (wire K m)))).
    + cstep. simpl. eauto.
    + intros Hp. specialize (Hl Hp). unfold lenZ in *. rewrite length_app, length_be_put in Hl. lia.
    + unfold WrittenLen. destruct (has _ TTHeader); rewrite ?C2, ?C3; unfold lenZ, Size32 in *; rewrite !length_app, ?length_be_put; lia.
  - cstep. apply Enc; [done|]. cbn [cio]. intros b2 C2. cstep. cstep. cbn [cm]. rewrite Hct.
    destruct (ct =? Protobuf) eqn:Ep; bool_to_prop; [specialize (Hf Ep); discriminate|].
    cstep. cstep. cbn [cio]. unfold fail_if.
    rewrite (size_ok (lenZ (contents b) + lenZ (wire K m))); [|done|].
    + cstep. simpl. eauto.
    + unfold WrittenLen. rewrite C2. destruct (has _ TTHeader); unfold lenZ, Size32; rewrite ?length_app; lia.
Qed.

Lemma wire_le_framed m : lenZ (wire K m) <= lenZ (framed_payload m).
Proof. unfold framed_payload. case_match; unfold lenZ; rewrite ?length_app; lia. Qed.

Lemma framed_le_wire m : lenZ (framed_payload m) <= lenZ (on_the_wire m).
Proof. unfold on_the_wire. case_match; unfold lenZ; rewrite ?length_app; lia. Qed.

Lemma wp_tt_encode m b (Q : outcome cerr (place B) -> cst D B -> Prop) :
  let p := mkEncodeParam (getFlags m) (seqID (ri m)) (getProtocolID (codecType (ri m))) (intInfo m) (strInfo m) in
  tt_fits p ->
  (forall f b' hole, lenZ hole = 4 -> contents b' = contents b ++ hole ++ tt_head p ->
     p_off f = lenZ (contents b) -> p_len f = 4 -> Q (Ok f) (mkCst m b')) ->
  wp tt_encode (mkCst m b) Q.
Proof.
  intros p Hp HQ. unfold wp, tt_encode. cbn [cm cio]. fold p.
  pose proof (tt_Encode_spec p b Hp) as E. destruct (tt_Encode_reliable p b ltac:(done) Hp) as [f Hf].
  destruct (tt_Encode p b) as [o b']. simpl in Hf. subst o. destruct E as (O & N & hole & L & C). simpl. by eapply HQ.
Qed.

Lemma header_param_plain m : Validator c = None -> header_param m =
  mkEncodeParam (getFlags m) (seqID (ri m)) (getProtocolID (codecType (ri m))) (intInfo m) (strInfo m).
Proof. intros E. unfold header_param, with_checksum. by rewrite E. Qed.

(** Filling in the total length completes the message. *)
Lemma wp_fill_total f m m0 b hole (Q : outcome cerr unit -> cst D B -> Prop) :
  sends m -> has (transProto (ri m)) TTHeader = true -> lenZ hole = 4 ->
  contents b = hole ++ tt_head (header_param m) ++ framed_payload m -> p_off f = 0 -> p_len f = 4 ->
  (forall b', contents b' = on_the_wire m -> Q (Ok tt) (mkCst m0 b')) ->
  wp (out_Fill f (be_put 4 (u32 (WrittenLen b - Size32)))) (mkCst m0 b) Q.
Proof.
  intros Hs T L C O N HQ. pose proof (s_small m Hs) as Hsm. unfold on_the_wire in *. rewrite T in *.
  eapply (wp_out_Fill f _ [] hole (tt_head (header_param m) ++ framed_payload m));
    [done|done|by rewrite N|unfold lenZ in L; rewrite length_be_put; lia|].
  intros b' C'. apply HQ. rewrite C'. unfold WrittenLen. rewrite C. cbn [app]. do 2 f_equal.
  unfold lenZ, Size32 in *. rewrite !length_app, ?length_be_put in *. rewrite u32_id; lia.
Qed.

Lemma Encode_ok m b :
  sends m -> contents b = [] ->
  wp (Encode pcs c) (mkCst m b) (fun o s => o = Ok tt /\ contents (cio s) = on_the_wire m).
Proof.
  intros Hs Hb. pose proof Hs as [Hpc Hct _ Hp Hf Hsd Hv Hh Hsm Hl].
  pose proof (wire_le_framed m). pose proof (framed_le_wire m).
  unfold Encode, EncodeMetaAndPayload. do 2 cstep. destruct (has (transProto (ri m)) TTHeader) eqn:T.
  2:{ eapply wp_mono; [apply EncodePayload_ok; try done; [lia|]|].
      - rewrite Hb. unfold on_the_wire in *. rewrite T in *. done.
      - intros o s (-> & _ & C). split; [done|]. unfold on_the_wire. by rewrite T, C, Hb. }
  specialize (Hh eq_refl). assert (lenZ (on_the_wire m) = 4 + lenZ (tt_head (header_param m)) + lenZ (framed_payload m)) as Lw.
  { unfold on_the_wire. rewrite T. unfold lenZ. rewrite !length_app, length_be_put. lia. }
  destruct Hv as [Ev|Ev]; rewrite Ev.
  - rewrite header_param_plain in Hh by done. cstep. apply wp_tt_encode; [done|].
    intros f b1 hole L C O N. rewrite <- header_param_plain in C by done. cstep.
    eapply wp_mono; [apply EncodePayload_ok; try done; [lia|]|].
    + rewrite C, Hb. intros Hm. specialize (Hl Hm). unfold lenZ in *. cbn [app]. rewrite length_app. lia.
    + intros o [m2 b2] (-> & _ & C2). cbn [cio] in C2. do 2 cstep. rewrite C, Hb in C2. rewrite Hb in O.
      eapply (wp_fill_total f m); [done|done|exact L| |done|done|done].
      rewrite C2. cbn [app]. by rewrite <- app_assoc.
  - unfold encodeMetaAndPayloadWithPayloadValidator. cstep. unfold in_link_buffer. unfold wp at 1. cbn [cm cio].
    pose proof (EncodePayload_ok m NewLinkBuffer Hpc Hct Hsd Hf) as E. rewrite NewLinkBuffer_empty in E.
    specialize (E ltac:(lia)). unfold wp in E.
    destruct (EncodePayload pcs c (mkCst m NewLinkBuffer)) as [o [m1 bl]]. cbn [fst snd cm cio] in *.
    destruct E as (-> & [n ->] & C).
    { intros Hm. specialize (Hl Hm). change (lenZ (@nil byte)) with 0. unfold lenZ in *. lia. }
    destruct (lb_Bytes_reliable bl ltac:(done)) as [payload Hpl]. rewrite Hpl.
    apply lb_Bytes_ok in Hpl. rewrite C in Hpl. cbn [app] in Hpl. subst payload.
    cstep. unfold payloadChecksumGenerate. do 2 cstep.
    change (pv_Generate NewCRC32PayloadValidator (vctx_of (set_sendSize n m)) (framed_payload m))
      with (Some (true, getCRC32C true (framed_payload m))). cbn beta iota.
    assert ((maxPayloadChecksumLength <? lenZ (getCRC32C true (framed_payload m))) = false) as ->.
    { unfold lenZ. by rewrite length_getCRC32C. }
    cstep. do 2 cstep. apply wp_bind. apply wp_tt_encode.
    { unfold header_param, with_checksum in Hh. rewrite Ev in Hh. exact Hh. }
    intros f b1 hole L C1 O N. cstep. unfold out_Write_err, wp at 1. cbn [cio cm].
    pose proof (WriteBytes_reliable (framed_payload m) b1) as Hw.
    destruct (WriteBytes (framed_payload m) b1) as [ok b2] eqn:Ew. simpl in Hw. subst ok.
    apply WriteBytes_ok in Ew. cbn [fst snd]. do 3 cstep.
    rewrite Hb in O. eapply (wp_fill_total f m); [done|done|exact L| |done|done|done].
    rewrite Ew, C1, Hb. cbn [app]. rewrite <- app_assoc. do 3 f_equal. unfold header_param, with_checksum. by rewrite Ev.
Qed.

(** ** Decoding *)

(** What the receiver's message [m'] is once a header with the parameters [p] and [n]
    bytes of payload is read, and the frame of [m] after its header. *)
Definition header_only (p : EncodeParam) m' (n : Z) : message D :=
  let m1 := setFlags (e_Flags p) m' in
  let m2 := if (msgType m1 =? Call) || (msgType m1 =? Oneway) then set_seqID (e_SeqID p) m1 else m1 in
  let m3 := PutTransStrInfo (e_StrInfo p) (PutTransIntInfo (e_IntInfo p) m2) in
  set_payloadSize n (fillBasicInfoOfTTHeader m3).

Definition header_read m m' : message D :=
  let m1 := header_only (header_param m) m' (lenZ (framed_payload m)) in
  match Validator c with Some _ => fst (fillRPCInfoBeforeValidate m1) | None => m1 end.

Definition meta_read m m' : message D :=
  let m1 := if has (transProto (ri m)) TTHeader then header_read m m' else m' in
  let m2 := if has (transProto (ri m)) Framed then set_payloadSize (lenZ (wire K m)) m1 else m1 in
  set_codecType ct (set_transProto (transProto (ri m)) m2).

Lemma wp_take_frame w rest m' r (Q : outcome cerr unit -> cst D R -> Prop) :
  remaining r = be_put 4 (lenZ w) ++ w ++ rest -> lenZ w < 2 ^ 32 ->
  (forall r', remaining r' = w ++ rest -> in_ReadLen r' = in_ReadLen r + 4 ->
     Q (Ok tt) (mkCst (set_payloadSize (lenZ w) m') r')) ->
  wp (take_frame (take 8 (be_put 4 (lenZ w) ++ w ++ rest))) (mkCst m' r) Q.
Proof.
  intros Hr Hw HQ. unfold take_frame. cstep.
  eapply wp_lift_pure; [apply first4_put; unfold lenZ in *; lia|]. cbn beta iota. do 2 cstep.
  apply wp_rd_Skip; [done| |].
  - intros _ r' Er El. apply HQ; [|done]. rewrite Er, Hr. by rewrite drop_app_length' by (by rewrite length_be_put).
  - rewrite Hr. unfold lenZ, Size32. rewrite length_app, length_be_put. lia.
Qed.

Lemma wp_record n tp t m' r (Q : outcome cerr unit -> cst D R -> Prop) :
  (0 < MaxSize c -> n <= MaxSize c) -> payloadSize m' <= n ->
  Q (Ok tt) (mkCst (set_codecType t (set_transProto tp m')) r) ->
  wp (m0 ← get_msg; fail_if (checkPayloadSize (payloadSize m0) (MaxSize c));;
      on_msg (set_transProto tp);; on_msg (set_codecType t)) (mkCst m' r) Q.
Proof. intros Hl Hn HQ. do 3 cstep. unfold fail_if. rewrite (size_ok n) by done. by do 4 cstep. Qed.

Lemma protocol_framed m tt_ :
  transProto (ri m) ∈ [PurePayload; TTHeader; Framed; TTHeaderFramed] -> tt_ = has (transProto (ri m)) TTHeader ->
  transProto (ri m) = if has (transProto (ri m)) Framed then (if tt_ then TTHeaderFramed else Framed)
                      else (if tt_ then TTHeader else PurePayload).
Proof.
  intros Hp ->. rewrite !elem_of_cons, elem_of_nil in Hp. by destruct Hp as [E|[E|[E|[E|[]]]]]; rewrite E.
Qed.

Lemma checkPayload_ok m m' r rest :
  sends m -> remaining r = framed_payload m ++ rest ->
  (has (transProto (ri m)) Framed = false -> 0 < MaxSize c -> payloadSize m' <= MaxSize c) ->
  wp (checkPayload c (take 8 (framed_payload m ++ rest)) (has (transProto (ri m)) TTHeader)) (mkCst m' r) (fun o s =>
    o = Ok tt
    /\ cm s = set_codecType ct (set_transProto (transProto (ri m))
                (if has (transProto (ri m)) Framed then set_payloadSize (lenZ (wire K m)) m' else m'))
    /\ remaining (cio s) = wire K m ++ rest
    /\ in_ReadLen (cio s) = in_ReadLen r + (if has (transProto (ri m)) Framed then 4 else 0)).
Proof.
  intros Hs Hr Hz. pose proof Hs as [Hpc Hct Hc Hp Hf Hsd Hv Hh Hsm Hl].
  pose proof (wire_le_framed m) as L1. pose proof (framed_le_wire m) as L2. pose proof (wire_long _ _ K m Hsd) as L8.
  pose proof (wire_magic _ _ K m Hsd) as Mg. unfold framed_payload in *.
  assert (forall x, take 4 (wire K m ++ x) = take 4 (wire K m)) as T4.
  { intros x. apply take_app_le. unfold lenZ in L8. lia. }
  pose proof (protocol_framed m _ Hp eq_refl) as Etp.
  unfold checkPayload. cstep. destruct (has (transProto (ri m)) Framed) eqn:F.
  - rewrite <- app_assoc in *.
    set (f := take 8 (be_put 4 (lenZ (wire K m)) ++ wire K m ++ rest)).
    assert (first4 f = Ok (lenZ (wire K m))) as F1 by (apply first4_put; unfold lenZ in *; lia).
    assert (second4 f = Ok (be_get (take 4 (wire K m)))) as F2.
    { subst f. rewrite second4_put, T4 by (unfold lenZ in *; rewrite length_app; lia). done. }
    assert (isThriftBinary f = Ok false) as E1.
    { unfold isThriftBinary. rewrite F1. simpl. rewrite length_no_magic by (unfold lenZ in *; done || lia). done. }
    lstep E1. rewrite <- Etp.
    assert (isThriftFramedBinary f = Ok (codec_magic ct =? ThriftV1Magic)) as E2.
    { unfold isThriftFramedBinary. by rewrite F2, <- Mg. }
    assert (isProtobufKitex f = Ok (codec_magic ct =? ProtobufV1Magic)) as E3.
    { unfold isProtobufKitex. by rewrite F2, <- Mg. }
    lstep E2. destruct Hc as [Ec|Ec].
    + assert (codec_magic ct = ThriftV1Magic) as -> by (by rewrite Ec).
      change (ThriftV1Magic =? ThriftV1Magic) with true. cbn iota. rewrite <- Ec. cstep.
      apply wp_take_frame; [done|lia|]. intros r' Er El. cstep.
      apply (wp_record (lenZ (on_the_wire m))); [done|simpl; lia|done].
    + assert (codec_magic ct = ProtobufV1Magic) as Em by (by rewrite Ec). rewrite Em in *.
      change (ProtobufV1Magic =? ThriftV1Magic) with false. cbn iota. lstep E3.
      change (ProtobufV1Magic =? ProtobufV1Magic) with true. cbn iota. rewrite <- Ec. cstep.
      apply wp_take_frame; [done|lia|]. intros r' Er El. cstep.
      apply (wp_record (lenZ (on_the_wire m))); [done|simpl; lia|done].
  - destruct Hc as [Ec|Ec]; [|specialize (Hf Ec); discriminate].
    assert (isThriftBinary (take 8 (wire K m ++ rest)) = Ok true) as E1.
    { unfold isThriftBinary. rewrite first4_ok by (unfold lenZ in *; rewrite length_take, length_app; lia).
      rewrite take_take, Nat.min_l, T4 by lia. simpl. rewrite Mg. by rewrite Ec. }
    lstep E1. rewrite <- Etp. cstep. rewrite <- Ec.
    apply (wp_record (payloadSize m')); [auto|done|]. cbn [cm cio]. repeat split; [done|lia].
Qed.

Lemma wp_ignore_seq m0 v r (Q : outcome cerr unit -> cst D R -> Prop) :
  Q (Ok tt) (mkCst (if (msgType m0 =? Call) || (msgType m0 =? Oneway) then set_seqID v m0 else m0) r) ->
  wp (ignore_err (SetOrCheckSeqID v)) (mkCst m0 r) Q.
Proof.
  intros HQ. unfold wp, ignore_err, SetOrCheckSeqID, get_msg, gets, mbind, M_bind. cbn [cm].
  destruct (_ || _); [done|]. destruct (msgType m0 =? Reply); [|done]. by destruct (seqID (ri m0) =? v).
Qed.

(** Neither of the two fills touches what the codec goes on to use. *)
Lemma fillBasic_infos m0 : strInfo (fillBasicInfoOfTTHeader m0) = strInfo m0.
Proof. unfold fillBasicInfoOfTTHeader. by repeat case_match. Qed.

Lemma fillBasic_ints m0 : intInfo (fillBasicInfoOfTTHeader m0) = intInfo m0.
Proof. unfold fillBasicInfoOfTTHeader. by repeat case_match. Qed.

Lemma fillRPCInfo_keeps m0 :
  strInfo (fst (fillRPCInfoBeforeValidate m0)) = strInfo m0
  /\ payloadSize (fst (fillRPCInfoBeforeValidate m0)) = payloadSize m0
  /\ intInfo (fst (fillRPCInfoBeforeValidate m0)) = intInfo m0.
Proof. unfold fillRPCInfoBeforeValidate. by repeat case_match. Qed.

Lemma payloadSize_header_read m m' : payloadSize (header_read m m') = lenZ (framed_payload m).
Proof. unfold header_read. case_match; [|done]. by rewrite (proj1 (proj2 (fillRPCInfo_keeps _))). Qed.

(** The header's information goes before what the receiver had. *)
Lemma infos_header_read m m' :
  intInfo (header_read m m') = intInfo m ∪ intInfo m'
  /\ strInfo (header_read m m') = strInfo (with_checksum m) ∪ strInfo m'.
Proof.
  assert (intInfo (header_only (header_param m) m' (lenZ (framed_payload m))) = intInfo m ∪ intInfo m'
    /\ strInfo (header_only (header_param m) m' (lenZ (framed_payload m))) = strInfo (with_checksum m) ∪ strInfo m') as [Ei Es].
  { unfold header_only. cbn [set_payloadSize strInfo intInfo]. rewrite fillBasic_infos, fillBasic_ints.
    unfold setFlags. unfold header_param, with_checksum. split; by repeat case_match. }
  unfold header_read. destruct (Validator c); [|done]. destruct (fillRPCInfo_keeps
    (header_only (header_param m) m' (lenZ (framed_payload m)))) as (-> & _ & ->). done.
Qed.

(** The header of [m], and the check of the payload [w] that follows it: the codec's
    [payloadChecksumValidate] passes exactly when [w] has the checksum sent. *)
Lemma checksum_verdict m0 r w rest v (Q : outcome cerr unit -> cst D R -> Prop) :
  remaining r = w ++ rest -> payloadSize m0 = lenZ w -> strInfo m0 !! HeaderCRC32C = Some v -> v <> [] ->
  (getCRC32C true w = v -> forall r', remaining r' = remaining r -> in_ReadLen r' = in_ReadLen r ->
     Q (Ok tt) (mkCst (fst (fillRPCInfoBeforeValidate m0)) r')) ->
  (getCRC32C true w <> v -> forall s, Q (Err (ValidationErr "validation failed, err")) s) ->
  wp (payloadChecksumValidate NewCRC32PayloadValidator) (mkCst m0 r) Q.
Proof.
  intros Hr Hp Hv Hn HOk HErr. unfold payloadChecksumValidate. do 2 cstep.
  destruct (fillRPCInfo_keeps m0) as (Es & Ep & _). destruct (fillRPCInfoBeforeValidate m0) as [m1 logid]. cbn [fst] in *.
  do 2 cstep. rewrite Ep, Hp. cstep. apply wp_rd_Peek; [unfold lenZ; lia| |].
  - intros _ r' Er El. rewrite Hr. replace (Z.to_nat (lenZ w)) with (length w) by (unfold lenZ; lia).
    rewrite take_app_length. cbn [pv_Validate NewCRC32PayloadValidator crcPayloadValidator].
    change (getValidatorKey (mkVctx (ri m1) logid) (NewCRC32PayloadValidator)) with HeaderCRC32C.
    unfold crc_Validate, str_of, text_eqb. rewrite Es, Hv. cbn [from_option id]. rewrite (bool_decide_false (v = [])) by done.
    destruct (decide (getCRC32C true w = v)) as [E|E].
    + rewrite bool_decide_true by done. cbn [negb]. cstep. by apply HOk.
    + rewrite bool_decide_false by done. cbn [negb]. cstep. by apply HErr.
  - rewrite Hr. unfold lenZ. rewrite length_app. lia.
Qed.

Lemma tt_decode_ok p m' r n rest (Q : outcome cerr unit -> cst D R -> Prop) :
  tt_fits p -> 0 <= n -> lenZ (tt_head p) + n < 2 ^ 32 ->
  remaining r = be_put 4 (lenZ (tt_head p) + n) ++ tt_head p ++ rest ->
  (forall r', remaining r' = rest -> in_ReadLen r' = in_ReadLen r + 4 + lenZ (tt_head p) ->
     Q (Ok tt) (mkCst (header_only p m' n) r')) ->
  wp tt_decode (mkCst m' r) Q.
Proof.
  intros Hf Hn Hs Hr HQ. unfold tt_decode. cstep. unfold wp at 1, tt_lift. cbn [cm cio].
  assert (lenZ (tt_head p) <= lenZ (tt_head p) + n < 2 ^ 32) as Hs' by lia.
  destruct (tt_Decode_spec _ _ _ _ Hf Hs' Hr) as (E & Er & El).
  destruct (tt_Decode r) as [o r']. cbn [fst snd] in *. subst o. cbn [fst snd].
  do 3 cstep. apply wp_ignore_seq. cbn beta iota. do 7 cstep. cbn [d_PayloadLen d_IntInfo d_StrInfo d_Flags d_SeqID].
  replace (_ + n - _) with n by lia. by apply HQ.
Qed.

Lemma sniff_header p n rest :
  IsTTHeader (take 8 (be_put 4 n ++ tt_head p ++ rest)) = Ok true.
Proof.
  unfold IsTTHeader. destruct (tt_head_magic p) as (f & body & Hf & ->).
  rewrite second4_put by (unfold lenZ; rewrite !length_app, length_be_put; lia). unfold has_magic. f_equal.
  rewrite <- app_assoc, take_app_length' by (by rewrite length_be_put).
  rewrite be_get_put_id by (unfold TTHeaderMagic; simpl; lia). apply Z.eqb_eq, land_magic; [done| |done].
  unfold TTHeaderMagic. lia.
Qed.

Lemma sniff_payload m rest :
  sends m -> has (transProto (ri m)) TTHeader = false ->
  IsTTHeader (take 8 (framed_payload m ++ rest)) = Ok false /\ isMeshHeader (take 8 (framed_payload m ++ rest)) = Ok false.
Proof.
  intros Hs T. pose proof Hs as [Hpc Hct Hc Hp Hf Hsd Hv Hh Hsm Hl].
  pose proof (wire_le_framed m) as L1. pose proof (framed_le_wire m) as L2. pose proof (wire_long _ _ K m Hsd) as L8.
  pose proof (wire_magic _ _ K m Hsd) as Mg. unfold framed_payload in *.
  destruct (has (transProto (ri m)) Framed) eqn:F.
  - rewrite <- app_assoc. unfold IsTTHeader, isMeshHeader.
    rewrite second4_put, first4_put by (unfold lenZ in *; rewrite ?length_app; lia). simpl.
    rewrite take_app_le by (unfold lenZ in *; lia). rewrite Mg. split; [by destruct Hc as [E|E]; rewrite E|].
    f_equal. apply length_no_magic; [unfold lenZ in *; lia|done].
  - assert (take 8 (wire K m ++ rest) = take 8 (wire K m)) as -> by (apply take_app_le; unfold lenZ in *; lia).
    split; [by apply (wire_not_ttheader _ _ K)|]. unfold isMeshHeader.
    rewrite first4_ok by (unfold lenZ in *; rewrite length_take; lia). simpl. rewrite take_take, Nat.min_l, Mg by lia.
    by destruct Hc as [E|E]; rewrite E.
Qed.

Lemma DecodeMeta_ok m m' r rest :
  sends m -> payloadSize m' = 0 -> remaining r = on_the_wire m ++ rest ->
  wp (DecodeMeta c) (mkCst m' r) (fun o s =>
    o = Ok tt /\ cm s = meta_read m m' /\ remaining (cio s) = wire K m ++ rest).
Proof.
  intros Hs Hz Hr. pose proof Hs as [Hpc Hct Hc Hp Hf Hsd Hv Hh Hsm Hl].
  pose proof (wire_le_framed m) as L1. pose proof (framed_le_wire m) as L2. pose proof (wire_long _ _ K m Hsd) as L8.
  assert (8 <= lenZ (framed_payload m ++ rest)) as L8' by (unfold lenZ in *; rewrite length_app; lia).
  unfold DecodeMeta, meta_read. do 2 cstep. apply wp_rd_Peek; [done| |].
  2:{ rewrite Hr. unfold lenZ, Size32 in *. rewrite length_app. lia. }
  intros _ r1 Er1 El1. change (Z.to_nat (2 * Size32)) with 8%nat. rewrite Hr. unfold on_the_wire in Hr, Hsm, Hl |- *.
  destruct (has (transProto (ri m)) TTHeader) eqn:T.
  - rewrite <- !app_assoc. lstep (sniff_header (header_param m) (lenZ (tt_head (header_param m)) + lenZ (framed_payload m)) (framed_payload m ++ rest)). cstep.
    apply (tt_decode_ok (header_param m) m' r1 (lenZ (framed_payload m)) (framed_payload m ++ rest)).
    + auto.
    + unfold lenZ; lia.
    + unfold lenZ in *. rewrite !length_app in Hsm. lia.
    + by rewrite Er1, Hr, <- !app_assoc.
    + intros r2 Er2 _. do 2 cstep. apply wp_rd_Peek; [done| |].
      2:{ rewrite Er2. unfold lenZ, Size32 in *. lia. }
      intros _ r3 Er3 _. change (Z.to_nat (2 * Size32)) with 8%nat. rewrite Er2. cstep.
      assert (forall m2 r4, remaining r4 = framed_payload m ++ rest -> m2 = header_read m m' ->
        wp (checkPayload c (take 8 (framed_payload m ++ rest)) true) (mkCst m2 r4) (fun o s => o = Ok tt /\
          cm s = set_codecType ct (set_transProto (transProto (ri m))
            (if has (transProto (ri m)) Framed then set_payloadSize (lenZ (wire K m)) (header_read m m') else header_read m m'))
          /\ remaining (cio s) = wire K m ++ rest)) as Fin.
      { intros m2 r4 Er4 ->. rewrite <- T.
        eapply wp_mono; [apply checkPayload_ok; [done|done|]|by intros o s (-> & -> & -> & _)].
        intros _ Hm. rewrite payloadSize_header_read. specialize (Hl Hm). unfold lenZ in *. rewrite !length_app in Hl. lia. }
      destruct Hv as [Ev|Ev]; rewrite Ev.
      * cstep. apply Fin; [by rewrite Er3|]. unfold header_read, header_only. by rewrite Ev.
      * apply (checksum_verdict _ _ (framed_payload m) rest (getCRC32C true (framed_payload m))).
        -- by rewrite Er3.
        -- done.
        -- unfold header_only. cbn [set_payloadSize strInfo]. rewrite fillBasic_infos. cbn [PutTransStrInfo set_strInfo strInfo].
           apply lookup_union_Some_l. unfold header_param, with_checksum. rewrite Ev. cbn [set_payloadSize set_strInfo strInfo e_StrInfo].
           by rewrite lookup_insert_eq.
        -- done.
        -- intros _ r4 Er4 _. apply Fin; [by rewrite Er4, Er3|]. unfold header_read, header_only. by rewrite Ev.
        -- done.
  - destruct (sniff_payload m rest Hs T) as [E1 E2]. lstep E1. lstep E2.
    rewrite <- T. eapply wp_mono; [apply checkPayload_ok; [done|by rewrite Er1|]|by intros o s (-> & -> & -> & _)].
    intros _ Hm. lia.
Qed.

(** What the receiver ends up with. *)
Definition received m m' (n : Z) : message D :=
  let d := delivered K m (meta_read m m') in
  set_recvSize n (if payloadSize d =? 0 then set_payloadSize (lenZ (wire K m)) d else d).

Lemma Decode_ok m m' r rest :
  sends m -> payloadSize m' = 0 -> receives K m (meta_read m m') -> remaining r = on_the_wire m ++ rest ->
  wp (Decode pcs c) (mkCst m' r) (fun o s =>
    o = Ok tt /\ (exists n, cm s = received m m' n) /\ remaining (cio s) = rest).
Proof.
  intros Hs Hz Hrc Hr. unfold Decode. cstep. eapply wp_mono; [by apply (DecodeMeta_ok m)|].
  intros o [m1 r1] (-> & E & Er). cbn [cm cio] in *. subst m1.
  unfold DecodePayload. do 5 cstep.
  assert (GetPayloadCodec pcs (meta_read m m') = Some pc) as ->.
  { pose proof (s_codec m Hs) as Hpc. unfold GetPayloadCodec in *. destruct (pc_custom pcs); [done|].
    by rewrite (s_type m Hs) in Hpc. }
  cstep. eapply wp_mono; [by eapply (Unmarshal_ok _ _ K); [apply (s_sendable m Hs)|..]|].
  intros o [m2 r2] (-> & E & Er2 & El). cbn [cm cio] in *. subst m2. do 2 cstep.
  unfold received. destruct (payloadSize _ =? 0); repeat cstep; cbn [record_recv cm cio].
  - replace (in_ReadLen r2 - in_ReadLen r1) with (lenZ (wire K m)) by lia. eauto.
  - eauto.
Qed.

(** What [Encode] writes, [Decode] reads back whatever follows it on the connection. *)
Lemma codec_roundtrip m m' b :
  sends m -> contents b = [] -> payloadSize m' = 0 -> receives K m (meta_read m m') ->
  exists s, Encode pcs c (mkCst m b) = (Ok tt, s) /\
    (forall r rest, remaining r = contents (cio s) ++ rest ->
     exists n r', Decode pcs c (mkCst m' r) = (Ok tt, mkCst (received m m' n) r') /\ remaining r' = rest).
Proof.
  intros Hs Hb Hz Hrc. pose proof (Encode_ok m b Hs Hb) as E. unfold wp in E.
  destruct (Encode pcs c (mkCst m b)) as [o s]. cbn [fst snd] in E. destruct E as [-> C]. exists s. split; [done|].
  rewrite C. intros r rest Hr. pose proof (Decode_ok m m' r rest Hs Hz Hrc Hr) as E. unfold wp in E.
  destruct (Decode pcs c (mkCst m' r)) as [o [m2 r2]]. cbn [fst snd cm cio] in E. destruct E as (-> & [n E] & Er).
  subst m2. eauto.
Qed.
End roundtrip.

(** * Any bytes *)

Section safety.
Context {D B R : Type} `{!OutBuffer B, !InBuffer R, !LinkBuffer B, !TTHeaderLib B R}.
Variable c : CodecConfig D.
Implicit Types (m : message D) (r : R).

(** The postcondition of a step of the decoder that may fail but not panic. *)
Definition safely {A} (P : A -> message D -> Prop) (o : outcome cerr A) (s : cst D R) : Prop :=
  match o with Ok a => P a (cm s) | Err _ => True | Panic => False end.

Lemma safe_bind {A A'} (f : CM D R A) (g : A -> CM D R A') s P P' :
  wp f s (safely P) -> (forall a s', P a (cm s') -> wp (g a) s' (safely P')) -> wp (f ≫= g) s (safely P').
Proof.
  intros Hf Hg. apply wp_bind. eapply wp_mono; [exact Hf|]. intros [a|e|] s' Hs; [by apply Hg|done|done].
Qed.

Lemma safe_Peek n s : 0 <= n -> wp (rd_Peek n) s (safely (fun b m => m = cm s /\ lenZ b = n)).
Proof.
  destruct s as [m r]. intros Hn. apply wp_rd_Peek; [done| |done]. intros L r' _ _. split; [done|].
  unfold lenZ in *. rewrite length_take. lia.
Qed.

Lemma safe_Next n s : 0 <= n -> wp (rd_Next n) s (safely (fun b m => m = cm s /\ lenZ b = n)).
Proof.
  destruct s as [m r]. intros Hn. apply wp_rd_Next; [done| |done]. intros L r' _ _. split; [done|].
  unfold lenZ in *. rewrite length_take. lia.
Qed.

Lemma safe_pure {A} (o : outcome unit A) (s : cst D R) (P : A -> Prop) :
  match o with Ok a => P a | Err _ => True | Panic => False end ->
  wp (lift_pure o) s (safely (fun a m => P a /\ m = cm s)).
Proof. by destruct o. Qed.

Lemma safe_map_err {A} f (k : CM D R A) s P : wp k s (safely P) -> wp (map_err f k) s (safely P).
Proof. intros Hk. apply wp_map_err. eapply wp_mono; [exact Hk|]. by intros [a|e|] s'. Qed.

Lemma safe_on_msg f s (P : unit -> message D -> Prop) : P tt (f (cm s)) -> wp (on_msg f) s (safely P).
Proof. destruct s. done. Qed.

Lemma safe_mono {A} (k : CM D R A) s (P P' : A -> message D -> Prop) :
  wp k s (safely P) -> (forall a m, P a m -> P' a m) -> wp k s (safely P').
Proof. intros Hk HP. eapply wp_mono; [exact Hk|]. intros [a|e|] s'; simpl; auto. Qed.

Lemma safe_tt_decode s : wp tt_decode s (safely (fun _ m => 0 <= payloadSize m)).
Proof.
  destruct s as [m r]. unfold tt_decode. apply (safe_bind _ _ _ (fun d _ => 0 <= d_PayloadLen d)).
  - unfold wp, tt_lift. cbn [cm cio]. pose proof (tt_Decode_len r) as L.
    destruct (tt_Decode r) as [[d|] r']; simpl; [by apply L|done].
  - intros d [m1 r1] Hd. do 3 cstep. apply wp_ignore_seq. cbn beta iota. by do 7 cstep.
Qed.

Lemma be_get_nonneg l : 0 <= be_get l.
Proof. apply (be_get_range l). Qed.

(** The tests of a long enough buffer do not panic. *)
Lemma safe_magic magic (o : outcome unit Z) z (s : cst D R) :
  o = Ok z -> wp (lift_pure (has_magic magic o)) s (safely (fun _ m => m = cm s)).
Proof. by intros ->. Qed.

(** The two guards keep every index of a mesh header in range. *)
Lemma Bytes2Uint16_safe b off :
  0 <= off -> match Bytes2Uint16 b off with Ok z => off + 2 <= lenZ b /\ 0 <= z | Err _ => True | Panic => False end.
Proof.
  intros Ho. unfold Bytes2Uint16. destruct (lenZ b - off <? 2) eqn:E; bool_to_prop; [done|].
  rewrite slice_from_ok by lia. rewrite BigEndian_Uint_ok by (unfold lenZ in *; rewrite length_drop; lia).
  split; [lia|apply be_get_nonneg].
Qed.

Lemma ReadString2BLen_safe b off :
  0 <= off -> match ReadString2BLen b off with Ok (_, n) => 2 <= n | Err _ => True | Panic => False end.
Proof.
  intros Ho. unfold ReadString2BLen. pose proof (Bytes2Uint16_safe b off Ho) as H.
  destruct (Bytes2Uint16 b off) as [z| |]; [|done|done]. destruct H as [H Hz]. cbn zeta.
  destruct (_ <? z) eqn:E; bool_to_prop; [done|]. rewrite slice_range_ok by lia. lia.
Qed.

Lemma read_kvs_safe n b : forall idx info, 0 <= idx -> (read_kvs n idx b info).2 <> Panic.
Proof.
  induction n as [|n IH]; intros idx info Hi; simpl; [done|].
  pose proof (ReadString2BLen_safe b idx Hi) as H1. destruct (ReadString2BLen b idx) as [[k n1]| |]; [|done|done].
  pose proof (ReadString2BLen_safe b (idx + n1) ltac:(lia)) as H2.
  destruct (ReadString2BLen b (idx + n1)) as [[v n2]| |]; [|done|done]. apply IH. lia.
Qed.

Lemma readStrKVInfo_safe idx b info : 0 <= idx -> (readStrKVInfo idx b info).2 <> Panic.
Proof.
  intros Hi. unfold readStrKVInfo. pose proof (Bytes2Uint16_safe b idx Hi) as H.
  destruct (Bytes2Uint16 b idx) as [z| |]; [|done|done]. cbn zeta. destruct (z <=? 0); [done|].
  pose proof (read_kvs_safe (Z.to_nat z) b (idx + 2) info ltac:(lia)) as H1.
  destruct (read_kvs _ _ _ _) as [[i kv] [| |]]; done.
Qed.

Lemma safe_mesh_decode s : wp mesh_decode s (safely (fun _ m => payloadSize m = payloadSize (cm s))).
Proof.
  unfold mesh_decode. eapply safe_bind; [apply safe_map_err, safe_Next; done|].
  intros hm s1 [E1 L]. unfold Size32, lenZ in L.
  eapply safe_bind; [eapply safe_magic, first4_ok; lia|]. intros isMesh s2 E2. cbn beta.
  destruct (negb _); [done|].
  eapply safe_bind; [apply (safe_pure _ _ (fun b => lenZ b = 2))|].
  { rewrite slice_from_ok by (unfold lenZ, Size16; lia). unfold lenZ. rewrite length_drop. unfold Size16. lia. }
  intros lf s3 [Lf E3]. eapply safe_bind; [apply (safe_pure _ _ (fun z => 0 <= z))|].
  { rewrite BigEndian_Uint_ok by (unfold lenZ in Lf; lia). apply be_get_nonneg. }
  intros hl s4 [Hl E4]. eapply safe_bind; [by apply safe_map_err, safe_Next|].
  intros hi [m2 r2] [E5 _]. do 2 cstep. pose proof (readStrKVInfo_safe 0 hi (strInfo m2) ltac:(lia)) as Hk.
  destruct (readStrKVInfo 0 hi (strInfo m2)) as [[idx info] o]. cbn [snd] in Hk.
  do 2 cstep. eapply safe_bind; [apply safe_map_err, (safe_pure _ _ (fun _ => True)); by destruct o|].
  intros ? [m6 r6] [_ E6]. cstep. cbn [safely cm] in *. subst m6. rewrite <- E1, <- E2, <- E3, <- E4, <- E5.
  unfold fillBasicInfoOfTTHeader. by repeat case_match.
Qed.

Lemma safe_validate pv s :
  0 <= payloadSize (cm s) -> wp (payloadChecksumValidate pv) s (safely (fun _ _ => True)).
Proof.
  destruct s as [m r]. intros Hp. unfold payloadChecksumValidate. do 2 cstep.
  pose proof (proj1 (proj2 (fillRPCInfo_keeps m))) as Ep. destruct (fillRPCInfoBeforeValidate m) as [m1 l]. cbn [fst] in Ep.
  do 2 cstep. eapply safe_bind; [apply safe_Peek; simpl in *; lia|].
  intros payload s' _. by destruct (pv_Validate _ _ _ _) as [[]|].
Qed.

(** What sniffing leaves in the message. *)
Definition sniffed (m : message D) : Prop :=
  (0 < MaxSize c -> payloadSize m <= MaxSize c)
  /\ (codecType (ri m) = Thrift /\ transProto (ri m) ∈ [PurePayload; TTHeader; Framed; TTHeaderFramed]
      \/ codecType (ri m) = Protobuf /\ transProto (ri m) ∈ [Framed; TTHeaderFramed]).

Lemma safe_take_frame f s : lenZ f = 8 -> wp (take_frame f) s (safely (fun _ _ => True)).
Proof.
  destruct s as [m r]. intros L. unfold take_frame, lenZ in *. cstep.
  eapply wp_lift_pure; [apply first4_ok; lia|]. cbn beta iota. do 2 cstep. by apply wp_rd_Skip.
Qed.

Lemma safe_checkPayload f tt_ s : lenZ f = 8 -> wp (checkPayload c f tt_) s (safely (fun _ => sniffed)).
Proof.
  intros L. assert (first4 f = Ok (be_get (take 4 f))) as F1 by (apply first4_ok; unfold lenZ in *; lia).
  assert (second4 f = Ok (be_get (take 4 (drop 4 f)))) as F2 by (apply second4_ok; unfold lenZ in *; lia).
  unfold checkPayload.
  eapply (safe_bind _ _ _ (fun pc _ =>
    snd pc = Thrift /\ fst pc ∈ [PurePayload; TTHeader; Framed; TTHeaderFramed]
    \/ snd pc = Protobuf /\ fst pc ∈ [Framed; TTHeaderFramed])).
  - eapply safe_bind; [eapply safe_magic, F1|]. intros [] s1 _; cbn beta iota.
    { cstep; simpl; destruct tt_; set_solver. }
    eapply safe_bind; [eapply safe_magic, F2|]. intros [] s2 _; cbn beta iota.
    { eapply safe_bind; [by apply safe_take_frame|]. intros ? ? _. cstep. simpl. destruct tt_; set_solver. }
    eapply safe_bind; [eapply safe_magic, F2|]. intros [] s3 _; cbn beta iota.
    { eapply safe_bind; [by apply safe_take_frame|]. intros ? ? _. cstep. simpl. destruct tt_; set_solver. }
    lstep F1. lstep F2. done.
  - intros [tp t] [m1 r1] Hpc. do 3 cstep. unfold fail_if.
    destruct (checkPayloadSize (payloadSize m1) (MaxSize c)) eqn:E; cstep; [done|]. do 3 cstep.
    cbn [safely fst snd]. split; [|exact Hpc]. intros Hm. unfold checkPayloadSize in E.
    change (payloadSize m1 <= MaxSize c).
    destruct (_ && _ && _) eqn:B1; [done|]. rewrite !andb_false_iff in B1. rewrite !Z.ltb_ge in B1. lia.
Qed.

Lemma DecodeMeta_safe s : wp (DecodeMeta c) s (safely (fun _ => sniffed)).
Proof.
  unfold DecodeMeta. eapply safe_bind; [apply safe_map_err, safe_Peek; done|]. intros f s1 [_ L].
  change (2 * Size32) with 8 in L.
  eapply safe_bind; [eapply safe_magic, second4_ok; unfold lenZ in L; lia|]. intros [] s2 _; cbn beta iota.
  - eapply safe_bind; [apply safe_tt_decode|]. intros [] s3 H3.
    eapply safe_bind; [apply safe_map_err, safe_Peek; done|]. intros f2 s4 [E4 L4]. simpl in E4.
    eapply (safe_bind _ _ _ (fun _ _ => True)); [|intros; by apply safe_checkPayload].
    destruct (Validator c); [apply safe_validate; by rewrite E4|done].
  - eapply safe_bind; [eapply safe_magic, first4_ok; unfold lenZ in L; lia|]. intros [] s3 _; cbn beta iota; [|by apply safe_checkPayload].
    eapply safe_bind; [by apply (safe_on_msg _ _ (fun _ _ => True))|]. intros ? s4 _.
    eapply safe_bind; [apply safe_mesh_decode|]. intros ? s5 _.
    eapply safe_bind; [apply safe_map_err, safe_Peek; done|]. intros f2 s6 [_ L6]. by apply safe_checkPayload.
Qed.
End safety.

(** A TTHeader message on the wire: the header with the parameters [p], the payload [w] and
    whatever follows. *)
Definition ttheader_message {B R} `{!OutBuffer B, !InBuffer R, !TTHeaderLib B R} (p : EncodeParam) (w rest : list byte) : list byte :=
  be_put 4 (lenZ (tt_head p) + lenZ w) ++ tt_head p ++ w ++ rest.
Arguments ttheader_message B R {_ _ _}.

(** C35: A payload damaged in transit is refused.  On a codec with the CRC32C check, a
    message whose header carries the checksum of the payload [pre ++ x :: post] but whose
    payload arrives with another byte in the place of [x] makes [DecodeMeta] fail with a
    validation error, whatever the payload, the position and the rest of the connection. *)
Theorem corrupted_payload_refused {D B R} `{!OutBuffer B, !InBuffer R, !LinkBuffer B, !TTHeaderLib B R}
    (cfg : CodecConfig D) (p : EncodeParam) (pre post rest : list byte) (x y : byte) (m : message D) (r : R) :
  CRC32Check cfg = true -> tt_fits p ->
  e_StrInfo p !! HeaderCRC32C = Some (getCRC32C true (pre ++ x :: post)) ->
  x <> y -> 8 <= lenZ (pre ++ y :: post) ->
  lenZ (tt_head p) + lenZ (pre ++ y :: post) < 2 ^ 32 ->
  remaining r = ttheader_message B R p (pre ++ y :: post) rest ->
  fst (DecodeMeta (NewDefaultCodecWithConfig cfg) (mkCst m r)) = Err (ValidationErr "validation failed, err").
Proof.
  intros Hc Hp Hs Hxy L8 Hl Hr. unfold ttheader_message in Hr. unfold NewDefaultCodecWithConfig. rewrite Hc.
  apply (wp_run (DecodeMeta (mkCfg (MaxSize cfg) true (Some NewCRC32PayloadValidator))) (mkCst m r)
    (fun o _ => o = Err (ValidationErr "validation failed, err")) _ _ (surjective_pairing _)).
  unfold DecodeMeta. do 2 cstep. apply wp_rd_Peek; [done| |].
  2:{ rewrite Hr. unfold lenZ, Size32 in *. rewrite !length_app, length_be_put in *. lia. }
  intros _ r1 Er1 _. change (Z.to_nat (2 * Size32)) with 8%nat. rewrite Hr. cstep.
  eapply wp_lift_pure; [apply sniff_header|]. cbn beta iota. cstep.
  apply (tt_decode_ok p m r1 (lenZ (pre ++ y :: post)) ((pre ++ y :: post) ++ rest));
    [done|unfold lenZ; lia|done|by rewrite Er1|].
  intros r2 Er2 _. do 2 cstep. apply wp_rd_Peek; [done| |].
  2:{ rewrite Er2. unfold lenZ, Size32 in *. rewrite length_app. lia. }
  intros _ r3 Er3 _. cstep. cbn [Validator].
  apply (checksum_verdict _ _ (pre ++ y :: post) rest (getCRC32C true (pre ++ x :: post))).
  - by rewrite Er3.
  - done.
  - unfold header_only. cbn [set_payloadSize strInfo]. rewrite fillBasic_infos.
    cbn [PutTransStrInfo set_strInfo strInfo]. by apply lookup_union_Some_l.
  - done.
  - intros E. exfalso. symmetry in E. by apply getCRC32C_one_byte in E.
  - done.
Qed.

(** A header with the checksum of the payload "payload 1", in front of "payload 2". *)
Definition demo_param : EncodeParam :=
  mkEncodeParam 0 7 0 ∅ {[ HeaderCRC32C := getCRC32C true (bs "payload " ++ [Zbyte 49]) ]}.

Definition demo_damaged : list byte := bs "payload " ++ [Zbyte 50].

Definition demo_wire : list byte := ttheader_message (list byte) input demo_param demo_damaged (bs "next").

Definition demo_server : message unit :=
  mkMsg Call Server None 0 ∅ ∅ None false (mkRI 0 [] [] [] None 0 0 None None false 0 0).

Lemma corrupted_payload_refused_witness :
  fst (DecodeMeta (NewDefaultCodecWithConfig (mkCfg 0 true None)) (mkCst demo_server (mkInput demo_wire 0)))
  = Err (ValidationErr "validation failed, err").
Proof.
  apply (corrupted_payload_refused (mkCfg 0 true None) demo_param (bs "payload ") [] (bs "next") (Zbyte 49) (Zbyte 50)).
  - exact eq_refl.
  - vm_compute. done.
  - exact eq_refl.
  - discriminate.
  - vm_compute. discriminate.
  - vm_compute. exact eq_refl.
  - exact eq_refl.
Defined.

(** C36: Sniffing the header of any bytes is safe.  Whatever a peer sends and whatever
    validator is set, [DecodeMeta] returns or fails without a panic: every slice it takes
    of the bytes peeked and of a mesh header, and every integer it reads from one, is in
    range.  When it returns, the message records one of the four transport protocols with
    a payload codec that can carry it, and the declared payload size keeps to the limit if
    there is one.  The buffer gives the bytes asked for or an error, and the TTHeader
    library and the validator return. *)
Theorem decode_meta_any_bytes {D B R} `{!OutBuffer B, !InBuffer R, !LinkBuffer B, !TTHeaderLib B R}
    (c : CodecConfig D) (m : message D) (r : R) :
  match DecodeMeta c (mkCst m r) with
  | (Ok _, s) => sniffed c (cm s)
  | (Err _, _) => True
  | (Panic, _) => False
  end.
Proof.
  pose proof (DecodeMeta_safe c (mkCst m r)) as H. unfold wp, safely in H.
  by destruct (DecodeMeta c (mkCst m r)) as [[[]|e|] s].
Qed.
