(* ===== verification/PbCodec.v ===== *)
(** The protobuf payload codec (src/pkg/remote/codec/protobuf/protobuf.go, pberror.go) and
    its composition with the default codec.

    The message structs are generated code and the protobuf libraries: the class
    [PbData].  The theorem takes a call or a reply from the sender's message through
    [Encode], the connection and [Decode] to the receiver's. *)

From S2P Require Import Prelude GoText ByteBuf CodecBase Crc Codec CodecDemo CodecSpec.

(** * Data objects

    The interfaces a data object may implement; [None] in a result is an error.  A generic
    writer may return something that is not a byte slice. *)
Class PbData (D : Type) := {
  pb_isMsgCodec : D -> bool;
  pb_Marshal : D -> option (list byte);
  pb_Unmarshal : D -> list byte -> option D;
  pb_fastWriter : D -> option (list byte);
  pb_fastReader : D -> option (list byte -> option D);
  pb_genWriter : D -> option (text -> option (option (list byte)));
  pb_genReader : D -> option (text -> list byte -> option D);
  (** the data as a *remote.TransError (type and text) or as another error *)
  as_TransError : D -> option (Z * text);
  as_error : D -> option text;
  (** proto.Marshal and proto.Unmarshal of an ErrorProto *)
  error_Marshal : Z -> text -> option (list byte);
  error_Unmarshal : list byte -> option (Z * text)
}.

Definition metaInfoFixLen : Z := 8.
Definition FrontMask : Z := 0x0000ffff.

(** What is written: the data object or a pbError. *)
Inductive pbValue (D : Type) := PbObject (d : D) | PbError (typeID : Z) (msg : text).
Arguments PbObject {D}. Arguments PbError {D}.

Section codec.
Context {D B R : Type} `{!OutBuffer B, !InBuffer R, !PbData D, !ServiceSearcher D}.

Definition getValidData : CM D B (pbValue D) :=
  NewDataIfNeeded;;
  m ← get_msg;
  match mdata m with
  | None => panic
  | Some d =>
      if negb (msgType m =? Exception) then mret (PbObject d)
      else match as_TransError d with
           | Some (typeID, msg) => mret (PbError typeID msg)
           | None =>
               match as_error d with
               | Some msg => mret (PbError InternalError msg)
               | None => throw (PlainErr "exception relay need error type data")
               end
           end
  end.

Definition write_failed (w : string) : cerr -> cerr := fun _ => NewProtocolErrorWithMsg w.

Definition write_body (body : option (list byte)) : CM D B unit :=
  match body with
  | None => throw (ProtocolErr UnknownProtocolError "protobuf marshal message failed")
  | Some b => map_err (write_failed "protobuf marshal, write message buffer failed") (out_Write b)
  end.

(** The bytes of a message that has a fast writer go into a slice of their size. *)
Definition write_fast (body : list byte) : CM D B unit :=
  buf ← map_err (NewProtocolErrorWithErrMsg "protobuf malloc size failed") (out_Malloc (lenZ body));
  out_Fill buf body.

Definition write_value (name : text) (v : pbValue D) : CM D B unit :=
  match v with
  | PbError typeID msg => write_body (error_Marshal typeID msg)
  | PbObject d =>
      if negb (pb_isMsgCodec d) then
        match pb_genWriter d with
        | Some w =>
            match w name with
            | None => throw (ProtocolErr UnknownProtocolError "protobuf marshal message failed")
            | Some None => panic
            | Some (Some b) => write_body (Some b)
            end
        | None => throw (TransErr InvalidProtocol "encode failed, codec msg type not match with protobufCodec")
        end
      else
        match pb_fastWriter d with
        | Some body => write_fast body
        | None => write_body (pb_Marshal d)
        end
  end.

Definition Marshal : CM D B unit :=
  m ← get_msg;
  let name := methodName (ri m) in
  if text_eqb name [] then throw (PlainErr "empty methodName in protobuf Marshal")
  else
    data ← getValidData;
    m ← get_msg;
    map_err (write_failed "protobuf marshal, write meta info failed") (WriteUint32 (u32 (ProtobufV1Magic + u32 (msgType m))));;
    map_err (write_failed "protobuf marshal, write method name failed") (WriteString name);;
    map_err (write_failed "protobuf marshal, write seqID failed") (WriteUint32 (u32 (seqID (ri m))));;
    write_value name data.

(** [if err = check(); err != nil && msgType != Exception { return err }] *)
Definition unless_exception (mt : Z) (check : CM D R unit) : CM D R unit :=
  if mt =? Exception then ignore_err check else check.

Definition read_value (name : text) (body : list byte) : CM D R unit :=
  m ← get_msg;
  match mdata m with
  | None => panic
  | Some d =>
      match (if bool_decide (body = []) then None else pb_fastReader d) with
      | Some read =>
          match read body with
          | None => throw (TransErr ProtocolError "fastpb read")
          | Some d' => on_msg (set_mdata (Some d'))
          end
      | None =>
          match pb_genReader d with
          | Some read =>
              match read name body with
              | None => throw (PlainErr "generic read")
              | Some d' => on_msg (set_mdata (Some d'))
              end
          | None =>
              if negb (pb_isMsgCodec d)
              then throw (TransErr InvalidProtocol "decode failed, codec msg type not match with protobufCodec")
              else match pb_Unmarshal d body with
                   | None => throw (TransErr ProtocolError "protobuf unmarshal")
                   | Some d' => on_msg (set_mdata (Some d'))
                   end
          end
      end
  end.

Definition Unmarshal : CM D R unit :=
  m ← get_msg;
  let payloadLen := payloadSize m in
  magicAndMsgType ← ReadUint32;
  if negb (Z.land magicAndMsgType MagicMask =? ProtobufV1Magic)
  then throw (ProtocolErr BadVersion "Bad version in protobuf Unmarshal")
  else
    let mt := Z.land magicAndMsgType FrontMask in
    UpdateMsgType mt;;
    nameLen ← map_err (NewProtocolErrorWithErrMsg "protobuf unmarshal, read method name failed") ReadString;
    let name := fst nameLen in
    let methodFieldLen := snd nameLen in
    unless_exception mt (SetOrCheckMethodName name);;
    seq ← map_err (NewProtocolErrorWithErrMsg "protobuf unmarshal, read seqID failed") ReadUint32;
    unless_exception mt (SetOrCheckSeqID (i32 seq));;
    let actualMsgLen := payloadLen - metaInfoFixLen - methodFieldLen in
    body ← map_err (NewProtocolErrorWithErrMsg "protobuf unmarshal, read message buffer failed") (rd_Next actualMsgLen);
    m ← get_msg;
    if msgType m =? Exception then
      match error_Unmarshal body with
      | None => throw (NewProtocolErrorWithMsg "protobuf unmarshal Exception failed")
      | Some (typeID, msg) => throw (RemoteErr typeID msg)
      end
    else
      NewDataIfNeeded;;
      read_value name body.

Definition protobufCodec : PayloadCodec D B R := mkPC Marshal Unmarshal.
End codec.

(** * What arrives of a message *)

Section contract.
Context {D B R : Type} `{!OutBuffer B, !InBuffer R, !PbData D, !ServiceSearcher D}.
Implicit Types m : message D.

(** The bytes of a data object, for a writer of the method [name]. *)
Definition object_bytes (name : text) (d : D) : option (list byte) :=
  if pb_isMsgCodec d then
    match pb_fastWriter d with Some b => Some b | None => pb_Marshal d end
  else
    match pb_genWriter d with Some w => default None (w name) | None => None end.

Definition body m : list byte := default [] (mdata m ≫= object_bytes (methodName (ri m))).

Definition pb_wire m : list byte :=
  be_put 4 (ProtobufV1Magic + msgType m) ++ be_put 4 (lenZ (methodName (ri m))) ++ methodName (ri m)
  ++ be_put 4 (u32 (seqID (ri m))) ++ body m.

(** A call or a reply with data that can be written; the lengths have 32 bits. *)
Record pb_sendable m : Prop := mkPbSendable {
  pb_type : 0 <= msgType m < 2 ^ 16;
  pb_no_exception : msgType m <> Exception;
  pb_name : methodName (ri m) <> [];
  pb_name_short : lenZ (methodName (ri m)) < 2 ^ 28;
  pb_seq : - 2 ^ 31 <= seqID (ri m) < 2 ^ 31;
  pb_data : is_Some (mdata m ≫= object_bytes (methodName (ri m)))
}.

(** The checks of the receiver as functions on its message. *)
Definition accept_type (mt : Z) m : option (message D) :=
  if mt =? msgType m then Some m
  else if match rpcRole m with
          | Server => (mt =? Call) || (mt =? Oneway) || (mt =? Stream)
          | Client => (mt =? Reply) || (mt =? Exception) || (mt =? Stream)
          end
       then Some (set_msgType mt m) else None.

Definition accept_method (name : text) m : option (message D) :=
  match rpcRole m with
  | Client => if text_eqb (methodName (ri m)) name then Some m else None
  | Server =>
      svc ← SearchService (serviceName (ri m)) name (codecType (ri m));
      args ← svc_method svc name;
      e ← to_ep (ri m);
      Some (set_to_ep (Some (set_ep_method name e)) (set_methodInfo (Some args)
        (set_serviceName (svc_name svc) (set_packageName (svc_package svc) (set_methodName name m)))))
  end.

Definition accept_seq (v : Z) m : option (message D) :=
  if (msgType m =? Call) || (msgType m =? Oneway) then Some (set_seqID v m)
  else if (msgType m =? Reply) && negb (seqID (ri m) =? v) then None else Some m.

(** The object to decode into, and the decoded one. *)
Definition object_of m : option D :=
  match mdata m with Some d => Some d | None => default None (methodInfo (ri m)) end.

Definition decode_object (name : text) (b : list byte) (d : D) : option D :=
  match (if bool_decide (b = []) then None else pb_fastReader d) with
  | Some read => read b
  | None =>
      match pb_genReader d with
      | Some read => read name b
      | None => if pb_isMsgCodec d then pb_Unmarshal d b else None
      end
  end.

Definition pb_deliver m m' : option (message D) :=
  m1 ← accept_type (msgType m) m';
  m2 ← accept_method (methodName (ri m)) m1;
  m3 ← accept_seq (seqID (ri m)) m2;
  d ← object_of m3;
  d' ← decode_object (methodName (ri m)) (body m) d;
  Some (set_mdata (Some d') m3).

Definition pb_receives m m' : Prop := payloadSize m' = lenZ (pb_wire m) /\ is_Some (pb_deliver m m').

Definition pb_delivered m m' : message D := default m' (pb_deliver m m').

(** ** The codec's steps *)

Lemma wp_accept_type mt m m1 r (Q : outcome cerr unit -> cst D R -> Prop) :
  accept_type mt m = Some m1 -> Q (Ok tt) (mkCst m1 r) -> wp (UpdateMsgType mt) (mkCst m r) Q.
Proof.
  unfold accept_type, UpdateMsgType. intros E HQ. do 2 cstep. destruct (mt =? msgType m); [by simplify_eq|].
  destruct (rpcRole m); destruct (_ || _ || _) eqn:B1; simplify_eq;
    rewrite <- !negb_orb, B1; cbn [negb]; by cstep.
Qed.

Lemma wp_accept_method name m m1 r (Q : outcome cerr unit -> cst D R -> Prop) :
  name <> [] -> accept_method name m = Some m1 -> Q (Ok tt) (mkCst m1 r) ->
  wp (SetOrCheckMethodName name) (mkCst m r) Q.
Proof.
  unfold accept_method, SetOrCheckMethodName, text_eqb. intros Hn E HQ. do 2 cstep.
  rewrite (bool_decide_false (name = [])) by done.
  destruct (rpcRole m) eqn:Er.
  - do 2 cstep. simplify_option_eq. do 6 cstep. done.
  - case_bool_decide; simplify_eq. by cstep.
Qed.

Lemma wp_accept_seq v m m1 r (Q : outcome cerr unit -> cst D R -> Prop) :
  accept_seq v m = Some m1 -> Q (Ok tt) (mkCst m1 r) -> wp (SetOrCheckSeqID v) (mkCst m r) Q.
Proof.
  unfold accept_seq, SetOrCheckSeqID. intros E HQ. do 2 cstep. destruct (_ || _); [simplify_eq; by cstep|].
  destruct (msgType m =? Reply), (seqID (ri m) =? v); cbn [andb negb] in E; simplify_eq; by cstep.
Qed.

Lemma wp_NewData {IO} m d (io : IO) (Q : outcome cerr unit -> cst D IO -> Prop) :
  object_of m = Some d -> Q (Ok tt) (mkCst (set_mdata (Some d) m) io) -> wp NewDataIfNeeded (mkCst m io) Q.
Proof.
  unfold object_of, NewDataIfNeeded, NewData. intros E HQ. do 2 cstep. destruct (mdata m) as [d0|] eqn:Em.
  - simplify_eq. cstep. replace (set_mdata (Some d) m) with m in HQ; [done|]. destruct m; simpl in *. by subst.
  - destruct (methodInfo (ri m)) as [[d0|]|]; simpl in E; simplify_eq. do 2 cstep. cbn [set_mdata mdata]. by cstep.
Qed.

Lemma wp_read_value name b m d d' r (Q : outcome cerr unit -> cst D R -> Prop) :
  mdata m = Some d -> decode_object name b d = Some d' -> Q (Ok tt) (mkCst (set_mdata (Some d') m) r) ->
  wp (read_value name b) (mkCst m r) Q.
Proof.
  unfold decode_object, read_value. intros Em E HQ. do 2 cstep. rewrite Em.
  destruct (if bool_decide (b = []) then None else pb_fastReader d) as [rd|]; [rewrite E; by cstep|].
  destruct (pb_genReader d) as [rd|]; [rewrite E; by cstep|]. destruct (pb_isMsgCodec d); [|done].
  cbn [negb]. rewrite E. by cstep.
Qed.

Lemma wp_ReadUint32 v rest m r (Q : outcome cerr Z -> cst D R -> Prop) :
  0 <= v < 2 ^ 32 -> remaining r = be_put 4 v ++ rest ->
  (forall r', remaining r' = rest -> in_ReadLen r' = in_ReadLen r + 4 -> Q (Ok v) (mkCst m r')) ->
  wp ReadUint32 (mkCst m r) Q.
Proof.
  intros Hv Hr HQ. unfold ReadUint32. cstep. eapply wp_rd_Next_app; [exact Hr|by unfold Size32, lenZ; rewrite length_be_put|].
  intros r' Er El. eapply wp_lift_pure; [apply BigEndian_Uint_ok; by rewrite length_be_put|].
  rewrite firstn_all2 by (by rewrite length_be_put). rewrite be_get_put_id by exact Hv. by apply HQ.
Qed.

Lemma wp_ReadString name rest m r (Q : outcome cerr (text * Z) -> cst D R -> Prop) :
  name <> [] -> lenZ name < 2 ^ 32 -> remaining r = be_put 4 (lenZ name) ++ name ++ rest ->
  (forall r', remaining r' = rest -> in_ReadLen r' = in_ReadLen r + 4 + lenZ name ->
     Q (Ok (name, lenZ name + 4)) (mkCst m r')) ->
  wp ReadString (mkCst m r) Q.
Proof.
  intros Hn Hl Hr HQ. unfold ReadString. cstep. apply (wp_ReadUint32 (lenZ name) (name ++ rest)); [unfold lenZ in *; lia|done|].
  intros r1 Er1 El1. destruct (lenZ name =? 0) eqn:E; bool_to_prop.
  { destruct name; [done|]. unfold lenZ in E. simpl in E. lia. }
  cstep. apply (wp_rd_Next_app name rest); [done|done|]. intros r2 Er2 El2. cstep. apply HQ; [done|lia].
Qed.

(** Any of the three ways writes the object's bytes. *)
Lemma wp_write_value name d b m o (Q : outcome cerr unit -> cst D B -> Prop) :
  ReliableOut B -> object_bytes name d = Some b ->
  (forall o', contents o' = contents o ++ b -> Q (Ok tt) (mkCst m o')) ->
  wp (write_value name (PbObject d)) (mkCst m o) Q.
Proof.
  intros Hr E HQ. unfold object_bytes in E. unfold write_value.
  assert (wp (write_body (Some b)) (mkCst m o) Q) as W by (unfold write_body; cstep; apply wp_out_Write; [done|by apply HQ]).
  destruct (pb_isMsgCodec d); cbn [negb].
  - destruct (pb_fastWriter d) as [b'|]; [|by rewrite E]. simplify_eq. unfold write_fast. do 2 cstep.
    apply wp_out_Malloc; [done|unfold lenZ; lia|]. intros p o1 hole L C O N.
    eapply (wp_out_Fill p b (contents o) hole []); [by rewrite app_nil_r|done|done|unfold lenZ in L; lia|].
    intros o2 C2. apply HQ. by rewrite C2, app_nil_r.
  - destruct (pb_genWriter d) as [w|]; [|done]. by destruct (w name) as [[b'|]|]; simpl in E; simplify_eq.
Qed.

Lemma Marshal_wire m o :
  ReliableOut B -> pb_sendable m ->
  wp Marshal (mkCst m o) (fun r s => r = Ok tt /\ cm s = m /\ contents (cio s) = contents o ++ pb_wire m).
Proof.
  intros Hr [Ht He Hn Hs Hq [b Hb]]. unfold Marshal, text_eqb. do 2 cstep. rewrite bool_decide_false by done.
  destruct (mdata m) as [d|] eqn:Ed; [|done]. simpl in Hb.
  cstep. unfold getValidData. cstep. apply (wp_NewData _ d); [by unfold object_of; rewrite Ed|]. do 2 cstep.
  assert (set_mdata (Some d) m = m) as -> by (destruct m; simpl in *; by subst). rewrite Ed.
  rewrite (proj2 (Z.eqb_neq _ _)) by done. cbn [negb]. do 5 cstep.
  apply wp_WriteUint32; [done|]. intros o1 C1. do 2 cstep. unfold WriteString. cstep.
  apply wp_WriteUint32; [done|]. intros o2 C2. cstep. apply wp_out_Write; [done|]. intros o3 C3. do 3 cstep.
  apply wp_WriteUint32; [done|]. intros o4 C4. cbn beta iota.
  eapply wp_write_value; [done|done|]. intros o5 C5. split; [done|]. split; [done|]. cbn [cio].
  rewrite C5, C4, C3, C2, C1. unfold pb_wire, body. rewrite Ed. simpl. rewrite Hb. simpl.
  assert (u32 (ProtobufV1Magic + u32 (msgType m)) = ProtobufV1Magic + msgType m) as ->.
  { rewrite (u32_id (msgType m)) by lia. apply u32_id. unfold ProtobufV1Magic. lia. }
  rewrite (u32_id (lenZ _)) by (unfold lenZ in *; lia). by rewrite <- !app_assoc.
Qed.

Lemma land_FrontMask mt : 0 <= mt < 2 ^ 16 -> Z.land (ProtobufV1Magic + mt) FrontMask = mt.
Proof.
  intros Hm. change FrontMask with (Z.ones 16). rewrite Z.land_ones by lia.
  change ProtobufV1Magic with (0x9001 * 2 ^ 16). rewrite Z.add_comm, Z_mod_plus_full. apply Z.mod_small. lia.
Qed.

(** What the header gave, the checks on the payload keep. *)
Definition same_meta m m1 : Prop :=
  payloadSize m1 = payloadSize m /\ intInfo m1 = intInfo m /\ strInfo m1 = strInfo m
  /\ transProto (ri m1) = transProto (ri m) /\ codecType (ri m1) = codecType (ri m).

Lemma accepted_type mt m m1 : accept_type mt m = Some m1 -> msgType m1 = mt /\ same_meta m m1.
Proof. unfold accept_type. intros E. repeat case_match; simplify_eq; bool_to_prop; done. Qed.

Lemma accepted_method name m m1 :
  accept_method name m = Some m1 -> msgType m1 = msgType m /\ same_meta m m1 /\ methodName (ri m1) = name.
Proof.
  unfold accept_method, text_eqb. intros E. destruct (rpcRole m); [simplify_option_eq; done|].
  case_bool_decide; by simplify_eq.
Qed.

Lemma accepted_seq v m m1 :
  accept_seq v m = Some m1 -> msgType m1 = msgType m /\ same_meta m m1
  /\ methodName (ri m1) = methodName (ri m)
  /\ (msgType m = Call \/ msgType m = Oneway \/ msgType m = Reply -> seqID (ri m1) = v).
Proof.
  unfold accept_seq. intros E. destruct (_ || _) eqn:B1; [by simplify_eq|].
  destruct (_ && _) eqn:B2; [done|]. simplify_eq. repeat split. intros Ht.
  rewrite orb_false_iff, !Z.eqb_neq in B1. rewrite andb_false_iff, Z.eqb_neq, negb_false_iff, Z.eqb_eq in B2. tauto.
Qed.

(** A message that was delivered. *)
Lemma pb_deliver_fields m m' m1 :
  pb_deliver m m' = Some m1 ->
  msgType m1 = msgType m /\ methodName (ri m1) = methodName (ri m)
  /\ (msgType m = Call \/ msgType m = Oneway \/ msgType m = Reply -> seqID (ri m1) = seqID (ri m))
  /\ same_meta m' m1
  /\ exists d d', decode_object (methodName (ri m)) (body m) d = Some d' /\ mdata m1 = Some d'.
Proof.
  unfold pb_deliver. intros E.
  destruct (accept_type _ _) as [m2|] eqn:E1; simpl in E; [|done].
  destruct (accept_method _ _) as [m3|] eqn:E2; simpl in E; [|done].
  destruct (accept_seq _ _) as [m4|] eqn:E3; simpl in E; [|done].
  destruct (object_of m4) as [d|]; simpl in E; [|done].
  destruct (decode_object _ _ d) as [d'|] eqn:E5; simpl in E; [|done]. injection E as <-.
  apply accepted_type in E1 as [T1 M1]. apply accepted_method in E2 as (T2 & M2 & N2).
  apply accepted_seq in E3 as (T3 & M3 & N3 & S3). unfold same_meta in *. simpl.
  repeat split; [congruence|congruence| |intuition congruence..|eauto].
  intros Ht. apply S3. by rewrite T2, T1.
Qed.

Lemma Unmarshal_wire m m' r rest :
  pb_sendable m -> pb_receives m m' -> remaining r = pb_wire m ++ rest ->
  wp Unmarshal (mkCst m' r) (fun o s =>
    o = Ok tt /\ cm s = pb_delivered m m' /\ remaining (cio s) = rest
    /\ in_ReadLen (cio s) = in_ReadLen r + lenZ (pb_wire m)).
Proof.
  intros [Ht He Hn Hs Hq Hb] [Hz [m4 E]] Hr. unfold pb_delivered. rewrite E. simpl default. unfold pb_deliver in E.
  destruct (accept_type _ _) as [m1|] eqn:E1; simpl in E; [|done].
  destruct (accept_method _ _) as [m2|] eqn:E2; simpl in E; [|done].
  destruct (accept_seq _ _) as [m3|] eqn:E3; simpl in E; [|done].
  destruct (object_of m3) as [d|] eqn:E4; simpl in E; [|done].
  destruct (decode_object _ _ d) as [d'|] eqn:E5; simpl in E; [|done]. injection E as <-.
  destruct (accepted_type _ _ _ E1) as [T1 _]. destruct (accepted_method _ _ _ E2) as (T2 & _).
  destruct (accepted_seq _ _ _ E3) as (T3 & _).
  unfold pb_wire in Hr. rewrite <- !app_assoc in Hr. unfold Unmarshal. do 3 cstep.
  eapply wp_ReadUint32; [|exact Hr|]; [unfold ProtobufV1Magic; lia|]. intros r1 R1 L1.
  rewrite land_magic by (done || unfold ProtobufV1Magic; lia). rewrite Z.eqb_refl. cbn [negb].
  rewrite land_FrontMask by done. cstep. apply (wp_accept_type _ _ m1); [done|]. do 2 cstep.
  eapply wp_ReadString; [done|unfold lenZ in *; lia|exact R1|]. intros r2 R2 L2. cbn [fst snd].
  unfold unless_exception. rewrite (proj2 (Z.eqb_neq (msgType m) Exception)) by done. cbn beta iota. cstep.
  apply (wp_accept_method _ _ m2); [done|done|]. do 2 cstep.
  eapply wp_ReadUint32; [|exact R2|]; [pose proof (u32_range (seqID (ri m))); lia|]. intros r3 R3 L3. cbn beta iota.
  cstep. rewrite i32_u32 by done. apply (wp_accept_seq _ _ m3); [done|]. do 2 cstep.
  assert (lenZ (pb_wire m) = 12 + lenZ (methodName (ri m)) + lenZ (body m)) as Lw.
  { unfold pb_wire, lenZ. rewrite !length_app, !length_be_put. lia. }
  apply (wp_rd_Next_app (body m) rest); [done|rewrite Hz, Lw; unfold metaInfoFixLen; lia|]. intros r4 R4 L4. cbn beta iota.
  do 2 cstep. rewrite T3, T2, T1, (proj2 (Z.eqb_neq (msgType m) Exception)) by done. cstep.
  apply (wp_NewData _ d); [done|]. apply (wp_read_value _ _ _ d d'); [done|done|].
  cbn [cm cio]. repeat split; [done|]. rewrite L4, L3, L2, L1, Hz, Lw. unfold metaInfoFixLen. lia.
Qed.

Program Definition pb_contract : PayloadContract Protobuf (@protobufCodec D B R _ _ _ _) := {|
  wire := pb_wire;
  sendable := pb_sendable;
  receives := pb_receives;
  delivered := pb_delivered
|}.
Next Obligation.
  intros m Hm. unfold pb_wire, lenZ. rewrite !length_app, !length_be_put. lia.
Qed.
Next Obligation.
  intros m [Ht _ _ _ _ _]. unfold pb_wire. rewrite take_app_length' by (by rewrite length_be_put).
  rewrite be_get_put_id by (unfold ProtobufV1Magic; simpl; lia). by apply land_magic.
Qed.
Next Obligation.
  intros m [_ _ _ Hs _ _]. unfold IsTTHeader, pb_wire. rewrite second4_put by (unfold lenZ; rewrite !length_app, !length_be_put; lia).
  unfold has_magic. f_equal.
  rewrite take_app_length' by (by rewrite length_be_put). rewrite be_get_put_id by (unfold lenZ in *; simpl; lia).
  apply Z.eqb_neq. rewrite land_MagicMask by (unfold lenZ in *; lia).
  pose proof (Z.div_mod (lenZ (methodName (ri m))) (2 ^ 16) ltac:(lia)).
  pose proof (Z.mod_pos_bound (lenZ (methodName (ri m))) (2 ^ 16) ltac:(lia)). unfold TTHeaderMagic. lia.
Qed.
Next Obligation. intros m b Hr Hm. by apply Marshal_wire. Qed.
Next Obligation. intros m m' r rest Hm Hr E. by apply Unmarshal_wire. Qed.
Next Obligation.
  intros m m'. unfold pb_delivered. destruct (pb_deliver m m') as [m1|] eqn:E; [|done].
  apply pb_deliver_fields in E as (_ & _ & _ & (Ep & _) & _). done.
Qed.
End contract.

(** * End to end *)

(** C12: A Kitex-protobuf call or reply survives the wire.  The default codec, with or
    without the CRC check, in the framed and the TTHeader-framed protocol, writes the message
    without an error; from any connection that delivers these bytes, followed by anything,
    the receiver's codec reads a message with the same type, method, sequence id and data,
    recognises the transport protocol and the payload codec, leaves exactly the following
    bytes, and under a TTHeader has the sender's header information (with the checksum) in
    front of its own.  The receiver accepts the method, and decoding the data object gives
    back what was encoded. *)
Theorem protobuf_roundtrip {D B R}
    `{!OutBuffer B, !InBuffer R, !LinkBuffer B, !TTHeaderLib B R, !ReliableOut B, !PbData D, !ServiceSearcher D}
    (pcs : payloadCodecs D B R) (c : CodecConfig D) (m m' : message D) (b : B) :
  sends Protobuf protobufCodec pb_contract pcs c m ->
  contents b = [] -> payloadSize m' = 0 ->
  is_Some (pb_deliver m (meta_read Protobuf protobufCodec pb_contract c m m')) ->
  (forall d d', decode_object (methodName (ri m)) (body m) d = Some d' -> mdata m = Some d') ->
  exists s, Encode pcs c (mkCst m b) = (Ok tt, s) /\
    (forall r rest, remaining r = contents (cio s) ++ rest ->
     exists m1 r1, Decode pcs c (mkCst m' r) = (Ok tt, mkCst m1 r1) /\ remaining r1 = rest
       /\ msgType m1 = msgType m /\ methodName (ri m1) = methodName (ri m) /\ mdata m1 = mdata m
       /\ (msgType m = Call \/ msgType m = Oneway \/ msgType m = Reply -> seqID (ri m1) = seqID (ri m))
       /\ transProto (ri m1) = transProto (ri m) /\ codecType (ri m1) = Protobuf
       /\ payloadSize m1 = lenZ (pb_wire m)
       /\ (has (transProto (ri m)) TTHeader = true ->
           intInfo m1 = intInfo m ∪ intInfo m'
           /\ strInfo m1 = strInfo (with_checksum Protobuf protobufCodec pb_contract c m) ∪ strInfo m')).
Proof.
  intros Hs Hb Hz Hd Hdata. set (mr := meta_read Protobuf protobufCodec pb_contract c m m') in *.
  assert (payloadSize mr = lenZ (pb_wire m)) as Hp.
  { subst mr. unfold meta_read. by rewrite (s_framed _ _ _ _ _ _ Hs eq_refl). }
  destruct (codec_roundtrip Protobuf protobufCodec pb_contract pcs c m m' b Hs Hb Hz (conj Hp Hd)) as (s & E & Dec).
  exists s. split; [done|]. intros r rest Hr. destruct (Dec r rest Hr) as (n & r1 & -> & Er). eexists _, r1. split; [done|]. split; [done|].
  destruct Hd as [m1 E1]. pose proof (pb_deliver_fields _ _ _ E1) as (F1 & F2 & F3 & (P1 & I1 & S1 & T1 & C1) & d & d' & Ed & Em).
  unfold received. cbn [delivered pb_contract]. unfold pb_delivered. fold mr. rewrite E1. simpl default.
  pose proof (wire_long _ _ (@pb_contract D B R _ _ _ _) m (s_sendable _ _ _ _ _ _ Hs)) as L8. cbn [wire pb_contract] in L8.
  rewrite P1, Hp. rewrite (proj2 (Z.eqb_neq _ _)) by lia.
  cbn [set_recvSize upd_ri msgType ri methodName mdata seqID transProto codecType payloadSize intInfo strInfo].
  assert (transProto (ri mr) = transProto (ri m) /\ codecType (ri mr) = Protobuf) as [Et Ec] by done.
  split; [exact F1|]. split; [exact F2|]. split; [by rewrite Em, (Hdata d d' Ed)|]. split; [exact F3|].
  split; [by rewrite T1|]. split; [by rewrite C1|]. split; [by rewrite P1|].
  intros Ht. rewrite I1, S1. subst mr. unfold meta_read. rewrite Ht, (s_framed _ _ _ _ _ _ Hs eq_refl).
  cbn [set_codecType set_transProto upd_ri set_payloadSize intInfo strInfo].
  exact (infos_header_read Protobuf protobufCodec pb_contract c m m').
Qed.

(** ** A call of the method Echo with the CRC check *)

(** Messages that are their own encoding. *)
#[export] Instance raw_data : PbData text := {|
  pb_isMsgCodec := fun _ => true;
  pb_Marshal := Some;
  pb_Unmarshal := fun _ b => Some b;
  pb_fastWriter := fun _ => None;
  pb_fastReader := fun _ => None;
  pb_genWriter := fun _ => None;
  pb_genReader := fun _ => None;
  as_TransError := fun _ => None;
  as_error := Some;
  error_Marshal := fun _ m => Some m;
  error_Unmarshal := fun b => Some (InternalError, b)
|}.

#[export] Instance echo_service : ServiceSearcher text := {|
  SearchService := fun _ method _ =>
    if text_eqb method (bs "Echo")
    then Some (mkSvc (bs "EchoService") (bs "demo") (fun name => if text_eqb name (bs "Echo") then Some (Some []) else None))
    else None
|}.

Definition demo_pcs : payloadCodecs text (list byte) input :=
  mkPCs None (fun t => if t =? Protobuf then Some protobufCodec else None).

Definition demo_cfg : CodecConfig text := NewDefaultCodecWithConfig (mkCfg 65536 true None).

Definition demo_rpc (seq : Z) (name : text) (tp ct : Z) : rpcinfo text :=
  mkRI seq name [] [] None tp ct (Some (mkEp [] [] None)) (Some (mkEp [] [] None)) false 0 0.

Definition demo_call : message text :=
  mkMsg Call Client (Some (bs "hello, world")) 0 {[ FromService := bs "caller" ]} {[ bs "k" := bs "v" ]}
    (Some (HeaderFlags 2)) false (demo_rpc 7 (bs "Echo") TTHeaderFramed Protobuf).

Definition demo_recv : message text :=
  mkMsg Call Server None 0 ∅ ∅ None false (demo_rpc 0 [] PurePayload Thrift).

Lemma demo_length : lenZ (on_the_wire Protobuf protobufCodec pb_contract demo_cfg demo_call) <= 1000.
Proof. vm_compute. discriminate. Qed.

Lemma demo_sends : sends Protobuf protobufCodec pb_contract demo_pcs demo_cfg demo_call.
Proof.
  split.
  - done.
  - done.
  - by right.
  - set_solver.
  - done.
  - split; [done|done|done|done|done|by eexists].
  - by right.
  - intros _. vm_compute. done.
  - pose proof demo_length. lia.
  - intros _. pose proof demo_length. simpl. lia.
Qed.

Lemma demo_delivered : is_Some (pb_deliver demo_call (meta_read Protobuf protobufCodec pb_contract demo_cfg demo_call demo_recv)).
Proof.
  assert (match pb_deliver demo_call (meta_read Protobuf protobufCodec pb_contract demo_cfg demo_call demo_recv) with
    Some _ => True | None => False end) as E by (vm_compute; exact I).
  destruct (pb_deliver _ _); [by eexists|done].
Qed.

Lemma protobuf_roundtrip_witness :
  exists s, Encode demo_pcs demo_cfg (mkCst demo_call []) = (Ok tt, s)
    /\ exists m1 r1, Decode demo_pcs demo_cfg (mkCst demo_recv (mkInput (contents (cio s) ++ bs "next") 0)) = (Ok tt, mkCst m1 r1)
    /\ remaining r1 = bs "next" /\ mdata m1 = Some (bs "hello, world").
Proof.
  destruct (protobuf_roundtrip demo_pcs demo_cfg demo_call demo_recv []) as (s & E & Dec).
  - exact demo_sends.
  - exact eq_refl.
  - exact eq_refl.
  - exact demo_delivered.
  - intros d d' [= <-]. done.
  - exists s. split; [done|]. destruct (Dec (mkInput (contents (cio s) ++ bs "next") 0) (bs "next") eq_refl)
      as (m1 & r1 & E1 & E2 & _ & _ & E3 & _). by exists m1, r1.
Defined.
