(* ===== verification/SharedTicker.v ===== *)
(** The shared ticker (src/pkg/utils/sharedticker.go): one goroutine that runs the
    periodic tasks of many owners, started with the first task and stopped with the last.

    The lock makes [Add], [Delete] and the reading of the tasks atomic; the stop channel
    holds one token.  The goroutines are counted: each waits in the select of [Tick].

    Theorem: while every [Delete] is for a task that is registered, a registered task always
    has a goroutine that will run it.  A [Delete] of a task that is already gone breaks
    this for every later task, which the comment at
    src/pkg/remote/trans/nphttp2/grpc/http2_client.go:334 takes to be safe. *)

From S2P Require Import Prelude.

Record SharedTicker := mkTicker {
  started : bool;
  tasks : gset nat;
  stopChan : bool;
  (** goroutines in the loop of [Tick] *)
  loops : nat
}.

Definition NewSharedTicker : SharedTicker := mkTicker false ∅ false 0.

(** A nil task is ignored. *)
Definition Add (b : option nat) (t : SharedTicker) : SharedTicker :=
  match b with
  | None => t
  | Some b =>
      let tasks := {[ b ]} ∪ tasks t in
      if negb (started t) then mkTicker true tasks (stopChan t) (S (loops t))
      else mkTicker (started t) tasks (stopChan t) (loops t)
  end.

Definition Delete (b : nat) (t : SharedTicker) : SharedTicker :=
  let tasks := tasks t ∖ {[ b ]} in
  if bool_decide (tasks = ∅) then
    if stopChan t then mkTicker (started t) tasks (stopChan t) (loops t)
    else mkTicker false tasks true (loops t)
  else mkTicker (started t) tasks (stopChan t) (loops t).

Definition Closed (t : SharedTicker) : bool := negb (started t).

(** One turn of a goroutine in [Tick]: it takes the stop token and ends, or its time has
    come and it runs the tasks registered at that moment ([syncExec], [asyncExec]). *)
Definition take_stop (t : SharedTicker) : option SharedTicker :=
  match loops t with
  | S n => if stopChan t then Some (mkTicker (started t) (tasks t) false n) else None
  | O => None
  end.

Definition exec_tasks (t : SharedTicker) : option (list nat) :=
  match loops t with S _ => Some (elements (tasks t)) | O => None end.

(** * Runs *)

Inductive op := OAdd (b : nat) | ODelete (b : nat) | OStop | OTick.

Definition step (o : op) (t : SharedTicker) : option SharedTicker :=
  match o with
  | OAdd b => Some (Add (Some b) t)
  | ODelete b => Some (Delete b t)
  | OStop => take_stop t
  | OTick => match exec_tasks t with Some _ => Some t | None => None end
  end.

Fixpoint run (os : list op) (t : SharedTicker) : option SharedTicker :=
  match os with
  | [] => Some t
  | o :: os => t ← step o t; run os t
  end.

(** Owners only delete what they have registered. *)
Fixpoint owned (os : list op) (t : SharedTicker) : Prop :=
  match os with
  | [] => True
  | o :: os =>
      match o with ODelete b => b ∈ tasks t | _ => True end
      /\ match step o t with Some t' => owned os t' | None => True end
  end.

(** One goroutine more than pending stops exactly while the ticker is started. *)
Definition tinv (t : SharedTicker) : Prop :=
  loops t = ((if started t then 1 else 0) + (if stopChan t then 1 else 0))%nat
  /\ (tasks t <> ∅ -> started t = true).

Lemma step_tinv o t t' :
  tinv t -> match o with ODelete b => b ∈ tasks t | _ => True end -> step o t = Some t' -> tinv t'.
Proof.
  intros [Hl Ht] Ho. destruct o as [b|b| |]; simpl.
  - intros [= <-]. unfold Add. destruct (started t) eqn:E; split; simpl; auto; lia.
  - intros [= <-]. unfold Delete. rewrite Ht in Hl by set_solver. specialize (Ht ltac:(set_solver)).
    case_bool_decide as Ee; [destruct (stopChan t) eqn:Es|]; split; simpl; rewrite ?Ht; auto; done.
  - unfold take_stop. destruct (loops t) as [|n] eqn:En; [done|]. destruct (stopChan t) eqn:Es; [|done].
    intros [= <-]. split; simpl; [|done]. destruct (started t); lia.
  - unfold exec_tasks. destruct (loops t) eqn:En; [done|]. intros [= <-]. split; [congruence|done].
Qed.

Lemma run_tinv os t t' : tinv t -> owned os t -> run os t = Some t' -> tinv t'.
Proof.
  revert t. induction os as [|o os IH]; intros t Hi Ho Hr; simpl in *; [by simplify_eq|].
  destruct Ho as [Ho Hos]. destruct (step o t) as [t1|] eqn:E; simpl in *; [|done].
  eapply IH; [by eapply step_tinv|done|done].
Qed.

(** Registered tasks are run.  In every interleaving of [Add]s, [Delete]s of registered
    tasks and turns of the goroutines, while a task is registered there are more
    goroutines than pending stops: after every stop that may still be taken, a goroutine
    is left that runs the task at its next tick; and there never are more than two. *)
Theorem shared_ticker_keeps_ticking os t b :
  owned os NewSharedTicker -> run os NewSharedTicker = Some t -> b ∈ tasks t ->
  (loops t <= 2)%nat
  /\ (exists l, exec_tasks t = Some l /\ b ∈ l)
  /\ (forall t', take_stop t = Some t' -> tasks t' = tasks t /\ stopChan t' = false
                 /\ exists l, exec_tasks t' = Some l /\ b ∈ l).
Proof.
  intros Ho Hr Hb. destruct (run_tinv os NewSharedTicker t) as [Hl Ht]; [done|done|done|].
  rewrite (Ht ltac:(set_solver)) in Hl. assert (b ∈ elements (tasks t)) as He by set_solver.
  split; [destruct (stopChan t); lia|]. unfold exec_tasks, take_stop. rewrite Hl. simpl. split; [eauto|].
  intros t'. destruct (stopChan t); [|done]. intros [= <-]. simpl. eauto.
Qed.

Definition demo_ops : list op := [OAdd 1; OTick; ODelete 1; OAdd 2; OAdd 3].

Lemma shared_ticker_keeps_ticking_witness :
  exists t, run demo_ops NewSharedTicker = Some t
    /\ exists t', take_stop t = Some t' /\ exists l, exec_tasks t' = Some l /\ 2%nat ∈ l.
Proof.
  destruct (run demo_ops NewSharedTicker) as [t|] eqn:E; [|discriminate].
  exists t. split; [done|].
  destruct (shared_ticker_keeps_ticking demo_ops t 2) as (_ & _ & T).
  - simpl. set_solver.
  - exact E.
  - injection E as <-. simpl. set_solver.
  - destruct (take_stop t) as [t'|] eqn:Et; [|injection E as <-; discriminate].
    exists t'. split; [done|]. apply (T t' eq_refl).
Defined.

(** ** Deleting a task twice *)

(** A client is drained and deletes its task in its tick, the goroutine ends, and the
    close of the same client deletes the task again: the token this leaves ends the
    goroutine the next client starts. *)
Definition delete_twice : list op := [OAdd 1; OTick; ODelete 1; OStop; ODelete 1; OAdd 2; OStop].

(** Started, with a task, and no goroutine. *)
Definition dead (t : SharedTicker) : Prop := started t = true /\ loops t = 0%nat /\ stopChan t = false.

Lemma delete_twice_kills_ticker :
  exists t, run delete_twice NewSharedTicker = Some t /\ dead t /\ tasks t = {[ 2%nat ]}.
Proof. eexists. split; [reflexivity|]. split; [done|]. simpl. set_solver. Qed.

(** It stays dead whatever is added, as long as a task is left. *)
Lemma dead_forever o t t' : dead t -> step o t = Some t' -> tasks t' <> ∅ -> dead t'.
Proof.
  intros (Hs & Hl & Hc). destruct o as [b|b| |]; simpl.
  - intros [= <-] _. unfold Add. by rewrite Hs.
  - intros [= <-]. unfold Delete. case_bool_decide; simpl; [|done]. rewrite Hc. done.
  - unfold take_stop. by rewrite Hl.
  - unfold exec_tasks. by rewrite Hl.
Qed.

(** And after the last task is gone the next first task finds the token again. *)
Lemma dead_again t b c t1 t2 t3 :
  dead t -> tasks t = {[ b ]} -> step (ODelete b) t = Some t1 -> step (OAdd c) t1 = Some t2 ->
  step OStop t2 = Some t3 -> dead t3.
Proof.
  intros (Hs & Hl & Hc) Ht [= <-]. unfold Delete. rewrite Ht, bool_decide_true, Hc by set_solver.
  intros [= <-]. simpl. rewrite Hl. unfold take_stop. simpl. by intros [= <-].
Qed.
