(* ===== verification/ConnPool.v ===== *)
(** The pool of long connections (src/pkg/remote/connpool/long_pool.go,
    src/pkg/utils/max_counter.go, src/pkg/connpool/config.go) under concurrent use.

    Each operation is a sequence of atomic steps: the sections under a pool's lock, the
    operations of the address map and of the global counter, the closing of a connection.
    Any number of operations run interleaved; the clock, the state of the peers and the
    dialer's results are the environment's.

    Theorems: every connection ever dialled is in exactly one place (idle in one pool, in
    the hands of one caller or of one operation) or was closed exactly once; the global
    counter is the number of idle connections up to the operations under way, and the idle
    connections keep to the configured limits. *)

From S2P Require Import Prelude GoText.

(** * Configuration (config.go) *)

Record IdleConfig := mkIdle {
  MinIdlePerAddress : Z;
  MaxIdlePerAddress : Z;
  MaxIdleGlobal : Z;
  MaxIdleTimeout : Z
}.

Definition second : Z := 1000000000.

Definition CheckPoolConfig (config : IdleConfig) : IdleConfig :=
  let timeout := if MaxIdleTimeout config =? 0 then 30 * second
                 else if MaxIdleTimeout config <? 2 * second then 2 * second else MaxIdleTimeout config in
  let minIdle := if MinIdlePerAddress config <? 0 then 0 else MinIdlePerAddress config in
  let minIdle := if 5 <? minIdle then 5 else minIdle in
  let maxIdle := if MaxIdlePerAddress config <=? 0 then 1 else MaxIdlePerAddress config in
  let maxIdle := if maxIdle <? minIdle then minIdle else maxIdle in
  let global := if MaxIdleGlobal config <=? 0 then Z.shiftl 1 20
                else if MaxIdleGlobal config <? maxIdle then maxIdle else MaxIdleGlobal config in
  mkIdle minIdle maxIdle global timeout.

(** * The pool *)

Abbreviation netAddr := (text * text)%type.

(** A connection by its number; [c_net] is the network of its remote address. *)
Record longConn := mkConn { c_net : text; c_addr : text; deadline : Z }.

(** The idle list, oldest first, and the pool's configuration. *)
Record pool := mkPool { idleList : list nat; minIdle : Z; maxIdle : Z; maxIdleTimeout : Z }.

(** A peer is the number of its pool.  [closes] lists the calls of [Close] on connections;
    [alive] is the answer of a connection's own IsActive, if it has one. *)
Record LongPool := mkLP {
  pools : list pool;
  peerMap : gmap netAddr nat;
  globalIdle : Z;
  idleConfig : IdleConfig;
  closed : bool;
  conns : list longConn;
  closes : list nat;
  time : Z;
  alive : nat -> option bool
}.

Definition NewLongPool (cfg : IdleConfig) (t : Z) (al : nat -> option bool) : LongPool :=
  mkLP [] ∅ 0 cfg false [] [] t al.

Definition newPool (cfg : IdleConfig) : pool :=
  mkPool [] (MinIdlePerAddress cfg) (MaxIdlePerAddress cfg) (MaxIdleTimeout cfg).

Section locked.
Variable lp : LongPool.

Definition deadline_of (c : nat) : Z := match conns lp !! c with Some x => deadline x | None => 0 end.

Definition IsActive (c : nat) : bool :=
  match alive lp c with Some b => b | None => time lp <? deadline_of c end.

Definition Expired (c : nat) : bool := deadline_of c <? time lp.

(** The loop of [pool.Get] from the end of the list: what it found, what is left (last
    first) and what it closed. *)
Fixpoint pick_active (l : list nat) (shut : list nat) : option nat * list nat * list nat :=
  match l with
  | [] => (None, [], shut)
  | o :: l => if IsActive o then (Some o, l, shut) else pick_active l (o :: shut)
  end.

(** The number of connections taken out is returned too. *)
Definition pool_Get (p : pool) : option nat * Z * pool * list nat :=
  let '(o, rem, shut) := pick_active (rev (idleList p)) [] in
  (o, lenZ (idleList p) - lenZ rem, mkPool (rev rem) (minIdle p) (maxIdle p) (maxIdleTimeout p), shut).

Definition pool_Put (p : pool) (c : nat) : bool * pool :=
  if lenZ (idleList p) <? maxIdle p
  then (true, mkPool (idleList p ++ [c]) (minIdle p) (maxIdle p) (maxIdleTimeout p))
  else (false, p).

(** The loop of [pool.Evict] from the front, while fewer than [nonIdle] are gone; [None] is
    an index out of range. *)
Fixpoint evict_loop (nonIdle : Z) (l : list nat) (shut : list nat) : option (list nat * list nat) :=
  if 0 <? nonIdle then
    match l with
    | [] => None
    | o :: l' => if negb (Expired o) then Some (l, shut) else evict_loop (nonIdle - 1) l' (o :: shut)
    end
  else Some (l, shut).

Definition pool_Evict (p : pool) : option (Z * pool * list nat) :=
  '(rem, shut) ← evict_loop (lenZ (idleList p) - minIdle p) (idleList p) [];
  Some (lenZ shut, mkPool rem (minIdle p) (maxIdle p) (maxIdleTimeout p), shut).

Definition pool_Close (p : pool) : Z * pool * list nat :=
  (lenZ (idleList p), mkPool [] (minIdle p) (maxIdle p) (maxIdleTimeout p), rev (idleList p)).
End locked.

(** ** Updates *)

Definition set_pool (i : nat) (p : pool) (lp : LongPool) : LongPool :=
  mkLP (<[i := p]> (pools lp)) (peerMap lp) (globalIdle lp) (idleConfig lp) (closed lp) (conns lp) (closes lp) (time lp) (alive lp).
Definition set_peerMap (m : gmap netAddr nat) (lp : LongPool) : LongPool :=
  mkLP (pools lp) m (globalIdle lp) (idleConfig lp) (closed lp) (conns lp) (closes lp) (time lp) (alive lp).
Definition add_global (d : Z) (lp : LongPool) : LongPool :=
  mkLP (pools lp) (peerMap lp) (globalIdle lp + d) (idleConfig lp) (closed lp) (conns lp) (closes lp) (time lp) (alive lp).
Definition set_closed (lp : LongPool) : LongPool :=
  mkLP (pools lp) (peerMap lp) (globalIdle lp) (idleConfig lp) true (conns lp) (closes lp) (time lp) (alive lp).
Definition close_conns (cs : list nat) (lp : LongPool) : LongPool :=
  mkLP (pools lp) (peerMap lp) (globalIdle lp) (idleConfig lp) (closed lp) (conns lp) (cs ++ closes lp) (time lp) (alive lp).
Definition new_pool (lp : LongPool) : LongPool :=
  mkLP (pools lp ++ [newPool (idleConfig lp)]) (peerMap lp) (globalIdle lp) (idleConfig lp) (closed lp) (conns lp) (closes lp) (time lp) (alive lp).
Definition new_conn (c : longConn) (lp : LongPool) : LongPool :=
  mkLP (pools lp) (peerMap lp) (globalIdle lp) (idleConfig lp) (closed lp) (conns lp ++ [c]) (closes lp) (time lp) (alive lp).
Definition set_deadline (c : nat) (d : Z) (lp : LongPool) : LongPool :=
  mkLP (pools lp) (peerMap lp) (globalIdle lp) (idleConfig lp) (closed lp)
    (alter (fun x => mkConn (c_net x) (c_addr x) d) c (conns lp)) (closes lp) (time lp) (alive lp).
Definition set_env (t : Z) (al : nat -> option bool) (lp : LongPool) : LongPool :=
  mkLP (pools lp) (peerMap lp) (globalIdle lp) (idleConfig lp) (closed lp) (conns lp) (closes lp) t al.

(** * Operations in progress *)

Inductive pc :=
(** LongPool.Get: getPeer, peer.Get, the dial *)
| GetLoad (na : netAddr) | GetStore (na : netAddr) | GetPool (na : netAddr) (pr : nat)
| GetDec (na : netAddr) (got : option nat) (n : Z) | GetDial (na : netAddr) | GetReturn (c : nat)
(** LongPool.Put and peer.Put *)
| PutLoad (c : nat) | PutInc (pr c : nat) | PutUndo (c : nat) | PutPool (pr c : nat) | PutDec (c : nat) | CloseConn (c : nat)
(** LongPool.Evict *)
| EvictStart | EvictRange | EvictPool (pr : nat) | EvictDec (n : Z)
(** LongPool.Clean, peer.Close and LongPool.Close *)
| CleanLoad (na : netAddr) | MapDelete (all : bool) (na : netAddr) (pr : nat)
| CloseStart | CloseRange | ClosePool (all : bool) (pr : nat) | CloseDec (all : bool) (n : Z)
| Finished | Crashed.

(** What the environment decides in a step: the dialer's answer (the network of the
    connection's remote address), and the entry a Range comes to. *)
Record choice := mkChoice { dialled : option text; entry : option netAddr }.

(** A call on a pool that the operation holds a pointer to. *)
Definition with_pool (lp : LongPool) (pr : nat) (k : pool -> option (LongPool * pc)) : option (LongPool * pc) :=
  p ← pools lp !! pr; k p.

Section operations.
Context (ch : choice) (lp : LongPool).

(** getPeer: Load, then LoadOrStore of a new peer. *)
Definition getPeer_load (na : netAddr) : option (LongPool * pc) :=
  match peerMap lp !! na with
  | Some pr => Some (lp, GetPool na pr)
  | None => Some (lp, GetStore na)
  end.

Definition getPeer_store (na : netAddr) : option (LongPool * pc) :=
  let lp := new_pool lp in
  match peerMap lp !! na with
  | Some pr => Some (lp, GetPool na pr)
  | None => Some (set_peerMap (<[na := (length (pools lp) - 1)%nat]> (peerMap lp)) lp,
                  GetPool na (length (pools lp) - 1))
  end.

(** peer.Get: the pool's Get, the counter, and the dial if nothing was idle. *)
Definition peer_Get (x : pc) : option (LongPool * pc) :=
  match x with
  | GetPool na pr => with_pool lp pr (fun p =>
      let '(o, n, p', shut) := pool_Get lp p in
      Some (close_conns shut (set_pool pr p' lp), GetDec na o n))
  | GetDec na got n =>
      Some (add_global (- n) lp, match got with Some c => GetReturn c | None => GetDial na end)
  | GetDial na =>
      match dialled ch with
      | Some net => Some (new_conn (mkConn net (snd na) 0) lp, GetReturn (length (conns lp)))
      | None => Some (lp, Finished)
      end
  | _ => None
  end.

(** LongPool.Put: the peer of the connection's address, or no peer. *)
Definition LongPool_Put (c : nat) : option (LongPool * pc) :=
  x ← conns lp !! c;
  match peerMap lp !! (c_net x, c_addr x) with
  | Some pr => Some (lp, PutInc pr c)
  | None => Some (lp, CloseConn c)
  end.

(** MaxCounter.Inc: the increment, and its undoing beyond the limit. *)
Definition counter_Inc (x : pc) : option (LongPool * pc) :=
  match x with
  | PutInc pr c =>
      let lp := add_global 1 lp in
      if MaxIdleGlobal (idleConfig lp) <? globalIdle lp then Some (lp, PutUndo c) else Some (lp, PutPool pr c)
  | PutUndo c => Some (add_global (- 1) lp, CloseConn c)
  | _ => None
  end.

(** peer.Put after the counter let it through. *)
Definition peer_Put (x : pc) : option (LongPool * pc) :=
  match x with
  | PutPool pr c => with_pool lp pr (fun p =>
      let '(recycled, p') := pool_Put p c in
      if recycled then Some (set_pool pr p' (set_deadline c (time lp + maxIdleTimeout p) lp), Finished)
      else Some (lp, PutDec c))
  | PutDec c => Some (add_global (- 1) lp, CloseConn c)
  | _ => None
  end.

(** LongPool.Evict: peer.Evict for each entry a Range comes to. *)
Definition LongPool_Evict (x : pc) : option (LongPool * pc) :=
  match x with
  | EvictStart => Some (lp, if closed lp then Finished else EvictRange)
  | EvictRange =>
      match entry ch with
      | Some na => pr ← peerMap lp !! na; Some (lp, EvictPool pr)
      | None => Some (lp, Finished)
      end
  | EvictPool pr => with_pool lp pr (fun p =>
      match pool_Evict lp p with
      | Some (n, p', shut) => Some (close_conns shut (set_pool pr p' lp), EvictDec n)
      | None => Some (lp, Crashed)
      end)
  | EvictDec n => Some (add_global (- n) lp, EvictRange)
  | _ => None
  end.

(** LongPool.Clean up to the goroutine that closes the peer. *)
Definition LongPool_Clean (na : netAddr) : option (LongPool * pc) :=
  match peerMap lp !! na with
  | Some pr => Some (lp, MapDelete false na pr)
  | None => Some (lp, Finished)
  end.

(** LongPool.Close: entries are deleted and closed one by one. *)
Definition LongPool_Close (x : pc) : option (LongPool * pc) :=
  match x with
  | CloseStart => Some (if closed lp then (lp, Finished) else (set_closed lp, CloseRange))
  | CloseRange =>
      match entry ch with
      | Some na => pr ← peerMap lp !! na; Some (lp, MapDelete true na pr)
      | None => Some (lp, Finished)
      end
  | MapDelete all na pr => Some (set_peerMap (delete na (peerMap lp)) lp, ClosePool all pr)
  | _ => None
  end.

(** peer.Close *)
Definition peer_Close (x : pc) : option (LongPool * pc) :=
  match x with
  | ClosePool all pr => with_pool lp pr (fun p =>
      let '(n, p', shut) := pool_Close p in
      Some (close_conns shut (set_pool pr p' lp), CloseDec all n))
  | CloseDec all n => Some (add_global (- n) lp, if all then CloseRange else Finished)
  | _ => None
  end.

(** One atomic step of an operation. *)
Definition exec (x : pc) : option (LongPool * pc) :=
  match x with
  | GetLoad na => getPeer_load na
  | GetStore na => getPeer_store na
  | GetPool _ _ | GetDec _ _ _ | GetDial _ => peer_Get x
  | PutLoad c => LongPool_Put c
  | PutInc _ _ | PutUndo _ => counter_Inc x
  | PutPool _ _ | PutDec _ => peer_Put x
  | CloseConn c => Some (close_conns [c] lp, Finished)
  | EvictStart | EvictRange | EvictPool _ | EvictDec _ => LongPool_Evict x
  | CleanLoad na => LongPool_Clean na
  | CloseStart | CloseRange | MapDelete _ _ _ => LongPool_Close x
  | ClosePool _ _ | CloseDec _ _ => peer_Close x
  | GetReturn _ | Finished | Crashed => None
  end.
End operations.

(** * The system: operations in progress and the connections callers have *)

Record sys := mkSys { sp : LongPool; threads : list pc; held : list nat }.

Inductive op := OpGet (na : netAddr) | OpPut (c : nat) | OpDiscard (c : nat) | OpEvict | OpClean (na : netAddr) | OpClose.

Fixpoint take_one (c : nat) (l : list nat) : option (list nat) :=
  match l with
  | [] => None
  | x :: l => if decide (x = c) then Some l else r ← take_one c l; Some (x :: r)
  end.

(** Callers give back only connections they have. *)
Definition start (o : op) (s : sys) : option sys :=
  let go x := Some (mkSys (sp s) (threads s ++ [x]) (held s)) in
  let give c x := h ← take_one c (held s); Some (mkSys (sp s) (threads s ++ [x]) h) in
  match o with
  | OpGet na => go (GetLoad na)
  | OpPut c => give c (PutLoad c)
  | OpDiscard c => give c (CloseConn c)
  | OpEvict => go EvictStart
  | OpClean na => go (CleanLoad na)
  | OpClose => go CloseStart
  end.

Inductive label := Start (o : op) | Run (i : nat) (ch : choice) | Return (i : nat) | Env (t : Z) (al : nat -> option bool).

Definition lstep (l : label) (s : sys) : option sys :=
  match l with
  | Start o => start o s
  | Run i ch =>
      x ← threads s !! i;
      '(lp, x') ← exec ch (sp s) x;
      Some (mkSys lp (<[i := x']> (threads s)) (held s))
  | Return i =>
      x ← threads s !! i;
      match x with
      | GetReturn c => Some (mkSys (sp s) (<[i := Finished]> (threads s)) (c :: held s))
      | _ => None
      end
  | Env t al => Some (mkSys (set_env t al (sp s)) (threads s) (held s))
  end.

Fixpoint lrun (ls : list label) (s : sys) : option sys :=
  match ls with
  | [] => Some s
  | l :: ls => s ← lstep l s; lrun ls s
  end.

Definition init (cfg : IdleConfig) (t : Z) (al : nat -> option bool) : sys :=
  mkSys (NewLongPool (CheckPoolConfig cfg) t al) [] [].

(** * Accounting *)

(** The connection an operation has in its hands. *)
Definition hand (x : pc) : list nat :=
  match x with
  | GetDec _ (Some c) _ | GetReturn c => [c]
  | PutLoad c | PutInc _ c | PutUndo c | PutPool _ c | PutDec c | CloseConn c => [c]
  | _ => []
  end.

(** What an operation still has to subtract from the global counter, and the room it has
    reserved. *)
Definition owed (x : pc) : Z :=
  match x with
  | GetDec _ _ n | EvictDec n | CloseDec _ n => n
  | PutUndo _ | PutPool _ _ | PutDec _ => 1
  | _ => 0
  end.

Definition reserved (x : pc) : Z := match x with PutPool _ _ => 1 | _ => 0 end.

Definition pointer (x : pc) : option nat :=
  match x with
  | GetPool _ pr | PutInc pr _ | PutPool pr _ | EvictPool pr | MapDelete _ _ pr | ClosePool _ pr => Some pr
  | _ => None
  end.

Definition places (c : nat) (s : sys) : Z :=
  sumZ ((fun p => cnt c (idleList p)) <$> pools (sp s)) + sumZ ((fun x => cnt c (hand x)) <$> threads s)
  + cnt c (held s) + cnt c (closes (sp s)).

Definition idle (lp : LongPool) : Z := sumZ ((fun p => lenZ (idleList p)) <$> pools lp).

Record pinv (s : sys) : Prop := mkPinv {
  i_place : forall c, places c s = if bool_decide (c < length (conns (sp s)))%nat then 1 else 0;
  i_count : globalIdle (sp s) = idle (sp s) + sumZ (owed <$> threads s);
  i_owed : Forall (fun x => 0 <= owed x /\ x <> Crashed) (threads s);
  i_limit : Forall (fun p => lenZ (idleList p) <= maxIdle p /\ 0 <= minIdle p
                             /\ maxIdle p = MaxIdlePerAddress (idleConfig (sp s))) (pools (sp s));
  i_global : idle (sp s) + sumZ (reserved <$> threads s) <= MaxIdleGlobal (idleConfig (sp s));
  i_map : map_Forall (fun _ pr => (pr < length (pools (sp s)))%nat) (peerMap (sp s));
  i_pointer : Forall (fun x => match pointer x with Some pr => (pr < length (pools (sp s)))%nat | None => True end) (threads s);
  i_cfg : 0 <= MinIdlePerAddress (idleConfig (sp s)) /\ 0 < MaxIdlePerAddress (idleConfig (sp s)) /\ 0 < MaxIdleGlobal (idleConfig (sp s))
}.

Lemma CheckPoolConfig_ok cfg :
  let c := CheckPoolConfig cfg in
  0 <= MinIdlePerAddress c <= MaxIdlePerAddress c /\ 0 < MaxIdlePerAddress c /\ 0 < MaxIdleGlobal c.
Proof.
  unfold CheckPoolConfig. change (Z.shiftl 1 20) with 1048576. cbn [MinIdlePerAddress MaxIdlePerAddress MaxIdleGlobal].
  set (mn := if MinIdlePerAddress cfg <? 0 then 0 else MinIdlePerAddress cfg).
  set (mn' := if 5 <? mn then 5 else mn).
  set (mx := if MaxIdlePerAddress cfg <=? 0 then 1 else MaxIdlePerAddress cfg).
  assert (0 <= mn') by (unfold mn', mn; repeat case_match; bool_to_prop; lia).
  assert (0 < mx) by (unfold mx; case_match; bool_to_prop; lia).
  repeat case_match; bool_to_prop; lia.
Qed.

Lemma pinv_init cfg t al : pinv (init cfg t al).
Proof.
  pose proof (CheckPoolConfig_ok cfg) as C. cbv zeta in C. split; try done; unfold init, NewLongPool, idle; cbn -[CheckPoolConfig]; lia.
Qed.

#[local] Ltac opened E :=
  cbv beta iota zeta delta [exec getPeer_load getPeer_store peer_Get LongPool_Put counter_Inc peer_Put LongPool_Evict
                            LongPool_Clean LongPool_Close peer_Close] in E.

(** ** The sections under a pool's lock *)

#[local] Arguments cnt : simpl never.
#[local] Arguments lenZ : simpl never.

Lemma cnt_nil c : cnt c [] = 0.
Proof. done. Qed.

Lemma cnt_rev c l : cnt c (rev l) = cnt c l.
Proof. induction l as [|x l IH]; [done|]. simpl. rewrite cnt_app, IH, !cnt_cons, cnt_nil. lia. Qed.

Lemma lenZ_cons {A} (x : A) l : lenZ (x :: l) = 1 + lenZ l.
Proof. unfold lenZ. simpl. lia. Qed.

Section sections.
Variable lp : LongPool.

Definition of_option (o : option nat) : list nat := match o with Some c => [c] | None => [] end.

Lemma pick_active_spec l shut o rem shut' c :
  pick_active lp l shut = (o, rem, shut') ->
  cnt c l + cnt c shut = cnt c (of_option o) + cnt c rem + cnt c shut' /\ lenZ rem <= lenZ l.
Proof.
  revert shut. induction l as [|x l IH]; intros shut E; cbn [pick_active] in E; [simplify_eq; cbn; rewrite cnt_nil; lia|].
  rewrite cnt_cons, lenZ_cons. destruct (IsActive lp x).
  - simplify_eq. cbn [of_option]. rewrite cnt_cons, cnt_nil. lia.
  - destruct (IH _ E) as [E1 E2]. rewrite cnt_cons in E1. lia.
Qed.

Lemma pool_Get_spec p o n p' shut c :
  pool_Get lp p = (o, n, p', shut) ->
  cnt c (idleList p) = cnt c (of_option o) + cnt c (idleList p') + cnt c shut
  /\ lenZ (idleList p) = lenZ (idleList p') + n /\ 0 <= n
  /\ minIdle p' = minIdle p /\ maxIdle p' = maxIdle p.
Proof.
  unfold pool_Get. destruct (pick_active lp (rev (idleList p)) []) as [[o1 rem] shut1] eqn:E. intros [= <- <- <- <-].
  destruct (pick_active_spec _ _ _ _ _ c E) as [E1 E2]. rewrite cnt_rev, cnt_nil in E1. cbn [idleList minIdle maxIdle].
  rewrite cnt_rev. unfold lenZ in *. rewrite length_rev in *. repeat split; lia.
Qed.

Lemma evict_loop_spec k l shut rem shut' c :
  evict_loop lp k l shut = Some (rem, shut') ->
  cnt c l + cnt c shut = cnt c rem + cnt c shut' /\ lenZ l + lenZ shut = lenZ rem + lenZ shut'.
Proof.
  revert k shut. induction l as [|x l IH]; intros k shut E; cbn [evict_loop] in E.
  - destruct (0 <? k); by simplify_eq.
  - destruct (0 <? k); [|by simplify_eq]. destruct (negb _); [by simplify_eq|].
    destruct (IH _ _ E) as [E1 E2]. rewrite cnt_cons, lenZ_cons in *. lia.
Qed.

Lemma evict_loop_total k l shut : k <= lenZ l -> is_Some (evict_loop lp k l shut).
Proof.
  revert k shut. induction l as [|x l IH]; intros k shut Hk; cbn [evict_loop].
  - rewrite (proj2 (Z.ltb_ge _ _)) by (unfold lenZ in Hk; simpl in Hk; lia). by eexists.
  - destruct (0 <? k); [|by eexists]. destruct (negb _); [by eexists|]. apply IH. rewrite lenZ_cons in Hk. lia.
Qed.

Lemma pool_Evict_spec p n p' shut c :
  pool_Evict lp p = Some (n, p', shut) ->
  cnt c (idleList p) = cnt c (idleList p') + cnt c shut
  /\ lenZ (idleList p) = lenZ (idleList p') + n /\ 0 <= n
  /\ minIdle p' = minIdle p /\ maxIdle p' = maxIdle p.
Proof.
  unfold pool_Evict. destruct (evict_loop _ _ _ _) as [[rem shut1]|] eqn:E; [|done]. cbn. intros [= <- <- <-].
  destruct (evict_loop_spec _ _ _ _ _ c E) as [E1 E2]. rewrite cnt_nil in E1. change (lenZ []) with 0 in E2.
  cbn [idleList minIdle maxIdle]. unfold lenZ in *. repeat split; lia.
Qed.

Lemma pool_Evict_total p : 0 <= minIdle p -> is_Some (pool_Evict lp p).
Proof.
  intros Hm. unfold pool_Evict. destruct (evict_loop_total (lenZ (idleList p) - minIdle p) (idleList p) [] ltac:(lia)) as [[l sh] ->].
  by eexists.
Qed.
End sections.

(** ** Steps *)

Definition pool_ok (cfg : IdleConfig) (p : pool) : Prop :=
  lenZ (idleList p) <= maxIdle p /\ 0 <= minIdle p /\ maxIdle p = MaxIdlePerAddress cfg.

Definition valid_pointer (n : nat) (x : pc) : Prop := match pointer x with Some pr => (pr < n)%nat | None => True end.

(** Of a step by which an operation goes from [x] to [x'], what the invariant asks. *)
Record exec_ok (lp lp' : LongPool) (x x' : pc) : Prop := mkExecOk {
  e_cfg : idleConfig lp' = idleConfig lp;
  e_place c :
    sumZ ((fun p => cnt c (idleList p)) <$> pools lp') + cnt c (hand x') + cnt c (closes lp')
    - (if bool_decide (c < length (conns lp'))%nat then 1 else 0)
    = sumZ ((fun p => cnt c (idleList p)) <$> pools lp) + cnt c (hand x) + cnt c (closes lp)
      - (if bool_decide (c < length (conns lp))%nat then 1 else 0);
  e_count : globalIdle lp' - idle lp' - owed x' = globalIdle lp - idle lp - owed x;
  e_owed : 0 <= owed x' /\ x' <> Crashed;
  e_limit : Forall (pool_ok (idleConfig lp)) (pools lp');
  e_global : idle lp' + reserved x' <= idle lp + reserved x
             \/ globalIdle lp' <= MaxIdleGlobal (idleConfig lp) /\ idle lp' + reserved x' <= idle lp + 1 /\ globalIdle lp' = globalIdle lp + 1
                /\ reserved x = 0;
  e_map : map_Forall (fun _ pr => (pr < length (pools lp'))%nat) (peerMap lp');
  e_pointer : valid_pointer (length (pools lp')) x';
  e_pools : (length (pools lp) <= length (pools lp'))%nat
}.

Section steps.
Variable lp : LongPool.
Hypothesis Hlimit : Forall (pool_ok (idleConfig lp)) (pools lp).
Hypothesis Hmap : map_Forall (fun _ pr => (pr < length (pools lp))%nat) (peerMap lp).
Hypothesis Hcfg : 0 <= MinIdlePerAddress (idleConfig lp) /\ 0 < MaxIdlePerAddress (idleConfig lp).

(** A step that leaves the pool as it is. *)
Lemma same_ok x x' :
  hand x' = hand x -> owed x' = owed x -> reserved x' = reserved x -> 0 <= owed x' -> x' <> Crashed ->
  valid_pointer (length (pools lp)) x' -> exec_ok lp lp x x'.
Proof. intros Hh Ho Hr Hn Hc Hp. split; rewrite ?Hh; auto; try lia. Qed.

(** Also when an entry leaves the address map, or the pool is marked closed. *)
Lemma delete_ok na x x' :
  hand x' = hand x -> owed x' = owed x -> reserved x' = reserved x -> 0 <= owed x' -> x' <> Crashed ->
  valid_pointer (length (pools lp)) x' -> exec_ok lp (set_peerMap (delete na (peerMap lp)) lp) x x'.
Proof.
  intros Hh Ho Hr Hn Hc Hp. split; rewrite ?Hh; auto; try (unfold idle; simpl; lia).
  simpl. by apply map_Forall_delete.
Qed.

(** A step of the counter. *)
Lemma counter_ok d x x' :
  hand x' = hand x -> owed x' = owed x + d -> reserved x = 0 -> 0 <= owed x' -> x' <> Crashed ->
  (reserved x' = 0 \/ reserved x' = 1 /\ d = 1 /\ globalIdle lp + d <= MaxIdleGlobal (idleConfig lp)) ->
  valid_pointer (length (pools lp)) x' -> exec_ok lp (add_global d lp) x x'.
Proof.
  intros Hh Ho Hr Hn Hc Hr' Hp. split; rewrite ?Hh; auto; try (unfold idle; simpl; lia).
Qed.

(** A section under the lock of pool [pr]. *)
Lemma locked_ok lp' pr p p' shut x x' :
  pools lp !! pr = Some p ->
  pools lp' = <[pr := p']> (pools lp) -> peerMap lp' = peerMap lp -> globalIdle lp' = globalIdle lp ->
  idleConfig lp' = idleConfig lp -> length (conns lp') = length (conns lp) -> closes lp' = shut ++ closes lp ->
  (forall c, cnt c (idleList p) + cnt c (hand x) = cnt c (idleList p') + cnt c (hand x') + cnt c shut) ->
  lenZ (idleList p) + owed x = lenZ (idleList p') + owed x' ->
  lenZ (idleList p') + reserved x' <= lenZ (idleList p) + reserved x ->
  pool_ok (idleConfig lp) p' -> 0 <= owed x' -> x' <> Crashed -> pointer x' = None ->
  exec_ok lp lp' x x'.
Proof.
  intros Hp E1 E2 E3 E4 E5 E6 Hc Ho Hr Hok Hn Hx Hptr.
  assert (Hidle : idle lp' = idle lp - lenZ (idleList p) + lenZ (idleList p')).
  { unfold idle. rewrite E1. by rewrite (sumZ_insert (fun p => lenZ (idleList p)) _ _ _ _ Hp). }
  split; rewrite ?E1, ?E2, ?E3, ?E4, ?E5, ?E6, ?length_insert; auto; try lia.
  - intros c. rewrite (sumZ_insert (fun p => cnt c (idleList p)) _ _ _ _ Hp), cnt_app. specialize (Hc c). lia.
  - by apply Forall_insert.
  - unfold valid_pointer. by rewrite Hptr.
Qed.

Lemma lookup_pool_ok pr p : pools lp !! pr = Some p -> pool_ok (idleConfig lp) p.
Proof. intros Hp. by eapply Forall_lookup_1 in Hlimit. Qed.

(** getPeer *)
Lemma getstore_ok na x lp' x' ch :
  x = GetStore na -> exec ch lp x = Some (lp', x') -> exec_ok lp lp' x x'.
Proof.
  intros -> E. opened E.
  assert (Hpl : forall m y, map_Forall (fun _ pr => (pr < length (pools lp) + 1)%nat) m -> hand y = [] -> owed y = 0 -> reserved y = 0 ->
             y <> Crashed -> valid_pointer (length (pools lp) + 1) y -> exec_ok lp (set_peerMap m (new_pool lp)) (GetStore na) y).
  { intros m y Hm Hh Ho Hr Hy Hptr.
    split; unfold idle; cbn [pools new_pool set_peerMap]; rewrite ?fmap_app, ?sumZ_app, ?length_app; cbn [length fmap list_fmap sumZ];
      rewrite ?Hh, ?Ho, ?Hr; auto.
    - intros c. rewrite fmap_app, sumZ_app. cbn. rewrite cnt_nil. lia.
    - cbn. change (lenZ []) with 0. lia.
    - split; [lia|done].
    - apply Forall_app. split; [done|]. constructor; [|done]. unfold pool_ok. cbn. change (lenZ []) with 0. lia.
    - left. cbn. change (lenZ []) with 0. lia.
    - lia. }
  assert (Hm : map_Forall (fun _ pr => (pr < length (pools lp) + 1)%nat) (peerMap lp)).
  { eapply map_Forall_impl; [exact Hmap|]. cbn. lia. }
  destruct (peerMap (new_pool lp) !! na) as [pr|] eqn:Ep; injection E as <- <-.
  - change (new_pool lp) with (set_peerMap (peerMap lp) (new_pool lp)). apply Hpl; try done. cbn.
    apply (Hm na pr Ep).
  - assert (Hl : length (pools (new_pool lp)) = (length (pools lp) + 1)%nat) by (cbn; rewrite length_app; done).
    apply Hpl; try done; [|cbn; rewrite length_app; cbn; lia].
    apply map_Forall_insert_2; [cbn in Hl; lia|done].
Qed.

(** Get's section, and the dial *)
Lemma getpool_ok na pr x lp' x' ch :
  x = GetPool na pr -> exec ch lp x = Some (lp', x') -> exec_ok lp lp' x x'.
Proof.
  intros -> E. opened E. unfold with_pool in E. destruct (pools lp !! pr) as [p|] eqn:Ep; [|done]. cbn in E.
  destruct (pool_Get lp p) as [[[o n] p'] shut] eqn:Eg. injection E as <- <-.
  destruct (pool_Get_spec _ _ _ _ _ _ 0%nat Eg) as (_ & El & Hn & Em & Ex).
  pose proof (lookup_pool_ok _ _ Ep) as (P1 & P2 & P3).
  eapply locked_ok; [exact Ep|done..| | | | |done|done|done]; cbn [hand owed reserved].
  - intros c. destruct (pool_Get_spec _ _ _ _ _ _ c Eg) as (Ec & _). destruct o; cbn [of_option] in Ec; rewrite ?cnt_nil in *; lia.
  - lia.
  - lia.
  - unfold pool_ok. lia.
Qed.

Lemma dial_ok na x lp' x' ch :
  x = GetDial na -> exec ch lp x = Some (lp', x') -> exec_ok lp lp' x x'.
Proof.
  intros -> E. opened E. destruct (dialled ch) as [net|]; injection E as <- <-; [|by apply same_ok].
  split; try done; try (unfold idle; cbn; lia); [|left; apply Z.le_refl].
  intros c. cbn [pools new_conn conns closes hand]. rewrite length_app, cnt_cons, cnt_nil. cbn [length].
  repeat case_bool_decide; repeat case_decide; lia.
Qed.

(** Put's section *)
Lemma putpool_ok pr c x lp' x' ch :
  x = PutPool pr c -> exec ch lp x = Some (lp', x') -> exec_ok lp lp' x x'.
Proof.
  intros -> E. opened E. unfold with_pool in E. destruct (pools lp !! pr) as [p|] eqn:Ep; [|done]. cbn in E.
  pose proof (lookup_pool_ok _ _ Ep) as (P1 & P2 & P3). unfold pool_Put in E.
  destruct (lenZ (idleList p) <? maxIdle p) eqn:El; injection E as <- <-; bool_to_prop.
  - assert (Hl : lenZ (idleList p ++ [c]) = lenZ (idleList p) + 1) by (unfold lenZ; rewrite length_app; cbn; lia).
    eapply locked_ok with (shut := []); [exact Ep|done..| |done| | | | |done|done|done]; cbn [hand owed reserved idleList]; rewrite ?Hl.
    + cbn. by rewrite length_alter.
    + intros c'. rewrite cnt_app, cnt_nil. lia.
    + lia.
    + lia.
    + unfold pool_ok. cbn. rewrite Hl. lia.
  - split; try done. left. cbn. lia.
Qed.

(** Evict's section, which never indexes out of range *)
Lemma evictpool_ok pr x lp' x' ch :
  x = EvictPool pr -> exec ch lp x = Some (lp', x') -> exec_ok lp lp' x x'.
Proof.
  intros -> E. opened E. unfold with_pool in E. destruct (pools lp !! pr) as [p|] eqn:Ep; [|done]. cbn in E.
  pose proof (lookup_pool_ok _ _ Ep) as (P1 & P2 & P3).
  destruct (pool_Evict_total lp p P2) as [[[n p'] shut] Eg]. rewrite Eg in E. injection E as <- <-.
  destruct (pool_Evict_spec _ _ _ _ _ 0%nat Eg) as (_ & El & Hn & Em & Ex).
  eapply locked_ok; [exact Ep|done..| | | | |done|done|done]; cbn [hand owed reserved].
  - intros c. destruct (pool_Evict_spec _ _ _ _ _ c Eg) as (Ec & _). rewrite cnt_nil. lia.
  - lia.
  - lia.
  - unfold pool_ok. lia.
Qed.

(** Close's section *)
Lemma closepool_ok all pr x lp' x' ch :
  x = ClosePool all pr -> exec ch lp x = Some (lp', x') -> exec_ok lp lp' x x'.
Proof.
  intros -> E. opened E. unfold with_pool in E. destruct (pools lp !! pr) as [p|] eqn:Ep; [|done]. cbn in E.
  pose proof (lookup_pool_ok _ _ Ep) as (P1 & P2 & P3). injection E as <- <-.
  assert (0 <= lenZ (idleList p)) by (unfold lenZ; lia).
  eapply locked_ok; [exact Ep|done..| | | | |done|done|done]; cbn [hand owed reserved idleList].
  - intros c. rewrite cnt_rev, !cnt_nil. lia.
  - change (lenZ []) with 0. lia.
  - change (lenZ []) with 0. lia.
  - unfold pool_ok. cbn. change (lenZ []) with 0. lia.
Qed.

Lemma closeconn_ok c x lp' x' ch :
  x = CloseConn c -> exec ch lp x = Some (lp', x') -> exec_ok lp lp' x x'.
Proof.
  intros -> E. injection E as <- <-. split; try done; try (unfold idle; cbn; lia); [|left; apply Z.le_refl].
  intros c'. cbn [pools close_conns conns closes hand]. rewrite !cnt_app, cnt_nil. lia.
Qed.

Lemma exec_sound ch x lp' x' :
  0 <= owed x -> valid_pointer (length (pools lp)) x -> exec ch lp x = Some (lp', x') -> exec_ok lp lp' x x'.
Proof.
  intros Ho Hv E.
  destruct x; eauto using getstore_ok, getpool_ok, dial_ok, putpool_ok, evictpool_ok, closepool_ok, closeconn_ok;
    opened E; try done.
  - destruct (peerMap lp !! na) as [pr|] eqn:Ep; injection E as <- <-; apply same_ok; try done. exact (Hmap _ _ Ep).
  - cbn in Ho. destruct got; injection E as <- <-; apply counter_ok; cbn; try done; try lia; by left.
  - destruct (conns lp !! c) as [y|]; [|done]. cbn in E.
    destruct (peerMap lp !! _) as [pr|] eqn:Ep; injection E as <- <-; apply same_ok; try done. exact (Hmap _ _ Ep).
  - destruct (_ <? _) eqn:El; injection E as <- <-; bool_to_prop; apply counter_ok; cbn in *; try done; try lia; auto.
  - injection E as <- <-. apply counter_ok; cbn; try done; by left.
  - injection E as <- <-. apply counter_ok; cbn; try done; by left.
  - destruct (closed lp); injection E as <- <-; by apply same_ok.
  - destruct (entry ch) as [na|]; [|injection E as <- <-; by apply same_ok].
    destruct (peerMap lp !! na) as [pr|] eqn:Ep; [|done]. injection E as <- <-. apply same_ok; try done. exact (Hmap _ _ Ep).
  - cbn in Ho. injection E as <- <-. apply counter_ok; cbn; try done; try lia; by left.
  - destruct (peerMap lp !! na) as [pr|] eqn:Ep; injection E as <- <-; apply same_ok; try done. exact (Hmap _ _ Ep).
  - injection E as <- <-. by apply delete_ok.
  - destruct (closed lp); injection E as <- <-; [by apply same_ok|]. split; try done. left. apply Z.le_refl.
  - destruct (entry ch) as [na|]; [|injection E as <- <-; by apply same_ok].
    destruct (peerMap lp !! na) as [pr|] eqn:Ep; [|done]. injection E as <- <-. apply same_ok; try done. exact (Hmap _ _ Ep).
  - cbn in Ho. injection E as <- <-. apply counter_ok; destruct all; cbn; try done; try lia; by left.
Qed.
End steps.

(** * The invariant *)

Lemma owed_reserved x : owed x >= 0 -> reserved x <= owed x.
Proof. destruct x; cbn; lia. Qed.

Lemma pinv_exec ch s i x lp' x' :
  pinv s -> threads s !! i = Some x -> exec ch (sp s) x = Some (lp', x') ->
  pinv (mkSys lp' (<[i := x']> (threads s)) (held s)).
Proof.
  intros [I1 I2 I3 I4 I5 I6 I7 I8] Hi E.
  assert (Hx : 0 <= owed x) by (eapply Forall_lookup_1 in I3; [|exact Hi]; apply I3).
  destruct (exec_sound (sp s) I4 I6 ltac:(lia) ch x lp' x' Hx ltac:(by eapply Forall_lookup_1 in I7) E)
    as [E1 E2 E3 E4 E5 E6 E7 E8 E9].
  assert (Hr : sumZ (reserved <$> threads s) - reserved x <= sumZ (owed <$> threads s) - owed x).
  { rewrite <- (take_drop_middle (threads s) i x Hi), !fmap_app, !fmap_cons, !sumZ_app, !sumZ_cons.
    rewrite <- (take_drop_middle (threads s) i x Hi), Forall_app, Forall_cons in I3.
    enough (sumZ (reserved <$> take i (threads s)) <= sumZ (owed <$> take i (threads s))
            /\ sumZ (reserved <$> drop (S i) (threads s)) <= sumZ (owed <$> drop (S i) (threads s))) by lia.
    destruct I3 as (F1 & _ & F2). rewrite Forall_forall in F1, F2.
    split; apply sumZ_fmap_bound; intros y Hy; apply owed_reserved; [specialize (F1 y Hy)|specialize (F2 y Hy)]; lia. }
  split; cbn [sp threads held]; rewrite ?E1; auto.
  - intros c. unfold places in *. cbn [sp threads held]. rewrite (sumZ_insert (fun x => cnt c (hand x)) _ _ _ _ Hi).
    specialize (I1 c). specialize (E2 c). lia.
  - rewrite (sumZ_insert owed _ _ _ _ Hi). lia.
  - by apply Forall_insert.
  - rewrite (sumZ_insert reserved _ _ _ _ Hi). lia.
  - apply Forall_insert; [|done]. eapply Forall_impl; [exact I7|]. cbn. intros y Hy. destruct (pointer y); [|done].
    by eapply Nat.lt_le_trans.
Qed.

Lemma take_one_cnt c l l' c' : take_one c l = Some l' -> cnt c' l = cnt c' [c] + cnt c' l'.
Proof.
  revert l'. induction l as [|x l IH]; intros l' E; [done|]. cbn [take_one] in E. destruct (decide (x = c)) as [->|].
  - simplify_eq. rewrite !cnt_cons, cnt_nil. lia.
  - destruct (take_one c l) as [r|]; [|done]. cbn in E. simplify_eq. specialize (IH _ eq_refl). rewrite !cnt_cons in *. lia.
Qed.

Lemma pinv_spawn s x h :
  pinv s -> owed x = 0 -> reserved x = 0 -> pointer x = None -> x <> Crashed ->
  (forall c, cnt c (held s) = cnt c (hand x) + cnt c h) -> pinv (mkSys (sp s) (threads s ++ [x]) h).
Proof.
  intros [I1 I2 I3 I4 I5 I6 I7 I8] Ho Hr Hp Hc Hh.
  split; cbn [sp threads held]; rewrite ?fmap_app, ?sumZ_app, ?Forall_app; cbn [fmap list_fmap sumZ]; auto.
  - intros c. unfold places in *. cbn [sp threads held]. rewrite fmap_app, sumZ_app. cbn [fmap list_fmap sumZ foldr].
    specialize (I1 c). specialize (Hh c). lia.
  - rewrite Ho. change (sumZ [0]) with 0. lia.
  - split; [done|]. constructor; [|done]. split; [lia|done].
  - rewrite Hr. change (sumZ [0]) with 0. lia.
  - split; [done|]. constructor; [|done]. by rewrite Hp.
Qed.

Lemma pinv_step l s s' : pinv s -> lstep l s = Some s' -> pinv s'.
Proof.
  intros I E. destruct l as [o|i ch|i|t al]; cbn [lstep] in E.
  - destruct o; cbn [start] in E; try (simplify_eq; apply pinv_spawn; try done; intros; cbn; rewrite cnt_nil; lia);
      (destruct (take_one c (held s)) as [h|] eqn:Eh; [|done]; cbn in E; simplify_eq; apply pinv_spawn; try done;
       intros c'; by apply take_one_cnt).
  - destruct (threads s !! i) as [x|] eqn:Ei; [|done]. cbn in E.
    destruct (exec ch (sp s) x) as [[lp' x']|] eqn:Ex; [|done]. cbn in E. simplify_eq. by eapply pinv_exec.
  - destruct (threads s !! i) as [x|] eqn:Ei; [|done]. cbn in E. destruct x; simplify_eq.
    destruct I as [I1 I2 I3 I4 I5 I6 I7 I8]. split; cbn [sp threads held]; auto.
    + intros c'. unfold places in *. cbn [sp threads held]. rewrite (sumZ_insert (fun x => cnt c' (hand x)) _ _ _ _ Ei).
      specialize (I1 c'). cbn [hand]. rewrite !cnt_cons, !cnt_nil. lia.
    + rewrite (sumZ_insert owed _ _ _ _ Ei). cbn. lia.
    + by apply Forall_insert.
    + rewrite (sumZ_insert reserved _ _ _ _ Ei). cbn. lia.
    + by apply Forall_insert.
  - simplify_eq. destruct I. by split.
Qed.

Lemma pinv_run ls s s' : pinv s -> lrun ls s = Some s' -> pinv s'.
Proof.
  revert s. induction ls as [|l ls IH]; intros s I E; cbn [lrun] in E; [by simplify_eq|].
  destruct (lstep l s) as [s1|] eqn:E1; [|done]. cbn in E. eauto using pinv_step.
Qed.

Lemma exec_cfg ch lp x lp' x' : exec ch lp x = Some (lp', x') -> idleConfig lp' = idleConfig lp.
Proof.
  intros E. destruct x; opened E; unfold with_pool in E; cbv zeta in E; try done;
  repeat match type of E with
    | context [peerMap lp !! ?k] => destruct (peerMap lp !! k)
    | context [conns lp !! ?k] => destruct (conns lp !! k)
    | context [pools lp !! ?k] => destruct (pools lp !! k)
    | context [entry ch] => destruct (entry ch)
    end; cbn in E; try done; repeat (case_match; try done); by simplify_eq.
Qed.

Lemma lrun_cfg ls s s' : lrun ls s = Some s' -> idleConfig (sp s') = idleConfig (sp s).
Proof.
  revert s. induction ls as [|l ls IH]; intros s E; cbn [lrun] in E; [by simplify_eq|].
  destruct (lstep l s) as [s1|] eqn:E1; [|done]. cbn in E. rewrite (IH _ E). clear -E1.
  destruct l as [o|i ch|i|t al]; cbn [lstep] in E1.
  - destruct o; cbn [start] in E1; try (by simplify_eq); by destruct (take_one _ _); simplify_eq/=.
  - destruct (threads s !! i) as [x|]; [|done]. cbn in E1. destruct (exec ch (sp s) x) as [[lp' x']|] eqn:E; [|done].
    simplify_eq/=. by eapply exec_cfg.
  - destruct (threads s !! i) as [x|]; [|done]. cbn in E1. by destruct x; simplify_eq.
  - by simplify_eq.
Qed.

(** * What callers may rely on *)

Lemma cnt_in c l : c ∈ l -> 1 <= cnt c l.
Proof. intros H. unfold cnt. apply list_elem_of_In, (count_occ_In Nat.eq_dec) in H. lia. Qed.

Lemma cnt_sum_le {A} (f : A -> list nat) (l : list A) x c : x ∈ l -> cnt c (f x) <= sumZ ((fun y => cnt c (f y)) <$> l).
Proof.
  induction 1 as [x l|x y l _ IH]; rewrite fmap_cons, sumZ_cons.
  - enough (0 <= sumZ ((fun y => cnt c (f y)) <$> l)) by lia.
    apply sumZ_nonneg, Forall_fmap, Forall_forall. intros y _. apply cnt_nonneg.
  - pose proof (cnt_nonneg c (f y)). lia.
Qed.

Lemma sum_cnt_nonneg {A} (f : A -> list nat) (l : list A) c : 0 <= sumZ ((fun y => cnt c (f y)) <$> l).
Proof. apply sumZ_nonneg, Forall_fmap, Forall_forall. intros y _. apply cnt_nonneg. Qed.

Lemma cnt_NoDup l : (forall c, cnt c l <= 1) -> NoDup l.
Proof.
  intros Hc. apply NoDup_ListNoDup, (NoDup_count_occ Nat.eq_dec). intros c. specialize (Hc c). unfold cnt in Hc. lia.
Qed.

(** C27: whatever operations run interleaved on a long-connection pool, every connection
    ever dialled is in exactly one place: idle in one pool, in the hands of one operation,
    with one caller, or closed.  So no connection is given to two callers, none is closed
    twice, and a connection a caller has is neither idle nor closed. *)
Theorem connections_owned_once cfg t al ls s :
  lrun ls (init cfg t al) = Some s ->
  (forall c, (c < length (conns (sp s)))%nat -> places c s = 1)
  /\ NoDup (closes (sp s)) /\ NoDup (held s)
  /\ forall c, c ∈ held s -> (c ∉ closes (sp s)) /\ Forall (fun p => c ∉ idleList p) (pools (sp s)).
Proof.
  intros E. destruct (pinv_run _ _ _ (pinv_init cfg t al) E) as [I1 _ _ _ _ _ _ _].
  assert (B : forall c, sumZ ((fun p => cnt c (idleList p)) <$> pools (sp s)) + cnt c (held s) + cnt c (closes (sp s)) <= 1).
  { intros c. specialize (I1 c). unfold places in I1. pose proof (sum_cnt_nonneg hand (threads s) c). case_bool_decide; lia. }
  split; [|split; [|split]].
  - intros c Hc. rewrite I1. by rewrite bool_decide_true.
  - apply cnt_NoDup. intros c. specialize (B c). pose proof (sum_cnt_nonneg idleList (pools (sp s)) c).
    pose proof (cnt_nonneg c (held s)). lia.
  - apply cnt_NoDup. intros c. specialize (B c). pose proof (sum_cnt_nonneg idleList (pools (sp s)) c).
    pose proof (cnt_nonneg c (closes (sp s))). lia.
  - intros c Hc%cnt_in. specialize (B c). pose proof (cnt_nonneg c (closes (sp s))).
    pose proof (sum_cnt_nonneg idleList (pools (sp s)) c). split.
    + intros Hd%cnt_in. lia.
    + apply Forall_forall. intros p Hp Hd%cnt_in. pose proof (cnt_sum_le idleList _ _ c Hp). lia.
Qed.

(** C28: in every state of every interleaving the idle connections keep to the configured
    limits, the one per address in each pool object and the global one in all; no operation
    has indexed out of range, and once no operation is under way the global counter is
    exactly the number of idle connections.  (An address has one reachable pool object; one
    that was cleaned while a Put was under way can keep a connection, [late_put_leaks].) *)
Theorem idle_limits_kept cfg t al ls s :
  lrun ls (init cfg t al) = Some s ->
  Forall (fun p => lenZ (idleList p) <= MaxIdlePerAddress (CheckPoolConfig cfg)) (pools (sp s))
  /\ idle (sp s) <= MaxIdleGlobal (CheckPoolConfig cfg)
  /\ idle (sp s) <= globalIdle (sp s)
  /\ (Crashed ∉ threads s)
  /\ (Forall (fun x => x = Finished) (threads s) -> globalIdle (sp s) = idle (sp s)).
Proof.
  intros E. assert (C : idleConfig (sp s) = CheckPoolConfig cfg) by (rewrite (lrun_cfg _ _ _ E); done).
  destruct (pinv_run _ _ _ (pinv_init cfg t al) E) as [_ I2 I3 I4 I5 _ _ _]. rewrite C in *. split; [|split; [|split; [|split]]].
  - eapply Forall_impl; [exact I4|]. cbn. intros p (P1 & _ & P3). lia.
  - enough (0 <= sumZ (reserved <$> threads s)) by lia. apply sumZ_nonneg, Forall_fmap, Forall_forall. intros x _. by destruct x.
  - enough (0 <= sumZ (owed <$> threads s)) by lia. apply sumZ_nonneg, Forall_fmap. eapply Forall_impl; [exact I3|]. cbn. tauto.
  - intros Hc. rewrite Forall_forall in I3. by destruct (I3 _ Hc).
  - intros Hf. rewrite I2. enough (sumZ (owed <$> threads s) = 0) by lia. clear -Hf.
    induction Hf as [|x l -> _ IH]; [done|]. by rewrite fmap_cons, sumZ_cons, IH.
Qed.

(** ** Reuse *)

Definition nowhere : choice := mkChoice None None.

(** A Put in thread [i], and a Get in thread [i], alone. *)
Definition put_alone (i c : nat) : list label := [Start (OpPut c); Run i nowhere; Run i nowhere; Run i nowhere].
Definition get_alone (i : nat) (na : netAddr) : list label :=
  [Start (OpGet na); Run i nowhere; Run i nowhere; Run i nowhere; Return i].

Lemma take_one_head c l : take_one c (c :: l) = Some l.
Proof. cbn. by rewrite decide_True. Qed.

Lemma lookup_last {A} (l : list A) x n : n = length l -> (l ++ [x]) !! n = Some x.
Proof. intros ->. by apply list_lookup_middle. Qed.

Lemma insert_last {A} (l : list A) x y n : n = length l -> <[n := y]> (l ++ [x]) = l ++ [y].
Proof. intros ->. rewrite insert_app_r_alt by done. by rewrite Nat.sub_diag. Qed.

Lemma lrun_app l1 l2 s0 s1 : lrun l1 s0 = Some s1 -> lrun (l1 ++ l2) s0 = lrun l2 s1.
Proof.
  revert s0. induction l1 as [|l l1 IH]; intros s0 E; cbn in *; [by simplify_eq|].
  destruct (lstep l s0); [|done]. cbn in *. eauto.
Qed.

#[local] Ltac lgo_eval :=
  cbn [mbind option_bind lstep lrun sp threads held];
  cbv beta iota zeta delta [exec getPeer_load peer_Get LongPool_Put counter_Inc peer_Put];
  cbn [mbind option_bind lstep lrun sp threads held].
#[local] Ltac lgo := lgo_eval; rewrite ?insert_last, ?lookup_last by done; lgo_eval.

Section alone.
Context (lp : LongPool) (ts : list pc) (h : list nat) (c : nat) (x : longConn) (pr : nat) (p : pool).
Hypothesis Ep : pools lp !! pr = Some p.

(** What a Put that keeps the connection makes of the pool. *)
Definition after_put : LongPool :=
  set_pool pr (mkPool (idleList p ++ [c]) (minIdle p) (maxIdle p) (maxIdleTimeout p))
    (set_deadline c (time lp + maxIdleTimeout p) (add_global 1 lp)).

Lemma put_alone_run :
  conns lp !! c = Some x -> peerMap lp !! (c_net x, c_addr x) = Some pr ->
  lenZ (idleList p) < maxIdle p -> globalIdle lp < MaxIdleGlobal (idleConfig lp) ->
  lrun (put_alone (length ts) c) (mkSys lp ts (c :: h)) = Some (mkSys after_put (ts ++ [Finished]) h).
Proof.
  intros Ec Em Hl Hg. unfold put_alone. cbn [lrun lstep start held]. rewrite take_one_head. lgo. rewrite Ec. lgo. rewrite Em. lgo.
  cbn [add_global idleConfig globalIdle]. rewrite (proj2 (Z.ltb_ge _ _)) by lia. lgo.
  unfold with_pool. change (pools (add_global 1 lp)) with (pools lp). rewrite Ep. lgo. unfold pool_Put.
  rewrite (proj2 (Z.ltb_lt _ _)) by lia. by lgo.
Qed.

(** A Get whose address has an active connection last in its list. *)
Lemma get_alone_run l na :
  peerMap lp !! na = Some pr -> idleList p = l ++ [c] -> IsActive lp c = true ->
  lrun (get_alone (length ts) na) (mkSys lp ts h)
  = Some (mkSys (add_global (- 1) (close_conns [] (set_pool pr (mkPool l (minIdle p) (maxIdle p) (maxIdleTimeout p)) lp)))
                (ts ++ [Finished]) (c :: h)).
Proof.
  intros Em El HA. unfold get_alone. cbn [lrun lstep start]. lgo. rewrite Em. lgo. unfold with_pool. rewrite Ep. lgo.
  unfold pool_Get. rewrite El, rev_app_distr. cbn [rev app pick_active]. rewrite HA, rev_involutive.
  replace (lenZ (l ++ [c]) - lenZ (rev l)) with 1 by (unfold lenZ; rewrite length_app, length_rev; cbn; lia).
  do 3 lgo. done.
Qed.
End alone.

(** A caller that gives back a connection while its address has room, and then asks for a
    connection to that address, gets the same connection: nothing is dialled, nothing is
    closed, the idle lists and the counter are as they were. *)
Lemma put_then_get s c h x pr p :
  held s = c :: h -> conns (sp s) !! c = Some x -> peerMap (sp s) !! (c_net x, c_addr x) = Some pr ->
  pools (sp s) !! pr = Some p -> lenZ (idleList p) < maxIdle p ->
  globalIdle (sp s) < MaxIdleGlobal (idleConfig (sp s)) ->
  0 < maxIdleTimeout p -> alive (sp s) c <> Some false ->
  exists s', lrun (put_alone (length (threads s)) c ++ get_alone (S (length (threads s))) (c_net x, c_addr x)) s = Some s'
    /\ held s' = held s /\ pools (sp s') = pools (sp s) /\ globalIdle (sp s') = globalIdle (sp s)
    /\ closes (sp s') = closes (sp s) /\ length (conns (sp s')) = length (conns (sp s)).
Proof.
  intros Eh Ec Em Ep Hl Hg Ht Ha. destruct s as [lp ts hd]. cbn [sp threads held] in *. subst hd.
  rewrite (lrun_app _ _ _ _ (put_alone_run lp ts h c x pr p Ep Ec Em Hl Hg)).
  replace (S (length ts)) with (length (ts ++ [Finished])) by (rewrite length_app; cbn; lia).
  rewrite (get_alone_run (after_put lp c pr p) (ts ++ [Finished]) h c pr
             (mkPool (idleList p ++ [c]) (minIdle p) (maxIdle p) (maxIdleTimeout p))) with (l := idleList p); cycle 1.
  - cbn. apply list_lookup_insert_eq. by eapply lookup_lt_Some.
  - exact Em.
  - done.
  - unfold IsActive. change (alive (after_put lp c pr p) c) with (alive lp c). destruct (alive lp c) as [[]|]; [done|done|].
    apply Z.ltb_lt. unfold deadline_of. cbn. rewrite list_lookup_alter_eq, Ec. cbn. lia.
  - eexists. split; [done|]. unfold after_put.
    cbn [sp held pools globalIdle closes conns add_global close_conns set_pool set_deadline app minIdle maxIdle maxIdleTimeout].
    split; [done|]. split; [|split; [lia|split; [done|by rewrite length_alter]]].
    rewrite list_insert_insert_eq. apply list_insert_id. rewrite Ep. by destruct p.
Qed.

(** ** A late Put *)

(** A pool that is not in the address map and that no operation points to. *)
Definition orphan (pr : nat) (s : sys) : Prop :=
  (pr < length (pools (sp s)))%nat /\ map_Forall (fun _ q => q <> pr) (peerMap (sp s))
  /\ Forall (fun x => pointer x <> Some pr) (threads s).

Lemma orphan_exec ch lp x lp' x' pr :
  (pr < length (pools lp))%nat -> map_Forall (fun _ q => q <> pr) (peerMap lp) -> pointer x <> Some pr ->
  exec ch lp x = Some (lp', x') ->
  pools lp' !! pr = pools lp !! pr /\ (pr < length (pools lp'))%nat
  /\ map_Forall (fun _ q => q <> pr) (peerMap lp') /\ pointer x' <> Some pr.
Proof.
  intros Hl Hm Hp E.
  assert (Hne : forall na q, peerMap lp !! na = Some q -> Some q <> Some pr) by (intros na q Eq [= ->]; exact (Hm _ _ Eq eq_refl)).
  assert (Hi : forall q p', Some q <> Some pr -> <[q := p']> (pools lp) !! pr = pools lp !! pr)
    by (intros q p' Hq; apply list_lookup_insert_ne; congruence).
  destruct x; opened E; unfold with_pool in E; cbn [pointer] in Hp;
    try (destruct (pools lp !! pr0) as [p|] eqn:Ep; [|done]; cbn in E).
  all: try by (repeat case_match; simplify_eq/=; rewrite ?length_insert, ?Hi; eauto using map_Forall_delete).
  - assert (Hn : pools (new_pool lp) !! pr = pools lp !! pr) by (cbn; by rewrite lookup_app_l).
    assert (Hk : length (pools (new_pool lp)) = S (length (pools lp))) by (cbn; rewrite length_app; cbn; lia).
    destruct (peerMap (new_pool lp) !! na) as [q|] eqn:Eq; injection E as <- <-.
    + split; [done|]. split; [by rewrite Hk; lia|]. split; [done|]. exact (Hne _ _ Eq).
    + split; [done|]. cbn in Hk |- *. rewrite Hk. split; [lia|]. split; [|intros [= Hq]; lia].
      apply map_Forall_insert_2; [lia|done].
  - destruct (conns lp !! c) as [y|]; [|done]. cbn in E.
    destruct (peerMap lp !! _) as [q|] eqn:Eq; injection E as <- <-; cbn; eauto.
  - destruct (entry ch) as [na|]; cbn in E; [|by simplify_eq].
    destruct (peerMap lp !! na) as [q|] eqn:Eq; simplify_eq/=; eauto.
  - simplify_eq. cbn. split_and!; [done..|by apply map_Forall_delete|done].
  - destruct (entry ch) as [na|]; cbn in E; [|by simplify_eq].
    destruct (peerMap lp !! na) as [q|] eqn:Eq; simplify_eq/=; eauto.
Qed.

(** What is idle in such a pool stays there whatever happens: no Get takes it, no Evict, Clean
    or Close closes it. *)
Lemma orphan_forever pr ls s s' :
  orphan pr s -> lrun ls s = Some s' -> orphan pr s' /\ pools (sp s') !! pr = pools (sp s) !! pr.
Proof.
  revert s. induction ls as [|l ls IH]; intros s O E; cbn [lrun] in E; [by simplify_eq|].
  destruct (lstep l s) as [s1|] eqn:E1; [|done]. cbn in E.
  enough (H1 : orphan pr s1 /\ pools (sp s1) !! pr = pools (sp s) !! pr).
  { destruct H1 as [H1 <-]. by apply IH. }
  clear IH E. destruct O as (O1 & O2 & O3). unfold orphan.
  destruct l as [o|i ch|i|t al]; cbn [lstep] in E1.
  - destruct o; cbn [start] in E1; try destruct (take_one _ _); simplify_eq/=; rewrite Forall_app, Forall_singleton; done.
  - destruct (threads s !! i) as [x|] eqn:Ei; [|done]. cbn in E1.
    destruct (exec ch (sp s) x) as [[lp' x']|] eqn:Ex; [|done]. simplify_eq/=.
    destruct (orphan_exec _ _ _ _ _ _ O1 O2 ltac:(by eapply Forall_lookup_1 in O3) Ex) as (P1 & P2 & P3 & P4).
    split; [|done]. split; [done|]. split; [done|]. by apply Forall_insert.
  - destruct (threads s !! i) as [x|]; [|done]. cbn in E1. destruct x; simplify_eq/=. eauto using Forall_insert.
  - by simplify_eq.
Qed.

(** ** A run with two addresses *)

Definition plain (n m m' g : Z) : IdleConfig := mkIdle n m g (m' * second).
Definition na1 : netAddr := ([Byte.x74], [Byte.x31]).
Definition na2 : netAddr := ([Byte.x74], [Byte.x32]).
Definition up : choice := mkChoice (Some [Byte.x74]) None.
Definition at_ (na : netAddr) : choice := mkChoice None (Some na).

(** Two callers dial the same new address at once, and one caller another address; two
    connections come back at once to a pool with room for one; the idle one is taken,
    given back, and evicted; the pool is closed while a connection comes back. *)
Definition demo_run : list label :=
  [Start (OpGet na1); Start (OpGet na1); Run 0 nowhere; Run 1 nowhere; Run 1 nowhere; Run 0 nowhere;
   Run 0 nowhere; Run 1 nowhere; Run 0 nowhere; Run 1 nowhere; Run 0 up; Run 1 up; Return 1; Return 0;
   Start (OpGet na2); Run 2 nowhere; Run 2 nowhere; Run 2 nowhere; Run 2 nowhere; Run 2 up; Return 2;
   Start (OpPut 0); Start (OpPut 1); Run 3 nowhere; Run 4 nowhere; Run 3 nowhere; Run 4 nowhere;
   Run 4 nowhere; Run 3 nowhere; Run 3 nowhere; Run 3 nowhere]
  ++ get_alone 5 na1 ++ put_alone 6 1
  ++ [Env 100000000000 (fun _ => None); Start OpEvict; Run 7 nowhere; Run 7 (at_ na1); Run 7 nowhere; Run 7 nowhere; Run 7 nowhere;
      Start OpClose; Start (OpPut 2); Run 8 nowhere; Run 8 (at_ na2); Run 8 nowhere; Run 9 nowhere; Run 9 nowhere;
      Run 8 nowhere; Run 8 nowhere; Run 8 (at_ na1); Run 8 nowhere; Run 8 nowhere; Run 8 nowhere; Run 8 nowhere].

Definition demo_end : option sys := lrun demo_run (init (plain 0 1 30 2) 0 (fun _ => None)).

Lemma connections_owned_once_witness :
  is_Some demo_end /\ forall s, demo_end = Some s -> places 0 s = 1.
Proof.
  split; [apply is_Some_alt; vm_compute; exact I|]. intros s E.
  destruct (connections_owned_once _ _ _ _ _ E) as [P _]. apply P.
  assert (L : (length ∘ conns ∘ sp) <$> demo_end = Some 3%nat) by (vm_compute; reflexivity).
  rewrite E in L. cbn in L. injection L as ->. repeat constructor.
Defined.

Lemma idle_limits_kept_witness :
  is_Some demo_end /\ forall s, demo_end = Some s -> idle (sp s) <= 2.
Proof.
  split; [apply is_Some_alt; vm_compute; exact I|]. intros s E.
  destruct (idle_limits_kept _ _ _ _ _ E) as (_ & P & _). exact P.
Defined.

(** A Put has looked up its peer when Clean removes the address and closes the pool.  The
    Put then parks its connection in the closed pool: all operations are over, the address
    map is empty, the connection is open, nobody has it, and the counter keeps its place. *)
Definition late_put : list label :=
  [Start (OpGet na1); Run 0 nowhere; Run 0 nowhere; Run 0 nowhere; Run 0 nowhere; Run 0 up; Return 0;
   Start (OpPut 0); Run 1 nowhere;
   Start (OpClean na1); Run 2 nowhere; Run 2 nowhere; Run 2 nowhere; Run 2 nowhere;
   Run 1 nowhere; Run 1 nowhere].

Lemma late_put_leaks :
  exists s, lrun late_put (init (plain 0 1 30 2) 0 (fun _ => None)) = Some s
    /\ Forall (fun x => x = Finished) (threads s) /\ peerMap (sp s) = ∅ /\ held s = [] /\ closes (sp s) = []
    /\ globalIdle (sp s) = 1
    /\ forall ls s', lrun ls s = Some s' -> idleList <$> (pools (sp s') !! 0%nat) = Some [0%nat].
Proof.
  eexists. split; [vm_compute; reflexivity|]. cbn [sp threads held peerMap closes globalIdle].
  split; [repeat constructor|]. split; [done|]. split; [done|]. split; [done|]. split; [done|].
  intros ls s' E. apply (orphan_forever 0) in E as [_ ->]; [done|].
  split; [cbn; lia|]. split; [by intros na q Hq|]. cbn. repeat constructor; done.
Qed.
