(* ===== verification/ClientTransport.v ===== *)
(** The client side of an HTTP/2 connection
    (src/pkg/remote/trans/nphttp2/grpc/http2_client.go, with the stream of transport.go).

    The transport is shared by the callers' goroutines, the reader, the writer and the task
    that closes cancelled streams.  Each of them is a sequence of atomic steps: a section
    under the transport's mutex, a section of the control buffer (ControlBuf.v) with the
    closure it runs, an atomic operation on a stream, an operation of a flow-control window
    (FlowControl.v) or of a receive buffer.  [exec] is one such step; the closures stored in
    the queued items are represented by the number of their stream.

    The peer's frames, the contexts, the channel a select takes, the answers of the
    bandwidth estimator and the time at which the writer fails are the environment's.
    Logging, tracing and the wake-up of the writer (ControlBuf.v) are left out. *)

From S2P Require Import Prelude GoText FlowControl HttpUtil Headers Frames ControlBuf.

(** * Values *)

Abbreviation MD := (gmap text (list text)).

Definition ErrCodeNo : Z := 0.
Definition ErrCodeRefusedStream : Z := 7.
Definition ErrCodeCancel : Z := 8.
Definition ErrCodeEnhanceYourCalm : Z := 11.
Definition gracefulShutdownCode : Z := 1000.

Definition Canceled : Z := 1.
Definition DeadlineExceeded : Z := 4.
Definition ResourceExhausted : Z := 8.

Definition http2ErrConvTab (code : Z) : option Z :=
  if bool_decide (code = 3 \/ code = 11) then Some ResourceExhausted
  else if bool_decide (code = 7 \/ code = gracefulShutdownCode) then Some Unavailable
  else if code =? 8 then Some Canceled
  else if code =? 12 then Some PermissionDenied
  else if (0 <=? code) && (code <=? 13) then Some Internal
  else None.

(** A status: a code with its message, the status of a header error, or that of a
    RST_STREAM frame (whose message names the frame's error code). *)
Inductive rstatus :=
| SStatus (st : status)
| SHeader (e : headerErr)
| SReset (code errCode : Z).

Definition header_code (e : headerErr) : Z := match e with HTTPFallback c _ => c | _ => Internal end.

Definition Code (st : rstatus) : Z :=
  match st with SStatus st => st_code st | SHeader e => header_code e | SReset c _ => c end.

Definition New (code : Z) (msg : text) : rstatus := SStatus (mkStatus code msg []).

(** The errors a stream hands to its caller. *)
Inductive serr := EOF | ConnE (e : error) | StatusE (st : rstatus) | TextE (msg : text).

(** [Status.Err]; a nil status has code OK. *)
Definition Err (st : option rstatus) : option serr :=
  match st with Some st => if Code st =? 0 then None else Some (StatusE st) | None => None end.

Definition errStreamDrain : serr := StatusE (New Unavailable (bs "the connection is draining")).
Definition errStatusStreamDone : serr := StatusE (New Internal (bs "the stream is done")).
Definition statusGoAway : rstatus :=
  New Unavailable (bs "the stream is rejected because server is draining the connection").
Definition gracefulShutdownMsg : text := bs "graceful shutdown".

(** A context's error: one of the standard two, a status, or another one. *)
Inductive ctxErr := CtxDeadline | CtxCanceled | CtxStatus (st : status) | CtxOther (msg : text).

Definition contextStatusAndErr (e : ctxErr) : rstatus * bool * serr :=
  match e with
  | CtxDeadline => let st := New DeadlineExceeded (bs "context deadline exceeded") in (st, true, StatusE st)
  | CtxCanceled => let st := New Canceled (bs "context canceled") in (st, true, StatusE st)
  | CtxStatus st => (SStatus st, false, StatusE (SStatus st))
  | CtxOther msg => let st := New Internal (bs "Unexpected error from context packet: " ++ msg) in (st, false, StatusE st)
  end.

(** The mark of a cascading cancel on a status is left out. *)
Definition cascadeContextErr (e : ctxErr) : serr := snd (contextStatusAndErr e).

(** ** The receive buffer *)

Inductive recvMsg := MData (b : list byte) | MErr (e : serr).

Definition msg_err (m : recvMsg) : option serr := match m with MErr e => Some e | MData _ => None end.

(** [c]: the one-slot channel. *)
Record recvBuffer := mkRecv { c : option recvMsg; backlog : list recvMsg; r_err : option serr }.

Definition newRecvBuffer : recvBuffer := mkRecv None [] None.

Definition recv_put (r : recvMsg) (b : recvBuffer) : recvBuffer :=
  match r_err b with
  | Some _ => b
  | None =>
      match backlog b, c b with
      | [], None => mkRecv (Some r) [] (msg_err r)
      | l, x => mkRecv x (l ++ [r]) (msg_err r)
      end
  end.

Definition recv_load (b : recvBuffer) : recvBuffer :=
  match backlog b, c b with
  | r :: l, None => mkRecv (Some r) l (r_err b)
  | _, _ => b
  end.

(** The receive on the channel. *)
Definition recv_get (b : recvBuffer) : option (recvMsg * recvBuffer) :=
  m ← c b; Some (m, mkRecv None (backlog b) (r_err b)).

(** ** Streams *)

Inductive transportState := reachable | closing | draining.
Inductive streamState := streamActive | streamWriteDone | streamReadDone | streamDone.

#[export] Instance transportState_eq_dec : EqDecision transportState.
Proof. solve_decision. Defined.
#[export] Instance streamState_eq_dec : EqDecision streamState.
Proof. solve_decision. Defined.

(** What the peer's headers and the closing of the stream leave for the caller. *)
Record response := mkResp {
  recvCompress : text;
  header : MD;
  trailer : MD;
  r_status : option rstatus;
  reuseStatus : bool;
  bizErr : option (Z * text * gmap text text * status);
  headerValid : bool;
  noHeaders : bool
}.

Definition resp0 : response := mkResp [] ∅ ∅ None false None false false.

(** [fields]: the request's header fields.  [s_ctx]: the error of the stream's context,
    once it is done.  [returned]: NewStream has returned the stream.  [done] and
    [headerChan]: the channel is closed; [headerChanClosed] is the flag swapped before
    headerChan is closed.  [wquota] and [wtoken]: the quota of the write quota and the token
    in its one-slot channel; its done channel is the stream's. *)
Record Stream := mkStream {
  id : Z;
  fields : list (text * text);
  s_ctx : option ctxErr;
  returned : bool;
  done : bool;
  buf : recvBuffer;
  s_fc : InFlow.inFlow;
  headerChanClosed : bool;
  headerChan : bool;
  s_state : streamState;
  resp : response;
  bytesReceived : bool;
  unprocessed : bool;
  closeStreamErr : option serr;
  wquota : Z;
  wtoken : bool
}.

Definition set_id (v : Z) (x : Stream) : Stream :=
  mkStream v (fields x) (s_ctx x) (returned x) (done x) (buf x) (s_fc x) (headerChanClosed x) (headerChan x)
    (s_state x) (resp x) (bytesReceived x) (unprocessed x) (closeStreamErr x) (wquota x) (wtoken x).
Definition set_fields (v : list (text * text)) (x : Stream) : Stream :=
  mkStream (id x) v (s_ctx x) (returned x) (done x) (buf x) (s_fc x) (headerChanClosed x) (headerChan x)
    (s_state x) (resp x) (bytesReceived x) (unprocessed x) (closeStreamErr x) (wquota x) (wtoken x).
Definition set_s_ctx (v : option ctxErr) (x : Stream) : Stream :=
  mkStream (id x) (fields x) v (returned x) (done x) (buf x) (s_fc x) (headerChanClosed x) (headerChan x)
    (s_state x) (resp x) (bytesReceived x) (unprocessed x) (closeStreamErr x) (wquota x) (wtoken x).
Definition set_returned (v : bool) (x : Stream) : Stream :=
  mkStream (id x) (fields x) (s_ctx x) v (done x) (buf x) (s_fc x) (headerChanClosed x) (headerChan x)
    (s_state x) (resp x) (bytesReceived x) (unprocessed x) (closeStreamErr x) (wquota x) (wtoken x).
Definition set_done (v : bool) (x : Stream) : Stream :=
  mkStream (id x) (fields x) (s_ctx x) (returned x) v (buf x) (s_fc x) (headerChanClosed x) (headerChan x)
    (s_state x) (resp x) (bytesReceived x) (unprocessed x) (closeStreamErr x) (wquota x) (wtoken x).
Definition set_buf (v : recvBuffer) (x : Stream) : Stream :=
  mkStream (id x) (fields x) (s_ctx x) (returned x) (done x) v (s_fc x) (headerChanClosed x) (headerChan x)
    (s_state x) (resp x) (bytesReceived x) (unprocessed x) (closeStreamErr x) (wquota x) (wtoken x).
Definition set_s_fc (v : InFlow.inFlow) (x : Stream) : Stream :=
  mkStream (id x) (fields x) (s_ctx x) (returned x) (done x) (buf x) v (headerChanClosed x) (headerChan x)
    (s_state x) (resp x) (bytesReceived x) (unprocessed x) (closeStreamErr x) (wquota x) (wtoken x).
Definition set_headerChanClosed (v : bool) (x : Stream) : Stream :=
  mkStream (id x) (fields x) (s_ctx x) (returned x) (done x) (buf x) (s_fc x) v (headerChan x) (s_state x)
    (resp x) (bytesReceived x) (unprocessed x) (closeStreamErr x) (wquota x) (wtoken x).
Definition set_headerChan (v : bool) (x : Stream) : Stream :=
  mkStream (id x) (fields x) (s_ctx x) (returned x) (done x) (buf x) (s_fc x) (headerChanClosed x) v
    (s_state x) (resp x) (bytesReceived x) (unprocessed x) (closeStreamErr x) (wquota x) (wtoken x).
Definition set_s_state (v : streamState) (x : Stream) : Stream :=
  mkStream (id x) (fields x) (s_ctx x) (returned x) (done x) (buf x) (s_fc x) (headerChanClosed x)
    (headerChan x) v (resp x) (bytesReceived x) (unprocessed x) (closeStreamErr x) (wquota x) (wtoken x).
Definition set_resp (v : response) (x : Stream) : Stream :=
  mkStream (id x) (fields x) (s_ctx x) (returned x) (done x) (buf x) (s_fc x) (headerChanClosed x)
    (headerChan x) (s_state x) v (bytesReceived x) (unprocessed x) (closeStreamErr x) (wquota x) (wtoken x).
Definition set_bytesReceived (v : bool) (x : Stream) : Stream :=
  mkStream (id x) (fields x) (s_ctx x) (returned x) (done x) (buf x) (s_fc x) (headerChanClosed x)
    (headerChan x) (s_state x) (resp x) v (unprocessed x) (closeStreamErr x) (wquota x) (wtoken x).
Definition set_unprocessed (v : bool) (x : Stream) : Stream :=
  mkStream (id x) (fields x) (s_ctx x) (returned x) (done x) (buf x) (s_fc x) (headerChanClosed x)
    (headerChan x) (s_state x) (resp x) (bytesReceived x) v (closeStreamErr x) (wquota x) (wtoken x).
Definition set_closeStreamErr (v : option serr) (x : Stream) : Stream :=
  mkStream (id x) (fields x) (s_ctx x) (returned x) (done x) (buf x) (s_fc x) (headerChanClosed x)
    (headerChan x) (s_state x) (resp x) (bytesReceived x) (unprocessed x) v (wquota x) (wtoken x).
Definition set_wquota (v : Z) (x : Stream) : Stream :=
  mkStream (id x) (fields x) (s_ctx x) (returned x) (done x) (buf x) (s_fc x) (headerChanClosed x)
    (headerChan x) (s_state x) (resp x) (bytesReceived x) (unprocessed x) (closeStreamErr x) v (wtoken x).
Definition set_wtoken (v : bool) (x : Stream) : Stream :=
  mkStream (id x) (fields x) (s_ctx x) (returned x) (done x) (buf x) (s_fc x) (headerChanClosed x)
    (headerChan x) (s_state x) (resp x) (bytesReceived x) (unprocessed x) (closeStreamErr x) (wquota x) v.

(** ** The transport *)

(** Calls out of the transport. *)
Inductive call := CallClose (e : error) | CallGoAway (reason : Z) | CallTickerDelete.

(** [activeStreams]: the map from ids to streams, [None] once it is nil.  [quotaChan]: how
    many times the channel streamsQuotaAvailable was replaced; the replaced ones are closed,
    [quotaToken] says that the current one holds a token.  [goAway_]: the channel is
    closed.  [ctxDone]: the transport's context is done. *)
Record http2Client := mkClient {
  streams : list Stream;
  t_state : transportState;
  activeStreams : option (gmap Z nat);
  nextID : Z;
  streamQuota : Z;
  maxConcurrentStreams : Z;
  waitingStreams : Z;
  quotaChan : nat;
  quotaToken : bool;
  goAway_ : bool;
  prevGoAwayID : Z;
  goAwayReason : Z;
  cb : ControlBuffer.controlBuffer;
  t_fc : TrInFlow.trInFlow;
  initialWindowSize : Z;
  maxSendHeaderListSize : option Z;
  ctxDone : bool;
  connClosed : bool;
  calls : list call
}.

Definition set_streams (v : list Stream) (x : http2Client) : http2Client :=
  mkClient v (t_state x) (activeStreams x) (nextID x) (streamQuota x) (maxConcurrentStreams x)
    (waitingStreams x) (quotaChan x) (quotaToken x) (goAway_ x) (prevGoAwayID x) (goAwayReason x) (cb x)
    (t_fc x) (initialWindowSize x) (maxSendHeaderListSize x) (ctxDone x) (connClosed x) (calls x).
Definition set_t_state (v : transportState) (x : http2Client) : http2Client :=
  mkClient (streams x) v (activeStreams x) (nextID x) (streamQuota x) (maxConcurrentStreams x)
    (waitingStreams x) (quotaChan x) (quotaToken x) (goAway_ x) (prevGoAwayID x) (goAwayReason x) (cb x)
    (t_fc x) (initialWindowSize x) (maxSendHeaderListSize x) (ctxDone x) (connClosed x) (calls x).
Definition set_activeStreams (v : option (gmap Z nat)) (x : http2Client) : http2Client :=
  mkClient (streams x) (t_state x) v (nextID x) (streamQuota x) (maxConcurrentStreams x) (waitingStreams x)
    (quotaChan x) (quotaToken x) (goAway_ x) (prevGoAwayID x) (goAwayReason x) (cb x) (t_fc x)
    (initialWindowSize x) (maxSendHeaderListSize x) (ctxDone x) (connClosed x) (calls x).
Definition set_nextID (v : Z) (x : http2Client) : http2Client :=
  mkClient (streams x) (t_state x) (activeStreams x) v (streamQuota x) (maxConcurrentStreams x)
    (waitingStreams x) (quotaChan x) (quotaToken x) (goAway_ x) (prevGoAwayID x) (goAwayReason x) (cb x)
    (t_fc x) (initialWindowSize x) (maxSendHeaderListSize x) (ctxDone x) (connClosed x) (calls x).
Definition set_streamQuota (v : Z) (x : http2Client) : http2Client :=
  mkClient (streams x) (t_state x) (activeStreams x) (nextID x) v (maxConcurrentStreams x) (waitingStreams x)
    (quotaChan x) (quotaToken x) (goAway_ x) (prevGoAwayID x) (goAwayReason x) (cb x) (t_fc x)
    (initialWindowSize x) (maxSendHeaderListSize x) (ctxDone x) (connClosed x) (calls x).
Definition set_maxConcurrentStreams (v : Z) (x : http2Client) : http2Client :=
  mkClient (streams x) (t_state x) (activeStreams x) (nextID x) (streamQuota x) v (waitingStreams x)
    (quotaChan x) (quotaToken x) (goAway_ x) (prevGoAwayID x) (goAwayReason x) (cb x) (t_fc x)
    (initialWindowSize x) (maxSendHeaderListSize x) (ctxDone x) (connClosed x) (calls x).
Definition set_waitingStreams (v : Z) (x : http2Client) : http2Client :=
  mkClient (streams x) (t_state x) (activeStreams x) (nextID x) (streamQuota x) (maxConcurrentStreams x) v
    (quotaChan x) (quotaToken x) (goAway_ x) (prevGoAwayID x) (goAwayReason x) (cb x) (t_fc x)
    (initialWindowSize x) (maxSendHeaderListSize x) (ctxDone x) (connClosed x) (calls x).
Definition set_quotaChan (v : nat) (x : http2Client) : http2Client :=
  mkClient (streams x) (t_state x) (activeStreams x) (nextID x) (streamQuota x) (maxConcurrentStreams x)
    (waitingStreams x) v (quotaToken x) (goAway_ x) (prevGoAwayID x) (goAwayReason x) (cb x) (t_fc x)
    (initialWindowSize x) (maxSendHeaderListSize x) (ctxDone x) (connClosed x) (calls x).
Definition set_quotaToken (v : bool) (x : http2Client) : http2Client :=
  mkClient (streams x) (t_state x) (activeStreams x) (nextID x) (streamQuota x) (maxConcurrentStreams x)
    (waitingStreams x) (quotaChan x) v (goAway_ x) (prevGoAwayID x) (goAwayReason x) (cb x) (t_fc x)
    (initialWindowSize x) (maxSendHeaderListSize x) (ctxDone x) (connClosed x) (calls x).
Definition set_goAway_ (v : bool) (x : http2Client) : http2Client :=
  mkClient (streams x) (t_state x) (activeStreams x) (nextID x) (streamQuota x) (maxConcurrentStreams x)
    (waitingStreams x) (quotaChan x) (quotaToken x) v (prevGoAwayID x) (goAwayReason x) (cb x) (t_fc x)
    (initialWindowSize x) (maxSendHeaderListSize x) (ctxDone x) (connClosed x) (calls x).
Definition set_prevGoAwayID (v : Z) (x : http2Client) : http2Client :=
  mkClient (streams x) (t_state x) (activeStreams x) (nextID x) (streamQuota x) (maxConcurrentStreams x)
    (waitingStreams x) (quotaChan x) (quotaToken x) (goAway_ x) v (goAwayReason x) (cb x) (t_fc x)
    (initialWindowSize x) (maxSendHeaderListSize x) (ctxDone x) (connClosed x) (calls x).
Definition set_goAwayReason (v : Z) (x : http2Client) : http2Client :=
  mkClient (streams x) (t_state x) (activeStreams x) (nextID x) (streamQuota x) (maxConcurrentStreams x)
    (waitingStreams x) (quotaChan x) (quotaToken x) (goAway_ x) (prevGoAwayID x) v (cb x) (t_fc x)
    (initialWindowSize x) (maxSendHeaderListSize x) (ctxDone x) (connClosed x) (calls x).
Definition set_cb (v : ControlBuffer.controlBuffer) (x : http2Client) : http2Client :=
  mkClient (streams x) (t_state x) (activeStreams x) (nextID x) (streamQuota x) (maxConcurrentStreams x)
    (waitingStreams x) (quotaChan x) (quotaToken x) (goAway_ x) (prevGoAwayID x) (goAwayReason x) v (t_fc x)
    (initialWindowSize x) (maxSendHeaderListSize x) (ctxDone x) (connClosed x) (calls x).
Definition set_t_fc (v : TrInFlow.trInFlow) (x : http2Client) : http2Client :=
  mkClient (streams x) (t_state x) (activeStreams x) (nextID x) (streamQuota x) (maxConcurrentStreams x)
    (waitingStreams x) (quotaChan x) (quotaToken x) (goAway_ x) (prevGoAwayID x) (goAwayReason x) (cb x) v
    (initialWindowSize x) (maxSendHeaderListSize x) (ctxDone x) (connClosed x) (calls x).
Definition set_initialWindowSize (v : Z) (x : http2Client) : http2Client :=
  mkClient (streams x) (t_state x) (activeStreams x) (nextID x) (streamQuota x) (maxConcurrentStreams x)
    (waitingStreams x) (quotaChan x) (quotaToken x) (goAway_ x) (prevGoAwayID x) (goAwayReason x) (cb x)
    (t_fc x) v (maxSendHeaderListSize x) (ctxDone x) (connClosed x) (calls x).
Definition set_maxSendHeaderListSize (v : option Z) (x : http2Client) : http2Client :=
  mkClient (streams x) (t_state x) (activeStreams x) (nextID x) (streamQuota x) (maxConcurrentStreams x)
    (waitingStreams x) (quotaChan x) (quotaToken x) (goAway_ x) (prevGoAwayID x) (goAwayReason x) (cb x)
    (t_fc x) (initialWindowSize x) v (ctxDone x) (connClosed x) (calls x).
Definition set_ctxDone (v : bool) (x : http2Client) : http2Client :=
  mkClient (streams x) (t_state x) (activeStreams x) (nextID x) (streamQuota x) (maxConcurrentStreams x)
    (waitingStreams x) (quotaChan x) (quotaToken x) (goAway_ x) (prevGoAwayID x) (goAwayReason x) (cb x)
    (t_fc x) (initialWindowSize x) (maxSendHeaderListSize x) v (connClosed x) (calls x).
Definition set_connClosed (v : bool) (x : http2Client) : http2Client :=
  mkClient (streams x) (t_state x) (activeStreams x) (nextID x) (streamQuota x) (maxConcurrentStreams x)
    (waitingStreams x) (quotaChan x) (quotaToken x) (goAway_ x) (prevGoAwayID x) (goAwayReason x) (cb x)
    (t_fc x) (initialWindowSize x) (maxSendHeaderListSize x) (ctxDone x) v (calls x).
Definition set_calls (v : list call) (x : http2Client) : http2Client :=
  mkClient (streams x) (t_state x) (activeStreams x) (nextID x) (streamQuota x) (maxConcurrentStreams x)
    (waitingStreams x) (quotaChan x) (quotaToken x) (goAway_ x) (prevGoAwayID x) (goAwayReason x) (cb x)
    (t_fc x) (initialWindowSize x) (maxSendHeaderListSize x) (ctxDone x) (connClosed x) v.

Definition upd (s : nat) (f : Stream -> Stream) (t : http2Client) : http2Client :=
  set_streams (alter f s (streams t)) t.

Definition lookup_active (k : Z) (t : http2Client) : option nat := m ← activeStreams t; m !! k.

(** The streams a range over activeStreams visits. *)
Definition actives (t : http2Client) : list (Z * nat) :=
  match activeStreams t with Some m => map_to_list m | None => [] end.

Definition write_msg (m : recvMsg) (x : Stream) : Stream := set_buf (recv_put m (buf x)) x.

(** * Control flow *)

(** The arguments of a doCloseStream. *)
Record closeArgs := mkClose {
  c_s : nat;
  c_err : option serr;
  c_rst : bool;
  c_code : Z;
  c_st : option rstatus;
  c_reuse : bool;
  c_md : MD
}.

Inductive result := RNone | RStream (s : nat) | RErr (e : serr) | RMsg (m : recvMsg).

(** Where a goroutine is; [k] is what it does next. *)
Inductive pc :=
| Idle
| Finished (r : result)
(** close of a closed channel; another panic *)
| DoubleClose
| Panicked
| Put (it : cbItem) (k : pc)
(** NewStream *)
| NTry (s : nat) (firstTry : bool) (ch : option nat)
| NWait (s : nat) (ch : option nat)
(** the cleanup closure of NewStream *)
| USwap (s : nat) (e : serr) (k : pc)
| UWrite (s : nat) (e : serr) (k : pc)
| UDone (s : nat) (k : pc)
| UHeader (s : nat) (k : pc)
(** closeStream *)
| CSwap (a : closeArgs) (k : pc)
| CLost (s : nat) (k : pc)
| CWrite (a : closeArgs) (k : pc)
| CHeader (a : closeArgs) (k : pc)
| CPut (a : closeArgs) (k : pc)
| CDone (a : closeArgs) (k : pc)
(** Close *)
| KClose (e : error) (k : pc)
| KOnClose (e : error) (ss : list nat) (k : pc)
| KFinish (e : error) (ss : list nat) (k : pc)
| KCancel (e : error) (ss : list nat) (k : pc)
(** GracefulClose *)
| GClose
(** Write *)
| WState (s : nat) (h d : option (list byte)) (last : bool)
(** the load, the add and the select of the write quota *)
| WQuota (s : nat) (h d : option (list byte)) (last : bool)
| WAdd (s : nat) (h d : option (list byte)) (last : bool)
| WWait (s : nat) (h d : option (list byte)) (last : bool)
| WErr (s : nat)
| WPut (it : cbItem)
(** adjustWindow, updateWindow *)
| AdjustWindow (s : nat) (n : Z)
| UpdateWindow (s : nat) (n : Z)
(** the reads of a stream *)
| Reading (s : nat)
| Receive (s : nat)
| Load (s : nat) (m : recvMsg)
(** the reader *)
| RFirst
| Settings (p : list byte) (isFirst : bool)
| DConn (fh : FrameHeader) (d : list byte) (sendBDPPing : bool)
| DReset (fh : FrameHeader) (d : list byte)
| DStream (fh : FrameHeader) (d : list byte)
| DFlow (s : nat) (fh : FrameHeader) (d : list byte)
| DPad (s : nat) (fh : FrameHeader) (d : list byte)
| DBuf (s : nat) (fh : FrameHeader) (d : list byte)
| DEnd (s : nat) (fh : FrameHeader)
| RSTStream (fh : FrameHeader) (code : Z) (late : bool)
| RSTMark (s : nat) (code : Z) (late : bool)
| GoAwayLock (id code : Z) (debug : list byte)
| OnGoAway (reason : Z) (k : pc)
| Headers (fh : FrameHeader) (trunc : bool) (fs : list (text * text))
| HLoad (s : nat) (endStream trunc : bool) (fs : list (text * text))
| HValid (s : nat) (endStream : bool) (d : parsedHeaderData)
| HEnd (s : nat) (d : parsedHeaderData)
| StreamErr (sid code : Z) (detail : text)
| NewLimit (n : Z)
| UpdateIWS (n w : Z)
(** the task of the ticker *)
| TTick
| TDelete (st : transportState) (num : nat) (ss : list nat)
(** the writer *)
| WInit (s : nat)
| WDelete (s : nat)
| WReplenish (s : nat) (n : Z)
| WSignal (s : nat).

(** The environment's part in a step. *)
Inductive choice :=
| Go                 (* nothing *)
| TakeChan           (* a select takes the channel of the quota, or of the receive buffer *)
| TakeCtx            (* the stream's context *)
| TakeGoAway         (* the goAway channel *)
| TakeDone           (* the transport's context, or the stream's done *)
| WriterFails.

Definition put_if (w : Z) (streamID : Z) (k : pc) : pc :=
  if 0 <? w then Put (OutgoingWindowUpdate streamID w) k else k.

Fixpoint close_all (cs : list closeArgs) (k : pc) : pc :=
  match cs with [] => k | a :: cs => CSwap a (close_all cs k) end.

Fixpoint cleanup_all (ss : list nat) (e : serr) (k : pc) : pc :=
  match ss with [] => k | s :: ss => USwap s e (cleanup_all ss e k) end.

(** executeAndPut of the control buffer with a closure over the transport. *)
Definition execute_put (f : http2Client -> bool * http2Client) (it : http2Client -> cbItem) (t : http2Client)
    : (bool * option error) * http2Client :=
  match ControlBuffer.err (cb t) with
  | Some e => ((false, Some e), t)
  | None =>
      let '(ok, t) := f t in
      let '(r, _, b) := ControlBuffer.executeAndPut (Some (fun _ => ok)) (it t) (cb t) in
      (r, set_cb b t)
  end.

Definition put_item (it : cbItem) (t : http2Client) : option error * http2Client :=
  let '(e, _, b) := ControlBuffer.put it (cb t) in (e, set_cb b t).

(** A non-blocking send on streamsQuotaAvailable, if somebody may be waiting for it. *)
Definition offer_quota (t : http2Client) : http2Client :=
  if (0 <? streamQuota t) && (0 <? waitingStreams t) then set_quotaToken true t else t.

Section steps.
Context `{!HeaderLib}.

(** ** NewStream *)

Definition defaultWriteQuota : Z := 64 * 1024.

Definition newStream (fs : list (text * text)) : Stream :=
  mkStream 0 fs None false false newRecvBuffer (InFlow.mkIn 0 0 0 0) false false streamActive resp0 false false None
    defaultWriteQuota false.

Definition headerField_Size (f : text * text) : Z := lenZ (fst f) + lenZ (snd f) + 32.

Fixpoint header_list_fits (sz max : Z) (hf : list (text * text)) : bool :=
  match hf with
  | [] => true
  | f :: hf => let sz := sz + headerField_Size f in if max <? sz then false else header_list_fits sz max hf
  end.

Definition checkForHeaderListSize (hf : list (text * text)) (t : http2Client) : bool :=
  match maxSendHeaderListSize t with None => true | Some m => header_list_fits 0 m hf end.

Definition checkForStreamQuota (s : nat) (firstTry : bool) (t : http2Client) : bool * http2Client :=
  if streamQuota t <=? 0 then
    (false, if firstTry then set_waitingStreams (u32 (waitingStreams t + 1)) t else t)
  else
    let t := if firstTry then t else set_waitingStreams (u32 (waitingStreams t - 1)) t in
    let t := set_streamQuota (streamQuota t - 1) t in
    let sid := nextID t in
    let t := set_nextID (u32 (nextID t + 2)) t in
    let t := upd s (fun x => set_s_fc (InFlow.mkIn (initialWindowSize t) 0 0 0) (set_id sid x)) t in
    match t_state t, activeStreams t with
    | draining, _ | _, None => (false, t)
    | _, Some m => (true, offer_quota (set_activeStreams (Some (<[sid := s]> m)) t))
    end.

Definition to_string (f : text * text) : string * string :=
  (String.string_of_list_byte (fst f), String.string_of_list_byte (snd f)).

(** The headerFrame of the stream; its closures initStream and onOrphaned are those of [s]. *)
Definition header_item (s : nat) (hf : list (text * text)) (t : http2Client) : cbItem :=
  let sid := match streams t !! s with Some x => id x | None => 0 end in
  HeaderFrame (mkHeader sid (to_string <$> hf) false None None (Z.of_nat s) None (Some (Z.of_nat s))).

Definition header_size_err (m : Z) : serr :=
  StatusE (New Internal (bs "header list size to send violates the maximum size (" ++ FormatInt m ++ bs " bytes) set by server")).

(** One turn of the loop, up to the select. *)
Definition NewStream_try (s : nat) (firstTry : bool) (ch : option nat) (t : http2Client) : option (http2Client * pc) :=
  x ← streams t !! s;
  let fits := checkForHeaderListSize (fields x) t in
  let blocked := fits && (streamQuota t <=? 0) in
  let '(r, t') := execute_put
      (fun t => if fits then checkForStreamQuota s firstTry t else (false, t)) (header_item s (fields x)) t in
  match r with
  | (_, Some e) => Some (t', Finished (RErr (ConnE e)))
  | (true, None) => Some (upd s (set_returned true) t', Finished (RStream s))
  | (false, None) =>
      if fits then Some (t', NWait s (if blocked then Some (quotaChan t) else ch))
      else Some (t', Finished (RErr (header_size_err (default 0 (maxSendHeaderListSize t)))))
  end.

(** The select. *)
Definition NewStream_wait (s : nat) (ch : option nat) (c : choice) (t : http2Client) : option (http2Client * pc) :=
  match c with
  | TakeChan =>
      g ← ch;
      if (g <? quotaChan t)%nat then Some (t, NTry s false ch)
      else if quotaToken t then Some (set_quotaToken false t, NTry s false ch)
      else None
  | TakeCtx => x ← streams t !! s; e ← s_ctx x; Some (t, Finished (RErr (cascadeContextErr e)))
  | TakeGoAway => if goAway_ t then Some (t, Finished (RErr errStreamDrain)) else None
  | TakeDone => if ctxDone t then Some (t, Finished (RErr (ConnE ErrConnClosing))) else None
  | _ => None
  end.

(** The closure initStream. *)
Definition initStream_ (s : nat) (t : http2Client) : http2Client * pc :=
  match t_state t with
  | reachable => (t, Idle)
  | draining => (t, USwap s errStreamDrain Idle)
  | closing => (t, USwap s (ConnE ErrConnClosing) (Finished RNone))
  end.

(** [if CompareAndSwap(&s.headerChanClosed, 0, 1) { f; close(s.headerChan) }], in one step:
    who loses the swap goes on. *)
Definition close_headerChan (s : nat) (f : Stream -> Stream) (k : pc) (t : http2Client) : option (http2Client * pc) :=
  x ← streams t !! s;
  Some (if headerChanClosed x then (t, k)
        else if headerChan x then (t, DoubleClose)
        else (upd s (fun x => set_headerChan true (f (set_headerChanClosed true x))) t, k)).

(** The closure cleanup. *)
Definition cleanup_step (x : pc) (t : http2Client) : option (http2Client * pc) :=
  match x with
  | USwap s e k =>
      st ← streams t !! s;
      Some (upd s (set_s_state streamDone) t, if decide (s_state st = streamDone) then k else UWrite s e k)
  | UWrite s e k => Some (upd s (fun x => write_msg (MErr e) (set_unprocessed true x)) t, UDone s k)
  | UDone s k =>
      st ← streams t !! s;
      Some (if done st then (t, DoubleClose) else (upd s (set_done true) t, UHeader s k))
  | UHeader s k => close_headerChan s (fun x => x) k t
  | _ => None
  end.

(** ** closeStream *)

(** The cleanupStream item; its closure onWrite is that of [s]. *)
Definition cleanup_item (a : closeArgs) (t : http2Client) : cbItem :=
  let sid := match streams t !! c_s a with Some x => id x | None => 0 end in
  CleanupStream (mkCleanup sid (c_rst a) (c_code a) (Z.of_nat (c_s a)) None).

Definition addBackStreamQuota (t : http2Client) : bool * http2Client :=
  (true, offer_quota (set_streamQuota (streamQuota t + 1) t)).

Definition store_err (a : closeArgs) : option serr :=
  match c_err a with None | Some EOF => Err (c_st a) | e => e end.

(** The writes of doCloseStream that only the winner of the swap does. *)
Definition close_write (a : closeArgs) (x : Stream) : Stream :=
  let r := resp x in
  let r := mkResp (recvCompress r) (header r) (if decide (c_md a = ∅) then trailer r else c_md a)
                  (c_st a) (c_reuse a) (bizErr r) (headerValid r) (noHeaders r) in
  let x := set_resp r x in
  let x := match c_err a with Some e => write_msg (MErr e) x | None => x end in
  match store_err a with Some e => set_closeStreamErr (Some e) x | None => x end.

Definition no_headers (x : Stream) : Stream :=
  let r := resp x in
  set_resp (mkResp (recvCompress r) (header r) (trailer r) (r_status r) (reuseStatus r) (bizErr r) (headerValid r) true) x.

Definition closeStream_step (x : pc) (t : http2Client) : option (http2Client * pc) :=
  match x with
  | CSwap a k =>
      st ← streams t !! c_s a;
      Some (upd (c_s a) (set_s_state streamDone) t,
            if decide (s_state st = streamDone) then CLost (c_s a) k else CWrite a k)
  | CLost s k => st ← streams t !! s; if done st then Some (t, k) else None
  | CWrite a k => Some (upd (c_s a) (close_write a) t, CHeader a k)
  | CHeader a k => close_headerChan (c_s a) no_headers (CPut a k) t
  | CPut a k => Some (snd (execute_put addBackStreamQuota (cleanup_item a) t), CDone a k)
  | CDone a k =>
      st ← streams t !! c_s a;
      Some (if done st then (t, DoubleClose) else (upd (c_s a) (set_done true) t, k))
  | _ => None
  end.

#[local] Instance status_eq_dec : EqDecision status.
Proof. solve_decision. Defined.

(** The code of the RST_STREAM for an error that carries a status. *)
Definition cancel_code (st : rstatus) : Z :=
  match st with
  | SStatus st => if decide (st = mkStatus Unavailable gracefulShutdownMsg []) then gracefulShutdownCode else ErrCodeCancel
  | _ => ErrCodeCancel
  end.

(** CloseStream: the error is nil, a status or another one. *)
Definition CloseStream (s : nat) (e : option (status + text)) : closeArgs :=
  match e with
  | None => mkClose s None false ErrCodeNo None false ∅
  | Some (inl st) =>
      mkClose s (Some (StatusE (SStatus st))) true (cancel_code (SStatus st)) (Some (SStatus st)) false ∅
  | Some (inr msg) => mkClose s (Some (TextE msg)) true ErrCodeCancel (Some (New Unknown msg)) false ∅
  end.

(** ** Close and GracefulClose *)

Definition Close_args (e : error) (s : nat) : closeArgs :=
  mkClose s (Some (ConnE e)) false ErrCodeNo (Some (New Unavailable (bs "transport is closing"))) false ∅.

Definition Close_step (x : pc) (t : http2Client) : option (http2Client * pc) :=
  match x with
  | KClose e k =>
      if decide (t_state t = closing) then Some (t, k)
      else Some (set_activeStreams None (set_t_state closing t), KOnClose e (snd <$> actives t) k)
  | KOnClose e ss k => Some (set_calls (calls t ++ [CallClose e; CallTickerDelete]) t, KFinish e ss k)
  | KFinish e ss k =>
      let '(_, orphans, b) := ControlBuffer.finish e (cb t) in
      Some (set_cb b t, cleanup_all (Z.to_nat <$> orphans) (ConnE e) (KCancel e ss k))
  | KCancel e ss k => Some (set_connClosed true (set_ctxDone true t), close_all (Close_args e <$> ss) k)
  | _ => None
  end.

Definition GracefulClose (t : http2Client) : http2Client * pc :=
  match t_state t with
  | draining | closing => (t, Finished RNone)
  | reachable =>
      (set_t_state draining t,
       match actives t with
       | [] => KClose (ConnectionError "no active streams left to process while draining" true true) (Finished RNone)
       | _ => Put IncomingGoAway (Finished RNone)
       end)
  end.

(** ** Write and the windows *)

Definition is_some {A} (o : option A) : bool := match o with Some _ => true | None => false end.

Definition data_item (x : Stream) (h d : option (list byte)) (last : bool) : cbItem :=
  ControlBuf.DataFrame (ControlBuf.mkData (id x) last (default [] h) (default [] d) None).

Definition Write_step (y : pc) (c : choice) (t : http2Client) : option (http2Client * pc) :=
  match y with
  | WState s h d last =>
      x ← streams t !! s;
      if decide (s_state x = streamActive) then
        Some (if last then upd s (set_s_state streamWriteDone) t else t,
              if is_some h || is_some d then WQuota s h d last else WPut (data_item x h d last))
      else Some (t, WErr s)
  (* s.wq.get *)
  | WQuota s h d last => x ← streams t !! s; Some (t, if 0 <? wquota x then WAdd s h d last else WWait s h d last)
  | WAdd s h d last =>
      x ← streams t !! s;
      Some (upd s (set_wquota (i32 (wquota x - i32 (lenZ (default [] h) + lenZ (default [] d))))) t, WPut (data_item x h d last))
  | WWait s h d last =>
      x ← streams t !! s;
      match c with
      | TakeChan => if wtoken x then Some (upd s (set_wtoken false) t, WQuota s h d last) else None
      | TakeDone => if done x then Some (t, WErr s) else None
      | _ => None
      end
  | WErr s => x ← streams t !! s; Some (t, Finished (RErr (default errStatusStreamDone (closeStreamErr x))))
  | WPut it =>
      let '(e, t) := put_item it t in
      Some (t, Finished (match e with Some e => RErr (ConnE e) | None => RNone end))
  | _ => None
  end.

Definition adjustWindow (s : nat) (n : Z) (t : http2Client) : option (http2Client * pc) :=
  x ← streams t !! s;
  let '(f, w) := InFlow.maybeAdjust n (s_fc x) in
  Some (upd s (set_s_fc f) t, put_if w (id x) (Finished RNone)).

Definition updateWindow (s : nat) (n : Z) (t : http2Client) : option (http2Client * pc) :=
  x ← streams t !! s;
  let '(f, w) := InFlow.onRead n (s_fc x) in
  Some (upd s (set_s_fc f) t, put_if w (id x) (Finished RNone)).

(** readClient, up to the message it hands to readAdditional. *)
Definition readClient (y : pc) (c : choice) (t : http2Client) : option (http2Client * pc) :=
  match y with
  | Reading s =>
      x ← streams t !! s;
      match c with
      | TakeCtx =>
          e ← s_ctx x;
          let '(st, _, err) := contextStatusAndErr e in
          Some (t, CSwap (mkClose s (Some err) true (cancel_code st) (Some st) false ∅) (Receive s))
      | _ => '(m, b) ← recv_get (buf x); Some (upd s (set_buf b) t, Load s m)
      end
  | Receive s => x ← streams t !! s; '(m, b) ← recv_get (buf x); Some (upd s (set_buf b) t, Load s m)
  | Load s m => Some (upd s (fun x => set_buf (recv_load (buf x)) x) t, Finished (RMsg m))
  | _ => None
  end.

(** ** The reader's handlers *)

Definition bdpPing : cbItem := Ping false (Zbyte <$> [2; 4; 16; 16; 9; 14; 7; 7]).

Definition handleData (y : pc) (t : http2Client) : option (http2Client * pc) :=
  match y with
  | DConn fh d sendBDPPing =>
      let '(f, w) := TrInFlow.onData (Length fh) (t_fc t) in
      Some (set_t_fc f t, put_if w 0 (if sendBDPPing then DReset fh d else DStream fh d))
  | DReset fh d =>
      let '(f, w) := TrInFlow.reset (t_fc t) in
      Some (set_t_fc f t, put_if w 0 (Put bdpPing (DStream fh d)))
  | DStream fh d =>
      Some (t, match lookup_active (StreamID fh) t with
               | None => Idle
               | Some s => if 0 <? Length fh then DFlow s fh d else DEnd s fh
               end)
  | DFlow s fh d =>
      x ← streams t !! s;
      let '(f, ok) := InFlow.onData (Length fh) (s_fc x) in
      let t := upd s (set_s_fc f) t in
      if (ok : bool) then Some (t, if Has (Flags fh) FlagPadded then DPad s fh d else DBuf s fh d)
      else
        let rcvd := u32 (InFlow.pendingData f + InFlow.pendingUpdate f) in
        let msg := bs "received " ++ FormatInt rcvd ++ bs "-bytes data exceeding the limit "
                   ++ FormatInt (InFlow.limit f) ++ bs " bytes" in
        Some (t, CSwap (mkClose s (Some EOF) true ErrCodeFlowControl (Some (New Internal msg)) false ∅) Idle)
  | DPad s fh d =>
      x ← streams t !! s;
      let '(f, w) := InFlow.onRead (u32 (Length fh - lenZ d)) (s_fc x) in
      Some (upd s (set_s_fc f) t, put_if w (id x) (DBuf s fh d))
  | DBuf s fh d =>
      Some (match d with [] => t | _ => upd s (write_msg (MData d)) t end, DEnd s fh)
  | DEnd s fh =>
      Some (t, if Has (Flags fh) FlagEndStream
               then CSwap (mkClose s (Some EOF) false ErrCodeNo
                             (Some (New Internal (bs "server closed the stream without sending trailers"))) false ∅) Idle
               else Idle)
  | _ => None
  end.

(** [late]: the stream's deadline has passed. *)
Definition handleRSTStream (y : pc) (t : http2Client) : option (http2Client * pc) :=
  match y with
  | RSTStream fh code late =>
      Some (t, match lookup_active (StreamID fh) t with None => Idle | Some s => RSTMark s code late end)
  | RSTMark s code late =>
      let t := if code =? ErrCodeRefusedStream then upd s (set_unprocessed true) t else t in
      let statusCode := default Unknown (http2ErrConvTab code) in
      let statusCode := if (statusCode =? Canceled) && late then DeadlineExceeded else statusCode in
      let st := if code =? gracefulShutdownCode then New statusCode gracefulShutdownMsg else SReset statusCode code in
      Some (t, CSwap (mkClose s (Some EOF) false ErrCodeNo (Some st) false ∅) Idle)
  | _ => None
  end.

Definition SettingMaxConcurrentStreams : Z := 3.
Definition SettingMaxHeaderListSize : Z := 6.

Definition last_setting (k : Z) (ss : list (Z * Z)) : option Z := last (snd <$> filter (fun p => fst p = k) ss).

Definition updateStreamQuota (maxStreams : Z) (t : http2Client) : http2Client :=
  let delta := maxStreams - maxConcurrentStreams t in
  let t := set_streamQuota (streamQuota t + delta) (set_maxConcurrentStreams maxStreams t) in
  if (0 <? delta) && (0 <? waitingStreams t) then set_quotaToken false (set_quotaChan (S (quotaChan t)) t) else t.

Definition handleSettings (p : list byte) (isFirst : bool) (t : http2Client) : http2Client :=
  let all := settings_of p in
  let maxStreams := last_setting SettingMaxConcurrentStreams all in
  let maxStreams := match maxStreams with None => if isFirst then Some (2 ^ 32 - 1) else None | m => m end in
  let ss := filter (fun q => fst q <> SettingMaxConcurrentStreams /\ fst q <> SettingMaxHeaderListSize) all in
  let updates t :=
    let t := match last_setting SettingMaxHeaderListSize all with
             | Some m => set_maxSendHeaderListSize (Some m) t | None => t end in
    match maxStreams with Some m => updateStreamQuota m t | None => t end in
  snd (execute_put (fun t => (true, updates t)) (fun _ => IncomingSettings ss) t).

(** [calc]: the new window the estimator computes from the ping, if any. *)
Definition handlePing (fh : FrameHeader) (data : list byte) (calc : option Z) : pc :=
  if Has (Flags fh) FlagAck then match calc with Some n => NewLimit n | None => Idle end
  else Put (Ping true data) Idle.

Definition updateFlowControl (y : pc) (t : http2Client) : option (http2Client * pc) :=
  match y with
  | NewLimit n => let '(f, w) := TrInFlow.newLimit n (t_fc t) in Some (set_t_fc f t, UpdateIWS n w)
  | UpdateIWS n w =>
      let updateIWS t :=
        (true, set_initialWindowSize n
                 (foldr (fun s => upd s (fun x => set_s_fc (InFlow.newLimit n (s_fc x)) x)) t (snd <$> actives t))) in
      Some (snd (execute_put updateIWS (fun _ => OutgoingWindowUpdate 0 w) t),
            Put (OutgoingSettings [(SettingInitialWindowSize, n)]) Idle)
  | _ => None
  end.

Definition GoAwayNoReason : Z := 1.
Definition GoAwayTooManyPings : Z := 2.

Definition setGoAwayReason (code : Z) (debug : list byte) : Z :=
  if (code =? ErrCodeEnhanceYourCalm) && text_eqb debug (bs "too_many_pings") then GoAwayTooManyPings else GoAwayNoReason.

Definition goAway_args (s : nat) : closeArgs :=
  mkClose s (Some errStreamDrain) false ErrCodeNo (Some statusGoAway) false ∅.

(** The streams the server will not process. *)
Definition rejected (id upperLimit : Z) (t : http2Client) : list nat :=
  snd <$> filter (fun p => id < fst p <= upperLimit) (actives t).

(** [close(t.goAway)]; [None] is the panic on a closed channel. *)
Definition close_goAway (t : http2Client) : option http2Client :=
  if goAway_ t then None else Some (set_goAway_ true t).

Definition handleGoAway (id code : Z) (debug : list byte) (t : http2Client) : http2Client * pc :=
  if decide (t_state t = closing) then (t, Idle)
  else if (0 <? id) && negb (id mod 2 =? 1) then
    (t, KClose (ConnectionError "received goaway with non-zero even-numbered stream id" true false) Idle)
  else if goAway_ t && (prevGoAwayID t <? id) then
    (t, KClose (ConnectionError "received goaway whose stream id exceeds that of the previous goaway" true false) Idle)
  else
    let first := negb (goAway_ t) in
    match (if first then close_goAway t else Some t) with
    | None => (t, DoubleClose)
    | Some t' =>
        let invokeOnGoAway := first && negb (bool_decide (t_state t = draining)) in
        let reason := setGoAwayReason code debug in
        let upperLimit := if prevGoAwayID t =? 0 then 2 ^ 32 - 1 else prevGoAwayID t in
        let t := if first then set_goAwayReason reason (set_t_state draining t') else t' in
        let t := set_prevGoAwayID id t in
        let notify k := if invokeOnGoAway then OnGoAway reason k else k in
        let deferred := if first then Put IncomingGoAway Idle else Idle in
        match actives t with
        | [] => (t, notify (KClose (ConnectionError "received goaway and there are no active streams" true true) deferred))
        | _ =>
            let ss := rejected id upperLimit t in
            (foldr (fun s => upd s (set_unprocessed true)) t ss, notify (close_all (goAway_args <$> ss) deferred))
        end
    end.

Definition valid_headers (endStream : bool) (d : parsedHeaderData) (x : Stream) : Stream :=
  let r := resp x in
  set_resp
    (if endStream then mkResp (recvCompress r) (header r) (trailer r) (r_status r) (reuseStatus r) (bizErr r) true true
     else mkResp (encoding d) (if decide (mdata d = ∅) then header r else mdata d) (trailer r) (r_status r)
                 (reuseStatus r) (bizErr r) true (noHeaders r)) x.

Definition set_biz (e : option (Z * text * gmap text text * status)) (x : Stream) : Stream :=
  let r := resp x in
  set_resp (mkResp (recvCompress r) (header r) (trailer r) (r_status r) (reuseStatus r) e (headerValid r) (noHeaders r)) x.

Definition operateHeaders (y : pc) (t : http2Client) : option (http2Client * pc) :=
  match y with
  | Headers fh trunc fs =>
      Some (t, match lookup_active (StreamID fh) t with
               | None => Idle
               | Some s => HLoad s (Has (Flags fh) FlagEndStream) trunc fs
               end)
  | HLoad s endStream trunc fs =>
      x ← streams t !! s;
      let t := upd s (set_bytesReceived true) t in
      let initialHeader := negb (headerChanClosed x) in
      if negb initialHeader && negb endStream then
        let st := New Internal (bs "a HEADERS frame cannot appear in the middle of a stream") in
        Some (t, CSwap (mkClose s (Err (Some st)) true ErrCodeProtocol (Some st) false ∅) Idle)
      else
        match decodeHeader false trunc fs (set_isGRPC (negb initialHeader) data0) with
        | (_, Some e) =>
            Some (t, CSwap (mkClose s (Some (StatusE (SHeader e))) true ErrCodeProtocol (Some (SHeader e)) false ∅) Idle)
        | (d, None) => Some (t, HValid s endStream d)
        end
  | HValid s endStream d => close_headerChan s (valid_headers endStream d) (if endStream then HEnd s d else Idle) t
  | HEnd s d =>
      x ← streams t !! s;
      let rst := bool_decide (s_state x = streamActive) in
      match bizStatusErr d with
      | None => Some (t, Panicked)
      | Some (biz, d) =>
          let t := upd s (set_biz biz) t in
          match status_ d with
          | None => Some (t, Panicked)
          | Some (st, d) =>
              Some (t, CSwap (mkClose s (Some EOF) rst ErrCodeNo (Some (SStatus st)) false (mdata d)) Idle)
          end
      end
  | _ => None
  end.

(** A malformed frame of one stream. *)
Definition stream_error (sid code : Z) (detail : text) (t : http2Client) : http2Client * pc :=
  (t, match lookup_active sid t with
      | None => Idle
      | Some s =>
          let st := New (default 0 (http2ErrConvTab code)) detail in
          CSwap (mkClose s (Err (Some st)) true ErrCodeProtocol (Some st) false ∅) Idle
      end).

(** What the reader gets from the framer. *)
Inductive input :=
| IFrame (f : Frame)
| IMeta (fh : FrameHeader) (trunc : bool) (fs : list (text * text))
| IStreamErr (sid code : Z) (detail : text)
| IReadErr (e : error).

Definition read_settings (fh : FrameHeader) (p : list byte) (isFirst : bool) : pc :=
  if Has (Flags fh) FlagAck then Idle else Settings p isFirst.

Definition read_error : error := ConnectionError "error reading from server" true false.

(** The first frame, and the dispatch of the loop. *)
Definition reader_first (i : input) : pc :=
  match i with
  | IFrame (SettingsFrame fh p) => read_settings fh p true
  | IFrame _ | IMeta _ _ _ => KClose (ConnectionError "first frame received is not a setting frame" true false) (Finished RNone)
  | IStreamErr _ _ _ => KClose read_error (Finished RNone)
  | IReadErr e => KClose e (Finished RNone)
  end.

Definition reader_loop (i : input) (bdp : bool) (calc : option Z) (late : bool) : pc :=
  match i with
  | IMeta fh trunc fs => Headers fh trunc fs
  | IFrame (Frames.DataFrame fh d) => DConn fh d bdp
  | IFrame (RSTStreamFrame fh code) => RSTStream fh code late
  | IFrame (SettingsFrame fh p) => read_settings fh p false
  | IFrame (PingFrame fh d) => handlePing fh d calc
  | IFrame (GoAwayFrame fh last code debug) => GoAwayLock last code debug
  | IFrame (WindowUpdateFrame fh incr) => Put (IncomingWindowUpdate (StreamID fh) incr) Idle
  | IFrame _ => Idle
  | IStreamErr sid code detail => StreamErr sid code detail
  | IReadErr e => KClose e (Finished RNone)
  end.

(** ** The task that closes cancelled streams *)

Definition cancelled (t : http2Client) : list nat :=
  filter (fun s => is_some (streams t !! s ≫= s_ctx) = true) (snd <$> actives t).

Definition Tick_args (t : http2Client) (s : nat) : closeArgs :=
  let e := default CtxCanceled (streams t !! s ≫= s_ctx) in
  let '(st, reused, err) := contextStatusAndErr e in
  mkClose s (Some err) true ErrCodeCancel (Some st) reused ∅.

Definition Tick (y : pc) (t : http2Client) : option (http2Client * pc) :=
  match y with
  | TTick => Some (t, TDelete (t_state t) (length (actives t)) (cancelled t))
  | TDelete st num ss =>
      let t := if bool_decide (st = draining) && (num =? 0)%nat then set_calls (calls t ++ [CallTickerDelete]) t else t in
      Some (t, close_all (Tick_args t <$> ss) (Finished RNone))
  | _ => None
  end.

(** ** The writer *)

Definition handle_item (it : cbItem) : pc :=
  match it with
  | HeaderFrame h => match onOrphaned h with Some s => WInit (Z.to_nat s) | None => Idle end
  | CleanupStream c => WDelete (Z.to_nat (cs_onWrite c))
  | _ => Idle
  end.

(** The writer between two items: it takes the next one, finds the buffer finished, notices
    that the transport's context is done, or fails. *)
Definition writer_next (c : choice) (t : http2Client) : option (http2Client * pc) :=
  match c with
  | WriterFails => Some (set_connClosed true t, Finished RNone)
  | TakeDone =>
      if ctxDone t then
        let '(_, orphans, b) := ControlBuffer.finish ErrConnClosing (cb t) in
        Some (set_cb b t, cleanup_all (Z.to_nat <$> orphans) (ConnE ErrConnClosing) (Finished RNone))
      else None
  | _ =>
      '(g, b) ← ControlBuffer.get_iter true (cb t);
      Some (set_cb b t, match g with
                        | ControlBuffer.GItem it => handle_item it
                        | ControlBuffer.GErr _ => Finished RNone
                        | _ => Idle
                        end)
  end.

(** The closure onWrite of a cleanupStream. *)
Definition cleanup_onWrite (s : nat) (t : http2Client) : option (http2Client * pc) :=
  x ← streams t !! s;
  Some (match activeStreams t with
        | Some m => set_activeStreams (Some (delete (id x) m)) t
        | None => t
        end, Idle).

(** The loopy writer gives back the quota of a DATA frame it has written (realReplenish): the
    atomic add, and the signal. *)
Definition replenish_step (y : pc) (t : http2Client) : option (http2Client * pc) :=
  match y with
  | WReplenish s n =>
      x ← streams t !! s;
      let '(w, signal) := WriteQuota.replenish_add n (WriteQuota.mkQuota (wquota x) (wtoken x) (done x)) in
      Some (upd s (set_wquota (WriteQuota.quota w)) t, if signal then WSignal s else Idle)
  | WSignal s => Some (upd s (set_wtoken true) t, Idle)
  | _ => None
  end.

(** ** One step of a goroutine *)

Definition exec (c : choice) (t : http2Client) (x : pc) : option (http2Client * pc) :=
  match x with
  | Idle | RFirst | Finished _ | DoubleClose | Panicked => None
  | Put it k => Some (snd (put_item it t), k)
  | NTry s firstTry ch => NewStream_try s firstTry ch t
  | NWait s ch => NewStream_wait s ch c t
  | USwap _ _ _ | UWrite _ _ _ | UDone _ _ | UHeader _ _ => cleanup_step x t
  | CSwap _ _ | CLost _ _ | CWrite _ _ | CHeader _ _ | CPut _ _ | CDone _ _ => closeStream_step x t
  | KClose _ _ | KOnClose _ _ _ | KFinish _ _ _ | KCancel _ _ _ => Close_step x t
  | GClose => Some (GracefulClose t)
  | WState _ _ _ _ | WQuota _ _ _ _ | WAdd _ _ _ _ | WWait _ _ _ _ | WErr _ | WPut _ => Write_step x c t
  | AdjustWindow s n => adjustWindow s n t
  | UpdateWindow s n => updateWindow s n t
  | Reading _ | Receive _ | Load _ _ => readClient x c t
  | Settings p isFirst => Some (handleSettings p isFirst t, Idle)
  | DConn _ _ _ | DReset _ _ | DStream _ _ | DFlow _ _ _ | DPad _ _ _ | DBuf _ _ _ | DEnd _ _ => handleData x t
  | RSTStream _ _ _ | RSTMark _ _ _ => handleRSTStream x t
  | GoAwayLock id code debug => Some (handleGoAway id code debug t)
  | OnGoAway reason k => Some (set_calls (calls t ++ [CallGoAway reason]) t, k)
  | Headers _ _ _ | HLoad _ _ _ _ | HValid _ _ _ | HEnd _ _ => operateHeaders x t
  | StreamErr sid code detail => Some (stream_error sid code detail t)
  | NewLimit _ | UpdateIWS _ _ => updateFlowControl x t
  | TTick | TDelete _ _ _ => Tick x t
  | WInit s => Some (initStream_ s t)
  | WDelete s => cleanup_onWrite s t
  | WReplenish _ _ | WSignal _ => replenish_step x t
  end.

(** * The system *)

(** Goroutine 0 is the reader, 1 the writer. *)
Record sys := mkSys { tr : http2Client; threads : list pc }.

Inductive op :=
| ONew (fs : list (text * text))
| OCloseStream (s : nat) (e : option (status + text))
| OWrite (s : nat) (h d : option (list byte)) (last : bool)
| ORead (s : nat)
| OAdjust (s : nat) (n : Z)
| OUpdate (s : nat) (n : Z)
| OClose (e : error)
| OGracefulClose
| OTick
| OPing.

(** Callers use the streams NewStream has returned. *)
Definition started (o : op) (t : http2Client) : option (http2Client * pc) :=
  let on s x := y ← streams t !! s; if returned y then Some (t, x) else None in
  match o with
  | ONew fs => Some (set_streams (streams t ++ [newStream fs]) t, NTry (length (streams t)) true None)
  | OCloseStream s e => on s (CSwap (CloseStream s e) (Finished RNone))
  | OWrite s h d last => on s (WState s h d last)
  | ORead s => on s (Reading s)
  | OAdjust s n => on s (AdjustWindow s n)
  | OUpdate s n => on s (UpdateWindow s n)
  | OClose e => Some (t, KClose e (Finished RNone))
  | OGracefulClose => Some (t, GClose)
  | OTick => Some (t, TTick)
  | OPing => Some (t, Put (Ping false (replicate 8 Byte.x00)) (Finished RNone))
  end.

Inductive label :=
| LStart (o : op)
| LRun (i : nat) (c : choice)
| LRecv (i : input) (bdp : bool) (calc : option Z) (late : bool)
| LWriter (c : choice)
| LSent (s : nat) (n : Z)   (* the writer has written a DATA frame with [n] bytes of the stream *)
| LCtx (s : nat) (e : ctxErr)
| LCancel.

Definition lstep (l : label) (y : sys) : option sys :=
  let t := tr y in
  match l with
  | LStart o => '(t', x) ← started o t; Some (mkSys t' (threads y ++ [x]))
  | LRun i c =>
      x ← threads y !! i;
      '(t', x') ← exec c t x;
      Some (mkSys t' (<[i := x']> (threads y)))
  | LRecv i bdp calc late =>
      x ← threads y !! 0%nat;
      match x with
      | RFirst => Some (mkSys t (<[0%nat := reader_first i]> (threads y)))
      | Idle => Some (mkSys t (<[0%nat := reader_loop i bdp calc late]> (threads y)))
      | _ => None
      end
  | LWriter c =>
      x ← threads y !! 1%nat;
      match x with
      | Idle => '(t', x') ← writer_next c t; Some (mkSys t' (<[1%nat := x']> (threads y)))
      | _ => None
      end
  | LSent s n =>
      x ← threads y !! 1%nat;
      st ← streams t !! s;
      match x with
      | Idle =>
          if returned st && (0 <=? n) && (n <=? MaxInt32) then Some (mkSys t (<[1%nat := WReplenish s n]> (threads y))) else None
      | _ => None
      end
  | LCtx s e =>
      x ← streams t !! s;
      match s_ctx x with
      | Some _ => None
      | None => Some (mkSys (upd s (set_s_ctx (Some e)) t) (threads y))
      end
  | LCancel => Some (mkSys (set_ctxDone true t) (threads y))
  end.

Fixpoint lrun (ls : list label) (y : sys) : option sys :=
  match ls with
  | [] => Some y
  | l :: ls => y ← lstep l y; lrun ls y
  end.

Definition defaultMaxStreamsClient : Z := 100.

(** newHTTP2Client: [icwz] and [iws] are the windows of the connection and of a stream. *)
Definition newHTTP2Client (icwz iws : Z) : http2Client :=
  mkClient [] reachable (Some ∅) 1 defaultMaxStreamsClient defaultMaxStreamsClient 0 0%nat false false 0 0
    ControlBuffer.newControlBuffer (TrInFlow.mkTr icwz 0 0) iws None false false [].

Definition init (icwz iws : Z) : sys := mkSys (newHTTP2Client icwz iws) [RFirst; Idle].
End steps.
