(* ===== verification/ClientSpec.v ===== *)
(** The client transport under every interleaving (ClientTransport.v): streams are closed
    exactly once and never twice, a closed transport leaves no stream open, the quota of
    concurrent streams is exact, and no NewStream waits for a quota that is available. *)

From S2P Require Import Prelude GoText FlowControl HttpUtil Headers Frames ControlBuf ClientTransport.

#[local] Set Default Goal Selector "!".
#[local] Abbreviation b2z := Z.b2z.
#[local] Arguments Z.b2z !_ / : simpl nomatch.

(** * What the invariant sees *)

Definition has (f : Stream -> bool) (s : nat) (t : http2Client) : bool :=
  match streams t !! s with Some x => f x | None => false end.

Definition finished (x : Stream) : bool := bool_decide (s_state x = streamDone).

(** The channel headerChan is closed when its flag says so. *)
Definition headed (x : Stream) : bool := Bool.eqb (headerChan x) (headerChanClosed x).

(** Of a stream: its id, whether a caller has it, whether it is done, whether the channel
    done is closed, and whether headerChan agrees with its flag. *)
Definition view (x : Stream) : Z * bool * bool * bool * bool := (id x, returned x, finished x, done x, headed x).

Definition is_done (t : http2Client) (s : nat) : bool := has finished s t.
Definition is_returned (t : http2Client) (s : nat) : bool := has returned s t.

(** Streams callers have that are not done. *)
Definition live (t : http2Client) : Z := sumZ ((fun x => b2z (returned x && negb (finished x))) <$> streams t).

Definition Open (t : http2Client) : Prop := t_state t = reachable /\ ControlBuffer.err (cb t) = None.

(** The frames of a goroutine: where it is and what it goes on with. *)
Fixpoint conts (x : pc) : list pc :=
  x :: match x with
       | Put _ k | USwap _ _ k | UWrite _ _ k | UDone _ k | UHeader _ k
       | CSwap _ k | CLost _ k | CWrite _ k | CHeader _ k | CPut _ k | CDone _ k
       | KClose _ k | KOnClose _ _ k | KFinish _ _ k | KCancel _ _ k | OnGoAway _ k => conts k
       | _ => []
       end.

Definition total (f : pc -> Z) (x : pc) : Z := sumZ (f <$> conts x).

(** Who has won the right to close stream [s] and has not closed its channel yet. *)
Definition h_own (s : nat) (x : pc) : Z :=
  match x with
  | UWrite u _ _ | UDone u _ => b2z (bool_decide (u = s))
  | CWrite a _ | CHeader a _ | CPut a _ | CDone a _ => b2z (bool_decide (c_s a = s))
  | _ => 0
  end.

(** Who still has to give back a stream's quota. *)
Definition h_pre (x : pc) : Z := match x with CWrite _ _ | CHeader _ _ | CPut _ _ => 1 | _ => 0 end.

(** The streams a goroutine will close, if nobody else does. *)
Definition h_pend (x : pc) : list nat :=
  match x with
  | CSwap a _ => [c_s a]
  | KOnClose _ ss _ | KFinish _ ss _ | KCancel _ ss _ => ss
  | _ => []
  end.

(** The streams it works on, all returned by NewStream. *)
Definition h_tgt (x : pc) : list nat :=
  match x with
  | CSwap a _ | CWrite a _ | CHeader a _ | CPut a _ | CDone a _ => [c_s a]
  | KOnClose _ ss _ | KFinish _ ss _ | KCancel _ ss _ | TDelete _ _ ss => ss
  | DFlow s _ _ | DPad s _ _ | DBuf s _ _ | DEnd s _ | RSTMark s _ _ | HLoad s _ _ _ | HValid s _ _ | HEnd s _
  | Reading s | Receive s | Load s _ | AdjustWindow s _ | UpdateWindow s _ | WState s _ _ _ | WQuota s _ _ _ | WErr s
  | WAdd s _ _ _ | WWait s _ _ _ | WReplenish s _ | WSignal s
  | USwap s _ _ | UWrite s _ _ | UDone s _ | UHeader s _ | CLost s _ | WInit s | WDelete s => [s]
  | _ => []
  end.

Definition h_new (s : nat) (x : pc) : Z :=
  match x with NTry u _ _ | NWait u _ => b2z (bool_decide (u = s)) | _ => 0 end.

Definition h_wait (x : pc) : Z := match x with NTry _ false _ | NWait _ _ => 1 | _ => 0 end.
Definition h_retry (x : pc) : Z := match x with NTry _ false _ => 1 | _ => 0 end.

Definition benign (it : cbItem) : bool := match it with CleanupStream _ | HeaderFrame _ => false | _ => true end.

(** A frame that is as it should be. *)
Definition h_ok (t : http2Client) (x : pc) : Prop :=
  x <> DoubleClose
  /\ Forall (fun s => is_returned t s = true) (h_tgt x)
  /\ match x with
     | Put it _ | WPut it => benign it = true
     | WDelete s | CLost s _ => is_done t s = true
     | USwap _ _ _ | UWrite _ _ _ | UDone _ _ | UHeader _ _ => ~ Open t
     | NWait s ch => Open t -> exists g, ch = Some g /\ (g <= quotaChan t)%nat
     | _ => True
     end.

Definition pc_ok (t : http2Client) (x : pc) : Prop := Forall (h_ok t) (conts x).

Definition pend (s : nat) (x : pc) : Prop := Exists (fun y => s ∈ h_pend y) (conts x).

(** The items that delete a stream from the map, and those whose loss ends it. *)
Definition item_ok (t : http2Client) (it : cbItem) : Prop :=
  match it with
  | CleanupStream a => is_done t (Z.to_nat (cs_onWrite a)) = true /\ is_returned t (Z.to_nat (cs_onWrite a)) = true
  | HeaderFrame h => match onOrphaned h with Some s => is_returned t (Z.to_nat s) = true | None => True end
  | _ => True
  end.

(** A waiter on the current channel. *)
Definition on_current (t : http2Client) (x : pc) : Prop :=
  Exists (fun y => exists s, y = NWait s (Some (quotaChan t))) (conts x).

Record cinv (n : Z) (t : http2Client) (xs : list pc) : Prop := mkCinv {
  v_own s : sumZ (total (h_own s) <$> xs) + b2z (has done s t) = b2z (is_done t s);
  v_new s : sumZ (total (h_new s) <$> xs) + b2z (is_returned t s) <= b2z (bool_decide (s < length (streams t))%nat);
  v_ok : Forall (pc_ok t) xs;
  v_items : Forall (item_ok t) (ControlBuffer.items (cb t));
  v_next : 1 <= nextID t <= 1 + 2 * n;
  v_ids s x : streams t !! s = Some x -> returned x = true -> 1 <= id x < nextID t;
  v_inj s s' x x' : streams t !! s = Some x -> streams t !! s' = Some x' -> returned x = true -> returned x' = true ->
    id x = id x' -> s = s';
  v_active : match activeStreams t with
    | Some m => t_state t <> closing
        /\ (forall k s, m !! k = Some s -> exists x, streams t !! s = Some x /\ returned x = true /\ id x = k)
        /\ (forall s x, streams t !! s = Some x -> returned x = true -> finished x = false -> m !! id x = Some s)
    | None => t_state t = closing
        /\ (forall s x, streams t !! s = Some x -> returned x = true -> finished x = false -> Exists (pend s) xs)
    end;
  v_quota : Open t -> streamQuota t + live t + sumZ (total h_pre <$> xs) = maxConcurrentStreams t;
  v_waiting : Open t -> maxSendHeaderListSize t = None ->
    sumZ (total h_wait <$> xs) <= waitingStreams t <= n;
  v_wake : Open t -> maxSendHeaderListSize t = None -> 0 < streamQuota t -> Exists (on_current t) xs ->
    quotaToken t = true \/ 0 < sumZ (total h_retry <$> xs);
  v_fresh s x : Open t -> streams t !! s = Some x -> returned x = false -> finished x = false;
  v_header s x : streams t !! s = Some x -> headed x = true
}.

(** ** Steps that change nothing the invariant sees *)

Record quiet (t t' : http2Client) : Prop := mkQuiet {
  q_views : view <$> streams t' = view <$> streams t;
  q_active : activeStreams t' = activeStreams t;
  q_next : nextID t' = nextID t;
  q_state : t_state t' = t_state t;
  q_quota : streamQuota t' = streamQuota t;
  q_max : maxConcurrentStreams t' = maxConcurrentStreams t;
  q_waiting : waitingStreams t' = waitingStreams t;
  q_chan : quotaChan t' = quotaChan t;
  q_token : quotaToken t' = quotaToken t;
  q_limit : maxSendHeaderListSize t' = maxSendHeaderListSize t;
  q_err : ControlBuffer.err (cb t') = ControlBuffer.err (cb t);
  q_items : Forall (item_ok t) (ControlBuffer.items (cb t)) -> Forall (item_ok t) (ControlBuffer.items (cb t'))
}.

Lemma quiet_refl t : quiet t t.
Proof. by split. Qed.

Lemma view_inj x y :
  view x = view y -> id x = id y /\ returned x = returned y /\ finished x = finished y /\ done x = done y /\ headed x = headed y.
Proof. unfold view. intros [= H1 H2 H3 H4 H5]. by repeat split. Qed.

Lemma views_lookup t t' s x :
  view <$> streams t' = view <$> streams t -> streams t' !! s = Some x ->
  exists y, streams t !! s = Some y /\ view y = view x.
Proof.
  intros E Hx. assert (Hv : (view <$> streams t') !! s = Some (view x)) by (by rewrite list_lookup_fmap, Hx).
  rewrite E, list_lookup_fmap in Hv. destruct (streams t !! s) as [y|]; [|done]. exists y. cbn in Hv. split; [done|congruence].
Qed.

Lemma views_has t t' s :
  view <$> streams t' = view <$> streams t ->
  is_returned t' s = is_returned t s /\ is_done t' s = is_done t s /\ has done s t' = has done s t.
Proof.
  intros E. unfold is_returned, is_done, has. destruct (streams t' !! s) as [x|] eqn:Hx.
  - destruct (views_lookup _ _ _ _ E Hx) as (y & -> & (E1 & E2 & E3 & E4 & _)%view_inj). by rewrite E2, E3, E4.
  - assert (Hv : (view <$> streams t') !! s = None) by (by rewrite list_lookup_fmap, Hx).
    rewrite E, list_lookup_fmap in Hv. by destruct (streams t !! s).
Qed.

Lemma views_live t t' : view <$> streams t' = view <$> streams t -> live t' = live t.
Proof.
  intros E. unfold live. f_equal.
  assert (F : forall l : list Stream, (fun x => b2z (returned x && negb (finished x))) <$> l
                 = (fun v => b2z (snd (fst (fst (fst v))) && negb (snd (fst (fst v))))) <$> (view <$> l)).
  { intros l. rewrite <- list_fmap_compose. apply list_fmap_ext. done. }
  by rewrite !F, E.
Qed.

Lemma views_upd s f t : (forall x, view (f x) = view x) -> view <$> streams (upd s f t) = view <$> streams t.
Proof.
  intros Hf. cbn. rewrite (list_fmap_alter view f (fun v => v)); [|apply Forall_forall; intros; apply Hf].
  apply list_eq. intros i. destruct (decide (i = s)) as [->|].
  - rewrite list_lookup_alter_eq. by destruct (_ !! s).
  - by rewrite list_lookup_alter_ne.
Qed.

Lemma quiet_h_ok t t' x : quiet t t' -> h_ok t x -> h_ok t' x.
Proof.
  intros Q (H1 & H2 & H3). split; [done|]. split.
  - eapply Forall_impl; [exact H2|]. intros s <-. apply (views_has t t' s (q_views _ _ Q)).
  - assert (HO : Open t' <-> Open t) by (unfold Open; by rewrite (q_state _ _ Q), (q_err _ _ Q)).
    destruct x; try done; try (by rewrite HO).
    + intros HO'%HO. rewrite (q_chan _ _ Q). by apply H3.
    + rewrite <- H3. apply (views_has t t' s (q_views _ _ Q)).
    + rewrite <- H3. apply (views_has t t' s (q_views _ _ Q)).
Qed.

Lemma views_item_ok t t' it : view <$> streams t' = view <$> streams t -> item_ok t' it <-> item_ok t it.
Proof.
  intros E. unfold item_ok. destruct it; try done.
  - destruct (onOrphaned h) as [s|]; [|done]. by destruct (views_has t t' (Z.to_nat s) E) as (-> & _ & _).
  - by destruct (views_has t t' (Z.to_nat (cs_onWrite c)) E) as (-> & -> & _).
Qed.

Lemma quiet_item_ok t t' it : quiet t t' -> item_ok t it -> item_ok t' it.
Proof. intros Q. apply views_item_ok, q_views, Q. Qed.

Lemma quiet_inv n t t' xs : quiet t t' -> cinv n t xs -> cinv n t' xs.
Proof.
  intros Q [I1 I2 I3 I4 I5 I6 I7 I8 I9 I10 I11 I12 I13].
  assert (HO : Open t' <-> Open t) by (unfold Open; by rewrite (q_state _ _ Q), (q_err _ _ Q)).
  assert (HL : length (streams t') = length (streams t)).
  { pose proof (f_equal length (q_views _ _ Q)) as E. by rewrite !length_fmap in E. }
  split.
  - intros s. destruct (views_has t t' s (q_views _ _ Q)) as (_ & -> & ->). apply I1.
  - intros s. destruct (views_has t t' s (q_views _ _ Q)) as (-> & _ & _). rewrite HL. apply I2.
  - eapply Forall_impl; [exact I3|]. intros x Hx. eapply Forall_impl; [exact Hx|]. intros y. by apply quiet_h_ok.
  - eapply Forall_impl; [exact (q_items _ _ Q I4)|]. intros it. by apply quiet_item_ok.
  - by rewrite (q_next _ _ Q).
  - intros s x Hx. destruct (views_lookup _ _ _ _ (q_views _ _ Q) Hx) as (y & Hy & (E1 & E2 & E3 & E4)%view_inj).
    rewrite <- E1, <- E2, (q_next _ _ Q). by eapply I6.
  - intros s s' x x' Hx Hx'. destruct (views_lookup _ _ _ _ (q_views _ _ Q) Hx) as (y & Hy & (E1 & E2 & E3 & E4)%view_inj).
    destruct (views_lookup _ _ _ _ (q_views _ _ Q) Hx') as (y' & Hy' & (F1 & F2 & F3 & F4)%view_inj).
    rewrite <- E1, <- E2, <- F1, <- F2. by eapply I7.
  - rewrite (q_active _ _ Q), (q_state _ _ Q).
    assert (HD : forall s x, streams t' !! s = Some x -> returned x = true -> finished x = false ->
      exists y, streams t !! s = Some y /\ returned y = true /\ finished y = false /\ id y = id x).
    { intros s x Hx Hr Hd. destruct (views_lookup _ _ _ _ (q_views _ _ Q) Hx) as (y & Hy & (E1 & E2 & E3 & E4)%view_inj).
      exists y. repeat split; congruence. }
    destruct (activeStreams t) as [m|].
    + destruct I8 as (A1 & A2 & A3). split; [done|]. split.
      * intros k s Hk. destruct (A2 _ _ Hk) as (x & Hx & Hr & <-).
        destruct (views_lookup t' t s x (eq_sym (q_views _ _ Q)) Hx) as (y & Hy & (E1 & E2 & E3 & E4)%view_inj).
        exists y. repeat split; congruence.
      * intros s x Hx Hr Hd. destruct (HD _ _ Hx Hr Hd) as (y & Hy & Hr' & Hd' & <-). by apply A3.
    + destruct I8 as (A1 & A2). split; [done|]. intros s x Hx Hr Hd.
      destruct (HD _ _ Hx Hr Hd) as (y & Hy & Hr' & Hd' & _). by eapply A2.
  - rewrite HO, (q_quota _ _ Q), (q_max _ _ Q), (views_live _ _ (q_views _ _ Q)). done.
  - rewrite HO, (q_limit _ _ Q), (q_waiting _ _ Q). done.
  - rewrite HO, (q_limit _ _ Q), (q_quota _ _ Q), (q_token _ _ Q). intros H1 H2 H3 H4. apply I11; try done.
    unfold on_current in *. by rewrite (q_chan _ _ Q) in H4.
  - intros s x HO'%HO Hx. destruct (views_lookup _ _ _ _ (q_views _ _ Q) Hx) as (y & Hy & (E1 & E2 & E3 & E4)%view_inj).
    rewrite <- E2, <- E3. by eapply I12.
  - intros s x Hx. destruct (views_lookup _ _ _ _ (q_views _ _ Q) Hx) as (y & Hy & (_ & _ & _ & _ & E)%view_inj).
    rewrite <- E. by eapply I13.
Qed.

(** ** Moves of one goroutine *)

Record moved (t : http2Client) (x x' : pc) : Prop := mkMoved {
  m_own s : total (h_own s) x' = total (h_own s) x;
  m_new s : total (h_new s) x' <= total (h_new s) x;
  m_ok : pc_ok t x';
  m_pend s : is_done t s = false -> pend s x -> pend s x';
  m_pre : Open t -> total h_pre x' = total h_pre x;
  m_wait : Open t -> maxSendHeaderListSize t = None -> total h_wait x' <= total h_wait x;
  m_retry : Open t -> maxSendHeaderListSize t = None -> 0 < streamQuota t -> total h_retry x <= total h_retry x';
  m_current : on_current t x' -> on_current t x
}.

Lemma Exists_insert {A} (P : A -> Prop) (l : list A) i x x' :
  l !! i = Some x -> (P x -> P x') -> Exists P l -> Exists P (<[i := x']> l).
Proof.
  intros Hi Hx HE. apply Exists_exists in HE as (y & Hy & Py). apply list_elem_of_lookup in Hy as [j Hj].
  apply Exists_exists. destruct (decide (j = i)) as [->|].
  - simplify_eq. exists x'. split; [|by apply Hx]. apply list_elem_of_lookup. exists i. by apply list_lookup_insert_eq, lookup_lt_Some with x.
  - exists y. split; [|done]. apply list_elem_of_lookup. exists j. by rewrite list_lookup_insert_ne.
Qed.

Lemma Exists_insert_inv {A} (P : A -> Prop) (l : list A) i x x' :
  l !! i = Some x -> Exists P (<[i := x']> l) -> P x' \/ Exists P l.
Proof.
  intros Hi HE. apply Exists_exists in HE as (y & Hy & Py). apply list_elem_of_lookup in Hy as [j Hj].
  destruct (decide (j = i)) as [->|].
  - rewrite list_lookup_insert_eq in Hj by by eapply lookup_lt_Some. simplify_eq. by left.
  - rewrite list_lookup_insert_ne in Hj by done. right. apply Exists_exists. exists y. split; [|done]. by eapply list_elem_of_lookup_2.
Qed.

Lemma moved_inv n t xs i x x' :
  cinv n t xs -> xs !! i = Some x -> moved t x x' -> cinv n t (<[i := x']> xs).
Proof.
  intros [I1 I2 I3 I4 I5 I6 I7 I8 I9 I10 I11 I12 I13] Hi [M1 M2 M3 M4 M5 M6 M7 M8]. split; try done.
  - intros s. rewrite (sumZ_insert _ _ _ _ _ Hi), M1. specialize (I1 s). lia.
  - intros s. rewrite (sumZ_insert _ _ _ _ _ Hi). specialize (I2 s). specialize (M2 s). lia.
  - by apply Forall_insert.
  - destruct (activeStreams t); [done|]. destruct I8 as [A1 A2]. split; [done|]. intros s y Hy Hr Hd.
    eapply Exists_insert; [exact Hi|apply M4; unfold is_done, has; by rewrite Hy|eauto].
  - intros HO. rewrite (sumZ_insert _ _ _ _ _ Hi), M5 by done. specialize (I9 HO). lia.
  - intros HO HN. rewrite (sumZ_insert _ _ _ _ _ Hi). specialize (I10 HO HN). specialize (M6 HO HN). lia.
  - intros HO HN Hq HE. rewrite (sumZ_insert _ _ _ _ _ Hi). specialize (M7 HO HN Hq).
    destruct (I11 HO HN Hq); [|by left|right; lia].
    destruct (Exists_insert_inv _ _ _ _ _ Hi HE) as [Hc|]; [|done].
    apply Exists_exists. exists x. split; [by eapply list_elem_of_lookup_2|by apply M8].
Qed.

Lemma quiet_moved_inv n t t' xs i x x' :
  cinv n t xs -> xs !! i = Some x -> quiet t t' -> moved t x x' -> cinv n t' (<[i := x']> xs).
Proof. intros I Hi Q M. eapply quiet_inv; [exact Q|]. by eapply moved_inv. Qed.

Lemma cinv_mono n n' t xs : n <= n' -> cinv n t xs -> cinv n' t xs.
Proof. intros Hn [I1 I2 I3 I4 I5 I6 I7 I8 I9 I10 I11 I12 I13]. split; try done; [lia|]. intros HO HN. specialize (I10 HO HN). lia. Qed.

Lemma total_frame f x k : conts x = x :: conts k -> total f x = f x + total f k.
Proof. intros E. unfold total. by rewrite E, fmap_cons, sumZ_cons. Qed.

Lemma total_one f x : conts x = [x] -> total f x = f x.
Proof. intros E. unfold total. rewrite E. cbn. lia. Qed.

Lemma total_close_all f cs k : (forall a k', f (CSwap a k') = 0) -> total f (close_all cs k) = total f k.
Proof.
  intros Hf. induction cs as [|a cs IH]; [done|]. cbn [close_all].
  rewrite (total_frame f (CSwap a (close_all cs k)) (close_all cs k)) by done. rewrite Hf, IH. lia.
Qed.

Lemma total_cleanup_all f ss e k : (forall s k', f (USwap s e k') = 0) -> total f (cleanup_all ss e k) = total f k.
Proof.
  intros Hf. induction ss as [|s ss IH]; [done|]. cbn [cleanup_all].
  rewrite (total_frame f (USwap s e (cleanup_all ss e k)) (cleanup_all ss e k)) by done. rewrite Hf, IH. lia.
Qed.

Lemma total_put_if f w sid k : (forall it k', f (Put it k') = 0) -> total f (put_if w sid k) = total f k.
Proof.
  intros Hf. unfold put_if. destruct (0 <? w); [|done]. rewrite (total_frame f (Put _ k) k) by done. rewrite Hf. lia.
Qed.

Lemma pc_ok_cons t x k : conts x = x :: conts k -> pc_ok t x <-> h_ok t x /\ pc_ok t k.
Proof. intros E. unfold pc_ok. by rewrite E, Forall_cons. Qed.

Lemma pc_ok_last t x : conts x = [x] -> pc_ok t x <-> h_ok t x.
Proof. intros E. unfold pc_ok. rewrite E, Forall_singleton. done. Qed.

Lemma pc_ok_close_all t cs k :
  Forall (fun s => is_returned t s = true) (c_s <$> cs) -> pc_ok t k -> pc_ok t (close_all cs k).
Proof.
  intros Hr Hk. induction cs as [|a cs IH]; [done|]. cbn in Hr. apply Forall_cons in Hr as [Ha Hr]. cbn [close_all].
  apply (pc_ok_cons t _ (close_all cs k)); [done|]. split; [|by apply IH]. split; [done|]. split; [by constructor|done].
Qed.

Lemma pc_ok_cleanup_all t ss e k :
  (ss <> [] -> ~ Open t) -> Forall (fun s => is_returned t s = true) ss -> pc_ok t k -> pc_ok t (cleanup_all ss e k).
Proof.
  intros Hs Hr Hk. induction Hr as [|s ss Hs0 _ IH]; [done|]. cbn [cleanup_all].
  apply (pc_ok_cons t _ (cleanup_all ss e k)); [done|]. split; [|by apply IH; intros; apply Hs].
  split; [done|]. split; [by constructor|by apply Hs].
Qed.

Lemma pc_ok_put_if t w sid k : pc_ok t k -> pc_ok t (put_if w sid k).
Proof.
  intros Hk. unfold put_if. destruct (0 <? w); [|done]. apply (pc_ok_cons t _ k); [done|]. split; [|done].
  split; [done|]. by split.
Qed.

Lemma pend_cons s x k : conts x = x :: conts k -> pend s x <-> s ∈ h_pend x \/ pend s k.
Proof. intros E. unfold pend. rewrite E, Exists_cons. done. Qed.

Lemma pend_last s x : conts x = [x] -> pend s x <-> s ∈ h_pend x.
Proof. intros E. unfold pend. rewrite E, Exists_cons, Exists_nil. tauto. Qed.

Lemma pend_close_all s cs k : s ∈ c_s <$> cs \/ pend s k -> pend s (close_all cs k).
Proof.
  induction cs as [|a cs IH]; cbn [close_all].
  - intros [H|H]; [|done]. by apply not_elem_of_nil in H.
  - intros H. apply (pend_cons s _ (close_all cs k)); [done|]. cbn in H |- *. rewrite elem_of_cons in H.
    destruct H as [[->|H]|H]; [left; by apply list_elem_of_singleton|right; auto|right; auto].
Qed.

Lemma pend_cleanup_all s ss e k : pend s k -> pend s (cleanup_all ss e k).
Proof.
  intros H. induction ss as [|u ss IH]; [done|]. cbn [cleanup_all]. apply (pend_cons s _ (cleanup_all ss e k)); [done|]. by right.
Qed.

(** The goroutine goes on within its frame, or leaves it. *)
Lemma moved_head t x x' :
  tail (conts x') = tail (conts x) -> pc_ok t x ->
  (forall s, h_own s x' = h_own s x) -> (forall s, h_new s x' <= h_new s x) -> h_ok t x' ->
  (forall s, is_done t s = false -> s ∈ h_pend x -> s ∈ h_pend x') -> h_pre x' = h_pre x -> h_wait x' <= h_wait x -> h_retry x <= h_retry x' ->
  (forall s, x' <> NWait s (Some (quotaChan t))) -> moved t x x'.
Proof.
  intros E Hx H1 H2 H3 H4 H5 H6 H7 H8.
  assert (Cx : exists l, conts x = x :: l /\ conts x' = x' :: l).
  { exists (tail (conts x)). split; [by destruct x|rewrite <- E; by destruct x']. }
  clear E. destruct Cx as (l & Ex & Ex').
  split; unfold total, pc_ok, pend, on_current in *; rewrite ?Ex, ?Ex' in *.
  - intros s. by rewrite !fmap_cons, !sumZ_cons, H1.
  - intros s. rewrite !fmap_cons, !sumZ_cons. specialize (H2 s). lia.
  - apply Forall_cons. apply Forall_cons in Hx as [_ Hx]. done.
  - intros s Hs. rewrite !Exists_cons. specialize (H4 s Hs). tauto.
  - intros _. by rewrite !fmap_cons, !sumZ_cons, H5.
  - intros _ _. rewrite !fmap_cons, !sumZ_cons. lia.
  - intros _ _ _. rewrite !fmap_cons, !sumZ_cons. lia.
  - rewrite !Exists_cons. intros [[s Hs]|]; [|by right]. by apply H8 in Hs.
Qed.

Lemma moved_pop t x k :
  tail (conts x) = conts k -> pc_ok t x -> (forall s, h_own s x = 0) -> (forall s, 0 <= h_new s x) -> h_pend x = [] ->
  h_pre x = 0 -> 0 <= h_wait x -> h_retry x = 0 -> moved t x k.
Proof.
  intros E Hx H1 H2 H3 H4 H5 H6.
  assert (Cx : conts x = x :: conts k) by (rewrite <- E; by destruct x).
  split; unfold total, pc_ok, pend, on_current in *; rewrite ?Cx in *.
  - intros s. by rewrite fmap_cons, sumZ_cons, H1.
  - intros s. rewrite fmap_cons, sumZ_cons. specialize (H2 s). lia.
  - by apply Forall_cons in Hx as [_ Hx].
  - intros s _. rewrite Exists_cons, H3. intros [H|]; [|done]. by apply not_elem_of_nil in H.
  - intros _. by rewrite fmap_cons, sumZ_cons, H4.
  - intros _ _. rewrite fmap_cons, sumZ_cons. lia.
  - intros _ _ _. rewrite fmap_cons, sumZ_cons. lia.
  - intros H. rewrite Exists_cons. by right.
Qed.

Lemma moved_trans t x y z : moved t x y -> moved t y z -> moved t x z.
Proof.
  intros [A1 A2 A3 A4 A5 A6 A7 A8] [B1 B2 B3 B4 B5 B6 B7 B8]. split; auto.
  - intros s. by rewrite B1.
  - intros s. specialize (A2 s). specialize (B2 s). lia.
  - intros HO. by rewrite B5, A5.
  - intros HO HN. specialize (A6 HO HN). specialize (B6 HO HN). lia.
  - intros HO HN HQ. specialize (A7 HO HN HQ). specialize (B7 HO HN HQ). lia.
Qed.

(** A frame that no count sees. *)
Definition h_inert (x : pc) : bool :=
  match x with
  | NTry _ _ _ | NWait _ _ | UWrite _ _ _ | UDone _ _ | CWrite _ _ | CHeader _ _ | CPut _ _ | CDone _ _ => false
  | _ => true
  end.

Definition inert (x : pc) : Prop := Forall (fun y => h_inert y = true) (conts x).

Lemma inert_total f x : (forall y, h_inert y = true -> f y = 0) -> inert x -> total f x = 0.
Proof.
  intros Hf Hx. unfold total. unfold inert in Hx. induction Hx as [|y l Hy _ IH]; [done|].
  by rewrite fmap_cons, sumZ_cons, IH, Hf.
Qed.

Lemma moved_inert t x x' : inert x -> inert x' -> pc_ok t x' -> (forall s, pend s x -> pend s x') -> moved t x x'.
Proof.
  intros Hx Hx' Hok Hp. split; try done; intros; rewrite ?(inert_total _ x), ?(inert_total _ x'); try done; try (by intros []); try lia; [by apply Hp|].
  match goal with HE : on_current t x' |- _ => apply Exists_exists in HE as (y & Hy & s & ->) end.
  unfold inert in Hx'. rewrite Forall_forall in Hx'. by specialize (Hx' _ Hy).
Qed.

Lemma inert_close_all cs k : inert k -> inert (close_all cs k).
Proof. intros Hk. induction cs as [|a cs IH]; [done|]. by constructor. Qed.

Lemma inert_put_if w sid k : inert k -> inert (put_if w sid k).
Proof. intros Hk. unfold put_if. destruct (0 <? w); [by constructor|done]. Qed.

(** * Every step keeps the invariant *)

(** What only grows: the returned and the finished streams, the channels, and the closing
    of the transport. *)
Record grows (t t' : http2Client) : Prop := mkGrows {
  g_returned s : is_returned t s = true -> is_returned t' s = true;
  g_done s : is_done t s = true -> is_done t' s = true;
  g_open : Open t' -> Open t;
  g_chan : (quotaChan t <= quotaChan t')%nat
}.

Lemma grows_h_ok t t' x : grows t t' -> h_ok t x -> h_ok t' x.
Proof.
  intros [G1 G2 G3 G4] (H1 & H2 & H3). split; [done|]. split.
  - eapply Forall_impl; [exact H2|]. intros s. apply G1.
  - destruct x; try done; try (by intros HO%G3).
    + intros HO%G3. destruct (H3 HO) as (g & -> & Hg). exists g. split; [done|lia].
    + by apply G2.
    + by apply G2.
Qed.

Lemma grows_pc_ok t t' x : grows t t' -> pc_ok t x -> pc_ok t' x.
Proof. intros G Hx. eapply Forall_impl; [exact Hx|]. intros y. by apply grows_h_ok. Qed.

Lemma grows_item_ok t t' it : grows t t' -> item_ok t it -> item_ok t' it.
Proof.
  intros G. destruct it; try done; cbn.
  - destruct (onOrphaned h); [apply G|done].
  - intros [H1 H2]. split; by apply G.
Qed.

(** The transport and one goroutine change. *)
Lemma transport_step n n' t t' xs i x x' :
  cinv n t xs -> xs !! i = Some x -> grows t t' ->
  (forall u, total (h_own u) x' + b2z (has done u t') - b2z (is_done t' u)
             = total (h_own u) x + b2z (has done u t) - b2z (is_done t u)) ->
  (forall u, total (h_new u) x' + b2z (is_returned t' u) <= total (h_new u) x + b2z (is_returned t u)) ->
  length (streams t') = length (streams t) ->
  pc_ok t' x' -> Forall (item_ok t') (ControlBuffer.items (cb t')) ->
  1 <= nextID t' <= 1 + 2 * n' ->
  (forall s y, streams t' !! s = Some y -> returned y = true -> 1 <= id y < nextID t') ->
  (forall s s' y y', streams t' !! s = Some y -> streams t' !! s' = Some y' -> returned y = true -> returned y' = true ->
    id y = id y' -> s = s') ->
  match activeStreams t' with
  | Some m => t_state t' <> closing
      /\ (forall k s, m !! k = Some s -> exists y, streams t' !! s = Some y /\ returned y = true /\ id y = k)
      /\ (forall s y, streams t' !! s = Some y -> returned y = true -> finished y = false -> m !! id y = Some s)
  | None => t_state t' = closing
      /\ (forall s y, streams t' !! s = Some y -> returned y = true -> finished y = false -> Exists (pend s) (<[i := x']> xs))
  end ->
  (Open t' -> streamQuota t' + live t' + total h_pre x' - maxConcurrentStreams t'
              = streamQuota t + live t + total h_pre x - maxConcurrentStreams t) ->
  (Open t' -> maxSendHeaderListSize t' = None -> maxSendHeaderListSize t = None
     /\ total h_wait x' - waitingStreams t' <= total h_wait x - waitingStreams t /\ waitingStreams t' <= n') ->
  (Open t' -> maxSendHeaderListSize t' = None -> 0 < streamQuota t' -> Exists (on_current t') (<[i := x']> xs) ->
    quotaToken t' = true \/ 0 < sumZ (total h_retry <$> <[i := x']> xs)) ->
  (forall s y, Open t' -> streams t' !! s = Some y -> returned y = false -> finished y = false) ->
  (forall s y, streams t' !! s = Some y -> headed y = true) ->
  cinv n' t' (<[i := x']> xs).
Proof.
  intros [I1 I2 I3 I4 I5 I6 I7 I8 I9 I10 I11 I12 I13] Hi G H1 H2 HL H3 H4 H5 H6 H7 H8 H9 H10 H11 H12 H13. split; try done.
  - intros s. rewrite (sumZ_insert _ _ _ _ _ Hi). specialize (I1 s). specialize (H1 s). lia.
  - intros s. rewrite (sumZ_insert _ _ _ _ _ Hi), HL. specialize (I2 s). specialize (H2 s). lia.
  - apply Forall_insert; [|done]. eapply Forall_impl; [exact I3|]. intros y. by apply grows_pc_ok.
  - intros HO. rewrite (sumZ_insert _ _ _ _ _ Hi). specialize (I9 (g_open _ _ G HO)). specialize (H9 HO). lia.
  - intros HO HN. rewrite (sumZ_insert _ _ _ _ _ Hi). destruct (H10 HO HN) as (HN' & Hw & Hn).
    specialize (I10 (g_open _ _ G HO) HN'). lia.
Qed.

(** The transport changes, but no stream does. *)
Lemma step_same_streams n n' t t' xs i x x' :
  cinv n t xs -> xs !! i = Some x -> n <= n' ->
  view <$> streams t' = view <$> streams t -> nextID t' = nextID t ->
  (Open t' -> Open t) -> (quotaChan t <= quotaChan t')%nat ->
  (forall u, total (h_own u) x' = total (h_own u) x) -> (forall u, total (h_new u) x' <= total (h_new u) x) ->
  pc_ok t' x' -> Forall (item_ok t) (ControlBuffer.items (cb t')) ->
  match activeStreams t' with
  | Some m => t_state t' <> closing /\ exists m0, activeStreams t = Some m0
      /\ (forall k s, m !! k = Some s -> m0 !! k = Some s)
      /\ (forall s y, streams t !! s = Some y -> returned y = true -> finished y = false -> m0 !! id y = Some s -> m !! id y = Some s)
  | None => t_state t' = closing
      /\ (forall s y, streams t !! s = Some y -> returned y = true -> finished y = false -> Exists (pend s) (<[i := x']> xs))
  end ->
  (Open t' -> streamQuota t' + total h_pre x' - maxConcurrentStreams t'
              = streamQuota t + total h_pre x - maxConcurrentStreams t) ->
  (Open t' -> maxSendHeaderListSize t' = None -> maxSendHeaderListSize t = None
     /\ total h_wait x' - waitingStreams t' <= total h_wait x - waitingStreams t /\ waitingStreams t' <= n') ->
  (Open t' -> maxSendHeaderListSize t' = None -> 0 < streamQuota t' -> Exists (on_current t') (<[i := x']> xs) ->
    quotaToken t' = true \/ 0 < sumZ (total h_retry <$> <[i := x']> xs)) ->
  cinv n' t' (<[i := x']> xs).
Proof.
  intros I Hi Hn Hv Hnx HO Hc Hown Hnew Hok Hit Hact Hq Hw Hk.
  assert (G : grows t t').
  { split; try done; intros s; destruct (views_has _ _ s Hv) as (E1 & E2 & _); congruence. }
  eapply transport_step; try done.
  - intros u. destruct (views_has _ _ u Hv) as (_ & -> & ->). by rewrite Hown.
  - intros u. destruct (views_has _ _ u Hv) as (-> & _ & _). specialize (Hnew u). lia.
  - pose proof (f_equal length Hv) as E. by rewrite !length_fmap in E.
  - eapply Forall_impl; [exact Hit|]. intros it. by apply grows_item_ok.
  - pose proof (v_next _ _ _ I). lia.
  - intros s y Hy. destruct (views_lookup _ _ _ _ Hv Hy) as (z & Hz & (E1 & E2 & E3 & E4)%view_inj).
    rewrite <- E1, <- E2, Hnx. by eapply v_ids.
  - intros s s' y y' Hy Hy'. destruct (views_lookup _ _ _ _ Hv Hy) as (z & Hz & (E1 & E2 & E3 & E4)%view_inj).
    destruct (views_lookup _ _ _ _ Hv Hy') as (z' & Hz' & (F1 & F2 & F3 & F4)%view_inj).
    rewrite <- E1, <- E2, <- F1, <- F2. by eapply v_inj.
  - pose proof (v_active _ _ _ I) as A. destruct (activeStreams t') as [m|].
    + destruct Hact as (Hs & m0 & Em & M1 & M2). rewrite Em in A. destruct A as (A1 & A2 & A3). split; [done|]. split.
      * intros k s Hks. destruct (A2 _ _ (M1 _ _ Hks)) as (z & Hz & Hr & <-).
        destruct (views_lookup t' t s z (eq_sym Hv) Hz) as (y & Hy & (E1 & E2 & E3 & E4)%view_inj).
        exists y. repeat split; congruence.
      * intros s y Hy Hr Hf. destruct (views_lookup _ _ _ _ Hv Hy) as (z & Hz & (E1 & E2 & E3 & E4)%view_inj).
        rewrite <- E1. eapply M2; try done; try congruence. eapply (A3 s z); [done|congruence..].
    + destruct Hact as (Hs & M). split; [done|]. intros s y Hy Hr Hf.
      destruct (views_lookup _ _ _ _ Hv Hy) as (z & Hz & (E1 & E2 & E3 & E4)%view_inj).
      eapply (M s z); [done|congruence..].
  - intros Ho. rewrite (views_live _ _ Hv). specialize (Hq Ho). lia.
  - intros s y Ho Hy. destruct (views_lookup _ _ _ _ Hv Hy) as (z & Hz & (E1 & E2 & E3 & E4)%view_inj).
    rewrite <- E2, <- E3. eapply v_fresh; [exact I|by apply HO|done].
  - intros s y Hy. destruct (views_lookup _ _ _ _ Hv Hy) as (z & Hz & (_ & _ & _ & _ & <-)%view_inj). by eapply v_header.
Qed.

Lemma quiet_upd s f t : (forall x, view (f x) = view x) -> quiet t (upd s f t).
Proof. intros Hf. split; try done. by apply views_upd. Qed.

Lemma quiet_trans t t1 t2 : quiet t t1 -> quiet t1 t2 -> quiet t t2.
Proof.
  intros Q1 Q2. split; try (etransitivity; [apply Q2|apply Q1]).
  intros HF. assert (HF1 : Forall (item_ok t1) (ControlBuffer.items (cb t1))).
  { eapply Forall_impl; [exact (q_items _ _ Q1 HF)|]. intros it. by apply quiet_item_ok. }
  eapply Forall_impl; [exact (q_items _ _ Q2 HF1)|]. intros it.
  apply views_item_ok. by rewrite (q_views _ _ Q1).
Qed.

(** What a put does to the buffer. *)
Lemma executeAndPut_cb f it b r w b' :
  ControlBuffer.executeAndPut f it b = (r, w, b') ->
  ControlBuffer.err b' = ControlBuffer.err b
  /\ (ControlBuffer.items b' = ControlBuffer.items b ++ [it] \/ ControlBuffer.items b' = ControlBuffer.items b).
Proof.
  unfold ControlBuffer.executeAndPut. destruct (ControlBuffer.err b) eqn:Ee; [intros [= <- <- <-]; by rewrite Ee; auto|].
  destruct (ControlBuffer.refused f it); [intros [= <- <- <-]; rewrite Ee; auto|].
  destruct (isTransportResponseFrame it); [|intros [= <- <- <-]; cbn; auto].
  destruct (_ =? _); intros [= <- <- <-]; cbn; auto.
Qed.

Lemma item_ok_benign t it : benign it = true -> item_ok t it.
Proof. by destruct it. Qed.

Lemma quiet_put it t : benign it = true -> quiet t (snd (put_item it t)).
Proof.
  intros Hb. unfold put_item, ControlBuffer.put.
  destruct (ControlBuffer.executeAndPut None it (cb t)) as [[[ok e] w] b] eqn:E. cbn.
  destruct (executeAndPut_cb _ _ _ _ _ _ E) as [E1 E2]. split; try done. intros HF. cbn.
  destruct E2 as [->| ->]; [|done]. apply Forall_app. split; [done|]. constructor; [by apply item_ok_benign|done].
Qed.

Create HintDb client.
#[local] Hint Resolve quiet_refl quiet_upd quiet_put : client.

Lemma is_returned_lookup t s k n xs : cinv n t xs -> lookup_active k t = Some s -> is_returned t s = true.
Proof.
  intros I H. unfold lookup_active in H. pose proof (v_active _ _ _ I) as A. destruct (activeStreams t) as [m|]; [|done].
  cbn in H. destruct A as (_ & A & _). destruct (A _ _ H) as (x & Hx & Hr & _). unfold is_returned, has. by rewrite Hx.
Qed.

Lemma actives_returned t n xs : cinv n t xs -> Forall (fun s => is_returned t s = true) (snd <$> actives t).
Proof.
  intros I. apply Forall_fmap, Forall_forall. intros [k s] Hks. apply (is_returned_lookup t s k n xs I).
  unfold actives in Hks. unfold lookup_active. destruct (activeStreams t) as [m|]; [|by apply not_elem_of_nil in Hks].
  by apply elem_of_map_to_list in Hks.
Qed.

Section inv.
Context `{!HeaderLib}.
Context (n : Z) (t : http2Client) (xs : list pc) (i : nat).
Hypothesis I : cinv n t xs.

Lemma at_ok x : xs !! i = Some x -> pc_ok t x.
Proof. intros Hi. pose proof (v_ok _ _ _ I) as F. by eapply Forall_lookup_1 in F. Qed.

(** A quiet step from an inert state to an inert state. *)
Lemma inert_step x t' x' :
  xs !! i = Some x -> quiet t t' -> inert x -> inert x' -> pc_ok t x' -> (forall s, pend s x -> pend s x') ->
  cinv n t' (<[i := x']> xs).
Proof. intros Hi Q Hx Hx' Hok Hp. eapply quiet_moved_inv; [exact I|exact Hi|exact Q|]. by apply moved_inert. Qed.

(** The same when the goroutine has nothing to go on with. *)
Lemma inert_last_step x t' x' :
  xs !! i = Some x -> conts x = [x] -> h_inert x = true -> h_pend x = [] -> quiet t t' -> inert x' -> pc_ok t x' ->
  cinv n t' (<[i := x']> xs).
Proof.
  intros Hi Hc Hx Hp Q Hx' Hok. eapply inert_step; try done.
  - unfold inert. rewrite Hc. by constructor.
  - intros s. rewrite pend_last by done. rewrite Hp. intros He. by apply not_elem_of_nil in He.
Qed.

Lemma ok_idle : pc_ok t Idle.
Proof. by repeat constructor. Qed.

Lemma ok_put it k : benign it = true -> pc_ok t k -> pc_ok t (Put it k).
Proof. intros Hb Hk. apply (pc_ok_cons t _ k); [done|]. split; [|done]. split; [done|]. by split. Qed.

Lemma ok_close a k : is_returned t (c_s a) = true -> pc_ok t k -> pc_ok t (CSwap a k).
Proof. intros Ha Hk. apply (pc_ok_close_all t [a] k); [by constructor|done]. Qed.

Lemma ok_one x : conts x = [x] -> h_ok t x -> pc_ok t x.
Proof. intros Hc Hx. by apply pc_ok_last. Qed.

Lemma tgt_ok x s : xs !! i = Some x -> s ∈ h_tgt x -> is_returned t s = true.
Proof.
  intros Hi Hs. pose proof (at_ok x Hi) as Hx. assert (Hh : h_ok t x) by (destruct x; by apply Forall_cons in Hx as [Hx _]).
  destruct Hh as (_ & Hh & _). rewrite Forall_forall in Hh. by apply Hh.
Qed.

#[local] Ltac done_ok := split; [done|split; [repeat constructor; eauto|done]].
#[local] Ltac ok1 := apply ok_one; [done|by done_ok].
#[local] Ltac last_step Hi := eapply (inert_last_step _ _ _ Hi); [done|done|done| | |].

Lemma quiet_upd_at s f x : streams t !! s = Some x -> view (f x) = view x -> quiet t (upd s f t).
Proof.
  intros Hx Hf. split; try done. cbn. apply list_eq. intros j. rewrite !list_lookup_fmap.
  destruct (decide (j = s)) as [->|]; [by rewrite list_lookup_alter_eq, Hx; cbn; rewrite Hf|by rewrite list_lookup_alter_ne].
Qed.

(** The close of headerChan never finds it closed. *)
Lemma close_headerChan_cases s f k t' x' :
  (forall y, view (f y) = view y /\ headerChanClosed (f y) = headerChanClosed y) ->
  close_headerChan s f k t = Some (t', x') -> x' = k /\ quiet t t'.
Proof.
  intros Hf E. unfold close_headerChan in E. destruct (streams t !! s) as [y|] eqn:Hy; [|done].
  cbn [mbind option_bind] in E. pose proof (v_header _ _ _ I _ _ Hy) as Hh. unfold headed in Hh. apply Bool.eqb_prop in Hh.
  destruct (headerChanClosed y) eqn:Ec; [injection E as <- <-; auto with client|]. rewrite Hh in E. injection E as <- <-.
  split; [done|]. apply (quiet_upd_at s _ y Hy).
  destruct (Hf (set_headerChanClosed true y)) as [(E1 & E2 & E3 & E4 & _)%view_inj Hc]. unfold view, headed, finished in *. cbn in *.
  by rewrite Hh, Ec, Hc, E1, E2, E3, E4.
Qed.

Lemma handleData_inv x t' x' :
  xs !! i = Some x -> handleData x t = Some (t', x') -> cinv n t' (<[i := x']> xs).
Proof.
  intros Hi E. pose proof (tgt_ok x) as Ht. destruct x; cbn [handleData] in E; try done.
  - destruct (TrInFlow.onData _ _) as [f w]. injection E as <- <-. last_step Hi.
    + by split.
    + apply inert_put_if. destruct sendBDPPing; by constructor.
    + apply pc_ok_put_if. apply ok_one; destruct sendBDPPing; done.
  - destruct (TrInFlow.reset _) as [f w]. injection E as <- <-. last_step Hi.
    + by split.
    + apply inert_put_if. by repeat constructor.
    + apply pc_ok_put_if, ok_put, ok_one; done.
  - injection E as <- <-. last_step Hi; [auto with client| |].
    + destruct (lookup_active _ _); [destruct (0 <? _)|]; by constructor.
    + destruct (lookup_active _ _) as [s|] eqn:El; [|apply ok_idle].
      apply (is_returned_lookup _ _ _ _ _ I) in El.
      destruct (0 <? _); apply ok_one; try done; done_ok.
  - specialize (Ht s Hi ltac:(by left)). destruct (streams t !! s) as [y|]; [|done]. cbn [mbind option_bind] in E.
    destruct (InFlow.onData _ _) as [f ok]. destruct ok; injection E as <- <-; (last_step Hi; [by apply quiet_upd| |]).
    + destruct (Has _ _); by constructor.
    + destruct (Has _ _); apply ok_one; try done; done_ok.
    + by repeat constructor.
    + by apply ok_close; [|apply ok_idle].
  - specialize (Ht s Hi ltac:(by left)). destruct (streams t !! s) as [y|]; [|done]. cbn [mbind option_bind] in E.
    destruct (InFlow.onRead _ _) as [f w]. injection E as <- <-. last_step Hi; [by apply quiet_upd| |].
    + apply inert_put_if. by constructor.
    + apply pc_ok_put_if, ok_one; [done|done_ok].
  - specialize (Ht s Hi ltac:(by left)). injection E as <- <-. last_step Hi.
    + destruct d; auto with client.
    + by constructor.
    + apply ok_one; [done|done_ok].
  - specialize (Ht s Hi ltac:(by left)). injection E as <- <-. last_step Hi; [auto with client| |].
    + destruct (Has _ _); by repeat constructor.
    + destruct (Has _ _); [by apply ok_close; [|apply ok_idle]|apply ok_idle].
Qed.

Lemma handleRSTStream_inv x t' x' :
  xs !! i = Some x -> handleRSTStream x t = Some (t', x') -> cinv n t' (<[i := x']> xs).
Proof.
  intros Hi E. pose proof (tgt_ok x) as Ht. destruct x; cbn [handleRSTStream] in E; try done.
  - injection E as <- <-. last_step Hi; [auto with client| |].
    + destruct (lookup_active _ _); by constructor.
    + destruct (lookup_active _ _) as [s|] eqn:El; [|apply ok_idle].
      apply (is_returned_lookup _ _ _ _ _ I) in El. apply ok_one; [done|done_ok].
  - specialize (Ht s Hi ltac:(by left)). injection E as <- <-. last_step Hi.
    + destruct (_ =? _); auto with client.
    + by repeat constructor.
    + by apply ok_close; [|apply ok_idle].
Qed.

Lemma operateHeaders_inv x t' x' :
  xs !! i = Some x -> operateHeaders x t = Some (t', x') -> cinv n t' (<[i := x']> xs).
Proof.
  intros Hi E. pose proof (tgt_ok x) as Ht. destruct x; cbn [operateHeaders] in E; try done.
  - injection E as <- <-. last_step Hi; [auto with client| |].
    + destruct (lookup_active _ _); by constructor.
    + destruct (lookup_active _ _) as [s|] eqn:El; [|apply ok_idle].
      apply (is_returned_lookup _ _ _ _ _ I) in El. apply ok_one; [done|done_ok].
  - specialize (Ht s Hi ltac:(by left)). destruct (streams t !! s) as [y|]; [|done]. cbn [mbind option_bind] in E.
    destruct (_ && _).
    { injection E as <- <-. last_step Hi; [by apply quiet_upd|by repeat constructor|by apply ok_close; [|apply ok_idle]]. }
    destruct (decodeHeader _ _ _ _) as [d [e|]]; injection E as <- <-; (last_step Hi; [by apply quiet_upd|by repeat constructor|]).
    + by apply ok_close; [|apply ok_idle].
    + apply ok_one; [done|done_ok].
  - specialize (Ht s Hi ltac:(by left)). apply close_headerChan_cases in E as [-> Q]; [|by intros y]. last_step Hi.
    + done.
    + destruct endStream; by constructor.
    + destruct endStream; [apply ok_one; [done|done_ok]|apply ok_idle].
  - specialize (Ht s Hi ltac:(by left)). destruct (streams t !! s) as [y|]; [|done]. cbn [mbind option_bind] in E.
    destruct (bizStatusErr d) as [[biz d1]|];
      [|injection E as <- <-; last_step Hi; [auto with client|by constructor|ok1]].
    destruct (status_ d1) as [[st d2]|]; injection E as <- <-; (last_step Hi; [by apply quiet_upd|by repeat constructor|]).
    + by apply ok_close; [|apply ok_idle].
    + ok1.
Qed.

Lemma readClient_inv x c t' x' :
  xs !! i = Some x -> readClient x c t = Some (t', x') -> cinv n t' (<[i := x']> xs).
Proof.
  intros Hi E. pose proof (tgt_ok x) as Ht. destruct x; cbn [readClient] in E; try done.
  - specialize (Ht s Hi ltac:(by left)). destruct (streams t !! s) as [y|]; [|done]. cbn [mbind option_bind] in E.
    assert (G : ('(m, b) ← recv_get (buf y); Some (upd s (set_buf b) t, Load s m)) = Some (t', x') -> cinv n t' (<[i := x']> xs)).
    { destruct (recv_get (buf y)) as [[m b]|]; [|done]. cbn [mbind option_bind]. intros [= <- <-].
      last_step Hi; [by apply quiet_upd|by constructor|ok1]. }
    destruct c; try by apply G. clear G. destruct (s_ctx y) as [e|]; [|done]. cbn [mbind option_bind] in E.
    destruct (contextStatusAndErr e) as [[st r] er]. injection E as <- <-.
    last_step Hi; [auto with client|by repeat constructor|]. apply ok_close; [done|ok1].
  - specialize (Ht s Hi ltac:(by left)). destruct (streams t !! s) as [y|]; [|done]. cbn [mbind option_bind] in E.
    destruct (recv_get (buf y)) as [[m b]|]; [|done]. cbn [mbind option_bind] in E. injection E as <- <-.
    last_step Hi; [by apply quiet_upd|by constructor|ok1].
  - injection E as <- <-. last_step Hi; [by apply quiet_upd|by constructor|ok1].
Qed.

Lemma Tick_inv x t' x' :
  xs !! i = Some x -> Tick x t = Some (t', x') -> cinv n t' (<[i := x']> xs).
Proof.
  intros Hi E. pose proof (tgt_ok x) as Ht. destruct x; cbn [Tick] in E; try done.
  - injection E as <- <-. last_step Hi; [auto with client|by constructor|]. apply ok_one; [done|].
    split; [done|]. split; [|done]. cbn. unfold cancelled. apply Forall_forall. intros s [_ Hs]%list_elem_of_filter.
    pose proof (actives_returned _ _ _ I) as A. rewrite Forall_forall in A. by apply A.
  - injection E as <- <-. last_step Hi.
    + by destruct (_ && _).
    + by apply inert_close_all; constructor.
    + apply pc_ok_close_all; [|ok1]. rewrite <- list_fmap_compose. apply Forall_fmap, Forall_forall.
      intros s Hs. cbn. unfold Tick_args. destruct (contextStatusAndErr _) as [[? ?] ?]. cbn. by apply Ht.
Qed.

Lemma adjustWindow_inv s w t' x' :
  xs !! i = Some (AdjustWindow s w) -> adjustWindow s w t = Some (t', x') -> cinv n t' (<[i := x']> xs).
Proof.
  intros Hi E. unfold adjustWindow in E. destruct (streams t !! s) as [y|]; [|done]. cbn [mbind option_bind] in E.
  destruct (InFlow.maybeAdjust _ _) as [f v]. injection E as <- <-.
  last_step Hi; [by apply quiet_upd|by apply inert_put_if; constructor|by apply pc_ok_put_if, ok_one].
Qed.

Lemma updateWindow_inv s w t' x' :
  xs !! i = Some (UpdateWindow s w) -> updateWindow s w t = Some (t', x') -> cinv n t' (<[i := x']> xs).
Proof.
  intros Hi E. unfold updateWindow in E. destruct (streams t !! s) as [y|]; [|done]. cbn [mbind option_bind] in E.
  destruct (InFlow.onRead _ _) as [f v]. injection E as <- <-.
  last_step Hi; [by apply quiet_upd|by apply inert_put_if; constructor|by apply pc_ok_put_if, ok_one].
Qed.

Lemma Write_inv x c t' x' :
  xs !! i = Some x -> Write_step x c t = Some (t', x') -> cinv n t' (<[i := x']> xs).
Proof.
  intros Hi E. pose proof (at_ok x) as Hx. pose proof (tgt_ok x) as Ht. destruct x; cbn [Write_step] in E; try done.
  - specialize (Ht s Hi ltac:(by left)). destruct (streams t !! s) as [y|] eqn:Ey; [|done]. cbn [mbind option_bind] in E.
    destruct (decide (s_state y = streamActive)) as [Ea|].
    + injection E as <- <-. last_step Hi.
      * match goal with |- quiet t (if ?b then _ else _) => destruct b end; [|auto with client]. apply (quiet_upd_at s _ y Ey). unfold view, finished. cbn. by rewrite Ea.
      * destruct (_ || _); by constructor.
      * destruct (_ || _); ok1.
    + injection E as <- <-. last_step Hi; [auto with client|by constructor|ok1].
  - specialize (Ht s Hi ltac:(by left)). destruct (streams t !! s) as [y|]; [|done]. cbn [mbind option_bind] in E.
    injection E as <- <-. last_step Hi; [auto with client|by destruct (0 <? _); constructor|destruct (0 <? _); ok1].
  - specialize (Ht s Hi ltac:(by left)). destruct (streams t !! s) as [y|]; [|done]. cbn [mbind option_bind] in E.
    injection E as <- <-. last_step Hi; [by apply quiet_upd|by constructor|ok1].
  - specialize (Ht s Hi ltac:(by left)). destruct (streams t !! s) as [y|]; [|done]. cbn [mbind option_bind] in E.
    destruct c; try done.
    + destruct (wtoken y); [|done]. injection E as <- <-. last_step Hi; [by apply quiet_upd|by constructor|ok1].
    + destruct (done y); [|done]. injection E as <- <-. last_step Hi; [auto with client|by constructor|ok1].
  - specialize (Ht s Hi ltac:(by left)). destruct (streams t !! s) as [y|]; [|done]. cbn [mbind option_bind] in E. injection E as <- <-.
    last_step Hi; [auto with client|by constructor|ok1].
  - specialize (Hx Hi). apply pc_ok_last in Hx as (_ & _ & Hb); [|done]. pose proof (quiet_put it t Hb) as Q.
    destruct (put_item it t) as [e t1]. injection E as <- <-. last_step Hi; [done|by constructor|ok1].
Qed.

Lemma replenish_inv x t' x' :
  xs !! i = Some x -> replenish_step x t = Some (t', x') -> cinv n t' (<[i := x']> xs).
Proof.
  intros Hi E. pose proof (tgt_ok x) as Ht. destruct x; cbn [replenish_step] in E; try done.
  - specialize (Ht s Hi ltac:(by left)). destruct (streams t !! s) as [y|]; [|done]. cbn [mbind option_bind] in E.
    destruct (WriteQuota.replenish_add _ _) as [w signal]. injection E as <- <-. last_step Hi; [by apply quiet_upd| |].
    + destruct signal; by constructor.
    + destruct signal; ok1.
  - injection E as <- <-. last_step Hi; [by apply quiet_upd|by constructor|ok1].
Qed.

Lemma stream_error_inv sid code detail t' x' :
  xs !! i = Some (StreamErr sid code detail) -> stream_error sid code detail t = (t', x') -> cinv n t' (<[i := x']> xs).
Proof.
  intros Hi E. unfold stream_error in E. injection E as <- <-. last_step Hi; [auto with client| |].
  - destruct (lookup_active _ _); by repeat constructor.
  - destruct (lookup_active _ _) as [s|] eqn:El; [|apply ok_idle].
    apply (is_returned_lookup _ _ _ _ _ I) in El. by apply ok_close; [|apply ok_idle].
Qed.

Lemma put_inv it k :
  xs !! i = Some (Put it k) -> cinv n (snd (put_item it t)) (<[i := k]> xs).
Proof.
  intros Hi. pose proof (at_ok _ Hi) as Hx. apply (pc_ok_cons t _ k) in Hx as Hx'; [|done].
  destruct Hx' as ((_ & _ & Hb) & _). eapply quiet_moved_inv; [exact I|exact Hi|by apply quiet_put|]. by apply moved_pop.
Qed.

Lemma onGoAway_inv r k :
  xs !! i = Some (OnGoAway r k) -> cinv n (set_calls (calls t ++ [CallGoAway r]) t) (<[i := k]> xs).
Proof.
  intros Hi. pose proof (at_ok _ Hi) as Hx. eapply quiet_moved_inv; [exact I|exact Hi|by split|]. by apply moved_pop.
Qed.

Lemma execute_put_quiet f it :
  (forall t, benign (it t) = true) -> (forall u, quiet u (snd (f u))) -> quiet t (snd (execute_put f it t)).
Proof.
  intros Hb Hf. unfold execute_put. destruct (ControlBuffer.err (cb t)) eqn:Ee; [apply quiet_refl|].
  specialize (Hf t). destruct (f t) as [ok t1]. cbn in Hf.
  destruct (ControlBuffer.executeAndPut _ _ _) as [[r w] b] eqn:E. cbn.
  destruct (executeAndPut_cb _ _ _ _ _ _ E) as [E1 E2]. eapply quiet_trans; [exact Hf|]. split; try done. intros HF. cbn.
  destruct E2 as [->| ->]; [|done]. apply Forall_app. split; [done|]. constructor; [by apply item_ok_benign|done].
Qed.

Lemma quiet_foldr f ss u : (forall x, view (f x) = view x) -> quiet u (foldr (fun s => upd s f) u ss).
Proof. intros Hf. induction ss as [|s ss IH]; [apply quiet_refl|]. cbn. eapply quiet_trans; [exact IH|]. by apply quiet_upd. Qed.

Lemma updateFlowControl_inv x t' x' :
  xs !! i = Some x -> updateFlowControl x t = Some (t', x') -> cinv n t' (<[i := x']> xs).
Proof.
  intros Hi E. destruct x; cbn [updateFlowControl] in E; try done.
  - destruct (TrInFlow.newLimit _ _) as [f w]. injection E as <- <-. last_step Hi; [by split|by constructor|ok1].
  - injection E as <- <-. last_step Hi; [|by repeat constructor|by apply ok_put; [|apply ok_idle]].
    apply execute_put_quiet; [done|]. intros u. cbn [snd].
    match goal with |- quiet u (set_initialWindowSize _ ?m) => apply (quiet_trans u m) end; [by apply quiet_foldr|by split].
Qed.

Lemma closing_quiet_inv x t' x' :
  xs !! i = Some x -> closeStream_step x t = Some (t', x') ->
  match x with CLost _ _ | CWrite _ _ | CHeader _ _ => True | _ => False end -> cinv n t' (<[i := x']> xs).
Proof.
  intros Hi E Hs. pose proof (at_ok _ Hi) as Hx. destruct x; try done; cbn [closeStream_step] in E.
  - destruct (streams t !! s) as [y|]; [|done]. cbn [mbind option_bind] in E. destruct (done y); [|done]. injection E as <- <-.
    eapply quiet_moved_inv; [exact I|exact Hi|apply quiet_refl|]. by apply moved_pop.
  - injection E as <- <-. apply (pc_ok_cons t _ x) in Hx as Hh; [|done]. destruct Hh as [(_ & Ht & _) _].
    eapply quiet_moved_inv; [exact I|exact Hi| |].
    + apply quiet_upd. intros y. unfold close_write. destruct (c_err a), (store_err a); done.
    + by apply moved_head.
  - apply close_headerChan_cases in E as [-> Q]; [|by intros y].
    apply (pc_ok_cons t _ x) in Hx as Hh; [|done]. destruct Hh as [(_ & Ht & _) _].
    eapply quiet_moved_inv; [exact I|exact Hi|exact Q|]. by apply moved_head.
Qed.

Lemma cleanup_quiet_inv x t' x' :
  xs !! i = Some x -> cleanup_step x t = Some (t', x') ->
  match x with UWrite _ _ _ | UHeader _ _ => True | _ => False end -> cinv n t' (<[i := x']> xs).
Proof.
  intros Hi E Hs. pose proof (at_ok _ Hi) as Hx. destruct x; try done; cbn [cleanup_step] in E.
  - injection E as <- <-. apply (pc_ok_cons t _ x) in Hx as Hh; [|done]. destruct Hh as [(_ & Ht & Ho) _].
    eapply quiet_moved_inv; [exact I|exact Hi|by apply quiet_upd|]. by apply moved_head.
  - apply close_headerChan_cases in E as [-> Q]; [|done].
    eapply quiet_moved_inv; [exact I|exact Hi|exact Q|]. by apply moved_pop.
Qed.

Lemma close_quiet_inv x t' x' :
  xs !! i = Some x -> Close_step x t = Some (t', x') ->
  match x with KOnClose _ _ _ | KCancel _ _ _ => True | _ => False end -> cinv n t' (<[i := x']> xs).
Proof.
  intros Hi E Hs. pose proof (at_ok _ Hi) as Hx. destruct x; try done; cbn [Close_step] in E; injection E as <- <-.
  - apply (pc_ok_cons t _ x) in Hx as Hh; [|done]. destruct Hh as [(_ & Ht & _) _].
    eapply quiet_moved_inv; [exact I|exact Hi|by split|]. by apply moved_head.
  - apply (pc_ok_cons t _ x) in Hx as Hh; [|done]. destruct Hh as [(_ & Ht & _) Hk].
    eapply quiet_moved_inv; [exact I|exact Hi|by split|]. cbn in Ht.
    assert (T : forall f, (forall a k, f (CSwap a k) = 0) -> f (KCancel e ss x) = 0 ->
      total f (close_all (Close_args e <$> ss) x) = total f (KCancel e ss x)).
    { intros f H1 H2. rewrite total_close_all by done. rewrite (total_frame f (KCancel e ss x) x) by done. lia. }
    split.
    + intros s. by apply T.
    + intros s. by rewrite T.
    + apply pc_ok_close_all; [|done]. by rewrite <- list_fmap_compose, list_fmap_id.
    + intros s _ Hp. apply (pend_cons s _ x) in Hp; [|done]. apply pend_close_all.
      rewrite <- list_fmap_compose, list_fmap_id. done.
    + intros _. by apply T.
    + intros _ _. by rewrite T.
    + intros _ _ _. by rewrite T.
    + intros HE. unfold on_current in *. cbn. right. clear -HE. induction ss as [|s ss IH]; [done|].
      cbn in HE. apply Exists_cons in HE as [[u Hu]|HE]; [done|by apply IH].
Qed.

(** ** The swap and the closing of a stream *)

Lemma has_upd f s g u y :
  streams t !! s = Some y -> has f u (upd s g t) = if decide (u = s) then f (g y) else has f u t.
Proof.
  intros Hy. unfold has. cbn. destruct (decide (u = s)) as [->|]; [by rewrite list_lookup_alter_eq, Hy|by rewrite list_lookup_alter_ne].
Qed.

Lemma lookup_upd s g u z y :
  streams t !! s = Some y -> streams (upd s g t) !! u = Some z ->
  (u = s /\ z = g y) \/ (u <> s /\ streams t !! u = Some z).
Proof.
  intros Hy Hz. cbn in Hz. destruct (decide (u = s)) as [->|].
  - rewrite list_lookup_alter_eq, Hy in Hz. left. split; [done|]. by injection Hz.
  - rewrite list_lookup_alter_ne in Hz by done. by right.
Qed.

Lemma live_upd s g y :
  streams t !! s = Some y ->
  live (upd s g t) = live t - b2z (returned y && negb (finished y)) + b2z (returned (g y) && negb (finished (g y))).
Proof.
  intros Hy. unfold live. cbn. rewrite <- (sumZ_insert (fun x => b2z (returned x && negb (finished x))) _ _ _ (g y) Hy).
  do 2 f_equal. apply list_eq. intros j. destruct (decide (j = s)) as [->|].
  - rewrite list_lookup_alter_eq, Hy. cbn. symmetry. apply list_lookup_insert_eq. by eapply lookup_lt_Some.
  - by rewrite list_lookup_alter_ne, list_lookup_insert_ne.
Qed.

(** A stream changes in what the invariant sees, but keeps its id and its caller. *)
Lemma stream_step s g y x x' :
  xs !! i = Some x -> streams t !! s = Some y -> id (g y) = id y -> returned (g y) = returned y ->
  (finished y = true -> finished (g y) = true) ->
  (forall u, total (h_own u) x' + (if decide (u = s) then b2z (done (g y)) - b2z (finished (g y)) else 0)
             = total (h_own u) x + (if decide (u = s) then b2z (done y) - b2z (finished y) else 0)) ->
  (forall u, total (h_new u) x' <= total (h_new u) x) -> pc_ok (upd s g t) x' ->
  (forall u, is_done (upd s g t) u = false -> pend u x -> pend u x') ->
  (Open t -> total h_pre x' + b2z (returned y && negb (finished (g y))) = total h_pre x + b2z (returned y && negb (finished y))) ->
  (Open t -> total h_wait x' = total h_wait x) -> (Open t -> total h_retry x' = total h_retry x) ->
  (Open t -> on_current t x' -> on_current t x) -> (Open t -> returned y = false -> finished (g y) = false) ->
  headed (g y) = headed y ->
  cinv n (upd s g t) (<[i := x']> xs).
Proof.
  intros Hi Hy Eid Ert Hfin Hown Hnew Hok Hpend Hpre Hwait Hretry Hcur Hfresh Hhd. destruct I as [I1 I2 I3 I4 I5 I6 I7 I8 I9 I10 I11 I12 I13].
  assert (G : grows t (upd s g t)).
  { split; try done; intros u; unfold is_returned, is_done; rewrite (has_upd _ _ _ _ _ Hy); destruct (decide (u = s)) as [->|]; try done;
      unfold has; rewrite Hy; [by rewrite Ert|done]. }
  eapply (transport_step n n t _ xs i x x' I); try done.
  - intros u. specialize (Hown u). unfold is_done. rewrite !(has_upd _ _ _ _ _ Hy). destruct (decide (u = s)) as [->|]; [|lia].
    unfold has. rewrite Hy. lia.
  - intros u. specialize (Hnew u). unfold is_returned. rewrite (has_upd _ _ _ _ _ Hy). destruct (decide (u = s)) as [->|]; [|lia].
    unfold has. rewrite Hy, Ert. lia.
  - cbn. by rewrite length_alter.
  - eapply Forall_impl; [exact I4|]. intros it. by apply grows_item_ok.
  - intros u z Hz. destruct (lookup_upd _ _ _ _ _ Hy Hz) as [[-> ->]|[_ Hz']]; [rewrite Eid, Ert; by eapply I6|by eapply I6].
  - intros u u' z z' Hz Hz'. destruct (lookup_upd _ _ _ _ _ Hy Hz) as [[-> ->]|[_ Hz1]];
      destruct (lookup_upd _ _ _ _ _ Hy Hz') as [[-> ->]|[_ Hz1']]; rewrite ?Eid, ?Ert; by eapply I7.
  - change (activeStreams (upd s g t)) with (activeStreams t). change (t_state (upd s g t)) with (t_state t).
    assert (HF : forall u z, streams (upd s g t) !! u = Some z -> returned z = true -> finished z = false ->
      exists z0, streams t !! u = Some z0 /\ returned z0 = true /\ finished z0 = false /\ id z0 = id z).
    { intros u z Hz Hr Hf. destruct (lookup_upd _ _ _ _ _ Hy Hz) as [[-> ->]|[_ Hz1]]; [|eauto].
      exists y. rewrite <- Ert. repeat split; try done. destruct (finished y) eqn:E; [|done]. by rewrite Hfin in Hf. }
    destruct (activeStreams t) as [m|].
    + destruct I8 as (A1 & A2 & A3). split; [done|]. split.
      * intros k u Hk. destruct (A2 _ _ Hk) as (z & Hz & Hr & <-). cbn. destruct (decide (u = s)) as [->|].
        { rewrite Hy in Hz. injection Hz as <-. exists (g y). rewrite list_lookup_alter_eq, Hy, Ert, Eid. done. }
        exists z. by rewrite list_lookup_alter_ne.
      * intros u z Hz Hr Hf. destruct (HF _ _ Hz Hr Hf) as (z0 & H1 & H2 & H3 & <-). by apply A3.
    + destruct I8 as (A1 & A2). split; [done|]. intros u z Hz Hr Hf. destruct (HF _ _ Hz Hr Hf) as (z0 & H1 & H2 & H3 & _).
      eapply Exists_insert; [exact Hi| |by eapply A2]. apply Hpend. unfold is_done, has. by rewrite Hz.
  - intros HO. rewrite (live_upd _ _ _ Hy), Ert. specialize (Hpre HO). cbn. lia.
  - intros HO HN. split; [done|]. rewrite (Hwait HO). cbn. pose proof (I10 HO HN). lia.
  - intros HO HN Hq HE. rewrite (sumZ_insert _ _ _ _ _ Hi), (Hretry HO).
    destruct (I11 HO HN Hq) as [|]; [|by left|right; lia].
    destruct (Exists_insert_inv _ _ _ _ _ Hi HE) as [Hc|]; [|done].
    apply Exists_exists. exists x. split; [by eapply list_elem_of_lookup_2|by apply Hcur].
  - intros u z HO Hz. destruct (lookup_upd _ _ _ _ _ Hy Hz) as [[-> ->]|[_ Hz1]]; [rewrite Ert; by apply Hfresh|by eapply I12].
  - intros u z Hz. destruct (lookup_upd _ _ _ _ _ Hy Hz) as [[-> ->]|[_ Hz1]]; [rewrite Hhd; by eapply I13|by eapply I13].
Qed.

Lemma total_nonneg f x : (forall y, 0 <= f y) -> 0 <= total f x.
Proof. intros Hf. apply sumZ_nonneg, Forall_fmap, Forall_forall. intros y _. apply Hf. Qed.

Lemma h_own_nonneg s y : 0 <= h_own s y.
Proof. destruct y; cbn; try case_bool_decide; cbn; lia. Qed.

Lemma total_at f x : (forall y, 0 <= f y) -> xs !! i = Some x -> total f x <= sumZ (total f <$> xs).
Proof.
  intros Hf Hi. rewrite <- (take_drop_middle xs i x Hi), fmap_app, fmap_cons, sumZ_app, sumZ_cons.
  assert (N : forall l, 0 <= sumZ (total f <$> l)).
  { intros l. apply sumZ_nonneg, Forall_fmap, Forall_forall. intros y _. by apply total_nonneg. }
  pose proof (N (take i xs)). pose proof (N (drop (S i) xs)). lia.
Qed.

(** Who has won the swap of a stream finds it done and its channel open. *)
Lemma own_at s x :
  xs !! i = Some x -> 1 <= total (h_own s) x ->
  total (h_own s) x = 1 /\ exists y, streams t !! s = Some y /\ finished y = true /\ done y = false.
Proof.
  intros Hi Ho. pose proof (v_own _ _ _ I s) as V. pose proof (total_at (h_own s) x (h_own_nonneg s) Hi) as T.
  unfold is_done, has in V. destruct (streams t !! s) as [y|] eqn:Hy; [|cbn in V; lia].
  destruct (finished y) eqn:Ef, (done y) eqn:Ed; cbn in V; try lia. split; [lia|]. eauto.
Qed.

Lemma grows_upd s g y :
  streams t !! s = Some y -> returned (g y) = returned y -> (finished y = true -> finished (g y) = true) -> grows t (upd s g t).
Proof.
  intros Hy Ert Hfin. split; try done; intros u; unfold is_returned, is_done; rewrite (has_upd _ _ _ _ _ Hy);
    destruct (decide (u = s)) as [->|]; try done; unfold has; rewrite Hy; [by rewrite Ert|done].
Qed.

Lemma finished_swap y : finished (set_s_state streamDone y) = true.
Proof. done. Qed.

(** The swap to done. *)
Lemma closeSwap_inv a k t' x' :
  xs !! i = Some (CSwap a k) -> closeStream_step (CSwap a k) t = Some (t', x') -> cinv n t' (<[i := x']> xs).
Proof.
  intros Hi E. pose proof (at_ok _ Hi) as Hx. pose proof (tgt_ok _ (c_s a) Hi ltac:(by left)) as Ht. cbn [closeStream_step] in E.
  destruct (streams t !! c_s a) as [y|] eqn:Hy; [|done]. cbn [mbind option_bind] in E. injection E as <- <-.
  assert (Hr : returned y = true) by (unfold is_returned, has in Ht; by rewrite Hy in Ht).
  apply (pc_ok_cons t _ k) in Hx as [_ Hk]; [|done].
  destruct (decide (s_state y = streamDone)) as [Ed|Ed].
  - assert (Hf : finished y = true) by (unfold finished; by rewrite Ed).
    eapply quiet_moved_inv; [exact I|exact Hi| |].
    + apply (quiet_upd_at _ _ y Hy). unfold view. by rewrite Hf.
    + apply moved_head; try done.
      * by apply at_ok.
      * split; [done|]. split; [by constructor|]. unfold is_done, has. by rewrite Hy.
      * intros u Hu Hm. apply list_elem_of_singleton in Hm as ->. unfold is_done, has in Hu. by rewrite Hy, Hf in Hu.
  - assert (Hf : finished y = false) by (unfold finished; by rewrite bool_decide_false).
    assert (T : forall f, total f (CWrite a k) = f (CWrite a k) + total f k) by (intros f; by apply total_frame).
    assert (T' : forall f, total f (CSwap a k) = f (CSwap a k) + total f k) by (intros f; by apply total_frame).
    eapply (stream_step _ _ y (CSwap a k)); try done.
    + intros u. rewrite T, T', finished_swap. cbn. rewrite Hf. cbn. case_bool_decide; case_decide; try congruence; cbn; lia.
    + apply (pc_ok_cons _ _ k); [done|]. split.
      * split; [done|]. split; [|done]. constructor; [|done]. unfold is_returned. rewrite (has_upd _ _ _ _ _ Hy).
        by rewrite decide_True.
      * eapply grows_pc_ok; [|exact Hk]. by eapply grows_upd.
    + intros u Hu Hp. apply (pend_cons u _ k) in Hp; [|done]. apply (pend_cons u _ k); [done|]. destruct Hp as [Hp|]; [|by right].
      apply list_elem_of_singleton in Hp as ->. unfold is_done in Hu. rewrite (has_upd _ _ _ _ _ Hy), decide_True in Hu; done.
    + intros _. rewrite T, T', Hr, Hf, finished_swap. cbn. lia.
    + intros _ HE. unfold on_current in *. cbn in HE |- *. apply Exists_cons in HE as [[u Hu]|HE]; [done|by right].
    + intros _ Hn. congruence.
Qed.

Lemma cleanupSwap_inv s e k t' x' :
  xs !! i = Some (USwap s e k) -> cleanup_step (USwap s e k) t = Some (t', x') -> cinv n t' (<[i := x']> xs).
Proof.
  intros Hi E. pose proof (at_ok _ Hi) as Hx. cbn [cleanup_step] in E.
  destruct (streams t !! s) as [y|] eqn:Hy; [|done]. cbn [mbind option_bind] in E. injection E as <- <-.
  destruct (decide (s_state y = streamDone)) as [Ed|Ed].
  - assert (Hf : finished y = true) by (unfold finished; by rewrite Ed).
    eapply quiet_moved_inv; [exact I|exact Hi| |].
    + apply (quiet_upd_at _ _ y Hy). unfold view. by rewrite Hf.
    + by apply moved_pop.
  - assert (Hf : finished y = false) by (unfold finished; by rewrite bool_decide_false).
    apply (pc_ok_cons t _ k) in Hx as [(_ & Hr & HO) Hk]; [|done].
    assert (T : forall f, total f (UWrite s e k) = f (UWrite s e k) + total f k) by (intros f; by apply total_frame).
    assert (T' : forall f, total f (USwap s e k) = f (USwap s e k) + total f k) by (intros f; by apply total_frame).
    eapply (stream_step _ _ y (USwap s e k)); try done.
    + intros u. rewrite T, T', finished_swap. cbn. rewrite Hf. cbn. case_bool_decide; case_decide; try congruence; cbn; lia.
    + apply (pc_ok_cons _ _ k); [done|]. split.
      * split; [done|]. split; [|done]. eapply Forall_impl; [exact Hr|]. intros u. by apply (grows_upd _ _ y).
      * eapply grows_pc_ok; [|exact Hk]. by eapply grows_upd.
    + intros u _ Hp. apply (pend_cons u _ k) in Hp; [|done]. apply (pend_cons u _ k); done.
Qed.

(** The closing of the channel done. *)
Lemma closeDone_inv a k t' x' :
  xs !! i = Some (CDone a k) -> closeStream_step (CDone a k) t = Some (t', x') -> cinv n t' (<[i := x']> xs).
Proof.
  intros Hi E. pose proof (at_ok _ Hi) as Hx. apply (pc_ok_cons t _ k) in Hx as [_ Hk]; [|done].
  assert (T : forall f, total f (CDone a k) = f (CDone a k) + total f k) by (intros f; by apply total_frame).
  destruct (own_at (c_s a) _ Hi) as (Ho & y & Hy & Hf & Hd).
  { rewrite T. cbn. rewrite bool_decide_true by done. pose proof (total_nonneg (h_own (c_s a)) k (h_own_nonneg _)). cbn. lia. }
  cbn [closeStream_step] in E. rewrite Hy in E. cbn [mbind option_bind] in E. rewrite Hd in E. injection E as <- <-.
  eapply (stream_step _ _ y (CDone a k)); try done.
  - intros u. rewrite T. cbn. rewrite Hd. change (finished (set_done true y)) with (finished y). rewrite Hf.
    case_bool_decide; case_decide; try congruence; cbn; lia.
  - eapply grows_pc_ok; [|exact Hk]. by eapply grows_upd.
  - intros u _ Hp. apply (pend_cons u _ k) in Hp; [|done]. destruct Hp as [Hp|]; [by apply not_elem_of_nil in Hp|done].
  - intros _ HE. unfold on_current in *. cbn. by right.
  - intros HO Hn. exact (v_fresh _ _ _ I _ _ HO Hy Hn).
Qed.

Lemma cleanupDone_inv s k t' x' :
  xs !! i = Some (UDone s k) -> cleanup_step (UDone s k) t = Some (t', x') -> cinv n t' (<[i := x']> xs).
Proof.
  intros Hi E. pose proof (at_ok _ Hi) as Hx. apply (pc_ok_cons t _ k) in Hx as [(_ & Hr & HO) Hk]; [|done].
  assert (T : forall f, total f (UDone s k) = f (UDone s k) + total f k) by (intros f; by apply total_frame).
  assert (T' : forall f, total f (UHeader s k) = f (UHeader s k) + total f k) by (intros f; by apply total_frame).
  destruct (own_at s _ Hi) as (Ho & y & Hy & Hf & Hd).
  { rewrite T. cbn. rewrite bool_decide_true by done. pose proof (total_nonneg (h_own s) k (h_own_nonneg _)). cbn. lia. }
  cbn [cleanup_step] in E. rewrite Hy in E. cbn [mbind option_bind] in E. rewrite Hd in E. injection E as <- <-.
  eapply (stream_step _ _ y (UDone s k)); try done.
  - intros u. rewrite T, T'. cbn. rewrite Hd. change (finished (set_done true y)) with (finished y). rewrite Hf.
    case_bool_decide; case_decide; try congruence; cbn; lia.
  - apply (pc_ok_cons _ _ k); [done|]. split.
    + split; [done|]. split; [|done]. eapply Forall_impl; [exact Hr|]. intros u. by apply (grows_upd _ _ y).
    + eapply grows_pc_ok; [|exact Hk]. by eapply grows_upd.
  - intros u _ Hp. apply (pend_cons u _ k) in Hp; [|done]. apply (pend_cons u _ k); done.
Qed.

(** ** The quota *)

Lemma h_wait_nonneg y : 0 <= h_wait y.
Proof. destruct y; cbn; try lia. destruct firstTry; lia. Qed.

Lemma h_retry_nonneg y : 0 <= h_retry y.
Proof. destruct y; cbn; try lia. destruct firstTry; lia. Qed.

Lemma current_waits u ys : Exists (on_current u) ys -> 1 <= sumZ (total h_wait <$> ys).
Proof.
  assert (N : forall l, 0 <= sumZ (total h_wait <$> l)).
  { intros l. apply sumZ_nonneg, Forall_fmap, Forall_forall. intros y _. apply total_nonneg, h_wait_nonneg. }
  assert (N' : forall l, 0 <= sumZ (h_wait <$> l)).
  { intros l. apply sumZ_nonneg, Forall_fmap, Forall_forall. intros y _. apply h_wait_nonneg. }
  assert (C : forall l, Exists (fun y => exists s, y = NWait s (Some (quotaChan u))) l -> 1 <= sumZ (h_wait <$> l)).
  { intros l. induction 1 as [y l [s ->]|y l _ IH]; rewrite fmap_cons, sumZ_cons.
    - specialize (N' l). cbn [h_wait]. lia.
    - pose proof (h_wait_nonneg y). lia. }
  induction 1 as [y l Hy|y l _ IH]; rewrite fmap_cons, sumZ_cons.
  - specialize (C _ Hy). specialize (N l). change (total h_wait y) with (sumZ (h_wait <$> conts y)). lia.
  - pose proof (total_nonneg h_wait y h_wait_nonneg). lia.
Qed.

Lemma offer_token u : 0 < streamQuota u -> 0 < waitingStreams u -> quotaToken (offer_quota u) = true.
Proof. intros H1 H2. unfold offer_quota. by rewrite (proj2 (Z.ltb_lt _ _) H1), (proj2 (Z.ltb_lt _ _) H2). Qed.

(** Nothing else of the transport depends on the token. *)
Lemma offer_quota_eq u : exists b, offer_quota u = set_quotaToken b u /\ (b = true \/ b = quotaToken u).
Proof.
  unfold offer_quota. destruct (_ && _); [exists true; auto|]. exists (quotaToken u). split; [by destruct u|auto].
Qed.

Lemma execute_put_open f it r t' :
  ControlBuffer.err (cb t) = None -> execute_put f it t = (r, t') ->
  exists ok t1 b, f t = (ok, t1) /\ t' = set_cb b t1 /\ (cb t1 = cb t -> ControlBuffer.err b = None
    /\ r = (ok, None)
    /\ ControlBuffer.items b = if ok then ControlBuffer.items (cb t) ++ [it t1] else ControlBuffer.items (cb t)).
Proof.
  intros He E. unfold execute_put in E. rewrite He in E. destruct (f t) as [ok t1]. exists ok, t1.
  destruct (ControlBuffer.executeAndPut _ _ _) as [[r1 w] b] eqn:Ep. injection E as <- <-. exists b.
  split; [done|]. split; [done|]. intros Ec. rewrite Ec in Ep. unfold ControlBuffer.executeAndPut in Ep. rewrite He in Ep.
  cbn [ControlBuffer.refused] in Ep. destruct ok; cbn [negb] in Ep; [|by injection Ep as <- <- <-].
  destruct (isTransportResponseFrame _); [|by injection Ep as <- <- <-].
  by destruct (_ =? _); injection Ep as <- <- <-.
Qed.

(** The map of streams is untouched. *)
Lemma active_same t' x x' :
  xs !! i = Some x -> activeStreams t' = activeStreams t -> (t_state t' = closing <-> t_state t = closing) ->
  (forall u, pend u x -> pend u x') ->
  match activeStreams t' with
  | Some m => t_state t' <> closing /\ exists m0, activeStreams t = Some m0
      /\ (forall k s, m !! k = Some s -> m0 !! k = Some s)
      /\ (forall s y, streams t !! s = Some y -> returned y = true -> finished y = false -> m0 !! id y = Some s -> m !! id y = Some s)
  | None => t_state t' = closing
      /\ (forall s y, streams t !! s = Some y -> returned y = true -> finished y = false -> Exists (pend s) (<[i := x']> xs))
  end.
Proof.
  intros Hi E1 E2 Hpend. rewrite E1. pose proof (v_active _ _ _ I) as A. destruct (activeStreams t) as [m|].
  - destruct A as (A1 & _). split; [by rewrite E2|]. exists m. auto.
  - destruct A as (A1 & A2). split; [by rewrite E2|]. intros u z Hz Hr Hfz. eapply Exists_insert; [exact Hi|apply Hpend|eauto].
Qed.

Lemma closePut_inv a k t' x' :
  xs !! i = Some (CPut a k) -> closeStream_step (CPut a k) t = Some (t', x') -> cinv n t' (<[i := x']> xs).
Proof.
  intros Hi E. pose proof (at_ok _ Hi) as Hx. pose proof (tgt_ok _ (c_s a) Hi ltac:(by left)) as Ht.
  apply (pc_ok_cons t _ k) in Hx as [_ Hk]; [|done].
  assert (T : forall f, total f (CPut a k) = f (CPut a k) + total f k) by (intros f; by apply total_frame).
  assert (T' : forall f, total f (CDone a k) = f (CDone a k) + total f k) by (intros f; by apply total_frame).
  destruct (own_at (c_s a) _ Hi) as (_ & y & Hy & Hf & Hd).
  { rewrite T. cbn. rewrite bool_decide_true by done. pose proof (total_nonneg (h_own (c_s a)) k (h_own_nonneg _)). cbn. lia. }
  assert (Hpend : forall u, pend u (CPut a k) -> pend u (CDone a k)).
  { intros u Hp. apply (pend_cons u _ k) in Hp; [|done]. by apply (pend_cons u _ k). }
  cbn [closeStream_step] in E. injection E as <- <-.
  destruct (ControlBuffer.err (cb t)) as [e|] eqn:He.
  { unfold execute_put. rewrite He. cbn. assert (NO : ~ Open t) by (intros [_ HO]; congruence).
    eapply moved_inv; [exact I|exact Hi|]. split; try done.
    - apply (pc_ok_cons t _ k); [done|]. split; [|done]. by done_ok.
    - intros u _. apply Hpend.
    - intros HE. unfold on_current in *. cbn in HE |- *. apply Exists_cons in HE as [[u Hu]|HE]; [done|by right]. }
  destruct (execute_put addBackStreamQuota (cleanup_item a) t) as [r t1] eqn:Ex.
  destruct (execute_put_open _ _ _ _ He Ex) as (ok & t2 & b & E2 & -> & Hb). cbn [snd]. clear Ex.
  unfold addBackStreamQuota in E2. injection E2 as <- E2.
  destruct (offer_quota_eq (set_streamQuota (streamQuota t + 1) t)) as (tok & Eo & Htok). rewrite Eo in E2. subst t2.
  destruct (Hb eq_refl) as (Eb & -> & Ei). clear Hb.
  eapply (step_same_streams n n t _ xs i (CPut a k)); try done.
  - intros [HO _]. by split.
  - apply (pc_ok_cons _ _ k); [done|]. split; [by done_ok|]. eapply grows_pc_ok; [|exact Hk]. split; try done. intros [HO _]. by split.
  - cbn. rewrite Ei. apply Forall_app. split; [apply (v_items _ _ _ I)|]. constructor; [|done]. cbn.
    rewrite Nat2Z.id. split; [unfold is_done, has; by rewrite Hy|done].
  - by eapply active_same.
  - intros _. rewrite T, T'. cbn. lia.
  - intros [HO _] HN. split; [done|]. rewrite T, T'. cbn. split; [lia|]. eapply v_waiting; [exact I|by split|done].
  - intros [HO _] HN Hq HE. left. cbn in Hq, HN |- *.
    assert (HO' : Open t) by (by split). pose proof (v_waiting _ _ _ I HO' HN) as W.
    apply current_waits in HE. rewrite (sumZ_insert _ _ _ _ _ Hi), T, T' in HE. cbn in HE.
    pose proof (offer_token (set_streamQuota (streamQuota t + 1) t) ltac:(cbn; lia) ltac:(cbn; lia)) as Ht'.
    rewrite Eo in Ht'. exact Ht'.
Qed.

(** ** The end of the transport *)

Lemma pend_inert x x' u : conts x = [x] -> h_pend x = [] -> pend u x -> pend u x'.
Proof. intros Hc Hp. rewrite pend_last by done. rewrite Hp. intros He. by apply not_elem_of_nil in He. Qed.

Lemma kclose_inv e k t' x' :
  xs !! i = Some (KClose e k) -> Close_step (KClose e k) t = Some (t', x') -> cinv n t' (<[i := x']> xs).
Proof.
  intros Hi E. pose proof (at_ok _ Hi) as Hx. cbn [Close_step] in E.
  destruct (decide (t_state t = closing)) as [Ec|Ec]; injection E as <- <-.
  { eapply quiet_moved_inv; [exact I|exact Hi|apply quiet_refl|]. by apply moved_pop. }
  apply (pc_ok_cons t _ k) in Hx as [_ Hk]; [|done].
  assert (NO : ~ Open (set_activeStreams None (set_t_state closing t))) by (intros [HO _]; done).
  assert (G : grows t (set_activeStreams None (set_t_state closing t))) by (split; try done; intros HO; by destruct NO).
  eapply (step_same_streams n n t _ xs i (KClose e k)); try done.
  - apply (pc_ok_cons _ _ k); [done|]. split; [|by eapply grows_pc_ok]. split; [done|]. split; [|done]. cbn [h_tgt].
    eapply Forall_impl; [exact (actives_returned _ _ _ I)|]. intros u. apply (g_returned _ _ G).
  - apply (v_items _ _ _ I).
  - cbn [activeStreams set_activeStreams t_state set_t_state]. split; [done|]. intros s y Hy Hr Hf.
    pose proof (v_active _ _ _ I) as A. destruct (activeStreams t) as [m|] eqn:Em; [|by destruct A].
    destruct A as (_ & _ & A3). apply Exists_exists. eexists. split.
    { apply list_elem_of_lookup. exists i. apply list_lookup_insert_eq. by eapply lookup_lt_Some. }
    apply (pend_cons s _ k); [done|]. left. cbn [h_pend]. unfold actives. rewrite Em. apply list_elem_of_fmap.
    exists (id y, s). split; [done|]. by apply elem_of_map_to_list, A3.
Qed.

(** The buffer is finished: its queued headers are cleaned up. *)
Lemma finish_inv e e0 e' x k orphans b :
  xs !! i = Some x -> ControlBuffer.finish e (cb t) = (e0, orphans, b) ->
  (forall f, (forall y, h_inert y = true -> f y = 0) -> total f x = total f k) ->
  pc_ok t k -> (forall u, pend u x -> pend u k) ->
  cinv n (set_cb b t) (<[i := cleanup_all (Z.to_nat <$> orphans) e' k]> xs).
Proof.
  intros Hi Ef HT Hk Hpend. unfold ControlBuffer.finish in Ef.
  assert (Hb : (exists e1, ControlBuffer.err b = Some e1)
    /\ (ControlBuffer.items b = [] \/ ControlBuffer.items b = ControlBuffer.items (cb t))).
  { destruct (ControlBuffer.err (cb t)) eqn:He; injection Ef as <- <- <-; cbn; eauto. }
  assert (Ho : Forall (fun s => is_returned t s = true) (Z.to_nat <$> orphans)).
  { destruct (ControlBuffer.err (cb t)); injection Ef as <- <- <-; [constructor|]. apply Forall_fmap, Forall_forall. intros u Hu.
    apply list_elem_of_omap in Hu as (it & Hit & Hu). pose proof (v_items _ _ _ I) as F. rewrite Forall_forall in F.
    specialize (F _ Hit). destruct it; try done. cbn in F, Hu. by rewrite Hu in F. }
  clear Ef. destruct Hb as [[e1 Eb] Eit].
  assert (NO : ~ Open (set_cb b t)) by (intros [_ HO]; cbn in HO; congruence).
  assert (G : grows t (set_cb b t)) by (split; try done; intros HO; by destruct NO).
  assert (TC : forall f, (forall y, h_inert y = true -> f y = 0) -> total f (cleanup_all (Z.to_nat <$> orphans) e' k) = total f x).
  { intros f Hf. rewrite total_cleanup_all by (intros; by apply Hf). by rewrite HT. }
  eapply (step_same_streams n n t _ xs i x); try done.
  - intros u. apply TC. by intros [].
  - intros u. rewrite TC; [done|]. by intros [].
  - apply pc_ok_cleanup_all; [done|done|]. by eapply grows_pc_ok.
  - cbn. destruct Eit as [->| ->]; [constructor|apply (v_items _ _ _ I)].
  - eapply active_same; try done. intros u Hu. by apply pend_cleanup_all, Hpend.
Qed.

Lemma kfinish_inv e ss k t' x' :
  xs !! i = Some (KFinish e ss k) -> Close_step (KFinish e ss k) t = Some (t', x') -> cinv n t' (<[i := x']> xs).
Proof.
  intros Hi E. pose proof (at_ok _ Hi) as Hx. apply (pc_ok_cons t _ k) in Hx as [(_ & Ht & _) Hk]; [|done]. cbn [Close_step] in E.
  destruct (ControlBuffer.finish e (cb t)) as [[e0 orphans] b] eqn:Ef. injection E as <- <-.
  eapply (finish_inv e e0 _ (KFinish e ss k)); try done.
  - intros f Hf. rewrite (total_frame f (KFinish e ss k) k), (total_frame f (KCancel e ss k) k) by done. by rewrite !Hf.
  - by apply (pc_ok_cons t _ k).
  - intros u Hp. apply (pend_cons u _ k) in Hp; [|done]. by apply (pend_cons u _ k).
Qed.

(** A step out of reach of the counts that leaves [Open]. *)
Lemma leaving_inv x t' x' :
  xs !! i = Some x -> conts x = [x] -> h_inert x = true -> h_pend x = [] ->
  view <$> streams t' = view <$> streams t -> nextID t' = nextID t -> activeStreams t' = activeStreams t ->
  t_state t' = draining -> t_state t <> closing -> (quotaChan t <= quotaChan t')%nat -> cb t' = cb t ->
  inert x' -> pc_ok t x' -> cinv n t' (<[i := x']> xs).
Proof.
  intros Hi Hc Hx Hp Ev En Ea Es Es' Eq Ecb Hx' Hok.
  assert (NO : ~ Open t') by (intros [HO _]; congruence).
  assert (IX : inert x) by (unfold inert; rewrite Hc; by constructor).
  assert (G : grows t t').
  { split; [| |intros HO; by destruct NO|done]; intros s; destruct (views_has _ _ s Ev) as (E1 & E2 & _); congruence. }
  eapply (step_same_streams n n t _ xs i x); try done; try (intros HO; by destruct NO).
  - intros u. rewrite (inert_total _ x), (inert_total _ x'); try done; by intros [].
  - intros u. rewrite (inert_total _ x), (inert_total _ x'); try done; by intros [].
  - by eapply grows_pc_ok.
  - rewrite Ecb. apply (v_items _ _ _ I).
  - eapply active_same; try done; [rewrite Es; split; congruence|]. intros u. by apply pend_inert.
Qed.

Lemma gclose_inv : xs !! i = Some GClose -> cinv n (GracefulClose t).1 (<[i := (GracefulClose t).2]> xs).
Proof.
  intros Hi. unfold GracefulClose.
  assert (F : pc_ok t (Finished RNone)) by (ok1).
  destruct (t_state t) eqn:Es; cbn [fst snd].
  - eapply (leaving_inv GClose); try done; try congruence.
    + destruct (actives t); by repeat constructor.
    + destruct (actives t); [|by apply ok_put]. by apply (pc_ok_cons t _ (Finished RNone)).
  - last_step Hi; [apply quiet_refl|by constructor|done].
  - last_step Hi; [apply quiet_refl|by constructor|done].
Qed.

(** The close of goAway never finds it closed. *)
Lemma close_goAway_ok u :
  (if negb (goAway_ u) then close_goAway u else Some u) = Some (if negb (goAway_ u) then set_goAway_ true u else u).
Proof. unfold close_goAway. by destruct (goAway_ u). Qed.

Lemma goaway_inv id code debug :
  xs !! i = Some (GoAwayLock id code debug) ->
  cinv n (handleGoAway id code debug t).1 (<[i := (handleGoAway id code debug t).2]> xs).
Proof.
  intros Hi. unfold handleGoAway. pose proof ok_idle as OI.
  destruct (decide (t_state t = closing)) as [|Ec]; [last_step Hi; [apply quiet_refl|by constructor|done]|].
  assert (OK : forall e k, pc_ok t k -> pc_ok t (KClose e k)) by (intros e k Hk; by apply (pc_ok_cons t _ k)).
  destruct (_ && negb _); [last_step Hi; [apply quiet_refl|by repeat constructor|by apply OK]|].
  destruct (_ && (prevGoAwayID t <? id)); [last_step Hi; [apply quiet_refl|by repeat constructor|by apply OK]|].
  cbv zeta. rewrite close_goAway_ok.
  set (invoke := negb (goAway_ t) && _). set (reason := setGoAwayReason code debug). set (upper := if prevGoAwayID t =? 0 then _ else _).
  set (t1 := if negb (goAway_ t) then set_goAwayReason _ _ else _). set (t2 := set_prevGoAwayID id t1).
  set (dfr := if negb (goAway_ t) then Put IncomingGoAway Idle else Idle).
  assert (D : inert dfr /\ pc_ok t dfr).
  { subst dfr. destruct (negb (goAway_ t)); by repeat constructor. }
  assert (A : actives t2 = actives t) by (subst t2 t1; by destruct (negb (goAway_ t))).
  assert (Hss : Forall (fun s => is_returned t s = true) (rejected id upper t2)).
  { unfold rejected. rewrite A. pose proof (actives_returned _ _ _ I) as AR. apply Forall_fmap in AR. apply Forall_fmap.
    apply Forall_forall. intros p [_ Hp]%list_elem_of_filter. rewrite Forall_forall in AR. by apply AR. }
  set (r := match actives t2 with [] => _ | _ => _ end).
  assert (R : (exists ss, r.1 = foldr (fun s => upd s (set_unprocessed true)) t2 ss) /\ inert r.2 /\ pc_ok t r.2).
  { subst r. assert (N : forall k, inert k -> pc_ok t k ->
      inert (if invoke then OnGoAway reason k else k) /\ pc_ok t (if invoke then OnGoAway reason k else k)).
    { intros k K1 K2. destruct invoke; [|done]. split; [by constructor|by apply (pc_ok_cons t _ k)]. }
    destruct D as [D1 D2]. destruct (actives t2); cbn [fst snd].
    - split; [by exists []|]. apply N; [by constructor|by apply OK].
    - split; [eauto|]. apply N; [by apply inert_close_all|]. apply pc_ok_close_all; [|done].
      by rewrite <- list_fmap_compose, list_fmap_id. }
  destruct R as [[ss E1] [R1 R2]]. rewrite E1.
  assert (Q : quiet t2 (foldr (fun s => upd s (set_unprocessed true)) t2 ss)) by (by apply quiet_foldr).
  destruct (negb (goAway_ t)) eqn:Eg.
  - eapply (quiet_inv n t2); [exact Q|]. by eapply (leaving_inv (GoAwayLock id code debug)).
  - last_step Hi; [|done|done]. eapply quiet_trans; [|exact Q]. by split.
Qed.

(** ** Settings *)

Lemma inert_current u x : inert x -> ~ on_current u x.
Proof.
  intros Hx HE. apply Exists_exists in HE as (y & Hy & s & ->). unfold inert in Hx. rewrite Forall_forall in Hx. by specialize (Hx _ Hy).
Qed.

(** Waiters hold a channel that has been made. *)
Lemma current_made g : Open t -> Exists (fun x => Exists (fun y => exists s, y = NWait s (Some g)) (conts x)) xs -> (g <= quotaChan t)%nat.
Proof.
  intros HO HE. apply Exists_exists in HE as (x & Hx & HE). apply Exists_exists in HE as (y & Hy & s & ->).
  pose proof (v_ok _ _ _ I) as F. rewrite Forall_forall in F. specialize (F _ Hx). unfold pc_ok in F. rewrite Forall_forall in F.
  destruct (F _ Hy) as (_ & _ & Hg). destruct (Hg HO) as (g' & [= <-] & Hle). done.
Qed.

(** A step from and to an inert state that changes the quota's side of the transport. *)
Lemma quota_step x t' x' :
  xs !! i = Some x -> conts x = [x] -> h_inert x = true -> h_pend x = [] -> inert x' -> pc_ok t' x' ->
  streams t' = streams t -> nextID t' = nextID t -> activeStreams t' = activeStreams t -> t_state t' = t_state t ->
  ControlBuffer.err (cb t') = ControlBuffer.err (cb t) -> Forall (item_ok t) (ControlBuffer.items (cb t')) ->
  waitingStreams t' = waitingStreams t -> (maxSendHeaderListSize t' = None -> maxSendHeaderListSize t = None) ->
  streamQuota t' - maxConcurrentStreams t' = streamQuota t - maxConcurrentStreams t ->
  (quotaChan t' = S (quotaChan t)
   \/ quotaChan t' = quotaChan t /\ quotaToken t' = quotaToken t /\ (streamQuota t' <= streamQuota t \/ waitingStreams t <= 0)) ->
  cinv n t' (<[i := x']> xs).
Proof.
  intros Hi Hc Hx Hp Hx' Hok Est En Ea Es Ee Hit Ew Hl Hq Hch.
  assert (IX : inert x) by (unfold inert; rewrite Hc; by constructor).
  assert (HO : Open t' <-> Open t) by (unfold Open; by rewrite Es, Ee).
  assert (Z0 : forall f, (forall y, h_inert y = true -> f y = 0) -> total f x = 0 /\ total f x' = 0).
  { intros f Hf. by rewrite !inert_total. }
  eapply (step_same_streams n n t _ xs i x); try done.
  - by rewrite Est.
  - apply HO.
  - destruct Hch as [->|(-> & _)]; lia.
  - intros u. destruct (Z0 (h_own u)) as [-> ->]; [by intros []|done].
  - intros u. destruct (Z0 (h_new u)) as [-> ->]; [by intros []|done].
  - eapply active_same; try done; [by rewrite Es|]. intros u. by apply pend_inert.
  - intros _. destruct (Z0 h_pre) as [-> ->]; [by intros []|lia].
  - intros HO'%HO HN. specialize (Hl HN). split; [done|]. destruct (Z0 h_wait) as [-> ->]; [by intros []|].
    pose proof (v_waiting _ _ _ I HO' Hl). lia.
  - intros HO'%HO HN Hq' HE. specialize (Hl HN).
    destruct (Exists_insert_inv _ _ _ _ _ Hi HE) as [Hcur|HE']; [by apply inert_current in Hcur|].
    rewrite (sumZ_insert _ _ _ _ _ Hi). destruct (Z0 h_retry) as [-> ->]; [by intros []|].
    destruct Hch as [Ech|(Ech & -> & Hw)].
    { unfold on_current in HE'. rewrite Ech in HE'. apply current_made in HE'; [lia|done]. }
    assert (HE2 : Exists (on_current t) xs) by (unfold on_current in *; by rewrite Ech in HE').
    destruct Hw as [Hw|Hw].
    + destruct (v_wake _ _ _ I HO' Hl ltac:(lia) HE2); [by left|right; lia].
    + apply current_waits in HE2. pose proof (v_waiting _ _ _ I HO' Hl). lia.
Qed.

Lemma quota_updated ms t0 :
  let t1 := match ms with Some m => updateStreamQuota m t0 | None => t0 end in
  streams t1 = streams t0 /\ nextID t1 = nextID t0 /\ activeStreams t1 = activeStreams t0 /\ t_state t1 = t_state t0
  /\ cb t1 = cb t0 /\ waitingStreams t1 = waitingStreams t0 /\ maxSendHeaderListSize t1 = maxSendHeaderListSize t0
  /\ streamQuota t1 - maxConcurrentStreams t1 = streamQuota t0 - maxConcurrentStreams t0
  /\ (quotaChan t1 = S (quotaChan t0) \/ quotaChan t1 = quotaChan t0 /\ quotaToken t1 = quotaToken t0
      /\ (streamQuota t1 <= streamQuota t0 \/ waitingStreams t0 <= 0)).
Proof.
  destruct ms as [m|]; [|split_and!; try done; right; split_and!; try done; left; lia]. cbv zeta. unfold updateStreamQuota.
  destruct (0 <? m - maxConcurrentStreams t0) eqn:Ed; destruct (0 <? waitingStreams _) eqn:Ew; cbn in Ew |- *; bool_to_prop;
    split_and!; try done; try lia; first [by left|right; split_and!; try done; lia].
Qed.

Lemma settings_inv p isFirst :
  xs !! i = Some (Settings p isFirst) -> cinv n (handleSettings p isFirst t) (<[i := Idle]> xs).
Proof.
  intros Hi. unfold handleSettings. cbv zeta.
  set (ss := filter _ _). set (ms := match last_setting SettingMaxConcurrentStreams _ with Some _ => _ | None => _ end).
  set (hl := last_setting SettingMaxHeaderListSize _).
  destruct (ControlBuffer.err (cb t)) as [e|] eqn:He.
  { unfold execute_put. rewrite He. cbn. last_step Hi; [apply quiet_refl|by constructor|apply ok_idle]. }
  match goal with |- context [execute_put ?f ?it t] => destruct (execute_put f it t) as [r t'] eqn:Ex end.
  destruct (execute_put_open _ _ _ _ He Ex) as (ok & t1 & b & Ef & -> & Hb). injection Ef as <- <-. cbn [snd].
  set (t0 := match hl with Some m => set_maxSendHeaderListSize (Some m) t | None => t end) in *.
  assert (E0 : streams t0 = streams t /\ nextID t0 = nextID t /\ activeStreams t0 = activeStreams t /\ t_state t0 = t_state t
    /\ cb t0 = cb t /\ waitingStreams t0 = waitingStreams t /\ streamQuota t0 = streamQuota t
    /\ maxConcurrentStreams t0 = maxConcurrentStreams t /\ quotaChan t0 = quotaChan t /\ quotaToken t0 = quotaToken t
    /\ (maxSendHeaderListSize t0 = None -> maxSendHeaderListSize t = None)) by (subst t0; by destruct hl).
  destruct E0 as (A1 & A2 & A3 & A4 & A5 & A6 & A7 & A8 & A9 & A10 & A11). clearbody t0.
  set (t1 := match ms with Some m => updateStreamQuota m t0 | None => t0 end) in *.
  pose proof (quota_updated ms t0) as E1.
  fold t1 in E1. destruct E1 as (B1 & B2 & B3 & B4 & B5 & B6 & B7 & B8 & B9). clearbody t1.
  destruct (Hb ltac:(congruence)) as (Eb & -> & Ei).
  eapply (quota_step (Settings p isFirst)); try done; cbn; try congruence.
  - by repeat constructor.
  - by repeat constructor.
  - rewrite Ei. apply Forall_app. split; [apply (v_items _ _ _ I)|by repeat constructor].
  - intros HN. apply A11. congruence.
Qed.

(** ** The writer *)

Lemma onWrite_inv s t' x' :
  xs !! i = Some (WDelete s) -> cleanup_onWrite s t = Some (t', x') -> cinv n t' (<[i := x']> xs).
Proof.
  intros Hi E. pose proof (at_ok _ Hi) as Hx. apply pc_ok_last in Hx as (_ & Ht & Hd); [|done].
  apply Forall_cons in Ht as [Ht _]. unfold cleanup_onWrite in E.
  destruct (streams t !! s) as [y|] eqn:Hy; [|done]. cbn [mbind option_bind] in E. injection E as <- <-.
  assert (Hr : returned y = true) by (unfold is_returned, has in Ht; by rewrite Hy in Ht).
  assert (Hf : finished y = true) by (unfold is_done, has in Hd; by rewrite Hy in Hd).
  destruct (activeStreams t) as [m|] eqn:Em; [|last_step Hi; [apply quiet_refl|by constructor|apply ok_idle]].
  pose proof (v_active _ _ _ I) as A. rewrite Em in A. destruct A as (A1 & A2 & A3).
  eapply (step_same_streams n n t _ xs i (WDelete s)); try done.
  - by repeat constructor.
  - apply (v_items _ _ _ I).
  - cbn [activeStreams set_activeStreams t_state]. split; [done|]. exists m. split; [done|]. split.
    + intros k u Hk. by apply lookup_delete_Some in Hk as [_ Hk].
    + intros u z Hz Hrz Hfz Hk. rewrite lookup_delete_ne; [done|]. intros Eid.
      assert (s = u) as -> by (by eapply (v_inj _ _ _ I)). congruence.
  - intros HO HN. split; [done|]. cbn. split; [lia|]. by eapply v_waiting.
  - intros HO HN Hq HE. destruct (Exists_insert_inv _ _ _ _ _ Hi HE) as [Hcur|HE'].
    { apply (inert_current _ Idle) in Hcur; [done|by constructor]. }
    rewrite (sumZ_insert _ _ _ _ _ Hi). cbn [total conts fmap list_fmap h_retry].
    destruct (v_wake _ _ _ I HO HN Hq HE'); [by left|right; cbn; lia].
Qed.

Lemma initStream_inv s : xs !! i = Some (WInit s) -> cinv n (initStream_ s t).1 (<[i := (initStream_ s t).2]> xs).
Proof.
  intros Hi. pose proof (tgt_ok _ s Hi ltac:(by left)) as Ht. unfold initStream_. destruct (t_state t) eqn:Es; cbn [fst snd]; (last_step Hi; [apply quiet_refl|by repeat constructor|]).
  - apply ok_idle.
  - apply (pc_ok_cons t _ (Finished RNone)); [done|]. split; [|ok1]. split; [done|]. split; [by constructor|]. intros [HO _]. congruence.
  - apply (pc_ok_cons t _ Idle); [done|]. split; [|apply ok_idle]. split; [done|]. split; [by constructor|]. intros [HO _]. congruence.
Qed.

Lemma get_iter_cb b g b' :
  ControlBuffer.get_iter true b = Some (g, b') ->
  ControlBuffer.err b' = ControlBuffer.err b
  /\ match g with
     | ControlBuffer.GItem it => ControlBuffer.items b = it :: ControlBuffer.items b'
     | _ => ControlBuffer.items b' = ControlBuffer.items b
     end.
Proof.
  intros E. unfold ControlBuffer.get_iter in E. destruct (ControlBuffer.err b) eqn:He; [by injection E as <- <-|].
  destruct (ControlBuffer.items b) as [|it l] eqn:Ei.
  - by injection E as <- <-.
  - destruct (isTransportResponseFrame it); [|by injection E as <- <-].
    cbn [ControlBuffer.transportResponseFrames] in E. destruct (_ =? _); [|by injection E as <- <-].
    cbn [ControlBuffer.trfChan] in E. destruct (ControlBuffer.trfChan _); [|done]. by injection E as <- <-.
Qed.

Lemma writer_inv c t' x' :
  xs !! i = Some Idle -> writer_next c t = Some (t', x') -> cinv n t' (<[i := x']> xs).
Proof.
  intros Hi E.
  assert (G : ('(g, b) ← ControlBuffer.get_iter true (cb t);
      Some (set_cb b t, match g with ControlBuffer.GItem it => handle_item it | ControlBuffer.GErr _ => Finished RNone | _ => Idle end))
      = Some (t', x') -> cinv n t' (<[i := x']> xs)).
  { clear E. destruct (ControlBuffer.get_iter true (cb t)) as [[g b]|] eqn:Eg; [|done]. cbn [mbind option_bind]. intros [= <- <-].
    destruct (get_iter_cb _ _ _ Eg) as [Ee Ei].
    assert (Q : quiet t (set_cb b t)).
    { split; try done. intros HF. cbn. destruct g; [rewrite Ei in HF; by apply Forall_cons in HF as [_ HF]|by rewrite Ei..]. }
    last_step Hi; [exact Q| |].
    - destruct g as [it| | |]; try by constructor. destruct it; try by constructor. cbn. destruct (onOrphaned h); by constructor.
    - destruct g as [it| | |]; try by repeat constructor. pose proof (v_items _ _ _ I) as F. rewrite Ei in F. apply Forall_cons in F as [F _].
      destruct it; try apply ok_idle; cbn.
      + cbn in F. destruct (onOrphaned h); [ok1|apply ok_idle].
      + destruct F as [F1 F2]. apply ok_one; [done|]. split; [done|]. split; [by constructor|done]. }
  destruct c; cbn [writer_next] in E; try (by apply G).
  - destruct (ctxDone t); [|done]. destruct (ControlBuffer.finish ErrConnClosing (cb t)) as [[e0 orphans] b] eqn:Ef. injection E as <- <-.
    eapply (finish_inv ErrConnClosing e0 _ Idle); try done; [|ok1|intros u; by apply pend_inert].
    intros f Hf. rewrite !total_one by done. by rewrite !Hf.
  - injection E as <- <-. last_step Hi; [by split|by constructor|ok1].
Qed.

(** ** NewStream *)

Lemma nwait_inv s ch c t' x' :
  xs !! i = Some (NWait s ch) -> NewStream_wait s ch c t = Some (t', x') -> cinv n t' (<[i := x']> xs).
Proof.
  intros Hi E. pose proof (at_ok _ Hi) as Hx.
  assert (Hn : forall u, 0 <= h_new u (NWait s ch)) by (intros u; cbn; case_bool_decide; cbn; lia).
  assert (F : forall r, cinv n t (<[i := Finished r]> xs)).
  { intros r. eapply moved_inv; [exact I|exact Hi|]. apply moved_head; try done. }
  destruct c; cbn [NewStream_wait] in E; try done.
  - destruct ch as [g|]; [|done]. cbn [mbind option_bind] in E.
    destruct (g <? quotaChan t)%nat.
    { injection E as <- <-. eapply moved_inv; [exact I|exact Hi|]. by apply moved_head. }
    destruct (quotaToken t); [|done]. injection E as <- <-.
    assert (G : grows t (set_quotaToken false t)) by (by split).
    eapply (step_same_streams n n t _ xs i (NWait s (Some g))); try done.
    + by apply (grows_pc_ok t), ok_one.
    + apply (v_items _ _ _ I).
    + eapply active_same; try done. intros u. by apply pend_inert.
    + intros HO HN. split; [done|]. cbn. split; [lia|]. by eapply v_waiting.
    + intros HO HN Hq HE. right. rewrite (sumZ_insert _ _ _ _ _ Hi).
      pose proof (total_at h_retry _ h_retry_nonneg Hi). cbn in *. lia.
  - destruct (streams t !! s) as [y|]; [|done]. cbn [mbind option_bind] in E. destruct (s_ctx y); [|done]. by injection E as <- <-.
  - destruct (goAway_ t); [|done]. by injection E as <- <-.
  - destruct (ctxDone t); [|done]. by injection E as <- <-.
Qed.

(** The goroutine that makes a stream is the only one that knows it. *)
Lemma being_made s x : xs !! i = Some x -> 1 <= total (h_new s) x -> exists y, streams t !! s = Some y /\ returned y = false.
Proof.
  intros Hi Hx.
  assert (Hn : forall y, 0 <= h_new s y) by (intros []; cbn; try done; case_bool_decide; cbn; lia).
  pose proof (total_at (h_new s) _ Hn Hi) as Hs. pose proof (v_new _ _ _ I s) as Hv.
  case_bool_decide as Hl; [|cbn in Hv; destruct (is_returned t s); cbn in Hv; lia].
  apply lookup_lt_is_Some in Hl as [y Hy]. exists y. split; [done|].
  unfold is_returned, has in Hv. rewrite Hy in Hv. destruct (returned y); [cbn in Hv; lia|done].
Qed.

(** A caller that gives up before its stream is made; with a limit on the headers the
    invariant does not follow those that wait. *)
Lemma leaving_try s firstTry ch r :
  xs !! i = Some (NTry s firstTry ch) -> (Open t -> maxSendHeaderListSize t <> None) ->
  cinv n t (<[i := Finished r]> xs).
Proof.
  intros Hi Hl. eapply moved_inv; [exact I|exact Hi|]. pose proof (at_ok _ Hi) as Hx.
  split; try done; rewrite ?total_one by done; try (intros HO HN; by destruct (Hl HO)).
  - intros u. cbn. case_bool_decide; cbn; lia.
  - apply pc_ok_last; [done|]. split; [done|]. by split; [constructor|].
  - intros u _. by apply pend_inert.
  - intros HE. by apply inert_current in HE; [|constructor].
Qed.

Lemma blocked_inv s firstTry ch b :
  xs !! i = Some (NTry s firstTry ch) -> n + 1 < 2 ^ 31 -> streamQuota t <= 0 ->
  ControlBuffer.err (cb t) = None -> ControlBuffer.err b = None -> ControlBuffer.items b = ControlBuffer.items (cb t) ->
  cinv (n + 1) (set_cb b (if firstTry then set_waitingStreams (u32 (waitingStreams t + 1)) t else t))
    (<[i := NWait s (Some (quotaChan t))]> xs).
Proof.
  intros Hi Hn Hq He0 He Eit. set (t' := set_cb _ _).
  assert (HO : Open t' -> Open t) by (unfold t'; destruct firstTry; intros [HO _]; by split).
  assert (HQ : streamQuota t' = streamQuota t) by (by unfold t'; destruct firstTry).
  eapply (step_same_streams n (n + 1) t t' xs i (NTry s firstTry ch)); try done; try (by unfold t'; destruct firstTry); [lia|..].
  - apply pc_ok_last; [done|]. split; [done|]. split; [constructor|]. intros _. eexists. split; [done|]. unfold t'. by destruct firstTry.
  - replace (cb t') with b by (unfold t'; by destruct firstTry). rewrite Eit. apply (v_items _ _ _ I).
  - eapply active_same; try done; try (by unfold t'; destruct firstTry). intros u. by apply pend_inert.
  - intros HO' HN. assert (HN' : maxSendHeaderListSize t = None) by (by unfold t' in HN; destruct firstTry).
    split; [done|]. pose proof (v_waiting _ _ _ I (HO HO') HN') as Hw.
    pose proof (total_at h_wait _ h_wait_nonneg Hi) as Ha. unfold t'.
    destruct firstTry; cbn in *; [|lia]. rewrite u32_id by lia. lia.
  - intros _ _ Hq'. rewrite HQ in Hq'. lia.
Qed.

(** The stream once it has its id. *)
Definition named (s : nat) (u : http2Client) : Stream -> Stream :=
  fun x => set_s_fc (InFlow.mkIn (initialWindowSize u) 0 0 0) (set_id (nextID u) x).

Definition granted (s : nat) (firstTry : bool) (u : http2Client) : http2Client :=
  upd s (named s u) (set_nextID (u32 (nextID u + 2)) (set_streamQuota (streamQuota u - 1)
    (if firstTry then u else set_waitingStreams (u32 (waitingStreams u - 1)) u))).

Lemma checkForStreamQuota_granted s firstTry :
  0 < streamQuota t ->
  checkForStreamQuota s firstTry t =
    match t_state t, activeStreams t with
    | draining, _ | _, None => (false, granted s firstTry t)
    | _, Some m => (true, offer_quota (set_activeStreams (Some (<[nextID t := s]> m)) (granted s firstTry t)))
    end.
Proof.
  intros Hq. unfold checkForStreamQuota, granted. rewrite (proj2 (Z.leb_gt _ _) Hq).
  destruct firstTry, (t_state t) eqn:Es, (activeStreams t) eqn:Em; cbn; rewrite ?Es, ?Em; done.
Qed.

Lemma named_alter s y : streams t !! s = Some y -> returned y = false ->
  forall u z, streams (upd s (named s t) t) !! u = Some z -> returned z = true -> streams t !! u = Some z.
Proof.
  intros Hy Hr u z Hz Hrz. destruct (lookup_upd _ _ _ _ _ Hy Hz) as [[-> ->]|[_ ?]]; [|done]. cbn in Hrz. congruence.
Qed.

Lemma refused_inv s firstTry ch b y :
  xs !! i = Some (NTry s firstTry ch) -> n + 1 < 2 ^ 31 -> streams t !! s = Some y -> returned y = false ->
  t_state t <> reachable -> ControlBuffer.items b = ControlBuffer.items (cb t) ->
  cinv (n + 1) (set_cb b (granted s firstTry t)) (<[i := NWait s ch]> xs).
Proof.
  intros Hi Hn Hy Hr Hs Eit. set (t' := set_cb _ _).
  assert (Est : streams t' = streams (upd s (named s t) t)) by (unfold t'; by destruct firstTry).
  assert (Hst : t_state t' = t_state t) by (unfold t'; by destruct firstTry).
  assert (Hac : activeStreams t' = activeStreams t) by (unfold t'; by destruct firstTry).
  assert (Hnx : nextID t' = nextID t + 2).
  { pose proof (v_next _ _ _ I). unfold t'. cbn. rewrite u32_id; lia. }
  assert (NO : ~ Open t') by (intros [HO _]; congruence).
  assert (Hh : forall f, (forall x, f (named s t x) = f x) -> forall u, has f u t' = has f u t).
  { intros f Hf u. unfold has at 1. rewrite Est. change (has f u (upd s (named s t) t) = has f u t).
    rewrite (has_upd _ _ _ _ _ Hy). destruct (decide (u = s)) as [->|]; [|done]. unfold has. by rewrite Hy. }
  assert (G : grows t t').
  { split; try done.
    - intros u. unfold is_returned. by rewrite Hh.
    - intros u. unfold is_done. by rewrite Hh.
    - unfold t'. by destruct firstTry. }
  assert (NA := named_alter s y Hy Hr). rewrite <- Est in NA.
  pose proof (v_next _ _ _ I) as Vn.
  eapply (transport_step n (n + 1) t t' xs i (NTry s firstTry ch)); try done.
  - intros u. unfold is_done. rewrite !Hh by done. done.
  - intros u. unfold is_returned. by rewrite !Hh.
  - rewrite Est. apply length_alter.
  - apply pc_ok_last; [done|]. split; [done|]. by split; [constructor|].
  - replace (cb t') with b by (unfold t'; by destruct firstTry). rewrite Eit.
    eapply Forall_impl; [apply (v_items _ _ _ I)|]. intros it. by apply grows_item_ok.
  - lia.
  - intros u z Hz Hrz. pose proof (v_ids _ _ _ I u z (NA _ _ Hz Hrz) Hrz). lia.
  - intros u u' z z' Hz Hz' Hrz Hrz'. by eapply (v_inj _ _ _ I); eauto.
  - pose proof (v_active _ _ _ I) as A. rewrite Hac, Hst. destruct (activeStreams t) as [m|].
    + destruct A as (A1 & A2 & A3). split; [done|]. split; [|eauto].
      intros k u Hk. destruct (A2 _ _ Hk) as (z & Hz & Hrz & <-). exists z. rewrite Est. split; [|done].
      cbn. rewrite list_lookup_alter_ne; [done|]. intros ->. congruence.
    + destruct A as (A1 & A2). split; [done|]. intros u z Hz Hrz Hfz.
      eapply Exists_insert; [exact Hi|apply pend_inert; done|eauto].
  - intros u z. rewrite Est. intros Hz.
    destruct (lookup_upd _ _ _ _ _ Hy Hz) as [[-> ->]|[_ Hz1]]; [exact (v_header _ _ _ I _ _ Hy)|exact (v_header _ _ _ I _ _ Hz1)].
Qed.

(** What a granted stream changes, whatever else the transport does to its buffers. *)
Lemma granted_inv s firstTry ch y m b t' :
  xs !! i = Some (NTry s firstTry ch) -> n + 1 < 2 ^ 31 -> streams t !! s = Some y -> returned y = false ->
  Open t -> 0 < streamQuota t -> activeStreams t = Some m ->
  ControlBuffer.err b = None ->
  (forall it, it ∈ ControlBuffer.items b -> it ∈ ControlBuffer.items (cb t) \/ exists hf u, it = header_item s hf u) ->
  t' = upd s (set_returned true) (set_cb b (offer_quota (set_activeStreams (Some (<[nextID t := s]> m)) (granted s firstTry t)))) ->
  cinv (n + 1) t' (<[i := Finished (RStream s)]> xs).
Proof.
  intros Hi Hn Hy Hr HO Hq Em He Hit ->. set (t0 := set_activeStreams _ _).
  destruct (offer_quota_eq t0) as (tok & Etok & _).
  pose proof (offer_token t0) as OT. rewrite Etok in *. set (t' := upd _ _ _).
  set (g := fun x => set_returned true (named s t x)).
  assert (Est : streams t' = streams (upd s g t)).
  { apply list_eq. intros u. unfold t', t0. cbn. replace (streams (if firstTry then t else _)) with (streams t) by by destruct firstTry.
    destruct (decide (u = s)) as [->|]; [|by rewrite !list_lookup_alter_ne]. rewrite !list_lookup_alter_eq. by destruct (streams t !! s). }
  pose proof (v_next _ _ _ I) as Vn. destruct HO as [HOs HOe].
  assert (Hst : t_state t' = reachable) by (unfold t', t0; by destruct firstTry).
  assert (Hac : activeStreams t' = Some (<[nextID t := s]> m)) by (unfold t', t0; by destruct firstTry).
  assert (Hnx : nextID t' = nextID t + 2).
  { unfold t', t0. cbn. rewrite u32_id; lia. }
  assert (Hsq : streamQuota t' = streamQuota t - 1) by (unfold t', t0; by destruct firstTry).
  assert (Hmx : maxConcurrentStreams t' = maxConcurrentStreams t) by (unfold t', t0; by destruct firstTry).
  assert (Hml : maxSendHeaderListSize t' = maxSendHeaderListSize t) by (unfold t', t0; by destruct firstTry).
  assert (Hqc : quotaChan t' = quotaChan t) by (unfold t', t0; by destruct firstTry).
  assert (Hf : finished y = false) by (by eapply (v_fresh _ _ _ I); first split).
  assert (Hh : forall f u, has f u t' = if decide (u = s) then f (g y) else has f u t).
  { intros f u. rewrite <- (has_upd f _ _ u _ Hy). unfold has. by rewrite Est. }
  assert (Hl : live t' = live t + 1).
  { transitivity (live (upd s g t)); [unfold live; by rewrite Est|]. rewrite (live_upd _ _ _ Hy). unfold g. rewrite Hr. cbn.
    change (finished (set_returned _ _)) with (finished y). rewrite Hf. cbn. lia. }
  assert (G : grows t t').
  { split; try done.
    - intros u. unfold is_returned. rewrite Hh. by destruct (decide _).
    - intros u. unfold is_done. rewrite Hh. destruct (decide _) as [->|]; [|done]. unfold has. by rewrite Hy.
    - by rewrite Hqc. }
  assert (LU : forall u z, streams t' !! u = Some z -> (u = s /\ z = g y) \/ (u <> s /\ streams t !! u = Some z)).
  { intros u z. rewrite Est. by apply lookup_upd. }
  assert (Hw : maxSendHeaderListSize t = None ->
    total h_wait (Finished (RStream s)) - waitingStreams t' <= total h_wait (NTry s firstTry ch) - waitingStreams t
    /\ waitingStreams t' <= n + 1).
  { intros HN. pose proof (v_waiting _ _ _ I (conj HOs HOe) HN) as W. pose proof (total_at h_wait _ h_wait_nonneg Hi) as Ha.
    unfold t', t0. destruct firstTry; cbn in *; [lia|]. rewrite u32_id; lia. }
  pose proof (v_active _ _ _ I) as A. rewrite Em in A. destruct A as (A1 & A2 & A3).
  assert (Vi := v_ids _ _ _ I). assert (Vj := v_inj _ _ _ I).
  eapply (transport_step n (n + 1) t t' xs i (NTry s firstTry ch)); try done.
  - intros u. unfold is_done. rewrite !Hh. destruct (decide (u = s)) as [->|]; [|done]. unfold has. by rewrite Hy.
  - intros u. unfold is_returned. rewrite Hh. destruct (decide (u = s)) as [->|Hne]; cbn.
    + unfold has. rewrite Hy, Hr, bool_decide_true by done. cbn. lia.
    + rewrite bool_decide_false by done. cbn. lia.
  - rewrite Est. apply length_alter.
  - apply pc_ok_last; [done|]. split; [done|]. by split; [constructor|].
  - unfold t'. cbn. apply Forall_forall. intros it [Ho|(hf & u & ->)]%Hit.
    + pose proof (v_items _ _ _ I) as F. rewrite Forall_forall in F. by apply (grows_item_ok t), F.
    + cbn. rewrite Nat2Z.id. unfold is_returned. fold t'. by rewrite Hh, decide_True.
  - lia.
  - intros u z Hz Hrz. destruct (LU _ _ Hz) as [[-> ->]|[_ Hz']]; [change (id (g y)) with (nextID t); lia|]. specialize (Vi _ _ Hz' Hrz). lia.
  - intros u u' z z' Hz Hz' Hrz Hrz' E.
    destruct (LU _ _ Hz) as [[-> ->]|[Hne Hz1]], (LU _ _ Hz') as [[-> ->]|[Hne' Hz2]]; try done.
    + specialize (Vi _ _ Hz2 Hrz'). change (id (g y)) with (nextID t) in E. lia.
    + specialize (Vi _ _ Hz1 Hrz). change (id (g y)) with (nextID t) in E. lia.
    + by eapply Vj.
  - rewrite Hac, Hst. split; [done|]. split.
    + intros k u Hk. apply lookup_insert_Some in Hk as [[<- <-]|[Hne Hk]].
      * exists (g y). rewrite Est. cbn. by rewrite list_lookup_alter_eq, Hy.
      * destruct (A2 _ _ Hk) as (z & Hz & Hrz & <-). exists z. split; [|done]. rewrite Est. cbn.
        rewrite list_lookup_alter_ne; [done|]. intros ->. congruence.
    + intros u z Hz Hrz Hfz. destruct (LU _ _ Hz) as [[-> ->]|[_ Hz1]]; [apply lookup_insert_eq|].
      specialize (Vi _ _ Hz1 Hrz). rewrite lookup_insert_ne by lia. by apply A3.
  - intros _. rewrite Hsq, Hmx, Hl, !total_one by done. cbn [h_pre]. lia.
  - intros _. rewrite Hml. intros HN. split; [done|]. by apply Hw.
  - intros HO' HN Hq' HE. left. rewrite Hml in HN. apply current_waits in HE. rewrite (sumZ_insert _ _ _ _ _ Hi) in HE.
    pose proof (v_waiting _ _ _ I (conj HOs HOe) HN) as W. specialize (Hw HN).
    apply OT; [by rewrite Hsq in Hq'|]. change (0 < waitingStreams t'). lia.
  - intros u z _ Hz Hrz. destruct (LU _ _ Hz) as [[-> ->]|[_ Hz1]]; [done|]. by eapply (v_fresh _ _ _ I); first split.
  - intros u z Hz. destruct (LU _ _ Hz) as [[-> ->]|[_ Hz1]]; [exact (v_header _ _ _ I _ _ Hy)|exact (v_header _ _ _ I _ _ Hz1)].
Qed.

Lemma offer_quota_cb u : cb (offer_quota u) = cb u.
Proof. unfold offer_quota. by destruct (_ && _). Qed.

Lemma ntry_inv s firstTry ch t' x' :
  n + 1 < 2 ^ 31 -> xs !! i = Some (NTry s firstTry ch) -> NewStream_try s firstTry ch t = Some (t', x') ->
  cinv (n + 1) t' (<[i := x']> xs).
Proof.
  intros Hn Hi E. pose proof (at_ok _ Hi) as Hx.
  destruct (being_made s _ Hi) as (y & Hy & Hr); [rewrite total_one by done; cbn; by rewrite bool_decide_true|].
  unfold NewStream_try in E. rewrite Hy in E. cbn [mbind option_bind] in E.
  destruct (execute_put _ _ t) as [r t1] eqn:Ep.
  destruct (ControlBuffer.err (cb t)) as [e|] eqn:He.
  { unfold execute_put in Ep. rewrite He in Ep. injection Ep as <- <-. injection E as <- <-.
    apply (cinv_mono n); [lia|]. eapply leaving_try; [exact Hi|]. intros [_ HO]. congruence. }
  apply execute_put_open in Ep as (ok & t2 & b & Ef & -> & Hb); [|done].
  destruct (checkForHeaderListSize (fields y) t) eqn:Hfit; cbn [andb] in E.
  2:{ injection Ef as <- <-. destruct (Hb eq_refl) as (He' & -> & Eit). injection E as <- <-.
      apply (cinv_mono n); [lia|]. eapply (quiet_inv n t).
      { split; try done; cbn; [by rewrite He|by rewrite Eit]. }
      eapply leaving_try; [exact Hi|]. intros _ HN. unfold checkForHeaderListSize in Hfit. by rewrite HN in Hfit. }
  destruct (Z.leb_spec (streamQuota t) 0) as [Hq|Hq].
  { unfold checkForStreamQuota in Ef. rewrite (proj2 (Z.leb_le _ _) Hq) in Ef. injection Ef as <- <-.
    destruct Hb as (He' & -> & Eit); [by destruct firstTry|]. injection E as <- <-. by apply blocked_inv with ch. }
  rewrite checkForStreamQuota_granted in Ef by done.
  assert (R : (ok, t2) = (false, granted s firstTry t) -> t_state t <> reachable -> cinv (n + 1) t' (<[i := x']> xs)).
  { intros [= -> ->] Hs. destruct Hb as (He' & -> & Eit); [by destruct firstTry|]. injection E as <- <-. by eapply refused_inv. }
  pose proof (v_active _ _ _ I) as A. destruct (t_state t) eqn:Hs; [| |apply R; congruence].
  - destruct (activeStreams t) as [m|] eqn:Em; [|by destruct A].
    injection Ef as <- <-. destruct Hb as (He' & -> & Eit); [by rewrite offer_quota_cb; destruct firstTry|]. injection E as <- <-.
    eapply granted_inv; try done. intros it. rewrite Eit. intros [Ho|Ho%list_elem_of_singleton]%elem_of_app; [by left|right; by eauto].
  - destruct (activeStreams t) as [m|] eqn:Em; [by destruct A|apply R; congruence].
Qed.

Lemma goroutine_inv c x t' x' :
  n + 1 < 2 ^ 31 -> xs !! i = Some x -> exec c t x = Some (t', x') -> cinv (n + 1) t' (<[i := x']> xs).
Proof.
  intros Hn Hi E. assert (M : cinv n t' (<[i := x']> xs) -> cinv (n + 1) t' (<[i := x']> xs)) by (apply cinv_mono; lia).
  destruct x; cbn [exec] in E; try done; try (by eapply ntry_inv); apply M; clear M;
    try (by eapply handleData_inv); try (by eapply handleRSTStream_inv); try (by eapply operateHeaders_inv);
    try (by eapply readClient_inv); try (by eapply Tick_inv); try (by eapply Write_inv); try (by eapply updateFlowControl_inv); try (by eapply replenish_inv);
    try (by eapply closing_quiet_inv); try (by eapply cleanup_quiet_inv); try (by eapply close_quiet_inv).
  - injection E as <- <-. by apply put_inv.
  - by eapply nwait_inv.
  - by eapply cleanupSwap_inv.
  - by eapply cleanupDone_inv.
  - by eapply closeSwap_inv.
  - by eapply closePut_inv.
  - by eapply closeDone_inv.
  - by eapply kclose_inv.
  - by eapply kfinish_inv.
  - injection E as E. pose proof (gclose_inv Hi) as G. by rewrite E in G.
  - by eapply adjustWindow_inv.
  - by eapply updateWindow_inv.
  - injection E as <- <-. by apply settings_inv.
  - injection E as E. pose proof (goaway_inv _ _ _ Hi) as G. by rewrite E in G.
  - injection E as <- <-. by apply onGoAway_inv.
  - apply (inj Some) in E. by eapply stream_error_inv.
  - injection E as E. pose proof (initStream_inv _ Hi) as G. by rewrite E in G.
  - by eapply onWrite_inv.
Qed.

Lemma spawn_inv x : inert x -> pc_ok t x -> cinv n t (xs ++ [x]).
Proof.
  intros Hx Hok. pose proof I as [I1 I2 I3 I4 I5 I6 I7 I8 I9 I10 I11 I12 I13].
  assert (T : forall f, (forall y, h_inert y = true -> f y = 0) -> sumZ (total f <$> xs ++ [x]) = sumZ (total f <$> xs)).
  { intros f Hf. rewrite fmap_app, sumZ_app. cbn. rewrite (inert_total f x) by done. lia. }
  split; try done.
  - intros s. rewrite T; [done|by intros []].
  - intros s. rewrite T; [done|by intros []].
  - apply Forall_app. split; [done|by constructor].
  - destruct (activeStreams t); [done|]. destruct I8 as [A1 A2]. split; [done|]. intros s y Hy Hr Hf. apply Exists_app. left. by eapply A2.
  - rewrite T; [done|by intros []].
  - rewrite T; [done|by intros []].
  - rewrite T; [|by intros []]. intros HO HN Hq HE. apply I11; try done. apply Exists_app in HE as [HE|HE]; [done|].
    apply Exists_cons in HE as [HE|HE]; [by apply inert_current in HE|by apply Exists_nil in HE].
Qed.

Lemma new_inv fs :
  cinv n (set_streams (streams t ++ [newStream fs]) t) (xs ++ [NTry (length (streams t)) true None]).
Proof.
  pose proof I as [I1 I2 I3 I4 I5 I6 I7 I8 I9 I10 I11 I12 I13]. set (t' := set_streams _ _). set (x := NTry _ _ _).
  assert (LK : forall u z, streams t' !! u = Some z -> streams t !! u = Some z \/ (u = length (streams t) /\ z = newStream fs)).
  { intros u z Hz. apply lookup_app_Some in Hz as [Hz|[Hl Hz]]; [by left|]. right.
    apply list_lookup_singleton_Some in Hz as [Hu <-]. split; [lia|done]. }
  assert (Hh : forall f, f (newStream fs) = false -> forall u, has f u t' = has f u t).
  { intros f Hf u. unfold has. cbn. destruct (decide (u < length (streams t))%nat) as [Hl|Hl]; [by rewrite lookup_app_l|].
    rewrite lookup_app_r by lia. rewrite (lookup_ge_None_2 (streams t)) by lia.
    destruct (u - length (streams t))%nat as [|[|]]; [done|done..]. }
  assert (G : grows t t').
  { split; try done; intros u; unfold is_returned, is_done; by rewrite Hh. }
  assert (T : forall f, f x = 0 -> sumZ (total f <$> xs ++ [x]) = sumZ (total f <$> xs)).
  { intros f Hf. rewrite fmap_app, sumZ_app. cbn [fmap list_fmap]. rewrite total_one, Hf by done. cbn. lia. }
  split; try done.
  - intros s. unfold is_done. rewrite !Hh, T by done. apply I1.
  - intros s. unfold is_returned. rewrite Hh by done. rewrite fmap_app, sumZ_app. specialize (I2 s). cbn [fmap list_fmap].
    unfold t'. cbn [streams set_streams]. rewrite length_app. unfold is_returned in I2. rewrite total_one by done. unfold x. cbn.
    destruct (decide (s = length (streams t))) as [->|Hne].
    + rewrite bool_decide_false in I2 by lia. rewrite !bool_decide_true by lia. cbn in *. lia.
    + rewrite (bool_decide_false (_ = s)) by done. case_bool_decide; [rewrite bool_decide_true by lia|rewrite bool_decide_false by lia]; cbn in *; lia.
  - apply Forall_app. split; [|by repeat constructor]. eapply Forall_impl; [exact I3|]. intros z. by apply grows_pc_ok.
  - eapply Forall_impl; [exact I4|]. intros z. by apply grows_item_ok.
  - intros s z Hz Hr. destruct (LK _ _ Hz) as [Hz'|[_ ->]]; [|done]. by eapply I6.
  - intros s s' z z' Hz Hz' Hr Hr'. destruct (LK _ _ Hz) as [Hz1|[_ ->]], (LK _ _ Hz') as [Hz2|[_ ->]]; try done. by eapply I7.
  - cbn. destruct (activeStreams t) as [m|].
    + destruct I8 as (A1 & A2 & A3). split; [done|]. split.
      * intros k s Hk. destruct (A2 _ _ Hk) as (z & Hz & Hr & Hid). exists z. split; [|done]. by apply lookup_app_l_Some.
      * intros s z Hz Hr Hf. destruct (LK _ _ Hz) as [Hz'|[_ ->]]; [|done]. by apply A3.
    + destruct I8 as (A1 & A2). split; [done|]. intros s z Hz Hr Hf. destruct (LK _ _ Hz) as [Hz'|[_ ->]]; [|done].
      apply Exists_app. left. by eapply A2.
  - rewrite T by done. intros HO. specialize (I9 HO). unfold live, t' in *. cbn in *. rewrite fmap_app, sumZ_app. cbn. lia.
  - by rewrite T.
  - rewrite T by done. intros HO HN Hq HE. apply I11; try done. apply Exists_app in HE as [HE|HE]; [done|].
    apply Exists_cons in HE as [HE|HE]; [|by apply Exists_nil in HE].
    apply Exists_cons in HE as [(s & HE)|HE]; [done|by apply Exists_nil in HE].
  - intros s z HO Hz Hr. destruct (LK _ _ Hz) as [Hz'|[_ ->]]; [by eapply I12|done].
  - intros s z Hz. destruct (LK _ _ Hz) as [Hz'|[_ ->]]; [by eapply I13|done].
Qed.

Lemma started_inv o t' x : started o t = Some (t', x) -> cinv n t' (xs ++ [x]).
Proof.
  intros E. destruct o; cbn [started] in E; try (injection E as <- <-; first [apply new_inv|apply spawn_inv; by repeat constructor]).
  all: destruct (streams t !! s) as [y|] eqn:Hy; [|done]; cbn [mbind option_bind] in E; destruct (returned y) eqn:Hr; [|done];
    injection E as <- <-; assert (Hs : is_returned t s = true) by (unfold is_returned, has; by rewrite Hy);
    apply spawn_inv; [by repeat constructor|].
  - apply ok_close; [by destruct e as [[]|]|ok1].
  - ok1.
  - apply ok_one; [done|]. split; [done|]. by split; [constructor|].
  - ok1.
  - ok1.
Qed.
End inv.

(** ** Runs *)

Section runs.
Context `{!HeaderLib}.

Lemma reader_pcs i bdp calc late t :
  (inert (reader_first i) /\ pc_ok t (reader_first i))
  /\ (inert (reader_loop i bdp calc late) /\ pc_ok t (reader_loop i bdp calc late)).
Proof.
  assert (S : forall fh p b, inert (read_settings fh p b) /\ pc_ok t (read_settings fh p b)).
  { intros fh p b. unfold read_settings. repeat case_match; by repeat constructor. }
  destruct i as [f|fh trunc fs|sid code detail|e]; [|by repeat constructor..].
  destruct f; cbn [reader_first reader_loop]; repeat split; try (by repeat constructor); try apply S.
  all: unfold handlePing; repeat case_match; by repeat constructor.
Qed.

Lemma system_inv n l y y' :
  n + 1 < 2 ^ 31 -> cinv n (tr y) (threads y) -> lstep l y = Some y' -> cinv (n + 1) (tr y') (threads y').
Proof.
  intros Hn I E. destruct y as [t xs]. cbn [tr threads] in *.
  assert (M : forall t xs, cinv n t xs -> cinv (n + 1) t xs) by (intros; eapply cinv_mono; [|done]; lia).
  destruct l; cbn [lstep tr threads] in E.
  - destruct (started o t) as [[t' x]|] eqn:Es; [|done]. injection E as <-. apply M. by eapply started_inv.
  - destruct (xs !! i) as [x|] eqn:Hi; [|done]. cbn [mbind option_bind] in E.
    destruct (exec c t x) as [[t' x']|] eqn:Ee; [|done]. injection E as <-. by eapply goroutine_inv.
  - destruct (xs !! 0%nat) as [x|] eqn:Hi; [|done]. cbn [mbind option_bind] in E.
    destruct (reader_pcs i bdp calc late t) as [[R1 R2] [R3 R4]].
    assert (T : forall x', inert x' -> pc_ok t x' -> inert x -> conts x = [x] -> h_pend x = [] -> cinv (n + 1) t (<[0%nat := x']> xs)).
    { intros x' Hin Hok Hx Hc Hp. apply M. eapply moved_inv; [exact I|exact Hi|]. apply moved_inert; try done. intros u. by apply pend_inert. }
    destruct x; try done; injection E as <-; apply T; try done; by repeat constructor.
  - destruct (xs !! 1%nat) as [x|] eqn:Hi; [|done]. cbn [mbind option_bind] in E. destruct x; try done.
    destruct (writer_next c t) as [[t' x']|] eqn:Ee; [|done]. injection E as <-. apply M. by eapply writer_inv.
  - destruct (xs !! 1%nat) as [x|] eqn:Hi; [|done]. cbn [mbind option_bind] in E.
    destruct (streams t !! s) as [z|] eqn:Hz; [|done]. cbn [mbind option_bind] in E. destruct x; try done.
    destruct (returned z) eqn:Hr; [|done]. destruct (_ && _); [|done]. injection E as <-. apply M.
    eapply inert_last_step; [exact I|exact Hi|done|done|done|apply quiet_refl|by constructor|].
    apply pc_ok_last; [done|]. split; [done|]. split; [|done]. constructor; [|done]. unfold is_returned, has. by rewrite Hz.
  - destruct (streams t !! s) as [x|]; [|done]. cbn [mbind option_bind] in E. destruct (s_ctx x); [done|]. injection E as <-.
    apply M. eapply quiet_inv; [|exact I]. by apply quiet_upd.
  - injection E as <-. apply M. eapply quiet_inv; [|exact I]. by split.
Qed.

Lemma lrun_inv ls : forall n y y',
  0 <= n -> n + lenZ ls < 2 ^ 31 -> cinv n (tr y) (threads y) -> lrun ls y = Some y' -> cinv (n + lenZ ls) (tr y') (threads y').
Proof.
  induction ls as [|l ls IH]; intros n y y' H0 Hn I E; cbn [lrun] in E.
  - injection E as <-. unfold lenZ. by rewrite Z.add_0_r.
  - destruct (lstep l y) as [y1|] eqn:El; [|done]. cbn [mbind option_bind] in E. unfold lenZ in *. cbn [length] in *. rewrite Nat2Z.inj_succ in *.
    apply (system_inv n) in El; [|lia|exact I].
    replace (n + Z.succ (Z.of_nat (length ls))) with (n + 1 + Z.of_nat (length ls)) by lia. eapply IH; [lia|lia|exact El|exact E].
Qed.

Lemma init_inv icwz iws : cinv 0 (tr (init icwz iws)) (threads (init icwz iws)).
Proof.
  split; try done.
  - by repeat constructor.
  - intros _ _ _ HE. by apply current_waits in HE.
Qed.

Lemma client_run_inv icwz iws ls y :
  lenZ ls < 2 ^ 31 -> lrun ls (init icwz iws) = Some y -> cinv (lenZ ls) (tr y) (threads y).
Proof. intros Hl E. apply (lrun_inv ls 0 (init icwz iws)); [lia|lia|apply init_inv|done]. Qed.

(** C17: however the goroutines of a client transport interleave (for fewer than 2^31 steps,
    so that no stream id wraps), no channel is closed twice: not the done channel of a
    stream, not its headerChan, which the reader, closeStream and the cleanup of NewStream
    all close, and not the goAway channel of the transport.  A stream whose done channel is
    closed is done; a done stream whose channel is still open has exactly one goroutine that
    is about to close it; and the streams NewStream has returned have distinct ids. *)
Theorem streams_closed_once icwz iws ls y :
  lenZ ls < 2 ^ 31 -> lrun ls (init icwz iws) = Some y ->
  Forall (fun x => DoubleClose ∉ conts x) (threads y)
  /\ (forall s x, streams (tr y) !! s = Some x ->
        (done x = true -> s_state x = streamDone)
        /\ (s_state x = streamDone -> done x = false -> sumZ (total (h_own s) <$> threads y) = 1))
  /\ (forall s s' x x', streams (tr y) !! s = Some x -> streams (tr y) !! s' = Some x' ->
        returned x = true -> returned x' = true -> id x = id x' -> s = s').
Proof.
  intros Hl E. pose proof (client_run_inv _ _ _ _ Hl E) as I. split; [|split].
  - eapply Forall_impl; [apply (v_ok _ _ _ I)|]. intros x Hx Hd. unfold pc_ok in Hx. rewrite Forall_forall in Hx. by destruct (Hx _ Hd).
  - intros s x Hx. pose proof (v_own _ _ _ I s) as Ho. unfold is_done, has, finished in Ho. rewrite Hx in Ho.
    assert (0 <= sumZ (total (h_own s) <$> threads y)).
    { apply sumZ_nonneg, Forall_fmap, Forall_forall. intros z _. apply total_nonneg, h_own_nonneg. }
    split; [intros Hd; rewrite Hd in Ho|intros Hs Hd; rewrite Hd in Ho]; case_bool_decide; cbn in Ho; lia || done.
  - apply (v_inj _ _ _ I).
Qed.

(** C22: the quota of concurrent streams is exact: while a client transport is open (for
    fewer than 2^31 steps), the
    remaining quota, the streams callers have that are not done, and the done ones whose quota
    a goroutine is about to give back make up the number the server allows. Nothing is leaked
    and nothing is given back twice. *)
Theorem stream_quota_exact icwz iws ls y :
  lenZ ls < 2 ^ 31 -> lrun ls (init icwz iws) = Some y -> Open (tr y) ->
  streamQuota (tr y) + live (tr y) + sumZ (total h_pre <$> threads y) = maxConcurrentStreams (tr y).
Proof. intros Hl E. apply (v_quota _ _ _ (client_run_inv _ _ _ _ Hl E)). Qed.

(** C39: a client transport starts well-formed and every step of every goroutine, of the
    reader, of the writer and of the contexts keeps it so: each open channel of a done stream
    has one owner, each stream is with at most one NewStream, goroutines work on streams that
    callers have, the map of active streams has every stream that is not done under its id, a
    closing transport has a goroutine that will close each of its streams, ids and counters
    stay in range, and the quota and the wake-ups add up.  [n] counts the steps, which stay
    below 2^31. *)
Theorem transport_stays_well_formed icwz iws :
  cinv 0 (tr (init icwz iws)) (threads (init icwz iws))
  /\ forall n l y y', n + 1 < 2 ^ 31 -> cinv n (tr y) (threads y) -> lstep l y = Some y' -> cinv (n + 1) (tr y') (threads y').
Proof. split; [apply init_inv|]. intros n l y y'. apply system_inv. Qed.
End runs.

(** * A run *)

#[export] Instance demo_headers : HeaderLib := {| UnmarshalStatus := fun _ => None; JSONStr2Map := fun _ => Some ∅ |}.

Definition settings_payload (ss : list (Z * Z)) : list byte :=
  concat ((fun p : Z * Z => [Zbyte (Z.shiftr (fst p) 8); Zbyte (fst p); Zbyte (Z.shiftr (snd p) 24);
    Zbyte (Z.shiftr (snd p) 16); Zbyte (Z.shiftr (snd p) 8); Zbyte (snd p)]) <$> ss).

Definition recv_settings (ss : list (Z * Z)) : list label :=
  [LRecv (IFrame (SettingsFrame (mkFH (6 * lenZ ss) 4 0 0) (settings_payload ss))) false None false; LRun 0 Go].

Definition steps (i n : nat) : list label := replicate n (LRun i Go).

(** The server allows one stream; a caller makes it and closes it, up to the write of the
    stream's error. *)
Definition closing_run : list label :=
  recv_settings [(SettingMaxConcurrentStreams, 1)]
  ++ [LStart (ONew [])] ++ steps 2 1 ++ [LStart (OCloseStream 0 None)] ++ steps 3 1.

Definition closing_sys : sys := default (init 65535 65535) (lrun closing_run (init 65535 65535)).

Lemma streams_closed_once_witness :
  exists x, streams (tr closing_sys) !! 0%nat = Some x /\ sumZ (total (h_own 0) <$> threads closing_sys) = 1.
Proof.
  destruct (streams_closed_once 65535 65535 closing_run closing_sys) as (_ & Ho & _); [done|by vm_compute|].
  eexists. split; [by vm_compute|]. by eapply Ho; [by vm_compute|..].
Defined.

Lemma stream_quota_exact_witness :
  streamQuota (tr closing_sys) + live (tr closing_sys) + sumZ (total h_pre <$> threads closing_sys) = 1
  /\ streamQuota (tr closing_sys) = 0 /\ live (tr closing_sys) = 0.
Proof.
  split; [|by vm_compute]. by apply (stream_quota_exact 65535 65535 closing_run closing_sys); [|vm_compute|split].
Defined.

Lemma transport_stays_well_formed_witness :
  exists y', lstep (LStart (ONew [])) (init 65535 65535) = Some y' /\ cinv 1 (tr y') (threads y').
Proof.
  destruct (transport_stays_well_formed 65535 65535) as [I S]. eexists. split; [done|].
  apply (S 0 (LStart (ONew [])) (init 65535 65535)); [lia|exact I|done].
Defined.
