(* ===== verification/ClientLive.v ===== *)
(** What the end of a client transport leaves behind (ClientTransport.v): once it is closing
    and no goroutine can move, every stream a caller has is closed and nobody waits. *)

From S2P Require Import Prelude GoText FlowControl HttpUtil Headers Frames ControlBuf ClientTransport ClientSpec.

#[local] Set Default Goal Selector "!".

(** * The shape of a step *)

(** Only the first frame of a goroutine owns a stream or waits for one. *)
Definition tails (x : pc) : Prop := Forall (fun y => h_inert y = true) (tail (conts x)).

(** A goroutine in the middle of Close. *)
Definition h_closing (x : pc) : bool :=
  match x with KOnClose _ _ _ | KFinish _ _ _ | KCancel _ _ _ => true | _ => false end.

Definition in_close (x : pc) : Prop := Exists (fun y => h_closing y = true) (conts x).

Definition keeps (t t' : http2Client) : Prop := t_state t' = t_state t /\ ctxDone t' = ctxDone t.

Record shape (t : http2Client) (x : pc) (t' : http2Client) (x' : pc) : Prop := mkShape {
  sh_tails : tails x';
  sh_done : ctxDone t = true -> ctxDone t' = true;
  sh_state : t_state t' = closing -> t_state t = closing \/ in_close x';
  sh_close : in_close x -> in_close x' \/ ctxDone t' = true
}.

Lemma inert_tails x : inert x -> tails x.
Proof. intros Hx. unfold inert, tails in *. destruct (conts x); [done|]. by apply Forall_cons in Hx as [_ Hx]. Qed.

Lemma tails_frame x k : conts x = x :: conts k -> tails x <-> inert k.
Proof. intros E. unfold tails. by rewrite E. Qed.

Lemma tails_one x : conts x = [x] -> tails x.
Proof. intros E. unfold tails. by rewrite E. Qed.

Lemma in_close_frame x k : conts x = x :: conts k -> in_close x <-> h_closing x = true \/ in_close k.
Proof. intros E. unfold in_close. by rewrite E, Exists_cons. Qed.

Lemma in_close_one x : conts x = [x] -> h_closing x = false -> ~ in_close x.
Proof. intros E Hx HE. unfold in_close in HE. rewrite E in HE. apply Exists_cons in HE as [HE|HE]; [congruence|by apply Exists_nil in HE]. Qed.

Lemma in_close_all cs k : in_close (close_all cs k) <-> in_close k.
Proof.
  induction cs as [|a cs IH]; [done|]. cbn [close_all]. rewrite <- IH, (in_close_frame (CSwap a _) (close_all cs k)) by done. cbn. naive_solver.
Qed.

Lemma in_cleanup_all ss e k : in_close (cleanup_all ss e k) <-> in_close k.
Proof.
  induction ss as [|s ss IH]; [done|]. cbn [cleanup_all]. rewrite <- IH, (in_close_frame (USwap s e _) (cleanup_all ss e k)) by done. cbn. naive_solver.
Qed.

Lemma inert_cleanup_all ss e k : inert k -> inert (cleanup_all ss e k).
Proof. intros Hk. induction ss as [|s ss IH]; [done|]. by constructor. Qed.

Lemma keeps_refl t : keeps t t.
Proof. done. Qed.

Lemma keeps_put it t : keeps t (snd (put_item it t)).
Proof. unfold put_item. by destruct (ControlBuffer.put it (cb t)) as [[e w] b]. Qed.

Lemma keeps_execute f it t : keeps t (snd (f t)) -> keeps t (snd (execute_put f it t)).
Proof.
  intros Hf. unfold execute_put. destruct (ControlBuffer.err (cb t)); [done|]. destruct (f t) as [ok t1].
  by destruct (ControlBuffer.executeAndPut _ _ _) as [[r w] b].
Qed.

Lemma keeps_offer t : keeps t (offer_quota t).
Proof. unfold offer_quota. by destruct (_ && _). Qed.

Lemma keeps_foldr f t ss : keeps t (foldr (fun s => upd s (f s)) t ss).
Proof. induction ss as [|s ss IH]; [done|]. exact IH. Qed.

Create HintDb shape.
#[export] Hint Resolve keeps_refl keeps_put keeps_offer keeps_foldr inert_tails tails_one : shape.

Lemma shape_one t x t' x' :
  conts x = [x] -> h_closing x = false -> keeps t t' -> tails x' -> shape t x t' x'.
Proof.
  intros Hc Hx [K1 K2] Ht. split; [done|by rewrite K2|rewrite K1; by left|]. intros HE. by apply in_close_one in HE.
Qed.

Lemma shape_pop t x k t' :
  conts x = x :: conts k -> h_closing x = false -> tails x -> keeps t t' -> shape t x t' k.
Proof.
  intros Hc Hx Ht [K1 K2]. split; [by apply inert_tails, (tails_frame x k)|by rewrite K2|rewrite K1; by left|].
  intros HE. apply (in_close_frame x k) in HE as [HE|HE]; [congruence|by left|done].
Qed.

Lemma shape_next t x x' k t' :
  conts x = x :: conts k -> conts x' = x' :: conts k -> tails x -> keeps t t' -> (h_closing x = true -> h_closing x' = true) ->
  shape t x t' x'.
Proof.
  intros Hc Hc' Ht [K1 K2] Hh. split; [by apply (tails_frame x' k), (tails_frame x k)|by rewrite K2|rewrite K1; by left|].
  intros HE. left. apply (in_close_frame x' k); [done|]. apply (in_close_frame x k) in HE as [HE|HE]; [left; auto|by right|done].
Qed.

Section live.
Context `{!HeaderLib}.

(** Splits the case analysis of a step, whatever it matches on. *)
#[local] Ltac split_step E :=
  repeat (cbn [mbind option_bind] in E;
    match type of E with
    | Some _ = Some _ => injection E as <- <-
    | None = Some _ => discriminate E
    | mbind _ ?d = _ => destruct d eqn:?
    | context [match ?d with _ => _ end] =>
        lazymatch d with context [match _ with _ => _ end] => fail | _ => destruct d eqn:? end
    end).

#[local] Ltac tails_tac :=
  repeat case_match; first [by apply tails_one | apply inert_tails; by repeat constructor
    | apply inert_tails, inert_put_if; by repeat constructor | apply inert_tails, inert_close_all; by repeat constructor].

#[local] Ltac one_step := apply shape_one; [done|done|by repeat case_match|tails_tac].

Lemma handlers_shape x t t' x' :
  (handleData x t = Some (t', x') \/ handleRSTStream x t = Some (t', x') \/ operateHeaders x t = Some (t', x')) ->
  shape t x t' x'.
Proof.
  intros [E|[E|E]]; destruct x; try done; cbn [handleData handleRSTStream operateHeaders] in E; unfold close_headerChan in E;
    split_step E; one_step.
Qed.

Lemma callers_shape x c t t' x' :
  (readClient x c t = Some (t', x') \/ Write_step x c t = Some (t', x') \/ Tick x t = Some (t', x')
   \/ replenish_step x t = Some (t', x')) ->
  shape t x t' x'.
Proof.
  intros [E|[E|[E|E]]]; destruct x; try done; cbn [readClient Write_step Tick replenish_step] in E.
  9:{ pose proof (keeps_put it t) as K. destruct (put_item it t). injection E as <- <-. apply shape_one; [done|done|done|tails_tac]. }
  all: split_step E; one_step.
Qed.

Lemma checkForStreamQuota_keeps s firstTry t : keeps t (snd (checkForStreamQuota s firstTry t)).
Proof.
  destruct (Z.leb_spec (streamQuota t) 0) as [Hq|Hq].
  - unfold checkForStreamQuota. rewrite (proj2 (Z.leb_le _ _) Hq). by destruct firstTry.
  - rewrite checkForStreamQuota_granted by done.
    assert (K : keeps t (granted s firstTry t)) by (by destruct firstTry).
    destruct (t_state t) eqn:Es, (activeStreams t); try done; cbn [snd]; unfold keeps;
      match goal with |- context [offer_quota ?u] => by destruct (keeps_offer u) as [-> ->] end.
Qed.

Lemma new_shape s firstTry ch t t' x' : NewStream_try s firstTry ch t = Some (t', x') -> shape t (NTry s firstTry ch) t' x'.
Proof.
  intros E. unfold NewStream_try in E. destruct (streams t !! s) as [y|]; [|done]. cbn [mbind option_bind] in E.
  match type of E with context [execute_put ?f ?it t] => assert (K : keeps t (snd (execute_put f it t))) end.
  { apply keeps_execute. destruct (checkForHeaderListSize _ _); [apply checkForStreamQuota_keeps|done]. }
  destruct (execute_put _ _ t) as [[r e] t1]. cbn [snd] in K. split_step E; (apply shape_one; [done|done|done|by apply tails_one]).
Qed.

Lemma wait_shape s ch c t t' x' : NewStream_wait s ch c t = Some (t', x') -> shape t (NWait s ch) t' x'.
Proof. intros E. unfold NewStream_wait in E. split_step E; one_step. Qed.

Lemma addBack_keeps a t : keeps t (snd (execute_put addBackStreamQuota (cleanup_item a) t)).
Proof. apply keeps_execute. unfold addBackStreamQuota. cbn [snd]. unfold keeps. by destruct (keeps_offer (set_streamQuota (streamQuota t + 1) t)) as [-> ->]. Qed.

Lemma closing_shape x t t' x' :
  tails x -> x' <> DoubleClose ->
  (cleanup_step x t = Some (t', x') \/ closeStream_step x t = Some (t', x')) -> shape t x t' x'.
Proof.
  intros Ht Hd [E|E]; destruct x; try done; cbn [cleanup_step closeStream_step] in E; unfold close_headerChan in E;
    split_step E; repeat case_match; try done;
    first [by eapply shape_pop | eapply shape_next; [done|done|done|first [done|apply addBack_keeps]|done]].
Qed.

Lemma close_shape x t t' x' : tails x -> Close_step x t = Some (t', x') -> shape t x t' x'.
Proof.
  intros Ht E; destruct x; try done; cbn [Close_step] in E.
  - destruct (decide (t_state t = closing)); injection E as <- <-; [by eapply shape_pop|].
    split; [by apply (tails_frame _ x), (tails_frame (KClose e x) x)|done|right; by apply (in_close_frame _ x); [|left]|].
    intros _. left. by apply (in_close_frame _ x); [|left].
  - injection E as <- <-. by eapply shape_next.
  - destruct (ControlBuffer.finish e (cb t)) as [[e0 orphans] b]. injection E as <- <-.
    apply (tails_frame (KFinish e ss x) x) in Ht; [|done]. split; [|done|by left|].
    + apply inert_tails, inert_cleanup_all. by constructor.
    + intros _. left. apply in_cleanup_all. by apply (in_close_frame _ x); [|left].
  - injection E as <- <-. apply (tails_frame (KCancel e ss x) x) in Ht; [|done]. split; [by apply inert_tails, inert_close_all|done|by left|by right].
Qed.

Lemma graceful_shape t : shape t GClose (GracefulClose t).1 (GracefulClose t).2.
Proof.
  unfold GracefulClose. destruct (t_state t) eqn:Es; cbn [fst snd]; (split; [|done|cbn|by intros HE%in_close_one]); try (by rewrite Es); try done; try (by left);
    repeat case_match; by apply inert_tails; repeat constructor.
Qed.

Lemma goaway_shape id code debug t : shape t (GoAwayLock id code debug) (handleGoAway id code debug t).1 (handleGoAway id code debug t).2.
Proof.
  assert (N : ~ in_close (GoAwayLock id code debug)) by by apply in_close_one.
  unfold handleGoAway. destruct (decide (t_state t = closing)) as [Ec|Ec]; [split; [by apply tails_one|done|by left|by intros HE%N]|].
  destruct (_ && _); [split; [by apply inert_tails; repeat constructor|done|done|by intros HE%N]|].
  destruct (_ && _); [split; [by apply inert_tails; repeat constructor|done|done|by intros HE%N]|].
  cbn zeta. rewrite close_goAway_ok. set (t1 := set_prevGoAwayID _ _). set (d := if negb _ then Put IncomingGoAway Idle else Idle).
  assert (Hd : inert d) by (unfold d; destruct (negb _); by repeat constructor).
  assert (K1 : t_state t1 <> closing) by (unfold t1; by destruct (negb (goAway_ t))).
  assert (K2 : ctxDone t1 = ctxDone t) by (unfold t1; by destruct (negb (goAway_ t))).
  destruct (actives t1) eqn:Ea; cbn [fst snd].
  - split; [|by rewrite K2|done|by intros HE%N]. destruct (_ && _); apply inert_tails; by repeat constructor.
  - destruct (keeps_foldr (fun _ => set_unprocessed true) t1 (rejected id (if prevGoAwayID t =? 0 then 2 ^ 32 - 1 else prevGoAwayID t) t1)) as [F1 F2].
    split; [|by rewrite F2, K2|by rewrite F1|by intros HE%N].
    destruct (_ && _); apply inert_tails; [constructor; [done|]|]; by apply inert_close_all.
Qed.

Lemma settings_shape p isFirst t : shape t (Settings p isFirst) (handleSettings p isFirst t) Idle.
Proof.
  apply shape_one; [done|done| |by apply tails_one]. unfold handleSettings. cbn zeta. apply keeps_execute. cbn [snd].
  unfold updateStreamQuota. repeat case_match; done.
Qed.

Lemma flow_shape x t t' x' : updateFlowControl x t = Some (t', x') -> shape t x t' x'.
Proof.
  intros E. destruct x; try done; cbn [updateFlowControl] in E.
  - destruct (TrInFlow.newLimit _ _) as [f w]. injection E as <- <-. one_step.
  - injection E as <- <-. apply shape_one; [done|done| |apply inert_tails; by repeat constructor].
    apply keeps_execute. cbn [snd]. apply (keeps_foldr (fun _ x => set_s_fc (InFlow.newLimit n (s_fc x)) x)).
Qed.

Lemma exec_shape c t x t' x' : tails x -> x' <> DoubleClose -> exec c t x = Some (t', x') -> shape t x t' x'.
Proof.
  intros Ht Hd E. destruct x; cbn [exec] in E; try done;
    try (apply handlers_shape; by eauto); try (apply (callers_shape _ c); by eauto); try (by apply new_shape); try (by eapply wait_shape);
    try (apply closing_shape; by eauto); try (by apply close_shape); try (by apply flow_shape).
  - injection E as <- <-. eapply shape_pop; [done|done|done|apply keeps_put].
  - injection E as E. pose proof (graceful_shape t) as G. by rewrite E in G.
  - unfold adjustWindow in E. split_step E; one_step.
  - unfold updateWindow in E. split_step E; one_step.
  - injection E as <- <-. apply settings_shape.
  - injection E as E. pose proof (goaway_shape id code debug t) as G. by rewrite E in G.
  - injection E as <- <-. by eapply shape_pop.
  - apply (inj Some) in E. unfold stream_error in E. injection E as <- <-. one_step.
  - injection E as E. unfold initStream_ in E. destruct (t_state t); injection E as <- <-; one_step.
  - unfold cleanup_onWrite in E. split_step E; one_step.
Qed.

(** * The end of a transport *)

Record linv (y : sys) : Prop := mkLinv {
  l_tails : Forall tails (threads y);
  l_close : t_state (tr y) = closing -> ctxDone (tr y) = true \/ Exists in_close (threads y)
}.

Lemma linv_step t xs i x t' x' : linv (mkSys t xs) -> xs !! i = Some x -> shape t x t' x' -> linv (mkSys t' (<[i := x']> xs)).
Proof.
  intros [L1 L2] Hi [S1 S2 S3 S4]. cbn [tr threads] in *. split; cbn [tr threads]; [by apply Forall_insert|].
  assert (Hx' : in_close x' -> Exists in_close (<[i := x']> xs)).
  { intros Hx'. apply Exists_exists. exists x'. split; [|done]. apply list_elem_of_lookup. exists i. by eapply list_lookup_insert_eq, lookup_lt_Some. }
  intros Hc. destruct (S3 Hc) as [Hc'|]; [|by right; apply Hx']. destruct (L2 Hc') as [Hd|HE]; [by left; apply S2|].
  destruct (ctxDone t') eqn:Ed; [by left|right]. apply Exists_exists in HE as (z & Hz & Pz). apply list_elem_of_lookup in Hz as [j Hj].
  destruct (decide (j = i)) as [->|]; [simplify_eq; apply Hx'; by destruct (S4 Pz)|].
  apply Exists_exists. exists z. split; [|done]. apply list_elem_of_lookup. exists j. by rewrite list_lookup_insert_ne.
Qed.

Lemma lstep_linv n l y y' :
  cinv n (tr y') (threads y') -> linv y -> lstep l y = Some y' -> linv y'.
Proof.
  intros I L E. destruct y as [t xs]. destruct l; cbn [lstep tr threads] in E.
  - destruct (started o t) as [[t' x]|] eqn:Es; [|done]. injection E as <-. destruct L as [L1 L2]. cbn [tr threads] in *.
    assert (S : keeps t t' /\ tails x).
    { destruct o; cbn [started] in Es; split_step Es; split; try done; try (by apply tails_one); apply inert_tails; by repeat constructor. }
    destruct S as [[K1 K2] Ht]. split; cbn [tr threads]; [apply Forall_app; split; [done|by constructor]|].
    rewrite K1, K2. intros Hc. destruct (L2 Hc); [by left|right]. apply Exists_app. by left.
  - destruct (xs !! i) as [x|] eqn:Hi; [|done]. cbn [mbind option_bind] in E.
    destruct (exec c t x) as [[t' x']|] eqn:Ee; [|done]. injection E as <-. cbn [tr threads] in I.
    eapply linv_step; [exact L|exact Hi|]. apply (exec_shape c).
    + destruct L as [L1 _]. by eapply Forall_lookup_1 in L1.
    + pose proof (v_ok _ _ _ I) as F. eapply (Forall_lookup_1 _ _ i x') in F.
      * intros ->. apply Forall_cons in F as [[F _] _]. done.
      * by eapply list_lookup_insert_eq, lookup_lt_Some.
    + done.
  - destruct (xs !! 0%nat) as [x|] eqn:Hi; [|done]. cbn [mbind option_bind] in E.
    destruct (reader_pcs i bdp calc late t) as [[R1 _] [R2 _]].
    destruct x; try done; injection E as <-; (eapply linv_step; [exact L|exact Hi|]; apply shape_one; [done|done|done|by apply inert_tails]).
  - destruct (xs !! 1%nat) as [x|] eqn:Hi; [|done]. cbn [mbind option_bind] in E. destruct x; try done.
    destruct (writer_next c t) as [[t' x']|] eqn:Ee; [|done]. injection E as <-. eapply linv_step; [exact L|exact Hi|].
    destruct c; cbn [writer_next] in Ee; split_step Ee; (apply shape_one; [done|done|done|]);
      try (by apply tails_one); try (by apply inert_tails, inert_cleanup_all; repeat constructor).
    all: unfold handle_item; repeat case_match; by apply tails_one.
  - destruct (xs !! 1%nat) as [x|] eqn:Hi; [|done]. cbn [mbind option_bind] in E.
    destruct (streams t !! s) as [z|]; [|done]. cbn [mbind option_bind] in E. destruct x; try done. destruct (_ && _); [|done].
    injection E as <-. eapply linv_step; [exact L|exact Hi|]. by apply shape_one; [done|done|done|apply tails_one].
  - destruct (streams t !! s) as [x|]; [|done]. cbn [mbind option_bind] in E. destruct (s_ctx x); [done|]. injection E as <-.
    destruct L as [L1 L2]. by split.
  - injection E as <-. destruct L as [L1 L2]. split; [done|]. by left.
Qed.

Lemma lrun_linv ls : forall n y y',
  0 <= n -> n + lenZ ls < 2 ^ 31 -> cinv n (tr y) (threads y) -> linv y -> lrun ls y = Some y' -> linv y'.
Proof.
  induction ls as [|l ls IH]; intros n y y' H0 Hn I L E; cbn [lrun] in E; [by injection E as <-|].
  destruct (lstep l y) as [y1|] eqn:El; [|done]. cbn [mbind option_bind] in E. unfold lenZ in *. cbn [length] in *. rewrite Nat2Z.inj_succ in *.
  assert (I1 : cinv (n + 1) (tr y1) (threads y1)) by (eapply system_inv; [lia|exact I|exact El]).
  eapply (IH (n + 1) y1); [lia|lia|exact I1|by eapply lstep_linv|exact E].
Qed.

Lemma run_linv icwz iws ls y : lenZ ls < 2 ^ 31 -> lrun ls (init icwz iws) = Some y -> linv y.
Proof.
  intros Hl E. eapply (lrun_linv ls 0); [lia|lia|apply init_inv| |exact E]. split; [|done]. by repeat constructor.
Qed.

(** Where a goroutine may stay: at the end, waiting for the connection, or reading a stream. *)
Definition resting (x : pc) : bool :=
  match x with Idle | RFirst | Finished _ | Panicked | Reading _ | Receive _ => true | _ => false end.

(** No goroutine can move, whatever it selects. *)
Definition stuck (y : sys) : Prop := forall i x c, threads y !! i = Some x -> exec c (tr y) x = None.

(** What a goroutine waits for. *)
Definition waits_for (t : http2Client) (x : pc) : bool :=
  match x with NWait _ _ => ctxDone t | CLost s _ | WWait s _ _ _ => has done s t | _ => true end.

#[local] Ltac never_none E :=
  repeat (cbn [mbind option_bind] in E;
    match type of E with
    | Some _ = None => discriminate E
    | mbind _ (streams _ !! _) = None => match goal with Hs : context [streams _ !! _ = Some _] |- _ =>
        let z := fresh "z" in let Hz := fresh "Hz" in
        match type of E with mbind _ (streams _ !! ?s) = _ => destruct (Hs s ltac:(by left)) as [z Hz]; rewrite Hz in E end end
    | context [match ?d with _ => _ end] =>
        lazymatch d with context [match _ with _ => _ end] => fail | _ => destruct d eqn:? end
    end).

Lemma moves n t xs i x :
  cinv n t xs -> xs !! i = Some x -> resting x = false -> waits_for t x = true -> exists c r, exec c t x = Some r.
Proof.
  intros I Hi Hr Hw. pose proof (tgt_ok n t xs i I x) as Ht. pose proof (at_ok n t xs i I x Hi) as Hok.
  assert (Hs : forall s, s ∈ h_tgt x -> exists z, streams t !! s = Some z).
  { intros s Hs. specialize (Ht s Hi Hs). unfold is_returned, has in Ht. destruct (streams t !! s); [eauto|done]. }
  clear Ht. destruct x; try done;
    lazymatch goal with
    | |- context [exec _ t DoubleClose] => by apply Forall_cons in Hok as [[? _] _]
    | |- context [NWait] => exists TakeDone; cbn in Hw; cbn; rewrite Hw; by eauto
    | |- context [WWait] => exists TakeDone; destruct (Hs s ltac:(by left)) as [z Hz]; cbn in Hw; unfold has in Hw; rewrite Hz in Hw;
        cbn; rewrite Hz; cbn; rewrite Hw; by eauto
    | |- context [NTry ?s _ _] => exists Go; destruct (being_made n t xs i I s _ Hi) as (z & Hz & _);
        [cbn; rewrite bool_decide_true by done; cbn; lia|]; cbn [exec]; unfold NewStream_try; rewrite Hz;
        cbn [mbind option_bind]; repeat case_match; by eauto
    | |- context [exec _ t ?x] => exists Go; destruct (exec Go t x) as [r|] eqn:E; [by eauto|exfalso]; cbn [exec] in E
    end;
    cbv delta [cleanup_step close_headerChan replenish_step closeStream_step Close_step Write_step adjustWindow updateWindow readClient handleData
      handleRSTStream operateHeaders updateFlowControl Tick cleanup_onWrite] in E; cbv beta match zeta in E; try never_none E.
  unfold waits_for, has in Hw. rewrite Hz in Hw. congruence.
Qed.

Lemma stuck_head n y i x :
  cinv n (tr y) (threads y) -> stuck y -> threads y !! i = Some x -> waits_for (tr y) x = false \/ resting x = true.
Proof.
  intros I S Hi. destruct (resting x) eqn:Hr; [by right|left]. destruct (waits_for (tr y) x) eqn:Hw; [|done].
  destruct (moves n _ _ _ _ I Hi Hr Hw) as (c & r & E). by rewrite (S i x c Hi) in E.
Qed.

(** An owner of a stream, and a caller about to try again, can always go on. *)
Lemma stuck_total n y i x f :
  cinv n (tr y) (threads y) -> linv y -> stuck y -> threads y !! i = Some x ->
  (forall z, h_inert z = true -> f z = 0) -> (forall s ch, f (NWait s ch) = 0) -> total f x = 0.
Proof.
  intros I [L _] S Hi Hf Hn. eapply Forall_lookup_1 in L; [|exact Hi]. pose proof (stuck_head _ _ _ _ I S Hi) as Hw.
  destruct x; try (by destruct Hw); try (rewrite total_one by done; first [by apply Hf|by apply Hn]).
  apply (tails_frame (CLost s x) x) in L; [|done]. rewrite (total_frame _ (CLost s x) x) by done. rewrite Hf by done. by apply inert_total.
Qed.

Lemma sum_zero {A} (f : A -> Z) l : (forall x, x ∈ l -> f x = 0) -> sumZ (f <$> l) = 0.
Proof.
  induction l as [|x l IH]; [done|]. intros Hf. rewrite fmap_cons, sumZ_cons, (Hf x), IH; [done| |by left]. intros y Hy. apply Hf. by right.
Qed.

Lemma stuck_done n y s :
  cinv n (tr y) (threads y) -> linv y -> stuck y -> has done s (tr y) = is_done (tr y) s.
Proof.
  intros I L S. pose proof (v_own _ _ _ I s) as Ho. rewrite sum_zero in Ho.
  - destruct (has done s (tr y)), (is_done (tr y) s); cbn in Ho; lia || done.
  - intros x [i Hi]%list_elem_of_lookup. eapply stuck_total; try done. by intros [].
Qed.

(** A goroutine that cannot move rests, or waits for the end of the transport or of its
    stream. *)
Definition waits (t : http2Client) (x : pc) : Prop :=
  match x with
  | NWait _ _ => ctxDone t = false
  | WWait s _ _ _ => has done s t = false
  | _ => resting x = true
  end.

Lemma stuck_waits n y i x :
  cinv n (tr y) (threads y) -> linv y -> stuck y -> threads y !! i = Some x -> waits (tr y) x.
Proof.
  intros I L S Hi. destruct (stuck_head _ _ _ _ I S Hi) as [Hw|Hr]; [|by destruct x].
  destruct x; try done. exfalso. cbn in Hw. rewrite (stuck_done n y) in Hw by done.
  pose proof (at_ok n _ _ i I _ Hi) as Hok. apply Forall_cons in Hok as [(_ & _ & Hok) _]. congruence.
Qed.

(** Such a goroutine is not in Close and has no stream to close. *)
Lemma waits_idle t x : waits t x -> ~ in_close x /\ forall s, ~ pend s x.
Proof.
  intros Hw. assert (Hc : conts x = [x]) by (by destruct x). split.
  - apply in_close_one; [done|by destruct x].
  - intros s Hp. apply pend_last in Hp; [|done]. destruct x; try done; by apply not_elem_of_nil in Hp.
Qed.

Lemma stuck_closed n y s x :
  cinv n (tr y) (threads y) -> linv y -> stuck y -> t_state (tr y) = closing ->
  streams (tr y) !! s = Some x -> returned x = true -> done x = true.
Proof.
  intros I L S Hc Hx Hr. pose proof (stuck_done _ _ s I L S) as D. unfold has, is_done, has in D. rewrite Hx in D. rewrite D.
  destruct (finished x) eqn:Hf; [done|exfalso]. pose proof (v_active _ _ _ I) as A.
  destruct (activeStreams (tr y)); [by destruct A|]. destruct A as [_ A]. specialize (A _ _ Hx Hr Hf).
  apply Exists_exists in A as (z & [i Hi]%list_elem_of_lookup & A).
  pose proof (stuck_waits _ _ _ _ I L S Hi) as Hw. by apply (waits_idle _ _ Hw) in A.
Qed.

Lemma stuck_rests n y :
  cinv n (tr y) (threads y) -> linv y -> stuck y -> t_state (tr y) = closing ->
  Forall (fun x => resting x = true) (threads y).
Proof.
  intros I L S Hc. apply Forall_forall. intros x [i Hi]%list_elem_of_lookup.
  pose proof (stuck_waits _ _ _ _ I L S Hi) as Hw. destruct x; try done; exfalso; cbn in Hw.
  - destruct L as [L1 L2]. destruct (L2 Hc) as [|HE]; [congruence|]. apply Exists_exists in HE as (x & [j Hj]%list_elem_of_lookup & HE).
    assert (L : linv y) by by split. by apply (waits_idle _ _ (stuck_waits _ _ _ _ I L S Hj)) in HE.
  - pose proof (tgt_ok n _ _ i I _ s Hi ltac:(by left)) as Ht. unfold is_returned, has in Ht, Hw.
    destruct (streams (tr y) !! s) as [z|] eqn:Hz; [|done]. by rewrite (stuck_closed n y s z) in Hw.
Qed.

(** C18: after Close nothing is left behind, whatever the interleaving of the callers, the
    reader, the writer and the ticker that led there (for fewer than 2^31 steps, so that no
    counter wraps).  When the transport is closing and no goroutine can take a step, every
    stream NewStream has returned is closed (its done channel is closed, so the callers that
    select on it return), and no goroutine is left in NewStream, Write, closeStream or Close,
    not even a Write that waits for write quota nobody will give back: each has ended, waits
    for the connection, reads a stream, or has panicked on a malformed status. *)
Theorem closed_transport_leaves_nothing icwz iws ls y :
  lenZ ls < 2 ^ 31 -> lrun ls (init icwz iws) = Some y ->
  t_state (tr y) = closing -> stuck y ->
  (forall s x, streams (tr y) !! s = Some x -> returned x = true -> done x = true)
  /\ Forall (fun x => resting x = true) (threads y).
Proof.
  intros Hl E Hc S. pose proof (client_run_inv _ _ _ _ Hl E) as I. pose proof (run_linv _ _ _ _ Hl E) as L.
  split; [|by eapply stuck_rests]. intros s x. by eapply stuck_closed.
Qed.

(** C24: no lost wake-up. While a client transport is open and the server sets no limit on the
    header list, if no goroutine can take a step and the stream quota is positive, then no
    caller is left waiting in NewStream, whatever interleaving of fewer than 2^31 steps led
    there. *)
Theorem no_caller_waits_for_available_quota icwz iws ls y :
  lenZ ls < 2 ^ 31 -> lrun ls (init icwz iws) = Some y ->
  Open (tr y) -> maxSendHeaderListSize (tr y) = None -> 0 < streamQuota (tr y) -> stuck y ->
  forall i s ch, threads y !! i <> Some (NWait s ch).
Proof.
  intros Hl E HO HN Hq S i s ch Hi. pose proof (client_run_inv _ _ _ _ Hl E) as I. pose proof (run_linv _ _ _ _ Hl E) as L.
  pose proof (at_ok _ _ _ i I _ Hi) as Hok. apply Forall_cons in Hok as [(_ & _ & Hok) _]. destruct (Hok HO) as (g & -> & Hg).
  pose proof (S i _ TakeChan Hi) as St. cbn [exec NewStream_wait mbind option_bind] in St. destruct (g <? quotaChan (tr y))%nat eqn:Hge; [done|]. apply Nat.ltb_ge in Hge.
  destruct (quotaToken (tr y)) eqn:Ht; [done|].
  destruct (v_wake _ _ _ I HO HN Hq) as [Hw|Hw].
  - apply Exists_exists. exists (NWait s (Some g)). split; [by eapply list_elem_of_lookup_2|]. constructor. exists s. do 2 f_equal. lia.
  - congruence.
  - rewrite sum_zero in Hw; [lia|]. intros x [j Hj]%list_elem_of_lookup. eapply stuck_total; try done. by intros [].
Qed.
End live.

(** * Runs *)

Definition choices : list choice := [Go; TakeChan; TakeCtx; TakeGoAway; TakeDone; WriterFails].

Definition stuckb `{!HeaderLib} (y : sys) : bool :=
  forallb (fun x => forallb (fun c => negb (is_some (exec c (tr y) x))) choices) (threads y).

Lemma stuckb_ok `{!HeaderLib} y : stuckb y = true -> stuck y.
Proof.
  intros Hb i x c Hi. unfold stuckb in Hb. rewrite forallb_forall in Hb. apply list_elem_of_lookup_2, list_elem_of_In in Hi.
  specialize (Hb _ Hi). rewrite forallb_forall in Hb. specialize (Hb c ltac:(destruct c; cbn; tauto)). by destruct (exec c (tr y) x).
Qed.

Definition run_of (ls : list label) : sys := default (init 65535 65535) (lrun ls (init 65535 65535)).

Definition one_stream : list label := recv_settings [(SettingMaxConcurrentStreams, 1)] ++ [LStart (ONew [])] ++ steps 2 1.

(** A caller has a stream and reads it, another waits for the quota of streams, and a third
    has used up the write quota of the stream and waits for it; the transport is closed. *)
Definition close_run : list label :=
  one_stream ++ [LStart (ONew []); LRun 3 Go; LStart (ORead 0);
    LStart (OWrite 0 None (Some (replicate (Z.to_nat defaultWriteQuota) Byte.x00)) false)] ++ steps 5 4
  ++ [LStart (OWrite 0 None (Some [Byte.x00]) false)] ++ steps 6 2
  ++ [LStart (OClose (ConnectionError "closed" true false))]
  ++ steps 7 10 ++ [LRun 3 TakeDone; LRun 6 TakeDone; LRun 6 Go] ++ steps 4 2.

Lemma closed_transport_leaves_nothing_witness :
  done <$> streams (tr (run_of close_run)) !! 0%nat = Some true
  /\ Forall (fun x => resting x = true) (threads (run_of close_run)).
Proof.
  destruct (closed_transport_leaves_nothing 65535 65535 close_run (run_of close_run)) as [Hd Hr];
    [done|by vm_compute|by vm_compute|by apply stuckb_ok; vm_compute|].
  split; [|done]. destruct (streams (tr (run_of close_run)) !! 0%nat) as [x|] eqn:Hx; [|by vm_compute in Hx].
  cbn. f_equal. apply (Hd 0%nat x Hx). assert (Hv : returned <$> streams (tr (run_of close_run)) !! 0%nat = Some true) by by vm_compute.
  rewrite Hx in Hv. by injection Hv.
Defined.

(** The stream is closed while two callers wait; the first gets the quota, then the second. *)
Definition wake_run : list label :=
  recv_settings [(SettingMaxConcurrentStreams, 2)]
  ++ [LStart (ONew []); LRun 2 Go; LStart (ONew []); LRun 3 Go; LStart (ONew []); LRun 4 Go;
      LStart (OCloseStream 0 None)] ++ steps 5 5 ++ [LRun 4 TakeChan; LRun 4 Go; LStart (OCloseStream 1 None)] ++ steps 6 5.

Lemma no_caller_waits_for_available_quota_witness :
  streamQuota (tr (run_of wake_run)) = 1 /\ forall i s ch, threads (run_of wake_run) !! i <> Some (NWait s ch).
Proof.
  split; [by vm_compute|].
  apply (no_caller_waits_for_available_quota 65535 65535 wake_run (run_of wake_run));
    [done|by vm_compute|by split; vm_compute|by vm_compute|by vm_compute|by apply stuckb_ok; vm_compute].
Defined.

(** With a limit on the header list the wake-up can be lost: the caller that takes it returns
    with the error of the limit and does not pass it on, so another waits although the quota
    is positive and no goroutine can move. *)
Definition lost_run : list label :=
  one_stream
  ++ [LStart (ONew [(bs "key", bs "value")]); LRun 3 Go; LStart (ONew []); LRun 4 Go]
  ++ recv_settings [(SettingMaxHeaderListSize, 10)]
  ++ [LStart (OCloseStream 0 None)] ++ steps 5 5 ++ [LRun 3 TakeChan; LRun 3 Go].

Lemma header_limit_loses_wakeup :
  lrun lost_run (init 65535 65535) = Some (run_of lost_run)
  /\ Open (tr (run_of lost_run)) /\ streamQuota (tr (run_of lost_run)) = 1 /\ stuck (run_of lost_run)
  /\ exists s ch, threads (run_of lost_run) !! 4%nat = Some (NWait s ch).
Proof.
  split; [by vm_compute|]. split; [by split; vm_compute|]. split; [by vm_compute|]. split; [by apply stuckb_ok; vm_compute|].
  do 2 eexists. by vm_compute.
Qed.

(** After GracefulClose with a stream still active, NewStream neither fails nor makes a
    stream: it takes the quota and an id, and waits on a nil channel. *)
Definition drain_run : list label :=
  recv_settings [(SettingMaxConcurrentStreams, 5)]
  ++ [LStart (ONew []); LRun 2 Go; LStart OGracefulClose] ++ steps 3 2 ++ [LStart (ONew []); LRun 4 Go].

Lemma draining_new_stream_waits :
  lrun drain_run (init 65535 65535) = Some (run_of drain_run)
  /\ t_state (tr (run_of drain_run)) = draining /\ streamQuota (tr (run_of drain_run)) = 3 /\ stuck (run_of drain_run)
  /\ threads (run_of drain_run) !! 4%nat = Some (NWait 1 None).
Proof.
  split; [by vm_compute|]. split; [by vm_compute|]. split; [by vm_compute|]. split; [by apply stuckb_ok; vm_compute|by vm_compute].
Qed.
