(* ===== verification/Json.v ===== *)
(** The hand-written JSON codec of string maps (src/pkg/utils/json.go), which takes over when
    the JSON library panics.

    The decoder works on one buffer: the strings it returns are slices of the buffer (made
    with unsafe), and an escape is decoded by appending to such a slice, that is by writing
    into the buffer behind the reader.  [slice] keeps the aliasing; the contents of a string
    are read from the buffer as it is at the end. *)

From S2P Require Import Prelude GoText.

(** * Bytes *)

Definition Comma : byte := Byte.x2c.
Definition Colon : byte := Byte.x3a.
Definition DQuotation : byte := Byte.x22.
Definition LeftBrace : byte := Byte.x7b.
Definition RightBrace : byte := Byte.x7d.
Definition Backslash : byte := Byte.x5c.
Definition EmptyJSON : text := [LeftBrace; RightBrace].

Definition is_space (c : byte) : bool :=
  Byte.eqb c Byte.x20 || Byte.eqb c Byte.x0a || Byte.eqb c Byte.x09 || Byte.eqb c Byte.x0d.

(** The bytes below 0x80 that are written as they are. *)
Definition htmlSafeSet (c : byte) : bool :=
  (32 <=? byteZ c)
  && negb (Byte.eqb c DQuotation || Byte.eqb c Byte.x26 || Byte.eqb c Byte.x3c || Byte.eqb c Byte.x3e || Byte.eqb c Backslash).

(** * Encoding *)

Definition hex (z : Z) : byte := default Byte.x00 (at_ (bs "0123456789abcdef") z).

(** The escape of a byte below 0x80 that is not safe. *)
Definition escape_ascii (b : byte) : text :=
  if Byte.eqb b Backslash || Byte.eqb b DQuotation then [Backslash; b]
  else if Byte.eqb b Byte.x0a then [Backslash; Byte.x6e]
  else if Byte.eqb b Byte.x0d then [Backslash; Byte.x72]
  else if Byte.eqb b Byte.x09 then [Backslash; Byte.x74]
  else bs "\u00" ++ [hex (Z.shiftr (byteZ b) 4); hex (Z.land (byteZ b) 15)].

(** [s[i:j]] *)
Definition sub (s : text) (i j : nat) : text := take (j - i) (drop i s).

(** The loop; [out] is what the builder holds. *)
Fixpoint wrap_loop (fuel : nat) (s : text) (i start : nat) (out : text) : text :=
  match fuel, s !! i with
  | S fuel, Some c =>
      if (byteZ c <? 128) && htmlSafeSet c then wrap_loop fuel s (S i) start out
      else if byteZ c <? 128 then wrap_loop fuel s (S i) (S i) (out ++ sub s start i ++ escape_ascii c)
      else
        let '(r, size) := DecodeRune (drop i s) in
        if (r =? RuneError) && (size =? 1)%nat then
          wrap_loop fuel s (S i) (S i) (out ++ sub s start i ++ bs "\ufffd")
        else if (r =? 8232) || (r =? 8233) then
          wrap_loop fuel s (i + size) (i + size) (out ++ sub s start i ++ bs "\u202" ++ [hex (Z.land r 15)])
        else wrap_loop fuel s (i + size) start out
  | _, _ => out ++ drop start s
  end.

Definition wrapStrWithQuotation (s : text) : text := wrap_loop (length s) s 0 0 [DQuotation] ++ [DQuotation].

Fixpoint write_entries (es : list (text * text)) : text :=
  match es with
  | [] => []
  | (k, v) :: es =>
      wrapStrWithQuotation k ++ [Colon] ++ wrapStrWithQuotation v
      ++ match es with [] => [] | _ => Comma :: write_entries es end
  end.

(** [es]: the entries in the order in which the range over the map yields them. *)
Definition Map2JSONStr_ (es : list (text * text)) : text :=
  match es with [] => EmptyJSON | _ => LeftBrace :: write_entries es ++ [RightBrace] end.

(** * Decoding *)

Inductive jerr :=
| NoMoreData | NoMoreToken | InvalidJSON | ExpectColon (c : byte) | ExpectString (c : byte)
| BadUnicode (c : byte) | BadEscape | Recovered.

(** A byte slice: nil, a part of the buffer, or memory of its own. *)
Inductive slice := Nil | View (off len : nat) | Own (b : text).

Definition contents (buf : text) (s : slice) : text :=
  match s with Nil => [] | View off len => take len (drop off buf) | Own b => b end.

Definition overwrite (buf : text) (off : nat) (x : text) : text := take off buf ++ x ++ drop (off + length x) buf.

(** append(s, x...): in place while the capacity lasts, which for a part of the buffer is up
    to the buffer's end (room the runtime may leave behind it is never needed: an escape is
    longer than what it stands for). *)
Definition append (s : slice) (x : text) (buf : text) : slice * text :=
  match x, s with
  | [], _ => (s, buf)
  | _, Nil => (Own x, buf)
  | _, Own b => (Own (b ++ x), buf)
  | _, View off len =>
      if (off + len + length x <=? length buf)%nat then (View off (len + length x), overwrite buf (off + len) x)
      else (Own (contents buf s ++ x), buf)
  end.

(** Each reader returns its value, the next index and its error; [None] is a panic. *)
Definition readByte (buf : text) (idx lastIdx : Z) : option (byte * Z * option jerr) :=
  if lastIdx <? idx then Some (Byte.x00, -1, Some NoMoreData)
  else c ← at_ buf idx; Some (c, idx + 1, None).

Fixpoint nextToken_loop (fuel : nat) (buf : text) (c : byte) (idx lastIdx : Z) : option (byte * Z * option jerr) :=
  match fuel with
  | O => None
  | S fuel =>
      if idx <=? lastIdx then
        c ← at_ buf idx;
        if is_space c then nextToken_loop fuel buf c (idx + 1) lastIdx else Some (c, idx + 1, None)
      else Some (c, idx, None)
  end.

Definition nextToken (buf : text) (idx lastIdx : Z) : option (byte * Z * option jerr) :=
  if lastIdx <? idx then Some (Byte.x00, -1, Some NoMoreToken)
  else nextToken_loop (S (length buf)) buf Byte.x00 idx lastIdx.

Definition checkNull (c : byte) (data : text) (idx lastIdx : Z) : option (Z * bool) :=
  if Byte.eqb c Byte.x6e then
    '(ch, idx, _) ← readByte data idx lastIdx;
    if negb (Byte.eqb ch Byte.x75) then Some (idx - 1, false)
    else
      '(ch, idx, _) ← readByte data idx lastIdx;
      if negb (Byte.eqb ch Byte.x6c) then Some (idx - 1, false)
      else
        '(ch, idx, _) ← readByte data idx lastIdx;
        if negb (Byte.eqb ch Byte.x6c) then Some (idx - 1, false) else Some (idx, true)
  else Some (idx, false).

Definition hex_digit (c : byte) : option Z :=
  let z := byteZ c in
  if (48 <=? z) && (z <=? 57) then Some (z - 48)
  else if (97 <=? z) && (z <=? 102) then Some (z - 97 + 10)
  else if (65 <=? z) && (z <=? 70) then Some (z - 65 + 10)
  else None.

Fixpoint readU4_loop (n : nat) (ret : Z) (buf : text) (idx lastIdx : Z) : option (Z * Z * option jerr) :=
  match n with
  | O => Some (ret, idx, None)
  | S n =>
      '(c, idx, e) ← readByte buf idx lastIdx;
      match e with
      | Some e => Some (ret, idx, Some e)
      | None =>
          match hex_digit c with
          | Some d => readU4_loop n (ret * 16 + d) buf idx lastIdx
          | None => Some (ret, idx, Some (BadUnicode c))
          end
      end
  end.

Definition readU4 (buf : text) (idx lastIdx : Z) : option (Z * Z * option jerr) := readU4_loop 4 0 buf idx lastIdx.

(** [r] is a rune read from four hexadecimal digits or two of them. *)
Definition appendRune (r : Z) : text :=
  let r := if (1114111 <? r) || ((55296 <=? r) && (r <=? 57343)) then RuneError else r in
  let tail k := Zbyte (Z.lor 128 (Z.land (Z.shiftr r k) 63)) in
  if r <=? 127 then [Zbyte r]
  else if r <=? 2047 then [Zbyte (Z.lor 192 (Z.shiftr r 6)); tail 0]
  else if r <=? 65535 then [Zbyte (Z.lor 224 (Z.shiftr r 12)); tail 6; tail 0]
  else [Zbyte (Z.lor 240 (Z.shiftr r 18)); tail 12; tail 6; tail 0].

(** unicode/utf16 *)
Definition IsSurrogate (r : Z) : bool := (55296 <=? r) && (r <? 57344).
Definition DecodeSurrogates (r1 r2 : Z) : Z :=
  if (55296 <=? r1) && (r1 <? 56320) && (56320 <=? r2) && (r2 <? 57344)
  then (r1 - 55296) * 1024 + (r2 - 56320) + 65536 else RuneError.

Definition simple_escape (c : byte) : option byte :=
  if Byte.eqb c DQuotation then Some DQuotation
  else if Byte.eqb c Backslash then Some Backslash
  else if Byte.eqb c Byte.x2f then Some Byte.x2f
  else if Byte.eqb c Byte.x62 then Some Byte.x08
  else if Byte.eqb c Byte.x66 then Some Byte.x0c
  else if Byte.eqb c Byte.x6e then Some Byte.x0a
  else if Byte.eqb c Byte.x72 then Some Byte.x0d
  else if Byte.eqb c Byte.x74 then Some Byte.x09
  else None.

Abbreviation read_result := (option (slice * Z * option jerr * text)).

(** The cases of readEscapedChar other than u; it calls itself only with one of them. *)
Definition read_simple (c : byte) (buf : text) (idx : Z) (str : slice) : read_result :=
  match simple_escape c with
  | Some b => let '(str, buf) := append str [b] buf in Some (str, idx, None, buf)
  | None => Some (str, idx, Some BadEscape, buf)
  end.

Definition readEscapedChar (c : byte) (buf : text) (idx : Z) (str : slice) (lastIdx : Z) : read_result :=
  if Byte.eqb c Byte.x75 then
    '(r, idx, e) ← readU4 buf idx lastIdx;
    match e with
    | Some _ => Some (str, idx, e, buf)
    | None =>
        if IsSurrogate r then
          '(c, idx, e) ← readByte buf idx lastIdx;
          match e with
          | Some _ => Some (str, idx, e, buf)
          | None =>
              if negb (Byte.eqb c Backslash) then
                let '(str, buf) := append str (appendRune r) buf in Some (str, idx - 1, None, buf)
              else
                '(c, idx, e) ← readByte buf idx lastIdx;
                match e with
                | Some _ => Some (str, idx, e, buf)
                | None =>
                    if negb (Byte.eqb c Byte.x75) then
                      let '(str, buf) := append str (appendRune r) buf in read_simple c buf idx str
                    else
                      '(r2, idx, e) ← readU4 buf idx lastIdx;
                      match e with
                      | Some _ => Some (str, idx, e, buf)
                      | None =>
                          let combined := DecodeSurrogates r r2 in
                          if combined =? RuneError then
                            let '(str, buf) := append str (appendRune r) buf in
                            let '(str, buf) := append str (appendRune r2) buf in
                            Some (str, idx, None, buf)
                          else
                            let '(str, buf) := append str (appendRune combined) buf in Some (str, idx, None, buf)
                      end
                end
          end
        else let '(str, buf) := append str (appendRune r) buf in Some (str, idx, None, buf)
    end
  else read_simple c buf idx str.

(** [buf[i:j]] *)
Definition view (buf : text) (i j : Z) : option slice :=
  if (0 <=? i) && (i <=? j) && (j <=? lenZ buf) then Some (View (Z.to_nat i) (Z.to_nat (j - i))) else None.

(** What precedes a quote or a backslash is added to [str]. *)
Definition take_chunk (buf : text) (start idx : Z) (noESC : bool) (str : slice) : option (slice * text) :=
  if start <? idx - 1 then
    v ← view buf start (idx - 1);
    Some (if noESC then (v, buf) else append str (contents buf v) buf)
  else Some (str, buf).

Fixpoint readString_loop (fuel : nat) (buf : text) (c : byte) (idx lastIdx start : Z) (noESC : bool) (str : slice)
    : read_result :=
  match fuel with
  | O => None
  | S fuel =>
      if idx <=? lastIdx then
        '(c, idx, e) ← readByte buf idx lastIdx;
        match e with
        | Some _ => Some (Nil, idx, e, buf)
        | None =>
            if Byte.eqb c DQuotation then
              '(str, buf) ← take_chunk buf start idx noESC str;
              Some (str, idx, None, buf)
            else if Byte.eqb c Backslash then
              '(str, buf) ← take_chunk buf start idx noESC str;
              '(c, idx, e) ← readByte buf idx lastIdx;
              match e with
              | Some _ => Some (Nil, idx, e, buf)
              | None =>
                  '(str, idx, e, buf) ← readEscapedChar c buf idx str lastIdx;
                  match e with
                  | Some _ => Some (Nil, 0, e, buf)
                  | None => readString_loop fuel buf c idx lastIdx idx false str
                  end
              end
            else readString_loop fuel buf c idx lastIdx start noESC str
        end
      else Some (str, idx, Some (ExpectString c), buf)
  end.

Definition readString (buf : text) (idx lastIdx : Z) : read_result :=
  '(c, idx, e) ← nextToken buf idx lastIdx;
  match e with
  | Some _ => Some (Nil, idx, e, buf)
  | None =>
      if Byte.eqb c DQuotation then readString_loop (S (length buf)) buf c idx lastIdx idx true Nil
      else
        '(idx, isNull) ← checkNull c buf idx lastIdx;
        if (isNull : bool) then Some (Nil, idx, None, buf) else Some (Nil, idx, Some (ExpectString c), buf)
  end.

Abbreviation entries := (list (slice * slice)).

(** [mapInfo[key] = val]; the key is compared by its contents at that time. *)
Definition set_entry (buf : text) (k v : slice) (es : entries) : entries :=
  filter (fun e : slice * slice => contents buf (fst e) <> contents buf k) es ++ [(k, v)].

Fixpoint entries_loop (fuel : nat) (buf : text) (c : byte) (idx lastIdx : Z) (e : option jerr) (es : entries)
    : option (entries * option jerr * text) :=
  match fuel with
  | O => None
  | S fuel =>
      if Byte.eqb c Comma || Byte.eqb c LeftBrace then
        match e with
        | Some _ => Some (es, Some InvalidJSON, buf)
        | None =>
            '(key, idx, e, buf) ← readString buf idx lastIdx;
            match e with
            | Some _ => Some (es, e, buf)
            | None =>
                '(c, idx, e) ← nextToken buf idx lastIdx;
                if negb (Byte.eqb c Colon) || match e with Some _ => true | None => false end
                then Some (es, Some (ExpectColon c), buf)
                else
                  '(val, idx, e, buf) ← readString buf idx lastIdx;
                  match e with
                  | Some _ => Some (es, e, buf)
                  | None =>
                      let es := set_entry buf key val es in
                      '(c, idx, e) ← nextToken buf idx lastIdx;
                      entries_loop fuel buf c idx lastIdx e es
                  end
            end
        end
      else Some (es, e, buf)
  end.

(** The body: the entries ([None]: a nil map), the error and the buffer at the end. *)
Definition decode_body (data : text) : option (option entries * option jerr * text) :=
  let lastIdx := lenZ data - 1 in
  '(c, idx, e) ← nextToken data 0 lastIdx;
  match e with
  | Some _ => Some (None, e, data)
  | None =>
      '(idx, isNull) ← checkNull c data idx lastIdx;
      if (isNull : bool) then Some (None, None, data)
      else if negb (Byte.eqb c LeftBrace) then Some (None, Some InvalidJSON, data)
      else
        '(ch, _, _) ← nextToken data idx lastIdx;
        if Byte.eqb ch RightBrace then Some (None, None, data)
        else
          '(es, e, buf) ← entries_loop (S (length data)) data c idx lastIdx None [];
          Some (Some es, e, buf)
  end.

Definition read_map (buf : text) (es : entries) : gmap text text :=
  list_to_map (prod_map (contents buf) (contents buf) <$> es).

(** A panic is recovered and becomes an error. *)
Definition JSONStr2Map_ (s : text) : option (gmap text text) * option jerr :=
  match decode_body s with
  | Some (es, e, buf) => (read_map buf <$> es, e)
  | None => (None, Some Recovered)
  end.
