(* ===== verification/JsonSpec.v ===== *)
(** The JSON codec of Json.v: decoding in place gives what decoding an immutable string would
    give, on every input and without a panic, and a map survives the round trip. *)

From S2P Require Import Prelude GoText Json.

#[local] Set Default Goal Selector "!".

(** * The reference: decoding an immutable string *)

Fixpoint r_tok_loop (c : byte) (s : text) : byte * text :=
  match s with
  | [] => (c, [])
  | x :: r => if is_space x then r_tok_loop x r else (x, r)
  end.

Definition r_tok (s : text) : option (byte * text) :=
  match s with [] => None | _ => Some (r_tok_loop Byte.x00 s) end.

(** What follows null, the n being read. *)
Definition r_null (s : text) : option text :=
  match s with
  | a :: b :: c :: r => if Byte.eqb a Byte.x75 && Byte.eqb b Byte.x6c && Byte.eqb c Byte.x6c then Some r else None
  | _ => None
  end.

Fixpoint r_u4 (n : nat) (ret : Z) (s : text) : (Z * text) + jerr :=
  match n with
  | O => inl (ret, s)
  | S n =>
      match s with
      | [] => inr NoMoreData
      | c :: s => match hex_digit c with Some d => r_u4 n (ret * 16 + d) s | None => inr (BadUnicode c) end
      end
  end.

Definition r_simple (pre : text) (c : byte) (s : text) : (text * text) + jerr :=
  match simple_escape c with Some b => inl (pre ++ [b], s) | None => inr BadEscape end.

(** The bytes of an escape after backslash and [c], and the rest. *)
Definition r_escape (c : byte) (s : text) : (text * text) + jerr :=
  if Byte.eqb c Byte.x75 then
    match r_u4 4 0 s with
    | inr e => inr e
    | inl (r, s) =>
        if IsSurrogate r then
          match s with
          | [] => inr NoMoreData
          | c1 :: s1 =>
              if negb (Byte.eqb c1 Backslash) then inl (appendRune r, s)
              else
                match s1 with
                | [] => inr NoMoreData
                | c2 :: s2 =>
                    if negb (Byte.eqb c2 Byte.x75) then r_simple (appendRune r) c2 s2
                    else
                      match r_u4 4 0 s2 with
                      | inr e => inr e
                      | inl (r2, s3) =>
                          let combined := DecodeSurrogates r r2 in
                          if combined =? RuneError then inl (appendRune r ++ appendRune r2, s3)
                          else inl (appendRune combined, s3)
                      end
                end
          end
        else inl (appendRune r, s)
    end
  else r_simple [] c s.

(** The string after its opening quote; [acc] is what has been decoded. *)
Fixpoint r_string (fuel : nat) (c : byte) (s acc : text) : option ((text * text) + jerr) :=
  match fuel with
  | O => None
  | S fuel =>
      match s with
      | [] => Some (inr (ExpectString c))
      | x :: s =>
          if Byte.eqb x DQuotation then Some (inl (acc, s))
          else if Byte.eqb x Backslash then
            match s with
            | [] => Some (inr NoMoreData)
            | y :: s =>
                match r_escape y s with
                | inr e => Some (inr e)
                | inl (d, s) => r_string fuel y s (acc ++ d)
                end
            end
          else r_string fuel x s (acc ++ [x])
      end
  end.

Definition r_readString (s : text) : option ((text * text) + jerr) :=
  match r_tok s with
  | None => Some (inr NoMoreToken)
  | Some (c, s) =>
      if Byte.eqb c DQuotation then r_string (S (length s)) c s []
      else match (if Byte.eqb c Byte.x6e then r_null s else None) with
           | Some s => Some (inl ([], s))
           | None => Some (inr (ExpectString c))
           end
  end.

Fixpoint r_entries (fuel : nat) (c : byte) (s : text) (m : gmap text text) : option (gmap text text * option jerr) :=
  match fuel with
  | O => None
  | S fuel =>
      if Byte.eqb c Comma || Byte.eqb c LeftBrace then
        r ← r_readString s;
        match r with
        | inr e => Some (m, Some e)
        | inl (k, s) =>
            match r_tok s with
            | None => Some (m, Some (ExpectColon Byte.x00))
            | Some (c, s) =>
                if negb (Byte.eqb c Colon) then Some (m, Some (ExpectColon c))
                else
                  r ← r_readString s;
                  match r with
                  | inr e => Some (m, Some e)
                  | inl (v, s) =>
                      match r_tok s with
                      | None => Some (<[k := v]> m, Some NoMoreToken)
                      | Some (c, s) => r_entries fuel c s (<[k := v]> m)
                      end
                  end
            end
        end
      else Some (m, None)
  end.

Definition r_decode (s : text) : option (option (gmap text text) * option jerr) :=
  match r_tok s with
  | None => Some (None, Some NoMoreToken)
  | Some (c, s) =>
      if Byte.eqb c Byte.x6e && match r_null s with Some _ => true | None => false end then Some (None, None)
      else if negb (Byte.eqb c LeftBrace) then Some (None, Some InvalidJSON)
      else if match r_tok s with Some (ch, _) => Byte.eqb ch RightBrace | None => false end then Some (None, None)
      else '(m, e) ← r_entries (S (length s)) c s ∅; Some (Some m, e)
  end.

(** * The readers *)

Lemma at_app (p s : text) : at_ (p ++ s) (lenZ p) = head s.
Proof.
  unfold at_, lenZ. rewrite decide_True by lia. rewrite Nat2Z.id, lookup_app_r by lia. rewrite Nat.sub_diag. by destruct s.
Qed.

Lemma lenZ_app (p s : text) : lenZ (p ++ s) = lenZ p + lenZ s.
Proof. unfold lenZ. rewrite length_app. lia. Qed.

Lemma lenZ_nonneg (p : text) : 0 <= lenZ p.
Proof. unfold lenZ. lia. Qed.

Lemma lenZ_snoc (p : text) c : lenZ (p ++ [c]) = lenZ p + 1.
Proof. rewrite lenZ_app. done. Qed.

Lemma app_snoc (p s : text) c : p ++ c :: s = (p ++ [c]) ++ s.
Proof. by rewrite <- app_assoc. Qed.

(** [last buf] is the last index of the buffer. *)
#[local] Abbreviation lastOf buf := (lenZ buf - 1).

Lemma readByte_at p s :
  readByte (p ++ s) (lenZ p) (lastOf (p ++ s))
  = Some (match s with [] => (Byte.x00, -1, Some NoMoreData) | c :: _ => (c, lenZ p + 1, None) end).
Proof.
  unfold readByte. rewrite lenZ_app. destruct s as [|c s].
  - change (lenZ ([] : text)) with 0. destruct (Z.ltb_spec (lenZ p + 0 - 1) (lenZ p)); [done|lia].
  - assert (lenZ (c :: s) = 1 + lenZ s) as -> by (unfold lenZ; cbn [length]; lia). pose proof (lenZ_nonneg s).
    destruct (Z.ltb_spec (lenZ p + (1 + lenZ s) - 1) (lenZ p)); [lia|]. by rewrite at_app.
Qed.

Lemma nextToken_loop_at fuel : forall p s c last,
  (length s < fuel)%nat -> last = lastOf (p ++ s) ->
  exists d c' s', r_tok_loop c s = (c', s') /\ s = d ++ s'
    /\ nextToken_loop fuel (p ++ s) c (lenZ p) last = Some (c', lenZ p + lenZ d, None).
Proof.
  induction fuel as [|fuel IH]; intros p s c last Hf ->; [lia|]. cbn [nextToken_loop].
  destruct s as [|x s].
  - exists [], c, []. rewrite lenZ_app. change (lenZ ([] : text)) with 0. split; [done|]. split; [done|].
    destruct (Z.leb_spec (lenZ p) (lenZ p + 0 - 1)); [lia|]. do 2 f_equal. f_equal. lia.
  - rewrite at_app. cbn [head mbind option_bind r_tok_loop].
    assert (Hl : (lenZ p <=? lastOf (p ++ x :: s)) = true).
    { rewrite lenZ_app. unfold lenZ. cbn [length]. apply Z.leb_le. lia. }
    rewrite Hl. destruct (is_space x) eqn:Hx.
    + destruct (IH (p ++ [x]) s x (lastOf (p ++ x :: s)) ltac:(simpl in Hf; lia) ltac:(by rewrite app_snoc)) as (d & c' & s' & E & -> & E').
      exists (x :: d), c', s'. split; [done|]. split; [done|]. rewrite <- app_snoc, lenZ_snoc in E'. rewrite E'.
      do 3 f_equal. unfold lenZ. cbn [length]. lia.
    + exists [x], x, s. split; [done|]. split; [done|]. done.
Qed.

(** A reader of the prefix [p] has consumed [d]. *)
Lemma nextToken_at p s :
  match r_tok s with
  | None => s = [] /\ nextToken (p ++ s) (lenZ p) (lastOf (p ++ s)) = Some (Byte.x00, -1, Some NoMoreToken)
  | Some (c, s') => exists d, s = d ++ s' /\ d <> []
      /\ nextToken (p ++ s) (lenZ p) (lastOf (p ++ s)) = Some (c, lenZ p + lenZ d, None)
  end.
Proof.
  unfold nextToken, r_tok. destruct s as [|x s].
  - split; [done|]. rewrite lenZ_app. change (lenZ ([] : text)) with 0. destruct (Z.ltb_spec (lenZ p + 0 - 1) (lenZ p)); [done|lia].
  - assert (Hl : (lastOf (p ++ x :: s) <? lenZ p) = false).
    { rewrite lenZ_app. unfold lenZ. cbn [length]. apply Z.ltb_ge. lia. }
    rewrite Hl.
    destruct (nextToken_loop_at (S (length (p ++ x :: s))) p (x :: s) Byte.x00 (lastOf (p ++ x :: s))) as (d & c' & s' & E & Es & E');
      [rewrite length_app; lia|done|]. rewrite E. exists d. split; [done|]. split; [|done].
    intros ->. cbn in Es. subst s'. cbn in E. destruct (is_space x); [|by injection E as _ E; apply (f_equal length) in E; cbn in E; lia].
    assert (H : forall s c c' s', r_tok_loop c s = (c', s') -> (length s' <= length s)%nat).
    { clear. induction s as [|y s IH]; intros c c' s' E; cbn in E; [by injection E as <- <-|].
      destruct (is_space y); [apply IH in E; cbn; lia|injection E as <- <-; cbn; lia]. }
    apply H in E. cbn in E. lia.
Qed.

Lemma checkNull_at c p s :
  match (if Byte.eqb c Byte.x6e then r_null s else None) with
  | Some s' => exists d, s = d ++ s' /\ length d = 3%nat
      /\ checkNull c (p ++ s) (lenZ p) (lastOf (p ++ s)) = Some (lenZ p + lenZ d, true)
  | None => exists i, checkNull c (p ++ s) (lenZ p) (lastOf (p ++ s)) = Some (i, false)
                      /\ (Byte.eqb c Byte.x6e = false -> i = lenZ p)
  end.
Proof.
  unfold checkNull. destruct (Byte.eqb c Byte.x6e); [|by exists (lenZ p)].
  rewrite readByte_at. destruct s as [|x s]; [by eexists|]. cbn [mbind option_bind].
  destruct (Byte.eqb x Byte.x75) eqn:Hx; cbn [negb].
  2:{ destruct s as [|y [|z s]]; cbn; rewrite ?Hx; by eexists. }
  rewrite app_snoc, <- lenZ_snoc with (c := x), readByte_at. destruct s as [|y s]; [by eexists|]. cbn [mbind option_bind].
  destruct (Byte.eqb y Byte.x6c) eqn:Hy; cbn [negb].
  2:{ destruct s as [|z s]; cbn; rewrite ?Hx, ?Hy; by eexists. }
  rewrite app_snoc, <- lenZ_snoc with (c := y), readByte_at. destruct s as [|z s]; [by eexists|]. cbn [mbind option_bind r_null].
  rewrite Hx, Hy. destruct (Byte.eqb z Byte.x6c) eqn:Hz; cbn [negb andb]; [|by eexists].
  exists [x; y; z]. split; [done|]. split; [done|]. do 2 f_equal. rewrite !lenZ_snoc. unfold lenZ. cbn. lia.
Qed.

Lemma readU4_at n : forall ret p s,
  match r_u4 n ret s with
  | inl (r, s') => exists d, s = d ++ s' /\ length d = n /\ readU4_loop n ret (p ++ s) (lenZ p) (lastOf (p ++ s)) = Some (r, lenZ p + lenZ d, None)
  | inr e => exists r i, readU4_loop n ret (p ++ s) (lenZ p) (lastOf (p ++ s)) = Some (r, i, Some e)
  end.
Proof.
  induction n as [|n IH]; intros ret p s; cbn [r_u4 readU4_loop].
  - exists []. split; [done|]. split; [done|]. do 3 f_equal. change (lenZ ([] : text)) with 0. lia.
  - rewrite readByte_at. destruct s as [|c s]; cbn [mbind option_bind]; [by eauto|].
    destruct (hex_digit c) as [h|]; [|by eauto].
    specialize (IH (ret * 16 + h) (p ++ [c]) s). rewrite <- app_snoc, lenZ_snoc in IH. destruct (r_u4 n (ret * 16 + h) s) as [[r s']|e]; [|done].
    destruct IH as (d & -> & Hd & E). exists (c :: d). split; [done|]. split; [cbn; lia|]. rewrite E. do 3 f_equal. unfold lenZ. cbn [length]. lia.
Qed.

(** * Appending in place *)

(** The slice [str] has the text [acc], in the region [q] that follows [p] or in memory of
    its own. *)
Definition holds (p q : text) (str : slice) (acc : text) : Prop :=
  match str with
  | Nil => acc = []
  | Own b => acc = b
  | View off len => off = length p /\ (len <= length q)%nat /\ acc = take len q
  end.

Definition used (str : slice) : nat := match str with View _ len => len | _ => 0 end.

Lemma holds_app p q d str acc : holds p q str acc -> holds p (q ++ d) str acc.
Proof.
  destruct str as [|off len|b]; [done| |done]. intros (E1 & E2 & E3). split; [done|]. rewrite length_app. split; [lia|].
  by rewrite take_app_le.
Qed.

Lemma holds_contents p q s str acc : holds p q str acc -> contents (p ++ q ++ s) str = acc.
Proof.
  destruct str as [|off len|b]; [done| |done]. intros (-> & E2 & ->). cbn. rewrite drop_app_length. by rewrite take_app_le.
Qed.

Lemma append_at p q s str acc x :
  holds p q str acc -> (used str + length x <= length q)%nat ->
  exists str' q', append str x (p ++ q ++ s) = (str', p ++ q' ++ s) /\ length q' = length q
    /\ holds p q' str' (acc ++ x) /\ (used str' <= used str + length x)%nat.
Proof.
  intros Hh Hu. unfold append. destruct x as [|b x].
  { exists str, q. rewrite app_nil_r. split; [done|]. split; [done|]. split; [done|lia]. }
  set (y := b :: x) in *. destruct str as [|off len|o].
  - exists (Own y), q. cbn in Hh. subst acc. split; [done|]. split; [done|]. split; [done|cbn; lia].
  - destruct Hh as (-> & Hl & ->). cbn [used] in *.
    rewrite (proj2 (Nat.leb_le _ _)) by (rewrite !length_app; lia).
    exists (View (length p) (len + length y)), (take len q ++ y ++ drop (len + length y) q).
    assert (Hq : length (take len q ++ y ++ drop (len + length y) q) = length q).
    { rewrite !length_app, length_take, length_drop. lia. }
    split; [|split; [done|split]].
    + f_equal. unfold overwrite. rewrite take_app_add, <- Nat.add_assoc, drop_app_add. rewrite (take_app_le q s) by lia. rewrite drop_app_le by lia.
      by rewrite <- !app_assoc.
    + split; [done|]. split; [lia|]. rewrite (app_assoc (take len q)). rewrite take_app_le by (rewrite length_app, length_take; lia).
      symmetry. apply take_ge. rewrite length_app, length_take. lia.
    + cbn. lia.
  - exists (Own (o ++ y)), q. cbn in Hh. subst acc. split; [done|]. split; [done|]. split; [done|cbn; lia].
Qed.

(** * Escapes *)

Lemma length_appendRune r : (1 <= length (appendRune r) <= 4)%nat.
Proof. unfold appendRune. cbn zeta. repeat case_match; cbn; lia. Qed.

Lemma appendRune_surrogate r : IsSurrogate r = true -> length (appendRune r) = 3%nat.
Proof.
  unfold IsSurrogate, appendRune. cbn zeta. intros [H1 H2]%andb_true_iff. apply Z.leb_le in H1. apply Z.ltb_lt in H2.
  rewrite (proj2 (Z.leb_le 55296 r)), (proj2 (Z.leb_le r 57343)) by lia. rewrite orb_true_r. done.
Qed.

Lemma r_u4_bound n : forall ret s r s', 0 <= ret -> r_u4 n ret s = inl (r, s') -> 0 <= r < (ret + 1) * 16 ^ Z.of_nat n.
Proof.
  induction n as [|n IH]; intros ret s r s' H0 E; cbn [r_u4] in E.
  - injection E as <- <-. rewrite Z.pow_0_r. lia.
  - destruct s as [|c s]; [done|]. destruct (hex_digit c) as [h|] eqn:Hh; [|done].
    assert (0 <= h < 16).
    { unfold hex_digit in Hh. pose proof (byteZ_range c). repeat case_match; simplify_eq; bool_to_prop; destruct_and?; bool_to_prop; lia. }
    apply IH in E; [|lia]. rewrite Nat2Z.inj_succ, Z.pow_succ_r by lia. nia.
Qed.

Lemma length_appendRune_3 r : r < 65536 -> (length (appendRune r) <= 3)%nat.
Proof. intros Hr. unfold appendRune, RuneError. cbn zeta. repeat case_match; cbn; bool_to_prop; try lia. Qed.

(** The write of a decoded escape stays behind the reader. *)
Lemma emit_at p q d s str acc x :
  holds p q str acc -> (used str + 2 <= length q)%nat -> (length x <= length d + 2)%nat ->
  exists str' q', append str x ((p ++ q) ++ d ++ s) = (str', (p ++ q') ++ s) /\ length q' = (length q + length d)%nat
    /\ holds p q' str' (acc ++ x) /\ (used str' <= used str + length x)%nat.
Proof.
  intros Hh Hu Hx. destruct (append_at p (q ++ d) s str acc x) as (str' & q' & E & L & Hh' & U); [by apply holds_app|rewrite length_app; lia|].
  exists str', q'. rewrite <- !app_assoc in *. rewrite E, L, length_app. done.
Qed.

(** A reader has failed; nothing before it has changed. *)
Definition failed (p : text) (e : jerr) (m : read_result) : Prop := exists str i r, m = Some (str, i, Some e, p ++ r).

Lemma failed_at p q s e str i : failed p e (Some (str, i, Some e, (p ++ q) ++ s)).
Proof. exists str, i, (q ++ s). by rewrite <- app_assoc. Qed.

Create HintDb json.
#[export] Hint Resolve failed_at : json.

Lemma simple_at c p q d s str acc pre :
  holds p q str (acc ++ pre) -> (used str + 1 <= length q)%nat ->
  match r_simple pre c s with
  | inl (x, s') => exists q' str', s' = s /\ read_simple c ((p ++ q) ++ s) d str = Some (str', d, None, (p ++ q') ++ s)
      /\ length q' = length q /\ holds p q' str' (acc ++ x)
  | inr e => failed p e (read_simple c ((p ++ q) ++ s) d str)
  end.
Proof.
  intros Hh Hu. unfold r_simple, read_simple. destruct (simple_escape c) as [b|]; [|by auto with json].
  destruct (append_at p q s str (acc ++ pre) [b]) as (str' & q' & E & L & Hh' & U); [done|cbn; lia|].
  exists q', str'. split; [done|]. rewrite <- app_assoc, E. rewrite <- app_assoc in Hh'. by rewrite <- app_assoc.
Qed.

(** One character decoded from [s]: [x] is its text. *)
Definition decoded (p q s acc : text) (r : (text * text) + jerr) (m : read_result) : Prop :=
  match r with
  | inl (x, s') => exists d q' str', s = d ++ s' /\ m = Some (str', lenZ (p ++ q) + lenZ d, None, (p ++ q') ++ s')
      /\ length q' = (length q + length d)%nat /\ holds p q' str' (acc ++ x)
  | inr e => failed p e m
  end.

Lemma emit_decoded p q d s str acc x i :
  holds p q str acc -> (used str + 2 <= length q)%nat -> (length x <= length d + 2)%nat -> i = lenZ (p ++ q) + lenZ d ->
  decoded p q (d ++ s) acc (inl (x, s))
    (let '(str, buf) := append str x ((p ++ q) ++ d ++ s) in Some (str, i, None, buf)).
Proof.
  intros Hh Hu Hx ->. destruct (emit_at p q d s str acc x Hh Hu Hx) as (str' & q' & E & L & Hh' & U). rewrite E.
  exists d, q', str'. done.
Qed.

Lemma escape_at c p q s str acc :
  holds p q str acc -> (used str + 2 <= length q)%nat ->
  decoded p q s acc (r_escape c s) (readEscapedChar c ((p ++ q) ++ s) (lenZ (p ++ q)) str (lastOf ((p ++ q) ++ s))).
Proof.
  intros Hh Hu. unfold r_escape, readEscapedChar. destruct (Byte.eqb c Byte.x75).
  2:{ rewrite <- (app_nil_r acc) in Hh. pose proof (simple_at c p q (lenZ (p ++ q)) s str acc [] Hh ltac:(lia)) as S.
      destruct (r_simple [] c s) as [[x s']|e]; [|done]. destruct S as (q' & str' & -> & E & L & Hh'). exists [], q', str'.
      split; [done|]. change (lenZ ([] : text)) with 0. rewrite Z.add_0_r. split; [done|]. split; [cbn; lia|done]. }
  unfold readU4. pose proof (readU4_at 4 0 (p ++ q) s) as U1. destruct (r_u4 4 0 s) as [[r s1]|e] eqn:E1.
  2:{ destruct U1 as (r & i & ->). by apply failed_at. }
  destruct U1 as (d1 & -> & Hd1 & ->). cbn [mbind option_bind].
  apply r_u4_bound in E1 as Hr; [|lia]. change ((0 + 1) * 16 ^ Z.of_nat 4) with 65536 in Hr.
  destruct (IsSurrogate r) eqn:Hs.
  2:{ apply emit_decoded; [done|done| |done]. pose proof (length_appendRune_3 r). lia. }
  assert (R1 : forall s1, readByte ((p ++ q) ++ d1 ++ s1) (lenZ (p ++ q) + lenZ d1) (lastOf ((p ++ q) ++ d1 ++ s1))
    = Some (match s1 with [] => (Byte.x00, -1, Some NoMoreData) | c :: _ => (c, lenZ (p ++ q) + lenZ d1 + 1, None) end)).
  { intros s2. rewrite app_assoc, <- lenZ_app. apply readByte_at. }
  rewrite R1. destruct s1 as [|c1 s1]; cbn [mbind option_bind]; [by apply failed_at|].
  destruct (Byte.eqb c1 Backslash); cbn [negb].
  2:{ apply (emit_decoded p q d1 (c1 :: s1)); [done|done|rewrite appendRune_surrogate by done; lia|lia]. }
  clear R1. assert (R2 : forall s1, readByte ((p ++ q) ++ d1 ++ c1 :: s1) (lenZ (p ++ q) + lenZ d1 + 1) (lastOf ((p ++ q) ++ d1 ++ c1 :: s1))
    = Some (match s1 with [] => (Byte.x00, -1, Some NoMoreData) | c :: _ => (c, lenZ (p ++ q) + lenZ d1 + 2, None) end)).
  { intros s2. rewrite (app_snoc d1 s2 c1), app_assoc. rewrite <- Z.add_assoc, <- lenZ_snoc with (c := c1), <- lenZ_app. rewrite readByte_at.
    destruct s2; [done|]. do 3 f_equal. rewrite lenZ_app, lenZ_snoc. lia. }
  rewrite R2. clear R2. destruct s1 as [|c2 s2]; cbn [mbind option_bind]; [by apply failed_at|].
  destruct (Byte.eqb c2 Byte.x75); cbn [negb].
  - pose proof (readU4_at 4 0 ((p ++ q) ++ d1 ++ [c1; c2]) s2) as U2.
    assert (Eb : ((p ++ q) ++ d1 ++ [c1; c2]) ++ s2 = (p ++ q) ++ d1 ++ c1 :: c2 :: s2) by (rewrite <- !app_assoc; done).
    assert (El : lenZ ((p ++ q) ++ d1 ++ [c1; c2]) = lenZ (p ++ q) + lenZ d1 + 2).
    { rewrite lenZ_app, (lenZ_app d1). change (lenZ [c1; c2]) with 2. lia. }
    rewrite Eb, El in U2. destruct (r_u4 4 0 s2) as [[r2 s3]|e] eqn:E2.
    2:{ destruct U2 as (r' & i & ->). by apply failed_at. }
    destruct U2 as (d2 & -> & Hd2 & ->). cbn [mbind option_bind]. cbn zeta.
    apply r_u4_bound in E2 as Hr2; [|lia]. change ((0 + 1) * 16 ^ Z.of_nat 4) with 65536 in Hr2.
    assert (Ed : d1 ++ c1 :: c2 :: d2 ++ s3 = (d1 ++ c1 :: c2 :: d2) ++ s3) by (by rewrite <- app_assoc).
    assert (Ei : lenZ (p ++ q) + lenZ d1 + 2 + lenZ d2 = lenZ (p ++ q) + lenZ (d1 ++ c1 :: c2 :: d2)).
    { rewrite (lenZ_app d1). unfold lenZ. cbn [length]. lia. }
    assert (Ll : length (d1 ++ c1 :: c2 :: d2) = 10%nat) by (rewrite length_app; cbn; lia).
    rewrite Ed, Ei. destruct (_ =? RuneError).
    + pose proof (appendRune_surrogate r Hs). pose proof (length_appendRune_3 r2).
      destruct (emit_at p q (d1 ++ c1 :: c2 :: d2) s3 str acc (appendRune r)) as (str' & q' & E & L & Hh' & U); [done|done|lia|].
      rewrite E. destruct (append_at p q' s3 str' (acc ++ appendRune r) (appendRune r2)) as (str2 & q2 & E' & L' & Hh2 & U'); [done|lia|].
      rewrite (app_assoc p), (app_assoc p q2) in E'. rewrite E'. exists (d1 ++ c1 :: c2 :: d2), q2, str2. rewrite <- app_assoc in Hh2. split; [done|].
      split; [done|]. split; [lia|done].
    + apply emit_decoded; [done|done| |done]. pose proof (length_appendRune (DecodeSurrogates r r2)). lia.
  - assert (Ed : d1 ++ c1 :: c2 :: s2 = (d1 ++ [c1; c2]) ++ s2) by (by rewrite <- app_assoc).
    assert (Ll : length (d1 ++ [c1; c2]) = 6%nat) by (rewrite length_app; cbn; lia).
    pose proof (appendRune_surrogate r Hs). rewrite Ed.
    destruct (emit_at p q (d1 ++ [c1; c2]) s2 str acc (appendRune r)) as (str' & q' & E & L & Hh' & U); [done|done|lia|]. rewrite E.
    pose proof (simple_at c2 p q' (lenZ (p ++ q) + lenZ d1 + 2) s2 str' acc (appendRune r) Hh' ltac:(lia)) as S.
    destruct (r_simple (appendRune r) c2 s2) as [[x s']|e]; [|done]. destruct S as (q2 & str2 & -> & E2 & L2 & Hh2).
    exists (d1 ++ [c1; c2]), q2, str2. split; [done|]. rewrite E2. split; [|split; [lia|done]].
    do 4 f_equal. rewrite (lenZ_app d1). change (lenZ [c1; c2]) with 2. lia.
Qed.

(** * Strings *)

Lemma chunk_at p q w x s str acc (noESC : bool) :
  holds p q str acc -> (if noESC then str = Nil /\ q = [] else True) ->
  exists str' q', take_chunk ((p ++ q ++ w) ++ x :: s) (lenZ (p ++ q)) (lenZ (p ++ q ++ w) + 1) noESC str = Some (str', (p ++ q') ++ s)
    /\ length q' = (length q + length w + 1)%nat /\ holds p q' str' (acc ++ w) /\ (used str' <= length q + length w)%nat.
Proof.
  intros Hh Hn. unfold take_chunk. rewrite app_assoc, (lenZ_app (p ++ q) w), <- app_assoc. rewrite Z.add_simpl_r.
  destruct w as [|b w].
  - change (lenZ ([] : text)) with 0. destruct (Z.ltb_spec (lenZ (p ++ q)) (lenZ (p ++ q) + 0)); [lia|].
    exists str, (q ++ [x]). rewrite app_nil_r, length_app. split; [cbn; by rewrite <- !app_assoc|]. split; [cbn; lia|].
    split; [by apply holds_app|]. destruct str; cbn in *; lia.
  - set (v := b :: w) in *. assert (0 < lenZ v) by (unfold lenZ, v; cbn [length]; lia).
    destruct (Z.ltb_spec (lenZ (p ++ q)) (lenZ (p ++ q) + lenZ v)); [|lia].
    assert (Ev : view ((p ++ q) ++ v ++ x :: s) (lenZ (p ++ q)) (lenZ (p ++ q) + lenZ v) = Some (View (length p + length q) (length v))).
    { unfold view. pose proof (lenZ_nonneg (p ++ q)). pose proof (lenZ_nonneg (x :: s)).
      rewrite (proj2 (Z.leb_le 0 _)), (proj2 (Z.leb_le (lenZ (p ++ q)) _)), (proj2 (Z.leb_le _ (lenZ ((p ++ q) ++ v ++ x :: s)))) by (rewrite ?lenZ_app in *; lia).
      cbn [andb]. do 2 f_equal; unfold lenZ; rewrite ?length_app; lia. }
    rewrite Ev. cbn [mbind option_bind]. destruct noESC.
    + destruct Hn as [-> ->]. cbn in Hh. subst acc. exists (View (length p) (length v)), (v ++ [x]).
      rewrite app_nil_r. cbn [length]. rewrite Nat.add_0_r. split; [by rewrite <- !app_assoc|]. rewrite length_app. split; [cbn; lia|]. split; [|cbn; lia].
      split; [done|]. rewrite length_app. split; [lia|]. by rewrite take_app_length.
    + assert (Ec : contents ((p ++ q) ++ v ++ x :: s) (View (length p + length q) (length v)) = v).
      { cbn [contents]. rewrite <- length_app, drop_app_length. by rewrite take_app_length. }
      rewrite Ec. destruct (append_at p (q ++ v ++ [x]) s str acc v) as (str' & q' & E & L & Hh' & U).
      { by apply holds_app. }
      { rewrite !length_app. destruct str; cbn in *; lia. }
      exists str', q'. rewrite <- !app_assoc in E |- *. cbn [app] in E. rewrite E. rewrite !length_app in L. cbn [length] in L. split; [done|]. split; [lia|].
      split; [done|]. destruct str; cbn in *; lia.
Qed.

Definition string_decoded (p q s : text) (r : option ((text * text) + jerr)) (m : read_result) : Prop :=
  match r with
  | None => False
  | Some (inl (x, s')) => exists d q' str', s = d ++ s' /\ m = Some (str', lenZ (p ++ q) + lenZ d, None, (p ++ q') ++ s')
      /\ length q' = (length q + length d)%nat /\ holds p q' str' x
  | Some (inr e) => failed p e m
  end.

Lemma r_escape_shorter c s x s' : r_escape c s = inl (x, s') -> (length s' <= length s)%nat.
Proof.
  intros E. pose proof (escape_at c [] [Byte.x00; Byte.x00] s Nil [] eq_refl ltac:(cbn; lia)) as D. rewrite E in D.
  destruct D as (d & _ & _ & -> & _). rewrite length_app. lia.
Qed.

Lemma string_loop_at fuel : forall c p q w s str acc (noESC : bool),
  (length s < fuel)%nat -> holds p q str acc -> (if noESC then str = Nil /\ q = [] else True) ->
  string_decoded p (q ++ w) s (r_string fuel c s (acc ++ w))
    (readString_loop fuel ((p ++ q ++ w) ++ s) c (lenZ (p ++ q ++ w)) (lastOf ((p ++ q ++ w) ++ s)) (lenZ (p ++ q)) noESC str).
Proof.
  induction fuel as [|fuel IH]; intros c p q w s str acc noESC Hf Hh Hn; [lia|]. cbn [r_string readString_loop].
  destruct s as [|x s].
  { rewrite (lenZ_app (p ++ q ++ w) []). change (lenZ ([] : text)) with 0.
    destruct (Z.leb_spec (lenZ (p ++ q ++ w)) (lenZ (p ++ q ++ w) + 0 - 1)); [lia|]. by apply failed_at. }
  assert (Hl : (lenZ (p ++ q ++ w) <=? lastOf ((p ++ q ++ w) ++ x :: s)) = true).
  { rewrite (lenZ_app (p ++ q ++ w)). unfold lenZ at 3. cbn [length]. apply Z.leb_le. lia. }
  rewrite Hl, readByte_at. cbn [mbind option_bind]. destruct (chunk_at p q w x s str acc noESC Hh Hn) as (str1 & q1 & Ec & L1 & Hh1 & U1).
  cbn [length] in Hf.
  destruct (Byte.eqb x DQuotation).
  { rewrite Ec. cbn [mbind option_bind]. exists [x], q1, str1. split; [done|]. split; [done|]. rewrite length_app. split; [cbn; lia|done]. }
  destruct (Byte.eqb x Backslash).
  - rewrite Ec. cbn [mbind option_bind].
    assert (Eidx : lenZ (p ++ q ++ w) + 1 = lenZ (p ++ q1)) by (unfold lenZ; rewrite !length_app; lia).
    assert (Elast : lastOf ((p ++ q ++ w) ++ x :: s) = lastOf ((p ++ q1) ++ s)) by (unfold lenZ; rewrite !length_app; cbn [length]; lia).
    rewrite Eidx, Elast, readByte_at. destruct s as [|y s]; cbn [mbind option_bind]; [by apply failed_at|].
    cbn [length] in Hf.
    pose proof (escape_at y p (q1 ++ [y]) s str1 (acc ++ w) (holds_app _ _ _ _ _ Hh1) ltac:(rewrite length_app; cbn; lia)) as D.
    rewrite (app_assoc p q1 [y]), <- (app_snoc (p ++ q1) s y), lenZ_snoc in D.
    destruct (r_escape y s) as [[d s']|e] eqn:Er.
    2:{ destruct D as (str' & i & r & ->). cbn [mbind option_bind]. by do 3 eexists. }
    destruct D as (d0 & q' & str' & -> & -> & L' & Hh'). cbn [mbind option_bind].
    rewrite length_app in L'. cbn [length] in L'.
    specialize (IH y p q' [] s' str' (acc ++ w ++ d) false ltac:(rewrite length_app in Hf; lia)).
    rewrite !app_nil_r in IH. rewrite <- app_assoc in Hh'. specialize (IH Hh' I).
    assert (Ei : lenZ (p ++ q1 ++ [y]) + lenZ d0 = lenZ (p ++ q')) by (unfold lenZ; rewrite !length_app; cbn [length]; lia).
    assert (El : lastOf ((p ++ q1) ++ y :: d0 ++ s') = lastOf ((p ++ q') ++ s')).
    { unfold lenZ. rewrite !length_app. cbn [length]. rewrite length_app. lia. }
    rewrite Ei, El. rewrite <- app_assoc. destruct (r_string fuel y s' (acc ++ w ++ d)) as [[[z s2]|e]|]; [|done..].
    destruct IH as (d2 & q2 & str2 & -> & -> & L2 & Hh2). exists (x :: y :: d0 ++ d2), q2, str2.
    split; [cbn; by rewrite <- app_assoc|]. split; [|split; [|done]].
    + do 4 f_equal. unfold lenZ. cbn [length]. rewrite !length_app in *. cbn [length]. lia.
    + rewrite length_app. cbn [length]. rewrite length_app. lia.
  - specialize (IH x p q (w ++ [x]) s str acc noESC ltac:(lia) Hh Hn).
    replace (p ++ q ++ w ++ [x]) with ((p ++ q ++ w) ++ [x]) in IH by (by rewrite <- !app_assoc).
    rewrite <- app_snoc, lenZ_snoc in IH. rewrite <- app_assoc.
    destruct (r_string fuel x s (acc ++ w ++ [x])) as [[[z s2]|e]|]; [|done..].
    destruct IH as (d2 & q2 & str2 & -> & -> & L2 & Hh2). exists (x :: d2), q2, str2. split; [done|].
    split; [|split; [|done]].
    + do 4 f_equal. unfold lenZ. rewrite !length_app. cbn [length]. lia.
    + rewrite !length_app in *. cbn [length] in *. lia.
Qed.

(** The slice has the text [x], whatever follows the prefix [p] of the buffer. *)
Definition stable (p : text) (str : slice) (x : text) : Prop := forall r, contents (p ++ r) str = x.

Lemma stable_app p q str x : stable p str x -> stable (p ++ q) str x.
Proof. intros Hs r. rewrite <- app_assoc. apply Hs. Qed.

Lemma r_string_fuel f1 : forall f2 c s acc,
  (length s < f1)%nat -> (length s < f2)%nat -> r_string f1 c s acc = r_string f2 c s acc.
Proof.
  induction f1 as [|f1 IH]; intros f2 c s acc H1 H2; [lia|]. destruct f2 as [|f2]; [lia|]. cbn [r_string].
  destruct s as [|x s]; [done|]. cbn [length] in *. destruct (Byte.eqb x DQuotation); [done|].
  destruct (Byte.eqb x Backslash); [|apply IH; lia]. destruct s as [|y s]; [done|]. cbn [length] in *.
  destruct (r_escape y s) as [[d s']|e] eqn:E; [|done]. apply r_escape_shorter in E. apply IH; lia.
Qed.

Lemma readString_at p s :
  match r_readString s with
  | None => False
  | Some (inl (x, s')) => exists q str, q <> []
      /\ readString (p ++ s) (lenZ p) (lastOf (p ++ s)) = Some (str, lenZ (p ++ q), None, (p ++ q) ++ s')
      /\ length s = (length q + length s')%nat /\ stable (p ++ q) str x
  | Some (inr e) => failed p e (readString (p ++ s) (lenZ p) (lastOf (p ++ s)))
  end.
Proof.
  unfold r_readString, readString. pose proof (nextToken_at p s) as T. destruct (r_tok s) as [[c s1]|].
  2:{ destruct T as [-> ->]. cbn. by do 3 eexists. }
  destruct T as (d & -> & Hd & ->). cbn [mbind option_bind]. rewrite app_assoc, <- lenZ_app.
  destruct (Byte.eqb c DQuotation).
  - pose proof (string_loop_at (S (length ((p ++ d) ++ s1))) c (p ++ d) [] [] s1 Nil [] true ltac:(rewrite length_app; lia) eq_refl ltac:(done)) as D.
    rewrite !app_nil_r in D. rewrite (r_string_fuel _ (S (length s1))) in D by (rewrite ?length_app; lia).
    destruct (r_string (S (length s1)) c s1 []) as [[[x s']|e]|]; [| |done].
    2:{ destruct D as (str & i & r & ->). apply failed_at. }
    destruct D as (d2 & q' & str' & -> & -> & L & Hh). cbn [length] in L. exists (d ++ q'), str'. split; [by destruct d|].
    rewrite (app_assoc p d q'). split; [do 4 f_equal; unfold lenZ; rewrite !length_app; cbn [length]; lia|].
    split; [rewrite !length_app; lia|]. intros r. rewrite <- (app_assoc (p ++ d)). by apply holds_contents.
  - pose proof (checkNull_at c (p ++ d) s1) as N. destruct (if Byte.eqb c Byte.x6e then r_null s1 else None) as [s'|].
    + destruct N as (d2 & -> & L & ->). cbn [mbind option_bind]. exists (d ++ d2), Nil. split; [by destruct d|].
      rewrite (app_assoc p d d2), (lenZ_app (p ++ d) d2). split; [by rewrite <- (app_assoc (p ++ d))|]. split; [rewrite !length_app; lia|done].
    + destruct N as (i & -> & _). cbn [mbind option_bind]. apply failed_at.
Qed.

(** * Maps *)

Definition entry_is (p : text) (e : slice * slice) (kv : text * text) : Prop :=
  stable p (fst e) (fst kv) /\ stable p (snd e) (snd kv).

Lemma entries_app p q es l : Forall2 (entry_is p) es l -> Forall2 (entry_is (p ++ q)) es l.
Proof. intros F. eapply Forall2_impl; [exact F|]. intros e kv [H1 H2]. split; by apply stable_app. Qed.

Lemma read_map_is p r es l : Forall2 (entry_is p) es l -> read_map (p ++ r) es = list_to_map l.
Proof.
  intros F. unfold read_map. f_equal. induction F as [|[k v] [k' v'] es l [H1 H2] _ IH]; [done|]. rewrite fmap_cons, IH.
  cbn in *. by rewrite (H1 r), (H2 r).
Qed.

Lemma set_entry_is p s k v x y es l :
  Forall2 (entry_is p) es l -> stable p k x -> stable p v y ->
  Forall2 (entry_is p) (set_entry (p ++ s) k v es) (filter (fun kv => fst kv <> x) l ++ [(x, y)]).
Proof.
  intros F Hk Hv. unfold set_entry. apply Forall2_app; [|by repeat constructor].
  induction F as [|[k1 v1] [x1 y1] es l [H1 H2] _ IH]; [done|]. rewrite !filter_cons. cbn [fst] in *.
  pose proof (H1 s) as E1. pose proof (Hk s) as E2. do 2 case_decide; [by constructor|congruence..|done].
Qed.

Lemma list_to_map_set (l : list (text * text)) x y :
  list_to_map (filter (fun kv => fst kv <> x) l ++ [(x, y)]) = (<[x := y]> (list_to_map l) : gmap text text).
Proof.
  rewrite list_to_map_app. apply map_eq. intros k. rewrite lookup_union. destruct (decide (k = x)) as [->|Hk].
  - rewrite lookup_insert_eq. replace (list_to_map (filter _ l) !! x : option text) with (None : option text).
    { cbn. by rewrite lookup_insert_eq. }
    symmetry. induction l as [|[a b] l IH]; [done|]. rewrite filter_cons. case_decide as Ha; [|done]. cbn in *. by rewrite lookup_insert_ne.
  - rewrite lookup_insert_ne by done. cbn. rewrite lookup_insert_ne, lookup_empty by done. rewrite (right_id None union).
    induction l as [|[a b] l IH]; [done|]. rewrite filter_cons. case_decide as Ha; cbn in *.
    + destruct (decide (a = k)) as [->|]; [by rewrite !lookup_insert_eq|by rewrite !lookup_insert_ne].
    + rewrite lookup_insert_ne; [done|]. intros ->. by destruct Ha.
Qed.

Lemma r_readString_shorter s x s' : r_readString s = Some (inl (x, s')) -> (length s' < length s)%nat.
Proof.
  intros E. pose proof (readString_at [] s) as R. rewrite E in R. destruct R as (q & str & Hq & _ & -> & _). destruct q; [done|cbn; lia].
Qed.

Lemma r_tok_shorter s c s' : r_tok s = Some (c, s') -> (length s' < length s)%nat.
Proof.
  intros E. pose proof (nextToken_at [] s) as R. rewrite E in R. destruct R as (d & -> & Hd & _). rewrite length_app. destruct d; [done|cbn; lia].
Qed.

Lemma entries_at fuel : forall fuel' c p s es l,
  (length s < fuel)%nat -> (length s < fuel')%nat -> Forall2 (entry_is p) es l ->
  match r_entries fuel c s (list_to_map l) with
  | None => False
  | Some (m, e) => exists es' buf, entries_loop fuel' (p ++ s) c (lenZ p) (lastOf (p ++ s)) None es = Some (es', e, buf) /\ read_map buf es' = m
  end.
Proof.
  induction fuel as [|fuel IH]; intros fuel' c p s es l Hf Hf' F; [lia|]. destruct fuel' as [|fuel']; [lia|].
  cbn [r_entries entries_loop].
  destruct (Byte.eqb c Comma || Byte.eqb c LeftBrace); [|do 2 eexists; split; [done|by apply read_map_is]].
  pose proof (readString_at p s) as R1. destruct (r_readString s) as [[[k s1]|e]|]; cbn [mbind option_bind]; [| |done].
  2:{ destruct R1 as (str & i & r & ->). cbn [mbind option_bind]. do 2 eexists. split; [done|by apply read_map_is]. }
  destruct R1 as (q1 & ks & Hq1 & -> & L1 & Sk). cbn [mbind option_bind]. apply (entries_app p q1) in F.
  assert (El : lastOf (p ++ s) = lastOf ((p ++ q1) ++ s1)) by (unfold lenZ; rewrite !length_app; lia). rewrite El. clear El.
  pose proof (nextToken_at (p ++ q1) s1) as T1. destruct (r_tok s1) as [[c1 s2]|].
  2:{ destruct T1 as [-> ->]. cbn [mbind option_bind]. do 2 eexists. split; [done|by apply read_map_is]. }
  destruct T1 as (d1 & -> & Hd1 & ->). cbn [mbind option_bind]. rewrite orb_false_r. rewrite app_assoc, <- lenZ_app.
  destruct (Byte.eqb c1 Colon); cbn [negb]; [|do 2 eexists; split; [done|rewrite <- app_assoc; by apply read_map_is]].
  apply (entries_app (p ++ q1) d1) in F. apply (stable_app _ d1) in Sk.
  pose proof (readString_at ((p ++ q1) ++ d1) s2) as R2. destruct (r_readString s2) as [[[v s3]|e]|]; cbn [mbind option_bind]; [| |done].
  2:{ destruct R2 as (str & i & r & ->). cbn [mbind option_bind]. do 2 eexists. split; [done|by apply read_map_is]. }
  destruct R2 as (q2 & vs & Hq2 & -> & L2 & Sv). cbn [mbind option_bind]. apply (entries_app _ q2) in F. apply (stable_app _ q2) in Sk.
  set (p2 := ((p ++ q1) ++ d1) ++ q2) in *.
  assert (El : lastOf (((p ++ q1) ++ d1) ++ s2) = lastOf (p2 ++ s3)) by (unfold p2, lenZ; rewrite !length_app; lia). rewrite El. clear El.
  apply (set_entry_is p2 s3 ks vs k v) in F; [|done|done]. rewrite <- list_to_map_set.
  pose proof (nextToken_at p2 s3) as T2. destruct (r_tok s3) as [[c2 s4]|] eqn:Et.
  - destruct T2 as (d2 & -> & Hd2 & ->). cbn [mbind option_bind]. rewrite (app_assoc p2 d2 s4) in F |- *. rewrite <- lenZ_app.
    assert (0 < length d2)%nat by (destruct d2; [done|cbn; lia]). rewrite !length_app in *. apply IH; [lia|lia|]. by apply entries_app.
  - destruct T2 as [-> ->]. cbn [mbind option_bind]. assert (0 < length q1)%nat by (destruct q1; [done|cbn; lia]). destruct fuel' as [|fuel'']; [lia|]. cbn [entries_loop].
    do 2 eexists. split; [done|by apply read_map_is].
Qed.

Lemma json_decode_eq s : decode_body s <> None /\ Some (JSONStr2Map_ s) = r_decode s.
Proof.
  unfold JSONStr2Map_, decode_body, r_decode. pose proof (nextToken_at [] s) as T. cbn [app] in T. change (lenZ ([] : text)) with 0 in T.
  destruct (r_tok s) as [[c s1]|].
  2:{ destruct T as [-> ->]. by cbn. }
  destruct T as (d & -> & Hd & ->). cbn [mbind option_bind]. rewrite Z.add_0_l.
  pose proof (checkNull_at c d s1) as N. destruct (Byte.eqb c Byte.x6e) eqn:Hc; cbn [andb].
  - destruct (r_null s1) as [s2|]; [destruct N as (d2 & _ & _ & ->); by cbn|]. destruct N as (i & -> & _). cbn [mbind option_bind].
    assert (c = Byte.x6e) as -> by by apply Byte.byte_dec_bl. by cbn.
  - destruct N as (i & E & Hi). rewrite E, Hi by done. clear E Hi. cbn [mbind option_bind]. destruct (Byte.eqb c LeftBrace); cbn [negb]; [|by cbn].
    pose proof (entries_at (S (length s1)) (S (length (d ++ s1))) c d s1 [] [] ltac:(lia) ltac:(rewrite length_app; lia) ltac:(constructor)) as En.
    change (list_to_map []) with (∅ : gmap text text) in En. pose proof (nextToken_at d s1) as T.
    destruct (r_entries _ c s1 ∅) as [[m e]|]; [|done]. destruct En as (es & buf & En & <-).
    destruct (r_tok s1) as [[ch s2]|].
    + destruct T as (d2 & _ & Hd2 & ->). cbn [mbind option_bind]. destruct (Byte.eqb ch RightBrace); [by cbn|]. by rewrite En.
    + destruct T as [_ ->]. cbn [mbind option_bind]. change (Byte.eqb Byte.x00 RightBrace) with false. by rewrite En.
Qed.

(** C30: decoding in place is safe: although the strings it returns are parts of the buffer and
    it writes decoded escapes into that buffer, the decoder gives, on every input, exactly
    the map and the error that decoding an immutable string gives.  It always ends, and its
    recover never has anything to catch. *)
Theorem json_decodes_in_place s : decode_body s <> None /\ Some (JSONStr2Map_ s) = r_decode s.
Proof. apply json_decode_eq. Qed.

(** The loop over the entries ends at any byte but a comma, which need not be the brace:
    an object with an x in place of its closing brace is accepted. *)
Lemma unclosed_object_accepted :
  let r := JSONStr2Map_ (LeftBrace :: DQuotation :: Byte.x61 :: DQuotation :: Colon :: DQuotation :: Byte.x62 :: DQuotation :: [Byte.x78]) in
  (map_to_list <$> fst r, snd r) = (Some [([Byte.x61], [Byte.x62])], None).
Proof. by vm_compute. Qed.

(** * The round trip *)

(** What wrapStrWithQuotation makes of a string. *)
Fixpoint escape (fuel : nat) (s : text) : text :=
  match fuel, s with
  | S fuel, c :: s' =>
      if (byteZ c <? 128) && htmlSafeSet c then c :: escape fuel s'
      else if byteZ c <? 128 then escape_ascii c ++ escape fuel s'
      else
        let '(r, size) := DecodeRune s in
        if (r =? RuneError) && (size =? 1)%nat then bs "\ufffd" ++ escape fuel s'
        else if (r =? 8232) || (r =? 8233) then bs "\u202" ++ [hex (Z.land r 15)] ++ escape fuel (drop size s)
        else take size s ++ escape fuel (drop size s)
  | _, _ => []
  end.

Lemma sub_snoc s start i c : (start <= i)%nat -> s !! i = Some c -> sub s start (S i) = sub s start i ++ [c].
Proof.
  intros Hs Hc. unfold sub. replace (S i - start)%nat with (S (i - start)) by lia. apply take_S_r. rewrite lookup_drop. by replace (start + (i - start))%nat with i by lia.
Qed.

Lemma sub_app s start i n : (start <= i)%nat -> sub s start (i + n) = sub s start i ++ take n (drop i s).
Proof.
  intros Hs. unfold sub. replace (i + n - start)%nat with ((i - start) + n)%nat by lia. rewrite <- take_take_drop, drop_drop.
  by replace (start + (i - start))%nat with i by lia.
Qed.

Lemma sub_self s i : sub s i i = [].
Proof. unfold sub. by rewrite Nat.sub_diag. Qed.

Lemma wrap_loop_escape fuel : forall s i start out,
  (start <= i)%nat -> (length s <= i + fuel)%nat ->
  wrap_loop fuel s i start out = out ++ sub s start i ++ escape fuel (drop i s).
Proof.
  induction fuel as [|fuel IH]; intros s i start out Hs Hf.
  - cbn [wrap_loop escape]. f_equal. unfold sub. rewrite app_nil_r. symmetry. apply take_ge. rewrite length_drop. lia.
  - cbn [wrap_loop]. destruct (s !! i) as [c|] eqn:Hc.
    2:{ apply lookup_ge_None in Hc. rewrite (drop_ge s i) by lia. cbn [escape]. f_equal. unfold sub. rewrite app_nil_r. symmetry. apply take_ge.
        rewrite length_drop. lia. }
    assert (Ed : drop i s = c :: drop (S i) s) by (by apply drop_S). rewrite Ed. cbn [escape]. rewrite <- Ed.
    destruct (_ && _).
    { rewrite IH by lia. rewrite (sub_snoc s start i c) by done. by rewrite <- !app_assoc. }
    destruct (byteZ c <? 128).
    { rewrite IH by lia. rewrite sub_self. by rewrite <- !app_assoc. }
    destruct (DecodeRune (drop i s)) as [r size] eqn:Er.
    assert (Hsz : (1 <= size)%nat).
    { pose proof (DecodeRune_cases (drop i s) ltac:(by rewrite Ed)) as D. rewrite Er in D. lia. }
    destruct (_ && _).
    { rewrite IH by lia. rewrite sub_self. by rewrite <- !app_assoc. }
    rewrite drop_drop. destruct (_ || _).
    { rewrite IH by lia. rewrite sub_self. by rewrite <- !app_assoc. }
    rewrite IH by lia. rewrite sub_app by lia. by rewrite <- !app_assoc.
Qed.

Lemma wrap_escape s : wrapStrWithQuotation s = DQuotation :: escape (length s) s ++ [DQuotation].
Proof. unfold wrapStrWithQuotation. rewrite wrap_loop_escape by lia. by rewrite sub_self. Qed.

Definition r_str (c : byte) (s acc : text) : option ((text * text) + jerr) := r_string (S (length s)) c s acc.

Definition plain (b : byte) : bool := negb (Byte.eqb b DQuotation) && negb (Byte.eqb b Backslash).

Lemma r_str_quote c s acc : r_str c (DQuotation :: s) acc = Some (inl (acc, s)).
Proof. done. Qed.

Lemma r_str_plain l : forall c s acc, Forall (fun b => plain b = true) l ->
  exists c', r_str c (l ++ s) acc = r_str c' s (acc ++ l).
Proof.
  induction l as [|b l IH]; intros c s acc F; [exists c; by rewrite app_nil_r|]. apply Forall_cons in F as [[H1 H2]%andb_true_iff F].
  destruct (IH b s (acc ++ [b]) F) as [c' E]. exists c'. rewrite <- app_assoc in E. cbn [app] in E. rewrite <- E. unfold r_str. cbn [app r_string length].
  apply negb_true_iff in H1, H2. by rewrite H1, H2.
Qed.

Lemma r_str_escape c y t d s acc : r_escape y (t ++ s) = inl (d, s) -> r_str c ((Backslash :: y :: t) ++ s) acc = r_str y s (acc ++ d).
Proof.
  intros E. unfold r_str at 1. cbn [app length]. remember (S (S (length (t ++ s)))) as f eqn:Hf. cbn [r_string]. change (Byte.eqb Backslash DQuotation) with false.
  change (Byte.eqb Backslash Backslash) with true. rewrite E. apply r_string_fuel; [subst f; rewrite length_app|]; lia.
Qed.

Lemma escape_ascii_decodes b s : byteZ b < 128 -> exists y t, escape_ascii b = Backslash :: y :: t /\ r_escape y (t ++ s) = inl ([b], s).
Proof.
  intros Hb. destruct b; try (exfalso; revert Hb; vm_compute; done); do 2 eexists; (split; [reflexivity|]); reflexivity.
Qed.

Lemma high_plain l : Forall (fun b => 128 <= byteZ b) l -> Forall (fun b => plain b = true) l.
Proof.
  intros F. eapply Forall_impl; [exact F|]. intros b Hb. unfold plain. apply andb_true_iff.
  split; apply negb_true_iff; apply not_true_iff_false; intros ->%Byte.byte_dec_bl; by vm_compute in Hb.
Qed.

Lemma safe_plain c : htmlSafeSet c = true -> plain c = true.
Proof.
  unfold htmlSafeSet, plain. intros [_ H]%andb_true_iff. apply negb_true_iff in H. rewrite !orb_false_iff in H. destruct H as ((((-> & _) & _) & _) & ->). done.
Qed.

Lemma escape_decodes n : forall s c rest acc, (length s <= n)%nat ->
  r_str c (escape n s ++ DQuotation :: rest) acc = Some (inl (acc ++ sanitize_f n s, rest)).
Proof.
  induction n as [|n IH]; intros s c rest acc Hn.
  { destruct s; [|cbn in Hn; lia]. cbn [escape sanitize_f app]. by rewrite r_str_quote, app_nil_r. }
  destruct s as [|x s]; [cbn [escape sanitize_f app]; by rewrite r_str_quote, app_nil_r|]. cbn [length] in Hn.
  cbn [escape sanitize_f]. pose proof (DecodeRune_cases (x :: s) ltac:(done)) as D.
  pose proof (byteZ_range x) as Bx.
  assert (A : byteZ x < 128 -> DecodeRune (x :: s) = (byteZ x, 1%nat) /\ EncodeRune (byteZ x) = [x]).
  { intros Hx. cbn. rewrite (proj2 (Z.ltb_lt _ _) Hx). split; [done|]. rewrite EncodeRune_1 by lia. by rewrite Zbyte_byteZ. }
  destruct (Z.ltb_spec (byteZ x) 128) as [Hx|Hx]; cbn [andb].
  - destruct (A Hx) as [-> ->]. change (drop 1 (x :: s)) with s. destruct (htmlSafeSet x) eqn:Hsafe.
    + destruct (r_str_plain [x] c (escape n s ++ DQuotation :: rest) acc) as [c' E]; [constructor; [by apply safe_plain|done]|].
      cbn [app] in *. rewrite E, IH by lia. by rewrite <- app_assoc.
    + destruct (escape_ascii_decodes x (escape n s ++ DQuotation :: rest) Hx) as (y & t & -> & Er).
      rewrite <- app_assoc, (r_str_escape c y t [x]) by done. rewrite IH by lia. by rewrite <- app_assoc.
  - clear A. destruct (DecodeRune (x :: s)) as [r k] eqn:Er. destruct D as [Hk D].
    destruct ((r =? RuneError) && (k =? 1)%nat) eqn:Hbad.
    { apply andb_true_iff in Hbad as [H1%Z.eqb_eq H2%Nat.eqb_eq]. subst r k. change (drop 1 (x :: s)) with s.
      rewrite <- app_assoc. change (bs _) with (Backslash :: Byte.x75 :: bs "fffd") at 1.
      rewrite (r_str_escape c Byte.x75 (bs "fffd") (EncodeRune RuneError)) by done. rewrite IH by lia. by rewrite <- app_assoc. }
    assert (H128 : 128 <= r /\ EncodeRune r = take k (x :: s)).
    { destruct D as [(E & D1 & D2)|[-> ->]]; [|done]. split; [|done]. destruct (decide (k = 1%nat)) as [->|Hne]; [|by apply D2].
      specialize (D1 eq_refl). rewrite EncodeRune_1 in E by lia. cbn in E. injection E as E. apply (f_equal byteZ) in E.
      rewrite byteZ_Zbyte, Z.mod_small in E by lia. lia. }
    destruct H128 as [H128 He]. assert (Hd : (length (drop k (x :: s)) <= n)%nat) by (rewrite length_drop; cbn [length]; lia).
    destruct ((r =? 8232) || (r =? 8233)) eqn:Hsep.
    { assert (S : forall h d, (h, d) = (Byte.x38, EncodeRune 8232) \/ (h, d) = (Byte.x39, EncodeRune 8233) ->
        r_str c ((bs "\u202" ++ [h] ++ escape n (drop k (x :: s))) ++ DQuotation :: rest) acc = Some (inl (acc ++ d ++ sanitize_f n (drop k (x :: s)), rest))).
      { intros h d Hhd. rewrite <- !app_assoc. change (bs "\u202") with (Backslash :: Byte.x75 :: bs "202").
        change ((Backslash :: Byte.x75 :: bs "202") ++ [h] ++ ?z) with ((Backslash :: Byte.x75 :: bs "202" ++ [h]) ++ z).
        rewrite (r_str_escape c Byte.x75 (bs "202" ++ [h]) d); [rewrite IH by done; by rewrite <- app_assoc|].
        destruct Hhd as [[= -> ->]|[= -> ->]]; done. }
      apply orb_true_iff in Hsep as [H1%Z.eqb_eq|H1%Z.eqb_eq]; subst r; apply S; [by left|by right]. }
    rewrite <- app_assoc. destruct (r_str_plain (take k (x :: s)) c (escape n (drop k (x :: s)) ++ DQuotation :: rest) acc) as [c' E].
    { rewrite <- He. by apply high_plain, EncodeRune_high. }
    rewrite E, IH by done. by rewrite <- app_assoc, He.
Qed.

Lemma r_readString_wrap s rest : r_readString (wrapStrWithQuotation s ++ rest) = Some (inl (sanitize s, rest)).
Proof.
  rewrite wrap_escape. cbn [app]. rewrite <- app_assoc. cbn [app]. unfold r_readString. cbn [r_tok r_tok_loop].
  change (is_space DQuotation) with false. cbn match. change (Byte.eqb DQuotation DQuotation) with true.
  exact (escape_decodes (length s) s DQuotation rest [] (le_n _)).
Qed.

Definition put (m : gmap text text) (kv : text * text) : gmap text text := <[sanitize (fst kv) := sanitize (snd kv)]> m.

Lemma entries_decode es : forall fuel c rest m, es <> [] -> (length es < fuel)%nat -> c = Comma \/ c = LeftBrace ->
  r_entries fuel c (write_entries es ++ RightBrace :: rest) m = Some (foldl put m es, None).
Proof.
  induction es as [|[k v] es IH]; intros fuel c rest m Hne Hf Hc; [done|]. destruct fuel as [|fuel]; [lia|]. cbn [r_entries length] in *.
  assert (Hb : Byte.eqb c Comma || Byte.eqb c LeftBrace = true) by (destruct Hc as [-> | ->]; done). rewrite Hb.
  cbn [write_entries]. rewrite <- !app_assoc. rewrite r_readString_wrap. cbn [mbind option_bind app].
  cbn [r_tok r_tok_loop]. change (is_space Colon) with false. cbn match. change (Byte.eqb Colon Colon) with true. cbn [negb].
  rewrite r_readString_wrap. cbn [mbind option_bind foldl]. destruct es as [|e es].
  - cbn [app r_tok r_tok_loop]. change (is_space RightBrace) with false. destruct fuel as [|fuel]; [cbn in Hf; lia|]. done.
  - cbn [app r_tok r_tok_loop]. change (is_space Comma) with false. apply IH; [done|lia|by left].
Qed.

Lemma foldl_insert (l : list (text * text)) : forall m : gmap text text,
  foldl (fun m kv => <[fst kv := snd kv]> m) m l = list_to_map (reverse l) ∪ m.
Proof.
  induction l as [|[k v] l IH]; intros m; [symmetry; apply (left_id ∅ union)|]. cbn [foldl fst snd]. rewrite IH, reverse_cons, list_to_map_app.
  cbn. by rewrite <- (assoc union), insert_empty, <- insert_union_singleton_l.
Qed.

Lemma length_wrap s : (2 <= length (wrapStrWithQuotation s))%nat.
Proof. rewrite wrap_escape. cbn [length]. rewrite length_app. cbn. lia. Qed.

Lemma length_write_entries es : (length es <= length (write_entries es))%nat.
Proof.
  induction es as [|[k v] es IH]; [done|]. cbn [write_entries length]. rewrite !length_app. pose proof (length_wrap k).
  destruct es; cbn [length] in *; lia.
Qed.

(** C31: a map survives the round trip through the hand-written JSON codec, in whatever order
    the map is written: keys that are valid UTF-8 come back as they were, and so does every
    valid value; in an invalid value each bad byte is replaced by U+FFFD. *)
Theorem json_roundtrip (m : gmap text text) es :
  m <> ∅ -> es ≡ₚ map_to_list m -> map_Forall (fun k _ => Valid k = true) m ->
  JSONStr2Map_ (Map2JSONStr_ es) = (Some (sanitize <$> m), None)
  /\ (map_Forall (fun _ v => Valid v = true) m -> JSONStr2Map_ (Map2JSONStr_ es) = (Some m, None)).
Proof.
  intros Hm Hp Hk.
  assert (E : JSONStr2Map_ (Map2JSONStr_ es) = (Some (sanitize <$> m), None)).
  { destruct (json_decode_eq (Map2JSONStr_ es)) as [_ D]. apply (inj Some). rewrite D. clear D.
    assert (Hne : es <> []).
    { intros ->. apply Hm, map_to_list_empty_iff. by apply Permutation_nil in Hp. }
    destruct es as [|e es]; [done|]. cbn [Map2JSONStr_]. unfold r_decode. cbn [r_tok r_tok_loop].
    change (is_space LeftBrace) with false. cbn match. change (Byte.eqb LeftBrace Byte.x6e) with false.
    change (Byte.eqb LeftBrace LeftBrace) with true. cbn [andb negb].
    set (es' := e :: es) in *. rewrite entries_decode; [|done|rewrite length_app; pose proof (length_write_entries es'); lia|by right].
    assert (Eb : match r_tok (write_entries es' ++ [RightBrace]) with Some (ch, _) => Byte.eqb ch RightBrace | None => false end = false).
    { unfold es'. destruct e as [k v]. cbn [write_entries]. rewrite wrap_escape. done. }
    rewrite Eb. cbn [mbind option_bind]. do 3 f_equal.
    assert (Ef : forall l m0, foldl put m0 l = foldl (fun m kv => <[fst kv := snd kv]> m) m0 (prod_map sanitize sanitize <$> l)).
    { induction l as [|[a b] l IH]; intros m0; [done|]. cbn. apply IH. }
    rewrite Ef, foldl_insert, (right_id ∅ union).
    assert (Es : prod_map sanitize sanitize <$> es' = prod_map id sanitize <$> es').
    { apply list_fmap_ext. intros j [a b] Hj. cbn. f_equal. apply Valid_sanitize. apply list_elem_of_lookup_2 in Hj.
      rewrite Hp in Hj. apply elem_of_map_to_list in Hj. by apply Hk in Hj. }
    rewrite Es. assert (Hn : NoDup (fst <$> es')) by (rewrite Hp; apply NoDup_fst_map_to_list).
    rewrite (list_to_map_proper (reverse (prod_map id sanitize <$> es')) (prod_map id sanitize <$> es')).
    - rewrite list_to_map_fmap. f_equal. rewrite (list_to_map_proper es' (map_to_list m)); [apply list_to_map_to_list|done|done].
    - rewrite reverse_Permutation, <- list_fmap_compose. done.
    - apply reverse_Permutation. }
  split; [done|]. intros Hv. rewrite E. do 2 f_equal. apply map_eq. intros k. rewrite lookup_fmap.
  destruct (m !! k) as [v|] eqn:Hkv; [|done]. cbn. by rewrite (Valid_sanitize v (Hv _ _ Hkv)).
Qed.

(** * A run *)

Definition demo_map : gmap text text := {[ bs "key" := bs "a<b"; bs "k2" := [Byte.xe2; Byte.x80; Byte.xa8; Byte.x0a] ]}.

Lemma json_roundtrip_witness : JSONStr2Map_ (Map2JSONStr_ (reverse (map_to_list demo_map))) = (Some demo_map, None).
Proof.
  apply (json_roundtrip demo_map); [|apply reverse_Permutation|..].
  - intros E. apply (f_equal (fun m => bool_decide (m !! bs "key" = None))) in E. by vm_compute in E.
  - by apply (bool_decide_eq_true_1 _); vm_compute.
  - by apply (bool_decide_eq_true_1 _); vm_compute.
Defined.
