(* ===== verification/Limiter.v ===== *)
(** The server's limiters (src/pkg/limiter) under every interleaving of their atomic
    operations: the connection limiter never lets in more connections than its limit, and
    the rate limiter never more calls than its refills allow. *)

From Stdlib Require Import Floats.SpecFloat.
From S2P Require Import Prelude Pickers Alias.

#[local] Set Default Goal Selector "!".

(** * Connections *)

Module Conn.

Record connectionLimiter := mkLimiter { lim : Z; curr : Z }.

Definition NewConnectionLimiter (lim : Z) : connectionLimiter := mkLimiter (i32 lim) 0.

(** A descriptor of the server: free; in Acquire, before and after the load of the limit;
    open, with the answer of Acquire.  The handler (src/pkg/remote/bound) calls Acquire in
    OnActive and Release in OnInactive, also for a connection it has refused. *)
Inductive conn := Free | CLoad | CAdd (limit : Z) | Open_ (ok : bool).

Definition Acquire (x : conn) (l : connectionLimiter) : option (conn * connectionLimiter) :=
  match x with
  | CLoad => Some (CAdd (lim l), l)
  | CAdd limit =>
      let x := i32 (curr l + 1) in
      Some (Open_ ((x <=? limit) || (limit <=? 0)), mkLimiter (lim l) x)
  | _ => None
  end.

Definition Release (x : conn) (l : connectionLimiter) : option (conn * connectionLimiter) :=
  match x with Open_ _ => Some (Free, mkLimiter (lim l) (i32 (curr l - 1))) | _ => None end.

Definition UpdateLimit (n : Z) (l : connectionLimiter) : connectionLimiter := mkLimiter (i32 n) (curr l).

(** The limiter and the table of the server's descriptors. *)
Record sys := mkSys { limiter : connectionLimiter; conns : list conn }.

Inductive event := OnActive (i : nat) | Step (i : nat) | OnInactive (i : nat) | Update (n : Z).

Definition accept (x : conn) (l : connectionLimiter) : option (conn * connectionLimiter) :=
  match x with Free => Some (CLoad, l) | _ => None end.

Definition at_conn (f : conn -> connectionLimiter -> option (conn * connectionLimiter)) (i : nat) (y : sys) : option sys :=
  x ← conns y !! i; '(x', l) ← f x (limiter y); Some (mkSys l (<[i := x']> (conns y))).

Definition step (e : event) (y : sys) : option sys :=
  match e with
  | OnActive i => at_conn accept i y
  | Step i => at_conn Acquire i y
  | OnInactive i => at_conn Release i y
  | Update n => Some (mkSys (UpdateLimit n (limiter y)) (conns y))
  end.

Fixpoint run (es : list event) (y : sys) : option sys :=
  match es with [] => Some y | e :: es => y ← step e y; run es y end.

Definition start (lim : Z) (fds : nat) : sys := mkSys (NewConnectionLimiter lim) (replicate fds Free).

Definition admitted (x : conn) : Z := match x with Open_ true => 1 | _ => 0 end.
Definition counted (x : conn) : Z := match x with Open_ _ => 1 | _ => 0 end.
Definition total (f : conn -> Z) (y : sys) : Z := sumZ (f <$> conns y).

(** The limits set are positive and at most [n]. *)
Definition limits_within (n : Z) (es : list event) : Prop :=
  Forall (fun e => match e with Update k => 1 <= k <= n | _ => True end) es.

Record inv (fds : nat) (n : Z) (y : sys) : Prop := mkInv {
  i_len : length (conns y) = fds;
  i_lim : 1 <= lim (limiter y) <= n;
  i_curr : curr (limiter y) = total counted y;
  i_pending : Forall (fun x => match x with CAdd k => 1 <= k <= n | _ => True end) (conns y);
  i_admitted : total admitted y <= n
}.

Lemma counts y : 0 <= total admitted y <= total counted y /\ total counted y <= lenZ (conns y).
Proof.
  unfold total, lenZ. induction (conns y) as [|x l IH]; [done|]. rewrite !fmap_cons, !sumZ_cons. cbn [length].
  rewrite Nat2Z.inj_succ. destruct x as [| | |[]]; cbn [admitted counted]; lia.
Qed.

Lemma conn_step_keeps fds n e y y' :
  Z.of_nat fds < 2 ^ 31 - 1 -> n < 2 ^ 31 -> inv fds n y ->
  match e with Update k => 1 <= k <= n | _ => True end -> step e y = Some y' -> inv fds n y'.
Proof.
  intros Hf Hn [I0 I1 I2 I3 I4] He E. pose proof (counts y) as C. unfold total, lenZ in *. rewrite I0 in C.
  destruct y as [l xs]. cbn [limiter conns] in *.
  destruct e as [i|i|i|k]; cbn [step] in E; unfold at_conn in E; cbn [limiter conns] in E.
  4: { injection E as <-. split; cbn [limiter conns UpdateLimit lim curr]; try done. rewrite i32_id by lia. lia. }
  all: destruct (xs !! i) as [x|] eqn:Hi; [|done]; cbn [mbind option_bind] in E;
    eapply Forall_lookup_1 in I3 as Hx; [|exact Hi];
    destruct x as [| |k|ok]; try done; injection E as <-;
    split; cbn [limiter conns lim curr]; unfold total; cbn [conns];
      rewrite ?length_insert, ?(sumZ_insert _ _ _ _ _ Hi); cbn [admitted counted]; try lia;
      try (by apply Forall_insert); try (rewrite i32_id by lia; lia).
  - rewrite i32_id by lia. destruct (Z.leb_spec (curr l + 1) k), (Z.leb_spec k 0); cbn [orb]; lia.
  - destruct ok; lia.
Qed.

Lemma conn_run_keeps fds n es : forall y y',
  Z.of_nat fds < 2 ^ 31 - 1 -> n < 2 ^ 31 -> inv fds n y -> limits_within n es ->
  run es y = Some y' -> inv fds n y'.
Proof.
  induction es as [|e es IH]; intros y y' Hf Hn I Hl E; [by injection E as <-|].
  apply Forall_cons in Hl as [He Hl]. cbn [run] in E. destruct (step e y) as [y1|] eqn:E1; [|done]. cbn [mbind option_bind] in E.
  apply (IH y1); try done. by eapply conn_step_keeps.
Qed.

Lemma start_inv fds n lim : 1 <= lim <= n -> n < 2 ^ 31 -> inv fds n (start lim fds).
Proof.
  intros Hl Hn.
  assert (Hz : forall f : conn -> Z, f Free = 0 -> total f (start lim fds) = 0).
  { intros f Hf. unfold total, start. cbn [conns]. rewrite fmap_replicate, Hf. clear. by induction fds. }
  split; rewrite ?Hz by done; cbn [start limiter conns NewConnectionLimiter Conn.lim curr]; try done.
  - by rewrite length_replicate.
  - rewrite i32_id by lia. lia.
  - by apply Forall_replicate.
  - lia.
Qed.

(** However the connections' and the updates' atomic operations interleave, the counter
    is exactly the number of connections that have been counted and not released, and with
    limits between 1 and [n] at most [n] accepted connections are open at any time. *)
Theorem admitted_connections_limited fds lim n es y :
  Z.of_nat fds < 2 ^ 31 - 1 -> 1 <= lim <= n -> n < 2 ^ 31 -> limits_within n es ->
  run es (start lim fds) = Some y ->
  curr (limiter y) = total counted y /\ total admitted y <= n.
Proof. intros Hf Hl Hn Hes E. destruct (conn_run_keeps fds n es (start lim fds) y); try done. by apply start_inv. Qed.

(** Two connections race for the one place; the refused one gives its count back. *)
Lemma admitted_connections_limited_witness :
  let y := mkSys (mkLimiter 2 2) [Free; Open_ true; Open_ true] in
  curr (limiter y) = total counted y /\ total admitted y <= 2.
Proof.
  apply (admitted_connections_limited 3 1 2
    [OnActive 0; OnActive 1; Step 0; Step 1; Step 1; Step 0; OnInactive 0; OnActive 2; Update 2; Step 2; Step 2]).
  - done.
  - done.
  - done.
  - by repeat constructor.
  - by vm_compute.
Defined.

End Conn.

(** * Rate *)

Module Qps.

(** float64(x) to int32: towards zero in range; out of range the value depends on the
    implementation (the Go specification). *)
Class Conversion := {
  out_of_range : spec_float -> Z;
  out_of_range_i32 : forall x, - 2 ^ 31 <= out_of_range x < 2 ^ 31
}.

Definition trunc (x : spec_float) : option Z :=
  match x with
  | S754_zero _ => Some 0
  | S754_finite s m e =>
      let v := if e <? 0 then Z.pos m / 2 ^ (- e) else Z.pos m * 2 ^ e in
      Some (if s then - v else v)
  | _ => None
  end.

Definition to_int32 `{!Conversion} (x : spec_float) : Z :=
  match trunc x with
  | Some v => if (- 2 ^ 31 <=? v) && (v <? 2 ^ 31) then v else out_of_range x
  | None => out_of_range x
  end.

Definition second : Z := 1000000000.

(** time.Duration.Seconds *)
Definition Seconds (d : Z) : spec_float :=
  SFadd f_prec f_emax (f_of_Z (Z.quot d second)) (f_div (f_of_Z (Z.rem d second)) (f_of_Z second)).

Definition fixedWindowTime : Z := second.

Definition calcOnce `{!Conversion} (interval limit : Z) : Z :=
  let interval := if interval >? second then second else interval in
  let once := to_int32 (f_div (f_of_Z limit) (f_div (Seconds fixedWindowTime) (Seconds interval))) in
  if once <? 0 then 0 else once.

Record qpsLimiter := mkQps {
  limit : Z; tokens : Z; interval : Z; once : Z;
  tickerDone : option nat;       (* the channel *)
  chans : list bool              (* the channels made so far: is the one place taken? *)
}.

Definition set_limit (x : Z) (l : qpsLimiter) := mkQps x (tokens l) (interval l) (once l) (tickerDone l) (chans l).
Definition set_tokens (x : Z) (l : qpsLimiter) := mkQps (limit l) x (interval l) (once l) (tickerDone l) (chans l).
Definition set_interval (x : Z) (l : qpsLimiter) := mkQps (limit l) (tokens l) x (once l) (tickerDone l) (chans l).
Definition set_once (x : Z) (l : qpsLimiter) := mkQps (limit l) (tokens l) (interval l) x (tickerDone l) (chans l).
Definition set_done (d : option nat) (cs : list bool) (l : qpsLimiter) := mkQps (limit l) (tokens l) (interval l) (once l) d cs.

(** A goroutine in Acquire, between two of its atomic operations. *)
Inductive caller := Idle | LoadTokens | TakeToken.

(** The next operation of Acquire, with its answer when it returns. *)
Definition Acquire (c : caller) (l : qpsLimiter) : caller * option bool * qpsLimiter :=
  match c with
  | Idle => if limit l <=? 0 then (Idle, Some true, l) else (LoadTokens, None, l)
  | LoadTokens => if tokens l <=? 0 then (Idle, Some false, l) else (TakeToken, None, l)
  | TakeToken => let x := i32 (tokens l - 1) in (Idle, Some (0 <=? x), set_tokens x l)
  end.

(** A ticker's goroutine: before [l.tickerDone = make(...)], before [td := l.tickerDone], in
    the select, at the loads, the add and the store of updateToken, returned. *)
Inductive ticker :=
| Make
| ReadDone
| Select (td : option nat)
| U1 (td : option nat)
| U2 (td : option nat) (limit : Z)
| U3 (td : option nat)
| U4 (td : option nat) (once : Z)
| U5 (td : option nat) (once limit : Z)
| U6 (td : option nat) (once delta : Z)
| U7 (td : option nat) (once : Z)
| Stopped.

Definition startTicker (t : ticker) (l : qpsLimiter) : option (ticker * qpsLimiter) :=
  match t with
  | Make => Some (ReadDone, set_done (Some (length (chans l))) (chans l ++ [false]) l)
  | ReadDone => Some (Select (tickerDone l), l)
  | _ => None
  end.

(** The case [<-td] of the select. *)
Definition receive_done (t : ticker) (l : qpsLimiter) : option (ticker * qpsLimiter) :=
  match t with
  | Select (Some c) =>
      if decide (chans l !! c = Some true)
      then Some (Stopped, set_done (tickerDone l) (<[c := false]> (chans l)) l) else None
  | _ => None
  end.

(** The case [<-tc]: the timer fires. *)
Definition receive_tick (t : ticker) (l : qpsLimiter) : option (ticker * qpsLimiter) :=
  match t with Select td => Some (U1 td, l) | _ => None end.

Definition updateToken (t : ticker) (l : qpsLimiter) : option (ticker * qpsLimiter) :=
  match t with
  | U1 td => Some (U2 td (limit l), l)
  | U2 td lim => Some (if lim <? tokens l then Select td else U3 td, l)
  | U3 td => Some (U4 td (once l), l)
  | U4 td once => Some (U5 td once (limit l), l)
  | U5 td once lim =>
      let delta := i32 (lim - tokens l) in
      Some (U6 td once (if (delta >? once) || (delta <? 0) then once else delta), l)
  | U6 td once delta =>
      let newTokens := i32 (tokens l + delta) in
      Some (if newTokens <? once then U7 td once else Select td, set_tokens newTokens l)
  | U7 td once => Some (Select td, set_tokens once l)
  | _ => None
  end.

(** The caller of UpdateLimit and UpdateQPSLimit, which are not to be called concurrently;
    [i] is the new interval, for UpdateQPSLimit. *)
Inductive updater :=
| Ready
| StoreLimit (i : option Z) (limit once : Z)
| StoreOnce (i : option Z) (once : Z)
| ResetLoad (i : option Z) (once : Z)
| ResetStore (i : option Z) (once : Z)
| NewInterval (i : option Z)
| StopTicker
| GoTicker.

Definition stopTicker (l : qpsLimiter) : qpsLimiter :=
  match tickerDone l with
  | None => l
  | Some c => set_done (Some c) (<[c := true]> (chans l)) l
  end.

Definition resetTokens (i : option Z) (o : Z) (l : qpsLimiter) : updater :=
  if tokens l >? o then ResetStore i o else NewInterval i.

(** The next operation; the boolean says that a ticker's goroutine is started. *)
Definition update_step (u : updater) (l : qpsLimiter) : option (updater * bool * qpsLimiter) :=
  match u with
  | Ready => None
  | StoreLimit i lim o => Some (StoreOnce i o, false, set_limit (i32 lim) l)
  | StoreOnce i o => Some (ResetLoad i o, false, set_once o l)
  | ResetLoad i o => Some (resetTokens i o l, false, l)
  | ResetStore i o => Some (NewInterval i, false, set_tokens o l)
  | NewInterval None => Some (Ready, false, l)
  | NewInterval (Some x) =>
      if x =? interval l then Some (Ready, false, l) else Some (StopTicker, false, set_interval x l)
  | StopTicker => Some (GoTicker, false, stopTicker l)
  | GoTicker => Some (Ready, true, l)
  end.

Section system.
Context `{!Conversion}.

Definition UpdateLimit (lim : Z) (l : qpsLimiter) : updater := StoreLimit None lim (calcOnce (interval l) lim).
Definition UpdateQPSLimit (i lim : Z) : updater := StoreLimit (Some i) lim (calcOnce i lim).

(** The goroutines around a limiter, and what has happened: the calls let in, the ticks,
    the updates. *)
Record sys := mkSys {
  lim : qpsLimiter; callers : list caller; tickers : list ticker; upd : updater;
  admitted : Z; ticks : Z; updates : Z
}.

Definition NewQPSLimiter (i lim : Z) (n : nat) : sys :=
  let o := calcOnce i lim in
  mkSys (mkQps (i32 lim) o i o None []) (replicate n Idle) [Make] Ready 0 0 0.

Inductive event :=
| Call (k : nat)
| Start (k : nat)
| Tick (k : nat)
| Done (k : nat)
| Refill (k : nat)
| SetLimit (lim : Z)
| SetQPS (i lim : Z)
| Update.

Definition at_ticker (f : ticker -> qpsLimiter -> option (ticker * qpsLimiter)) (dt : Z) (k : nat) (y : sys) : option sys :=
  t ← tickers y !! k; '(t', l) ← f t (lim y);
  Some (mkSys l (callers y) (<[k := t']> (tickers y)) (upd y) (admitted y) (ticks y + dt) (updates y)).

Definition begin_update (u : updater) (y : sys) : option sys :=
  match upd y with
  | Ready => Some (mkSys (lim y) (callers y) (tickers y) u (admitted y) (ticks y) (updates y + 1))
  | _ => None
  end.

Definition step (e : event) (y : sys) : option sys :=
  match e with
  | Call k =>
      c ← callers y !! k;
      let '(c', r, l) := Acquire c (lim y) in
      Some (mkSys l (<[k := c']> (callers y)) (tickers y) (upd y)
        (admitted y + if decide (r = Some true) then 1 else 0) (ticks y) (updates y))
  | Start k => at_ticker startTicker 0 k y
  | Tick k => at_ticker receive_tick 1 k y
  | Done k => at_ticker receive_done 0 k y
  | Refill k => at_ticker updateToken 0 k y
  | SetLimit x => begin_update (UpdateLimit x (lim y)) y
  | SetQPS i x => begin_update (UpdateQPSLimit i x) y
  | Update =>
      '(u, go, l) ← update_step (upd y) (lim y);
      Some (mkSys l (callers y) (if (go : bool) then tickers y ++ [Make] else tickers y) u
        (admitted y) (ticks y) (updates y))
  end.

Fixpoint run (es : list event) (y : sys) : option sys :=
  match es with [] => Some y | e :: es => y ← step e y; run es y end.

Lemma run_app es1 es2 y : run (es1 ++ es2) y = y1 ← run es1 y; run es2 y1.
Proof. revert y. induction es1 as [|e es IH]; intros y; [done|]. cbn [run app]. by destruct (step e y); cbn [mbind option_bind]. Qed.

Lemma updates_mono e y y' : step e y = Some y' -> updates y <= updates y'.
Proof.
  destruct e; cbn [step]; unfold at_ticker, begin_update; intros E.
  - destruct (callers y !! k) as [c|]; [|done]. cbn [mbind option_bind] in E. destruct (Acquire c (lim y)) as [[c' r] l]. injection E as <-. done.
  - destruct (tickers y !! k) as [t|]; [|done]. cbn [mbind option_bind] in E. destruct (startTicker _ _) as [[? ?]|]; [|done]. by injection E as <-.
  - destruct (tickers y !! k) as [t|]; [|done]. cbn [mbind option_bind] in E. destruct (receive_tick _ _) as [[? ?]|]; [|done]. by injection E as <-.
  - destruct (tickers y !! k) as [t|]; [|done]. cbn [mbind option_bind] in E. destruct (receive_done _ _) as [[? ?]|]; [|done]. by injection E as <-.
  - destruct (tickers y !! k) as [t|]; [|done]. cbn [mbind option_bind] in E. destruct (updateToken _ _) as [[? ?]|]; [|done]. by injection E as <-.
  - destruct (upd y); try done. injection E as <-. cbn. lia.
  - destruct (upd y); try done. injection E as <-. cbn. lia.
  - destruct (update_step _ _) as [[[? ?] ?]|]; [|done]. by injection E as <-.
Qed.

Lemma run_updates_mono es : forall y y', run es y = Some y' -> updates y <= updates y'.
Proof.
  induction es as [|e es IH]; intros y y' E; [by injection E as <-|]. cbn [run] in E.
  destruct (step e y) as [y1|] eqn:E1; [|done]. apply updates_mono in E1. apply IH in E. lia.
Qed.

(** ** The invariant: for limits up to [L] and refills up to [O] *)

Section bounds.
Context (n : nat) (I : list Z) (L O : Z).

(** The updates stay within: limits from 1 to [L], intervals of [I], refills up to [O]. *)
Definition settings_within (es : list event) : Prop :=
  Forall (fun e => match e with
    | SetLimit x => 1 <= x <= L /\ Forall (fun i => calcOnce i x <= O) I
    | SetQPS i x => 1 <= x <= L /\ i ∈ I /\ calcOnce i x <= O
    | _ => True
    end) es.

(** What a goroutine may still add to the tokens, and what of it by its pending add. *)
Definition credit (t : ticker) : Z :=
  match t with Make | ReadDone | Select _ | Stopped => 0 | U7 _ _ => O | _ => 2 * O end.
Definition pending_add (t : ticker) : Z :=
  match t with U3 _ | U4 _ _ | U5 _ _ _ | U6 _ _ _ => O | _ => 0 end.
Definition update_credit (u : updater) : Z :=
  match u with StoreLimit _ _ _ | StoreOnce _ _ | ResetLoad _ _ | ResetStore _ _ => O | _ => 0 end.
Definition busy (u : updater) : Z := match u with Ready => 0 | _ => 1 end.
Definition taking (c : caller) : Z := match c with TakeToken => 1 | _ => 0 end.

Definition ticker_ok (t : ticker) : Prop :=
  match t with
  | U2 _ lim => lim <= L
  | U4 _ o | U5 _ o _ | U7 _ o => 0 <= o <= O
  | U6 _ o d => 0 <= o <= O /\ 0 <= d <= O
  | _ => True
  end.

Definition updater_ok (u : updater) : Prop :=
  match u with
  | StoreLimit i lim o => 1 <= lim <= L /\ 0 <= o <= O /\ from_option (.∈ I) True i
  | StoreOnce i o | ResetLoad i o | ResetStore i o => 0 <= o <= O /\ from_option (.∈ I) True i
  | NewInterval i => from_option (.∈ I) True i
  | _ => True
  end.

Record inv (y : sys) : Prop := mkInv {
  i_callers : length (callers y) = n;
  i_limit : 1 <= limit (lim y) <= L;
  i_once : 0 <= once (lim y) <= O;
  i_interval : interval (lim y) ∈ I;
  i_tickers : Forall ticker_ok (tickers y);
  i_updater : updater_ok (upd y);
  i_count : lenZ (tickers y) + busy (upd y) <= 1 + updates y;
  i_lower : sumZ (taking <$> callers y) - Z.of_nat n <= tokens (lim y);
  i_upper : tokens (lim y) + sumZ (pending_add <$> tickers y) <= L + O * lenZ (tickers y);
  i_credit : admitted y + Z.max 0 (tokens (lim y)) + sumZ (credit <$> tickers y) + update_credit (upd y)
             <= O * (1 + 2 * ticks y + updates y)
}.

Hypothesis Hn : Z.of_nat n <= 2 ^ 31.
Hypothesis HO : 0 <= O <= L.
Hypothesis HL : L < 2 ^ 31.

Lemma pending_bound ts : 0 <= sumZ (pending_add <$> ts) <= O * lenZ ts.
Proof.
  unfold lenZ. induction ts as [|t ts IH]; [cbn; lia|]. rewrite fmap_cons, sumZ_cons. cbn [length].
  rewrite Nat2Z.inj_succ. destruct t; cbn [pending_add]; lia.
Qed.

Lemma token_credit_nonneg ts : 0 <= sumZ (credit <$> ts).
Proof. apply sumZ_nonneg, Forall_fmap, Forall_true. intros []; cbn; lia. Qed.

Lemma taking_bound cs : 0 <= sumZ (taking <$> cs) <= lenZ cs.
Proof.
  unfold lenZ. induction cs as [|t ts IH]; [done|]. rewrite fmap_cons, sumZ_cons. cbn [length].
  rewrite Nat2Z.inj_succ. destruct t; cbn [taking]; lia.
Qed.

Lemma tokens_upper y : inv y -> L + O * (1 + updates y) < 2 ^ 31 -> tokens (lim y) < 2 ^ 31.
Proof.
  intros [I0 I1 I2 I3 I4 I5 I6 I7 I8 I9] Hb. pose proof (pending_bound (tickers y)).
  assert (0 <= busy (upd y)) by (by destruct (upd y)). nia.
Qed.

Lemma call_keeps k y y' :
  inv y -> L + O * (1 + updates y) < 2 ^ 31 -> step (Call k) y = Some y' -> inv y'.
Proof.
  intros HI Hb E. pose proof (tokens_upper y HI Hb) as Hu. destruct HI as [I0 I1 I2 I3 I4 I5 I6 I7 I8 I9].
  cbn [step] in E. destruct (callers y !! k) as [c|] eqn:Hk; [|done].
  cbn [mbind option_bind] in E. pose proof (taking_bound (callers y)) as B. pose proof (pending_bound (tickers y)) as P.
  pose proof (sumZ_insert taking (callers y) k c Idle Hk) as S1. pose proof (taking_bound (<[k := Idle]> (callers y))) as B1.
  unfold lenZ in B, B1. rewrite length_insert in B1. rewrite I0 in B, B1.
  destruct c; cbn [Acquire] in E.
  - destruct (Z.leb_spec (limit (lim y)) 0); [lia|]. injection E as <-.
    split; cbn [callers lim tickers upd updates ticks admitted]; rewrite ?length_insert, ?(sumZ_insert _ _ _ _ _ Hk); cbn [taking]; try done; lia.
  - destruct (Z.leb_spec (tokens (lim y)) 0); injection E as <-;
      (split; cbn [callers lim tickers upd updates ticks admitted]; rewrite ?length_insert, ?(sumZ_insert _ _ _ _ _ Hk); cbn [taking]; try done; try lia).
  - injection E as <-. cbn [taking] in S1. rewrite i32_id by lia.
    split; cbn [callers lim tickers upd updates ticks admitted set_tokens tokens limit once interval];
      rewrite ?length_insert, ?(sumZ_insert _ _ _ _ _ Hk); cbn [taking]; try done; try lia.
    destruct (Z.leb_spec 0 (tokens (lim y) - 1)); [rewrite decide_True by done|rewrite decide_False by done]; lia.
Qed.

Lemma refill_keeps k y y' :
  inv y -> L + O * (1 + updates y) < 2 ^ 31 -> step (Refill k) y = Some y' -> inv y'.
Proof.
  intros HI Hb E. pose proof (tokens_upper y HI Hb) as Hu. destruct HI as [I0 I1 I2 I3 I4 I5 I6 I7 I8 I9].
  cbn [step] in E. unfold at_ticker in E. destruct (tickers y !! k) as [t|] eqn:Hk; [|done].
  eapply Forall_lookup_1 in I4 as Ht; [|exact Hk].
  cbn [mbind option_bind] in E. pose proof (taking_bound (callers y)) as B. pose proof (pending_bound (tickers y)) as P.
  assert (0 <= busy (upd y)) by (by destruct (upd y)). assert (L + O * lenZ (tickers y) < 2 ^ 31) by nia. unfold lenZ in B. rewrite I0 in B.
  assert (Hlen : forall t', lenZ (<[k := t']> (tickers y)) = lenZ (tickers y)) by (intros t'; unfold lenZ; by rewrite length_insert).
  pose proof (pending_bound (<[k := U3 None]> (tickers y))) as P1. rewrite Hlen, (sumZ_insert _ _ _ _ _ Hk) in P1.
  pose proof (pending_bound (<[k := Stopped]> (tickers y))) as P2. rewrite Hlen, (sumZ_insert _ _ _ _ _ Hk) in P2.
  destruct t as [| | |td|td x|td|td o|td o x|td o d|td o|]; try done; cbn [updateToken mbind option_bind ticker_ok pending_add] in E, Ht, P1, P2;
    injection E as <-.
  all: try (destruct (Z.ltb_spec x (tokens (lim y)))).
  all: try (rewrite (i32_id (tokens (lim y) + d)) by lia; destruct (Z.ltb_spec (tokens (lim y) + d) o)).
  all: split; cbn [callers lim tickers upd updates ticks admitted set_tokens tokens limit once interval];
      rewrite ?Hlen, ?(sumZ_insert _ _ _ _ _ Hk); try done; try (apply Forall_insert; [done|]); cbn [ticker_ok credit pending_add]; try done; try lia.
  all: destruct (Z.gtb_spec (i32 (x - tokens (lim y))) o), (Z.ltb_spec (i32 (x - tokens (lim y))) 0); cbn [orb]; lia.
Qed.

Lemma ticker_keeps f dt k y y' :
  (f = startTicker /\ dt = 0 \/ f = receive_tick /\ dt = 1 \/ f = receive_done /\ dt = 0) ->
  inv y -> at_ticker f dt k y = Some y' -> inv y'.
Proof.
  intros Hf [I0 I1 I2 I3 I4 I5 I6 I7 I8 I9] E.
  unfold at_ticker in E. destruct (tickers y !! k) as [t|] eqn:Hk; [|done]. cbn [mbind option_bind] in E.
  destruct (f t (lim y)) as [[t' l]|] eqn:Ef; [|done]. cbn [mbind option_bind] in E. injection E as <-.
  assert (limit l = limit (lim y) /\ tokens l = tokens (lim y) /\ once l = once (lim y) /\ interval l = interval (lim y)
    /\ ticker_ok t' /\ pending_add t = 0 /\ pending_add t' = 0 /\ credit t' = credit t + 2 * O * dt) as (E1 & E2 & E3 & E4 & Ht & P1 & P2 & C).
  { destruct Hf as [[-> ->]|[[-> ->]|[-> ->]]]; destruct t as [| |[c|]| | | | | | | |]; cbn [startTicker receive_tick receive_done] in Ef; try done.
    5: { destruct (decide _); [|done]. injection Ef as <- <-. cbn [credit pending_add ticker_ok]. repeat split; lia. }
    all: injection Ef as <- <-; cbn [credit pending_add ticker_ok]; repeat split; lia. }
  split; cbn [callers lim tickers upd updates ticks admitted]; rewrite ?E1, ?E2, ?E3, ?E4; try done;
    unfold lenZ in *; rewrite ?length_insert, ?(sumZ_insert _ _ _ _ _ Hk); try lia. by apply Forall_insert.
Qed.

Lemma calcOnce_nonneg i x : 0 <= calcOnce i x.
Proof. unfold calcOnce. destruct (Z.ltb_spec (to_int32 (f_div (f_of_Z x) (f_div (Seconds fixedWindowTime) (Seconds (if i >? second then second else i))))) 0); lia. Qed.

Lemma begin_keeps u y y' :
  updater_ok u -> update_credit u = O -> busy u = 1 -> inv y -> begin_update u y = Some y' -> inv y'.
Proof.
  intros Hu Hc Hbusy [I0 I1 I2 I3 I4 I5 I6 I7 I8 I9] E. unfold begin_update in E.
  destruct (upd y) eqn:Eu; try done. injection E as <-. cbn [busy update_credit] in *.
  split; cbn [callers lim tickers upd updates ticks admitted]; rewrite ?Hc, ?Hbusy; try done; lia.
Qed.

Lemma update_keeps y y' : inv y -> step Update y = Some y' -> inv y'.
Proof.
  intros [I0 I1 I2 I3 I4 I5 I6 I7 I8 I9] E. cbn [step] in E. pose proof (pending_bound (tickers y)) as P.
  pose proof (taking_bound (callers y)) as B. unfold lenZ in B. rewrite I0 in B.
  destruct (upd y) as [|i x o|i o|i o|i o|[x|]| |] eqn:Eu; cbn [update_step mbind option_bind] in E; try done.
  5: destruct (Z.eqb_spec x (interval (lim y))).
  all: try (unfold resetTokens in E; destruct (Z.gtb_spec (tokens (lim y)) o)).
  all: try (unfold stopTicker in E; destruct (tickerDone (lim y))).
  all: cbn [mbind option_bind] in E; injection E as <-; cbn [updater_ok from_option busy update_credit] in *.
  all: split; cbn [callers lim tickers upd updates ticks admitted set_tokens set_limit set_once set_interval set_done tokens limit once interval
         updater_ok from_option busy update_credit]; try done; try (by destruct I5 as (? & ?)); try lia.
  all: try (by destruct I5 as (? & ? & ?)); rewrite ?i32_id by lia; try lia; unfold lenZ in *; rewrite ?length_app, ?fmap_app, ?sumZ_app;
    cbn [length fmap list_fmap pending_add credit sumZ foldr]; try lia.
  all: apply Forall_app; split; [done|by repeat constructor].
Qed.

Lemma qps_step_keeps e y y' :
  inv y -> L + O * (1 + updates y) < 2 ^ 31 -> settings_within [e] -> step e y = Some y' -> inv y'.
Proof.
  intros HI Hb Hs E. apply Forall_cons in Hs as [Hs _]. destruct e as [k|k|k|k|k|x|i x|].
  - by eapply call_keeps.
  - by eapply (ticker_keeps startTicker 0); [left|..].
  - by eapply (ticker_keeps receive_tick 1); [right; left|..].
  - by eapply (ticker_keeps receive_done 0); [right; right|..].
  - by eapply refill_keeps.
  - destruct Hs as [Hx Hs]. pose proof (i_interval _ HI) as Hi. rewrite Forall_forall in Hs. specialize (Hs _ Hi).
    eapply (begin_keeps (UpdateLimit x (lim y))); try done. cbn. pose proof (calcOnce_nonneg (interval (lim y)) x). lia.
  - destruct Hs as (Hx & Hi & Hs). eapply (begin_keeps (UpdateQPSLimit i x)); try done. cbn.
    pose proof (calcOnce_nonneg i x). repeat split; try lia. done.
  - by eapply update_keeps.
Qed.

Lemma qps_run_keeps es : forall y y',
  inv y -> L + O * (1 + updates y') < 2 ^ 31 -> settings_within es -> run es y = Some y' ->
  inv y' /\ updates y <= updates y'.
Proof.
  induction es as [|e es IH]; intros y y' HI Hb Hs E; [by injection E as <-|].
  apply Forall_cons in Hs as [He Hs]. cbn [run] in E. destruct (step e y) as [y1|] eqn:E1; [|done]. cbn [mbind option_bind] in E.
  pose proof (updates_mono _ _ _ E1).
  pose proof (run_updates_mono _ _ _ E) as Hm.
  destruct (IH y1 y'); try done; [|split; [done|lia]].
  eapply qps_step_keeps; [done| |by repeat constructor|done]. nia.
Qed.

Lemma new_limiter_inv i x :
  i ∈ I -> 1 <= x <= L -> calcOnce i x <= O -> inv (NewQPSLimiter i x n).
Proof.
  intros Hi Hx Ho. pose proof (calcOnce_nonneg i x).
  split; cbn [NewQPSLimiter callers lim tickers upd updates ticks admitted tokens limit once interval updater_ok busy update_credit]; try done.
  - apply length_replicate.
  - rewrite i32_id by lia. lia.
  - by repeat constructor.
  - rewrite fmap_replicate. cbn [taking]. assert (forall k, sumZ (replicate k 0) = 0) as -> by (induction k; [done|]; by rewrite replicate_S, sumZ_cons, IHk). lia.
  - unfold lenZ. cbn [fmap list_fmap sumZ foldr pending_add credit length]. lia.
  - unfold lenZ. cbn [fmap list_fmap sumZ foldr pending_add credit length]. lia.
Qed.

End bounds.

Lemma run_bounds n I L O i x es y :
  Z.of_nat n <= 2 ^ 31 -> 0 <= O <= L -> i ∈ I -> 1 <= x <= L -> calcOnce i x <= O ->
  settings_within I L O es -> L + O * (1 + updates y) < 2 ^ 31 ->
  run es (NewQPSLimiter i x n) = Some y ->
  admitted y <= O * (1 + 2 * ticks y + updates y) /\ - Z.of_nat n <= tokens (lim y) <= L + O * (1 + updates y).
Proof.
  intros Hn HO Hi Hx Ho Hs Hb E. pose proof (run_updates_mono _ _ _ E) as Hm. cbn [NewQPSLimiter updates] in Hm.
  assert (HL : L < 2 ^ 31) by nia.
  destruct (qps_run_keeps n I L O Hn HO HL es (NewQPSLimiter i x n) y) as [HI Hu]; try done.
  { by apply new_limiter_inv. }
  destruct HI as [I0 I1 I2 I3 I4 I5 I6 I7 I8 I9].
  assert (0 <= sumZ (pending_add O <$> tickers y) <= O * lenZ (tickers y)) by (by eapply pending_bound).
  assert (0 <= sumZ (taking <$> callers y)) by (by eapply taking_bound).
  assert (0 <= sumZ (credit O <$> tickers y)) by (by eapply token_credit_nonneg).
  assert (0 <= busy (upd y)) by (by destruct (upd y)). assert (0 <= update_credit O (upd y)) by (destruct (upd y); cbn; lia).
  split; [lia|]. split; [lia|nia].
Qed.

(** C29: however callers, tickers and updates interleave, and whatever overlap of old and new
    tickers an update of the interval leaves, the calls let in never exceed the refills: with
    limits from 1 to [L] and refills of at most [O] tokens, [O] for the limiter's start and
    for each update and [2 * O] for each tick.  With at most 2^31 callers and
    [L + O * (1 + updates)] below 2^31 the token counter does not wrap around. *)
Theorem admitted_calls_limited n I L O i x es y :
  Z.of_nat n <= 2 ^ 31 -> 0 <= O <= L -> i ∈ I -> 1 <= x <= L -> calcOnce i x <= O ->
  settings_within I L O es -> L + O * (1 + updates y) < 2 ^ 31 ->
  run es (NewQPSLimiter i x n) = Some y ->
  admitted y <= O * (1 + 2 * ticks y + updates y) /\ - Z.of_nat n <= tokens (lim y) <= L + O * (1 + updates y).
Proof. apply run_bounds. Qed.

(** What a tick does when nothing else touches the tokens. *)
Definition refill (limit once tokens : Z) : Z :=
  if limit <? tokens then tokens else Z.max once (tokens + Z.min once (limit - tokens)).

Lemma refill_delta lim o t :
  - 2 ^ 31 <= t <= lim -> lim < 2 ^ 31 -> 0 <= o < 2 ^ 31 ->
  (if (i32 (lim - t) >? o) || (i32 (lim - t) <? 0) then o else i32 (lim - t)) = Z.min o (lim - t).
Proof.
  intros Ht Hl Ho. destruct (decide (lim - t < 2 ^ 31)).
  - rewrite i32_id by lia. destruct (Z.gtb_spec (lim - t) o), (Z.ltb_spec (lim - t) 0); cbn [orb]; lia.
  - assert (i32 (lim - t) = lim - t - 2 ^ 32) as ->.
    { unfold i32, wrapS. change (32 - 1) with 31. rewrite (Z.mod_eq _ (2 ^ 32)) by lia.
      rewrite <- (Z.div_unique (lim - t + 2 ^ 31) (2 ^ 32) 1 (lim - t - 2 ^ 31)) by lia. lia. }
    rewrite (proj2 (Z.ltb_lt (lim - t - 2 ^ 32) 0)) by lia. rewrite orb_true_r. lia.
Qed.

Definition with_ticker (k : nat) (t : ticker) (l : qpsLimiter) (y : sys) : sys :=
  mkSys l (callers y) (<[k := t]> (tickers y)) (upd y) (admitted y) (ticks y) (updates y).

Lemma refill_step k t t' l y es :
  (k < length (tickers y))%nat -> updateToken t (lim y) = Some (t', l) ->
  run (Refill k :: es) (with_ticker k t (lim y) y) = run es (with_ticker k t' l y).
Proof.
  intros Hk E. cbn [run step]. unfold at_ticker, with_ticker. cbn [tickers lim].
  rewrite list_lookup_insert_eq by done. cbn [mbind option_bind]. rewrite E. cbn [mbind option_bind callers upd admitted ticks updates].
  by rewrite list_insert_insert_eq, Z.add_0_r.
Qed.

#[local] Ltac go_refill := erewrite refill_step; [|done|reflexivity].

(** An uncontended tick fills the bucket up to the refill at least, by at most the refill
    unless tokens were owed, and the ticker is back in its select. *)
Lemma uncontended_tick k td y :
  tickers y !! k = Some (Select td) ->
  - 2 ^ 31 <= tokens (lim y) -> 0 <= once (lim y) -> 0 <= limit (lim y) -> limit (lim y) + once (lim y) < 2 ^ 31 ->
  exists m y', run (Tick k :: replicate m (Refill k)) y = Some y' /\
    tickers y' !! k = Some (Select td) /\
    tokens (lim y') = refill (limit (lim y)) (once (lim y)) (tokens (lim y)).
Proof.
  intros Hk Ht Ho Hl0 Hlo. assert (Hl : (k < length (tickers y))%nat) by (by eapply lookup_lt_Some).
  set (y0 := mkSys (lim y) (callers y) (tickers y) (upd y) (admitted y) (ticks y + 1) (updates y)).
  assert (E0 : forall es, run (Tick k :: es) y = run es (with_ticker k (U1 td) (lim y) y0)).
  { intros es. cbn [run step]. unfold at_ticker. by rewrite Hk. }
  assert (Hk0 : (k < length (tickers y0))%nat) by done. assert (El : lim y = lim y0) by done. rewrite El in *. clear El.
  assert (Hin : forall t l, tickers (with_ticker k t l y0) !! k = Some t) by (intros; by apply list_lookup_insert_eq).
  clearbody y0. destruct (decide (limit (lim y0) < tokens (lim y0))) as [H1|H1].
  - exists 2%nat. eexists. rewrite E0. cbn [replicate].
    do 2 go_refill. cbn [run].
    rewrite (proj2 (Z.ltb_lt _ _) H1). split_and!; [done..|]. unfold refill. by rewrite (proj2 (Z.ltb_lt _ _) H1).
  - set (d := Z.min (once (lim y0)) (limit (lim y0) - tokens (lim y0))).
    assert (E7 : forall m, run (Tick k :: replicate (6 + m) (Refill k)) y
      = run (replicate m (Refill k)) (with_ticker k
          (if tokens (lim y0) + d <? once (lim y0) then U7 td (once (lim y0)) else Select td) (set_tokens (tokens (lim y0) + d) (lim y0)) y0)).
    { intros m. rewrite E0. cbn [replicate Nat.add].
      do 2 go_refill.
      rewrite (proj2 (Z.ltb_ge _ _)) by lia. do 3 go_refill.
      rewrite refill_delta by lia. go_refill. rewrite i32_id by lia. done. }
    unfold refill. rewrite (proj2 (Z.ltb_ge _ _)) by lia. destruct (Z.ltb_spec (tokens (lim y0) + d) (once (lim y0))).
    + exists (6 + 1)%nat, (with_ticker k (Select td) (set_tokens (once (lim y0)) (lim y0)) y0). rewrite E7. split_and!; [|done|].
      * cbn [replicate run step]. unfold at_ticker. rewrite Hin. cbn. by rewrite list_insert_insert_eq, Z.add_0_r.
      * cbn [with_ticker lim set_tokens tokens]. lia.
    + exists (6 + 0)%nat. eexists. rewrite E7. split_and!; [done..|]. cbn [with_ticker lim set_tokens tokens]. lia.
Qed.

(** A limit below the number of intervals in a second gives refills of no token at all, and
    then no call is ever let in. *)
Lemma no_refill_admits_nothing n i x es y :
  Z.of_nat n <= 2 ^ 31 -> 1 <= x < 2 ^ 31 -> calcOnce i x = 0 ->
  Forall (fun e => match e with SetLimit _ | SetQPS _ _ => False | _ => True end) es ->
  run es (NewQPSLimiter i x n) = Some y -> admitted y <= 0.
Proof.
  intros Hn Hx Ho Hes E. destruct (run_bounds n [i] x 0 i x es y) as [B _]; try done; [lia|..|lia].
  - by apply list_elem_of_singleton.
  - lia.
  - lia.
  - eapply Forall_impl; [exact Hes|]. by intros [].
Qed.

(** ** A ticker no update can stop *)

Definition done_of (t : ticker) : option nat :=
  match t with
  | Select td | U1 td | U2 td _ | U3 td | U4 td _ | U5 td _ _ | U6 td _ _ | U7 td _ => td
  | Make | ReadDone | Stopped => None
  end.

(** Ticker [k] runs, and listens to a channel the limiter has lost. *)
Definition orphan (k c : nat) (y : sys) : Prop :=
  done_of <$> tickers y !! k = Some (Some c) /\ chans (lim y) !! c = Some false /\ tickerDone (lim y) <> Some c.

Lemma orphan_ticker f dt j k c y y' :
  f = startTicker \/ f = receive_tick \/ f = receive_done \/ f = updateToken ->
  orphan k c y -> at_ticker f dt j y = Some y' -> orphan k c y'.
Proof.
  intros Hf (O1 & O2 & O3) E. unfold at_ticker in E. destruct (tickers y !! j) as [t|] eqn:Hj; [|done]. cbn [mbind option_bind] in E.
  destruct (f t (lim y)) as [[t' l]|] eqn:Ef; [|done]. cbn [mbind option_bind] in E. injection E as <-.
  assert ((done_of t = Some c -> done_of t' = Some c) /\ chans l !! c = Some false /\ tickerDone l <> Some c) as (D & C & T).
  { destruct Hf as [->|[->|[->| ->]]]; destruct t as [| |[b|]| | | | | | | |]; cbn [startTicker receive_tick receive_done updateToken] in Ef; try done;
      repeat case_decide; repeat case_match; try done; injection Ef as <- <-; cbn [done_of set_tokens set_done chans tickerDone]; try done.
    - split_and!; try done; [by apply lookup_app_l_Some|]. intros [= Hc]. apply lookup_lt_Some in O2. lia.
    - split_and!; try done; [congruence|]. rewrite list_lookup_insert_ne; [done|congruence]. }
  split_and!; cbn [lim tickers]; try done. destruct (decide (j = k)) as [->|].
  - rewrite list_lookup_insert_eq by (by eapply lookup_lt_Some). rewrite Hj in O1. injection O1 as O1. cbn. by rewrite D.
  - by rewrite list_lookup_insert_ne.
Qed.

Lemma orphan_step k c e y y' : orphan k c y -> step e y = Some y' -> orphan k c y'.
Proof.
  intros HO E. destruct e as [j|j|j|j|j|x|i x|]; cbn [step] in E.
  2: by eapply (orphan_ticker startTicker); [left|..].
  2: by eapply (orphan_ticker receive_tick); [right; left|..].
  2: by eapply (orphan_ticker receive_done); [right; right; left|..].
  2: by eapply (orphan_ticker updateToken); [right; right; right|..].
  all: destruct HO as (O1 & O2 & O3); unfold begin_update in E.
  - destruct (callers y !! j) as [a|]; [|done]. cbn [mbind option_bind] in E. destruct (Acquire a (lim y)) as [[a' r] l] eqn:Ea. injection E as <-.
    assert (chans l = chans (lim y) /\ tickerDone l = tickerDone (lim y)) as [C T].
    { destruct a; cbn [Acquire] in Ea; repeat case_match; by injection Ea as <- <- <-. }
    split_and!; cbn [lim tickers]; by rewrite ?C, ?T.
  - destruct (upd y); try done. by injection E as <-.
  - destruct (upd y); try done. by injection E as <-.
  - destruct (update_step (upd y) (lim y)) as [[[u go] l]|] eqn:Eu; [|done]. cbn [mbind option_bind] in E. injection E as <-.
    assert (chans l !! c = Some false /\ tickerDone l <> Some c) as [C T].
    { destruct (upd y) as [| | | | |[]| |]; cbn [update_step] in Eu; unfold stopTicker in Eu; repeat case_match; try done; injection Eu as <- <- <-; try done.
      - split; [|done]. cbn [set_done chans]. rewrite list_lookup_insert_ne; [done|congruence].
      - split; congruence. }
    split_and!; cbn [lim tickers]; try done. destruct go; [|done].
    destruct (tickers y !! k) eqn:Ek; [|done]. by rewrite (lookup_app_l_Some _ _ _ _ Ek).
Qed.

Lemma orphan_ticker_forever k c es : forall y y', orphan k c y -> run es y = Some y' -> orphan k c y'.
Proof.
  induction es as [|e es IH]; intros y y' HO E; [by injection E as <-|]. cbn [run] in E.
  destruct (step e y) as [y1|] eqn:E1; [|done]. eapply IH; [|exact E]. by eapply orphan_step.
Qed.

End system.

(** amd64: the conversion's value out of range. *)
#[export] Instance amd64 : Conversion.
Proof. refine {| out_of_range := fun _ => - 2 ^ 31 |}. lia. Defined.

Definition ms : Z := 1000000.

(** One tick lets in three calls with refills of two tokens: the add is short because three
    callers had taken the last two tokens, and a call gets in before the store. *)
Definition deviation : list event :=
  [Start 0; Start 0; Call 0; Call 1; Call 2; Call 0; Call 1; Call 2; Call 0; Call 1; Call 2;
   Tick 0] ++ replicate 6 (Refill 0) ++ [Call 0; Call 0; Call 0; Refill 0; Call 0; Call 0; Call 0; Call 1; Call 1; Call 1;
   SetQPS (250 * ms) 8] ++ replicate 6 Update.

Lemma admitted_calls_limited_witness :
  let y := mkSys (mkQps 8 0 (250 * ms) 2 (Some 0%nat) [true]) [Idle; Idle; Idle] [Select (Some 0%nat); Make] Ready 5 1 1 in
  run deviation (NewQPSLimiter (500 * ms) 4 3) = Some y /\
  admitted y <= 2 * (1 + 2 * ticks y + updates y) /\ - 3 <= tokens (lim y) <= 8 + 2 * (1 + updates y).
Proof.
  split; [by vm_compute|].
  apply (admitted_calls_limited 3 [500 * ms; 250 * ms] 8 2 (500 * ms) 4 deviation).
  - done.
  - done.
  - by left.
  - done.
  - by vm_compute.
  - unfold deviation. repeat (apply Forall_cons; split; [try done|]); [|done].
    split; [done|]. split; [right; left|by vm_compute].
  - done.
  - by vm_compute.
Defined.

(** The server's interval is 100 ms (src/server/server.go): a limit of 1 to 9 calls a second
    lets no call in. *)
Lemma server_limit_below_ten_admits_nothing n x es y :
  Z.of_nat n <= 2 ^ 31 -> 1 <= x <= 9 ->
  Forall (fun e => match e with SetLimit _ | SetQPS _ _ => False | _ => True end) es ->
  run es (NewQPSLimiter (100 * ms) x n) = Some y -> admitted y <= 0.
Proof.
  intros Hn Hx. apply no_refill_admits_nothing; [done|lia|].
  assert (forallb (fun x => calcOnce (100 * ms) x =? 0) (seqZ 1 9) = true) as F by (by vm_compute).
  rewrite forallb_forall in F. apply Z.eqb_eq, F, list_elem_of_In, elem_of_seqZ. lia.
Qed.

(** An update of the interval before the goroutine of the first ticker has run: nothing is
    stopped, two tickers refill from then on, and no later update stops the first. *)
Lemma early_interval_update_leaks_ticker es y :
  let early := [SetQPS (200 * ms) 10; Update; Update; Update; Update; Update; Update; Start 0; Start 0; Start 1; Start 1] in
  run (early ++ es) (NewQPSLimiter (100 * ms) 10 1) = Some y -> orphan 0 0 y.
Proof.
  cbn zeta. rewrite run_app. intros E.
  destruct (run _ (NewQPSLimiter (100 * ms) 10 1)) as [y1|] eqn:E1; [|done]. eapply orphan_ticker_forever; [|exact E].
  vm_compute in E1. injection E1 as <-. by split_and!.
Qed.

End Qps.
