(* ===== verification/ServerTransport.v ===== *)
(** The server side of an HTTP/2 connection
    (src/pkg/remote/trans/nphttp2/grpc/http2_server.go, with the server's part of the stream of
    transport.go).

    As on the client side (ClientTransport.v) every goroutine is a sequence of atomic steps:
    the reader, the writer, keepalive, the goroutine that waits between the two GOAWAY frames
    of a graceful shutdown, those that close the transport, and one handler for each stream,
    which sends from one goroutine at a time as the stream's documentation asks.  [exec] is
    one step.

    The peer's frames, the clock, the timers, the contexts, the channel a select takes, the
    answers of the bandwidth estimator, how long the reader is throttled, the order in which
    the writer (Loopy.v) gets to the trailers it keeps behind data, and its failures are the
    environment's.  Logging and tracing are left out. *)

From S2P Require Import Prelude GoText Loopy FlowControl HttpUtil Headers Frames ControlBuf ClientTransport.

(** * Values *)

Definition ErrCodeInternal : Z := 2.
Definition ErrCodeInadequateSecurity : Z := 12.

Definition statusCodeConvTab (code : Z) : Z :=
  if code =? Internal then ErrCodeInternal
  else if code =? Canceled then ErrCodeCancel
  else if code =? Unavailable then ErrCodeRefusedStream
  else if code =? ResourceExhausted then ErrCodeEnhanceYourCalm
  else if code =? PermissionDenied then ErrCodeInadequateSecurity
  else 0.

(** Why a context is cancelled: an error of type *status.Error, or one of another type. *)
Inductive cause := CStatus (code : Z) (msg : text) | CPlain (msg : text).

Definition by_remote (msg : text) : text := msg ++ bs " [triggered by remote service]".
Definition by_handler (msg : text) : text := msg ++ bs " [triggered by handler side]".

(** The messages end where the source formats an error or the name of the caller into them. *)
Definition errConnectionEOF : cause := CStatus Canceled (by_remote (bs "transport: connection EOF")).
Definition errReadFrame : cause := CStatus Canceled (bs "transport: ReadFrame encountered err: ").
Definition errStreamError : cause := CStatus Canceled (bs "transport: ReadFrame encountered http2.StreamError: ").
Definition errInflow : cause := CStatus Canceled (bs "transport: inflow control err: ").
Definition errRSTReceived : cause := CStatus Canceled (bs "transport: RSTStream Frame received with error code: ").
Definition errMaxAgeClosing : cause :=
  CStatus Canceled (by_remote (bs "transport: closing server transport due to maximum connection age")).
Definition errIdleClosing : cause := CStatus Canceled (by_remote (bs "transport: closing server transport due to idleness")).
Definition errBizHandlerReturn : cause := CStatus Canceled (bs "transport: canceled by business handler returning").
Definition errGraceful : cause := CStatus Unavailable gracefulShutdownMsg.
Definition headerListSizeMsg : text :=
  by_handler (bs "transport: trying to send header list size larger than the limit set by peer").
Definition errHeaderListSize : cause := CStatus Internal headerListSizeMsg.
Definition errStatusHeaderListSize : serr := StatusE (New Internal headerListSizeMsg).
Definition errIllegalStreamID : cause := CPlain (bs "received an illegal stream id: ").

Definition same_type (c1 c2 : cause) : bool :=
  match c1, c2 with CStatus _ _, CStatus _ _ | CPlain _, CPlain _ => true | _, _ => false end.

Definition cause_err (c : cause) : error :=
  match c with CStatus _ m | CPlain m => OtherError (String.string_of_list_byte m) end.

(** A stream.  [reason]: what its context was cancelled with.  [ctxErr_]: the error of the
    underlying context (deadline, or the connection's context).  [handled]: the handler has
    been started. *)
Record stream := mkStream {
  sid : Z;
  st : streamState;
  sent : bool;
  hdr : MD;
  trl : MD;
  subtype_ : text;
  compress : text;
  reason : option cause;
  ctxErr_ : option ctxErr;
  rbuf : recvBuffer;
  fc : InFlow.inFlow;
  handled : bool
}.

Definition set_st (v : streamState) (x : stream) : stream :=
  mkStream (sid x) v (sent x) (hdr x) (trl x) (subtype_ x) (compress x) (reason x) (ctxErr_ x) (rbuf x) (fc
    x) (handled x).
Definition set_sent (v : bool) (x : stream) : stream :=
  mkStream (sid x) (st x) v (hdr x) (trl x) (subtype_ x) (compress x) (reason x) (ctxErr_ x) (rbuf x) (fc x)
    (handled x).
Definition set_hdr (v : MD) (x : stream) : stream :=
  mkStream (sid x) (st x) (sent x) v (trl x) (subtype_ x) (compress x) (reason x) (ctxErr_ x) (rbuf x) (fc
    x) (handled x).
Definition set_trl (v : MD) (x : stream) : stream :=
  mkStream (sid x) (st x) (sent x) (hdr x) v (subtype_ x) (compress x) (reason x) (ctxErr_ x) (rbuf x) (fc
    x) (handled x).
Definition set_reason (v : option cause) (x : stream) : stream :=
  mkStream (sid x) (st x) (sent x) (hdr x) (trl x) (subtype_ x) (compress x) v (ctxErr_ x) (rbuf x) (fc x)
    (handled x).
Definition set_ctxErr_ (v : option ctxErr) (x : stream) : stream :=
  mkStream (sid x) (st x) (sent x) (hdr x) (trl x) (subtype_ x) (compress x) (reason x) v (rbuf x) (fc x)
    (handled x).
Definition set_rbuf (v : recvBuffer) (x : stream) : stream :=
  mkStream (sid x) (st x) (sent x) (hdr x) (trl x) (subtype_ x) (compress x) (reason x) (ctxErr_ x) v (fc x)
    (handled x).
Definition set_fc (v : InFlow.inFlow) (x : stream) : stream :=
  mkStream (sid x) (st x) (sent x) (hdr x) (trl x) (subtype_ x) (compress x) (reason x) (ctxErr_ x) (rbuf x)
    v (handled x).
Definition set_handled (v : bool) (x : stream) : stream :=
  mkStream (sid x) (st x) (sent x) (hdr x) (trl x) (subtype_ x) (compress x) (reason x) (ctxErr_ x) (rbuf x)
    (fc x) v.

(** The context's Err; the underlying context is cancelled together with the reason. *)
Definition ctx_err (x : stream) : option ctxErr :=
  match reason x with
  | Some (CStatus c m) => Some (CtxStatus (mkStatus c m []))
  | Some (CPlain m) => Some (CtxOther m)
  | None => ctxErr_ x
  end.

Definition ContextErr (x : stream) : serr :=
  snd (contextStatusAndErr (default (CtxOther (bs "<nil>")) (ctx_err x))).

(** CancelWithReason: atomic.Value's CompareAndSwap panics ([None]) when the stored value has
    another type than the new one. *)
Definition CancelWithReason (c : cause) (x : stream) : option stream :=
  match reason x with
  | None => Some (set_reason (Some c) x)
  | Some c0 => if same_type c0 c then Some x else None
  end.

(** A channel that is made once and closed once. *)
Inductive chan := NilChan | OpenChan | ClosedChan.

#[export] Instance chan_eq_dec : EqDecision chan.
Proof. solve_decision. Defined.

(** [close(c)]; [None] is the panic of a nil or closed channel. *)
Definition close_chan (c : chan) : option chan := match c with OpenChan => Some ClosedChan | _ => None end.

(** The transport.  [streams]: the streams handed to a handler, in the order of their
    acceptance.  [drainChan]: the channel drain makes and the acknowledgement of its ping
    closes, with the flag [drainChanClosed] beside it.  [finishCh]: the token in Close's
    one-slot channel.  [kept]: what the writer does after the trailers it holds behind data.
    [goAways]: the GOAWAY frames written, with the last stream id and whether it is the first,
    heads-up one.  [accepted]: every item the control buffer has accepted. *)
Record http2Server := mkServer {
  streams : list stream;
  state : transportState;
  active : option (gmap Z nat);
  maxStreamID : Z;
  maxStreams : Z;
  cb : ControlBuffer.controlBuffer;
  tfc : TrInFlow.trInFlow;
  iws : Z;
  maxSendHeaderListSize : option Z;
  drainChan : chan;
  drainChanClosed : bool;
  doneClosed : bool;
  connClosed : bool;
  writerDone : bool;
  finishCh : bool;
  idle : option Z;
  lastRead : Z;
  lastPingAt : option Z;
  pingStrikes : Z;
  resetStrikes : bool;
  kept : list cleanupStream;
  goAways : list (Z * bool);
  accepted : list cbItem
}.

Definition set_streams (v : list stream) (x : http2Server) : http2Server :=
  mkServer v (state x) (active x) (maxStreamID x) (maxStreams x) (cb x) (tfc x) (iws x)
    (maxSendHeaderListSize x) (drainChan x) (drainChanClosed x) (doneClosed x) (connClosed x) (writerDone x)
    (finishCh x) (idle x) (lastRead x) (lastPingAt x) (pingStrikes x) (resetStrikes x) (kept x) (goAways x)
    (accepted x).
Definition set_state (v : transportState) (x : http2Server) : http2Server :=
  mkServer (streams x) v (active x) (maxStreamID x) (maxStreams x) (cb x) (tfc x) (iws x)
    (maxSendHeaderListSize x) (drainChan x) (drainChanClosed x) (doneClosed x) (connClosed x) (writerDone x)
    (finishCh x) (idle x) (lastRead x) (lastPingAt x) (pingStrikes x) (resetStrikes x) (kept x) (goAways x)
    (accepted x).
Definition set_active (v : option (gmap Z nat)) (x : http2Server) : http2Server :=
  mkServer (streams x) (state x) v (maxStreamID x) (maxStreams x) (cb x) (tfc x) (iws x)
    (maxSendHeaderListSize x) (drainChan x) (drainChanClosed x) (doneClosed x) (connClosed x) (writerDone x)
    (finishCh x) (idle x) (lastRead x) (lastPingAt x) (pingStrikes x) (resetStrikes x) (kept x) (goAways x)
    (accepted x).
Definition set_maxStreamID (v : Z) (x : http2Server) : http2Server :=
  mkServer (streams x) (state x) (active x) v (maxStreams x) (cb x) (tfc x) (iws x) (maxSendHeaderListSize
    x) (drainChan x) (drainChanClosed x) (doneClosed x) (connClosed x) (writerDone x) (finishCh x) (idle x)
    (lastRead x) (lastPingAt x) (pingStrikes x) (resetStrikes x) (kept x) (goAways x) (accepted x).
Definition set_cb (v : ControlBuffer.controlBuffer) (x : http2Server) : http2Server :=
  mkServer (streams x) (state x) (active x) (maxStreamID x) (maxStreams x) v (tfc x) (iws x)
    (maxSendHeaderListSize x) (drainChan x) (drainChanClosed x) (doneClosed x) (connClosed x) (writerDone x)
    (finishCh x) (idle x) (lastRead x) (lastPingAt x) (pingStrikes x) (resetStrikes x) (kept x) (goAways x)
    (accepted x).
Definition set_tfc (v : TrInFlow.trInFlow) (x : http2Server) : http2Server :=
  mkServer (streams x) (state x) (active x) (maxStreamID x) (maxStreams x) (cb x) v (iws x)
    (maxSendHeaderListSize x) (drainChan x) (drainChanClosed x) (doneClosed x) (connClosed x) (writerDone x)
    (finishCh x) (idle x) (lastRead x) (lastPingAt x) (pingStrikes x) (resetStrikes x) (kept x) (goAways x)
    (accepted x).
Definition set_iws (v : Z) (x : http2Server) : http2Server :=
  mkServer (streams x) (state x) (active x) (maxStreamID x) (maxStreams x) (cb x) (tfc x) v
    (maxSendHeaderListSize x) (drainChan x) (drainChanClosed x) (doneClosed x) (connClosed x) (writerDone x)
    (finishCh x) (idle x) (lastRead x) (lastPingAt x) (pingStrikes x) (resetStrikes x) (kept x) (goAways x)
    (accepted x).
Definition set_maxSendHeaderListSize (v : option Z) (x : http2Server) : http2Server :=
  mkServer (streams x) (state x) (active x) (maxStreamID x) (maxStreams x) (cb x) (tfc x) (iws x) v
    (drainChan x) (drainChanClosed x) (doneClosed x) (connClosed x) (writerDone x) (finishCh x) (idle x)
    (lastRead x) (lastPingAt x) (pingStrikes x) (resetStrikes x) (kept x) (goAways x) (accepted x).
Definition set_drainChan (v : chan) (x : http2Server) : http2Server :=
  mkServer (streams x) (state x) (active x) (maxStreamID x) (maxStreams x) (cb x) (tfc x) (iws x)
    (maxSendHeaderListSize x) v (drainChanClosed x) (doneClosed x) (connClosed x) (writerDone x) (finishCh
    x) (idle x) (lastRead x) (lastPingAt x) (pingStrikes x) (resetStrikes x) (kept x) (goAways x) (accepted
    x).
Definition set_drainChanClosed (v : bool) (x : http2Server) : http2Server :=
  mkServer (streams x) (state x) (active x) (maxStreamID x) (maxStreams x) (cb x) (tfc x) (iws x)
    (maxSendHeaderListSize x) (drainChan x) v (doneClosed x) (connClosed x) (writerDone x) (finishCh x)
    (idle x) (lastRead x) (lastPingAt x) (pingStrikes x) (resetStrikes x) (kept x) (goAways x) (accepted x).
Definition set_doneClosed (v : bool) (x : http2Server) : http2Server :=
  mkServer (streams x) (state x) (active x) (maxStreamID x) (maxStreams x) (cb x) (tfc x) (iws x)
    (maxSendHeaderListSize x) (drainChan x) (drainChanClosed x) v (connClosed x) (writerDone x) (finishCh x)
    (idle x) (lastRead x) (lastPingAt x) (pingStrikes x) (resetStrikes x) (kept x) (goAways x) (accepted x).
Definition set_connClosed (v : bool) (x : http2Server) : http2Server :=
  mkServer (streams x) (state x) (active x) (maxStreamID x) (maxStreams x) (cb x) (tfc x) (iws x)
    (maxSendHeaderListSize x) (drainChan x) (drainChanClosed x) (doneClosed x) v (writerDone x) (finishCh x)
    (idle x) (lastRead x) (lastPingAt x) (pingStrikes x) (resetStrikes x) (kept x) (goAways x) (accepted x).
Definition set_writerDone (v : bool) (x : http2Server) : http2Server :=
  mkServer (streams x) (state x) (active x) (maxStreamID x) (maxStreams x) (cb x) (tfc x) (iws x)
    (maxSendHeaderListSize x) (drainChan x) (drainChanClosed x) (doneClosed x) (connClosed x) v (finishCh x)
    (idle x) (lastRead x) (lastPingAt x) (pingStrikes x) (resetStrikes x) (kept x) (goAways x) (accepted x).
Definition set_finishCh (v : bool) (x : http2Server) : http2Server :=
  mkServer (streams x) (state x) (active x) (maxStreamID x) (maxStreams x) (cb x) (tfc x) (iws x)
    (maxSendHeaderListSize x) (drainChan x) (drainChanClosed x) (doneClosed x) (connClosed x) (writerDone x)
    v (idle x) (lastRead x) (lastPingAt x) (pingStrikes x) (resetStrikes x) (kept x) (goAways x) (accepted
    x).
Definition set_idle (v : option Z) (x : http2Server) : http2Server :=
  mkServer (streams x) (state x) (active x) (maxStreamID x) (maxStreams x) (cb x) (tfc x) (iws x)
    (maxSendHeaderListSize x) (drainChan x) (drainChanClosed x) (doneClosed x) (connClosed x) (writerDone x)
    (finishCh x) v (lastRead x) (lastPingAt x) (pingStrikes x) (resetStrikes x) (kept x) (goAways x)
    (accepted x).
Definition set_lastRead (v : Z) (x : http2Server) : http2Server :=
  mkServer (streams x) (state x) (active x) (maxStreamID x) (maxStreams x) (cb x) (tfc x) (iws x)
    (maxSendHeaderListSize x) (drainChan x) (drainChanClosed x) (doneClosed x) (connClosed x) (writerDone x)
    (finishCh x) (idle x) v (lastPingAt x) (pingStrikes x) (resetStrikes x) (kept x) (goAways x) (accepted
    x).
Definition set_lastPingAt (v : option Z) (x : http2Server) : http2Server :=
  mkServer (streams x) (state x) (active x) (maxStreamID x) (maxStreams x) (cb x) (tfc x) (iws x)
    (maxSendHeaderListSize x) (drainChan x) (drainChanClosed x) (doneClosed x) (connClosed x) (writerDone x)
    (finishCh x) (idle x) (lastRead x) v (pingStrikes x) (resetStrikes x) (kept x) (goAways x) (accepted x).
Definition set_pingStrikes (v : Z) (x : http2Server) : http2Server :=
  mkServer (streams x) (state x) (active x) (maxStreamID x) (maxStreams x) (cb x) (tfc x) (iws x)
    (maxSendHeaderListSize x) (drainChan x) (drainChanClosed x) (doneClosed x) (connClosed x) (writerDone x)
    (finishCh x) (idle x) (lastRead x) (lastPingAt x) v (resetStrikes x) (kept x) (goAways x) (accepted x).
Definition set_resetStrikes (v : bool) (x : http2Server) : http2Server :=
  mkServer (streams x) (state x) (active x) (maxStreamID x) (maxStreams x) (cb x) (tfc x) (iws x)
    (maxSendHeaderListSize x) (drainChan x) (drainChanClosed x) (doneClosed x) (connClosed x) (writerDone x)
    (finishCh x) (idle x) (lastRead x) (lastPingAt x) (pingStrikes x) v (kept x) (goAways x) (accepted x).
Definition set_kept (v : list cleanupStream) (x : http2Server) : http2Server :=
  mkServer (streams x) (state x) (active x) (maxStreamID x) (maxStreams x) (cb x) (tfc x) (iws x)
    (maxSendHeaderListSize x) (drainChan x) (drainChanClosed x) (doneClosed x) (connClosed x) (writerDone x)
    (finishCh x) (idle x) (lastRead x) (lastPingAt x) (pingStrikes x) (resetStrikes x) v (goAways x)
    (accepted x).
Definition set_goAways (v : list (Z * bool)) (x : http2Server) : http2Server :=
  mkServer (streams x) (state x) (active x) (maxStreamID x) (maxStreams x) (cb x) (tfc x) (iws x)
    (maxSendHeaderListSize x) (drainChan x) (drainChanClosed x) (doneClosed x) (connClosed x) (writerDone x)
    (finishCh x) (idle x) (lastRead x) (lastPingAt x) (pingStrikes x) (resetStrikes x) (kept x) v (accepted
    x).
Definition set_accepted (v : list cbItem) (x : http2Server) : http2Server :=
  mkServer (streams x) (state x) (active x) (maxStreamID x) (maxStreams x) (cb x) (tfc x) (iws x)
    (maxSendHeaderListSize x) (drainChan x) (drainChanClosed x) (doneClosed x) (connClosed x) (writerDone x)
    (finishCh x) (idle x) (lastRead x) (lastPingAt x) (pingStrikes x) (resetStrikes x) (kept x) (goAways x)
    v.

Definition upd (s : nat) (f : stream -> stream) (t : http2Server) : http2Server :=
  set_streams (alter f s (streams t)) t.

Definition getStream (k : Z) (t : http2Server) : option nat := m ← active t; m !! k.

Definition actives (t : http2Server) : list nat :=
  match active t with Some m => snd <$> map_to_list m | None => [] end.

Definition num_active (t : http2Server) : Z := match active t with Some m => Z.of_nat (size m) | None => 0 end.

Definition write_msg (m : recvMsg) (x : stream) : stream := set_rbuf (recv_put m (rbuf x)) x.

(** executeAndPut with a closure over the transport. *)
Definition execute_put (f : http2Server -> bool * http2Server) (it : cbItem) (t : http2Server)
    : (bool * option error) * http2Server :=
  match ControlBuffer.err (cb t) with
  | Some e => ((false, Some e), t)
  | None =>
      let '(ok, t) := f t in
      let '(r, _, b) := ControlBuffer.executeAndPut (Some (fun _ => ok)) it (cb t) in
      (r, (if fst r then set_accepted (accepted t ++ [it]) else fun t => t) (set_cb b t))
  end.

Definition put_item (it : cbItem) (t : http2Server) : option error * http2Server :=
  let '((_, e), t) := execute_put (fun t => (true, t)) it t in (e, t).

(** * Control flow *)

(** The arguments of WriteStatus: code and message, the business status with its extras in
    JSON, and the encoded details. *)
Record statusArgs := mkStatusArgs {
  a_code : Z; a_msg : text; a_biz : option (Z * option text); a_details : option text }.

Inductive result := RNone | RErr (e : serr) | RIllegal | RMsg (m : recvMsg).

(** Where a goroutine is; [k] is what it does next. *)
Inductive pc :=
| Idle
| Finished (r : result)
| Panicked
| Put (it : cbItem) (k : pc)
(** closeStream *)
| CCancel (s : nat) (c : cause) (rst : bool) (code : Z) (k : pc)
| CSwap (s : nat) (rst : bool) (code : Z) (k : pc)
| CDelete (s : nat) (rst : bool) (code : Z) (k : pc)
(** finishStream *)
| FSwap (s : nat) (rst : bool) (hf : list (text * text))
| FCancel (s : nat) (rst : bool) (hf : list (text * text))
| FPut (s : nat) (rst : bool) (hf : list (text * text))
(** closeWithErr *)
| KClose (c : cause) (k : pc)
| KFinish (c : cause) (ss : list nat) (k : pc)
| KDone (c : cause) (ss : list nat) (k : pc)
| KConn (c : cause) (ss : list nat) (k : pc)
| KCancel (c : cause) (ss : list nat) (k : pc)
(** Close *)
| GClose
| GSwap (ss : list nat) (n : nat)
| GCancel (s : nat) (ss : list nat) (n : nat)
| GWait (n : nat)
| GFinish
| GDone
| GWriter
(** drain, and the goroutine between the two GOAWAY frames *)
| Drain (code : Z) (debug : list byte) (k : pc)
| DrainWait (g : goAway)
(** WriteHeader, Write, WriteStatus *)
| HSent (s : nat) (md : MD) (k : pc)
| HState (s : nat) (md : MD) (k : pc)
| HLocked (s : nat) (md : MD) (k : pc)
| WSent (s : nat) (h d : list byte)
| WState (s : nat) (h d : list byte)
| WQuota (s : nat) (h d : list byte)
| WPut (s : nat) (h d : list byte)
| SState (s : nat) (a : statusArgs)
| SSent (s : nat) (a : statusArgs)
| SHeader (s : nat) (a : statusArgs)
| SCheck (s : nat) (a : statusArgs) (only : bool)
| SRst (s : nat) (hf : list (text * text))
(** SetHeader, SetTrailer *)
| SetHeader1 (s : nat) (md : MD)
| SetHeader2 (s : nat) (md : MD)
| SetHeader3 (s : nat) (md : MD)
| SetTrailer1 (s : nat) (md : MD)
| SetTrailer2 (s : nat) (md : MD)
(** the reads of a stream *)
| AdjustWindow (s : nat) (n : Z)
| UpdateWindow (s : nat) (n : Z)
| Reading (s : nat)
| Load (s : nat) (m : recvMsg)
(** the reader *)
| OpHeaders (fh : FrameHeader) (trunc : bool) (fs : list (text * text))
| OpLock (id : Z) (ended : bool) (d : parsedHeaderData)
| Handle (s : nat)
| DConn (fh : FrameHeader) (d : list byte) (sendBDPPing : bool)
| DReset (fh : FrameHeader) (d : list byte)
| DStream (fh : FrameHeader) (d : list byte)
| DFlow (s : nat) (fh : FrameHeader) (d : list byte)
| DPad (s : nat) (fh : FrameHeader) (d : list byte)
| DBuf (s : nat) (fh : FrameHeader) (d : list byte)
| DEnd (s : nat) (fh : FrameHeader)
| DEOF (s : nat)
| RSTStream (id code : Z)
| Settings (p : list byte)
| PAck (calc : option Z)
| PStrikes (now : Z)
| PCount (now : Z)
| StreamErr (id code : Z)
| NewLimit (n : Z)
| NewConnLimit (n : Z)
(** keepalive *)
| KeepAlive (outstandingPing : bool) (kpTimeoutLeft prevNano : Z)
| KGrace
(** the writer *)
| WClean (c : cleanupStream)
| WSignal
| OGoAway (g : goAway)
| OWrite (g : goAway) (id : Z) (closeConn : bool)
| OHeadsUp (g : goAway).

(** The environment's part in a step. *)
Inductive choice :=
| Go
| TakeChan           (* a channel other than the next two *)
| TakeCtx            (* the stream's context *)
| TakeDone           (* the transport's done, or writerDone *)
| FireIdle           (* a timer *)
| FireAge
| Keep               (* the writer keeps the trailers behind data *)
| Drop               (* the writer does not know the stream *)
| WriterFails.

Definition put_if (w : Z) (streamID : Z) (k : pc) : pc :=
  if 0 <? w then Put (OutgoingWindowUpdate streamID w) k else k.

(** A cleanupStream item.  [onWrite]: the stream its closure deletes, -1 when it does
    nothing; [finish]: it tells Close that the frame is written. *)
Definition cleanup_item (id : Z) (rst : bool) (code onWrite : Z) (finish : bool) : cleanupStream :=
  mkCleanup id rst code onWrite (if finish then Some 0 else None).

Definition id_of (s : nat) (t : http2Server) : Z := match streams t !! s with Some x => sid x | None => 0 end.

(** ** Ending streams *)

Definition deleteStream (s : nat) (now : Z) (t : http2Server) : http2Server :=
  match active t with
  | Some m =>
      if decide (is_Some (m !! id_of s t)) then
        let m := delete (id_of s t) m in
        let t := set_active (Some m) t in
        if decide (m = ∅) then set_idle (Some now) t else t
      else t
  | None => t
  end.

Definition closeStream (y : pc) (now : Z) (t : http2Server) : option (http2Server * pc) :=
  match y with
  | CCancel s c rst code k =>
      x ← streams t !! s;
      Some (match CancelWithReason c x with
            | Some x => (upd s (fun _ => x) t, CSwap s rst code k)
            | None => (t, Panicked)
            end)
  | CSwap s rst code k => Some (upd s (set_st streamDone) t, CDelete s rst code k)
  | CDelete s rst code k =>
      Some (deleteStream s now t, Put (CleanupStream (cleanup_item (id_of s t) rst code (-1) false)) k)
  | _ => None
  end.

Definition trailing_item (s : nat) (rst : bool) (fields : list (text * text)) (t : http2Server) : cbItem :=
  let id := id_of s t in
  HeaderFrame (mkHeader id (to_string <$> fields) true None (Some (Z.of_nat s)) 0
                 (Some (cleanup_item id rst ErrCodeNo (Z.of_nat s) false)) None).

Definition finishStream (y : pc) (t : http2Server) : option (http2Server * pc) :=
  match y with
  | FSwap s rst fields =>
      x ← streams t !! s;
      Some (upd s (set_st streamDone) t,
            if decide (st x = streamDone) then Finished RNone else FCancel s rst fields)
  | FCancel s rst fields =>
      x ← streams t !! s;
      Some (match CancelWithReason errBizHandlerReturn x with
            | Some x => (upd s (fun _ => x) t, FPut s rst fields)
            | None => (t, Panicked)
            end)
  | FPut s rst fields => Some (snd (put_item (trailing_item s rst fields t) t), Finished RNone)
  | _ => None
  end.

(** ** Closing the transport *)

Definition finish_cb (e : error) (t : http2Server) : http2Server :=
  let '(_, _, b) := ControlBuffer.finish e (cb t) in set_cb b t.

Definition close_done (k : pc) (t : http2Server) : http2Server * pc :=
  if doneClosed t then (t, Panicked) else (set_doneClosed true t, k).

Definition closeWithErr (y : pc) (t : http2Server) : option (http2Server * pc) :=
  match y with
  | KClose c k =>
      if decide (state t = closing) then Some (t, k)
      else Some (set_active None (set_state closing t), KFinish c (actives t) k)
  | KFinish c ss k => Some (finish_cb (cause_err c) t, KDone c ss k)
  | KDone c ss k => Some (close_done (KConn c ss k) t)
  | KConn c ss k => Some (set_connClosed true t, KCancel c ss k)
  | KCancel c [] k => Some (t, k)
  | KCancel c (s :: ss) k =>
      x ← streams t !! s;
      Some (match CancelWithReason c x with
            | Some x => (upd s (fun _ => x) t, KCancel c ss k)
            | None => (t, Panicked)
            end)
  | _ => None
  end.

Definition Close (y : pc) (c : choice) (t : http2Server) : option (http2Server * pc) :=
  match y with
  | GClose =>
      if decide (state t = closing) then Some (t, Finished RNone)
      else Some (set_active None (set_state closing t), GSwap (actives t) 0)
  (* rstActiveStreams *)
  | GSwap (s :: ss) n =>
      x ← streams t !! s;
      Some (upd s (set_st streamDone) t, if decide (st x = streamDone) then GSwap ss n else GCancel s ss n)
  | GCancel s ss n =>
      x ← streams t !! s;
      Some (match CancelWithReason errGraceful x with
            | Some x => (upd s (fun _ => x) t,
                         Put (CleanupStream (cleanup_item (id_of s t) true gracefulShutdownCode (-1) true)) (GSwap ss (S n)))
            | None => (t, Panicked)
            end)
  | GSwap [] n => Some (t, match n with O => GFinish | _ => GWait n end)
  | GWait n =>
      match c with
      | TakeChan =>
          if finishCh t then Some (set_finishCh false t, match n with S (S n) => GWait (S n) | _ => GFinish end)
          else None
      | TakeDone => if writerDone t then Some (t, GFinish) else None
      | _ => None
      end
  (* closeLoopyWriter *)
  | GFinish => Some (finish_cb (cause_err errGraceful) t, GDone)
  | GDone => Some (close_done GWriter t)
  | GWriter => if writerDone t then Some (t, Finished RNone) else None
  | _ => None
  end.

Definition drain (code : Z) (debug : list byte) (k : pc) (t : http2Server) : http2Server * pc :=
  if decide (drainChan t <> NilChan) then (t, k) else (set_drainChan OpenChan t, Put (GoAway (mkGoAway code debug true false)) k).

(** ** Writing *)

Definition AppendMD (md other : MD) : MD :=
  union_with (fun v1 v2 => Some (v1 ++ v2)) md other.

Definition appendHeaderFieldsFromMD (md : MD) : list (text * text) := map_to_list md ≫= md_fields.

Definition checkForHeaderListSize (fields : list (text * text)) (t : http2Server) : bool :=
  match maxSendHeaderListSize t with None => true | Some m => header_list_fits 0 m fields end.

Section steps.
Context `{!HeaderLib}.
(** What FindCompressorName makes of a requested name (the registry is the user's). *)
Context (FindCompressorName : text -> text).

Definition response_fields (x : stream) : list (text * text) :=
  [(bs ":status", bs "200"); (bs "content-type", contentType (subtype_ x))]
  ++ match FindCompressorName (compress x) with [] => [] | c => [(bs "grpc-encoding", c)] end
  ++ appendHeaderFieldsFromMD (hdr x).

(** [k]: what follows when the headers are accepted. *)
Definition writeHeaderLocked (s : nat) (k : pc) (t : http2Server) : option (http2Server * pc) :=
  x ← streams t !! s;
  let fields := response_fields x in
  let it := HeaderFrame (mkHeader (sid x) (to_string <$> fields) false None (Some (Z.of_nat s)) 0 None None) in
  let '(r, t) := execute_put (fun t => (checkForHeaderListSize fields t, t)) it t in
  Some (t, match r with
           | (true, _) => k
           | (false, Some e) => Finished (RErr (ConnE e))
           | (false, None) => CCancel s errHeaderListSize true ErrCodeInternal (Finished (RErr errStatusHeaderListSize))
           end).

Definition WriteHeader (y : pc) (t : http2Server) : option (http2Server * pc) :=
  match y with
  | HSent s md k =>
      x ← streams t !! s;
      Some (upd s (set_sent true) t, if sent x then Finished RIllegal else HState s md k)
  | HState s md k =>
      x ← streams t !! s;
      Some (t, if decide (st x = streamDone) then Finished (RErr (ContextErr x)) else HLocked s md k)
  | HLocked s md k =>
      writeHeaderLocked s k (if decide (md = ∅) then t else upd s (fun x => set_hdr (AppendMD (hdr x) md) x) t)
  | _ => None
  end.

Definition status_fields (a : statusArgs) : list (text * text) :=
  [(bs "grpc-status", FormatInt (a_code a)); (bs "grpc-message", encodeGrpcMessage (a_msg a))]
  ++ match a_biz a with
     | Some (code, extra) =>
         (bs "biz-status", FormatInt code) :: match extra with Some json => [(bs "biz-extra", json)] | None => [] end
     | None => []
     end
  ++ match a_details a with Some b => [(bs "grpc-status-details-bin", encodeBinHeader b)] | None => [] end.

(** [only]: no headers have been sent. *)
Definition trailer_fields (only : bool) (a : statusArgs) (x : stream) : list (text * text) :=
  (if only then [(bs ":status", bs "200"); (bs "content-type", contentType (subtype_ x))] else [])
  ++ status_fields a ++ appendHeaderFieldsFromMD (trl x).

Definition WriteStatus (y : pc) (t : http2Server) : option (http2Server * pc) :=
  match y with
  | SState s a =>
      x ← streams t !! s;
      Some (t, if decide (st x = streamDone) then Finished RNone else SSent s a)
  | SSent s a =>
      x ← streams t !! s;
      Some (upd s (set_sent true) t, if sent x then SCheck s a false else SHeader s a)
  | SHeader s a =>
      x ← streams t !! s;
      if decide (hdr x = ∅) then Some (t, SCheck s a true) else writeHeaderLocked s (SCheck s a false) t
  | SCheck s a only =>
      x ← streams t !! s;
      let fields := trailer_fields only a x in
      Some (t, match ControlBuffer.execute (fun _ => checkForHeaderListSize fields t) (trailing_item s false fields t) (cb t) with
               | (true, _) => SRst s fields
               | (false, Some e) => Finished (RErr (ConnE e))
               | (false, None) => CCancel s errHeaderListSize true ErrCodeInternal (Finished (RErr errStatusHeaderListSize))
               end)
  | SRst s fields => x ← streams t !! s; Some (t, FSwap s (bool_decide (st x = streamActive)) fields)
  | _ => None
  end.

Definition Write (y : pc) (c : choice) (t : http2Server) : option (http2Server * pc) :=
  match y with
  | WSent s h d =>
      x ← streams t !! s;
      Some (t, if sent x then WState s h d else HSent s ∅ (WQuota s h d))
  | WState s h d =>
      x ← streams t !! s;
      Some (t, if decide (st x = streamDone) then Finished (RErr (ContextErr x)) else WQuota s h d)
  (* s.wq.get: quota may come at any time, or the context ends *)
  | WQuota s h d =>
      x ← streams t !! s;
      match c with
      | TakeCtx => _ ← ctx_err x; Some (t, Finished (RErr (ContextErr x)))
      | _ => Some (t, WPut s h d)
      end
  | WPut s h d =>
      let '(e, t) := put_item (ControlBuf.DataFrame (ControlBuf.mkData (id_of s t) false h d (Some 0))) t in
      Some (t, Finished (match e with Some e => RErr (ConnE e) | None => RNone end))
  | _ => None
  end.

Definition SetMD (y : pc) (t : http2Server) : option (http2Server * pc) :=
  match y with
  | SetHeader1 s md => x ← streams t !! s; Some (t, if sent x then Finished RIllegal else SetHeader2 s md)
  | SetHeader2 s md =>
      x ← streams t !! s; Some (t, if decide (st x = streamDone) then Finished RIllegal else SetHeader3 s md)
  | SetHeader3 s md => Some (upd s (fun x => set_hdr (AppendMD (hdr x) md) x) t, Finished RNone)
  | SetTrailer1 s md =>
      x ← streams t !! s; Some (t, if decide (st x = streamDone) then Finished RIllegal else SetTrailer2 s md)
  | SetTrailer2 s md => Some (upd s (fun x => set_trl (AppendMD (trl x) md) x) t, Finished RNone)
  | _ => None
  end.

Definition adjustWindow (s : nat) (n : Z) (t : http2Server) : option (http2Server * pc) :=
  x ← streams t !! s;
  let '(f, w) := InFlow.maybeAdjust n (fc x) in
  Some (upd s (set_fc f) t, put_if w (sid x) (Finished RNone)).

Definition updateWindow (s : nat) (n : Z) (t : http2Server) : option (http2Server * pc) :=
  x ← streams t !! s;
  let '(f, w) := InFlow.onRead n (fc x) in
  Some (upd s (set_fc f) t, put_if w (sid x) (Finished RNone)).

(** recvBufferReader.read, up to the message it hands to readAdditional. *)
Definition read (y : pc) (c : choice) (t : http2Server) : option (http2Server * pc) :=
  match y with
  | Reading s =>
      x ← streams t !! s;
      match c with
      | TakeCtx => _ ← ctx_err x; Some (t, Finished (RErr (ContextErr x)))
      | _ => '(m, b) ← recv_get (rbuf x); Some (upd s (set_rbuf b) t, Load s m)
      end
  | Load s m => Some (upd s (fun x => set_rbuf (recv_load (rbuf x)) x) t, Finished (RMsg m))
  | _ => None
  end.

(** ** The reader's handlers *)

Definition newStream (id : Z) (ended : bool) (d : parsedHeaderData) (t : http2Server) : stream :=
  mkStream id (if ended then streamReadDone else streamActive) false ∅ ∅ (subtype d) (acceptEncoding d)
    None None newRecvBuffer (InFlow.mkIn (u32 (iws t)) 0 0 0) false.

Definition operateHeaders (y : pc) (t : http2Server) : option (http2Server * pc) :=
  match y with
  | OpHeaders fh trunc fs =>
      Some (t, match decodeHeader true trunc fs data0 with
               | (_, Some e) =>
                   Put (CleanupStream (cleanup_item (StreamID fh) true (statusCodeConvTab (header_code e)) (-1) false)) Idle
               | (d, None) => OpLock (StreamID fh) (Has (Flags fh) FlagEndStream) d
               end)
  | OpLock id ended d =>
      if negb (bool_decide (state t = reachable)) then Some (t, Idle)
      else if maxStreams t <=? u32 (num_active t) then
        Some (t, Put (CleanupStream (cleanup_item id true ErrCodeRefusedStream (-1) false)) Idle)
      else if negb (id mod 2 =? 1) || (id <=? maxStreamID t) then Some (t, KClose errIllegalStreamID Idle)
      else
        match active t with
        | None => Some (t, Panicked)
        | Some m =>
            let s := length (streams t) in
            let m := <[id := s]> m in
            let t := set_active (Some m) (set_maxStreamID id (set_streams (streams t ++ [newStream id ended d t]) t)) in
            Some (if decide (size m = 1%nat) then set_idle None t else t, Put (RegisterStream id (Z.of_nat s)) (Handle s))
        end
  | Handle s => Some (upd s (set_handled true) t, Idle)
  | _ => None
  end.

Definition handleData (y : pc) (t : http2Server) : option (http2Server * pc) :=
  match y with
  | DConn fh d sendBDPPing =>
      let '(f, w) := TrInFlow.onData (Length fh) (tfc t) in
      Some (set_tfc f t, put_if w 0 (if sendBDPPing then DReset fh d else DStream fh d))
  | DReset fh d =>
      let '(f, w) := TrInFlow.reset (tfc t) in
      Some (set_tfc f t, put_if w 0 (Put bdpPing (DStream fh d)))
  | DStream fh d =>
      Some (t, match getStream (StreamID fh) t with
               | None => Idle
               | Some s => if 0 <? Length fh then DFlow s fh d else DEnd s fh
               end)
  | DFlow s fh d =>
      x ← streams t !! s;
      let '(f, ok) := InFlow.onData (Length fh) (fc x) in
      Some (upd s (set_fc f) t,
            if (ok : bool) then if Has (Flags fh) FlagPadded then DPad s fh d else DBuf s fh d
            else CCancel s errInflow true ErrCodeFlowControl Idle)
  | DPad s fh d =>
      x ← streams t !! s;
      let '(f, w) := InFlow.onRead (u32 (Length fh - lenZ d)) (fc x) in
      Some (upd s (set_fc f) t, put_if w (sid x) (DBuf s fh d))
  | DBuf s fh d => Some (match d with [] => t | _ => upd s (write_msg (MData d)) t end, DEnd s fh)
  | DEnd s fh =>
      Some (if Has (Flags fh) FlagEndStream
            then (upd s (fun x => if decide (st x = streamActive) then set_st streamReadDone x else x) t, DEOF s)
            else (t, Idle))
  | DEOF s => Some (upd s (write_msg (MErr EOF)) t, Idle)
  | _ => None
  end.

Definition handleRSTStream (id code : Z) (t : http2Server) : pc :=
  match getStream id t with
  | Some s => CCancel s (if code =? gracefulShutdownCode then errGraceful else errRSTReceived) false 0 Idle
  | None => Put (CleanupStream (cleanup_item id false 0 (-1) false)) Idle
  end.

Definition handleSettings (p : list byte) (t : http2Server) : http2Server :=
  let all := settings_of p in
  let ss := filter (fun q => fst q <> SettingMaxHeaderListSize) all in
  let updates t := match last_setting SettingMaxHeaderListSize all with
                   | Some m => set_maxSendHeaderListSize (Some m) t | None => t end in
  snd (execute_put (fun t => (true, updates t)) (IncomingSettings ss) t).

Definition goAwayPing : list byte := Zbyte <$> [1; 6; 1; 8; 0; 3; 3; 9].
Definition maxPingStrikes : Z := 2.
Definition defaultPingTimeout : Z := 2 * Hour.

(** The enforcement policy: the shortest time between two pings. *)
Context (MinTime : Z) (PermitWithoutStream : bool).

Definition too_early (last : option Z) (d now : Z) : bool :=
  match last with Some l => now <? l + d | None => false end.

(** [calc]: the new window the estimator computes from the ping, if any. *)
Definition handlePing (fh : FrameHeader) (data : list byte) (calc : option Z) (now : Z) : pc :=
  if Has (Flags fh) FlagAck then
    if text_eqb data goAwayPing then PAck calc else match calc with Some n => NewLimit n | None => Idle end
  else Put (Ping true data) (PStrikes now).

Definition ping_step (y : pc) (t : http2Server) : option (http2Server * pc) :=
  match y with
  | PAck calc =>
      let k := match calc with Some n => NewLimit n | None => Idle end in
      Some (if drainChanClosed t then (t, k)
            else match close_chan (drainChan t) with
                 | Some ch => (set_drainChanClosed true (set_drainChan ch t), k)
                 | None => (t, Panicked)
                 end)
  | PStrikes now =>
      Some (if resetStrikes t
            then (set_lastPingAt (Some now) (set_pingStrikes 0 (set_resetStrikes false t)), Idle)
            else (t, PCount now))
  | PCount now =>
      let d := if (num_active t <? 1) && negb PermitWithoutStream then defaultPingTimeout else MinTime in
      let strikes := if too_early (lastPingAt t) d now then u8 (pingStrikes t + 1) else pingStrikes t in
      let t := set_lastPingAt (Some now) (set_pingStrikes strikes t) in
      Some (t, if maxPingStrikes <? strikes
               then Put (GoAway (mkGoAway ErrCodeEnhanceYourCalm (bs "too_many_pings") false true)) Idle else Idle)
  | _ => None
  end.

Definition updateFlowControl (y : pc) (t : http2Server) : option (http2Server * pc) :=
  match y with
  | NewLimit n =>
      Some (set_iws (i32 n) (foldr (fun s => upd s (fun x => set_fc (InFlow.newLimit n (fc x)) x)) t (actives t)), NewConnLimit n)
  | NewConnLimit n =>
      let '(f, w) := TrInFlow.newLimit n (tfc t) in
      Some (set_tfc f t, Put (OutgoingWindowUpdate 0 w) (Put (OutgoingSettings [(SettingInitialWindowSize, n)]) Idle))
  | _ => None
  end.

(** A malformed frame of one stream. *)
Definition stream_error (id code : Z) (t : http2Server) : pc :=
  match getStream id t with
  | Some s => CCancel s errStreamError true code Idle
  | None => Put (CleanupStream (cleanup_item id true code (-1) false)) Idle
  end.

(** What the reader gets from the framer. *)
Inductive input :=
| IFrame (f : Frame)
| IMeta (fh : FrameHeader) (trunc : bool) (fs : list (text * text))
| IStreamErr (id code : Z)
| IEOF
| IReadErr.

(** One turn of HandleStreams. *)
Definition HandleStreams (i : input) (bdp : bool) (calc : option Z) (now : Z) : pc :=
  match i with
  | IMeta fh trunc fs => OpHeaders fh trunc fs
  | IFrame (Frames.DataFrame fh d) => DConn fh d bdp
  | IFrame (RSTStreamFrame fh code) => RSTStream (StreamID fh) code
  | IFrame (SettingsFrame fh p) => if Has (Flags fh) FlagAck then Idle else Settings p
  | IFrame (PingFrame fh d) => handlePing fh d calc now
  | IFrame (WindowUpdateFrame fh incr) => Put (IncomingWindowUpdate (StreamID fh) incr) Idle
  | IFrame _ => Idle
  | IStreamErr id code => StreamErr id code
  | IEOF => KClose errConnectionEOF (Finished RNone)
  | IReadErr => KClose errReadFrame (Finished RNone)
  end.

(** ** keepalive *)

Record keepaliveParams := mkKp { MaxConnectionIdle : Z; Time_ : Z; Timeout_ : Z }.
Context (kp : keepaliveParams).

(** The select: a timer fires at [now], or the transport is done. *)
Definition keepalive (y : pc) (c : choice) (now : Z) (t : http2Server) : option (http2Server * pc) :=
  match y with
  | KeepAlive outstandingPing kpTimeoutLeft prevNano =>
      match c with
      | FireIdle =>
          Some (t, match idle t with
                   | Some i =>
                       if MaxConnectionIdle kp - (now - i) <=? 0 then Drain ErrCodeNo (bs "idleTimeout") (Finished RNone)
                       else KeepAlive outstandingPing kpTimeoutLeft prevNano
                   | None => KeepAlive outstandingPing kpTimeoutLeft prevNano
                   end)
      | FireAge => Some (t, Drain ErrCodeNo (bs "ageTimeout") KGrace)
      | TakeChan =>
          Some (t,
            if prevNano <? lastRead t then KeepAlive false kpTimeoutLeft (lastRead t)
            else if outstandingPing && (kpTimeoutLeft <=? 0) then KClose errIdleClosing (Finished RNone)
            else
              let left := if outstandingPing then kpTimeoutLeft else Timeout_ kp in
              let next := KeepAlive true (left - Z.min (Time_ kp) left) prevNano in
              if outstandingPing then next else Put (Ping false (replicate 8 Byte.x00)) next)
      | TakeDone => if doneClosed t then Some (t, Finished RNone) else None
      | _ => None
      end
  | KGrace =>
      match c with
      | FireAge => Some (t, KClose errMaxAgeClosing (Finished RNone))
      | TakeDone => if doneClosed t then Some (t, Finished RNone) else None
      | _ => None
      end
  | _ => None
  end.

(** ** The writer *)

(** The writer ends; its goroutine closes the connection and writerDone. *)
Definition writer_ends (t : http2Server) : http2Server * pc :=
  (set_writerDone true (set_connClosed true t), Finished RNone).

(** Written headers reset the ping strikes; trailers end the stream, unless they have to
    wait behind data. *)
Definition write_header (h : headerFrame) (c : choice) (t : http2Server) : http2Server * pc :=
  match c with
  | Drop => (t, Idle)
  | Keep => (match cleanup h with Some cl => set_kept (kept t ++ [cl]) t | None => t end, Idle)
  | _ => (set_resetStrikes true t, match cleanup h with Some cl => WClean cl | None => Idle end)
  end.

(** The writer between two items. *)
Definition writer_next (c : choice) (t : http2Server) : option (http2Server * pc) :=
  match c with
  | WriterFails => Some (writer_ends t)
  | TakeDone => if doneClosed t then Some (writer_ends (finish_cb ErrConnClosing t)) else None
  | _ =>
      '(g, b) ← ControlBuffer.get_iter true (cb t);
      let t := set_cb b t in
      Some (match g with
            | ControlBuffer.GItem (HeaderFrame h) => write_header h c t
            | ControlBuffer.GItem (CleanupStream cl) => (t, WClean cl)
            | ControlBuffer.GItem (GoAway g) => (t, OGoAway g)
            | ControlBuffer.GErr _ => writer_ends t
            | _ => (t, Idle)
            end)
  end.

(** Trailers kept behind data are written. *)
Definition write_kept (i : nat) (t : http2Server) : option (http2Server * pc) :=
  cl ← kept t !! i;
  Some (set_resetStrikes true (set_kept (delete i (kept t)) t), WClean cl).

(** The closures of a cleanupStream. *)
Definition cleanup_closures (y : pc) (now : Z) (t : http2Server) : option (http2Server * pc) :=
  match y with
  | WClean cl =>
      Some (if 0 <=? cs_onWrite cl then deleteStream (Z.to_nat (cs_onWrite cl)) now t else t,
            match onFinishWrite cl with Some _ => WSignal | None => Idle end)
  | WSignal => if finishCh t then None else Some (set_finishCh true t, Idle)
  | _ => None
  end.

Definition outgoingGoAwayHandler (y : pc) (c : choice) (t : http2Server) : option (http2Server * pc) :=
  match y with
  | OGoAway g =>
      if decide (state t = closing) then Some (writer_ends t)
      else if headsUp g then Some (t, OHeadsUp g)
      else Some (set_state draining t, OWrite g (maxStreamID t) (closeConn g || (num_active t =? 0)))
  | OWrite g id cl =>
      match c with
      | WriterFails => Some (writer_ends t)
      | _ => let t := set_goAways (goAways t ++ [(id, false)]) t in Some (if (cl : bool) then writer_ends t else (t, Idle))
      end
  | OHeadsUp g =>
      match c with
      | WriterFails => Some (writer_ends t)
      | _ => Some (set_goAways (goAways t ++ [(2 ^ 31 - 1, true)]) t, Idle)
      end
  | DrainWait g =>
      match c with
      | TakeDone => if doneClosed t then Some (t, Finished RNone) else None
      | TakeChan => if decide (drainChan t = ClosedChan) then Some (t, Put (GoAway (mkGoAway (ga_code g) (debugData g) false false)) (Finished RNone)) else None
      | _ => Some (t, Put (GoAway (mkGoAway (ga_code g) (debugData g) false false)) (Finished RNone))
      end
  | _ => None
  end.

(** The goroutine the first GOAWAY starts. *)
Definition spawned (y : pc) (c : choice) : list pc :=
  match y, c with OHeadsUp _, WriterFails => [] | OHeadsUp g, _ => [DrainWait g] | _, _ => [] end.

(** ** One step of a goroutine *)

Definition exec (c : choice) (now : Z) (t : http2Server) (x : pc) : option (http2Server * pc) :=
  match x with
  | Idle | Finished _ | Panicked => None
  | Put it k => Some (snd (put_item it t), k)
  | CCancel _ _ _ _ _ | CSwap _ _ _ _ | CDelete _ _ _ _ => closeStream x now t
  | FSwap _ _ _ | FCancel _ _ _ | FPut _ _ _ => finishStream x t
  | KClose _ _ | KFinish _ _ _ | KDone _ _ _ | KConn _ _ _ | KCancel _ _ _ => closeWithErr x t
  | GClose | GSwap _ _ | GCancel _ _ _ | GWait _ | GFinish | GDone | GWriter => Close x c t
  | Drain code debug k => Some (drain code debug k t)
  | HSent _ _ _ | HState _ _ _ | HLocked _ _ _ => WriteHeader x t
  | WSent _ _ _ | WState _ _ _ | WQuota _ _ _ | WPut _ _ _ => Write x c t
  | SState _ _ | SSent _ _ | SHeader _ _ | SCheck _ _ _ | SRst _ _ => WriteStatus x t
  | SetHeader1 _ _ | SetHeader2 _ _ | SetHeader3 _ _ | SetTrailer1 _ _ | SetTrailer2 _ _ => SetMD x t
  | AdjustWindow s n => adjustWindow s n t
  | UpdateWindow s n => updateWindow s n t
  | Reading _ | Load _ _ => read x c t
  | OpHeaders _ _ _ | OpLock _ _ _ | Handle _ => operateHeaders x t
  | DConn _ _ _ | DReset _ _ | DStream _ _ | DFlow _ _ _ | DPad _ _ _ | DBuf _ _ _ | DEnd _ _ | DEOF _ => handleData x t
  | RSTStream id code => Some (t, handleRSTStream id code t)
  | Settings p => Some (handleSettings p t, Idle)
  | PAck _ | PStrikes _ | PCount _ => ping_step x t
  | StreamErr id code => Some (t, stream_error id code t)
  | NewLimit _ | NewConnLimit _ => updateFlowControl x t
  | KeepAlive _ _ _ | KGrace => keepalive x c now t
  | WClean _ | WSignal => cleanup_closures x now t
  | OGoAway _ | OWrite _ _ _ | OHeadsUp _ | DrainWait _ => outgoingGoAwayHandler x c t
  end.

(** * The system *)

(** Goroutine 0 is the reader, 1 the writer; the sender of a stream is marked with it. *)
Record sys := mkSys { tr : http2Server; threads : list (option nat * pc) }.

Inductive op :=
| OWriteHeader (md : MD)
| OWriteData (h d : list byte)
| OWriteStatus (a : statusArgs)
| OSetHeader (md : MD)
| OSetTrailer (md : MD).

(** SetHeader and SetTrailer do nothing with empty metadata. *)
Definition send_op (s : nat) (o : op) : pc :=
  match o with
  | OWriteHeader md => HSent s md (Finished RNone)
  | OWriteData h d => WSent s h d
  | OWriteStatus a => SState s a
  | OSetHeader md => if decide (md = ∅) then Finished RNone else SetHeader1 s md
  | OSetTrailer md => if decide (md = ∅) then Finished RNone else SetTrailer1 s md
  end.

(** The other operations on a transport. *)
Inductive other :=
| ORead (s : nat)
| OAdjust (s : nat) (n : Z)
| OUpdate (s : nat) (n : Z)
| OClose
| ODrain.

Definition start_other (o : other) : pc :=
  match o with
  | ORead s => Reading s
  | OAdjust s n => AdjustWindow s n
  | OUpdate s n => UpdateWindow s n
  | OClose => GClose
  | ODrain => Drain ErrCodeNo gracefulShutdownMsg (Finished RNone)
  end.

Definition finished (x : pc) : bool := match x with Finished _ | Panicked => true | _ => false end.

(** No send of stream [s] is under way. *)
Definition sender_free (s : nat) (xs : list (option nat * pc)) : bool :=
  forallb (fun x : option nat * pc => negb (bool_decide (fst x = Some s)) || finished (snd x)) xs.

Inductive label :=
| LSend (s : nat) (o : op)
| LStart (o : other)
| LRun (i : nat) (c : choice) (now : Z)
| LRecv (i : input) (bdp : bool) (calc : option Z) (now : Z)
| LWriter (c : choice)
| LTrailers (i : nat)
| LData
| LCtx (s : nat) (e : ctxErr).

Definition lstep (l : label) (y : sys) : option sys :=
  let t := tr y in
  match l with
  | LSend s o =>
      x ← streams t !! s;
      if handled x && sender_free s (threads y) then Some (mkSys t (threads y ++ [(Some s, send_op s o)])) else None
  | LStart o => Some (mkSys t (threads y ++ [(None, start_other o)]))
  | LRun i c now =>
      '(o, x) ← threads y !! i;
      '(t', x') ← exec c now t x;
      Some (mkSys t' (<[i := (o, x')]> (threads y) ++ (pair None <$> spawned x c)))
  | LRecv i bdp calc now =>
      '(_, x) ← threads y !! 0%nat;
      match x with
      | Idle => Some (mkSys (set_lastRead now t) (<[0%nat := (None, HandleStreams i bdp calc now)]> (threads y)))
      | _ => None
      end
  | LWriter c =>
      '(_, x) ← threads y !! 1%nat;
      match x with
      | Idle => '(t', x') ← writer_next c t; Some (mkSys t' (<[1%nat := (None, x')]> (threads y)))
      | _ => None
      end
  | LTrailers i =>
      '(_, x) ← threads y !! 1%nat;
      match x with
      | Idle => '(t', x') ← write_kept i t; Some (mkSys t' (<[1%nat := (None, x')]> (threads y)))
      | _ => None
      end
  | LData =>
      '(_, x) ← threads y !! 1%nat;
      match x with Idle => Some (mkSys (set_resetStrikes true t) (threads y)) | _ => None end
  | LCtx s e => Some (mkSys (upd s (set_ctxErr_ (Some e)) t) (threads y))
  end.

Fixpoint lrun (ls : list label) (y : sys) : option sys :=
  match ls with [] => Some y | l :: ls => y ← lstep l y; lrun ls y end.

(** ** The start *)

Definition SettingMaxFrameSize : Z := 5.

Record ServerConfig := mkConfig {
  MaxStreams : Z; InitialWindowSize : Z; InitialConnWindowSize : Z; MaxHeaderListSize : option Z }.

(** The settings written, the window update of the connection, and the transport. *)
Definition newHTTP2Server (config : ServerConfig) (now : Z) : list (Z * Z) * option Z * http2Server :=
  let maxStreams := if MaxStreams config =? 0 then 2 ^ 32 - 1 else MaxStreams config in
  let iwz := if defaultWindowSize <=? InitialWindowSize config then InitialWindowSize config else defaultWindowSize in
  let icwz := if defaultWindowSize <=? InitialConnWindowSize config then InitialConnWindowSize config else defaultWindowSize in
  let isettings :=
    [(SettingMaxFrameSize, http2MaxFrameLen)]
    ++ (if MaxStreams config =? 0 then [] else [(SettingMaxConcurrentStreams, maxStreams)])
    ++ (if defaultWindowSize <=? InitialWindowSize config then [(SettingInitialWindowSize, iwz)] else [])
    ++ match MaxHeaderListSize config with Some m => [(SettingMaxHeaderListSize, m)] | None => [] end in
  (isettings, if defaultWindowSize <? icwz then Some (icwz - defaultWindowSize) else None,
   mkServer [] reachable (Some ∅) 0 (2 ^ 32 - 1) ControlBuffer.newControlBuffer (TrInFlow.mkTr icwz 0 0) (i32 iwz)
     None NilChan false false false false false (Some now) now None 0 false [] [] []).

(** The handshake: the preface, then a SETTINGS frame. *)
Definition crlf : list byte := [Byte.x0d; Byte.x0a].
Definition ClientPreface : list byte := bs "PRI * HTTP/2.0" ++ crlf ++ crlf ++ bs "SM" ++ crlf ++ crlf.

Definition handshake (preface : list byte) (first : input) (t : http2Server) : option http2Server :=
  if text_eqb preface ClientPreface then
    match first with
    | IFrame (SettingsFrame fh p) => Some (if Has (Flags fh) FlagAck then t else handleSettings p t)
    | _ => None
    end
  else None.

Definition init (t : http2Server) (now : Z) : sys := mkSys t [(None, Idle); (None, Idle); (None, KeepAlive false 0 now)].

(** A connection after its handshake. *)
Definition serve (config : ServerConfig) (preface : list byte) (first : input) (now : Z) : option sys :=
  t ← handshake preface first (snd (newHTTP2Server config now)); Some (init t now).

End steps.
