(* ===== verification/ServerClose.v ===== *)
(** A closed server transport has cancelled every stream it accepted (ServerTransport.v). *)

From stdpp Require Import sorting.
From S2P Require Import Prelude GoText Loopy FlowControl HttpUtil Headers Frames ControlBuf ClientTransport ServerTransport ServerSpec.

#[local] Set Default Goal Selector "!".

Section spec.
Context {HL : HeaderLib}.
Context (FindCompressorName : text -> text) (MinTime : Z) (PermitWithoutStream : bool) (kp : keepaliveParams).

#[local] Abbreviation exec := (exec FindCompressorName MinTime PermitWithoutStream kp).
#[local] Abbreviation lstep := (lstep FindCompressorName MinTime PermitWithoutStream kp).
#[local] Abbreviation reach := (reach FindCompressorName MinTime PermitWithoutStream kp).

(** * Closing cancels every stream *)

(** The streams a goroutine still has to cancel. *)
Fixpoint pend (x : pc) : list nat :=
  match x with
  | KFinish _ ss k | KDone _ ss k | KConn _ ss k | KCancel _ ss k => ss ++ pend k
  | GSwap ss _ => ss
  | GCancel s ss _ => s :: ss
  | FCancel s _ _ => [s]
  | Put _ k | CCancel _ _ _ _ k | CSwap _ _ _ k | CDelete _ _ _ k | KClose _ k | Drain _ _ k => pend k
  | _ => []
  end.

(** Those it has marked as done. *)
Fixpoint half (x : pc) : list nat :=
  match x with
  | FCancel s _ _ | GCancel s _ _ => [s]
  | Put _ k | CCancel _ _ _ _ k | CSwap _ _ _ k | CDelete _ _ _ k | KClose _ k | Drain _ _ k | KFinish _ _ k | KDone _ _ k
  | KConn _ _ k | KCancel _ _ k => half k
  | _ => []
  end.

Lemma half_pend x s : s ∈ half x -> s ∈ pend x.
Proof. induction x; cbn [half pend]; rewrite ?elem_of_app; set_solver. Qed.

Definition cancelled (t : http2Server) (s : nat) : Prop := exists x, streams t !! s = Some x /\ reason x <> None.

Definition in_active (t : http2Server) (s : nat) : Prop := exists m k, active t = Some m /\ m !! k = Some s.

Definition cleanup_ok (t : http2Server) (cl : cleanupStream) : Prop := 0 <= cs_onWrite cl -> cancelled t (Z.to_nat (cs_onWrite cl)).

Definition item_ok (t : http2Server) (it : cbItem) : Prop :=
  match it with
  | CleanupStream cl => cleanup_ok t cl
  | HeaderFrame h => match cleanup h with Some cl => cleanup_ok t cl | None => True end
  | _ => True
  end.

Definition cancel_pc (t : http2Server) (x : pc) : Prop :=
  match x with
  | CSwap s _ _ _ | CDelete s _ _ _ | FPut s _ _ => cancelled t s
  | CCancel s _ _ _ _ | HSent s _ _ | HState s _ _ | HLocked s _ _ | SHeader s _ | SCheck s _ _ | SSent s _ | SState s _ | SRst s _
  | FSwap s _ _ | FCancel s _ _ | WSent s _ _ | DFlow s _ _ => is_Some (streams t !! s)
  | KFinish _ ss _ | KDone _ ss _ | KConn _ ss _ | KCancel _ ss _ | GSwap ss _ => Forall (fun s => is_Some (streams t !! s)) ss
  | GCancel s ss _ => Forall (fun s => is_Some (streams t !! s)) (s :: ss)
  | Put it _ => item_ok t it
  | WClean cl => cleanup_ok t cl
  | _ => True
  end.

Definition mono (t t' : http2Server) : Prop :=
  (forall s, is_Some (streams t !! s) -> is_Some (streams t' !! s)) /\ (forall s, cancelled t s -> cancelled t' s).

Lemma mono_item t t' it : mono t t' -> item_ok t it -> item_ok t' it.
Proof. intros [_ Hc]. unfold item_ok, cleanup_ok. destruct it; auto. destruct (cleanup h); auto. Qed.

Lemma mono_pc t t' x : mono t t' -> all_pc (cancel_pc t) x -> all_pc (cancel_pc t') x.
Proof.
  intros Hm. pose proof Hm as [Hs Hc]. apply all_pc_impl. intros []; cbn [cancel_pc]; auto.
  all: try (intros Hf; eapply Forall_impl; [exact Hf|]; auto).
  - by apply mono_item.
  - unfold cleanup_ok. auto.
Qed.

Lemma exec_mono c now t x t' x' : exec c now t x = Some (t', x') -> mono t t'.
Proof.
  intros E. pose proof (exec_rel _ _ _ _ _ _ E) as R. split.
  - intros s [y Hy]. destruct (R s y Hy) as (y' & -> & _). by eexists.
  - intros s (y & Hy & Hr). destruct (R s y Hy) as (y' & Hy' & Hs). exists y'. split; [done|].
    destruct (sr_reason _ _ _ _ Hs) as [->|(? & ? & -> & _)]; done.
Qed.

Lemma actives_valid t : core_ok (core_of t) -> Forall (fun s => is_Some (streams t !! s)) (actives t).
Proof.
  intros Hok. unfold actives. destruct (active t) as [m|] eqn:Em; [|constructor]. apply Forall_fmap, Forall_forall.
  intros [k s] Hk%elem_of_map_to_list. pose proof (ok_active _ Hok m k s Em Hk) as Hs. cbn [core_of c_ids] in Hs.
  rewrite list_lookup_fmap in Hs. cbn. by destruct (streams t !! s).
Qed.

Lemma getStream_valid k s t : core_ok (core_of t) -> getStream k t = Some s -> is_Some (streams t !! s).
Proof.
  intros Hok E. unfold getStream in E. destruct (active t) as [m|] eqn:Em; [|done]. cbn [mbind option_bind] in E.
  pose proof (ok_active _ Hok m k s Em E) as Hs. cbn [core_of c_ids] in Hs. rewrite list_lookup_fmap in Hs. by destruct (streams t !! s).
Qed.

Lemma cancel_done t s c y y' :
  streams t !! s = Some y -> CancelWithReason c y = Some y' -> cancelled (upd s (fun _ => y') t) s.
Proof.
  intros Hs E. exists y'. cbn [upd streams set_streams]. rewrite list_lookup_alter_eq, Hs. split; [done|].
  unfold CancelWithReason in E. destruct (reason y) eqn:Er; [destruct (same_type _ _); [|done]|]; injection E as <-; by rewrite ?Er.
Qed.

Lemma no_cleanup t id rst code b : cleanup_ok t (cleanup_item id rst code (-1) b).
Proof. by intros ?. Qed.

Lemma header_pc s k t t' x' :
  writeHeaderLocked FindCompressorName s k t = Some (t', x') ->
  x' = k \/ (exists r, x' = Finished r) \/
  x' = CCancel s errHeaderListSize true ErrCodeInternal (Finished (RErr errStatusHeaderListSize)).
Proof.
  unfold writeHeaderLocked. destruct (streams t !! s); [|done]. cbn [mbind option_bind].
  destruct (execute_put _ _ t) as [[[] []] t1]; intros [= _ <-]; eauto.
Qed.

Lemma exec_cancel_pc c now t x t' x' :
  core_ok (core_of t) -> exec c now t x = Some (t', x') -> all_pc (cancel_pc t) x -> all_pc (cancel_pc t') x'.
Proof.
  intros Hok E Hx. pose proof (mono_pc _ _ _ (exec_mono _ _ _ _ _ _ E) Hx) as Hm.
  pose proof (actives_valid t Hok) as Hact. pose proof (fun k s => getStream_valid k s t Hok) as Hget.
  destruct x; open_exec E.
  all: cbn [all_pc cancel_pc item_ok] in *; try (by intuition).
  all: try (split; [|by intuition]; try (by apply no_cleanup); try (by eapply cancel_done); try (by eapply Hget)).
  all: try (destruct Hm as [Hm _]; apply Forall_cons in Hm as [_ Hm]; exact Hm).
  all: try (destruct Hm as [Hm _]; apply Forall_cons in Hm as [_ Hm]; split; [apply no_cleanup|done]).
  all: try match goal with Ep : writeHeaderLocked _ _ _ _ = Some _ |- _ => apply header_pc in Ep as [->|[[r ->]| ->]]; cbn [all_pc cancel_pc] in *; by intuition end.
Qed.

Lemma exec_half c now t x t' x' s :
  exec c now t x = Some (t', x') -> x' <> Panicked -> s ∈ half x -> s ∈ half x' \/ cancelled t' s.
Proof.
  intros E Hp Hs. destruct x; cbn [half] in Hs; try (by apply not_elem_of_nil in Hs); open_exec E; try (by left); try done.
  all: try (apply list_elem_of_singleton in Hs as ->; right; by eapply cancel_done).
Qed.

Lemma exec_pend c now t x t' x' s :
  exec c now t x = Some (t', x') -> x' <> Panicked -> s ∈ pend x ->
  s ∈ pend x' \/ cancelled t' s \/ (exists ss n y, x = GSwap (s :: ss) n /\ streams t !! s = Some y /\ st y = streamDone).
Proof.
  intros E Hp Hs. destruct x; cbn [pend] in Hs; try (by apply not_elem_of_nil in Hs); open_exec E; try (by left); try done.
  all: try (apply list_elem_of_singleton in Hs as ->; right; left; by eapply cancel_done).
  all: try (left; cbn [pend]; set_solver).
  all: cbn [pend app] in *; try (apply elem_of_cons in Hs as [->|Hs]).
  all: try (by left); try (by right; left; eapply cancel_done).
  right. right. eauto 10.
Qed.

Lemma exec_ended c now t x t' x' s :
  exec c now t x = Some (t', x') -> all_pc (cancel_pc t) x -> ends x s ->
  (forall y, streams t !! s = Some y -> st y <> streamDone) -> s ∈ half x' \/ cancelled t' s.
Proof.
  intros E Hx He Hd. pose proof (exec_mono _ _ _ _ _ _ E) as [_ Hm]. destruct x; try done; cbn [ends] in He; subst.
  - right. apply Hm. by apply all_pc_here in Hx.
  - open_exec E; [by destruct (Hd _ eq_refl)|]. left. cbn. set_solver.
  - destruct ss as [|s' ss]; [done|]. subst. open_exec E; [by destruct (Hd _ eq_refl)|]. left. cbn. set_solver.
Qed.

Lemma sorted_NoDup (l : list Z) : StronglySorted Z.lt l -> NoDup l.
Proof.
  induction 1 as [|k l _ IH Hk]; constructor; [|done]. intros Hin. rewrite Forall_forall in Hk. specialize (Hk _ Hin). lia.
Qed.

Lemma active_delete t s s' now :
  core_ok (core_of t) -> is_Some (streams t !! s') -> in_active t s -> s <> s' -> in_active (deleteStream s' now t) s.
Proof.
  intros Hok [y Hy] (m & k & Em & Hk) Hne. unfold deleteStream. rewrite Em.
  pose proof (ok_active _ Hok m k s Em Hk) as Hid. cbn [core_of c_ids] in Hid. rewrite list_lookup_fmap in Hid.
  destruct (decide (is_Some (m !! id_of s' t))); [|by exists m, k].
  assert (in_active (set_active (Some (delete (id_of s' t) m)) t) s).
  { exists (delete (id_of s' t) m), k. split; [done|]. rewrite lookup_delete_ne; [done|]. unfold id_of. rewrite Hy. intros Ek.
    destruct (streams t !! s) as [ys|] eqn:Hs; [|done]. injection Hid as Hid. apply Hne.
    pose proof (ok_sorted _ Hok) as Hsort. cbn [core_of c_ids] in Hsort.
    assert (NoDup (sid <$> streams t)) as Hnd by (by apply sorted_NoDup).
    eapply NoDup_lookup; [exact Hnd| |]; rewrite list_lookup_fmap; [rewrite Hs|rewrite Hy]; cbn; [done|congruence]. }
  by case_decide.
Qed.

Lemma active_id t m k s id : core_ok (core_of t) -> active t = Some m -> m !! k = Some s -> maxStreamID t < id -> id <> k.
Proof.
  intros Hok Em Hk Hid ->. pose proof (ok_active _ Hok m k s Em Hk) as Hi. pose proof (ok_ids _ Hok) as Hb.
  eapply Forall_lookup_1 in Hb as [_ Hb]; [|exact Hi]. cbn [core_of c_max] in Hb. lia.
Qed.

Lemma exec_active c now t x t' x' s :
  core_ok (core_of t) -> all_pc (cancel_pc t) x -> exec c now t x = Some (t', x') -> in_active t s ->
  in_active t' s \/ cancelled t' s \/ s ∈ pend x'.
Proof.
  intros Hok Hx E Ha. destruct (special x) eqn:Hsp.
  2: { left. pose proof (exec_core _ _ _ _ _ _ E Hsp) as C. unfold in_active in *.
       change (active t') with (c_active (core_of t')). by rewrite C. }
  pose proof (exec_mono _ _ _ _ _ _ E) as [_ Hm]. apply all_pc_here in Hx.
  assert (Hact : s ∈ actives t).
  { destruct Ha as (m & k & Em & Hk). unfold actives. rewrite Em. apply list_elem_of_fmap. exists (k, s). split; [done|]. by apply elem_of_map_to_list. }
  destruct x; try discriminate Hsp.
  - cbn in E. injection E as <- <-. destruct (decide (s = s0)) as [->|Hne]; [right; left; by apply Hm|]. left.
    destruct Hx as (y & Hy & _). by apply active_delete; [|eexists|..].
  - open_exec E; [by left|]. right. right. cbn [pend]. set_solver.
  - open_exec E; by left.
  - open_exec E; [by left|]. right. right. cbn [pend]. set_solver.
  - open_exec E; by left.
  - open_exec E; by left.
  - open_exec E; try (by left).
    all: match goal with Ho : _ || _ = false, Eg : active _ = Some ?g |- _ =>
      apply orb_false_iff in Ho as [_ Ho]; apply Z.leb_gt in Ho; left; destruct Ha as (m & k & Em & Hk);
      rewrite Eg in Em; injection Em as ->; pose proof (active_id _ _ _ _ _ Hok Eg Hk Ho);
      eexists _, k; split; [reflexivity|]; by rewrite lookup_insert_ne end.
  - open_exec E; by left.
  - cbn in E. injection E as <- <-. destruct (Z.leb_spec 0 (cs_onWrite c0)) as [Hc|]; [|by left]. specialize (Hx Hc).
    destruct (decide (s = Z.to_nat (cs_onWrite c0))) as [->|Hne]; [right; left; by apply Hm|]. left.
    destruct Hx as (y & Hy & _). by apply active_delete; [|eexists|..].
  - open_exec E; by left.
  - open_exec E; by left.
  - open_exec E; by left.
Qed.

(** ** The items of the control buffer *)

Definition items_ok (t' : http2Server) (t : http2Server) : Prop :=
  Forall (item_ok t') (ControlBuffer.items (cb t)) /\ Forall (cleanup_ok t') (kept t).

Lemma execute_items P f it t :
  (forall t, cb (snd (f t)) = cb t /\ kept (snd (f t)) = kept t) -> Forall P (ControlBuffer.items (cb t)) -> P it ->
  Forall P (ControlBuffer.items (cb (snd (execute_put f it t)))) /\ kept (snd (execute_put f it t)) = kept t.
Proof.
  intros Hf Hall Hit. unfold execute_put. destruct (ControlBuffer.err (cb t)); [done|]. destruct (Hf t) as [Hc Hk].
  destruct (f t) as [ok t1]. cbn [snd] in *. rewrite Hc.
  assert (forall g, Forall P (ControlBuffer.items (snd (ControlBuffer.executeAndPut g it (cb t))))) as Hput.
  { intros g. unfold ControlBuffer.executeAndPut. repeat case_match; cbn; try done; by apply Forall_app_2; [|apply Forall_singleton]. }
  specialize (Hput (Some (fun _ => ok))). destruct (ControlBuffer.executeAndPut _ it (cb t)) as [[r w] b]. cbn [snd] in *.
  by destruct (fst r).
Qed.

Lemma put_items P it t :
  Forall P (ControlBuffer.items (cb t)) -> P it ->
  Forall P (ControlBuffer.items (cb (snd (put_item it t)))) /\ kept (snd (put_item it t)) = kept t.
Proof.
  intros Hall Hit. pose proof (execute_items P (fun t => (true, t)) it t (fun _ => conj eq_refl eq_refl) Hall Hit) as H.
  unfold put_item. by destruct (execute_put _ it t) as [[? ?] ?].
Qed.

Lemma settings_items P p t :
  Forall P (ControlBuffer.items (cb t)) -> (forall ss, P (IncomingSettings ss)) ->
  Forall P (ControlBuffer.items (cb (handleSettings p t))) /\ kept (handleSettings p t) = kept t.
Proof. intros Hall Hit. unfold handleSettings. apply execute_items; [|done..]. intros t'. cbn. by destruct (last_setting _ _). Qed.

Lemma header_items P s k t t' x' :
  (forall h, cleanup h = None -> P (HeaderFrame h)) -> Forall P (ControlBuffer.items (cb t)) ->
  writeHeaderLocked FindCompressorName s k t = Some (t', x') ->
  Forall P (ControlBuffer.items (cb t')) /\ kept t' = kept t.
Proof.
  intros HP Hall. unfold writeHeaderLocked. destruct (streams t !! s) as [x|]; [|done]. cbn [mbind option_bind].
  set (it := HeaderFrame _). set (f := fun t => _).
  assert (Hit : P it) by (by apply HP). pose proof (execute_items P f it t (fun _ => conj eq_refl eq_refl) Hall Hit) as H.
  destruct (execute_put f it t) as [r t1]. intros [= <- _]. done.
Qed.

Lemma finish_items P e t :
  Forall P (ControlBuffer.items (cb t)) -> Forall P (ControlBuffer.items (cb (finish_cb e t))) /\ kept (finish_cb e t) = kept t.
Proof. intros Hall. unfold finish_cb, ControlBuffer.finish. by destruct (ControlBuffer.err (cb t)). Qed.

Lemma delete_cb s now t : cb (deleteStream s now t) = cb t /\ kept (deleteStream s now t) = kept t.
Proof. unfold deleteStream. by repeat case_match. Qed.

Lemma newLimit_cb n ss t :
  cb (foldr (fun s => upd s (fun x => set_fc (InFlow.newLimit n (fc x)) x)) t ss) = cb t /\
  kept (foldr (fun s => upd s (fun x => set_fc (InFlow.newLimit n (fc x)) x)) t ss) = kept t.
Proof. by induction ss. Qed.

Lemma no_cleanup_header t h : cleanup h = None -> item_ok t (HeaderFrame h).
Proof. intros Hh. cbn. by rewrite Hh. Qed.

Lemma exec_items c now t x t' x' :
  all_pc (cancel_pc t) x -> exec c now t x = Some (t', x') -> items_ok t t -> items_ok t' t'.
Proof.
  intros Hx E [Hi Hk]. pose proof (exec_mono _ _ _ _ _ _ E) as Hm.
  assert (Hi' : Forall (item_ok t') (ControlBuffer.items (cb t))) by (eapply Forall_impl; [exact Hi|]; intros; by eapply mono_item).
  assert (Hk' : Forall (cleanup_ok t') (kept t)).
  { eapply Forall_impl; [exact Hk|]. unfold cleanup_ok. destruct Hm as [_ Hm]. auto. }
  assert (Hsame : cb t' = cb t -> kept t' = kept t -> items_ok t' t') by (intros E1 E2; split; by rewrite ?E1, ?E2).
  assert (Hnew : Forall (item_ok t') (ControlBuffer.items (cb t')) /\ kept t' = kept t -> items_ok t' t').
  { intros [H1 H2]. split; [done|by rewrite H2]. }
  pose proof (mono_pc _ _ _ Hm Hx) as Hx'. apply all_pc_here in Hx'.
  destruct x; open_exec E; try (by apply Hsame); apply Hnew.
  all: try (by apply put_items); try (by apply settings_items); try (by apply finish_items).
  all: try (match goal with Ep : put_item ?it ?t = (_, ?t') |- _ => pose proof (put_items (item_ok t') it t Hi' I) as P; by rewrite Ep in P end).
  all: try (match goal with Ep : writeHeaderLocked _ _ _ ?u = Some (?t', _) |- _ =>
    exact (header_items (item_ok t') _ _ u t' _ (no_cleanup_header t') Hi' Ep) end).
  all: try (match goal with |- context [deleteStream ?s ?now ?t] => destruct (delete_cb s now t) as [-> ->]; done end).
  - apply put_items; [done|]. unfold item_ok, trailing_item. cbn [cleanup]. unfold cleanup_ok. cbn [cs_onWrite cleanup_item].
    intros _. rewrite Nat2Z.id. exact Hx'.
  - destruct (newLimit_cb n (actives t) t) as [E1 E2]. split; [|exact E2]. cbn [cb set_iws]. by rewrite E1.
Qed.

(** ** The invariant *)

Record close_inv (y : sys) : Prop := mkCloseInv {
  ci_pcs : Forall (fun x => all_pc (cancel_pc (tr y)) (snd x)) (threads y);
  ci_items : items_ok (tr y) (tr y);
  ci_cancel : forall s, is_Some (streams (tr y) !! s) ->
    cancelled (tr y) s \/ in_active (tr y) s \/ exists i z, threads y !! i = Some z /\ s ∈ pend (snd z);
  ci_done : forall s x, streams (tr y) !! s = Some x -> st x = streamDone ->
    cancelled (tr y) s \/ exists i z, threads y !! i = Some z /\ s ∈ half (snd z)
}.

(** A goroutine that has not moved is where it was. *)
Lemma other_thread (f : pc -> list nat) i j z xs ys v s :
  xs !! j = Some z -> j <> i -> s ∈ f (snd z) ->
  exists i' z', (<[i := v]> xs ++ ys : list (option nat * pc)) !! i' = Some z' /\ s ∈ f (snd z').
Proof.
  intros Hj Hne Hs. exists j, z. split; [|done]. apply lookup_app_l_Some. by rewrite list_lookup_insert_ne.
Qed.

Lemma this_thread (f : pc -> list nat) i x o x' xs ys s :
  xs !! i = Some x -> s ∈ f x' -> exists i' z', (<[i := (o, x')]> xs ++ ys : list (option nat * pc)) !! i' = Some z' /\ s ∈ f (snd z').
Proof.
  intros Hi Hs. exists i, (o, x'). split; [|done]. apply lookup_app_l_Some. apply list_lookup_insert_eq. by eapply lookup_lt_Some.
Qed.

Lemma close_run i c now o x t' x' y :
  core_ok (core_of (tr y)) -> close_inv y -> threads y !! i = Some (o, x) -> exec c now (tr y) x = Some (t', x') -> x' <> Panicked ->
  close_inv (mkSys t' (<[i := (o, x')]> (threads y) ++ (pair None <$> spawned x c))).
Proof.
  intros Hok [Hp Hit Hc Hd] Hi Ex Hnp. pose proof (exec_mono _ _ _ _ _ _ Ex) as Hm. pose proof Hm as [_ Hmc].
  assert (Hx : all_pc (cancel_pc (tr y)) x) by (by apply (Forall_lookup_1 _ _ _ _ Hp Hi)).
  assert (Hhalf : forall s j z, threads y !! j = Some z -> s ∈ half (snd z) ->
    cancelled t' s \/ exists i' z', (<[i := (o, x')]> (threads y) ++ (pair None <$> spawned x c)) !! i' = Some z' /\ s ∈ half (snd z')).
  { intros s j z Hj Hs. destruct (decide (j = i)) as [->|Hne]; [|right; by eapply other_thread].
    rewrite Hi in Hj. injection Hj as <-. destruct (exec_half _ _ _ _ _ _ _ Ex Hnp Hs) as [Hs'|]; [|by left]. right. by eapply this_thread. }
  split; cbn [tr threads].
  - apply Forall_app. split.
    + apply Forall_insert; [|by eapply exec_cancel_pc]. eapply Forall_impl; [exact Hp|]. intros z. by apply mono_pc.
    + destruct x; try constructor. destruct c; repeat constructor.
  - by eapply exec_items.
  - intros s [ys Hs]. destruct (streams (tr y) !! s) as [y0|] eqn:Hy0.
    + destruct (Hc s (mk_is_Some _ _ Hy0)) as [Hs1|[Hs1|(j & z & Hj & Hs1)]].
      * left. by apply Hmc.
      * destruct (exec_active _ _ _ _ _ _ _ Hok Hx Ex Hs1) as [?|[?|Hs2]]; [by right; left|by left|]. do 2 right. by eapply this_thread.
      * destruct (decide (j = i)) as [->|Hne]; [|do 2 right; by eapply other_thread].
        rewrite Hi in Hj. injection Hj as <-.
        destruct (exec_pend _ _ _ _ _ _ _ Ex Hnp Hs1) as [Hs2|[Hs2|(ss & n & yd & -> & Hyd & Hst)]].
        -- do 2 right. by eapply this_thread.
        -- by left.
        -- destruct (Hd s yd Hyd Hst) as [Hcan|(j' & z' & Hj' & Hs')]; [left; by apply Hmc|].
           destruct (Hhalf s j' z' Hj' Hs') as [?|(i' & z2 & Hz2 & Hs2)]; [by left|]. do 2 right. exists i', z2. split; [done|]. by apply half_pend.
    + destruct (exec_new _ _ _ _ _ _ _ _ Ex Hy0 Hs) as (id & ended & d & -> & -> & -> & _). right. left.
      open_exec Ex; try (by rewrite Hy0 in Hs); eexists _, id; (split; [reflexivity|]); by rewrite lookup_insert_eq.
  - intros s ys Hs Hst. destruct (streams (tr y) !! s) as [y0|] eqn:Hy0.
    + destruct (exec_rel _ _ _ _ _ _ Ex s y0 Hy0) as (y1 & Hy1 & R). rewrite Hs in Hy1. injection Hy1 as <-.
      destruct (decide (st y0 = streamDone)) as [Hst0|Hst0].
      * destruct (Hd s y0 Hy0 Hst0) as [?|(j & z & Hj & Hs1)]; [left; by apply Hmc|]. by eapply Hhalf.
      * destruct (sr_done _ _ _ _ R Hst) as [?|He]; [done|].
        destruct (exec_ended _ _ _ _ _ _ s Ex Hx He) as [Hs1|?]; [|right; by eapply this_thread|by left].
        intros y2 Hy2. by simplify_eq.
    + destruct (exec_new _ _ _ _ _ _ _ _ Ex Hy0 Hs) as (id & ended & d & _ & _ & -> & _). by destruct ended.
Qed.

Lemma get_items P b g b' :
  ControlBuffer.get_iter true b = Some (g, b') -> Forall P (ControlBuffer.items b) ->
  Forall P (ControlBuffer.items b') /\ (forall it, g = ControlBuffer.GItem it -> P it).
Proof.
  unfold ControlBuffer.get_iter, mbind, option_bind. intros E Hall.
  destruct (ControlBuffer.err b); [by injection E as <- <-|].
  destruct (ControlBuffer.items b) as [|h l] eqn:El; [by injection E as <- <-|].
  apply Forall_cons in Hall as [Hh Hl]. repeat case_match; try done; injection E as <- <-; (split; [done|]); by intros it [= <-].
Qed.

Lemma writer_items c t t' x' :
  writer_next c t = Some (t', x') -> items_ok t t -> items_ok t t' /\ all_pc (cancel_pc t) x'.
Proof.
  intros E [Hi Hk]. unfold writer_next, mbind, option_bind in E.
  assert (Hgen : forall c, match ControlBuffer.get_iter true (cb t) with
    | Some (g, b) => Some (match g with
       | ControlBuffer.GItem (HeaderFrame h) => write_header h c (set_cb b t)
       | ControlBuffer.GItem (CleanupStream cl) => (set_cb b t, WClean cl)
       | ControlBuffer.GItem (GoAway g) => (set_cb b t, OGoAway g)
       | ControlBuffer.GErr _ => writer_ends (set_cb b t)
       | _ => (set_cb b t, Idle) end)
    | None => None end = Some (t', x') -> items_ok t t' /\ all_pc (cancel_pc t) x').
  { clear E. intros c' E. destruct (ControlBuffer.get_iter true (cb t)) as [[g b]|] eqn:Eg; [|done].
    destruct (get_items _ _ _ _ Eg Hi) as [Hb Hg]. injection E as E.
    assert (items_ok t (set_cb b t)) as Hok by done.
    destruct g as [it| | |]; [|by injection E as <- <-..]. specialize (Hg it eq_refl).
    destruct it; try (by injection E as <- <-). cbn [item_ok] in Hg. unfold write_header in E.
    destruct c', (cleanup h) as [cl|]; injection E as <- <-; try done.
    split; [|done]. split; [done|]. apply Forall_app_2; [done|by apply Forall_singleton]. }
  destruct c; try (by eapply Hgen).
  - destruct (doneClosed t); [|done]. injection E as <- <-. split; [|done]. destruct (finish_items (item_ok t) ErrConnClosing t Hi) as [F1 F2].
    split; [exact F1|]. change (Forall (cleanup_ok t) (kept (finish_cb ErrConnClosing t))). by rewrite F2.
  - by injection E as <- <-.
Qed.

Lemma kept_items i t t' x' :
  write_kept i t = Some (t', x') -> items_ok t t -> items_ok t t' /\ all_pc (cancel_pc t) x'.
Proof.
  unfold write_kept. destruct (kept t !! i) as [cl|] eqn:Ei; [|done]. intros [= <- <-] [Hi Hk]. split.
  - split; [done|]. by apply Forall_delete.
  - split; [|done]. by eapply Forall_lookup_1 in Hk.
Qed.

(** Streams that differ in their contexts only. *)
Lemma ctx_streams (f : stream -> stream) s t t' :
  (forall x, set_ctxErr_ (ctxErr_ x) (f x) = x) -> streams t' = alter f s (streams t) -> core_of t' = core_of t ->
  mono t t' /\ (forall k, in_active t k -> in_active t' k) /\
  (forall k x', streams t' !! k = Some x' -> exists x, streams t !! k = Some x /\ st x' = st x).
Proof.
  intros Hf Es Ec.
  assert (Hlook : forall k, streams t' !! k = (if decide (k = s) then f <$> streams t !! k else streams t !! k)).
  { intros k. rewrite Es. case_decide as Hk; [subst; apply list_lookup_alter_eq|by apply list_lookup_alter_ne]. }
  assert (Hr : forall x, reason (f x) = reason x /\ st (f x) = st x) by (intros x; by rewrite <- (Hf x) at 2 4).
  split_and!.
  - split; intros k.
    + rewrite Hlook. case_decide; [|done]. by rewrite fmap_is_Some.
    + intros (x & Hx & Hn). unfold cancelled. rewrite Hlook. case_decide; [|by exists x]. rewrite Hx. exists (f x). split; [done|]. by rewrite (proj1 (Hr x)).
  - intros k. unfold in_active. change (active t') with (c_active (core_of t')). by rewrite Ec.
  - intros k x'. rewrite Hlook. case_decide; [|by exists x']. destruct (streams t !! k) as [x|]; [|done]. intros [= <-]. exists x. split; [done|apply Hr].
Qed.

Lemma start_cancel_pc t s o o' i bdp calc now :
  is_Some (streams t !! s) ->
  all_pc (cancel_pc t) (send_op s o) /\ all_pc (cancel_pc t) (start_other o') /\ all_pc (cancel_pc t) (HandleStreams i bdp calc now).
Proof.
  intros Hs. split_and!.
  - destruct o; cbn [send_op]; try case_decide; by cbn.
  - by destruct o'.
  - destruct i as [[]| | | |]; cbn [HandleStreams]; unfold handlePing; repeat case_match; by cbn.
Qed.

Lemma close_step l y y' : safe_inv y -> safe_inv y' -> close_inv y -> lstep l y = Some y' -> close_inv y'.
Proof.
  intros Hsafe Hsafe' Hy E.
  apply lstep_cases in E as [(i & o & x & c & now & t' & x' & Hi & Ex & -> & ->)|(Ec & _ & f & s & Hctx & Es & Ht)].
  { eapply close_run; try done; [apply Hsafe|]. intros ->. pose proof (si_pcs _ Hsafe') as Hp. cbn [threads] in Hp.
    apply Forall_app in Hp as [Hp _]. eapply (Forall_lookup_1 _ _ i (o, Panicked)) in Hp; [by apply all_pc_here in Hp|].
    apply list_lookup_insert_eq. by eapply lookup_lt_Some. }
  destruct (ctx_streams f s (tr y) (tr y') Hctx Es Ec) as (Hm & Hact & Hst). pose proof Hm as [_ Hmc].
  destruct Hy as [Hp Hit Hc Hd].
  assert (Hp' : Forall (fun x => all_pc (cancel_pc (tr y')) (snd x)) (threads y)).
  { eapply Forall_impl; [exact Hp|]. intros z. by apply mono_pc. }
  assert (Hmono : forall t, items_ok (tr y) t -> items_ok (tr y') t).
  { intros t [H1 H2]. split; [eapply Forall_impl; [exact H1|]; intros; by eapply mono_item|].
    eapply Forall_impl; [exact H2|]. unfold cleanup_ok. auto. }
  assert (Hsame : same_cb (tr y') (tr y) -> items_ok (tr y') (tr y')).
  { intros [E1 E2]. destruct (Hmono _ Hit) as [H1 H2]. split; by rewrite ?E1, ?E2. }
  assert (Hkeep : (forall j z, threads y !! j = Some z -> pend (snd z) <> [] -> threads y' !! j = Some z) ->
    Forall (fun x => all_pc (cancel_pc (tr y')) (snd x)) (threads y') -> items_ok (tr y') (tr y') -> close_inv y').
  { intros Hth H1 H2. split; [done|done|..].
    - intros k [x' Hx']. destruct (Hst _ _ Hx') as (x & Hx & _).
      destruct (Hc k (mk_is_Some _ _ Hx)) as [?|[?|(j & z & Hj & Hs)]]; [left; auto|right; left; auto|]. do 2 right. exists j, z. split; [|done].
      apply Hth; [done|]. intros Hn. rewrite Hn in Hs. by apply not_elem_of_nil in Hs.
    - intros k x' Hx' Hs'. destruct (Hst _ _ Hx') as (x & Hx & Hs). rewrite Hs in Hs'.
      destruct (Hd k x Hx Hs') as [?|(j & z & Hj & Hh)]; [left; auto|]. right. exists j, z. split; [|done].
      apply Hth; [done|]. intros Hn. apply half_pend in Hh. rewrite Hn in Hh. by apply not_elem_of_nil in Hh. }
  destruct Ht as [(s' & o & x & _ & Hs & _ & _ & Et & Hcb)|[(o & _ & Et & Hcb)|[(i & bdp & calc & now & o & _ & Hi & Et & Hcb)|[(x & o & Hi & Hx & Et & Hw)|[Et Hcb]]]]];
    apply Hkeep; rewrite ?Et; try done; auto.
  - intros j z Hj _. by apply lookup_app_l_Some.
  - apply Forall_app_2; [done|]. apply Forall_singleton. destruct Hm as [Hm _].
    by apply (start_cancel_pc _ s' o OClose IEOF true None 0), Hm; eexists.
  - intros j z Hj _. by apply lookup_app_l_Some.
  - apply Forall_app_2; [done|]. apply Forall_singleton. by destruct o.
  - intros j z Hj Hn. rewrite list_lookup_insert_ne; [done|]. intros <-. rewrite Hi in Hj. by injection Hj as <-.
  - apply Forall_insert; [done|]. destruct i as [[]| | | |]; cbn [snd HandleStreams]; unfold handlePing; repeat case_match; by cbn.
  - intros j z Hj Hn. rewrite list_lookup_insert_ne; [done|]. intros <-. rewrite Hi in Hj. by injection Hj as <-.
  - apply Forall_insert; [done|]. cbn [snd]. eapply mono_pc; [exact Hm|]. destruct Hw as [[c Hw]|[i Hw]]; [by eapply writer_items|by eapply kept_items].
  - apply Hmono. destruct Hw as [[c Hw]|[i Hw]]; [by eapply writer_items|by eapply kept_items].
Qed.

(** ** Closing ends *)

(** The steps a goroutine takes until it has nothing left to cancel. *)
Fixpoint work (x : pc) : nat :=
  match x with
  | Put _ k | KClose _ k => 1 + work k
  | Drain _ _ k | CDelete _ _ _ k => 2 + work k
  | CSwap _ _ _ k => 3 + work k
  | CCancel _ _ _ _ k => 4 + work k
  | KFinish _ ss k => 4 + length ss + work k
  | KDone _ ss k => 3 + length ss + work k
  | KConn _ ss k => 2 + length ss + work k
  | KCancel _ ss k => 1 + length ss + work k
  | GSwap ss _ => 1 + 3 * length ss
  | GCancel _ ss _ => 3 + 3 * length ss
  | FCancel _ _ _ => 1
  | _ => 0
  end.

Lemma pend_steps now t x :
  state t = closing -> all_pc (cancel_pc t) x -> pend x <> [] ->
  exists t' x', exec Go now t x = Some (t', x') /\ (x' = Panicked \/ (work x' < work x)%nat).
Proof.
  intros Hst Hx Hn. destruct x; try done; cbn [ServerTransport.exec ServerTransport.closeStream finishStream closeWithErr Close] in *.
  all: apply all_pc_here in Hx; cbn [cancel_pc] in Hx.
  all: rewrite ?decide_True by done; unfold drain, close_done.
  all: try (destruct ss as [|s' ss]; [|try (apply Forall_cons in Hx as [Hx _])]).
  all: try (apply Forall_cons in Hx as [Hx _]).
  all: try match type of Hx with is_Some _ => let Hy := fresh in destruct Hx as [? Hy]; rewrite ?Hy end; try done; cbn [mbind option_bind].
  all: repeat case_match; do 2 eexists; (split; [reflexivity|]); first [by left | right; cbn [work length]; lia].
Qed.

Lemma stays_closing c c' : core_step c c' -> c_state c = closing -> c_state c' = closing.
Proof. destruct 1; cbn [c_state]; congruence. Qed.

Lemma pend_run i now o x y :
  safe_inv y -> close_inv y -> state (tr y) = closing -> threads y !! i = Some (o, x) -> pend x <> [] ->
  exists y', lstep (LRun i Go now) y = Some y' /\ safe_inv y' /\ close_inv y' /\ state (tr y') = closing /\
    (sum_list ((fun z => work (snd z)) <$> threads y') < sum_list ((fun z => work (snd z)) <$> threads y))%nat.
Proof.
  intros Hs Hc Hst Hi Hn. assert (Hx : all_pc (cancel_pc (tr y)) x) by (by apply (Forall_lookup_1 _ _ _ _ (ci_pcs _ Hc) Hi)).
  destruct (pend_steps now _ _ Hst Hx Hn) as (t' & x' & Ex & Hw).
  assert (Hsp : spawned x Go = []) by (by destruct x).
  assert (E : lstep (LRun i Go now) y = Some (mkSys t' (<[i := (o, x')]> (threads y)))).
  { cbn [ServerTransport.lstep]. rewrite Hi. cbn [mbind option_bind]. rewrite Ex. cbn [mbind option_bind]. by rewrite Hsp, app_nil_r. }
  eexists. split; [exact E|]. assert (Hs' : safe_inv (mkSys t' (<[i := (o, x')]> (threads y)))) by (eapply (safe_step (LRun i Go now)); [exact Hs|exact I|exact E]). split_and!; [done|exact (close_step _ _ _ Hs Hs' Hc E)| |].
  - cbn [tr]. apply (stays_closing (core_of (tr y)) (core_of t')); [|done]. eapply exec_core_step; [exact Ex|].
    by apply (Forall_lookup_1 _ _ _ _ (proj2 (si_goaway _ Hs)) Hi).
  - cbn [threads]. destruct Hw as [->|Hw].
    { exfalso. pose proof (si_pcs _ Hs') as Hp. cbn [threads] in Hp. eapply (Forall_lookup_1 _ _ i (o, Panicked)) in Hp; [by apply all_pc_here in Hp|].
      apply list_lookup_insert_eq. by eapply lookup_lt_Some. }
    rewrite <- (list_insert_id _ _ _ Hi) at 2. clear - Hw Hi. revert i Hi.
    induction (threads y) as [|z xs IH]; intros [|i] Hi; simplify_eq/=; [lia|]. specialize (IH _ Hi). lia.
Qed.

Lemma all_cancelled y :
  close_inv y -> core_ok (core_of (tr y)) -> state (tr y) = closing -> Forall (fun x => pend (snd x) = []) (threads y) ->
  Forall (fun x => reason x <> None) (streams (tr y)).
Proof.
  intros Hc Hok Hst Hp. apply Forall_lookup. intros s x Hx.
  destruct (ci_cancel _ Hc s (mk_is_Some _ _ Hx)) as [(x' & Hx' & Hr)|[(m & k & Hm & _)|(i & z & Hi & Hz)]].
  - by simplify_eq.
  - exfalso. apply (ok_closing _ Hok) in Hst. cbn [core_of c_active] in Hst. congruence.
  - eapply Forall_lookup_1 in Hp; [|exact Hi]. rewrite Hp in Hz. by apply not_elem_of_nil in Hz.
Qed.

Lemma serve_items config preface first now y0 : serve config preface first now = Some y0 -> items_ok (tr y0) (tr y0).
Proof.
  unfold serve, handshake, mbind, option_bind. intros E. destruct (text_eqb preface ClientPreface); [|done].
  destruct first as [[]| | | |]; try done. injection E as <-. cbn [init tr].
  destruct (Has (Flags fh) FlagAck); [by split|]. set (t := snd (newHTTP2Server config now)).
  change (items_ok (handleSettings p t) (handleSettings p t)).
  destruct (settings_items (item_ok (handleSettings p t)) p t) as [H1 H2]; [done..|]. split; [done|]. by rewrite H2.
Qed.

Lemma reach_close config preface first now y0 y :
  serve config preface first now = Some y0 -> reach polite y0 y -> close_inv y.
Proof.
  intros E0 R. induction R as [|l y y' R IH Hl E].
  - pose proof (serve_items _ _ _ _ _ E0) as Hi. apply serve_start in E0 as (_ & S & T). split; [rewrite T; by repeat constructor|done|..].
    + intros s [x Hx]. by rewrite S in Hx.
    + intros s x Hx. by rewrite S in Hx.
  - eapply close_step; [by eapply reach_safe|eapply reach_safe; [done|by eapply reach_step]|done|done].
Qed.

Definition run_label (now : Z) (l : label) : Prop := exists i, l = LRun i Go now.

(** C21: closing a server connection cancels every stream it has accepted, as long as the
    client is polite: it numbers its streams with increasing odd ids and acknowledges the
    ping of a GOAWAY only once a shutdown has begun (a reused id makes the loop that cancels
    the streams panic, [ServerRuns.reused_stream_id_panics]).  In a state reached with the
    connection closed, by Close, the reader, keepalive or a limit, whatever the streams are
    doing: as soon as no goroutine holds streams it still has to cancel, all are cancelled;
    and the goroutines that hold some are never blocked, so running them alone leads there. *)
Theorem closed_server_cancels_all config preface first now y0 y :
  serve config preface first now = Some y0 -> reach polite y0 y -> state (tr y) = closing ->
  (Forall (fun x => pend (snd x) = []) (threads y) -> Forall (fun x => reason x <> None) (streams (tr y))) /\
  forall now', exists ls y', Forall (run_label now') ls /\ lrun FindCompressorName MinTime PermitWithoutStream kp ls y = Some y' /\
    state (tr y') = closing /\ Forall (fun x => pend (snd x) = []) (threads y') /\ Forall (fun x => reason x <> None) (streams (tr y')).
Proof.
  intros E0 R Hst. pose proof (reach_safe _ _ _ _ _ _ E0 R) as Hs. pose proof (reach_close _ _ _ _ _ _ E0 R) as Hc. clear R. split.
  { apply all_cancelled; try done. apply Hs. }
  intros now'. remember (sum_list ((fun z => work (snd z)) <$> threads y)) as n eqn:Hn. revert y Hs Hc Hst Hn.
  induction (lt_wf n) as [n _ IH]. intros y Hs Hc Hst ->.
  destruct (decide (Forall (fun x => pend (snd x) = []) (threads y))) as [Hp|Hp].
  { exists [], y. split_and!; try done. apply all_cancelled; try done. apply Hs. }
  apply not_Forall_Exists in Hp; [|intros ?; apply _]. apply Exists_exists in Hp as ([o x] & Hx & Hp). apply list_elem_of_lookup in Hx as [i Hi].
  destruct (pend_run i now' o x y Hs Hc Hst Hi Hp) as (y1 & E1 & Hs1 & Hc1 & Hst1 & Hlt).
  destruct (IH _ Hlt y1 Hs1 Hc1 Hst1 eq_refl) as (ls & y' & Hls & E & H).
  exists (LRun i Go now' :: ls), y'. split_and!; [|cbn [lrun]; by rewrite E1|apply H..]. constructor; [by exists i|done].
Qed.

End spec.
