(* ===== verification/ServerResponse.v ===== *)
(** What a server connection sends on a stream (ServerTransport.v): one well-formed response,
    whatever goroutines read, close, drain or reset at the same time, and a status the client
    (Headers.v) decodes to the one the handler returned. *)

From stdpp Require Import sorting.
From S2P Require Import Prelude GoText Loopy FlowControl HttpUtil Headers Frames ControlBuf ClientTransport ServerTransport ServerSpec.

#[local] Set Default Goal Selector "!".

(** * Responses *)

Inductive part :=
| PHeaders (fs : list (string * string))
| PData (h d : list byte)
| PTrailers (fs : list (string * string)).

Definition part_of (id : Z) (it : cbItem) : option part :=
  match it with
  | HeaderFrame h =>
      if h_streamID h =? id then Some ((if h_endStream h then PTrailers else PHeaders) (hf h)) else None
  | ControlBuf.DataFrame d => if d_streamID d =? id then Some (PData (d_h d) (d_d d)) else None
  | _ => None
  end.

(** What the control buffer has accepted for the stream with identifier [id]. *)
Definition response (id : Z) (t : http2Server) : list part := omap (part_of id) (accepted t).

Definition pseudo (f : string * string) : bool :=
  match fst f with String.String c _ => Ascii.eqb c (Ascii.ascii_of_byte Byte.x3a) | _ => false end.

(** The first header block of a response: the HTTP status, then ordinary fields. *)
Definition initial_fields (fs : list (string * string)) : Prop :=
  exists rest, fs = (":status", "200")%string :: rest /\ Forall (fun f => pseudo f = false) rest.

Definition trailing_fields (fs : list (string * string)) : Prop := Forall (fun f => pseudo f = false) fs.

Definition has_grpc_status (fs : list (string * string)) : Prop := Exists (fun f => fst f = "grpc-status"%string) fs.

Definition is_data (p : part) : Prop := match p with PData _ _ => True | _ => False end.

Definition open (L : list part) : Prop := exists fs ds, L = PHeaders fs :: ds /\ initial_fields fs /\ Forall is_data ds.

Definition ended (L : list part) : Prop :=
  (exists fs, L = [PTrailers fs] /\ initial_fields fs /\ has_grpc_status fs) \/
  (exists L' fs, L = L' ++ [PTrailers fs] /\ open L' /\ trailing_fields fs /\ has_grpc_status fs).

(** The responses of the protocol: nothing yet, headers and data, or a response that ended,
    either with trailers after its headers and data or with a single block of both. *)
Definition legal (L : list part) : Prop := L = [] \/ open L \/ ended L.

Lemma open_data L h d : open L -> open (L ++ [PData h d]).
Proof. intros (fs & ds & -> & Hf & Hd). exists fs, (ds ++ [PData h d]). split_and!; [done|done|]. by apply Forall_app_2; [|apply Forall_singleton]. Qed.

(** ** The header blocks of the server *)

Lemma md_trailing md : trailing_fields (to_string <$> appendHeaderFieldsFromMD md).
Proof.
  unfold trailing_fields, appendHeaderFieldsFromMD. apply Forall_fmap, Forall_bind, Forall_forall. intros [k vv] _.
  cbn [compose md_fields]. destruct (isReservedHeader k) eqn:E; [constructor|]. apply Forall_fmap, Forall_forall. intros v _.
  unfold pseudo, to_string. cbn [fst]. destruct k as [|c k]; [done|]. cbn [String.string_of_list_byte].
  cbn [isReservedHeader] in E. destruct (byteZ c =? 58) eqn:Ec; [done|]. by destruct c.
Qed.

Lemma status_trailing a : trailing_fields (to_string <$> status_fields a) /\ has_grpc_status (to_string <$> status_fields a).
Proof.
  split.
  - unfold trailing_fields, status_fields. rewrite !fmap_app. apply Forall_app_2; [by repeat constructor|].
    apply Forall_app_2; [destruct (a_biz a) as [[code [json|]]|]|destruct (a_details a)]; by repeat constructor.
  - by constructor.
Qed.

Section responses.
Context (FindCompressorName : text -> text).

Lemma response_initial x : initial_fields (to_string <$> response_fields FindCompressorName x).
Proof.
  unfold response_fields. rewrite fmap_app, fmap_cons, <- app_comm_cons. eexists. split; [done|].
  apply Forall_app_2; [by repeat constructor|]. rewrite fmap_app. apply Forall_app_2; [|apply md_trailing].
  destruct (FindCompressorName (compress x)); by repeat constructor.
Qed.
End responses.

Lemma trailer_block only a x :
  let fs := to_string <$> trailer_fields only a x in
  has_grpc_status fs /\ if only then initial_fields fs else trailing_fields fs.
Proof.
  destruct (status_trailing a) as [H1 H2]. pose proof (md_trailing (trl x)) as H3. cbv zeta. unfold trailer_fields. destruct only.
  - rewrite fmap_app, !fmap_cons, fmap_nil, <- !app_comm_cons, app_nil_l, fmap_app. split.
    + do 2 apply Exists_cons_tl. by apply Exists_app; left.
    + eexists. split; [done|]. constructor; [done|]. by apply Forall_app_2.
  - rewrite app_nil_l, fmap_app. split; [by apply Exists_app; left|by apply Forall_app_2].
Qed.

(** * The stages of a sender *)

Definition failed (t : http2Server) : Prop := ControlBuffer.err (cb t) <> None.

Definition resp (t : http2Server) (x : stream) : list part := response (sid x) t.

(** Between two operations. *)
Definition between (t : http2Server) (x : stream) : Prop :=
  if sent x then open (resp t x) \/ (resp t x = [] /\ (st x = streamDone \/ failed t)) \/ (ended (resp t x) /\ st x = streamDone)
  else resp t x = [].

(** Headers are out, or never will be. *)
Definition begun (t : http2Server) (x : stream) : Prop := sent x = true /\ (open (resp t x) \/ resp t x = [] /\ failed t).

Definition fresh (t : http2Server) (x : stream) : Prop := sent x = true /\ resp t x = [].

Definition can_trail (t : http2Server) (x : stream) (fs : list (text * text)) : Prop :=
  sent x = true /\ has_grpc_status (to_string <$> fs) /\
  (open (resp t x) /\ trailing_fields (to_string <$> fs) \/
   resp t x = [] /\ (initial_fields (to_string <$> fs) \/ failed t)).

Definition returns (k : pc) : Prop := match k with Finished _ => True | _ => False end.

Definition header_then (s : nat) (k : pc) : Prop :=
  match k with Finished _ => True | WQuota s' _ _ => s' = s | _ => False end.

Definition no_part (it : cbItem) : Prop :=
  match it with HeaderFrame _ | ControlBuf.DataFrame _ => False | _ => True end.

Definition phase (t : http2Server) (s : nat) (x : stream) (p : pc) : Prop :=
  match p with
  | Finished _ => True
  | HSent s' _ k => s' = s /\ header_then s k /\ between t x
  | HState s' _ k | HLocked s' _ k => s' = s /\ header_then s k /\ fresh t x
  | WSent s' _ _ | SState s' _ => s' = s /\ between t x
  | WState s' _ _ => s' = s /\ sent x = true /\ between t x
  | WQuota s' _ _ | WPut s' _ _ => s' = s /\ begun t x
  | SSent s' _ => s' = s /\ (sent x = false /\ resp t x = [] \/ begun t x)
  | SHeader s' _ => s' = s /\ fresh t x
  | SCheck s' _ only => s' = s /\ if only then fresh t x else begun t x
  | SRst s' fs | FSwap s' _ fs => s' = s /\ can_trail t x fs
  | FCancel s' _ fs | FPut s' _ fs => s' = s /\ can_trail t x fs /\ st x = streamDone
  | SetHeader1 s' _ | SetHeader2 s' _ | SetHeader3 s' _ | SetTrailer1 s' _ | SetTrailer2 s' _ => s' = s /\ between t x
  | CCancel s' _ _ _ k | CSwap s' _ _ k => s' = s /\ returns k /\ sent x = true /\ (open (resp t x) \/ resp t x = [])
  | CDelete s' _ _ k => s' = s /\ returns k /\ between t x
  | Put it k => no_part it /\ returns k /\ between t x
  | _ => False
  end.

(** What other goroutines may do to a stream and its response. *)
Record kept_by (t : http2Server) (x : stream) (t' : http2Server) (x' : stream) : Prop := mkKept {
  kb_resp : resp t' x' = resp t x;
  kb_failed : failed t -> failed t';
  kb_sent : sent x' = sent x;
  kb_st : st x = streamDone -> st x' = streamDone
}.

Lemma between_mono t x t' x' : kept_by t x t' x' -> between t x -> between t' x'.
Proof. intros [H1 H2 H3 H4]. unfold between. rewrite H1, H3. destruct (sent x); [|done]. intuition. Qed.

Lemma phase_mono t x t' x' s p : kept_by t x t' x' -> phase t s x p -> phase t' s x' p.
Proof.
  intros K. pose proof (between_mono _ _ _ _ K) as HB. destruct K as [H1 H2 H3 H4].
  destruct p; cbn [phase]; unfold fresh, begun, can_trail; try (destruct only); rewrite ?H1, ?H3; intuition.
Qed.

Lemma between_legal t x : between t x -> legal (resp t x).
Proof. unfold between, legal. destruct (sent x); intuition. Qed.

Lemma phase_legal t s x p : phase t s x p -> finished p = false -> legal (resp t x).
Proof.
  intros Hp Hf. unfold legal. pose proof (between_legal t x) as HB. unfold legal in HB.
  destruct p; cbn [phase finished] in Hp, Hf; try done; unfold fresh, begun, can_trail in Hp; try (destruct only); intuition.
Qed.

(** * Steps *)

Lemma put_cases it t :
  (failed t /\ put_item it t = (ControlBuffer.err (cb t), t)) \/
  (ControlBuffer.err (cb t) = None /\ exists b, put_item it t = (None, set_accepted (accepted t ++ [it]) (set_cb b t)) /\ ControlBuffer.err b = None).
Proof.
  unfold put_item, execute_put, failed. destruct (ControlBuffer.err (cb t)) eqn:E; [by left|]. right. split; [done|].
  unfold ControlBuffer.executeAndPut. rewrite E. cbn [ControlBuffer.refused negb]. repeat case_match; simplify_eq; by eexists.
Qed.

Lemma execute_cases ok it t :
  let r := execute_put (fun t => (ok t, t)) it t in
  (exists e, ControlBuffer.err (cb t) = Some e /\ r = ((false, Some e), t)) \/
  (ControlBuffer.err (cb t) = None /\ ok t = false /\ exists b, r = ((false, None), set_cb b t) /\ ControlBuffer.err b = None) \/
  (ControlBuffer.err (cb t) = None /\ ok t = true /\ exists b, r = ((true, None), set_accepted (accepted t ++ [it]) (set_cb b t)) /\ ControlBuffer.err b = None).
Proof.
  cbv zeta. unfold execute_put. destruct (ControlBuffer.err (cb t)) eqn:E; [left; eauto|]. right.
  unfold ControlBuffer.executeAndPut. rewrite E. cbn [ControlBuffer.refused]. destruct (ok t) eqn:Eo; cbn [negb]; [right|left].
  - split_and!; [done..|]. repeat case_match; simplify_eq; by eexists.
  - split_and!; [done..|]. by eexists.
Qed.

Lemma response_app id t b it :
  response id (set_accepted (accepted t ++ [it]) (set_cb b t)) = response id t ++ omap (part_of id) [it].
Proof. apply omap_app. Qed.

(** [t'] has the same responses, and has failed if [t] has. *)
Definition same_resp (t t' : http2Server) : Prop :=
  (forall id, response id t' = response id t) /\ (failed t -> failed t').

Lemma same_log t t' : accepted t' = accepted t -> cb t' = cb t -> same_resp t t'.
Proof. intros E1 E2. unfold same_resp, response, failed. by rewrite E1, E2. Qed.

Lemma put_same it t : no_part it -> same_resp t (snd (put_item it t)).
Proof.
  intros Hit. destruct (put_cases it t) as [[_ ->]|[E (b & -> & Hb)]]; [by apply same_log|]. cbn [snd]. split.
  - intros id. rewrite response_app. destruct it; try done; cbn; by rewrite app_nil_r.
  - intros Hf. by destruct Hf.
Qed.

Lemma settings_same p t : same_resp t (handleSettings p t).
Proof.
  unfold handleSettings, execute_put. destruct (ControlBuffer.err (cb t)) eqn:E; [by apply same_log|].
  set (u := match last_setting _ _ with Some _ => _ | None => _ end). assert (accepted u = accepted t /\ cb u = cb t) as [E1 E2].
  { subst u. by destruct (last_setting _ _). }
  cbn [snd]. rewrite E2. unfold ControlBuffer.executeAndPut. rewrite E. cbn [ControlBuffer.refused negb].
  split; [|by intros []]. intros id.
  assert (forall b, response id (set_accepted (accepted u ++ [IncomingSettings (filter (fun q => fst q <> SettingMaxHeaderListSize) (settings_of p))]) (set_cb b u)) = response id t) as H.
  { intros b. rewrite response_app. cbn. rewrite app_nil_r. unfold response. by rewrite E1. }
  repeat case_match; simplify_eq; cbn [snd fst]; apply H.
Qed.

Lemma finish_resp e t : same_resp t (finish_cb e t).
Proof.
  unfold finish_cb, ControlBuffer.finish. destruct (ControlBuffer.err (cb t)) eqn:E; [by apply same_log|].
  split; [done|by intros []].
Qed.

Lemma delete_same s now t : same_resp t (deleteStream s now t).
Proof. unfold deleteStream. repeat case_match; by apply same_log. Qed.

(** The steps of goroutines that do not send. *)
Definition sends (x : pc) : bool :=
  match x with
  | HSent _ _ _ | HState _ _ _ | HLocked _ _ _ | WSent _ _ _ | WState _ _ _ | WQuota _ _ _ | WPut _ _ _ | SState _ _ | SSent _ _
  | SHeader _ _ | SCheck _ _ _ | SRst _ _ | FSwap _ _ _ | FCancel _ _ _ | FPut _ _ _ => true
  | _ => false
  end.

Definition quiet (x : pc) : Prop := sends x = false /\ match x with Put it _ => no_part it | _ => True end.

Section spec.
Context {HL : HeaderLib}.
Context (FindCompressorName : text -> text) (MinTime : Z) (PermitWithoutStream : bool) (kp : keepaliveParams).

#[local] Abbreviation exec := (exec FindCompressorName MinTime PermitWithoutStream kp).
#[local] Abbreviation lstep := (lstep FindCompressorName MinTime PermitWithoutStream kp).
#[local] Abbreviation reach := (reach FindCompressorName MinTime PermitWithoutStream kp).

Lemma exec_quiet c now t x t' x' :
  all_pc quiet x -> exec c now t x = Some (t', x') -> all_pc quiet x' /\ same_resp t t'.
Proof.
  intros Hx E. destruct x; open_exec E; try (by destruct Hx as [[? _] _]).
  all: split; [by first [apply Hx | repeat split | destruct Hx as [_ Hx]; repeat split] | try (by apply same_log)].
  all: try first [apply put_same | apply finish_resp | apply delete_same | apply settings_same].
  - by destruct Hx as [[_ ?] _].
  - apply same_log; cbn [accepted cb set_iws]; by induction (actives t).
Qed.

(** A step of the stream's own sender: what is left of its stage, and of other streams. *)
Definition own_step (t : http2Server) (s : nat) (x : stream) (t' : http2Server) (p' : pc) : Prop :=
  (forall id, id <> sid x -> response id t' = response id t) /\ (failed t -> failed t') /\
  exists x', streams t' !! s = Some x' /\ (p' <> Panicked -> phase t' s x' p' /\ (finished p' = true -> between t' x')).

Lemma own_same t s x t' x' p' :
  same_resp t t' -> streams t' !! s = Some x' -> (phase t' s x' p' /\ (finished p' = true -> between t' x')) -> own_step t s x t' p'.
Proof. intros [H1 H2] Hs Hp. split_and!; [auto..|]. exists x'. auto. Qed.

Lemma own_upd t s x f p' :
  streams t !! s = Some x -> (phase (upd s f t) s (f x) p' /\ (finished p' = true -> between (upd s f t) (f x))) -> own_step t s x (upd s f t) p'.
Proof.
  intros Hs Hp. eapply own_same; [by apply same_log| |exact Hp]. cbn [upd streams set_streams]. by rewrite list_lookup_alter_eq, Hs.
Qed.

Lemma own_stay t s x p' :
  streams t !! s = Some x -> (phase t s x p' /\ (finished p' = true -> between t x)) -> own_step t s x t p'.
Proof. intros Hs Hp. by eapply own_same; [apply same_log|..]. Qed.

Lemma own_trans t t1 s x x1 t' p' :
  same_resp t t1 -> sid x1 = sid x -> own_step t1 s x1 t' p' -> own_step t s x t' p'.
Proof. intros [H1 H2] Hx (H3 & H4 & H5). split_and!; [|auto|done]. intros id Hid. rewrite H3 by congruence. auto. Qed.

Lemma fresh_between t x : fresh t x -> st x = streamDone \/ failed t -> between t x.
Proof. intros [H1 H2] H3. unfold between. rewrite H1. auto. Qed.

Lemma begun_between t x : begun t x -> between t x.
Proof. intros [H1 H2]. unfold between. rewrite H1. intuition. Qed.

Lemma header_own s k t x t' p' :
  streams t !! s = Some x -> fresh t x ->
  (forall t1, begun t1 x -> phase t1 s x k /\ (finished k = true -> between t1 x)) ->
  writeHeaderLocked FindCompressorName s k t = Some (t', p') -> own_step t s x t' p'.
Proof.
  intros Hs Hfr Hk E. unfold writeHeaderLocked in E. rewrite Hs in E. cbn [mbind option_bind] in E.
  set (it := HeaderFrame _) in E.
  destruct (execute_cases (checkForHeaderListSize (response_fields FindCompressorName x)) it t)
    as [(e & He & Er)|[(He & _ & b & Er & Hb)|(He & _ & b & Er & Hb)]]; cbv zeta in Er; rewrite Er in E; cbn [fst snd] in E; injection E as <- <-.
  - apply own_stay; [done|]. split; [done|]. intros _. apply fresh_between; [done|]. right. unfold failed. by rewrite He.
  - eapply own_same; [|exact Hs|].
    + split; [done|]. intros Hf. by destruct Hf.
    + split; [|done]. cbn [phase returns]. destruct Hfr as [H1 H2]. split_and!; try done. by right.
  - split_and!; [|by intros []|].
    + intros id Hid. rewrite response_app. cbn. rewrite (proj2 (Z.eqb_neq _ _)) by congruence. apply app_nil_r.
    + exists x. split; [exact Hs|]. intros _. apply Hk. destruct Hfr as [H1 H2]. split; [done|]. left. unfold resp in *.
      rewrite response_app, H2. cbn. rewrite Z.eqb_refl. cbn. eexists _, []. split_and!; [done|apply response_initial|constructor].
Qed.

Lemma put_own it t s x p' :
  streams t !! s = Some x ->
  (forall id, id <> sid x -> part_of id it = None) ->
  (failed t -> phase t s x p' /\ (finished p' = true -> between t x)) ->
  (forall t1, resp t1 x = resp t x ++ omap (part_of (sid x)) [it] -> ControlBuffer.err (cb t) = None ->
     phase t1 s x p' /\ (finished p' = true -> between t1 x)) ->
  own_step t s x (snd (put_item it t)) p'.
Proof.
  intros Hs Hit H1 H2. destruct (put_cases it t) as [[Hf ->]|[E (b & -> & Hb)]]; cbn [snd].
  - apply own_stay; auto.
  - split_and!; [|by intros []|].
    + intros id Hid. rewrite response_app. cbn. rewrite Hit by done. apply app_nil_r.
    + exists x. split; [exact Hs|]. intros _. apply H2; [|done]. apply response_app.
Qed.

Lemma trail_between t x fs : can_trail t x fs -> st x = streamDone -> between t x.
Proof. intros (H1 & _ & H2) H3. unfold between. rewrite H1. intuition. Qed.

Lemma trail_own s rst fs t x :
  streams t !! s = Some x -> can_trail t x fs -> st x = streamDone ->
  own_step t s x (snd (put_item (trailing_item s rst fs t) t)) (Finished RNone).
Proof.
  intros Hs Hc Hd. assert (Hid : id_of s t = sid x) by (unfold id_of; by rewrite Hs). apply put_own; [done| | |].
  - intros id Hne. cbn. rewrite Hid, (proj2 (Z.eqb_neq _ _)) by congruence. done.
  - intros _. split; [done|]. intros _. by eapply trail_between.
  - intros t1 Hr He. split; [done|]. intros _. destruct Hc as (H1 & H2 & H3). unfold between. rewrite H1, Hr.
    cbn. rewrite Hid, Z.eqb_refl. cbn. right. right. split; [|done].
    destruct H3 as [[Ho Ht]|[H0 [Hi|Hf]]]; [right; by eexists _, _|left|by destruct Hf]. rewrite H0. by eexists.
Qed.

Lemma data_own s h d t x k :
  streams t !! s = Some x -> begun t x -> returns k ->
  own_step t s x (snd (put_item (ControlBuf.DataFrame (ControlBuf.mkData (id_of s t) false h d (Some 0))) t)) k.
Proof.
  intros Hs Hc Hk. assert (Hid : id_of s t = sid x) by (unfold id_of; by rewrite Hs). destruct k; try done. apply put_own; [done| | |].
  - intros id Hne. cbn. rewrite Hid, (proj2 (Z.eqb_neq _ _)) by congruence. done.
  - intros _. split; [done|]. intros _. by apply begun_between.
  - intros t1 Hr He. split; [done|]. intros _. apply begun_between. destruct Hc as [H1 [Ho|[_ Hf]]]; [|by destruct Hf].
    split; [done|]. left. rewrite Hr. cbn. rewrite Hid, Z.eqb_refl. cbn. by apply open_data.
Qed.

Lemma own_panic t s x : streams t !! s = Some x -> own_step t s x t Panicked.
Proof. intros Hs. split_and!; [done..|]. exists x. by split. Qed.

(** The stages that leave the response alone and change at most [reason] or the metadata. *)
Lemma own_keep t s x f p' :
  streams t !! s = Some x -> sid (f x) = sid x -> sent (f x) = sent x -> st (f x) = st x ->
  (phase t s x p' /\ (finished p' = true -> between t x)) -> own_step t s x (upd s f t) p'.
Proof.
  intros Hs H1 H2 H3 [Hp Hb]. assert (kept_by t x (upd s f t) (f x)) as K.
  { split; [|done|done|congruence]. unfold resp. rewrite H1. done. }
  apply own_upd; [done|]. split; [by eapply phase_mono|]. intros Hf. eapply between_mono; eauto.
Qed.

Lemma cancel_fields c x x' : CancelWithReason c x = Some x' -> sid x' = sid x /\ sent x' = sent x /\ st x' = st x.
Proof. unfold CancelWithReason. intros E. destruct (reason x); [destruct (same_type _ _)|]; by simplify_eq. Qed.

Lemma own_cancel c t s x x' p' :
  streams t !! s = Some x -> CancelWithReason c x = Some x' ->
  (phase t s x p' /\ (finished p' = true -> between t x)) -> own_step t s x (upd s (fun _ => x') t) p'.
Proof. intros Hs E Hp. apply cancel_fields in E as (H1 & H2 & H3). by apply own_keep. Qed.

#[local] Ltac stay := apply own_stay; [done|]; cbn [phase finished]; unfold begun, fresh, between, returns, header_then in *; intuition (try congruence).

Lemma close_own now t s x p t' p' :
  streams t !! s = Some x -> phase t s x p -> closeStream p now t = Some (t', p') -> own_step t s x t' p'.
Proof.
  intros Hs Hp E. destruct p; try done; cbn [phase] in Hp; destruct Hp as [-> Hp]; cbn [closeStream mbind option_bind] in E; rewrite ?Hs in E.
  - cbn in E. destruct (CancelWithReason c x) as [x'|] eqn:Ec; injection E as <- <-; [|by apply own_panic].
    eapply own_cancel; [done|exact Ec|]. done.
  - injection E as <- <-. apply own_upd; [done|]. split; [|done]. cbn [phase]. destruct Hp as (? & H1 & H2). split_and!; [done..|].
    unfold between. cbn [sent st set_st]. rewrite H1. change (resp (upd s (set_st streamDone) t) (set_st streamDone x)) with (resp t x). intuition.
  - injection E as <- <-. destruct (delete_same s now t) as [H1 H2]. eapply own_same; [done|by rewrite delete_streams|].
    split; [|done]. cbn [phase no_part]. destruct Hp as [Hk Hb]. split_and!; [done..|]. eapply between_mono; [|exact Hb]. split; try done. apply H1.
Qed.

Lemma finish_own t s x p t' p' :
  streams t !! s = Some x -> phase t s x p -> finishStream p t = Some (t', p') -> own_step t s x t' p'.
Proof.
  intros Hs Hp E. destruct p; try done; cbn [phase] in Hp; destruct Hp as [-> Hp]; cbn [finishStream mbind option_bind] in E; rewrite ?Hs in E; cbn in E.
  - injection E as <- <-. apply own_upd; [done|].
    assert (can_trail (upd s (set_st streamDone) t) (set_st streamDone x) hf) as Hc by exact Hp.
    case_decide; cbn [phase finished]; (split; [done|]); [|done]. intros _. by eapply trail_between.
  - destruct (CancelWithReason errBizHandlerReturn x) as [x'|] eqn:Ec; injection E as <- <-; [|by apply own_panic].
    eapply own_cancel; [done|exact Ec|]. done.
  - injection E as <- <-. destruct Hp. by apply trail_own.
Qed.

Lemma writeHeader_own t s x p t' p' :
  streams t !! s = Some x -> phase t s x p -> WriteHeader FindCompressorName p t = Some (t', p') -> own_step t s x t' p'.
Proof.
  intros Hs Hp E. destruct p; try done; cbn [phase] in Hp; destruct Hp as (-> & Hk & Hp); cbn [WriteHeader mbind option_bind] in E; rewrite ?Hs in E; cbn [mbind option_bind] in E.
  - injection E as <- <-. apply own_upd; [done|]. unfold between in Hp. destruct (sent x) eqn:Ex; cbn [phase finished].
    + split; [done|]. intros _. unfold between. cbn [sent st set_sent]. exact Hp.
    + split; [|done]. split_and!; [done..|]. by split.
  - injection E as <- <-. apply own_stay; [done|]. case_decide; cbn [phase finished]; (split; [done|]); [|done]. intros _. apply fresh_between; auto.
  - assert (forall t1 x1, begun t1 x1 -> phase t1 s x1 p /\ (finished p = true -> between t1 x1)) as Hk'.
    { intros t1 x1 H1. destruct p; try done; cbn [phase finished header_then] in *; auto using begun_between. }
    case_decide; [eapply header_own; [done|done| |exact E]; intros t1; apply Hk'|]. set (f := fun x => set_hdr _ x) in E.
    eapply (own_trans t (upd s f t) s x (f x)); [by apply same_log|done|].
    eapply header_own; [|by destruct Hp; split|intros t1; apply Hk'|exact E].
    cbn [upd streams set_streams]. by rewrite list_lookup_alter_eq, Hs.
Qed.

Lemma write_own c t s x p t' p' :
  streams t !! s = Some x -> phase t s x p -> Write p c t = Some (t', p') -> own_step t s x t' p'.
Proof.
  intros Hs Hp E. destruct p; try done; cbn [phase] in Hp; destruct Hp as (-> & Hp); cbn [Write mbind option_bind] in E; rewrite ?Hs in E; cbn [mbind option_bind] in E.
  - injection E as <- <-. destruct (sent x) eqn:Ex; stay.
  - injection E as <- <-. destruct Hp as [Hx Hp]. unfold between in Hp. rewrite Hx in Hp. case_decide; stay; rewrite Hx; auto.
  - assert (own_step t s x t (WPut s h d)) as Hput by stay.
    assert (own_step t s x t (Finished (RErr (ContextErr x)))) as Hctx.
    { apply own_stay; [done|]. split; [done|]. intros _. by apply begun_between. }
    destruct c; try (injection E as <- <-; exact Hput). destruct (ctx_err x); [|done]. injection E as <- <-. exact Hctx.
  - destruct (put_item _ t) as [e t1] eqn:Ep. injection E as <- <-.
    assert (t1 = snd (e, t1)) as -> by done. rewrite <- Ep. apply data_own; [done..|]. by destruct e.
Qed.

Lemma writeStatus_own t s x p t' p' :
  streams t !! s = Some x -> phase t s x p -> WriteStatus FindCompressorName p t = Some (t', p') -> own_step t s x t' p'.
Proof.
  intros Hs Hp E. destruct p; try done; cbn [phase] in Hp; destruct Hp as (-> & Hp); cbn [WriteStatus mbind option_bind] in E; rewrite ?Hs in E; cbn [mbind option_bind] in E.
  - injection E as <- <-. unfold between in Hp. case_decide; destruct (sent x) eqn:Ex; stay; rewrite Ex; auto.
  - injection E as <- <-. apply own_upd; [done|]. destruct Hp as [[Hx Hr]|[Hx Hr]]; rewrite Hx; (split; [|done]); cbn [phase]; (split; [done|]); by split.
  - case_decide.
    + injection E as <- <-. stay.
    + eapply header_own; [done|exact Hp| |exact E]. intros t1 H1. split; [by split|done].
  - destruct (trailer_block only a x) as [Hg Hb]. cbv zeta in Hg, Hb.
    assert (sent x = true /\ (open (resp t x) \/ resp t x = [])) as [Hx Hr].
    { destruct only; unfold fresh, begun in Hp; intuition. }
    unfold ControlBuffer.execute in E. destruct (ControlBuffer.err (cb t)) as [e|] eqn:He.
    + injection E as <- <-. apply own_stay; [done|]. split; [done|]. intros _. apply begun_between. split; [done|].
      assert (failed t) by (unfold failed; by rewrite He). intuition.
    + destruct (checkForHeaderListSize _ t); injection E as <- <-; [|stay].
      apply own_stay; [done|]. split; [|done]. cbn [phase]. split; [done|]. split; [exact Hx|]. split; [exact Hg|].
      destruct only; unfold fresh, begun in Hp; intuition.
  - injection E as <- <-. stay.
Qed.

Lemma setMD_own t s x p t' p' :
  streams t !! s = Some x -> phase t s x p -> SetMD p t = Some (t', p') -> own_step t s x t' p'.
Proof.
  intros Hs Hp E. destruct p; try done; cbn [phase] in Hp; destruct Hp as (-> & Hp); cbn [SetMD mbind option_bind] in E; rewrite ?Hs in E; cbn [mbind option_bind] in E;
    injection E as <- <-; first [by apply own_keep | apply own_stay; [done|]; by repeat case_match].
Qed.

Lemma exec_own c now t s x p t' p' :
  streams t !! s = Some x -> phase t s x p -> exec c now t p = Some (t', p') -> own_step t s x t' p'.
Proof.
  intros Hs Hp E. destruct p; try done; cbn [ServerTransport.exec] in E;
    first [by eapply close_own | by eapply finish_own | by eapply writeHeader_own | by eapply write_own | by eapply writeStatus_own | by eapply setMD_own | idtac].
  injection E as <- <-. destruct Hp as (Hit & Hk & Hb). destruct p; try done. destruct (put_same it t Hit) as [H1 H2].
  eapply own_same; [done|by rewrite put_streams|]. split; [done|]. intros _. eapply between_mono; [|exact Hb]. split; try done. apply H1.
Qed.

(** * The invariant *)

Record resp_inv (y : sys) : Prop := mkResp {
  ri_own : forall i s p, threads y !! i = Some (Some s, p) -> exists x, streams (tr y) !! s = Some x /\ phase (tr y) s x p;
  ri_quiet : forall i p, threads y !! i = Some (None, p) -> all_pc quiet p;
  ri_one : forall i j s p q, threads y !! i = Some (Some s, p) -> threads y !! j = Some (Some s, q) ->
    finished p = false -> finished q = false -> i = j;
  ri_idle : forall s x, streams (tr y) !! s = Some x ->
    (exists i p, threads y !! i = Some (Some s, p) /\ finished p = false) \/ between (tr y) x;
  ri_ids : forall id, id ∉ sid <$> streams (tr y) -> response id (tr y) = []
}.

Lemma inv_legal y : resp_inv y -> Forall (fun x => legal (response (sid x) (tr y))) (streams (tr y)).
Proof.
  intros Hy. apply Forall_lookup. intros s x Hs. destruct (ri_idle _ Hy s x Hs) as [(i & p & Hi & Hf)|Hb]; [|by apply between_legal].
  destruct (ri_own _ Hy _ _ _ Hi) as (x' & Hx' & Hp). simplify_eq. by eapply phase_legal.
Qed.

Lemma phase_marks t s x p s' : phase t s x p -> marks p s' -> s' = s.
Proof. destruct p; cbn; try done; by intros [-> _] <-. Qed.

Lemma quiet_marks p s : quiet p -> ~ marks p s.
Proof. intros [Hq _] Hm. by destruct p. Qed.

Lemma exec_sids c now t p t' p' : exec c now t p = Some (t', p') -> forall id, id ∈ sid <$> streams t -> id ∈ sid <$> streams t'.
Proof.
  intros E id Hid. apply list_elem_of_fmap in Hid as (x & -> & Hx). apply list_elem_of_lookup in Hx as [s Hs].
  destruct (exec_rel _ _ _ _ _ _ E s x Hs) as (x' & Hx' & R). rewrite <- (sr_sid _ _ _ _ R). apply list_elem_of_fmap. exists x'. split; [done|].
  by eapply list_elem_of_lookup_2.
Qed.

(** A step of another goroutine. *)
Lemma rest_kept c now t p t' p' s x :
  exec c now t p = Some (t', p') -> streams t !! s = Some x -> ~ marks p s -> response (sid x) t' = response (sid x) t ->
  (failed t -> failed t') -> exists x', streams t' !! s = Some x' /\ sid x' = sid x /\ kept_by t x t' x'.
Proof.
  intros E Hs Hm Hr Hf. destruct (exec_rel _ _ _ _ _ _ E s x Hs) as (x' & Hx' & [R1 _ R3 _ R5 _]). exists x'. split_and!; [done|done|].
  split; [unfold resp; by rewrite R1|done| |done]. by destruct R5 as [?|[_ ?]].
Qed.

Lemma sid_inj t s s' x x' :
  core_ok (core_of t) -> streams t !! s = Some x -> streams t !! s' = Some x' -> sid x = sid x' -> s = s'.
Proof.
  intros Hok H1 H2 E. assert (NoDup (sid <$> streams t)) as Hn.
  { pose proof (ok_sorted _ Hok) as Hs. cbn [core_of c_ids] in Hs. clear - Hs. induction Hs as [|k l _ IH Hall]; constructor; [|done].
    intros Hin. rewrite Forall_forall in Hall. specialize (Hall _ Hin). lia. }
  eapply NoDup_lookup; [exact Hn| |]; rewrite list_lookup_fmap, ?H1, ?H2; cbn; by rewrite ?E.
Qed.

(** The system after a step of goroutine [i]. *)
Lemma resp_change i o p t' p' ys y :
  resp_inv y -> threads y !! i = Some (o, p) -> finished p = false ->
  (forall s x, o <> Some s -> streams (tr y) !! s = Some x -> exists x', streams t' !! s = Some x' /\ kept_by (tr y) x t' x') ->
  (forall s, o = Some s -> exists x', streams t' !! s = Some x' /\ phase t' s x' p' /\ (finished p' = true -> between t' x')) ->
  (o = None -> all_pc quiet p') ->
  (forall s x', streams (tr y) !! s = None -> streams t' !! s = Some x' -> between t' x') ->
  (forall id, id ∉ sid <$> streams t' -> response id t' = []) ->
  Forall (all_pc quiet) ys ->
  resp_inv (mkSys t' (<[i := (o, p')]> (threads y) ++ (pair None <$> ys))).
Proof.
  intros [Hown Hquiet Hone Hidle Hids] Hi Hf F1 F2 F3 F4 F5 F6.
  assert (Hlook : forall j z, (<[i := (o, p')]> (threads y) ++ (pair None <$> ys)) !! j = Some z ->
    (j = i /\ z = (o, p')) \/ (j <> i /\ threads y !! j = Some z) \/ exists q, z = (None, q) /\ all_pc quiet q).
  { intros j z Hj. apply lookup_app_Some in Hj as [Hj|[_ Hj]].
    - destruct (decide (j = i)) as [->|Hne]; [|rewrite list_lookup_insert_ne in Hj by done; auto].
      rewrite list_lookup_insert_eq in Hj by (by eapply lookup_lt_Some). left. by simplify_eq.
    - do 2 right. apply list_lookup_fmap_Some in Hj as (q & -> & Hq). exists q. split; [done|]. by eapply Forall_lookup_1. }
  split; cbn [tr threads].
  - intros j s q Hj. destruct (Hlook _ _ Hj) as [[-> [= <- <-]]|[[Hne Hj']|(q' & [=] & _)]]; [destruct (F2 s eq_refl) as (x' & ? & ? & _); eauto|].
    destruct (Hown _ _ _ Hj') as (x & Hx & Hp). destruct (decide (o = Some s)) as [->|Ho].
    + destruct (finished q) eqn:Hq; [|by destruct Hne; eapply Hone]. destruct (F2 s eq_refl) as (x' & Hx' & _). exists x'. split; [done|].
      by destruct q.
    + destruct (F1 s x Ho Hx) as (x' & Hx' & K). exists x'. split; [done|]. by eapply phase_mono.
  - intros j q Hj. destruct (Hlook _ _ Hj) as [[-> [= <- <-]]|[[Hne Hj']|(q' & [= ->] & Hq)]]; [by apply F3|by eapply Hquiet|done].
  - intros j k s q q' Hj Hk Hq Hq'.
    destruct (Hlook _ _ Hj) as [[-> E1]|[[_ Hj']|(? & [=] & _)]], (Hlook _ _ Hk) as [[-> E2]|[[_ Hk']|(? & [=] & _)]];
      simplify_eq; try done; by eapply Hone.
  - intros s x' Hx'. destruct (streams (tr y) !! s) as [x|] eqn:Hx; [|right; by eapply F4].
    assert (Hin : forall j q, j <> i -> threads y !! j = Some (Some s, q) -> (<[i := (o, p')]> (threads y) ++ (pair None <$> ys)) !! j = Some (Some s, q)).
    { intros j q Hne Hj. apply lookup_app_l_Some. by rewrite list_lookup_insert_ne. }
    destruct (decide (o = Some s)) as [->|Ho].
    + destruct (F2 s eq_refl) as (x1 & Hx1 & Hp & Hb). simplify_eq. destruct (finished p') eqn:Hfp; [right; auto|left].
      exists i, p'. split; [|done]. apply lookup_app_l_Some, list_lookup_insert_eq. by eapply lookup_lt_Some.
    + destruct (Hidle s x Hx) as [(j & q & Hj & Hq)|Hb].
      * left. exists j, q. split; [|done]. apply Hin; [|done]. intros ->. simplify_eq.
      * right. destruct (F1 s x Ho Hx) as (x1 & Hx1 & K). simplify_eq. by eapply between_mono.
  - done.
Qed.

Lemma spawned_quiet p c : Forall (all_pc quiet) (spawned p c).
Proof. destruct p, c; cbn; by repeat constructor. Qed.

Lemma resp_run i c now o p t' p' y :
  core_ok (core_of (tr y)) -> core_ok (core_of t') -> resp_inv y -> threads y !! i = Some (o, p) ->
  exec c now (tr y) p = Some (t', p') -> p' <> Panicked ->
  resp_inv (mkSys t' (<[i := (o, p')]> (threads y) ++ (pair None <$> spawned p c))).
Proof.
  intros Hok Hok' Hy Hi E Hnp. assert (Hf : finished p = false) by (by destruct p). destruct o as [s0|].
  - destruct (ri_own _ Hy _ _ _ Hi) as (x0 & Hx0 & Hp). destruct (exec_own _ _ _ _ _ _ _ _ Hx0 Hp E) as (H1 & H2 & x' & Hx' & Hp').
    eapply resp_change; [done|exact Hi|done|..].
    + intros s x Hne Hx. destruct (rest_kept _ _ _ _ _ _ s x E Hx) as (x1 & ? & ? & ?); [| |done|by exists x1].
      * intros Hm. by rewrite (phase_marks _ _ _ _ _ Hp Hm) in Hne.
      * apply H1. intros Hid. by rewrite (sid_inj _ _ _ _ _ Hok Hx Hx0 Hid) in Hne.
    + intros s [= <-]. exists x'. auto.
    + done.
    + intros s x1 Hn Hs. destruct (exec_new _ _ _ _ _ _ _ _ E Hn Hs) as (? & ? & ? & -> & _). done.
    + intros id Hid. assert (Hid' : id ∉ sid <$> streams (tr y)) by (intros Hin; by apply Hid, (exec_sids _ _ _ _ _ _ E)).
      rewrite H1; [by apply (ri_ids _ Hy)|]. intros ->. apply Hid'. apply list_elem_of_fmap. exists x0. split; [done|]. by eapply list_elem_of_lookup_2.
    + apply spawned_quiet.
  - pose proof (ri_quiet _ Hy _ _ Hi) as Hq. destruct (exec_quiet _ _ _ _ _ _ Hq E) as [Hq' [H1 H2]].
    eapply resp_change; [done|exact Hi|done|..]; [|done|done| | |apply spawned_quiet].
    + intros s x _ Hx. destruct (rest_kept _ _ _ _ _ _ s x E Hx) as (x1 & ? & ? & ?); [|done|done|by exists x1].
      by apply quiet_marks, all_pc_here.
    + intros s x' Hn Hs. destruct (exec_new _ _ _ _ _ _ _ _ E Hn Hs) as (id & ended & d & -> & _ & -> & _). unfold between. cbn [sent newStream].
      unfold resp. rewrite H1. cbn [sid newStream]. apply (ri_ids _ Hy).
      intros (x & Hid & Hx)%list_elem_of_fmap. apply list_elem_of_lookup in Hx as [k Hk].
      destruct (exec_rel _ _ _ _ _ _ E k x Hk) as (x' & Hk' & R).
      assert (k = s) as <- by (eapply (sid_inj t'); [done..|]; cbn [sid newStream]; by rewrite (sr_sid _ _ _ _ R)). congruence.
    + intros id Hid. rewrite H1. apply (ri_ids _ Hy). intros Hin. by apply Hid, (exec_sids _ _ _ _ _ _ E).
Qed.

Lemma writer_failed c t t' x' : writer_next c t = Some (t', x') -> failed t -> failed t'.
Proof.
  intros E Hf. unfold writer_next, mbind, option_bind in E. unfold failed in *.
  assert (ControlBuffer.get_iter true (cb t) = Some (ControlBuffer.GErr (default ErrConnClosing (ControlBuffer.err (cb t))), cb t)) as Eg.
  { unfold ControlBuffer.get_iter. by destruct (ControlBuffer.err (cb t)). }
  rewrite Eg in E. destruct c; try (by injection E as <- <-). destruct (doneClosed t); [|done]. injection E as <- <-.
  by apply (finish_resp ErrConnClosing t).
Qed.

Lemma start_quiet o i bdp calc now : all_pc quiet (start_other o) /\ all_pc quiet (HandleStreams i bdp calc now).
Proof.
  split; [by destruct o|]. destruct i as [[]| | | |]; cbn [HandleStreams]; unfold handlePing; repeat case_match; by cbn.
Qed.

Lemma send_phase t s x o : between t x -> phase t s x (send_op s o).
Proof. intros Hb. destruct o; cbn [send_op]; try case_decide; by cbn. Qed.

Lemma sender_free_spec s xs i p : sender_free s xs = true -> xs !! i = Some (Some s, p) -> finished p = true.
Proof.
  intros Hf Hi. unfold sender_free in Hf. rewrite forallb_forall in Hf. specialize (Hf (Some s, p)).
  rewrite bool_decide_true in Hf by done. apply Hf. apply list_elem_of_In. by eapply list_elem_of_lookup_2.
Qed.

(** The system after any other event. *)
Lemma resp_same y y' :
  resp_inv y -> (forall s x, streams (tr y) !! s = Some x -> exists x', streams (tr y') !! s = Some x' /\ kept_by (tr y) x (tr y') x') ->
  sid <$> streams (tr y') = sid <$> streams (tr y) -> (forall id, response id (tr y') = response id (tr y)) ->
  threads y' = threads y -> resp_inv y'.
Proof.
  intros [Hown Hquiet Hone Hidle Hids] F1 F2 F3 F4. split; rewrite ?F4; try done.
  - intros i s p Hi. destruct (Hown _ _ _ Hi) as (x & Hx & Hp). destruct (F1 s x Hx) as (x' & Hx' & K). exists x'. split; [done|]. by eapply phase_mono.
  - intros s x' Hx'. destruct (streams (tr y) !! s) as [x|] eqn:Hx.
    + destruct (F1 s x Hx) as (x1 & Hx1 & K). simplify_eq. destruct (Hidle s x Hx) as [?|Hb]; [by left|right]. by eapply between_mono.
    + assert ((sid <$> streams (tr y')) !! s = None) as Hn by (by rewrite F2, list_lookup_fmap, Hx). by rewrite list_lookup_fmap, Hx' in Hn.
  - intros id. rewrite F2, F3. auto.
Qed.

(** A goroutine is added, or one that is idle starts. *)
Lemma resp_start t i xs q :
  resp_inv (mkSys t xs) -> xs !! i = Some (None, Idle) -> all_pc quiet q -> resp_inv (mkSys t (<[i := (None, q)]> xs)).
Proof.
  intros [Hown Hquiet Hone Hidle Hids] Hi Hq. cbn [tr threads] in *.
  assert (Hs : forall j s p, <[i := (None, q)]> xs !! j = Some (Some s, p) <-> xs !! j = Some (Some s, p)).
  { intros j s p. destruct (decide (j = i)) as [->|]; [|by rewrite list_lookup_insert_ne].
    rewrite list_lookup_insert_eq by (by eapply lookup_lt_Some). rewrite Hi. naive_solver. }
  split; cbn [tr threads].
  - intros j s p Hj%Hs. eauto.
  - intros j p Hj. destruct (decide (j = i)) as [->|]; [|rewrite list_lookup_insert_ne in Hj by done; eauto].
    rewrite list_lookup_insert_eq in Hj by (by eapply lookup_lt_Some). by simplify_eq.
  - intros j k s p p' Hj%Hs Hk%Hs. eauto.
  - intros s x Hx. destruct (Hidle s x Hx) as [(j & p & Hj & Hp)|?]; [left|by right]. exists j, p. by rewrite Hs.
  - done.
Qed.

Lemma resp_add t xs o q :
  resp_inv (mkSys t xs) ->
  match o with
  | Some s => sender_free s xs = true /\ exists x op, streams t !! s = Some x /\ q = send_op s op
  | None => all_pc quiet q
  end -> resp_inv (mkSys t (xs ++ [(o, q)])).
Proof.
  intros [Hown Hquiet Hone Hidle Hids] Hq. cbn [tr threads] in *.
  assert (Hlook : forall j z, (xs ++ [(o, q)]) !! j = Some z -> xs !! j = Some z \/ j = length xs /\ z = (o, q)).
  { intros j z [Hj|[Hlen Hj]]%lookup_app_Some; [by left|right]. apply list_lookup_singleton_Some in Hj as [? <-]. split; [lia|done]. }
  split; cbn [tr threads].
  - intros j s p Hj. destruct (Hlook _ _ Hj) as [Hj'|[-> [= <- <-]]]; [eauto|]. destruct Hq as (Hf & x & op & Hx & ->). exists x. split; [done|].
    apply send_phase. destruct (Hidle s x Hx) as [(i & p & Hi & Hp)|?]; [|done]. by rewrite (sender_free_spec _ _ _ _ Hf Hi) in Hp.
  - intros j p Hj. destruct (Hlook _ _ Hj) as [Hj'|[-> [= <- <-]]]; eauto.
  - intros j k s p p' Hj Hk Hp Hp'.
    destruct (Hlook _ _ Hj) as [Hj'|[-> E1]], (Hlook _ _ Hk) as [Hk'|[-> E2]]; simplify_eq; eauto; destruct Hq as [Hf _];
      exfalso; [rewrite (sender_free_spec _ _ _ _ Hf Hj') in Hp|rewrite (sender_free_spec _ _ _ _ Hf Hk') in Hp']; done.
  - intros s x Hx. destruct (Hidle s x Hx) as [(j & p & Hj & Hp)|?]; [left|by right]. exists j, p. split; [|done]. by apply lookup_app_l_Some.
  - done.
Qed.

Lemma resp_step l y y' : safe_inv y -> safe_inv y' -> resp_inv y -> lstep l y = Some y' -> resp_inv y'.
Proof.
  intros Hsafe Hsafe' Hy E.
  apply lstep_cases in E as [(i & o & x & c & now & t' & x' & Hi & Ex & -> & ->)|(Ec & Ea & f & s & Hctx & Es & Ht)].
  { eapply resp_run; [apply Hsafe|apply Hsafe'|done..|]. intros ->. pose proof (si_pcs _ Hsafe') as Hp. cbn [threads] in Hp.
    apply Forall_app in Hp as [Hp _]. eapply (Forall_lookup_1 _ _ i (o, Panicked)) in Hp; [by apply all_pc_here in Hp|].
    apply list_lookup_insert_eq. by eapply lookup_lt_Some. }
  assert (Hfail : failed (tr y) -> failed (tr y')).
  { unfold failed. destruct Ht as [(?&?&?&_&_&_&_&_&[-> _])|[(?&_&_&[-> _])|[(?&?&?&?&?&_&_&_&[-> _])|[(x & o & _ & _ & _ & Hw)|[_ [-> _]]]]]]; try done.
    destruct Hw as [[c Hw]|[i Hw]]; [by eapply writer_failed|]. unfold write_kept in Hw. destruct (kept (tr y) !! i); [|done]. by injection Hw as <- <-. }
  assert (Hy' : resp_inv (mkSys (tr y') (threads y))).
  { eapply resp_same; [exact Hy|..]; cbn [tr threads]; [|by change (c_ids (core_of (tr y')) = c_ids (core_of (tr y))); rewrite Ec|by unfold response; rewrite Ea|done].
    intros k x Hx. assert (Hr : forall x, sid (f x) = sid x /\ sent (f x) = sent x /\ st (f x) = st x) by (intros z; by rewrite <- (Hctx z) at 2 4 6).
    rewrite Es. destruct (decide (k = s)) as [->|]; [rewrite list_lookup_alter_eq, Hx|rewrite list_lookup_alter_ne, Hx by done]; eexists; (split; [done|]).
    - destruct (Hr x) as (R1 & R2 & R3). split; [unfold resp, response; by rewrite Ea, R1|done|done|by rewrite R3].
    - split; try done. unfold resp, response. by rewrite Ea. }
  destruct y' as [t1 xs1]. cbn [tr threads] in *.
  destruct Ht as [(s' & o & x & _ & Hs & _ & Hfree & -> & _)|[(o & _ & -> & _)|[(i & bdp & calc & now & o & _ & Hi & -> & _)|[(x & o & Hi & Hx & -> & _)|[-> _]]]]].
  - apply resp_add; [done|]. split; [done|]. rewrite Es.
    destruct (decide (s' = s)) as [->|]; [rewrite list_lookup_alter_eq, Hs|rewrite list_lookup_alter_ne, Hs by done]; by eexists _, _.
  - apply resp_add; [done|]. apply (start_quiet o IEOF true None 0).
  - assert (o = None) as -> by (destruct o as [k|]; [|done]; by destruct (ri_own _ Hy _ _ _ Hi) as (? & _ & ?)).
    apply resp_start; [done..|]. apply (start_quiet OClose).
  - assert (o = None) as -> by (destruct o as [k|]; [|done]; by destruct (ri_own _ Hy _ _ _ Hi) as (? & _ & ?)).
    apply resp_start; [done..|]. by destruct x.
  - done.
Qed.

Lemma serve_accepted config preface first now y0 id : serve config preface first now = Some y0 -> response id (tr y0) = [].
Proof.
  unfold serve, handshake, mbind, option_bind. intros E. destruct (text_eqb preface ClientPreface); [|done].
  destruct first as [[]| | | |]; try done. injection E as <-. cbn [init tr].
  destruct (Has (Flags fh) FlagAck); [done|]. by rewrite (proj1 (settings_same _ _)).
Qed.


End spec.

(** * The client reads the status *)

Lemma values_of_map (l : list (text * list text)) k vv :
  NoDup (fst <$> l) -> (k, vv) ∈ l -> values k (l ≫= fun '(k, vv) => pair k <$> vv) = vv.
Proof.
  unfold values. assert (forall k' (ws : list text), filter (fun kv => fst kv = k) (pair k' <$> ws) = if decide (k' = k) then pair k' <$> ws else []) as Hf.
  { intros k' ws. induction ws as [|w ws IH]; [by case_decide|]. rewrite fmap_cons, filter_cons, IH. cbn [fst]. by case_decide. }
  assert (forall l : list (text * list text), k ∉ fst <$> l -> filter (fun kv => fst kv = k) (l ≫= fun '(k, vv) => pair k <$> vv) = []) as Hn.
  { clear l. induction l as [|[k' ws] l IH]; intros Hk; [done|]. rewrite fmap_cons, not_elem_of_cons in Hk. destruct Hk as [Hk Hl].
    rewrite bind_cons, filter_app, Hf, IH, decide_False by (cbn in Hk; congruence). done. }
  induction l as [|[k' ws] l IH]; intros Hnd Hin; [by apply not_elem_of_nil in Hin|]. rewrite fmap_cons in Hnd. apply NoDup_cons in Hnd as [Hk' Hnd].
  rewrite bind_cons, filter_app, Hf, fmap_app. apply elem_of_cons in Hin as [[= <- <-]|Hin].
  - rewrite decide_True, Hn by done. rewrite fmap_nil, app_nil_r, <- list_fmap_compose. apply list_fmap_id.
  - rewrite decide_False; [by rewrite IH|]. intros ->. apply Hk', list_elem_of_fmap. by exists (k, vv).
Qed.

Definition md_pairs (md : MD) : list (text * text) := map_to_list md ≫= fun '(k, vv) => pair k <$> vv.

Lemma md_values md k : values k (md_pairs md) = default [] (md !! k).
Proof.
  unfold md_pairs. destruct (md !! k) as [vv|] eqn:E.
  - apply values_of_map; [apply NoDup_fst_map_to_list|by apply elem_of_map_to_list].
  - unfold values. cbn. assert (forall kv, kv ∈ md_pairs md -> fst kv <> k) as Hne.
    { intros kv Hkv. apply list_elem_of_bind in Hkv as ([k' vv] & Hkv & Hin). apply elem_of_map_to_list in Hin.
      apply list_elem_of_fmap in Hkv as (v & -> & _). cbn. congruence. }
    fold (md_pairs md). induction (md_pairs md) as [|kv l IH]; [done|]. rewrite filter_cons, decide_False by (apply Hne; left).
    apply IH. intros kv' Hin. apply Hne. by right.
Qed.

Section status.
Context {HL : HeaderLib}.

#[local] Abbreviation process := (foldl (fun d f => processHeaderField f d)).

(** What the status fields leave of the decoded data. *)
Definition status_read (a : statusArgs) (s : status) (d d' : parsedHeaderData) : Prop :=
  isGRPC d' = isGRPC d /\ mdata d' = mdata d /\ grpcErr d' = grpcErr d /\ rawStatusCode d' = Some (a_code a) /\ rawStatusMsg d' = a_msg a /\
  statusGen d' = (match a_details a with Some _ => Some s | None => statusGen d end) /\
  bizStatus d' = bizStatus d /\ bizStatusCode d' = (match a_biz a with Some (code, _) => Some code | None => bizStatusCode d end) /\
  bizStatusExtra d' = match a_biz a with Some (_, Some json) => default ∅ (JSONStr2Map json) | _ => bizStatusExtra d end.

(** The arguments of WriteStatus the client can read back; [s]: what the details decode to. *)
Record readable (a : statusArgs) (s : status) : Prop := mkReadable {
  rd_code : 0 <= a_code a < 2 ^ 31;
  rd_msg : Valid (a_msg a) = true;
  rd_biz : forall code extra, a_biz a = Some (code, extra) -> - 2 ^ 31 <= code < 2 ^ 31;
  rd_extra : forall code json, a_biz a = Some (code, Some json) -> is_Some (JSONStr2Map json);
  rd_details : forall b, a_details a = Some b -> UnmarshalStatus b = Some s
}.

Lemma process_status_fields a s d : readable a s -> status_read a s d (process d (status_fields a)).
Proof.
  intros [H1 H2 H3 H4 H5]. unfold status_fields. rewrite !foldl_app. cbn [foldl].
  change (processHeaderField (bs "grpc-message", ?v) ?d) with (set_rawStatusMsg (decodeGrpcMessage v) d).
  rewrite (proj2 (proj2 (grpc_message_roundtrip (a_msg a))) H2).
  assert (forall v d, processHeaderField (bs "grpc-status", v) d =
    match ParseInt v with None => set_grpcErr (Some MalformedGrpcStatus) d | Some code => set_rawStatusCode (Some code) d end) as -> by done.
  rewrite ParseInt_FormatInt by lia. set (d1 := set_rawStatusMsg _ _).
  set (d2 := foldl _ d1 _). assert (d2 = match a_biz a with
    | Some (code, extra) => let d := set_bizStatusCode (Some code) d1 in
        match extra with Some json => set_bizStatusExtra (default ∅ (JSONStr2Map json)) d | None => d end
    | None => d1 end) as ->.
  { subst d2. destruct (a_biz a) as [[code extra]|] eqn:Eb; [|done]. specialize (H3 _ _ eq_refl). cbn [foldl].
    assert (forall v d, processHeaderField (bs "biz-status", v) d =
      match ParseInt v with None => set_grpcErr (Some MalformedBizStatus) d | Some code => set_bizStatusCode (Some code) d end) as -> by done.
    rewrite ParseInt_FormatInt by lia. destruct extra as [json|]; [|done]. destruct (H4 _ _ eq_refl) as [m Em]. cbn [foldl].
    assert (forall v d, processHeaderField (bs "biz-extra", v) d =
      match JSONStr2Map v with None => set_grpcErr (Some MalformedBizExtra) d | Some e => set_bizStatusExtra e d end) as -> by done.
    by rewrite Em. }
  destruct (a_details a) as [b|] eqn:Ed; cbn [foldl].
  - assert (forall v d, processHeaderField (bs "grpc-status-details-bin", v) d =
      match decodeBinHeader v with None => set_grpcErr (Some MalformedStatusDetails) d
      | Some v => match UnmarshalStatus v with None => set_grpcErr (Some MalformedStatusDetails) d | Some s => set_statusGen (Some s) d end end) as -> by done.
    rewrite bin_header_roundtrip, (H5 _ eq_refl). unfold status_read. rewrite Ed. by destruct (a_biz a) as [[? [?|]]|].
  - unfold status_read. rewrite Ed. by destruct (a_biz a) as [[? [?|]]|].
Qed.

Lemma safe_cast n : - 2 ^ 31 <= n < 2 ^ 31 -> safeCastInt32 n = Some n.
Proof. intros Hn. unfold safeCastInt32, MaxInt32. destruct (Z.ltb_spec (2 ^ 31 - 1) n), (Z.ltb_spec n (- 2 ^ 31)); done || lia. Qed.

(** C26: the client reads the status the handler returns.  The trailers WriteStatus makes, with
    or without the response headers in front, decode on the client without an error, to the
    code and the message of the status, or to its details when there are some, to the
    business error with its code and extras, and to exactly the trailing metadata, for every
    code from 0 to 2^31 - 1, every valid UTF-8 message, business errors with an int32 code
    and extras that parse, details that unmarshal, and metadata with ordinary keys. *)
Theorem client_reads_status only a x s :
  readable a s -> (forall k, is_Some (trl x !! k) -> user_key k) ->
  exists d d', decodeHeader false false (trailer_fields only a x) (set_isGRPC (negb only) data0) = (d, None) /\
    let s' := match a_details a with Some _ => s | None => mkStatus (a_code a) (a_msg a) [] end in
    status_ d = Some (s', d') /\ rawStatusMsg d = a_msg a /\
    (fst <$> bizStatusErr d) =
      Some ((fun '(code, extra) => (code, a_msg a, match extra with Some json => default ∅ (JSONStr2Map json) | None => ∅ end, s')) <$> a_biz a) /\
    forall k, user_key k -> default [] (mdata d !! k) = default [] (trl x !! k).
Proof.
  intros Hr Hk. unfold decodeHeader, trailer_fields. cbv zeta. rewrite !foldl_app.
  set (d0 := foldl _ _ (if only then _ else _)).
  assert (isGRPC d0 = true /\ grpcErr d0 = None /\ statusGen d0 = None /\ bizStatus d0 = None /\ bizStatusCode d0 = None /\
    bizStatusExtra d0 = ∅ /\ forall k, user_key k -> mdata d0 !! k = None) as (G1 & G2 & G3 & G4 & G5 & G6 & G7).
  { subst d0. destruct only; [|split_and!; try done; intros; apply lookup_empty]. cbn [foldl].
    change (processHeaderField (bs ":status", bs "200") ?d) with (set_httpStatus (Some 200) d). rewrite process_content_type.
    split_and!; try done. intros k (Hh & _). unfold addMetadata. cbn [mdata set_mdata set_isGRPC set_subtype set_httpStatus data0].
    rewrite lookup_insert_ne; [apply lookup_empty|]. intros <-. by revert Hh. }
  destruct (process_status_fields a s d0 Hr) as (S1 & S2 & S3 & S4 & S5 & S6 & S7 & S8 & S9). set (d1 := foldl _ d0 (status_fields a)) in *.
  assert (foldl (fun d f => processHeaderField f d) d1 (appendHeaderFieldsFromMD (trl x)) = set_mdata (add_fields (md_pairs (trl x)) (mdata d1)) d1) as ->.
  { unfold appendHeaderFieldsFromMD. rewrite md_fields_spec.
    - apply process_users. unfold md_pairs. apply Forall_bind, Forall_forall. intros [k vv] Hin%elem_of_map_to_list. apply Forall_fmap, Forall_forall.
      intros v _. apply Hk. eauto.
    - apply Forall_forall. intros [k vv] Hin%elem_of_map_to_list. apply Hk. eauto. }
  set (d := set_mdata _ d1).
  assert (isGRPC d = true /\ grpcErr d = None /\ rawStatusCode d = Some (a_code a)) as (T1 & T2 & T3) by (by rewrite <- G1, <- G2).
  rewrite T1, T2, T3. exists d. destruct (rd_code _ _ Hr) as [R1 R2].
  assert (Hst : exists d', status_ d = Some (match a_details a with Some _ => s | None => mkStatus (a_code a) (a_msg a) [] end, d') /\
    rawStatusMsg d' = a_msg a /\ bizStatusExtra d' = bizStatusExtra d).
  { unfold status_. change (statusGen d) with (statusGen d1). rewrite S6, T3. destruct (a_details a); [by exists d|]. rewrite G3. cbn [mbind option_bind].
    rewrite safe_cast by lia. cbn [mbind option_bind]. change (rawStatusMsg d) with (rawStatusMsg d1). rewrite S5. eexists. split; [done|]. by split. }
  destruct Hst as (d' & Ed & M1 & M2). exists d'. split; [done|]. split_and!; [done|done| |].
  - unfold bizStatusErr. change (bizStatus d) with (bizStatus d1). change (bizStatusCode d) with (bizStatusCode d1). rewrite S7, S8, G4, Ed.
    change (bizStatusExtra d) with (bizStatusExtra d1) in M2. rewrite S9, G6 in M2.
    destruct (a_biz a) as [[code extra]|] eqn:Eb; [|by rewrite G5]. pose proof (rd_biz _ _ Hr _ _ Eb).
    rewrite safe_cast by lia. cbn [mbind option_bind fmap option_map option_fmap fst]. rewrite M1, M2. by destruct extra.
  - intros k Hu. cbn [mdata set_mdata d]. subst d. cbn [mdata set_mdata]. rewrite add_fields_lookup, S2, G7, md_values by done. done.
Qed.

End status.
