(* ===== verification/ServerRuns.v ===== *)
(** Runs of a server connection (ServerTransport.v): an exchange with a client that keeps to
    the protocol, at which the theorems of ServerSpec.v, ServerClose.v and ServerResponse.v
    apply, and two frames of a client that does not, which make the reader panic. *)

From S2P Require Import Prelude GoText Loopy FlowControl HttpUtil Headers Frames ControlBuf ClientTransport ServerTransport ServerSpec ServerClose ServerResponse.

#[local] Instance plain_headers : HeaderLib := {| UnmarshalStatus := fun _ => None; JSONStr2Map := fun _ => Some ∅ |}.

#[local] Abbreviation lstep := (lstep (fun c => c) 0 false (mkKp 0 0 0)).
#[local] Abbreviation lrun := (lrun (fun c => c) 0 false (mkKp 0 0 0)).
#[local] Abbreviation reach := (reach (fun c => c) 0 false (mkKp 0 0 0)).

#[export] Instance legal_id_dec C id : Decision (legal_id C id).
Proof. unfold legal_id. apply _. Defined.

#[export] Instance polite_dec l y : Decision (polite l y).
Proof. destruct l as [| | |[[]| | | |]| | | |]; cbn [polite]; apply _. Defined.

Fixpoint all_polite (ls : list label) (y : sys) : bool :=
  match ls with
  | [] => true
  | l :: ls => bool_decide (polite l y) && match lstep l y with Some y => all_polite ls y | None => false end
  end.

Lemma polite_reach ls y0 y : all_polite ls y0 = true -> lrun ls y0 = Some y -> reach polite y0 y.
Proof.
  assert (forall ls y1, reach polite y0 y1 -> all_polite ls y1 = true -> lrun ls y1 = Some y -> reach polite y0 y) as Hgen; [|apply Hgen, reach_refl].
  clear ls. induction ls as [|l ls IH]; intros y1 R Hp E; [by injection E as <-|]. cbn [ServerTransport.lrun all_polite] in E, Hp.
  destruct (lstep l y1) as [y2|] eqn:E1; [|by rewrite andb_false_r in Hp]. apply andb_true_iff in Hp as [Hl Hp]. apply bool_decide_eq_true in Hl.
  eapply IH; [|exact Hp|exact E]. by eapply reach_step.
Qed.

Definition first_settings : input := IFrame (SettingsFrame (mkFH 0 4 0 0) []).

Definition start : sys :=
  match serve (mkConfig 100 0 0 None) ClientPreface first_settings 0 with
  | Some y => y
  | None => mkSys (snd (newHTTP2Server (mkConfig 100 0 0 None) 0)) []
  end.

Definition request (id : Z) : list label :=
  LRecv (IMeta (mkFH 0 1 0 id) false [(bs ":path", bs "/Echo/Ping"); (bs "content-type", bs "application/grpc")]) false None 0
  :: replicate 4 (LRun 0 Go 0).

(** The writer takes [n] items, none of which needs more of it. *)
Definition drained (n : nat) : list label := replicate n (LWriter Go).

Definition handler (s i n : nat) (o : op) : list label := LSend s o :: replicate n (LRun i Go 0).

(** A request, its response, a graceful shutdown with both GOAWAY frames, and Close. *)
Definition exchange : list label :=
  request 1 ++ handler 0 3 6 (OWriteData [] (bs "pong")) ++ request 3
  ++ handler 0 4 7 (OWriteStatus (mkStatusArgs 0 (bs "ok") None None))
  ++ [LStart ODrain; LRun 5 Go 0; LRun 5 Go 0] ++ drained 6 ++ [LRun 1 Go 0] ++ drained 1 ++ [LRun 1 Go 0; LRun 1 Go 0]
  ++ [LRecv (IFrame (PingFrame (mkFH 8 6 FlagAck 0) goAwayPing)) false None 0; LRun 0 Go 0; LRun 6 TakeChan 0; LRun 6 Go 0]
  ++ drained 1 ++ [LRun 1 Go 0; LRun 1 Go 0].

Definition after (ls : list label) : sys := default start (lrun ls start).

Definition demo_sys : sys := after exchange.

Lemma start_serve : serve (mkConfig 100 0 0 None) ClientPreface first_settings 0 = Some start.
Proof. reflexivity. Qed.

Lemma goaway_is_final_witness :
  goAways (tr demo_sys) = [(2 ^ 31 - 1, true); (3, false)] /\ Forall (fun x => sid x <= 3) (streams (tr demo_sys)).
Proof.
  split; [by vm_compute|].
  destruct (goaway_is_final (fun c => c) 0 false (mkKp 0 0 0) (fun _ _ => True) (mkConfig 100 0 0 None) ClientPreface first_settings 0 start demo_sys)
    as (_ & _ & H).
  - reflexivity.
  - apply (lrun_reach _ _ _ _ exchange). by vm_compute.
  - apply H. apply list_elem_of_lookup. exists 1%nat. by vm_compute.
Defined.

Lemma server_never_panics_witness : Forall (fun x => snd x <> Panicked) (threads demo_sys) /\ length (threads demo_sys) = 7%nat.
Proof.
  split; [|by vm_compute].
  apply (server_never_panics (fun c => c) 0 false (mkKp 0 0 0) (mkConfig 100 0 0 None) ClientPreface first_settings 0 start demo_sys).
  - reflexivity.
  - apply (polite_reach exchange); by vm_compute.
Defined.

(** Close begins while the second request has no response. *)
Definition closing_run : list label := exchange ++ [LStart OClose; LRun 7 Go 0].

Lemma closed_server_cancels_all_witness :
  state (tr (after closing_run)) = closing /\
  forall now, exists ls y', Forall (run_label now) ls /\ lrun ls (after closing_run) = Some y' /\ Forall (fun x => reason x <> None) (streams (tr y')).
Proof.
  split; [by vm_compute|]. intros now.
  destruct (closed_server_cancels_all (fun c => c) 0 false (mkKp 0 0 0) (mkConfig 100 0 0 None) ClientPreface first_settings 0 start (after closing_run))
    as [_ H].
  - reflexivity.
  - apply (polite_reach closing_run); by vm_compute.
  - by vm_compute.
  - destruct (H now) as (ls & y' & H1 & H2 & _ & _ & H3). exists ls, y'. by split_and!.
Defined.


Definition failure : statusArgs := mkStatusArgs 5 (bs "not found: 100%") (Some (-1, Some (bs "{}"))) None.

Definition failing_stream : stream :=
  set_trl {[bs "trace-bin" := [bs "ab"; bs "cd"]]} (newStream 1 true data0 (tr start)).

Lemma client_reads_status_witness :
  exists d d', decodeHeader false false (trailer_fields true failure failing_stream) data0 = (d, None) /\
    status_ d = Some (mkStatus 5 (bs "not found: 100%") [], d') /\ default [] (mdata d !! bs "trace-bin") = [bs "ab"; bs "cd"].
Proof.
  destruct (client_reads_status true failure failing_stream (mkStatus 0 [] [])) as (d & d' & H1 & H2 & _ & _ & H3).
  - split; [cbn; lia|by vm_compute|intros ? ? [= <- <-]; lia|intros ? ? [= <- <-]; by eexists|done].
  - intros k [vv Hk]. unfold failing_stream in Hk. cbn [trl set_trl] in Hk. apply lookup_singleton_Some in Hk as [<- _]. by apply user_key_dec_ok.
  - exists d, d'. split; [exact H1|]. split; [exact H2|]. rewrite H3; [reflexivity|]. by apply user_key_dec_ok.
Defined.

(** * A client that does not keep to the protocol *)

(** The acknowledgement of a GOAWAY's ping that was never sent: the reader closes the channel
    drain has not made. *)
Lemma early_goaway_ack_panics :
  option_map snd (threads (after [LRecv (IFrame (PingFrame (mkFH 8 6 FlagAck 0) goAwayPing)) false None 0; LRun 0 Go 0]) !! 0%nat) = Some Panicked.
Proof. vm_compute. reflexivity. Qed.

(** A stream id used twice, while the trailers of a finished stream wait for the writer: the
    reader closes the transport with an error of another type than the reason the finished
    stream was cancelled with. *)
Definition reused_id : list label :=
  request 1 ++ handler 0 3 7 (OWriteStatus (mkStatusArgs 0 (bs "ok") None None)) ++ request 1 ++ replicate 3 (LRun 0 Go 0).

Lemma reused_stream_id_panics : option_map snd (threads (after reused_id) !! 0%nat) = Some Panicked.
Proof. vm_compute. reflexivity. Qed.

(** The advertised limit on concurrent streams is not enforced. *)
Definition limited : ServerConfig := mkConfig 1 0 0 None.

Lemma max_streams_not_enforced :
  (SettingMaxConcurrentStreams, 1) ∈ fst (fst (newHTTP2Server limited 0)) /\
  exists y, (y0 ← serve limited ClientPreface first_settings 0; lrun (request 1 ++ request 3) y0) = Some y /\ num_active (tr y) = 2.
Proof. split; [apply list_elem_of_lookup; by exists 1%nat|]. eexists. split; vm_compute; reflexivity. Qed.
