(* ===== verification/ThriftGeneric.v ===== *)
(** Generic Thrift calls (src/pkg/generic/thrift: write.go, read.go, util.go, struct.go,
    base.go; src/pkg/generic/descriptor): a message given as Go values of dynamic types is
    written, and read back, as a descriptor of the IDL says.

    The descriptors are those of descriptor.go.  Structs may refer to themselves, so a type
    points to its struct in a table.  The values are the Go values the map and struct calls
    take; those of HTTP calls, of protobuf messages and of gjson are not in the model.  The
    Thrift buffers and the request base are other packages' ([ThriftBuffers], [ThriftBase]).
    The order in which Go iterates over the fields of a struct is the environment's; it may
    differ from one iteration to the next and is a function of the bytes written or left. *)

From S2P Require Import Prelude GoText SkipDecoder.

(** * Values *)

Definition VOID : Z := 1.
Definition JSON : Z := 19.

(** The types of the nil slices and maps of [readEmptyValue]. *)
Inductive rtype :=
| RBool | RByte | RInt8 | RInt16 | RInt32 | RInt64 | RFloat64 | RString
| RSlice (r : rtype)
| RMap (k e : rtype)
| RStrMap.

(** Values of type interface{}: nil, descriptor.Void, the numbers (a float64 by its bits), a
    json.Number, a string, a []byte, a []interface{}, a map[interface{}]interface{} and a
    map[string]interface{} by their entries in the order of the iteration, a nil slice or
    map of another type, and any other value. *)
Inductive value :=
| VNil
| VVoid
| VBool (b : bool)
| VI8 (z : Z)
| VU8 (z : Z)
| VI16 (z : Z)
| VI32 (z : Z)
| VI64 (z : Z)
| VF64 (bits : Z)
| VNumber (s : text)
| VStr (s : text)
| VBytes (b : list byte)
| VList (l : list value)
| VMap (m : list (value * value))
| VStruct (m : list (text * value))
| VZero (r : rtype)
| VOther.

Inductive gerr :=
| EBuffer                (* of the buffer, malformed bytes included *)
| EType                  (* not the descriptor's type *)
| EUnsupported
| ERange
| EParse
| EMapping (e : text)    (* of a value mapping *)
| ERequired (id : Z)
| EException (v : value)
| EMethod
| EFuel.

(** map[string]T as a list of entries. *)
Fixpoint get {A} (k : text) (m : list (text * A)) : option A :=
  match m with
  | [] => None
  | (k', v) :: m => if decide (k' = k) then Some v else get k m
  end.

(** m[k] = v, for keys compared by [eqb]. *)
Fixpoint put {K A} (eqb : K -> K -> bool) (k : K) (v : A) (m : list (K * A)) : list (K * A) :=
  match m with
  | [] => [(k, v)]
  | (k', v') :: m => if eqb k' k then (k', v) :: m else (k', v') :: put eqb k v m
  end.

Definition f64_nan (bits : Z) : bool := (Z.land (Z.shiftr bits 52) 2047 =? 2047) && negb (Z.land bits (2 ^ 52 - 1) =? 0).
Definition f64_zero (bits : Z) : bool := Z.land bits (2 ^ 63 - 1) =? 0.

(** == on float64. *)
Definition f64_eqb (a b : Z) : bool :=
  negb (f64_nan a) && negb (f64_nan b) && ((a =? b) || f64_zero a && f64_zero b).

(** The integer part of a float64, [None] for infinities and NaN. *)
Definition f64_trunc (bits : Z) : option Z :=
  let e := Z.land (Z.shiftr bits 52) 2047 in
  let m := Z.land bits (2 ^ 52 - 1) in
  if e =? 2047 then None
  else
    let m := if e =? 0 then m else m + 2 ^ 52 in
    let ex := Z.max e 1 - 1075 in
    let n := if 0 <=? ex then m * 2 ^ ex else m / 2 ^ (- ex) in
    Some (if Z.testbit bits 63 then - n else n).

(** Map keys of type interface{} that can be hashed. *)
Definition hashable (v : value) : bool :=
  match v with VBytes _ | VList _ | VMap _ | VStruct _ | VZero _ | VOther => false | _ => true end.

Definition key_eqb (a b : value) : bool :=
  match a, b with
  | VNil, VNil | VVoid, VVoid => true
  | VBool x, VBool y => Bool.eqb x y
  | VI8 x, VI8 y | VU8 x, VU8 y | VI16 x, VI16 y | VI32 x, VI32 y | VI64 x, VI64 y => x =? y
  | VF64 x, VF64 y => f64_eqb x y
  | VNumber x, VNumber y | VStr x, VStr y => text_eqb x y
  | _, _ => false
  end.

(** * Descriptors *)

Inductive TypeDescriptor := mkType {
  t_Name : text; t_Type : Z; t_Key : option TypeDescriptor; t_Elem : option TypeDescriptor;
  t_Struct : option nat; IsRequestBase : bool }.

(** An annotation that maps values; [text] is its error. *)
Record ValueMapping := mkMapping { vm_Request : value -> text + value; vm_Response : value -> text + value }.

Record FieldDescriptor := mkField {
  f_Name : text; Alias : text; ID : Z; Required : bool; Optional : bool; DefaultValue : value; IsException : bool;
  f_Type : TypeDescriptor; f_Mapping : option ValueMapping; IsGoAliasDisabled : option bool }.

Record StructDescriptor := mkStruct {
  FieldsByID : gmap Z FieldDescriptor;
  FieldsByName : gmap text FieldDescriptor;
  RequiredFields : gmap Z FieldDescriptor;
  DefaultFields : gmap text FieldDescriptor }.

Record FunctionDescriptor := mkFunction {
  fn_Request : TypeDescriptor; fn_Response : TypeDescriptor; HasRequestBase : bool; IsWithoutWrapping : bool }.

(** * The Thrift binary protocol *)

Inductive token :=
| TBool (b : bool)
| TByte (z : Z)
| TI16 (z : Z)
| TI32 (z : Z)
| TI64 (z : Z)
| TDouble (bits : Z)
| TBytes (b : list byte)
| TList (elem size : Z)
| TMap (key elem size : Z)
| TField (t id : Z)
| TStop.

Definition encode (k : token) : list byte :=
  match k with
  | TBool b => [Zbyte (if b then 1 else 0)]
  | TByte z => be_put 1 z
  | TI16 z => be_put 2 z
  | TI32 z => be_put 4 z
  | TI64 z | TDouble z => be_put 8 z
  | TBytes b => be_put 4 (lenZ b) ++ b
  | TList e n => be_put 1 e ++ be_put 4 n
  | TMap k e n => be_put 1 k ++ be_put 1 e ++ be_put 4 n
  | TField t id => be_put 1 t ++ be_put 2 id
  | TStop => [Zbyte 0]
  end.

Abbreviation parser A := (list byte -> option (A * list byte)).

Definition parse_uint (n : nat) : parser Z := fun s =>
  if decide (n <= length s)%nat then Some (be_get (take n s), drop n s) else None.

Definition parse_int (n : nat) : parser Z := fun s =>
  '(z, s) ← parse_uint n s; Some (wrapS (8 * Z.of_nat n) z, s).

(** A size is not negative. *)
Definition parse_size : parser Z := fun s => '(n, s) ← parse_int 4 s; if n <? 0 then None else Some (n, s).

Definition parse_bool : parser bool := fun s => '(z, s) ← parse_uint 1 s; Some (z =? 1, s).

Definition parse_bytes : parser (list byte) := fun s =>
  '(n, s) ← parse_size s; if lenZ s <? n then None else Some (take (Z.to_nat n) s, drop (Z.to_nat n) s).

Definition parse_list : parser (Z * Z) := fun s => '(t, s) ← parse_uint 1 s; '(n, s) ← parse_size s; Some ((t, n), s).

Definition parse_map : parser (Z * Z * Z) := fun s =>
  '(k, s) ← parse_uint 1 s; '(e, s) ← parse_uint 1 s; '(n, s) ← parse_size s; Some ((k, e, n), s).

Definition parse_field : parser (Z * Z) := fun s =>
  '(t, s) ← parse_uint 1 s; if t =? STOP then Some ((t, 0), s) else '(id, s) ← parse_int 2 s; Some ((t, id), s).

(** gopkg's thrift.BufferWriter and BufferReader: they write and read the binary protocol.
    [false] and [None] are errors, of the connection when they write. *)
Class ThriftBuffers (W R : Type) := {
  WriteToken : token -> W -> bool * W;
  written : W -> list byte;
  WriteToken_ok k w w' : WriteToken k w = (true, w') -> written w' = written w ++ encode k;
  left_ : R -> list byte;
  ReadBool : R -> option bool * R;
  ReadByte : R -> option Z * R;
  ReadI16 : R -> option Z * R;
  ReadI32 : R -> option Z * R;
  ReadI64 : R -> option Z * R;
  ReadDouble : R -> option Z * R;
  ReadString : R -> option (list byte) * R;
  ReadBinary : R -> option (list byte) * R;
  ReadListBegin : R -> option (Z * Z) * R;
  ReadMapBegin : R -> option (Z * Z * Z) * R;
  ReadFieldBegin : R -> option (Z * Z) * R;
  SkipType : Z -> R -> bool * R;
  reads {A} (p : parser A) (f : R -> option A * R) : Prop :=
    forall r, match p (left_ r) with
              | Some (a, s) => fst (f r) = Some a /\ left_ (snd (f r)) = s
              | None => fst (f r) = None
              end;
  ReadBool_ok : reads parse_bool ReadBool;
  ReadByte_ok : reads (parse_int 1) ReadByte;
  ReadI16_ok : reads (parse_int 2) ReadI16;
  ReadI32_ok : reads (parse_int 4) ReadI32;
  ReadI64_ok : reads (parse_int 8) ReadI64;
  ReadDouble_ok : reads (parse_uint 8) ReadDouble;
  ReadString_ok : reads parse_bytes ReadString;
  ReadBinary_ok : reads parse_bytes ReadBinary;
  ReadListBegin_ok : reads parse_list ReadListBegin;
  ReadMapBegin_ok : reads parse_map ReadMapBegin;
  ReadFieldBegin_ok : reads parse_field ReadFieldBegin;
  SkipType_ok t r r' : SkipType t r = (true, r') -> (length (left_ r') <= length (left_ r))%nat
}.

(** A writer whose connection does not fail. *)
Class ReliableWriter (W R : Type) `{!ThriftBuffers W R} : Prop := {
  WriteToken_reliable k w : fst (WriteToken k w) = true }.

(** base.Base of gopkg: its extras, and its bytes. *)
Class ThriftBase (Base : Type) := {
  Extra : Base -> option (gmap text text);
  set_Extra : gmap text text -> Base -> Base;
  FastWrite : Base -> list byte;
  Extra_set_Extra m b : Extra (set_Extra m b) = Some m
}.

(** ParseFloat and FormatFloat of strconv on float64, by their bits, and the conversion of a
    float64 to an integer type too small for it, which Go leaves to the implementation. *)
Class Floats := {
  ParseFloat : text -> option Z;
  FormatFloat : Z -> text;
  overflow : Z -> Z -> Z
}.

(** * The api.js_conv annotation: int64 as strings *)

(** i, _ := strconv.ParseInt(s, 10, 64): the nearest integer when [s] is out of range, 0 when
    it is not a number. *)
Definition ParseInt_ (s : text) : Z :=
  match ParseInt s with
  | Some i => i
  | None =>
      let neg := match s with c :: _ => byteZ c =? 45 | [] => false end in
      let body := match s with c :: s' => if (byteZ c =? 43) || (byteZ c =? 45) then s' else s | [] => [] end in
      if forallb (fun c => bool_decide (is_Some (digit 10 c))) body && negb (text_eqb body []) then if neg then - 2 ^ 63 else 2 ^ 63 - 1
      else 0
  end.

Definition is_str (v : value) : bool := match v with VStr _ => true | _ => false end.
Definition is_int64 (v : value) : bool := match v with VI64 _ => true | _ => false end.

Fixpoint apiJSConv_Request (val : value) : value :=
  match val with
  | VStr s => VI64 (ParseInt_ s)
  | VList l =>
      if forallb is_str l then VList (map (fun v => match v with VStr s => VI64 (ParseInt_ s) | _ => v end) l) else val
  | VMap m => VMap (map (fun p => (fst p, apiJSConv_Request (snd p))) m)
  | VStruct m => VStruct (map (fun p => (fst p, apiJSConv_Request (snd p))) m)
  | _ => val
  end.

Fixpoint apiJSConv_Response (val : value) : value :=
  match val with
  | VI64 z => VStr (FormatInt z)
  | VList l =>
      if forallb is_int64 l then VList (map (fun v => match v with VI64 z => VStr (FormatInt z) | _ => v end) l) else val
  | VMap m => VMap (map (fun p => (fst p, apiJSConv_Response (snd p))) m)
  | VStruct m => VStruct (map (fun p => (fst p, apiJSConv_Response (snd p))) m)
  | _ => val
  end.

Definition apiJSConv : ValueMapping :=
  mkMapping (fun v => inr (apiJSConv_Request v)) (fun v => inr (apiJSConv_Response v)).

Section generic.
Context {W R Base : Type} {TB : ThriftBuffers W R} {BL : ThriftBase Base} {FL : Floats}.
Context (structs : list StructDescriptor) (isGoTagAliasDisabled : bool).
Context (order : forall A, list byte -> list A -> list A).
Arguments order {A} _ _.

Definition FieldName (d : FieldDescriptor) : text :=
  let aliasDisabled := match IsGoAliasDisabled d with Some b => b | None => isGoTagAliasDisabled end in
  match Alias d with [] => f_Name d | a => if aliasDisabled then f_Name d else a end.

(** parseType adds a field to its struct. *)
Definition add_field (d : StructDescriptor) (_f : FieldDescriptor) (isSetDefault : bool) : StructDescriptor :=
  mkStruct (<[ID _f := _f]> (FieldsByID d)) (<[FieldName _f := _f]> (FieldsByName d))
    (if Required _f then <[ID _f := _f]> (RequiredFields d) else RequiredFields d)
    (if isSetDefault then <[FieldName _f := _f]> (DefaultFields d) else DefaultFields d).

Definition CheckRequired (d : StructDescriptor) (rw : gset Z) (s : list byte) : option gerr :=
  match filter (fun '(id, _) => id ∉ rw) (order s (map_to_list (RequiredFields d))) with
  | [] => None
  | (id, _) :: _ => Some (ERequired id)
  end.

(** * Writing *)

Record writerOption := mkWOpt { w_base64 : bool }.

(** The buffer and the request base, which is changed in place. *)
Record wstate := mkW { out : W; requestBase : option Base }.

Abbreviation WM := (M wstate gerr).

Definition emit (k : token) : WM unit := fun s =>
  let '(ok, w) := WriteToken k (out s) in (if ok then Ok tt else Err EBuffer, mkW w (requestBase s)).

Inductive writer :=
| WBool | WInt8 | WInt16 | WInt32 | WInt64 | WJSONFloat64 | WJSONNumber | WString | WBase64Binary | WBinary
| WBinaryList | WList | WInterfaceMap | WStringMap | WStruct | WVoid.

Definition is_binary (t : TypeDescriptor) : bool := text_eqb (t_Name t) (bs "binary").

Definition int_type (ty : Z) : bool := (ty =? BYTE) || (ty =? I16) || (ty =? I32) || (ty =? I64).

Definition typeOf (opt : writerOption) (sample : value) (t : TypeDescriptor) : option (Z * writer) :=
  let ty := t_Type t in
  match sample with
  | VBool _ => Some (BOOL, WBool)
  | VI8 _ | VU8 _ => if int_type ty then Some (ty, WInt8) else None
  | VI16 _ => if int_type ty then Some (ty, WInt16) else None
  | VI32 _ => if int_type ty then Some (ty, WInt32) else None
  | VI64 _ => if int_type ty then Some (ty, WInt64) else None
  | VF64 _ => if int_type ty || (ty =? DOUBLE) then Some (ty, WJSONFloat64) else None
  | VNumber _ => if int_type ty || (ty =? DOUBLE) then Some (ty, WJSONNumber) else None
  | VStr _ => Some (STRING, if is_binary t && w_base64 opt then WBase64Binary else WString)
  | VBytes _ => Some (if ty =? LIST then (LIST, WBinaryList) else (STRING, WBinary))
  | VList _ => Some (LIST, WList)
  | VMap _ => Some (MAP, WInterfaceMap)
  | VStruct _ => if ty =? STRUCT then Some (STRUCT, WStruct) else if ty =? MAP then Some (MAP, WStringMap) else None
  | VNil | VVoid => Some (VOID, WVoid)
  | VZero _ | VOther => None
  end.

Definition nextWriter (opt : writerOption) (sample : value) (t : TypeDescriptor) : WM writer :=
  match typeOf opt sample t with
  | None => throw EUnsupported
  | Some (ty, fn) =>
      let ty := if (t_Type t =? SET) && (ty =? LIST) then SET else ty in
      if t_Type t =? ty then mret fn else throw EType
  end.

(** A pointer that must not be nil. *)
Definition deref {S A} (o : option A) : M S gerr A := match o with Some a => mret a | None => panic end.

Definition struct_of {S} (t : TypeDescriptor) : M S gerr StructDescriptor :=
  i ← deref (t_Struct t); deref (structs !! i).

Definition writeEmptyValue (t : TypeDescriptor) : WM unit :=
  let ty := t_Type t in
  if ty =? BOOL then emit (TBool false)
  else if ty =? BYTE then emit (TByte 0)
  else if ty =? I16 then emit (TI16 0)
  else if ty =? I32 then emit (TI32 0)
  else if ty =? I64 then emit (TI64 0)
  else if ty =? DOUBLE then emit (TDouble 0)
  else if ty =? STRING then emit (TBytes [])
  else if (ty =? LIST) || (ty =? SET) then e ← deref (t_Elem t); emit (TList (t_Type e) 0)
  else if ty =? MAP then k ← deref (t_Key t); e ← deref (t_Elem t); emit (TMap (t_Type k) (t_Type e) 0)
  else if ty =? STRUCT then emit TStop
  else if ty =? VOID then mret tt
  else throw EUnsupported.

(** The integer types: [z] is written as a value of type [ty]. *)
Definition write_int (ty z : Z) : WM unit :=
  if ty =? BYTE then emit (TByte z)
  else if ty =? I16 then emit (TI16 z)
  else if ty =? I32 then emit (TI32 z)
  else if ty =? I64 then emit (TI64 z)
  else throw EType.

Definition writeInt8 (v : value) (t : TypeDescriptor) : WM unit :=
  match v with
  | VI8 z => write_int (t_Type t) z
  | VU8 z => write_int (t_Type t) (wrapS 8 z)
  | _ => throw EUnsupported
  end.

Definition beyond (w z : Z) : bool := (z <? - 2 ^ (w - 1)) || (2 ^ (w - 1) - 1 <? z).

Definition writeInt16 (i : Z) (t : TypeDescriptor) : WM unit :=
  if (t_Type t =? BYTE) && beyond 8 i then throw ERange else write_int (t_Type t) i.

Definition writeInt32 (i : Z) (t : TypeDescriptor) : WM unit :=
  if (t_Type t =? BYTE) && beyond 8 i then throw ERange
  else if (t_Type t =? I16) && beyond 16 i then throw ERange
  else write_int (t_Type t) i.

Definition writeInt64 (i : Z) (t : TypeDescriptor) : WM unit :=
  if (t_Type t =? BYTE) && beyond 8 i then throw ERange
  else if (t_Type t =? I16) && beyond 16 i then throw ERange
  else if (t_Type t =? I32) && beyond 32 i then throw ERange
  else write_int (t_Type t) i.

Definition writeFloat64 (bits : Z) : WM unit := emit (TDouble bits).

Definition writeJSONNumber (jn : text) (t : TypeDescriptor) : WM unit :=
  let ty := t_Type t in
  let Int64 : WM Z := match ParseInt jn with Some i => mret i | None => throw EParse end in
  if ty =? BYTE then i ← Int64; writeInt8 (VI8 (wrapS 8 i)) t
  else if ty =? I16 then i ← Int64; writeInt16 (wrapS 16 i) t
  else if ty =? I32 then i ← Int64; writeInt32 (wrapS 32 i) t
  else if ty =? I64 then i ← Int64; writeInt64 i t
  else if ty =? DOUBLE then match ParseFloat jn with Some f => writeFloat64 f | None => throw EParse end
  else mret tt.

(** intN(f) for a float64 f. *)
Definition f64_int (w bits : Z) : Z :=
  match f64_trunc bits with
  | Some z => if beyond w z then wrapS w (overflow w bits) else z
  | None => wrapS w (overflow w bits)
  end.

Definition writeJSONFloat64 (bits : Z) (t : TypeDescriptor) : WM unit :=
  let ty := t_Type t in
  if ty =? BYTE then writeInt8 (VI8 (f64_int 8 bits)) t
  else if ty =? I16 then writeInt16 (f64_int 16 bits) t
  else if ty =? I32 then writeInt32 (f64_int 32 bits) t
  else if ty =? I64 then writeInt64 (f64_int 64 bits) t
  else if ty =? DOUBLE then writeFloat64 bits
  else throw EType.

Definition writeBase64Binary (s : text) : WM unit :=
  match DecodeString true s with Some b => emit (TBytes b) | None => throw EParse end.

Definition for_each {S A} (f : A -> M S gerr unit) : list A -> M S gerr unit :=
  foldr (fun a k => f a;; k) (mret tt).

Definition writeBinaryList (l : list byte) (t : TypeDescriptor) : WM unit :=
  e ← deref (t_Elem t);
  emit (TList (t_Type e) (lenZ l));;
  for_each (fun b => emit (TByte (wrapS 8 (byteZ b)))) l.

(** strconv.ParseInt(s, 10, w) *)
Definition ParseIntN (w : Z) (s : text) : option Z :=
  i ← ParseInt s; if beyond w i then None else Some i.

(** strings.Split(s, ",") *)
Fixpoint split_comma (s : text) : list text :=
  match s with
  | [] => [[]]
  | c :: s =>
      if byteZ c =? 44 then [] :: split_comma s
      else match split_comma s with w :: ws => (c :: w) :: ws | [] => [[c]] end
  end.

Fixpoint buildinTypeFromString (t : TypeDescriptor) (s : text) : option value :=
  let ty := t_Type t in
  if ty =? BOOL then if text_eqb s (bs "true") then Some (VBool true) else if text_eqb s (bs "false") then Some (VBool false) else None
  else if ty =? BYTE then VI8 <$> ParseIntN 8 s
  else if ty =? I16 then VI16 <$> ParseIntN 16 s
  else if ty =? I32 then VI32 <$> ParseIntN 32 s
  else if ty =? I64 then VI64 <$> ParseIntN 64 s
  else if ty =? DOUBLE then VF64 <$> ParseFloat s
  else if ty =? STRING then Some (VStr s)
  else if ty =? LIST then
    match t with
    | mkType _ _ _ (Some e) _ _ => VList <$> mapM (buildinTypeFromString e) (split_comma s)
    | _ => None
    end
  else None.

Definition FormatBool (b : bool) : text := if b then bs "true" else bs "false".

Definition buildinTypeIntoString (v : value) : text :=
  match v with
  | VBool b => FormatBool b
  | VI8 z | VI16 z | VI32 z | VI64 z => FormatInt z
  | VF64 f => FormatFloat f
  | VStr s => s
  | _ => []
  end.

(** The entries of [entries] with string values whose keys are not in the extras yet. *)
Definition merge_extra (entries : list (text * value)) (b : Base) : Base :=
  foldl (fun b '(k, v) =>
    match v, default ∅ (Extra b) !! k with
    | VStr s, None => set_Extra (<[k := s]> (default ∅ (Extra b))) b
    | _, _ => b
    end) b entries.

Definition mergeBaseAny (jsonBase : value) (frkBase : Base) : Base :=
  match jsonBase with
  | VStruct st =>
      match get (bs "Extra") st with
      | Some (VStruct v) => merge_extra v frkBase
      | Some (VMap v) => merge_extra (omap (fun '(k, e) => match k with VStr s => Some (s, e) | _ => None end) v) frkBase
      | _ => frkBase
      end
  | _ => frkBase
  end.

Definition MergeBase (jsonBase frameworkBase : Base) : Base :=
  match Extra jsonBase with
  | Some extra => set_Extra (default ∅ (Extra frameworkBase) ∪ extra) frameworkBase
  | None => frameworkBase
  end.

Definition writeRequestBase (val : value) (b : Base) (field : FieldDescriptor) : WM unit :=
  let b := mergeBaseAny val b in
  modify (fun s => mkW (out s) (Some b));;
  emit (TField (t_Type (f_Type field)) (wrapS 16 (ID field)));;
  for_each (fun c => emit (TByte (wrapS 8 (byteZ c)))) (FastWrite b).

Definition map_value (f : value -> text + value) (v : value) : outcome gerr value :=
  match f v with inr v => Ok v | inl e => Err (EMapping e) end.

Definition lift {S A} (o : outcome gerr A) : M S gerr A := fun s => (o, s).

Definition map_request (field : FieldDescriptor) (v : value) : outcome gerr value :=
  match f_Mapping field with Some m => map_value (vm_Request m) v | None => Ok v end.

Definition map_response (field : FieldDescriptor) (v : value) : outcome gerr value :=
  match f_Mapping field with Some m => map_value (vm_Response m) v | None => Ok v end.

Definition is_nil (v : value) : bool := match v with VNil => true | _ => false end.

Section writers.
Context (opt : writerOption).

(** getWriterAndWrite and the writers that call it, one level of nesting after the other. *)
Section level.
Context (write : value -> TypeDescriptor -> WM unit).

Definition write_elem (t : TypeDescriptor) (v : value) : WM unit := if is_nil v then writeEmptyValue t else write v t.

Definition writeList (l : list value) (t : TypeDescriptor) : WM unit :=
  e ← deref (t_Elem t);
  emit (TList (t_Type e) (lenZ l));;
  for_each (write_elem e) l.

Definition writeInterfaceMap (m : list (value * value)) (t : TypeDescriptor) : WM unit :=
  k ← deref (t_Key t); e ← deref (t_Elem t);
  emit (TMap (t_Type k) (t_Type e) (lenZ m));;
  for_each (fun '(key, elem) => write key k;; write_elem e elem) m.

Definition writeStringMap (m : list (text * value)) (t : TypeDescriptor) : WM unit :=
  k ← deref (t_Key t); e ← deref (t_Elem t);
  emit (TMap (t_Type k) (t_Type e) (lenZ m));;
  for_each (fun '(key, elem) =>
    match buildinTypeFromString k key with
    | None => throw EParse
    | Some key => write key k;; write_elem e elem
    end) m.

Definition write_field (m : list (text * value)) (field : FieldDescriptor) : WM unit :=
  let elem := get (FieldName field) m in
  let begin := emit (TField (t_Type (f_Type field)) (wrapS 16 (ID field))) in
  base ← gets requestBase;
  match base, IsRequestBase (f_Type field) with
  | Some b, true => writeRequestBase (default VNil elem) b field
  | _, _ =>
      match elem with
      | None | Some VNil => if Optional field then mret tt else begin;; writeEmptyValue (f_Type field)
      | Some v => v ← lift (map_request field v); begin;; write v (f_Type field)
      end
  end.

Definition writeStruct (m : list (text * value)) (t : TypeDescriptor) : WM unit :=
  sd ← struct_of t;
  fields ← gets (fun s => order (written (out s)) (map_to_list (FieldsByName sd)));
  for_each (fun '(_, field) => write_field m field) fields;;
  emit TStop.

Definition run_writer (fn : writer) (v : value) (t : TypeDescriptor) : WM unit :=
  match fn, v with
  | WBool, VBool b => emit (TBool b)
  | WInt8, _ => writeInt8 v t
  | WInt16, VI16 i => writeInt16 i t
  | WInt32, VI32 i => writeInt32 i t
  | WInt64, VI64 i => writeInt64 i t
  | WJSONFloat64, VF64 f => writeJSONFloat64 f t
  | WJSONNumber, VNumber s => writeJSONNumber s t
  | WString, VStr s => emit (TBytes s)
  | WBase64Binary, VStr s => writeBase64Binary s
  | WBinary, VBytes b => emit (TBytes b)
  | WBinaryList, VBytes b => writeBinaryList b t
  | WList, VList l => writeList l t
  | WInterfaceMap, VMap m => writeInterfaceMap m t
  | WStringMap, VStruct m => writeStringMap m t
  | WStruct, VStruct m => writeStruct m t
  | WVoid, _ => writeStruct [] t
  | _, _ => panic
  end.
End level.

Fixpoint getWriterAndWrite (fuel : nat) (v : value) (t : TypeDescriptor) : WM unit :=
  match fuel with
  | O => throw EFuel
  | S fuel => fn ← nextWriter opt v t; run_writer (getWriterAndWrite fuel) fn v t
  end.

(** [structWriter] writes a message as it is, [wrapStructWriter] as the arguments or the
    result of a method. *)
Definition wrapStructWriter (fuel : nat) (v : value) (t : TypeDescriptor) : WM unit :=
  sd ← struct_of t;
  fields ← gets (fun s => order (written (out s)) (map_to_list (FieldsByName sd)));
  for_each (fun '(_, field) =>
    if IsException field || is_nil v then mret tt
    else
      emit (TField (t_Type (f_Type field)) (wrapS 16 (ID field)));;
      getWriterAndWrite fuel v (f_Type field)) fields;;
  emit TStop.
End writers.

Definition LookupFunctionByMethod (svc : gmap text FunctionDescriptor) (method : text) : outcome gerr FunctionDescriptor :=
  match svc !! method with Some f => Ok f | None => Err EMethod end.

(** WriteStruct.Write *)
Definition Write (svc : gmap text FunctionDescriptor) (opt : writerOption) (fuel : nat)
    (msg : value) (method : text) (isClient : bool) : WM unit :=
  fnDsc ← lift (LookupFunctionByMethod svc method);
  let ty := if isClient then fn_Request fnDsc else fn_Response fnDsc in
  modify (fun s => mkW (out s) (if HasRequestBase fnDsc && isClient then requestBase s else None));;
  if IsWithoutWrapping fnDsc then getWriterAndWrite opt fuel msg ty else wrapStructWriter opt fuel msg ty.

(** * Reading *)

(** The options without protobuf descriptors and HTTP responses. *)
Record readerOption := mkROpt {
  forJSON : bool; throwException : bool; r_base64 : bool; binaryWithByteSlice : bool; setFieldsForEmptyStruct : Z }.

Abbreviation RM := (M R gerr).

(** A read of the buffer. *)
Definition rd {A} (f : R -> option A * R) : RM A := fun r =>
  let '(o, r) := f r in (match o with Some a => Ok a | None => Err EBuffer end, r).

Definition skip (t : Z) : RM unit := fun r => let '(ok, r) := SkipType t r in (if ok then Ok tt else Err EBuffer, r).

(** base64.StdEncoding.EncodeToString *)
Definition StdEncode (b : list byte) : text :=
  RawEncode b ++ replicate (match (length b mod 3)%nat with 1%nat => 2 | 2%nat => 1 | _ => 0 end) (Zbyte 61).

(** reflect.MapOf panics when the key type cannot be compared. *)
Definition comparable (r : rtype) : bool := match r with RSlice _ | RMap _ _ | RStrMap => false | _ => true end.

Fixpoint getRType (t : TypeDescriptor) : outcome gerr rtype :=
  let ty := t_Type t in
  if ty =? BOOL then Ok RBool
  else if ty =? BYTE then Ok (if text_eqb (t_Name t) (bs "byte") then RByte else RInt8)
  else if ty =? I16 then Ok RInt16
  else if ty =? I32 then Ok RInt32
  else if ty =? I64 then Ok RInt64
  else if ty =? DOUBLE then Ok RFloat64
  else if ty =? STRING then Ok (if is_binary t then RSlice RByte else RString)
  else if (ty =? LIST) || (ty =? SET) then
    match t with
    | mkType _ _ _ (Some e) _ _ => match getRType e with Ok r => Ok (RSlice r) | o => o end
    | _ => Panic
    end
  else if ty =? MAP then
    match t with
    | mkType _ _ (Some k) (Some e) _ _ =>
        match getRType k, getRType e with
        | Ok r, Ok r' => if comparable r then Ok (RMap r r') else Panic
        | _, _ => Panic
        end
    | _ => Panic
    end
  else if ty =? STRUCT then Ok RStrMap
  else Panic.

Definition readEmptyValue (t : TypeDescriptor) : outcome gerr value :=
  let ty := t_Type t in
  if ty =? BOOL then Ok (VBool false)
  else if ty =? BYTE then Ok (if text_eqb (t_Name t) (bs "byte") then VU8 0 else VI8 0)
  else if ty =? I16 then Ok (VI16 0)
  else if ty =? I32 then Ok (VI32 0)
  else if ty =? I64 then Ok (VI64 0)
  else if ty =? DOUBLE then Ok (VF64 0)
  else if ty =? STRING then Ok (if is_binary t then VBytes [] else VStr [])
  else if (ty =? LIST) || (ty =? SET) || (ty =? MAP) then
    match getRType t with
    | Ok (RSlice RByte) => Ok (VBytes [])
    | Ok r => Ok (VZero r)
    | _ => Panic
    end
  else if ty =? STRUCT then Ok (VStruct [])
  else Panic.

Inductive reader :=
| RdBool | RdByte | RdInt16 | RdInt32 | RdInt64 | RdString | RdBinary | RdBase64Binary | RdDouble | RdList | RdMap | RdStruct | RdVoid.

Section readers.
Context (opt : readerOption).

Definition nextReader (ty : Z) (t : TypeDescriptor) : RM reader :=
  if negb (ty =? t_Type t) then throw EType
  else if ty =? BOOL then mret RdBool
  else if ty =? BYTE then mret RdByte
  else if ty =? I16 then mret RdInt16
  else if ty =? I32 then mret RdInt32
  else if ty =? I64 then mret RdInt64
  else if ty =? STRING then
    mret (if is_binary t then if binaryWithByteSlice opt then RdBinary else if r_base64 opt then RdBase64Binary else RdString
          else RdString)
  else if ty =? DOUBLE then mret RdDouble
  else if (ty =? LIST) || (ty =? SET) then mret RdList
  else if ty =? MAP then mret RdMap
  else if (ty =? STRUCT) || (ty =? JSON) then mret RdStruct
  else if ty =? VOID then mret RdVoid
  else throw EUnsupported.

(** The holder of a struct before its fields are read: the empty values, then the defaults. *)
Definition set_fields (f : FieldDescriptor -> outcome gerr value) (fields : list FieldDescriptor)
    (st : list (text * value)) : outcome gerr (list (text * value)) :=
  foldl (fun st field =>
    match st with
    | Ok st => match f field with Ok v => Ok (put text_eqb (FieldName field) v st) | Err e => Err e | Panic => Panic end
    | o => o
    end) (Ok st) fields.

Definition set_empty (sd : StructDescriptor) (s : list byte) (st : list (text * value)) : outcome gerr (list (text * value)) :=
  if setFieldsForEmptyStruct opt =? 0 then Ok st
  else
    set_fields (fun field => readEmptyValue (f_Type field))
      (filter (fun field => negb ((setFieldsForEmptyStruct opt =? 1) && Optional field))
         (snd <$> order s (map_to_list (FieldsByID sd)))) st.

Definition set_defaults (sd : StructDescriptor) (s : list byte) (st : list (text * value)) : outcome gerr (list (text * value)) :=
  set_fields (fun field => map_response field (DefaultValue field)) (snd <$> order s (map_to_list (DefaultFields sd))) st.

(** The loops take fuel for their iterations; [read] reads a value one level deeper. *)
Section level.
Context (read : reader -> TypeDescriptor -> RM value).

Fixpoint read_items (fuel : nat) (fn : reader) (t : TypeDescriptor) (n : Z) (l : list value) : RM (list value) :=
  if n <=? 0 then mret l
  else match fuel with
       | O => throw EFuel
       | S fuel => item ← read fn t; read_items fuel fn t (n - 1) (l ++ [item])
       end.

(** [make([]interface{}, 0, n)]: room for [n] interfaces of 16 bytes, or a panic when the
    size is out of range. *)
Definition make_interfaces (n : Z) : outcome gerr unit := if make_ok 16 n then Ok tt else Panic.

Definition readList (fuel : nat) (t : TypeDescriptor) : RM value :=
  '(ty, n) ← rd ReadListBegin;
  e ← deref (t_Elem t);
  fn ← nextReader ty e;
  lift (make_interfaces n);;
  l ← read_items fuel fn e n [];
  mret (VList l).

(** The entries of a map, put into [m] by [add]. *)
Fixpoint read_entries {A} (add : value -> value -> list (A * value) -> RM (list (A * value)))
    (fuel : nat) (kfn efn : reader) (k e : TypeDescriptor) (n : Z) (m : list (A * value)) : RM (list (A * value)) :=
  if n <=? 0 then mret m
  else match fuel with
       | O => throw EFuel
       | S fuel =>
           key ← read kfn k;
           elem ← read efn e;
           m ← add key elem m;
           read_entries add fuel kfn efn k e (n - 1) m
       end.

(** [make] of a map takes the announced number of entries as a hint, which it ignores when
    it is out of range. *)
Definition read_map {A} (add : value -> value -> list (A * value) -> RM (list (A * value)))
    (fuel : nat) (t : TypeDescriptor) : RM (list (A * value)) :=
  '(kty, ety, n) ← rd ReadMapBegin;
  if n =? 0 then mret []
  else
    k ← deref (t_Key t);
    kfn ← nextReader kty k;
    e ← deref (t_Elem t);
    efn ← nextReader ety e;
    read_entries add fuel kfn efn k e n [].

Definition readInterfaceMap (fuel : nat) (t : TypeDescriptor) : RM value :=
  m ← read_map (fun key elem m => if hashable key then mret (put key_eqb key elem m) else panic) fuel t;
  mret (VMap m).

Definition readStringMap (fuel : nat) (t : TypeDescriptor) : RM value :=
  m ← read_map (fun key elem m => mret (put text_eqb (buildinTypeIntoString key) elem m)) fuel t;
  mret (VStruct m).

Definition readMap (fuel : nat) (t : TypeDescriptor) : RM value :=
  if forJSON opt then readStringMap fuel t else readInterfaceMap fuel t.

Fixpoint read_fields (fuel : nat) (sd : StructDescriptor) (rw : gset Z) (st : list (text * value)) : RM (list (text * value)) :=
  match fuel with
  | O => throw EFuel
  | S fuel =>
      '(ty, id) ← rd ReadFieldBegin;
      if ty =? STOP then
        s ← gets left_;
        match CheckRequired sd rw s with Some e => throw e | None => mret st end
      else
        st ← match FieldsByID sd !! id with
             | None => skip ty;; mret st
             | Some field =>
                 fn ← nextReader ty (f_Type field);
                 v ← read fn (f_Type field);
                 v ← lift (map_response field v);
                 mret (put text_eqb (FieldName field) v st)
             end;
        read_fields fuel sd ({[id]} ∪ rw) st
  end.

(** A type without a struct has no fields to look up. *)
Definition readStruct (fuel : nat) (t : TypeDescriptor) : RM value :=
  s ← gets left_;
  match t_Struct t with
  | Some i =>
      sd ← deref (structs !! i);
      st ← lift (set_empty sd s []);
      st ← lift (set_defaults sd s st);
      st ← read_fields fuel sd ∅ st;
      mret (VStruct st)
  | None =>
      '(ty, _) ← rd ReadFieldBegin;
      if ty =? STOP then mret (VStruct []) else panic
  end.

Definition run_reader (fuel : nat) (fn : reader) (t : TypeDescriptor) : RM value :=
  match fn with
  | RdBool => b ← rd ReadBool; mret (VBool b)
  | RdByte => z ← rd ReadByte; mret (VI8 z)
  | RdInt16 => z ← rd ReadI16; mret (VI16 z)
  | RdInt32 => z ← rd ReadI32; mret (VI32 z)
  | RdInt64 => z ← rd ReadI64; mret (VI64 z)
  | RdString => s ← rd ReadString; mret (VStr s)
  | RdBinary => b ← rd ReadBinary; mret (VBytes b)
  | RdBase64Binary => b ← rd ReadBinary; mret (VStr (StdEncode b))
  | RdDouble => z ← rd ReadDouble; mret (VF64 z)
  | RdList => readList fuel t
  | RdMap => readMap fuel t
  | RdStruct => readStruct fuel t
  | RdVoid => readStruct fuel t;; mret VVoid
  end.
End level.

Fixpoint read (fuel : nat) (fn : reader) (t : TypeDescriptor) : RM value :=
  match fuel with
  | O => throw EFuel
  | S n => run_reader (read n) fuel fn t
  end.

(** The arguments or the result of a method; an exception is an error. *)
Fixpoint skip_struct_loop (fuel : nat) (sd : StructDescriptor) (v : value) : RM value :=
  match fuel with
  | O => throw EFuel
  | S fuel =>
      '(ty, id) ← rd ReadFieldBegin;
      if ty =? STOP then mret v
      else
        match FieldsByID sd !! id with
        | None => skip ty;; skip_struct_loop fuel sd v
        | Some field =>
            fn ← nextReader ty (f_Type field);
            v ← read fuel fn (f_Type field);
            if IsException field && throwException opt then throw (EException v) else skip_struct_loop fuel sd v
        end
  end.

Definition skipStructReader (fuel : nat) (t : TypeDescriptor) : RM value :=
  match t_Struct t with
  | Some i => sd ← deref (structs !! i); skip_struct_loop fuel sd VNil
  | None =>
      '(ty, _) ← rd ReadFieldBegin;
      if ty =? STOP then mret VNil else panic
  end.
End readers.

(** ReadStruct.Read; [fuel] bounds nesting and iterations. *)
Definition Read (svc : gmap text FunctionDescriptor) (opt : readerOption) (fuel : nat) (method : text) (isClient : bool) : RM value :=
  fnDsc ← lift (LookupFunctionByMethod svc method);
  let fDsc := if isClient then fn_Response fnDsc else fn_Request fnDsc in
  if IsWithoutWrapping fnDsc then readStruct opt (read opt fuel) (S fuel) fDsc else skipStructReader opt fuel fDsc.

End generic.
