(* ===== verification/ThriftGenericSpec.v ===== *)
(** What a generic Thrift call promises (ThriftGeneric): a message written by one side is
    read by the other as the value [expect] computes from the descriptor and the message. *)

From S2P Require Import Prelude GoText SkipDecoder ThriftGeneric.

(** Equal Go values: a map[string]interface{} has no order. *)
Inductive veq : value -> value -> Prop :=
| veq_refl v : veq v v
| veq_list l l' : Forall2 veq l l' -> veq (VList l) (VList l')
| veq_map m m' : Forall2 (fun p q => fst p = fst q /\ veq (snd p) (snd q)) m m' -> veq (VMap m) (VMap m')
| veq_struct m m' : (forall k, option_Forall2 veq (get k m) (get k m')) -> veq (VStruct m) (VStruct m').

Section spec.
Context {W R Base : Type} {TB : ThriftBuffers W R} {BL : ThriftBase Base} {FL : Floats}.
Context (structs : list StructDescriptor) (isGoTagAliasDisabled : bool).
Context (order : forall A, list byte -> list A -> list A).
Context (wopt : writerOption) (ropt : readerOption).
Abbreviation FieldName := (FieldName isGoTagAliasDisabled).

(** * The value read for a value written *)

Definition fit (w : Z) (o : option Z) : option Z := z ← o; if beyond w z then None else Some z.

(** The integer a value stands for; a byte above 127 is one only for the byte type. *)
Definition number (ty : Z) (v : value) : option Z :=
  match v with
  | VU8 z => if ty =? BYTE then Some (wrapS 8 z) else if (0 <=? z) && (z <? 128) then Some z else None
  | VI8 z | VI16 z | VI32 z | VI64 z => Some z
  | VNumber s => ParseInt s
  | VF64 bits => f64_trunc bits
  | _ => None
  end.

Definition double (v : value) : option Z :=
  bits ← match v with VF64 bits => Some bits | VNumber s => ParseFloat s | _ => None end;
  if (0 <=? bits) && (bits <? 2 ^ 64) then Some bits else None.

Definition sized {A} (l : list A) : option (list A) := if lenZ l <? 2 ^ 31 then Some l else None.

Definition string_bytes (t : TypeDescriptor) (v : value) : option (list byte) :=
  b ← match v with
      | VStr s => if is_binary t && w_base64 wopt then DecodeString true s else Some s
      | VBytes b => Some b
      | _ => None
      end;
  sized b.

(** The string or binary read for bytes. *)
Definition string_value (t : TypeDescriptor) (b : list byte) : value :=
  if is_binary t then if binaryWithByteSlice ropt then VBytes b else if r_base64 ropt then VStr (StdEncode b) else VStr b
  else VStr b.

Definition supported (t : TypeDescriptor) : bool :=
  existsb (Z.eqb (t_Type t)) [BOOL; BYTE; I16; I32; I64; STRING; DOUBLE; LIST; SET; MAP; STRUCT; JSON; VOID].

Definition ok {A} (o : outcome gerr A) : option A := match o with Ok a => Some a | _ => None end.

Definition of_type (t : TypeDescriptor) : option StructDescriptor := i ← t_Struct t; structs !! i.

(** What a field holds before the struct is read: its default or its empty value. *)
Definition initial (sd : StructDescriptor) (f : FieldDescriptor) : option (option value) :=
  e ← (if (setFieldsForEmptyStruct ropt =? 0) || (setFieldsForEmptyStruct ropt =? 1) && Optional f then Some None
       else Some <$> ok (readEmptyValue (f_Type f)));
  match DefaultFields sd !! FieldName f with
  | Some d => Some <$> ok (map_response d (DefaultValue d))
  | None => Some e
  end.

(** A struct whose fields get the values of [g], which is given the initial ones. *)
Definition struct_value (sd : StructDescriptor) (g : FieldDescriptor -> option value -> option (option value)) : option value :=
  es ← mapM (fun '(name, f) => o ← initial sd f; o ← g f o; Some (name, o)) (map_to_list (FieldsByName sd));
  Some (VStruct (omap (fun '(name, o) => pair name <$> o) es)).

(** The map read for its entries. *)
Definition entries_value (m : list (value * value)) : option value :=
  if forJSON ropt then Some (VStruct (foldl (fun m p => put text_eqb (buildinTypeIntoString (fst p)) (snd p) m) [] m))
  else if forallb (fun p => hashable (fst p)) m then Some (VMap (foldl (fun m p => put key_eqb (fst p) (snd p) m) [] m))
  else None.

(** The value of a field that is written though it is not set. *)
Definition zero (t : TypeDescriptor) : option value :=
  let ty := t_Type t in
  if ty =? BOOL then Some (VBool false)
  else if ty =? BYTE then Some (VI8 0)
  else if ty =? I16 then Some (VI16 0)
  else if ty =? I32 then Some (VI32 0)
  else if ty =? I64 then Some (VI64 0)
  else if ty =? DOUBLE then Some (VF64 0)
  else if ty =? STRING then Some (string_value t [])
  else if (ty =? LIST) || (ty =? SET) then e ← t_Elem t; if supported e then Some (VList []) else None
  else if ty =? MAP then k ← t_Key t; e ← t_Elem t; Some (if forJSON ropt then VStruct [] else VMap [])
  else if ty =? STRUCT then
    sd ← of_type t;
    if decide (RequiredFields sd = ∅) then struct_value sd (fun _ o => Some o) else None
  else None.

Section level.
Context (rec : TypeDescriptor -> value -> option value).

Definition expect_elem (t : TypeDescriptor) (v : value) : option value := if is_nil v then zero t else rec t v.

Definition expect_field (m : list (text * value)) (f : FieldDescriptor) (o : option value) : option (option value) :=
  match get (FieldName f) m with
  | None | Some VNil =>
      if Optional f then Some o else z ← zero (f_Type f); Some <$> ok (map_response f z)
  | Some v => v ← ok (map_request f v); v ← rec (f_Type f) v; Some <$> ok (map_response f v)
  end.

Definition expect_struct (m : list (text * value)) (t : TypeDescriptor) : option value :=
  sd ← of_type t; struct_value sd (expect_field m).

Definition expect_entries (k e : TypeDescriptor) (m : list (value * value)) : option value :=
  m ← sized m;
  m ← mapM (fun '(key, elem) => key ← rec k key; elem ← expect_elem e elem; Some (key, elem)) m;
  entries_value m.

Definition expect_ (t : TypeDescriptor) (v : value) : option value :=
  let ty := t_Type t in
  if ty =? BOOL then match v with VBool b => Some (VBool b) | _ => None end
  else if ty =? BYTE then VI8 <$> fit 8 (number ty v)
  else if ty =? I16 then VI16 <$> fit 16 (number ty v)
  else if ty =? I32 then VI32 <$> fit 32 (number ty v)
  else if ty =? I64 then VI64 <$> fit 64 (number ty v)
  else if ty =? DOUBLE then VF64 <$> double v
  else if ty =? STRING then string_value t <$> string_bytes t v
  else if (ty =? LIST) || (ty =? SET) then
    e ← t_Elem t;
    match v with
    | VList l => if supported e then l ← sized l; VList <$> mapM (expect_elem e) l else None
    | VBytes b =>
        if (ty =? LIST) && (t_Type e =? BYTE) then b ← sized b; Some (VList ((fun c => VI8 (wrapS 8 (byteZ c))) <$> b)) else None
    | _ => None
    end
  else if ty =? MAP then
    k ← t_Key t; e ← t_Elem t;
    match v with
    | VMap m => expect_entries k e m
    | VStruct m =>
        m ← mapM (fun '(key, elem) => key ← buildinTypeFromString k key; Some (key, elem)) m;
        expect_entries k e m
    | _ => None
    end
  else if ty =? STRUCT then match v with VStruct m => expect_struct m t | _ => None end
  else if ty =? VOID then
    match v with VNil | VVoid => _ ← expect_struct [] t; Some VVoid | _ => None end
  else None.
End level.

(** [n] bounds the nesting of the message. *)
Fixpoint expect (n : nat) (t : TypeDescriptor) (v : value) : option value :=
  match n with
  | O => None
  | S n => expect_ (expect n) t v
  end.

(** The message of a method. *)
Definition expect_message (n : nat) (f : FunctionDescriptor) (isClient : bool) (v : value) : option value :=
  let t := if isClient then fn_Request f else fn_Response f in
  if IsWithoutWrapping f then if t_Type t =? STRUCT then expect n t v else None
  else
    sd ← of_type t;
    if is_nil v then Some VNil
    else
      match filter (fun p => IsException (snd p) = false) (map_to_list (FieldsByName sd)) with
      | [(_, field)] => expect n (f_Type field) v
      | _ => None
      end.

(** * Descriptors of an IDL *)

(** A value mapping cannot tell equal values apart. *)
Definition respectful (vm : ValueMapping) : Prop :=
  forall v v' u, veq v v' -> vm_Response vm v = inr u -> exists u', vm_Response vm v' = inr u' /\ veq u u'.

Record wf_struct (sd : StructDescriptor) : Prop := {
  wf_name name f : FieldsByName sd !! name = Some f ->
    FieldName f = name /\ FieldsByID sd !! ID f = Some f /\ - 2 ^ 15 <= ID f < 2 ^ 15;
  wf_id id f : FieldsByID sd !! id = Some f -> ID f = id /\ FieldsByName sd !! FieldName f = Some f;
  wf_required id f : RequiredFields sd !! id = Some f -> FieldsByID sd !! id = Some f /\ Optional f = false;
  wf_default name f : DefaultFields sd !! name = Some f -> FieldsByName sd !! name = Some f;
  wf_mapping name f vm : FieldsByName sd !! name = Some f -> f_Mapping f = Some vm -> respectful vm }.

(** * Bytes *)

Lemma wrapS_mod w z : 0 < w -> wrapS w (z mod 2 ^ w) = wrapS w z.
Proof. intros Hw. unfold wrapS. by rewrite Zplus_mod_idemp_l. Qed.

Lemma parse_uint_put n z s : parse_uint n (be_put n z ++ s) = Some (z mod 256 ^ Z.of_nat n, s).
Proof.
  unfold parse_uint. rewrite decide_True by (rewrite length_app, length_be_put; lia).
  rewrite take_app_length', drop_app_length' by (by rewrite length_be_put). by rewrite be_get_put.
Qed.

Lemma parse_int_put n z s : (0 < n)%nat -> parse_int n (be_put n z ++ s) = Some (wrapS (8 * Z.of_nat n) z, s).
Proof.
  intros Hn. unfold parse_int. rewrite parse_uint_put. cbn [mbind option_bind].
  replace (256 ^ Z.of_nat n) with (2 ^ (8 * Z.of_nat n)) by (rewrite Z.pow_mul_r by lia; done).
  by rewrite wrapS_mod by lia.
Qed.

Lemma parse_size_put z s : 0 <= z < 2 ^ 31 -> parse_size (be_put 4 z ++ s) = Some (z, s).
Proof.
  intros Hz. unfold parse_size. rewrite parse_int_put by lia. change (8 * Z.of_nat 4) with 32. cbn [mbind option_bind].
  rewrite wrapS_id by (change (32 - 1) with 31; lia). by destruct (Z.ltb_spec z 0); [lia|].
Qed.

Lemma parse_bytes_put b s : lenZ b < 2 ^ 31 -> parse_bytes (encode (TBytes b) ++ s) = Some (b, s).
Proof.
  intros Hb. unfold parse_bytes, encode. rewrite <-app_assoc, parse_size_put by (unfold lenZ in *; lia).
  cbn [mbind option_bind]. unfold lenZ. destruct (Z.ltb_spec (Z.of_nat (length (b ++ s))) (Z.of_nat (length b))) as [H|H];
    [rewrite length_app in H; lia|]. by rewrite Nat2Z.id, take_app_length, drop_app_length.
Qed.

(** [m] reads the bytes [b] and returns a value [Q] holds of. *)
Definition Takes {A} (m : M R gerr A) (b : list byte) (Q : A -> Prop) : Prop :=
  forall r s, left_ r = b ++ s -> exists a r', m r = (Ok a, r') /\ left_ r' = s /\ Q a.

Lemma Takes_ret {A} (a : A) (Q : A -> Prop) : Q a -> Takes (mret a) [] Q.
Proof. intros HQ r s Hr. by exists a, r. Qed.

Lemma Takes_bind {A B} (m : M R gerr A) (k : A -> M R gerr B) b b' Q Q' :
  Takes m b Q -> (forall a, Q a -> Takes (k a) b' Q') -> Takes (m ≫= k) (b ++ b') Q'.
Proof.
  intros Hm Hk r s Hr. destruct (Hm r (b' ++ s)) as (a & r' & E & Hl & HQ); [by rewrite Hr, app_assoc|].
  unfold mbind, M_bind. rewrite E. by apply Hk.
Qed.

Lemma Takes_bind_r {A B} (m : M R gerr A) (k : A -> M R gerr B) b Q Q' :
  Takes m b Q -> (forall a, Q a -> Takes (k a) [] Q') -> Takes (m ≫= k) b Q'.
Proof. intros Hm Hk. rewrite <-(app_nil_r b). by eapply Takes_bind. Qed.

Lemma Takes_gets {A B} (f : R -> A) (k : A -> M R gerr B) b Q : (forall x, Takes (k x) b Q) -> Takes (gets f ≫= k) b Q.
Proof. intros Hk r s Hr. by apply (Hk (f r)). Qed.

Lemma Takes_lift {A B} (o : outcome gerr A) a (k : A -> M R gerr B) b Q : o = Ok a -> Takes (k a) b Q -> Takes (lift o ≫= k) b Q.
Proof. intros -> Hk r s Hr. by apply Hk. Qed.

Lemma Takes_mono {A} (m : M R gerr A) b (Q Q' : A -> Prop) : Takes m b Q -> (forall a, Q a -> Q' a) -> Takes m b Q'.
Proof. intros Hm HQ r s Hr. destruct (Hm r s Hr) as (a & r' & E & Hl & Ha). eauto 6. Qed.

Lemma Takes_rd {A} (p : list byte -> option (A * list byte)) f a b :
  reads p f -> (forall s, p (b ++ s) = Some (a, s)) -> Takes (rd f) b (eq a).
Proof.
  intros Hf Hp r s Hr. specialize (Hf r). rewrite Hr, Hp in Hf. destruct Hf as [Ha Hs].
  exists a, (snd (f r)). unfold rd. destruct (f r) as [o r']. simpl in *. by subst.
Qed.

(** Without a request base [m] writes bytes [P] holds of. *)
Definition Puts (m : M (wstate (W := W) (Base := Base)) gerr unit) (P : list byte -> Prop) : Prop :=
  forall w, exists w' b, m (mkW w None) = (Ok tt, mkW w' None) /\ written w' = written w ++ b /\ P b.

Lemma Puts_ret (P : list byte -> Prop) : P [] -> Puts (mret tt) P.
Proof. intros HP w. exists w, []. by rewrite app_nil_r. Qed.

Lemma Puts_seq m k (P : list byte -> Prop) :
  Puts m (fun b => Puts k (fun b' => P (b ++ b'))) -> Puts (m;; k) P.
Proof.
  intros Hm w. destruct (Hm w) as (w1 & b & E & Hb & Hk). destruct (Hk w1) as (w2 & b' & E' & Hb' & HP).
  exists w2, (b ++ b'). unfold mbind, M_bind. rewrite E. split; [done|]. split; [by rewrite Hb', Hb, app_assoc|done].
Qed.

Lemma Puts_mono m (P Q : list byte -> Prop) : Puts m P -> (forall b, P b -> Q b) -> Puts m Q.
Proof. intros Hm HPQ w. destruct (Hm w) as (w' & b & E & Hb & HP). eauto 6. Qed.

Lemma Puts_lift {A} (o : outcome gerr A) a k P : o = Ok a -> Puts (k a) P -> Puts (lift o ≫= k) P.
Proof. intros -> Hk w. apply Hk. Qed.

Lemma Puts_gets {A} (f : wstate -> A) k P : (forall s, Puts (k (f s)) P) -> Puts (gets f ≫= k) P.
Proof. intros Hk w. apply (Hk (mkW w None)). Qed.

Lemma Puts_base k P : Puts (k None) P -> Puts (gets requestBase ≫= k) P.
Proof. intros Hk w. apply (Hk w). Qed.

Lemma Puts_modify f k P : (forall w, f (mkW w None) = mkW w None) -> Puts k P -> Puts (modify f;; k) P.
Proof. intros Hf Hk w. unfold mbind, M_bind, modify. rewrite Hf. apply Hk. Qed.

Lemma Puts_emit `{!ReliableWriter W R} k (P : list byte -> Prop) : P (encode k) -> Puts (emit k) P.
Proof.
  intros HP w. pose proof (WriteToken_reliable k w). destruct (WriteToken k w) as [[] w'] eqn:E; [|done].
  exists w', (encode k). unfold emit. cbn [out]. rewrite E. by rewrite (WriteToken_ok _ _ _ E).
Qed.

Abbreviation nextReader := (nextReader (R := R) ropt).
Abbreviation read := (read structs isGoTagAliasDisabled order ropt).
Abbreviation read_fields := (read_fields isGoTagAliasDisabled order ropt).
Abbreviation readStruct := (readStruct structs isGoTagAliasDisabled order ropt).

(** The reader of type [t] takes [b] for a value equal to [v]. *)
Definition Reads (t : TypeDescriptor) (b : list byte) (v : value) : Prop :=
  (0 < length b)%nat /\ supported t = true /\
  forall fn fuel, nextReader (t_Type t) t = mret fn -> (length b < fuel)%nat -> Takes (read fuel fn t) b (veq v).

Lemma supported_range t : supported t = true -> 0 < t_Type t < 256.
Proof. unfold supported. simpl. rewrite !orb_true_iff, !Z.eqb_eq. unfold BOOL, BYTE, I16, I32, I64, STRING, DOUBLE, LIST, SET, MAP, STRUCT, JSON, VOID. lia. Qed.

Lemma nextReader_supported t : supported t = true -> exists fn, nextReader (t_Type t) t = mret fn.
Proof.
  unfold supported. simpl. rewrite !orb_true_iff, !Z.eqb_eq. intros Ht. unfold ThriftGeneric.nextReader. rewrite Z.eqb_refl.
  cbn [negb]. repeat (destruct Ht as [->|Ht]; [cbn; eauto|]). done.
Qed.

Lemma Reads_intro t b v fn :
  (0 < length b)%nat -> supported t = true -> nextReader (t_Type t) t = mret fn ->
  (forall fuel, (length b <= fuel)%nat ->
    Takes (run_reader structs isGoTagAliasDisabled order ropt (read fuel) (S fuel) fn t) b (veq v)) ->
  Reads t b v.
Proof.
  intros Hl Hs Hn Hr. do 2 (split; [done|]). intros fn' [|fuel] Hn' Hf r s Hl'; [lia|].
  assert (fn = fn') as <- by (rewrite Hn in Hn'; by injection (f_equal (fun m => m r) Hn')). by apply Hr; [lia|].
Qed.

Lemma Takes_scalar {A} (p : list byte -> option (A * list byte)) f a b (g : A -> value) :
  reads p f -> (forall s, p (b ++ s) = Some (a, s)) -> Takes (x ← rd f; mret (g x)) b (veq (g a)).
Proof.
  intros Hf Hp. eapply Takes_bind_r; [by eapply Takes_rd|]. intros x <-. apply Takes_ret. constructor.
Qed.

Ltac scalar Ht fn :=
  apply (Reads_intro _ _ _ fn); [cbn; rewrite ?length_app, ?length_be_put; lia|by unfold supported; rewrite Ht|unfold nextReader; rewrite Ht; done|];
  intros fuel Hf; cbn [run_reader].

Lemma Reads_bool t b : t_Type t = BOOL -> Reads t (encode (TBool b)) (VBool b).
Proof.
  intros Ht. scalar Ht RdBool. eapply Takes_scalar; [apply ReadBool_ok|]. intros s. by destruct b.
Qed.

Lemma Reads_byte t z : t_Type t = BYTE -> - 2 ^ 7 <= z < 2 ^ 7 -> Reads t (encode (TByte z)) (VI8 z).
Proof.
  intros Ht Hz. scalar Ht RdByte. eapply Takes_scalar; [apply ReadByte_ok|]. intros s. cbn [encode].
  rewrite parse_int_put by lia. by rewrite wrapS_id.
Qed.

Lemma Reads_i16 t z : t_Type t = I16 -> - 2 ^ 15 <= z < 2 ^ 15 -> Reads t (encode (TI16 z)) (VI16 z).
Proof.
  intros Ht Hz. scalar Ht RdInt16. eapply Takes_scalar; [apply ReadI16_ok|]. intros s. cbn [encode].
  rewrite parse_int_put by lia. by rewrite wrapS_id.
Qed.

Lemma Reads_i32 t z : t_Type t = I32 -> - 2 ^ 31 <= z < 2 ^ 31 -> Reads t (encode (TI32 z)) (VI32 z).
Proof.
  intros Ht Hz. scalar Ht RdInt32. eapply Takes_scalar; [apply ReadI32_ok|]. intros s. cbn [encode].
  rewrite parse_int_put by lia. by rewrite wrapS_id.
Qed.

Lemma Reads_i64 t z : t_Type t = I64 -> - 2 ^ 63 <= z < 2 ^ 63 -> Reads t (encode (TI64 z)) (VI64 z).
Proof.
  intros Ht Hz. scalar Ht RdInt64. eapply Takes_scalar; [apply ReadI64_ok|]. intros s. cbn [encode].
  rewrite parse_int_put by lia. by rewrite wrapS_id.
Qed.

Lemma Reads_double t z : t_Type t = DOUBLE -> 0 <= z < 2 ^ 64 -> Reads t (encode (TDouble z)) (VF64 z).
Proof.
  intros Ht Hz. scalar Ht RdDouble. eapply Takes_scalar; [apply ReadDouble_ok|]. intros s. cbn [encode].
  rewrite parse_uint_put. by rewrite Z.mod_small.
Qed.

Lemma Reads_string t b : t_Type t = STRING -> lenZ b < 2 ^ 31 -> Reads t (encode (TBytes b)) (string_value t b).
Proof.
  intros Ht Hb. pose proof (fun s => parse_bytes_put b s Hb) as Hp. unfold string_value.
  assert (Hn : nextReader (t_Type t) t =
    mret (if is_binary t then if binaryWithByteSlice ropt then RdBinary else if r_base64 ropt then RdBase64Binary else RdString
          else RdString)) by (unfold nextReader; by rewrite Ht).
  eapply Reads_intro; [cbn; lia|by unfold supported; rewrite Ht|exact Hn|]. intros fuel Hf.
  destruct (is_binary t), (binaryWithByteSlice ropt), (r_base64 ropt); cbn [run_reader];
    first [apply (Takes_scalar parse_bytes _ b _ VBytes)|apply (Takes_scalar parse_bytes _ b _ VStr)
          |apply (Takes_scalar parse_bytes _ b _ (fun b => VStr (StdEncode b)))];
    first [exact Hp|apply ReadString_ok|apply ReadBinary_ok].
Qed.

(** * Association lists *)

Lemma get_put_eq {A} k (v : A) m : get k (put text_eqb k v m) = Some v.
Proof.
  induction m as [|[k' v'] m IH]; simpl; [by rewrite decide_True|].
  unfold text_eqb at 1. case_bool_decide; simpl; [by rewrite decide_True|by rewrite decide_False].
Qed.

Lemma get_put_ne {A} k k' (v : A) m : k <> k' -> get k (put text_eqb k' v m) = get k m.
Proof.
  intros Hk. induction m as [|[k1 v1] m IH]; simpl; [by rewrite decide_False|].
  unfold text_eqb at 1. case_bool_decide; simpl; [|by rewrite IH]. subst. by rewrite !decide_False.
Qed.

(** Maps with the same keys in the same order, and equal values. *)
Definition entries_eq {K} : list (K * value) -> list (K * value) -> Prop :=
  Forall2 (fun p q => fst p = fst q /\ veq (snd p) (snd q)).

Lemma entries_eq_put {K} (eqb : K -> K -> bool) k v v' m m' :
  veq v v' -> entries_eq m m' -> entries_eq (put eqb k v m) (put eqb k v' m').
Proof.
  intros Hv Hm. induction Hm as [|[k1 v1] [k2 v2] m m' [E Hv12] Hm IH]; simpl; [by repeat constructor|].
  simpl in E. subst. destruct (eqb k2 k); by constructor.
Qed.

Lemma entries_eq_struct m m' : entries_eq m m' -> veq (VStruct m) (VStruct m').
Proof.
  intros Hm. apply veq_struct. intros k. induction Hm as [|[k1 v1] [k2 v2] m m' [E Hv12] Hm IH]; simpl; [constructor|].
  simpl in E. subst. destruct (decide (k2 = k)); [by constructor|done].
Qed.

(** * Structs *)

Section struct.
Context (sd : StructDescriptor).
Context (Hwf : wf_struct sd).
Context (Horder : forall A s (l : list A), order A s l ≡ₚ l).

(** Fields that have different names. *)
Definition distinct (fs : list FieldDescriptor) : Prop := NoDup (FieldName <$> fs).

Lemma set_fields_get g fs : distinct fs -> forall st,
  (forall f, f ∈ fs -> exists v, g f = Ok v) ->
  exists st', set_fields isGoTagAliasDisabled g fs st = Ok st' /\
    (forall f, f ∈ fs -> exists v, g f = Ok v /\ get (FieldName f) st' = Some v) /\
    (forall k, k ∉ FieldName <$> fs -> get k st' = get k st).
Proof.
  unfold distinct, set_fields. induction fs as [|f fs IH]; intros Hd st Hg; simpl.
  { exists st. split; [done|]. split; [intros f Hf; by apply not_elem_of_nil in Hf|done]. }
  inversion Hd as [|? ? Hf Hd']; subst. destruct (Hg f (list_elem_of_here _ _)) as [v Ev]. rewrite Ev.
  destruct (IH Hd' (put text_eqb (FieldName f) v st)) as (st' & E & Hin & Hout);
    [intros f' Hf'; apply Hg; by apply list_elem_of_further|].
  exists st'. split; [done|]. split.
  - intros f' [->|Hf']%elem_of_cons; [|by apply Hin]. exists v. split; [done|]. rewrite Hout by done. apply get_put_eq.
  - intros k Hk. apply not_elem_of_cons in Hk as [Hk Hk']. rewrite Hout by done. by apply get_put_ne.
Qed.

(** The fields of a map of the struct, in any order. *)
Lemma fields_of {K} `{Countable K} (m : gmap K FieldDescriptor) s f : f ∈ snd <$> order _ s (map_to_list m) <-> exists k, m !! k = Some f.
Proof.
  rewrite (Horder _ s (map_to_list m)). rewrite list_elem_of_fmap. split.
  - intros ([k f'] & -> & Hk%elem_of_map_to_list). by exists k.
  - intros [k Hk]. exists (k, f). by rewrite elem_of_map_to_list.
Qed.

Lemma distinct_map {K} `{Countable K} (m : gmap K FieldDescriptor) s :
  (forall k k' f f', m !! k = Some f -> m !! k' = Some f' -> FieldName f = FieldName f' -> k = k') ->
  distinct (snd <$> order _ s (map_to_list m)).
Proof.
  intros Hm. unfold distinct. rewrite (Horder _ s (map_to_list m)), <-list_fmap_compose.
  apply NoDup_fmap_2_strong; [|apply NoDup_map_to_list].
  intros [k f] [k' f'] Hk%elem_of_map_to_list Hk'%elem_of_map_to_list E. simpl in E.
  assert (k = k') as -> by eauto. congruence.
Qed.

Lemma distinct_filter P `{!forall f, Decision (P f)} fs : distinct fs -> distinct (filter P fs).
Proof.
  unfold distinct. intros Hd. eapply sublist_NoDup; [exact Hd|]. apply fmap_sublist, sublist_filter.
Qed.

(** Every field of the struct has an initial value. *)
Context (Hinit : forall name f, FieldsByName sd !! name = Some f -> exists o, initial sd f = Some o).

Definition unset (f : FieldDescriptor) : bool :=
  (setFieldsForEmptyStruct ropt =? 0) || (setFieldsForEmptyStruct ropt =? 1) && Optional f.

Lemma empty_holder s :
  exists st, set_empty isGoTagAliasDisabled order ropt sd s [] = Ok st /\
    forall k, get k st = (f ← FieldsByName sd !! k; if unset f then None else ok (readEmptyValue (f_Type f))).
Proof.
  unfold set_empty, unset in *. unfold initial in Hinit.
  destruct (Z.eqb_spec (setFieldsForEmptyStruct ropt) 0) as [E|E]; simpl in *.
  { exists []. split; [done|]. intros k. by destruct (FieldsByName sd !! k). }
  assert (Hd : distinct (snd <$> order _ s (map_to_list (FieldsByID sd)))).
  { apply distinct_map. intros id id' f f' Hf Hf' En.
    destruct (wf_id _ Hwf _ _ Hf) as [<- H1], (wf_id _ Hwf _ _ Hf') as [<- H2]. congruence. }
  apply (distinct_filter (fun f => negb ((setFieldsForEmptyStruct ropt =? 1) && Optional f))) in Hd.
  destruct (set_fields_get (fun f => readEmptyValue (f_Type f)) _ Hd []) as (st & Est & Hin & Hout); [|exists st; split; [exact Est|]].
  - intros f [Hf Hk]%list_elem_of_filter. apply fields_of in Hk as [id Hid]. apply Is_true_true, negb_true_iff in Hf.
    destruct (wf_id _ Hwf _ _ Hid) as [_ Hn]. destruct (Hinit _ _ Hn) as [o Ho]. rewrite Hf in Ho.
    destruct (readEmptyValue (f_Type f)) as [v| |]; [by exists v|done|done].
  - intros k. destruct (FieldsByName sd !! k) as [f|] eqn:Hk; simpl.
    + destruct (wf_name _ Hwf _ _ Hk) as (<- & Hid & _).
      destruct ((setFieldsForEmptyStruct ropt =? 1) && Optional f) eqn:Hu.
      * apply Hout. intros (f' & En & [Hf Hf']%list_elem_of_filter)%list_elem_of_fmap.
        apply fields_of in Hf' as [id Hf']. destruct (wf_id _ Hwf _ _ Hf') as [_ Hn].
        rewrite <-En, Hk in Hn. injection Hn as <-. by rewrite Hu in Hf.
      * destruct (Hin f) as (v & -> & Hv); [|done]. apply list_elem_of_filter. split; [by rewrite Hu|].
        apply fields_of. eauto.
    + apply Hout. intros (f & -> & [_ Hf]%list_elem_of_filter)%list_elem_of_fmap.
      apply fields_of in Hf as [id Hf]. destruct (wf_id _ Hwf _ _ Hf) as [_ Hn]. congruence.
Qed.

(** The holder of a struct before its fields are read. *)
Lemma initial_holder s :
  exists st st', set_empty isGoTagAliasDisabled order ropt sd s [] = Ok st /\ set_defaults isGoTagAliasDisabled order sd s st = Ok st' /\
    forall k, get k st' = (f ← FieldsByName sd !! k; default None (initial sd f)).
Proof.
  destruct (empty_holder s) as (st & Est & Hst). exists st. unfold set_defaults.
  assert (Hdis : distinct (snd <$> order _ s (map_to_list (DefaultFields sd)))).
  { apply distinct_map. intros n n' f f' Hf%(wf_default _ Hwf) Hf'%(wf_default _ Hwf) En.
    apply (wf_name _ Hwf) in Hf as [<- _]. by apply (wf_name _ Hwf) in Hf' as [<- _]. }
  destruct (set_fields_get (fun f => map_response f (DefaultValue f)) _ Hdis st) as (st' & Est' & Hin & Hout);
    [|exists st'; split; [done|]; split; [exact Est'|]].
  - intros f Hf. apply fields_of in Hf as [n Hd]. pose proof (wf_default _ Hwf _ _ Hd) as Hn.
    destruct (wf_name _ Hwf _ _ Hn) as (<- & _). destruct (Hinit _ _ Hn) as [o Ho]. unfold initial in Ho. rewrite Hd in Ho.
    apply bind_Some in Ho as (e & _ & Ho). destruct (map_response f (DefaultValue f)) as [v| |]; [by exists v|done|done].
  - intros k. destruct (FieldsByName sd !! k) as [f|] eqn:Hk; simpl.
    + destruct (wf_name _ Hwf _ _ Hk) as (<- & _). destruct (Hinit _ _ Hk) as [o Ho]. rewrite Ho. simpl.
      unfold initial in Ho. apply bind_Some in Ho as (e & He & Ho).
      destruct (DefaultFields sd !! FieldName f) as [d|] eqn:Hd.
      * pose proof (wf_default _ Hwf _ _ Hd). assert (d = f) as -> by congruence.
        destruct (Hin f) as (v & Ev & ->); [apply fields_of; eauto|]. rewrite Ev in Ho. by injection Ho as <-.
      * injection Ho as <-. rewrite Hout, Hst, Hk; simpl.
        -- fold (unset f) in He. destruct (unset f); [by injection He as <-|].
           destruct (ok (readEmptyValue (f_Type f))); by inversion He.
        -- intros (d & En & Hf)%list_elem_of_fmap. apply fields_of in Hf as [n Hf].
           destruct (wf_name _ Hwf _ _ (wf_default _ Hwf _ _ Hf)) as [<- _]. congruence.
    + rewrite Hout, Hst, Hk; [done|]. intros (d & -> & Hf)%list_elem_of_fmap. apply fields_of in Hf as [n Hf].
      pose proof (wf_default _ Hwf _ _ Hf) as Hn. destruct (wf_name _ Hwf _ _ Hn) as [<- _]. congruence.
Qed.

Lemma parse_field_put t id s :
  0 < t < 256 -> - 2 ^ 15 <= id < 2 ^ 15 -> parse_field (encode (TField t (wrapS 16 id)) ++ s) = Some ((t, id), s).
Proof.
  intros Ht Hid. unfold parse_field. cbn [encode]. rewrite <-app_assoc, parse_uint_put. cbn [mbind option_bind].
  rewrite Z.mod_small by (cbn; lia). destruct (Z.eqb_spec t STOP); [unfold STOP in *; lia|].
  rewrite parse_int_put by lia. change (8 * Z.of_nat 2) with 16. cbn [mbind option_bind]. by rewrite !wrapS_id by (rewrite ?wrapS_id; lia).
Qed.

Lemma Takes_stop : Takes (rd ReadFieldBegin) (encode TStop) (eq (STOP, 0)).
Proof. eapply Takes_rd; [apply ReadFieldBegin_ok|]. done. Qed.

Lemma map_response_veq f v0 v0' v :
  FieldsByName sd !! FieldName f = Some f -> veq v0 v0' -> map_response f v0 = Ok v -> exists v', map_response f v0' = Ok v' /\ veq v v'.
Proof.
  intros Hf Hv. unfold map_response, map_value. destruct (f_Mapping f) as [vm|] eqn:Hm; [|intros [= ->]; eauto].
  destruct (vm_Response vm v0) as [|u] eqn:E; intros [= ->].
  destruct (wf_mapping _ Hwf _ _ _ Hf Hm _ _ _ Hv E) as (u' & -> & Hu). eauto.
Qed.

(** The bytes of a field that is read as [v], and of several. *)
Definition Chunk (f : FieldDescriptor) (v : value) (b : list byte) : Prop :=
  FieldsByName sd !! FieldName f = Some f /\
  exists b0 v0, b = encode (TField (t_Type (f_Type f)) (wrapS 16 (ID f))) ++ b0 /\ Reads (f_Type f) b0 v0 /\ map_response f v0 = Ok v.

Inductive Chunks : list (FieldDescriptor * value) -> list byte -> Prop :=
| Chunks_nil : Chunks [] []
| Chunks_cons f v ws b b' : Chunk f v b -> Chunks ws b' -> Chunks ((f, v) :: ws) (b ++ b').

Lemma Chunks_length ws b : Chunks ws b -> (length ws <= length b)%nat.
Proof.
  induction 1 as [|f v ws b b' (_ & b0 & v0 & -> & (Hb & _) & _) H IH]; simpl; [lia|]. rewrite !length_app. lia.
Qed.

(** [st'] is [st] with the fields of [ws]. *)
Definition updated (ws : list (FieldDescriptor * value)) (st st' : list (text * value)) : Prop :=
  (forall f v, (f, v) ∈ ws -> exists v', get (FieldName f) st' = Some v' /\ veq v v') /\
  (forall k, k ∉ FieldName <$> ws.*1 -> get k st' = get k st).

Lemma CheckRequired_ok rw s :
  (forall id f, RequiredFields sd !! id = Some f -> id ∈ rw) -> CheckRequired order sd rw s = None.
Proof.
  intros Hr. unfold CheckRequired. destruct (filter _ _) as [|[id f] l] eqn:E; [done|exfalso].
  assert (Hin : (id, f) ∈ filter (fun '(id, _) => id ∉ rw) (order _ s (map_to_list (RequiredFields sd)))) by (rewrite E; left).
  apply list_elem_of_filter in Hin as [Hid Hin]. rewrite (Horder _ s (map_to_list _)) in Hin.
  apply elem_of_map_to_list in Hin. by apply Hr in Hin.
Qed.

Lemma read_chunks n ws b : Chunks ws b -> forall fuel rw st,
  (length b < n)%nat -> (length ws < fuel)%nat -> NoDup (FieldName <$> ws.*1) ->
  (forall id f, RequiredFields sd !! id = Some f -> id ∈ rw \/ id ∈ ID <$> ws.*1) ->
  Takes (read_fields (read n) fuel sd rw st) (b ++ encode TStop) (updated ws st).
Proof.
  induction 1 as [|f v ws b b' (Hf & b0 & v0 & -> & (Hb & Hs & Hread) & Hv) Hws IH];
    intros [|fuel] rw st Hn Hfuel Hd Hreq; simpl in Hfuel; try lia.
  - apply (Takes_bind_r _ _ _ _ _ Takes_stop). intros ? <-. simpl. apply Takes_gets. intros s.
    rewrite CheckRequired_ok; [|intros id f Hid; destruct (Hreq id f Hid) as [?|Hin]; [done|by apply not_elem_of_nil in Hin]].
    apply Takes_ret. split; [|done]. intros f v Hin. by apply not_elem_of_nil in Hin.
  - destruct (wf_name _ Hwf _ _ Hf) as (_ & Hid & Hrange). pose proof (supported_range _ Hs) as Ht. destruct (nextReader_supported _ Hs) as [fn Hfn].
    inversion Hd as [|? ? Hfresh Hd']; subst. rewrite !length_app in Hn. rewrite <-!app_assoc.
    eapply Takes_bind; [eapply Takes_rd; [apply ReadFieldBegin_ok|by intros; apply parse_field_put]|]. intros ? <-.
    destruct (Z.eqb_spec (t_Type (f_Type f)) STOP); [unfold STOP in *; lia|]. rewrite Hid, Hfn.
    eapply (Takes_bind _ _ _ _ (fun st1 => exists v', st1 = put text_eqb (FieldName f) v' st /\ veq v v')).
    + apply (Takes_bind_r _ _ b0 (veq v0) _ (Hread fn n Hfn ltac:(lia))). intros v1 Hv1.
      destruct (map_response_veq f v0 v1 v Hf Hv1 Hv) as (v' & Ev' & Hv').
      eapply Takes_lift; [exact Ev'|]. apply Takes_ret. eauto.
    + intros ? (v' & -> & Hv'). eapply Takes_mono; [apply IH; try done; try lia|].
      * intros id f' Hf'. destruct (Hreq id f' Hf') as [?|[->|?]%elem_of_cons]; set_solver.
      * intros st' [Hin Hout]. split.
        -- intros f' u [[= -> ->]|Hin']%elem_of_cons; [|by apply Hin]. exists v'. split; [|done].
           rewrite Hout by done. apply get_put_eq.
        -- intros k [Hk Hk']%not_elem_of_cons. rewrite Hout by done. by apply get_put_ne.
Qed.

Lemma readStruct_takes n fuel t ws b :
  of_type t = Some sd -> Chunks ws b -> (length b < n)%nat -> (length ws < fuel)%nat -> NoDup (FieldName <$> ws.*1) ->
  (forall id f, RequiredFields sd !! id = Some f -> id ∈ ID <$> ws.*1) ->
  Takes (readStruct (read n) fuel t) (b ++ encode TStop) (fun v => exists st st', v = VStruct st' /\ updated ws st st' /\
    forall k, get k st = (f ← FieldsByName sd !! k; default None (initial sd f))).
Proof.
  intros Ht Hws Hn Hfuel Hd Hreq. unfold readStruct, of_type in *. apply Takes_gets. intros s.
  destruct (t_Struct t) as [i|]; [|done]. simpl in Ht. rewrite Ht. cbn [deref].
  destruct (initial_holder s) as (st1 & st & E1 & E & Hst).
  eapply (Takes_lift (Ok sd)); [done|]. do 2 (eapply Takes_lift; [eassumption|]).
  eapply Takes_bind_r; [apply (read_chunks n ws b Hws); try done; eauto|].
  intros st' Hst'. apply Takes_ret. eauto.
Qed.

(** The fields of a struct value. *)
Lemma struct_value_get g v :
  struct_value sd g = Some v ->
  exists m, v = VStruct m /\
    (forall k f, FieldsByName sd !! k = Some f -> exists o, initial sd f = Some o /\ g f o = Some (get k m)) /\
    (forall k, FieldsByName sd !! k = None -> get k m = None).
Proof.
  unfold struct_value. intros (es & Hes & [= <-])%bind_Some. eexists. split; [done|].
  enough (H : forall l, NoDup l.*1 -> forall es, mapM (fun '(name, f) => o ← initial sd f; o ← g f o; Some (name, o)) l = Some es ->
    (forall k f, (k, f) ∈ l -> exists o, initial sd f = Some o /\ g f o = Some (get k (omap (fun '(name, o) => pair name <$> o) es))) /\
    (forall k, k ∉ l.*1 -> get k (omap (fun '(name, o) => pair name <$> o) es) = None)).
  { destruct (H _ (NoDup_fst_map_to_list _) _ Hes) as [Hin Hout]. split.
    - intros k f Hf. apply Hin. by apply elem_of_map_to_list.
    - intros k Hk. apply Hout. intros ([k' f] & -> & Hf%elem_of_map_to_list)%list_elem_of_fmap. simpl in Hk. congruence. }
  clear es Hes. induction l as [|[k f] l IH]; intros Hd es Hes; simpl in Hes.
  { injection Hes as <-. split; [|done]. intros k f Hf. by apply not_elem_of_nil in Hf. }
  inversion Hd as [|? ? Hk Hd']; subst. apply bind_Some in Hes as (e & He & (es' & Hes & [= <-])%bind_Some).
  apply bind_Some in He as (o & Ho & (o' & Ho' & [= <-])%bind_Some).
  destruct (IH Hd' es' Hes) as [Hin Hout]. split.
  - intros k' f' [[= -> ->]|Hf']%elem_of_cons.
    + exists o. split; [done|]. rewrite Ho'. f_equal. destruct o'; simpl; [by rewrite decide_True|by rewrite Hout].
    + destruct (Hin _ _ Hf') as (o1 & H1 & H2). exists o1. split; [done|]. rewrite H2. f_equal.
      destruct o'; simpl; [|done]. rewrite decide_False; [done|]. intros ->. apply Hk. apply list_elem_of_fmap. by exists (k', f').
  - intros k' [Hk1 Hk2]%not_elem_of_cons. simpl in Hk1. destruct o'; simpl; [rewrite decide_False by done|]; by apply Hout.
Qed.

End struct.
(** * Writing and reading back *)

Section trip.
Context {RW : ReliableWriter W R}.
Context (Hwf : Forall wf_struct structs).
Context (Horder : forall A s (l : list A), order A s l ≡ₚ l).

Abbreviation Trip m t v := (Puts m (fun b => Reads t b v)).

Lemma of_type_wf t sd : of_type t = Some sd -> wf_struct sd.
Proof. unfold of_type. intros (i & _ & Hi)%bind_Some. by eapply Forall_lookup_1. Qed.

Lemma struct_of_ok {S} t sd : of_type t = Some sd -> struct_of structs t = (mret sd : M S gerr _).
Proof.
  unfold of_type, struct_of. destruct (t_Struct t) as [i|]; [|done]. simpl.
  intros E. change (deref (S := S) (structs !! i) = mret sd). by rewrite E.
Qed.

Lemma parse_list_put t n s : 0 < t < 256 -> 0 <= n < 2 ^ 31 -> parse_list (encode (TList t n) ++ s) = Some ((t, n), s).
Proof.
  intros Ht Hn. unfold parse_list. cbn [encode]. rewrite <-app_assoc, parse_uint_put. cbn [mbind option_bind].
  rewrite parse_size_put by done. cbn [mbind option_bind]. by rewrite Z.mod_small by (cbn; lia).
Qed.

Lemma parse_map_put k e n s :
  0 <= n < 2 ^ 31 -> parse_map (encode (TMap k e n) ++ s) = Some ((k mod 256, e mod 256, n), s).
Proof.
  intros Hn. unfold parse_map. cbn [encode]. rewrite <-!app_assoc, parse_uint_put. cbn [mbind option_bind].
  rewrite parse_uint_put. cbn [mbind option_bind]. rewrite parse_size_put by done. done.
Qed.

(** The items of a list. *)
Definition Items (e : TypeDescriptor) (vs : list value) (b : list byte) : Prop :=
  (length vs <= length b)%nat /\
  forall fn n fuel l, nextReader (t_Type e) e = mret fn -> (length b < n)%nat -> (length vs <= fuel)%nat ->
    Takes (read_items (read n) fuel fn e (lenZ vs) l) b (fun l' => exists vs', l' = l ++ vs' /\ Forall2 veq vs vs').

Lemma Items_nil e : Items e [] [].
Proof.
  split; [done|]. intros fn n [|fuel] l Hfn Hn Hf; cbn; apply Takes_ret; exists []; by rewrite app_nil_r.
Qed.

Lemma Items_cons e v vs b b' : Reads e b v -> Items e vs b' -> Items e (v :: vs) (b ++ b').
Proof.
  intros (Hb & Hs & Hr) [Hl Hi]. split; [rewrite length_app; simpl; lia|].
  intros fn n [|fuel] l Hfn Hn Hf; rewrite length_app in Hn; simpl in Hf; [lia|].
  unfold read_items; fold (read_items (read n)). unfold lenZ. rewrite length_cons.
  destruct (Z.leb_spec (Z.of_nat (S (length vs))) 0); [lia|].
  eapply Takes_bind; [apply (Hr fn n Hfn); lia|]. intros v' Hv'.
  replace (Z.of_nat (S (length vs)) - 1) with (lenZ vs) by (unfold lenZ; lia).
  eapply Takes_mono; [apply Hi; [done|lia|lia]|]. intros l' (vs' & -> & Hvs). exists (v' :: vs').
  split; [by rewrite <-app_assoc|by constructor].
Qed.

Lemma make_interfaces_ok n : 0 <= n < 2 ^ 31 -> make_interfaces n = Ok tt.
Proof.
  intros Hn. unfold make_interfaces, make_ok.
  by rewrite (proj2 (Z.leb_le 0 n)), (proj2 (Z.leb_le (16 * n) (2 ^ 48))) by lia.
Qed.

Lemma Reads_list t e vs b :
  t_Type t = LIST \/ t_Type t = SET -> t_Elem t = Some e -> supported e = true -> lenZ vs < 2 ^ 31 -> Items e vs b ->
  Reads t (encode (TList (t_Type e) (lenZ vs)) ++ b) (VList vs).
Proof.
  intros Ht He Hs Hl [Hlen Hi]. destruct (nextReader_supported e Hs) as [fn Hfn]. apply (Reads_intro _ _ _ RdList).
  - rewrite length_app. cbn. lia.
  - unfold supported. destruct Ht as [-> | ->]; done.
  - unfold nextReader. destruct Ht as [-> | ->]; done.
  - intros fuel Hf. rewrite length_app in Hf. cbn [encode] in Hf. rewrite length_app, !length_be_put in Hf.
    cbn [run_reader]. unfold readList.
    eapply Takes_bind; [eapply Takes_rd; [apply ReadListBegin_ok|intros; apply parse_list_put; [by apply supported_range|unfold lenZ in *; lia]]|].
    intros ? <-. rewrite He. eapply (Takes_lift (Ok e)); [done|]. rewrite Hfn. eapply (Takes_lift (Ok fn)); [done|].
    rewrite make_interfaces_ok by (unfold lenZ in *; lia). eapply (Takes_lift (Ok tt)); [done|].
    eapply Takes_bind_r; [apply Hi; [done|lia|lia]|]. intros l (vs' & -> & Hvs). apply Takes_ret. by apply veq_list.
Qed.

(** The bytes of the entries of a map. *)
Inductive Pairs (k e : TypeDescriptor) : list (value * value) -> list byte -> Prop :=
| Pairs_nil : Pairs k e [] []
| Pairs_cons key elem es b1 b2 b' :
    Reads k b1 key -> Reads e b2 elem -> Pairs k e es b' -> Pairs k e ((key, elem) :: es) (b1 ++ b2 ++ b').

(** The entries, put into a Go map whose keys are of type [K]. *)
Section entries.
Context {K : Type} (eqb : K -> K -> bool) (kf : value -> option K).
Context (add : value -> value -> list (K * value) -> M R gerr (list (K * value))).
Context (Hadd : forall key key' elem k m, veq key key' -> kf key = Some k -> add key' elem m = mret (put eqb k elem m)).

Definition put_entry (m : list (K * value)) (p : value * value) : list (K * value) :=
  match kf (fst p) with Some k => put eqb k (snd p) m | None => m end.

Definition Entries (k e : TypeDescriptor) (es : list (value * value)) (b : list byte) : Prop :=
  (length es <= length b)%nat /\ (es = [] /\ b = [] \/ es <> [] /\ supported k = true /\ supported e = true) /\
  forall kfn efn n fuel m m', nextReader (t_Type k) k = mret kfn -> nextReader (t_Type e) e = mret efn ->
    (length b < n)%nat -> (length es <= fuel)%nat -> (forall p, p ∈ es -> is_Some (kf (fst p))) -> entries_eq m m' ->
    Takes (read_entries (read n) add fuel kfn efn k e (lenZ es) m') b (entries_eq (foldl put_entry m es)).

Lemma Entries_nil k e : Entries k e [] [].
Proof.
  split; [done|]. split; [by left|]. intros kfn efn n [|fuel] m m' _ _ _ _ _ Hm; cbn; by apply Takes_ret.
Qed.

Lemma Entries_cons k e key elem es b1 b2 b' :
  Reads k b1 key -> Reads e b2 elem -> Entries k e es b' -> Entries k e ((key, elem) :: es) (b1 ++ b2 ++ b').
Proof.
  intros (Hb1 & Hk & Hr1) (Hb2 & He & Hr2) (Hl & _ & Hes). split; [rewrite !length_app; simpl; lia|]. split; [by right|].
  intros kfn efn n [|fuel] m m' Hkfn Hefn Hn Hf Hkf Hm; rewrite !length_app in Hn; simpl in Hf; [lia|].
  unfold read_entries; fold (read_entries (R := R) (read n) (A := K)). unfold lenZ. rewrite length_cons.
  destruct (Z.leb_spec (Z.of_nat (S (length es))) 0); [lia|].
  eapply Takes_bind; [apply (Hr1 kfn n Hkfn); lia|]. intros key' Hkey.
  eapply Takes_bind; [apply (Hr2 efn n Hefn); lia|]. intros elem' Helem.
  destruct (Hkf (key, elem) ltac:(left)) as [k0 Hk0]. simpl in Hk0.
  replace (Z.of_nat (S (length es)) - 1) with (lenZ es) by (unfold lenZ; lia).
  rewrite (Hadd key key' elem' k0 m' Hkey Hk0). cbn [foldl]. unfold put_entry at 2. simpl. rewrite Hk0.
  eapply (Takes_lift (Ok (put eqb k0 elem' m'))); [done|]. apply Hes; try done; try lia.
  - intros p Hp. apply Hkf. by right.
  - by apply entries_eq_put.
Qed.

Lemma Pairs_Entries k e es b : Pairs k e es b -> Entries k e es b.
Proof. induction 1; [apply Entries_nil|by apply Entries_cons]. Qed.

Lemma read_map_takes t k e es b n fuel :
  t_Key t = Some k -> t_Elem t = Some e -> lenZ es < 2 ^ 31 -> Pairs k e es b -> (forall p, p ∈ es -> is_Some (kf (fst p))) ->
  (length b < n)%nat -> (length b <= fuel)%nat ->
  Takes (read_map ropt (read n) add fuel t) (encode (TMap (t_Type k) (t_Type e) (lenZ es)) ++ b) (entries_eq (foldl put_entry [] es)).
Proof.
  intros Hk He Hl (Hlen & Hsup & Hes)%Pairs_Entries Hkf Hn Hf. unfold read_map.
  eapply Takes_bind; [eapply Takes_rd; [apply ReadMapBegin_ok|intros; apply parse_map_put; unfold lenZ in *; lia]|]. intros ? <-.
  destruct (Z.eqb_spec (lenZ es) 0) as [E|E].
  - destruct es; [|unfold lenZ in E; simpl in E; lia]. destruct Hsup as [[_ ->]|[? _]]; [|done]. apply Takes_ret. constructor.
  - destruct Hsup as [[-> _]|(_ & Hsk & Hse)]; [done|].
    destruct (nextReader_supported k Hsk) as [kfn Hkfn], (nextReader_supported e Hse) as [efn Hefn].
    apply supported_range in Hsk, Hse. rewrite !Z.mod_small by lia. rewrite Hk, He.
    eapply (Takes_lift (Ok k)); [done|]. rewrite Hkfn. eapply (Takes_lift (Ok kfn)); [done|].
    eapply (Takes_lift (Ok e)); [done|]. rewrite Hefn. eapply (Takes_lift (Ok efn)); [done|].
    apply Hes; try done; try lia. constructor.
Qed.
End entries.

Lemma veq_hashable v v' : veq v v' -> hashable v = true -> v' = v.
Proof. by inversion 1. Qed.

Lemma veq_string v v' : veq v v' -> buildinTypeIntoString v' = buildinTypeIntoString v.
Proof. by inversion 1. Qed.

Definition hashable_key (v : value) : option value := if hashable v then Some v else None.

Lemma foldl_hashable es : forallb (fun p => hashable (fst p)) es = true -> forall m,
  foldl (put_entry key_eqb hashable_key) m es = foldl (fun m p => put key_eqb (fst p) (snd p) m) m es.
Proof.
  induction es as [|p es IH]; intros Hh m; [done|]. simpl in *. apply andb_true_iff in Hh as [Hp Hh].
  unfold put_entry at 2, hashable_key. rewrite Hp. by apply IH.
Qed.

Lemma Reads_map t k e es b v :
  t_Type t = MAP -> t_Key t = Some k -> t_Elem t = Some e -> lenZ es < 2 ^ 31 -> Pairs k e es b -> entries_value es = Some v ->
  Reads t (encode (TMap (t_Type k) (t_Type e) (lenZ es)) ++ b) v.
Proof.
  intros Ht Hk He Hl Hes Hv. apply (Reads_intro _ _ _ RdMap).
  - rewrite length_app. cbn. lia.
  - unfold supported. by rewrite Ht.
  - unfold ThriftGeneric.nextReader. by rewrite Ht.
  - intros fuel Hf. rewrite length_app in Hf. cbn [encode] in Hf. rewrite !length_app, !length_be_put in Hf.
    cbn [run_reader]. unfold readMap. unfold entries_value in Hv. destruct (forJSON ropt).
    + injection Hv as <-. eapply Takes_bind_r.
      * apply (read_map_takes text_eqb (fun v => Some (buildinTypeIntoString v))) with (es := es); try done; try lia.
        intros key key' elem k' m Hkey [= <-]. by rewrite (veq_string _ _ Hkey).
      * intros m Hm. apply Takes_ret. by apply entries_eq_struct.
    + destruct (forallb (fun p => hashable (fst p)) es) eqn:Hh; [|done]. injection Hv as <-.
      eapply Takes_bind_r.
      * apply (read_map_takes key_eqb hashable_key) with (es := es); try done; try lia.
        -- unfold hashable_key. intros key key' elem k' m Hkey Hk'. destruct (hashable key) eqn:Hh'; [|done].
           injection Hk' as <-. by rewrite (veq_hashable _ _ Hkey Hh'), Hh'.
        -- intros p Hp. rewrite forallb_forall in Hh. unfold hashable_key. rewrite Hh by by apply list_elem_of_In. by eexists.
      * intros m Hm. apply Takes_ret. rewrite foldl_hashable in Hm by done. by apply veq_map.
Qed.

(** [ws] are the fields whose values [g] gives, the others keep their initial values. *)
Definition fields_written (sd : StructDescriptor) (g : FieldDescriptor -> option value -> option (option value))
    (ws : list (FieldDescriptor * value)) : Prop :=
  NoDup (FieldName <$> ws.*1) /\
  (forall id f, RequiredFields sd !! id = Some f -> id ∈ ID <$> ws.*1) /\
  (forall k f o o', FieldsByName sd !! k = Some f -> initial sd f = Some o -> g f o = Some o' ->
    (exists v, o' = Some v /\ (f, v) ∈ ws) \/ o' = o /\ FieldName f ∉ FieldName <$> ws.*1).

Lemma struct_takes t sd g v ws b n fuel :
  of_type t = Some sd -> struct_value sd g = Some v -> Chunks sd ws b -> fields_written sd g ws ->
  (length b < n)%nat -> (length b < fuel)%nat -> Takes (readStruct (read n) fuel t) (b ++ encode TStop) (veq v).
Proof.
  intros Ht Hv Hws (Hd & Hreq & Hlink) Hn Hf. pose proof (of_type_wf _ _ Ht) as Hsd. pose proof (Chunks_length _ _ _ Hws).
  destruct (struct_value_get _ _ _ Hv) as (m & -> & Hin & Hout).
  eapply Takes_mono; [apply (readStruct_takes sd Hsd Horder) with (ws := ws); try done; try lia|].
  { intros k f Hk. destruct (Hin k f Hk) as (o & Ho & _). eauto. }
  intros u (st & st' & -> & [Hw Hu] & Hst). apply veq_struct. intros k.
  destruct (FieldsByName sd !! k) as [f|] eqn:Hk.
  - destruct (Hin k f Hk) as (o & Ho & Hg). destruct (wf_name _ Hsd _ _ Hk) as (<- & _).
    destruct (Hlink _ _ _ _ Hk Ho Hg) as [(v & -> & Hfv)|[-> Hfresh]].
    + destruct (Hw _ _ Hfv) as (v' & -> & Hv'). by constructor.
    + rewrite Hu, Hst, Hk by done. simpl. rewrite Ho. destruct o; repeat constructor.
  - rewrite (Hout k Hk), Hu, Hst, Hk; [constructor|]. intros (f & -> & ([f' v] & -> & Hfv)%list_elem_of_fmap)%list_elem_of_fmap.
    assert (FieldsByName sd !! FieldName f' = Some f'); [|simpl in *; congruence].
    clear -Hws Hfv. induction Hws as [|f v0 ws b b' [Hf _] _ IH]; [by apply not_elem_of_nil in Hfv|].
    apply elem_of_cons in Hfv as [[= -> ->]|Hfv]; auto.
Qed.

Lemma Reads_struct t sd g v ws b :
  t_Type t = STRUCT -> of_type t = Some sd -> struct_value sd g = Some v -> Chunks sd ws b -> fields_written sd g ws ->
  Reads t (b ++ encode TStop) v.
Proof.
  intros Ht Hsd Hv Hws Hw. apply (Reads_intro _ _ _ RdStruct).
  - rewrite length_app. cbn. lia.
  - unfold supported. by rewrite Ht.
  - unfold ThriftGeneric.nextReader. by rewrite Ht.
  - intros fuel Hf. rewrite length_app in Hf. cbn in Hf. cbn [run_reader]. eapply struct_takes; try done; lia.
Qed.

Lemma Reads_void t sd g v ws b :
  t_Type t = VOID -> of_type t = Some sd -> struct_value sd g = Some v -> Chunks sd ws b -> fields_written sd g ws ->
  Reads t (b ++ encode TStop) VVoid.
Proof.
  intros Ht Hsd Hv Hws Hw. apply (Reads_intro _ _ _ RdVoid).
  - rewrite length_app. cbn. lia.
  - unfold supported. by rewrite Ht.
  - unfold ThriftGeneric.nextReader. by rewrite Ht.
  - intros fuel Hf. rewrite length_app in Hf. cbn in Hf. cbn [run_reader].
    eapply Takes_bind_r; [eapply struct_takes; try done; lia|]. intros _ _. apply Takes_ret. constructor.
Qed.

Lemma zero_trip t v : zero t = Some v -> Trip (writeEmptyValue t) t v.
Proof.
  unfold zero, writeEmptyValue.
  destruct (Z.eqb_spec (t_Type t) BOOL); [intros [= <-]; by apply Puts_emit, Reads_bool|].
  destruct (Z.eqb_spec (t_Type t) BYTE); [intros [= <-]; by apply Puts_emit, Reads_byte|].
  destruct (Z.eqb_spec (t_Type t) I16); [intros [= <-]; by apply Puts_emit, Reads_i16|].
  destruct (Z.eqb_spec (t_Type t) I32); [intros [= <-]; by apply Puts_emit, Reads_i32|].
  destruct (Z.eqb_spec (t_Type t) I64); [intros [= <-]; by apply Puts_emit, Reads_i64|].
  destruct (Z.eqb_spec (t_Type t) DOUBLE); [intros [= <-]; by apply Puts_emit, Reads_double|].
  destruct (Z.eqb_spec (t_Type t) STRING); [intros [= <-]; by apply Puts_emit, Reads_string|].
  destruct ((t_Type t =? LIST) || (t_Type t =? SET)) eqn:Hl.
  { intros (e & He & Hv)%bind_Some. destruct (supported e) eqn:Hs; [|done]. injection Hv as <-. rewrite He.
    eapply (Puts_lift (Ok e)); [done|]. apply Puts_emit. rewrite <-(app_nil_r (encode _)).
    apply Reads_list with (vs := []); try done; [|apply Items_nil]. rewrite orb_true_iff, !Z.eqb_eq in Hl. done. }
  destruct (Z.eqb_spec (t_Type t) MAP) as [Hm|_].
  { intros (k & Hk & (e & He & [= <-])%bind_Some)%bind_Some. rewrite Hk, He.
    eapply (Puts_lift (Ok k)); [done|]. eapply (Puts_lift (Ok e)); [done|]. apply Puts_emit. rewrite <-(app_nil_r (encode _)).
    apply Reads_map with (es := []); try done; [constructor|]. unfold entries_value. by destruct (forJSON ropt). }
  destruct (Z.eqb_spec (t_Type t) STRUCT); [|done].
  intros (sd & Hsd & Hv)%bind_Some. case_decide as Hr; [|done]. apply Puts_emit.
  apply (Reads_struct t sd _ v []) with (b := []) in Hv; try done; [constructor|].
  split; [constructor|]. split; [by rewrite Hr|]. intros k f o o' _ _ [= <-]. right. split; [done|]. apply not_elem_of_nil.
Qed.

(** One level of the writers: [rec] gives the values [write] writes. *)
Section level.
Context (rec : TypeDescriptor -> value -> option value) (write : value -> TypeDescriptor -> M (wstate (W := W) (Base := Base)) gerr unit).
Context (Hrec : forall t v v', rec t v = Some v' -> Trip (write v t) t v').

Lemma elem_trip t v v' : expect_elem rec t v = Some v' -> Trip (write_elem write t v) t v'.
Proof. unfold expect_elem, write_elem. destruct (is_nil v); [apply zero_trip|apply Hrec]. Qed.

Lemma Chunk_emit sd f v0 v m :
  FieldsByName sd !! FieldName f = Some f -> map_response f v0 = Ok v -> Trip m (f_Type f) v0 ->
  Puts (emit (TField (t_Type (f_Type f)) (wrapS 16 (ID f)));; m) (Chunk sd f v).
Proof.
  intros Hf Hv Hm. apply Puts_seq, Puts_emit. eapply Puts_mono; [exact Hm|]. intros b Hb. split; [done|]. by exists b, v0.
Qed.

Lemma field_trip sd m f o o' :
  FieldsByName sd !! FieldName f = Some f -> expect_field rec m f o = Some o' ->
  o' = o /\ Optional f = true /\ Puts (write_field isGoTagAliasDisabled write m f) (fun b => b = []) \/
  exists v, o' = Some v /\ Puts (write_field isGoTagAliasDisabled write m f) (Chunk sd f v).
Proof.
  intros Hf. unfold expect_field, write_field.
  assert (Habsent : (if Optional f then Some o else z ← zero (f_Type f); Some <$> ok (map_response f z)) = Some o' ->
    let m := if Optional f then mret tt else emit (TField (t_Type (f_Type f)) (wrapS 16 (ID f)));; writeEmptyValue (f_Type f) in
    o' = o /\ Optional f = true /\ Puts m (fun b => b = []) \/ exists v, o' = Some v /\ Puts m (Chunk sd f v)).
  { destruct (Optional f); simpl; [intros [= <-]; left; split; [done|split; [done|by apply Puts_ret]]|].
    intros (z & Hz & Hv)%bind_Some. right.
    destruct (map_response f z) as [v| |] eqn:Ev; [|done|done]. injection Hv as <-. exists v. split; [done|].
    by apply (Chunk_emit sd f z); [done| |apply zero_trip]. }
  assert (Hpresent : forall v, (v ← ok (map_request f v); v ← rec (f_Type f) v; Some <$> ok (map_response f v)) = Some o' ->
    exists u, o' = Some u /\ Puts (v ← lift (map_request f v);
      emit (TField (t_Type (f_Type f)) (wrapS 16 (ID f)));; write v (f_Type f)) (Chunk sd f u)).
  { intros v (v1 & H1 & (v2 & H2 & H3)%bind_Some)%bind_Some.
    destruct (map_request f v) as [v1'| |] eqn:E1; [|done|done]. injection H1 as ->.
    destruct (map_response f v2) as [u| |] eqn:E2; [|done|done]. injection H3 as <-. exists u. split; [done|].
    eapply Puts_lift; [done|]. by apply (Chunk_emit sd f v2); [| |apply Hrec]. }
  destruct (get (FieldName f) m) as [v|].
  - destruct v; intros Ho; try (right; destruct (Hpresent _ Ho) as (u & -> & Hu); exists u; split; [done|]; by apply Puts_base).
    destruct (Habsent Ho) as [(? & ? & ?)|(u & ? & ?)]; [left|right; exists u]; eauto using Puts_base.
  - intros Ho. destruct (Habsent Ho) as [(? & ? & ?)|(u & ? & ?)]; [left|right; exists u]; eauto using Puts_base.
Qed.

(** The fields of a list, written one after the other. *)
Lemma fields_trip sd m (fs : list (text * FieldDescriptor)) :
  (forall k f, (k, f) ∈ fs -> FieldsByName sd !! FieldName f = Some f /\ exists o o', initial sd f = Some o /\ expect_field rec m f o = Some o') ->
  NoDup (FieldName <$> fs.*2) ->
  Puts (for_each (fun '(_, field) => write_field isGoTagAliasDisabled write m field) fs) (fun b => exists ws, Chunks sd ws b /\
    FieldName <$> ws.*1 `sublist_of` FieldName <$> fs.*2 /\
    forall k f o o', (k, f) ∈ fs -> initial sd f = Some o -> expect_field rec m f o = Some o' ->
      (exists v, o' = Some v /\ (f, v) ∈ ws) \/ (o' = o /\ Optional f = true) /\ FieldName f ∉ FieldName <$> ws.*1).
Proof.
  induction fs as [|[k f] fs IH]; intros Hfs Hd.
  { apply Puts_ret. exists []. split; [constructor|]. split; [done|]. intros k f o o' Hf. by apply not_elem_of_nil in Hf. }
  inversion Hd as [|? ? Hfresh Hd']; subst. destruct (Hfs k f ltac:(left)) as (Hf & o & o' & Ho & Ho').
  specialize (IH (fun k' f' H => Hfs k' f' ltac:(by right)) Hd'). apply Puts_seq.
  destruct (field_trip sd m f o o' Hf Ho') as [(-> & Hopt & Hp)|(v & -> & Hp)]; (eapply Puts_mono; [exact Hp|]; intros b Hb).
  - cbn beta in Hb. subst b. eapply Puts_mono; [exact IH|]. intros b' (ws & Hws & Hsub & Hlink). exists ws. split; [done|].
    split; [by constructor|]. intros k' f' o1 o2 [[= -> ->]|Hin]%elem_of_cons Ho1 Ho2; [|by eapply Hlink].
    right. split; [split; congruence|]. intros Hin. apply Hfresh. exact (elem_of_sublist _ _ _ Hin Hsub).
  - eapply Puts_mono; [exact IH|]. intros b' (ws & Hws & Hsub & Hlink). exists ((f, v) :: ws). split; [by constructor|].
    split; [by constructor|]. intros k' f' o1 o2 [[= -> ->]|Hin]%elem_of_cons Ho1 Ho2.
    + left. exists v. split; [congruence|left].
    + destruct (Hlink k' f' o1 o2 Hin Ho1 Ho2) as [(u & -> & Hu)|[Ho12 Hn]]; [left; exists u; split; [done|by right]|right].
      split; [done|]. intros [E|Hin']%elem_of_cons; [|done]. apply Hfresh. simpl in E. rewrite <-E.
      apply list_elem_of_fmap. exists f'. split; [done|]. apply list_elem_of_fmap. by exists (k', f').
Qed.

Lemma struct_fields_trip m t sd v :
  of_type t = Some sd -> struct_value sd (expect_field rec m) = Some v ->
  Puts (writeStruct structs isGoTagAliasDisabled order write m t)
    (fun b => exists ws b', b = b' ++ encode TStop /\ Chunks sd ws b' /\ fields_written sd (expect_field rec m) ws).
Proof.
  intros Ht Hv. unfold writeStruct. pose proof (of_type_wf _ _ Ht) as Hsd. rewrite (struct_of_ok _ _ Ht).
  destruct (struct_value_get _ _ _ Hv) as (es & -> & Hin & _). eapply (Puts_lift (Ok sd)); [done|]. apply Puts_gets. intros w. generalize (written (out w)). intros s.
  assert (Hfs : forall k f, (k, f) ∈ order _ s (map_to_list (FieldsByName sd)) <-> FieldsByName sd !! k = Some f).
  { intros k f. by rewrite (Horder _ s (map_to_list _)), elem_of_map_to_list. }
  assert (Hd : NoDup (FieldName <$> (order _ s (map_to_list (FieldsByName sd))).*2)).
  { apply distinct_map; [done|]. intros k k' f f' Hk Hk' E.
    apply (wf_name _ Hsd) in Hk as [<- _], Hk' as [<- _]. done. }
  apply Puts_seq. eapply Puts_mono; [apply fields_trip with (sd := sd); [|exact Hd]|].
  { intros k f Hf%Hfs. destruct (Hin k f Hf) as (o & Ho & Ho'). destruct (wf_name _ Hsd _ _ Hf) as (<- & _). eauto. }
  intros b (ws & Hws & Hsub & Hlink). apply Puts_emit. exists ws, b. split; [done|]. split; [done|].
  split; [by eapply sublist_NoDup|]. split.
  - intros id f Hr. destruct (wf_required _ Hsd _ _ Hr) as [Hid Hopt]. destruct (wf_id _ Hsd _ _ Hid) as [<- Hn].
    destruct (Hin _ _ Hn) as (o & Ho & Ho'). destruct (Hlink _ _ _ _ (proj2 (Hfs _ _) Hn) Ho Ho') as [(v & _ & Hfv)|[[_ ?] _]]; [|congruence].
    apply list_elem_of_fmap. exists f. split; [done|]. apply list_elem_of_fmap. by exists (f, v).
  - intros k f o o' Hf Ho Ho'. destruct (Hlink k f o o' (proj2 (Hfs _ _) Hf) Ho Ho') as [?|[[-> _] ?]]; [by left|by right].
Qed.

Lemma struct_trip m t v :
  t_Type t = STRUCT -> expect_struct rec m t = Some v -> Trip (writeStruct structs isGoTagAliasDisabled order write m t) t v.
Proof.
  intros Ht (sd & Hsd & Hv)%bind_Some. eapply Puts_mono; [by apply struct_fields_trip with (v := v)|].
  intros b (ws & b' & -> & Hws & Hw). by eapply Reads_struct.
Qed.

Lemma void_trip m t v :
  t_Type t = VOID -> expect_struct rec m t = Some v -> Trip (writeStruct structs isGoTagAliasDisabled order write m t) t VVoid.
Proof.
  intros Ht (sd & Hsd & Hv)%bind_Some. eapply Puts_mono; [by apply struct_fields_trip with (v := v)|].
  intros b (ws & b' & -> & Hws & Hw). by eapply Reads_void.
Qed.

Lemma items_trip e l vs :
  mapM (expect_elem rec e) l = Some vs -> Puts (for_each (write_elem write e) l) (Items e vs).
Proof.
  revert vs. induction l as [|v l IH]; intros vs Hvs; simpl in Hvs.
  { injection Hvs as <-. apply Puts_ret, Items_nil. }
  apply bind_Some in Hvs as (v' & Hv & (vs' & Hvs & [= <-])%bind_Some). apply Puts_seq.
  eapply Puts_mono; [by apply elem_trip|]. intros b Hb. eapply Puts_mono; [by apply IH|]. intros b' Hb'. by apply Items_cons.
Qed.

Lemma list_trip t e l vs :
  t_Type t = LIST \/ t_Type t = SET -> t_Elem t = Some e -> supported e = true -> lenZ l < 2 ^ 31 ->
  mapM (expect_elem rec e) l = Some vs -> Trip (writeList write l t) t (VList vs).
Proof.
  intros Ht He Hs Hl Hvs. unfold writeList. rewrite He. eapply (Puts_lift (Ok e)); [done|]. apply Puts_seq, Puts_emit.
  pose proof (length_mapM _ _ _ Hvs) as Hlen. replace (lenZ l) with (lenZ vs) in * by (unfold lenZ; lia).
  eapply Puts_mono; [by apply items_trip|]. intros b Hb. by apply Reads_list.
Qed.

Lemma binary_list_trip t e b :
  t_Type t = LIST -> t_Elem t = Some e -> t_Type e = BYTE -> lenZ b < 2 ^ 31 ->
  Trip (writeBinaryList b t) t (VList ((fun c => VI8 (wrapS 8 (byteZ c))) <$> b)).
Proof.
  intros Ht He Hs Hl. unfold writeBinaryList. rewrite He. eapply (Puts_lift (Ok e)); [done|]. apply Puts_seq, Puts_emit.
  replace (lenZ b) with (lenZ ((fun c => VI8 (wrapS 8 (byteZ c))) <$> b)) in * by (unfold lenZ; by rewrite length_fmap).
  apply (Puts_mono _ (Items e ((fun c => VI8 (wrapS 8 (byteZ c))) <$> b)));
    [|intros b' Hb'; apply Reads_list; [by left|done|unfold supported; by rewrite Hs|done|done]].
  clear Hl. induction b as [|c b IH]; [apply Puts_ret, Items_nil|]. apply Puts_seq, Puts_emit. eapply Puts_mono; [exact IH|].
  intros b' Hb'. apply Items_cons; [|done]. apply Reads_byte; [done|]. by apply (wrapS_range 8).
Qed.

Lemma entries_trip k e m es :
  mapM (fun '(key, elem) => key ← rec k key; elem ← expect_elem rec e elem; Some (key, elem)) m = Some es ->
  Puts (for_each (fun '(key, elem) => write key k;; write_elem write e elem) m) (Pairs k e es).
Proof.
  revert es. induction m as [|[key elem] m IH]; intros es Hes; simpl in Hes.
  { injection Hes as <-. apply Puts_ret. constructor. }
  apply bind_Some in Hes as ([key' elem'] & He & (es' & Hes & [= <-])%bind_Some).
  apply bind_Some in He as (? & Hk & (? & He & [= <- <-])%bind_Some).
  apply Puts_seq, Puts_seq. eapply Puts_mono; [by apply Hrec|]. intros b1 Hb1. eapply Puts_mono; [by apply elem_trip|].
  intros b2 Hb2. eapply Puts_mono; [by apply IH|]. intros b' Hb'. rewrite <-app_assoc. by constructor.
Qed.

Lemma map_trip t k e m v :
  t_Type t = MAP -> t_Key t = Some k -> t_Elem t = Some e -> expect_entries rec k e m = Some v ->
  Trip (writeInterfaceMap write m t) t v.
Proof.
  intros Ht Hk He (m' & Hm & (es & Hes & Hv)%bind_Some)%bind_Some. unfold sized in Hm.
  destruct (Z.ltb_spec (lenZ m) (2 ^ 31)); [|done]. injection Hm as ->.
  pose proof (length_mapM _ _ _ Hes) as Hlen. unfold writeInterfaceMap. rewrite Hk, He.
  eapply (Puts_lift (Ok k)); [done|]. eapply (Puts_lift (Ok e)); [done|]. apply Puts_seq, Puts_emit.
  replace (lenZ m') with (lenZ es) in * by (unfold lenZ; lia).
  eapply Puts_mono; [by apply entries_trip|]. intros b Hb. by apply Reads_map.
Qed.

End level.

Abbreviation getWriterAndWrite := (getWriterAndWrite structs isGoTagAliasDisabled order wopt).

Abbreviation nextWriter := (nextWriter (W := W) (Base := Base) wopt).

Lemma getWriterAndWrite_eq n v t fn :
  nextWriter v t = mret fn ->
  getWriterAndWrite (S n) v t = run_writer structs isGoTagAliasDisabled order (getWriterAndWrite n) fn v t.
Proof. intros E. cbn [ThriftGeneric.getWriterAndWrite]. by rewrite E. Qed.

(** The integer types and their widths. *)
Definition int_width (ty w : Z) : Prop := ty = BYTE /\ w = 8 \/ ty = I16 /\ w = 16 \/ ty = I32 /\ w = 32 \/ ty = I64 /\ w = 64.

Lemma beyond_spec w z : beyond w z = false <-> - 2 ^ (w - 1) <= z < 2 ^ (w - 1).
Proof. unfold beyond. rewrite orb_false_iff, !Z.ltb_ge. lia. Qed.

Lemma int_write n t w v z :
  int_width (t_Type t) w -> number (t_Type t) v = Some z -> beyond w z = false ->
  getWriterAndWrite (S n) v t = write_int (t_Type t) z.
Proof.
  intros Ht Hv Hb. assert (Hw : wrapS w z = z) by (apply wrapS_id; [by destruct Ht as [[_ ->]|[[_ ->]|[[_ ->]|[_ ->]]]]|by apply beyond_spec]).
  destruct v; try done; simpl in Hv; try injection Hv as ->;
    erewrite getWriterAndWrite_eq
      by (unfold ThriftGeneric.nextWriter, typeOf; destruct Ht as [[-> _]|[[-> _]|[[-> _]|[-> _]]]]; reflexivity);
    destruct Ht as [[Ht ->]|[[Ht ->]|[[Ht ->]|[Ht ->]]]]; rewrite Ht in *; cbn [run_writer];
    unfold writeInt8, writeJSONNumber, writeJSONFloat64, f64_int, writeInt16, writeInt32, writeInt64, writeInt8;
    rewrite ?Ht, ?Hv; cbn -[beyond wrapS write_int]; rewrite ?Hb, ?Hw; try done.
  5-7: lazymatch goal with |- mret ?i ≫= ?f = _ => change (mret i ≫= f) with (f i); cbn beta end; by rewrite Hw.
  1: by injection Hv as <-.
  all: change (_ =? BYTE) with false in Hv; cbn iota in Hv; destruct ((0 <=? z0) && (z0 <? 128)) eqn:E; [|done]; injection Hv as ->.
  all: apply andb_true_iff in E as [E1%Z.leb_le E2%Z.ltb_lt]; by rewrite (wrapS_id 8) by (cbn; lia).
Qed.

Lemma fit_spec w o z : fit w o = Some z <-> o = Some z /\ beyond w z = false.
Proof.
  unfold fit. rewrite bind_Some. split.
  - intros (z' & -> & H). destruct (beyond w z') eqn:E; [done|]. by injection H as <-.
  - intros [-> H]. exists z. by rewrite H.
Qed.

(** The scalar types. *)
Lemma int_trip n t v w z :
  int_width (t_Type t) w -> fit w (number (t_Type t) v) = Some z ->
  Trip (getWriterAndWrite (S n) v t) t
    (if w =? 8 then VI8 z else if w =? 16 then VI16 z else if w =? 32 then VI32 z else VI64 z).
Proof.
  intros Ht [Hv Hz]%fit_spec. rewrite (int_write n t w v z) by done. apply beyond_spec in Hz. unfold write_int.
  destruct Ht as [[Ht ->]|[[Ht ->]|[[Ht ->]|[Ht ->]]]]; rewrite Ht; cbn -[emit]; apply Puts_emit;
    [by apply Reads_byte|by apply Reads_i16|by apply Reads_i32|by apply Reads_i64].
Qed.

Lemma double_trip n t v z : t_Type t = DOUBLE -> double v = Some z -> Trip (getWriterAndWrite (S n) v t) t (VF64 z).
Proof.
  intros Ht (bits & Hv & Hz)%bind_Some. destruct ((0 <=? bits) && (bits <? 2 ^ 64)) eqn:Hb; [|done]. injection Hz as ->.
  apply andb_true_iff in Hb as [?%Z.leb_le ?%Z.ltb_lt].
  destruct v; try done;
    (erewrite getWriterAndWrite_eq by (unfold ThriftGeneric.nextWriter, typeOf; rewrite Ht; reflexivity)); cbn [run_writer];
    unfold writeJSONFloat64, writeJSONNumber; rewrite Ht; cbn -[writeFloat64 Z.pow]; [injection Hv as ->|rewrite Hv];
    by apply Puts_emit, Reads_double.
Qed.

Lemma sized_Some {A} (l l' : list A) : sized l = Some l' -> l' = l /\ lenZ l < 2 ^ 31.
Proof. unfold sized. destruct (Z.ltb_spec (lenZ l) (2 ^ 31)); [|done]. by intros [= ->]. Qed.

Lemma string_trip n t v b : t_Type t = STRING -> string_bytes t v = Some b -> Trip (getWriterAndWrite (S n) v t) t (string_value t b).
Proof.
  intros Ht (b' & Hv & [-> Hl]%sized_Some)%bind_Some.
  destruct v; try done;
    (erewrite getWriterAndWrite_eq by (unfold ThriftGeneric.nextWriter, typeOf; rewrite Ht; reflexivity)); cbn [run_writer].
  - destruct (is_binary t && w_base64 wopt); cbn [run_writer]; [unfold writeBase64Binary; rewrite Hv|injection Hv as <-]; by apply Puts_emit, Reads_string.
  - injection Hv as <-. cbn [run_writer]. by apply Puts_emit, Reads_string.
Qed.

Lemma string_map_eq write k e m m' :
  mapM (fun '(key, elem) => key ← buildinTypeFromString k key; Some (key, elem)) m = Some m' ->
  for_each (fun '(key, elem) =>
    match buildinTypeFromString k key with
    | None => throw EParse
    | Some key => write key k;; write_elem (W := W) (Base := Base) write e elem
    end) m = for_each (fun '(key, elem) => write key k;; write_elem write e elem) m'.
Proof.
  revert m'. induction m as [|[key elem] m IH]; intros m' Hm; simpl in Hm; [by injection Hm as <-|].
  apply bind_Some in Hm as ([key' elem'] & Hk & (m1 & Hm1 & [= <-])%bind_Some).
  apply bind_Some in Hk as (? & Hk & [= <- <-]). unfold for_each in *. cbn [foldr]. rewrite Hk. by rewrite (IH m1 Hm1).
Qed.

Lemma string_map_write write t k e m m' :
  t_Key t = Some k -> t_Elem t = Some e ->
  mapM (fun '(key, elem) => key ← buildinTypeFromString k key; Some (key, elem)) m = Some m' ->
  writeStringMap (W := W) (Base := Base) write m t = writeInterfaceMap write m' t.
Proof.
  intros Hk He Hm. unfold writeStringMap, writeInterfaceMap. rewrite Hk, He. cbn [deref].
  do 2 lazymatch goal with |- mret ?a ≫= ?f = mret ?a ≫= ?g => change (f a = g a); cbn beta end.
  rewrite (string_map_eq _ _ _ _ _ Hm). unfold lenZ. by rewrite (length_mapM _ _ _ Hm).
Qed.

(** A value that is expected is written, and read back as the value expected. *)
Lemma expect_trip n : forall t v v', expect n t v = Some v' -> Trip (getWriterAndWrite n v t) t v'.
Proof.
  induction n as [|n IH]; intros t v v' Hv; [done|]. cbn [expect] in Hv. unfold expect_ in Hv.
  destruct (Z.eqb_spec (t_Type t) BOOL) as [Ht|_].
  { destruct v; try done. injection Hv as <-. erewrite getWriterAndWrite_eq by (unfold ThriftGeneric.nextWriter, typeOf; rewrite Ht; reflexivity).
    by apply Puts_emit, Reads_bool. }
  destruct (Z.eqb_spec (t_Type t) BYTE) as [Ht|_].
  { apply fmap_Some in Hv as (z & Hz & ->). by apply (int_trip n t v 8); [left|]. }
  destruct (Z.eqb_spec (t_Type t) I16) as [Ht|_].
  { apply fmap_Some in Hv as (z & Hz & ->). by apply (int_trip n t v 16); [right; left|]. }
  destruct (Z.eqb_spec (t_Type t) I32) as [Ht|_].
  { apply fmap_Some in Hv as (z & Hz & ->). by apply (int_trip n t v 32); [do 2 right; left|]. }
  destruct (Z.eqb_spec (t_Type t) I64) as [Ht|_].
  { apply fmap_Some in Hv as (z & Hz & ->). by apply (int_trip n t v 64); [do 3 right|]. }
  destruct (Z.eqb_spec (t_Type t) DOUBLE) as [Ht|_].
  { apply fmap_Some in Hv as (z & Hz & ->). by apply double_trip. }
  destruct (Z.eqb_spec (t_Type t) STRING) as [Ht|_].
  { apply fmap_Some in Hv as (b & Hb & ->). by apply string_trip. }
  destruct ((t_Type t =? LIST) || (t_Type t =? SET)) eqn:Hl.
  { apply orb_true_iff in Hl. rewrite !Z.eqb_eq in Hl. apply bind_Some in Hv as (e & He & Hv).
    destruct v as [| | | | | | | | | | |b|l| | | |]; try done.
    - destruct ((t_Type t =? LIST) && (t_Type e =? BYTE)) eqn:Hb; [|done]. rewrite andb_true_iff, !Z.eqb_eq in Hb. destruct Hb as [Ht Hte].
      apply bind_Some in Hv as (b' & [-> Hb]%sized_Some & [= <-]).
      erewrite getWriterAndWrite_eq by (unfold ThriftGeneric.nextWriter, typeOf; rewrite Ht; reflexivity). by eapply binary_list_trip.
    - destruct (supported e) eqn:Hs; [|done]. apply bind_Some in Hv as (l' & [-> Hll]%sized_Some & (vs & Hvs & ->)%fmap_Some).
      erewrite getWriterAndWrite_eq by (unfold ThriftGeneric.nextWriter, typeOf; destruct Hl as [-> | ->]; reflexivity).
      by eapply (list_trip (expect n)). }
  destruct (Z.eqb_spec (t_Type t) MAP) as [Ht|_].
  { apply bind_Some in Hv as (k & Hk & (e & He & Hv)%bind_Some). destruct v; try done.
    - erewrite getWriterAndWrite_eq by (unfold ThriftGeneric.nextWriter, typeOf; rewrite Ht; reflexivity).
      by eapply (map_trip (expect n)).
    - apply bind_Some in Hv as (m' & Hm & Hv).
      erewrite getWriterAndWrite_eq by (unfold ThriftGeneric.nextWriter, typeOf; rewrite Ht; reflexivity).
      pose proof (map_trip (expect n) (getWriterAndWrite n) IH t k e m' v' Ht Hk He Hv) as Htrip. cbn [run_writer].
      by rewrite (string_map_write _ t k e m m' Hk He Hm). }
  destruct (Z.eqb_spec (t_Type t) STRUCT) as [Ht|_].
  { destruct v; try done. erewrite getWriterAndWrite_eq by (unfold ThriftGeneric.nextWriter, typeOf; rewrite Ht; reflexivity).
    by eapply (struct_trip (expect n)). }
  destruct (Z.eqb_spec (t_Type t) VOID) as [Ht|_]; [|done].
  destruct v; try done; apply bind_Some in Hv as (u & Hu & [= <-]);
    (erewrite getWriterAndWrite_eq by (unfold ThriftGeneric.nextWriter, typeOf; rewrite Ht; reflexivity)); by eapply (void_trip (expect n)).
Qed.

(** * Messages *)

Lemma for_each_ext {S A} (f g : A -> M S gerr unit) l : (forall a, f a = g a) -> for_each f l = for_each g l.
Proof. intros E. induction l as [|a l IH]; [done|]. unfold for_each in *. cbn [foldr]. by rewrite E, IH. Qed.

Lemma for_each_filter {S A} (p : A -> bool) (g : A -> M S gerr unit) l :
  for_each (fun a => if p a then mret tt else g a) l = for_each g (filter (fun a => p a = false) l).
Proof.
  induction l as [|a l IH]; [done|]. rewrite filter_cons. unfold for_each in *. cbn [foldr]. destruct (p a) eqn:E.
  - rewrite decide_False by done. exact IH.
  - rewrite decide_True by done. cbn [foldr]. by rewrite IH.
Qed.

(** The field that holds the message of a method. *)
Lemma wrap_trip n t sd k f v v' :
  of_type t = Some sd -> is_nil v = false ->
  filter (fun p => IsException (snd p) = false) (map_to_list (FieldsByName sd)) = [(k, f)] ->
  expect n (f_Type f) v = Some v' ->
  Puts (wrapStructWriter structs isGoTagAliasDisabled order wopt n v t)
    (fun b => exists b0, b = (encode (TField (t_Type (f_Type f)) (wrapS 16 (ID f))) ++ b0) ++ encode TStop /\ Reads (f_Type f) b0 v').
Proof.
  intros Ht Hnil Hf Hv. unfold wrapStructWriter. rewrite (struct_of_ok _ _ Ht). eapply (Puts_lift (Ok sd)); [done|].
  apply Puts_gets. intros w. generalize (written (out w)). intros s. rewrite Hnil.
  assert (Hfs : filter (fun p => IsException (snd p) = false) (order _ s (map_to_list (FieldsByName sd))) = [(k, f)]).
  { apply Permutation_singleton_r. rewrite <-Hf. by rewrite (Horder _ s (map_to_list _)). }
  rewrite (for_each_ext _ (fun p : text * FieldDescriptor => if IsException (snd p) then mret tt else
    emit (TField (t_Type (f_Type (snd p))) (wrapS 16 (ID (snd p))));; getWriterAndWrite n v (f_Type (snd p))))
    by (intros [k' f']; cbn [snd]; by rewrite orb_false_r).
  rewrite (for_each_filter (fun p => IsException (snd p))), Hfs. cbn [for_each foldr snd].
  do 3 apply Puts_seq. apply Puts_emit. eapply Puts_mono; [by apply expect_trip|]. intros b Hb.
  apply Puts_ret, Puts_emit. exists b. by rewrite app_nil_r.
Qed.

(** A nil message has no field. *)
Lemma wrap_nil_trip n t sd v :
  of_type t = Some sd -> is_nil v = true ->
  Puts (wrapStructWriter structs isGoTagAliasDisabled order wopt n v t) (fun b => b = encode TStop).
Proof.
  intros Ht Hnil. unfold wrapStructWriter. rewrite (struct_of_ok _ _ Ht). eapply (Puts_lift (Ok sd)); [done|].
  apply Puts_gets. intros w. apply Puts_seq. rewrite Hnil.
  induction (order _ _ _) as [|[k f] fs IH]; [by apply Puts_ret, Puts_emit|].
  unfold for_each in *. cbn [foldr]. rewrite orb_true_r. exact IH.
Qed.

Lemma skip_nil_takes t sd fuel :
  of_type t = Some sd -> (0 < fuel)%nat ->
  Takes (skipStructReader structs isGoTagAliasDisabled order ropt fuel t) (encode TStop) (veq VNil).
Proof.
  intros Ht Hf. unfold skipStructReader, of_type in *. destruct (t_Struct t) as [i|]; [|done]. simpl in Ht. rewrite Ht.
  cbn [deref]. eapply (Takes_lift (Ok sd)); [done|]. destruct fuel as [|fuel]; [lia|]. cbn [skip_struct_loop].
  apply (Takes_bind_r _ _ _ _ _ Takes_stop). intros ? <-. apply Takes_ret. constructor.
Qed.

Lemma skip_takes t sd f v b fuel :
  of_type t = Some sd -> FieldsByName sd !! FieldName f = Some f -> IsException f = false -> Reads (f_Type f) b v ->
  (length b + 3 < fuel)%nat ->
  Takes (skipStructReader structs isGoTagAliasDisabled order ropt fuel t)
    ((encode (TField (t_Type (f_Type f)) (wrapS 16 (ID f))) ++ b) ++ encode TStop) (veq v).
Proof.
  intros Ht Hf Hx (Hb & Hs & Hr) Hfuel. pose proof (of_type_wf _ _ Ht) as Hsd. destruct (wf_name _ Hsd _ _ Hf) as (_ & Hid & Hrange).
  destruct (nextReader_supported _ Hs) as [fn Hfn]. pose proof (supported_range _ Hs) as Hty.
  unfold skipStructReader, of_type in *. destruct (t_Struct t) as [i|]; [|done]. simpl in Ht. rewrite Ht. cbn [deref].
  eapply (Takes_lift (Ok sd)); [done|]. rewrite <-app_assoc. destruct fuel as [|[|fuel]]; [lia|lia|]. cbn [skip_struct_loop].
  eapply Takes_bind; [eapply Takes_rd; [apply ReadFieldBegin_ok|by intros; apply parse_field_put]|]. intros ? <-.
  destruct (Z.eqb_spec (t_Type (f_Type f)) STOP); [unfold STOP in *; lia|]. rewrite Hid, Hfn, Hx.
  eapply (Takes_lift (Ok fn)); [done|]. eapply Takes_bind; [apply (Hr fn); [done|lia]|]. intros v' Hv'. cbn [andb].
  apply (Takes_bind_r _ _ _ _ _ Takes_stop). intros ? <-. by apply Takes_ret.
Qed.

(** The bytes [b] of a message are read as [v] by the other side. *)
Definition delivered (svc : gmap text FunctionDescriptor) (method : text) (isClient : bool) (v : value) (b : list byte) : Prop :=
  forall fuel r s, (length b < fuel)%nat -> left_ r = b ++ s ->
    exists u r', Read structs isGoTagAliasDisabled order svc ropt fuel method (negb isClient) r = (Ok u, r') /\
      left_ r' = s /\ veq v u.

(** C14: a message that fits its descriptor is written without error by the client or the
    server, and the other side reads all of its bytes, and no more, as the value [expect]
    computes: the same numbers, strings, lists and maps, fields under their names, the
    defaults of those left out, mapped and encoded as annotated.  The order in which Go
    iterates over the fields does not matter. *)
Theorem generic_roundtrip svc n method f isClient v v' w :
  svc !! method = Some f -> expect_message n f isClient v = Some v' ->
  exists w' b, Write structs isGoTagAliasDisabled order svc wopt n v method isClient (mkW w None) = (Ok tt, mkW w' None) /\
    written w' = written w ++ b /\ delivered svc method isClient v' b.
Proof.
  intros Hm Hv. enough (HP : Puts (Write structs isGoTagAliasDisabled order svc wopt n v method isClient) (delivered svc method isClient v'))
    by apply HP.
  unfold Write, delivered, Read, LookupFunctionByMethod. rewrite Hm. eapply (Puts_lift (Ok f)); [done|].
  apply Puts_modify; [intros ?; by destruct (HasRequestBase f && isClient)|]. unfold expect_message in Hv. destruct (IsWithoutWrapping f) eqn:Hwrap.
  - destruct (Z.eqb_spec (t_Type (if isClient then fn_Request f else fn_Response f)) STRUCT) as [Ht|]; [|done].
    eapply Puts_mono; [by apply expect_trip|]. intros b (Hb & Hs & Hr) fuel r s Hf Hl.
    destruct (Hr RdStruct (S fuel)) with (r := r) (s := s) as (u & r' & E & Hr' & Hu);
      [unfold ThriftGeneric.nextReader; by rewrite Ht|lia|done|].
    exists u, r'. unfold mbind, M_bind, lift. rewrite Hwrap. by destruct isClient.
  - apply bind_Some in Hv as (sd & Hsd & Hv). destruct (is_nil v) eqn:Hnil.
    + injection Hv as <-. eapply Puts_mono; [by eapply wrap_nil_trip|]. intros b -> fuel r s Hfuel Hl. cbn in Hfuel.
      destruct (skip_nil_takes _ sd fuel Hsd) with (r := r) (s := s) as (u & r' & E & Hr' & Hu); [lia|done|].
      exists u, r'. unfold mbind, M_bind, lift. rewrite Hwrap. by destruct isClient.
    + destruct (filter _ _) as [|[k fd] [|]] eqn:Hf; try done. pose proof (of_type_wf _ _ Hsd) as Hw.
      assert (Hfd : (k, fd) ∈ filter (fun p => IsException (snd p) = false) (map_to_list (FieldsByName sd))) by (rewrite Hf; left).
      apply list_elem_of_filter in Hfd as [Hx Hfd%elem_of_map_to_list]. simpl in Hx.
      eapply Puts_mono; [by eapply wrap_trip|]. intros b (b0 & -> & Hb0) fuel r s Hfuel Hl.
      destruct (skip_takes _ sd fd v' b0 fuel Hsd) with (r := r) (s := s) as (u & r' & E & Hr' & Hu); try done.
      * by destruct (wf_name _ Hw _ _ Hfd) as (-> & _).
      * rewrite !length_app in Hfuel. cbn in Hfuel. lia.
      * exists u, r'. unfold mbind, M_bind, lift. rewrite Hwrap. by destruct isClient.
Qed.

End trip.
End spec.
