(* ===== verification/ThriftGenericIdl.v ===== *)
(** The descriptors and the parts of generic messages (ThriftGeneric) that do not depend on
    the wire: structs built field by field are well formed, api.js_conv respects equal
    values and converts back, and the two ways to merge a request base agree. *)

From S2P Require Import Prelude GoText SkipDecoder ThriftGeneric ThriftGenericSpec.

(** * Structs *)

Section structs.
Context (isGoTagAliasDisabled : bool).
Abbreviation FieldName := (FieldName isGoTagAliasDisabled).
Abbreviation wf_struct := (wf_struct isGoTagAliasDisabled).
Abbreviation add_field := (add_field isGoTagAliasDisabled).

Definition empty_struct : StructDescriptor := mkStruct ∅ ∅ ∅ ∅.

Lemma empty_struct_wf : wf_struct empty_struct.
Proof. split; intros *; simpl; rewrite lookup_empty; done. Qed.

(** A field that can be added: it has an identifier and a name of its own. *)
Definition fresh (d : StructDescriptor) (f : FieldDescriptor) : Prop :=
  FieldsByID d !! ID f = None /\ FieldsByName d !! FieldName f = None /\ - 2 ^ 15 <= ID f < 2 ^ 15 /\
  (Required f = true -> Optional f = false) /\ (forall vm, f_Mapping f = Some vm -> respectful vm).

Lemma add_field_wf d f b : wf_struct d -> fresh d f -> wf_struct (add_field d f b).
Proof.
  intros Hd (Hid & Hname & Hrange & Hreq & Hmap). split; simpl.
  - intros name g [[<- <-]|[Hne Hg]]%lookup_insert_Some; [by rewrite lookup_insert_eq|].
    destruct (wf_name _ _ Hd _ _ Hg) as (E & Hg' & Hr). split; [done|]. split; [|done].
    rewrite lookup_insert_ne; [done|]. intros E'. rewrite <-E' in Hg'. congruence.
  - intros id g [[<- <-]|[Hne Hg]]%lookup_insert_Some; [by rewrite lookup_insert_eq|].
    destruct (wf_id _ _ Hd _ _ Hg) as (E & Hg'). split; [done|].
    rewrite lookup_insert_ne; [done|]. intros E'. rewrite <-E' in Hg'. congruence.
  - intros id g Hg. destruct (Required f) eqn:Hf.
    + apply lookup_insert_Some in Hg as [[<- <-]|[Hne Hg]]; [rewrite lookup_insert_eq; auto|].
      rewrite lookup_insert_ne by done. by apply (wf_required _ _ Hd).
    + destruct (wf_required _ _ Hd _ _ Hg) as [Hg' Ho]. rewrite lookup_insert_ne; [done|]. intros <-. congruence.
  - intros name g Hg. destruct b.
    + apply lookup_insert_Some in Hg as [[<- <-]|[Hne Hg]]; [by rewrite lookup_insert_eq|].
      rewrite lookup_insert_ne by done. by apply (wf_default _ _ Hd).
    + pose proof (wf_default _ _ Hd _ _ Hg) as Hg'. rewrite lookup_insert_ne; [done|]. intros <-. congruence.
  - intros name g vm [[<- <-]|[Hne Hg]]%lookup_insert_Some Hm; [by apply Hmap|by eapply (wf_mapping _ _ Hd)].
Qed.
End structs.

(** * api.js_conv *)

Lemma get_map {A B} (g : A -> B) k m : get k (map (fun p => (fst p, g (snd p))) m) = g <$> get k m.
Proof. induction m as [|[k' v] m IH]; [done|]. simpl. by destruct (decide (k' = k)). Qed.

Lemma veq_int64s l l' : Forall2 veq l l' -> forallb is_int64 l = forallb is_int64 l' /\ (forallb is_int64 l = true -> l = l').
Proof.
  induction 1 as [|v v' l l' Hv Hl [IH1 IH2]]; [done|]. simpl.
  assert (E : is_int64 v = is_int64 v' /\ (is_int64 v = true -> v = v')) by (inversion Hv; done).
  destruct E as [-> E]. rewrite IH1. split; [done|]. intros [H1 H2]%andb_true_iff. f_equal; [|by apply IH2; rewrite IH1].
  apply E. by inversion Hv; subst.
Qed.

Lemma apiJSConv_veq : forall v v', veq v v' -> veq (apiJSConv_Response v) (apiJSConv_Response v').
Proof.
  fix IH 3. intros v v' [u|l l' Hl|m m' Hm|m m' Hm].
  - constructor.
  - destruct (veq_int64s l l' Hl) as [E Heq]. simpl. rewrite <-E. destruct (forallb is_int64 l); [rewrite Heq by done; constructor|by constructor].
  - simpl. apply veq_map. induction Hm as [|p q m m' [Hk Hv] Hm IHm]; simpl; constructor; [|exact IHm].
    split; [exact Hk|]. by apply IH.
  - simpl. apply veq_struct. intros k. rewrite !get_map. destruct (Hm k) as [x y Hxy|]; simpl; constructor. by apply IH.
Qed.

Lemma apiJSConv_respectful : respectful apiJSConv.
Proof. intros v v' u Hv [= <-]. eexists. split; [done|]. by apply apiJSConv_veq. Qed.

(** The values an annotated field may have: int64, lists of them, maps of these. *)
Fixpoint int64s (v : value) : bool :=
  match v with
  | VI64 z => negb (beyond 64 z)
  | VList l => forallb (fun v => match v with VI64 z => negb (beyond 64 z) | _ => false end) l
  | VMap m => forallb (fun p => int64s (snd p)) m
  | _ => false
  end.


Lemma ParseInt__FormatInt z : beyond 64 z = false -> ParseInt_ (FormatInt z) = z.
Proof. intros Hz%beyond_spec. unfold ParseInt_. by rewrite ParseInt_FormatInt. Qed.

(** What a response of an annotated field is, a request gives back. *)
Lemma apiJSConv_back : forall v, int64s v = true -> apiJSConv_Request (apiJSConv_Response v) = v.
Proof.
  fix IH 1. intros [| | | | | | |z| | | | |l|m| | |]; simpl; try done.
  - intros Hz%negb_true_iff. by rewrite ParseInt__FormatInt.
  - intros Hl. assert (E : forallb is_int64 l = true) by (clear IH; induction l as [|[] l IHl]; simpl in *; try done; apply andb_true_iff in Hl as [_ Hl]; auto).
    rewrite E. simpl. assert (E' : forallb is_str (map (fun v => match v with VI64 z => VStr (FormatInt z) | _ => v end) l) = true)
      by (clear IH Hl; induction l as [|[] l IHl]; simpl in *; try done; auto).
    rewrite E'. f_equal. clear IH E E'. induction l as [|[] l IHl]; simpl in *; try done.
    apply andb_true_iff in Hl as [Hz%negb_true_iff Hl]. rewrite ParseInt__FormatInt by done. by rewrite IHl.
  - intros Hm. f_equal. induction m as [|[k v] m IHm]; simpl in *; [done|]. apply andb_true_iff in Hm as [Hv Hm].
    rewrite IHm by exact Hm. by rewrite (IH v).
Qed.

(** * The request base *)

Section base.
Context {Base : Type} {BL : ThriftBase Base}.

Lemma merge_extra_lookup l b k :
  NoDup l.*1 -> default ∅ (Extra (merge_extra ((fun p => (fst p, VStr (snd p))) <$> l) b)) !! k =
    (default ∅ (Extra b) ∪ list_to_map l) !! k.
Proof.
  unfold merge_extra. revert b. induction l as [|[k' s] l IH]; intros b Hd; simpl in *; [by rewrite (right_id_L ∅ (∪))|].
  inversion Hd as [|? ? Hk' Hd']; subst. rewrite IH by done. apply not_elem_of_list_to_map in Hk'.
  destruct (default ∅ (Extra b) !! k') as [s'|] eqn:Eb.
  - destruct (decide (k = k')) as [->|Hne]; [by rewrite !(lookup_union_Some_l _ _ _ s')|].
    rewrite !lookup_union, lookup_insert_ne; done.
  - rewrite Extra_set_Extra. simpl. destruct (decide (k = k')) as [->|Hne].
    + rewrite (lookup_union_Some_l _ _ _ s) by apply lookup_insert_eq. rewrite lookup_union_r by done. by rewrite lookup_insert_eq.
    + rewrite !lookup_union, !lookup_insert_ne; done.
Qed.

(** The extras a caller sets, in the message ([mergeBaseAny]) or in a Base ([MergeBase]),
    are merged alike: those of the framework stay. *)
Theorem merge_base_aligned st extra jsonBase frkBase :
  get (bs "Extra") st = Some (VStruct ((fun p => (fst p, VStr (snd p))) <$> map_to_list extra)) -> Extra jsonBase = Some extra ->
  default ∅ (Extra (mergeBaseAny (VStruct st) frkBase)) = default ∅ (Extra (MergeBase jsonBase frkBase)).
Proof.
  intros Hst Hj. unfold mergeBaseAny, MergeBase. rewrite Hst, Hj, Extra_set_Extra. simpl. apply map_eq. intros k.
  rewrite merge_extra_lookup by apply NoDup_fst_map_to_list. by rewrite list_to_map_to_list.
Qed.
End base.
