(* ===== verification/ThriftGenericRead.v ===== *)
(** Reading generic messages (ThriftGeneric) from any bytes: the readers end, do not panic,
    and return values of the descriptor's type. *)

From S2P Require Import Prelude GoText SkipDecoder ThriftGeneric ThriftGenericSpec.

Section total.
Context {W R : Type} {TB : ThriftBuffers W R} {FL : Floats}.
Context (structs : list StructDescriptor) (isGoTagAliasDisabled : bool).
Context (order : forall A, list byte -> list A -> list A).
Context (opt : readerOption).
Abbreviation FieldName := (FieldName isGoTagAliasDisabled).
Abbreviation of_type := (of_type structs).
Abbreviation nextReader := (nextReader (R := R) opt).
Abbreviation read := (read structs isGoTagAliasDisabled order opt).

(** * Values of a type *)

(** A type that is read as a struct. *)
Definition structural (t : TypeDescriptor) : Prop := t_Type t = STRUCT \/ t_Type t = JSON.

(** A field without a mapping holds a value of its type, its default or its empty value. *)
Inductive typed : TypeDescriptor -> value -> Prop :=
| typed_bool t b : t_Type t = BOOL -> typed t (VBool b)
| typed_byte t z : t_Type t = BYTE -> - 2 ^ 7 <= z < 2 ^ 7 -> typed t (VI8 z)
| typed_i16 t z : t_Type t = I16 -> - 2 ^ 15 <= z < 2 ^ 15 -> typed t (VI16 z)
| typed_i32 t z : t_Type t = I32 -> - 2 ^ 31 <= z < 2 ^ 31 -> typed t (VI32 z)
| typed_i64 t z : t_Type t = I64 -> - 2 ^ 63 <= z < 2 ^ 63 -> typed t (VI64 z)
| typed_double t z : t_Type t = DOUBLE -> 0 <= z < 2 ^ 64 -> typed t (VF64 z)
| typed_string t s : t_Type t = STRING -> is_binary t && binaryWithByteSlice opt = false -> typed t (VStr s)
| typed_binary t b : t_Type t = STRING -> is_binary t && binaryWithByteSlice opt = true -> typed t (VBytes b)
| typed_list t e l : t_Type t = LIST \/ t_Type t = SET -> t_Elem t = Some e -> Forall (typed e) l -> typed t (VList l)
| typed_map t k e m : t_Type t = MAP -> forJSON opt = false -> t_Key t = Some k -> t_Elem t = Some e ->
    Forall (fun p => typed k (fst p)) m -> Forall (fun p => typed e (snd p)) m -> typed t (VMap m)
| typed_json_map t k e m : t_Type t = MAP -> forJSON opt = true -> t_Key t = Some k -> t_Elem t = Some e ->
    Forall (fun p => typed e (snd p)) m -> typed t (VStruct m)
| typed_struct t sd m : structural t -> of_type t = Some sd ->
    (forall k v, get k m = Some v -> exists f, FieldsByName sd !! k = Some f /\
      (f_Mapping f = None -> typed (f_Type f) v \/ v = DefaultValue f \/ readEmptyValue (f_Type f) = Ok v)) ->
    (forall id f, RequiredFields sd !! id = Some f -> is_Some (get (FieldName f) m)) -> typed t (VStruct m)
| typed_void t : t_Type t = VOID -> typed t VVoid.

(** * Descriptors *)

(** The keys of a map[interface{}]interface{} can be hashed. *)
Definition key_type (t : TypeDescriptor) : bool :=
  existsb (Z.eqb (t_Type t)) [BOOL; BYTE; I16; I32; I64; DOUBLE; STRING] && negb (is_binary t && binaryWithByteSlice opt).

Fixpoint wf_type (t : TypeDescriptor) : Prop :=
  let 'mkType name ty k e s _ := t in
  (ty = LIST \/ ty = SET -> match e with Some e => wf_type e | None => False end) /\
  (ty = MAP -> match k, e with
               | Some k, Some e => wf_type k /\ wf_type e /\ (forJSON opt = false -> key_type k = true)
               | _, _ => False
               end) /\
  (ty = STRUCT \/ ty = JSON \/ ty = VOID -> match s with Some i => is_Some (structs !! i) | None => False end).

Definition wf_fields (sd : StructDescriptor) : Prop :=
  wf_struct isGoTagAliasDisabled sd /\
  forall id f, FieldsByID sd !! id = Some f -> wf_type (f_Type f) /\
    (unset opt f = false -> exists v, readEmptyValue (f_Type f) = Ok v).

Context (Hwf : Forall wf_fields structs).
Context (Horder : forall A s (l : list A), order A s l ≡ₚ l).

(** * Reading without panics *)

(** With fewer than [L] bytes left, [m] returns a value [Q] holds of and reads [d] bytes or
    more, or returns an error; it has the fuel it needs. *)
Definition Safe (d : nat) {A} (m : M R gerr A) (L : nat) (Q : A -> Prop) : Prop :=
  forall r, (length (left_ r) < L)%nat ->
    match m r with
    | (Ok a, r') => (length (left_ r') + d <= length (left_ r))%nat /\ Q a
    | (Err e, _) => e <> EFuel
    | (Panic, _) => False
    end.

Lemma Safe_ret {A} (a : A) L (Q : A -> Prop) : Q a -> Safe 0 (mret a) L Q.
Proof. intros HQ r _. split; [lia|done]. Qed.

Lemma Safe_throw {A} e L (Q : A -> Prop) d : e <> EFuel -> Safe d (throw e) L Q.
Proof. intros He r _. done. Qed.

Lemma Safe_bind {A B} (m : M R gerr A) (k : A -> M R gerr B) d d' L Q Q' :
  Safe d m L Q -> (forall a, Q a -> Safe d' (k a) (L - d) Q') -> Safe (d + d') (m ≫= k) L Q'.
Proof.
  intros Hm Hk r Hr. specialize (Hm r Hr). unfold mbind, M_bind. destruct (m r) as [[a|e|] r1]; [|done|done].
  destruct Hm as [Hl HQ]. specialize (Hk a HQ r1 ltac:(lia)). destruct (k a r1) as [[b|e|] r2]; [|done|done].
  split; [lia|apply Hk].
Qed.

Lemma Safe_mono {A} (m : M R gerr A) d d' L L' (Q Q' : A -> Prop) :
  Safe d m L Q -> (d' <= d)%nat -> (L' <= L)%nat -> (forall a, Q a -> Q' a) -> Safe d' m L' Q'.
Proof.
  intros Hm Hd HL HQ r Hr. specialize (Hm r ltac:(lia)). destruct (m r) as [[a|e|] r1]; [|done|done].
  destruct Hm. split; [lia|auto].
Qed.

Lemma Safe_empty {A} (m : M R gerr A) d Q : Safe d m 0 Q.
Proof. intros r Hr. lia. Qed.

Lemma Safe_rd {A} (p : list byte -> option (A * list byte)) f d L Q :
  reads p f -> (forall s a s', p s = Some (a, s') -> (length s' + d <= length s)%nat /\ Q a) -> Safe d (rd f) L Q.
Proof.
  intros Hf Hp r _. specialize (Hf r). unfold rd. destruct (f r) as [o r'] eqn:E. simpl in *.
  destruct (p (left_ r)) as [[a s]|] eqn:Ep; [|by subst]. destruct Hf as [-> <-]. by apply Hp in Ep.
Qed.

Lemma Safe_lift {A B} (o : outcome gerr A) (k : A -> M R gerr B) d L Q :
  match o with Ok a => Safe d (k a) L Q | Err e => e <> EFuel | Panic => False end -> Safe d (lift o ≫= k) L Q.
Proof. intros Ho r Hr. unfold lift, mbind, M_bind. destruct o as [a|e|]; [by apply Ho|done|done]. Qed.

Lemma Safe_gets {A B} (f : R -> A) (k : A -> M R gerr B) d L Q : (forall r, Safe d (k (f r)) L Q) -> Safe d (gets f ≫= k) L Q.
Proof. intros Hk r Hr. by apply (Hk r). Qed.

(** * The parsers *)

Lemma parse_uint_some n s z s' : parse_uint n s = Some (z, s') -> (length s' + n <= length s)%nat /\ 0 <= z < 256 ^ Z.of_nat n.
Proof.
  unfold parse_uint. case_decide as Hn; [|done]. intros [= <- <-]. rewrite length_drop. split; [lia|].
  pose proof (be_get_range (take n s)) as H. by rewrite length_take_le in H.
Qed.

Lemma parse_int_some n s z s' : (0 < n)%nat -> parse_int n s = Some (z, s') ->
  (length s' + n <= length s)%nat /\ - 2 ^ (8 * Z.of_nat n - 1) <= z < 2 ^ (8 * Z.of_nat n - 1).
Proof.
  intros Hn ([u s1] & [Hl _]%parse_uint_some & [= <- <-])%bind_Some. split; [done|]. apply wrapS_range. lia.
Qed.

Lemma parse_size_some s z s' : parse_size s = Some (z, s') -> (length s' + 4 <= length s)%nat /\ 0 <= z < 2 ^ 31.
Proof.
  intros ([u s1] & [Hl Hr]%parse_int_some & H)%bind_Some; [|lia]. destruct (Z.ltb_spec u 0); [done|].
  injection H as <- <-. split; [done|]. simpl in Hr. lia.
Qed.

Lemma parse_bool_some s b s' : parse_bool s = Some (b, s') -> (length s' + 1 <= length s)%nat.
Proof. intros ([u s1] & [Hl _]%parse_uint_some & [= <- <-])%bind_Some. done. Qed.

Lemma parse_bytes_some s b s' : parse_bytes s = Some (b, s') -> (length s' + 4 <= length s)%nat.
Proof.
  intros ([u s1] & [Hl _]%parse_size_some & H)%bind_Some. destruct (lenZ s1 <? u); [done|]. injection H as <- <-. rewrite length_drop. lia.
Qed.

Lemma parse_list_some s x s' : parse_list s = Some (x, s') -> (length s' + 5 <= length s)%nat /\ 0 <= snd x < 2 ^ 31.
Proof.
  intros ([t s1] & [H1 _]%parse_uint_some & ([n s2] & [H2 H3]%parse_size_some & [= <- <-])%bind_Some)%bind_Some.
  split; [lia|done].
Qed.

Lemma parse_map_some s x s' : parse_map s = Some (x, s') -> (length s' + 6 <= length s)%nat.
Proof.
  intros ([k s1] & [H1 _]%parse_uint_some & ([e s2] & [H2 _]%parse_uint_some & ([n s3] & [H3 _]%parse_size_some & [= <- <-])%bind_Some)%bind_Some)%bind_Some.
  lia.
Qed.

Lemma parse_field_some s x s' : parse_field s = Some (x, s') -> (length s' + 1 <= length s)%nat.
Proof.
  intros ([t s1] & [H1 _]%parse_uint_some & H)%bind_Some. destruct (t =? STOP); [by injection H as <- <-|].
  apply bind_Some in H as ([id s2] & [H2 _]%parse_int_some & [= <- <-]); lia.
Qed.

Lemma Safe_scalar {A} (p : list byte -> option (A * list byte)) f (g : A -> value) L (P : A -> Prop) Q :
  reads p f -> (forall s a s', p s = Some (a, s') -> (length s' + 1 <= length s)%nat /\ P a) -> (forall a, P a -> Q (g a)) ->
  Safe 1 (x ← rd f; mret (g x)) L Q.
Proof.
  intros Hf Hp Hg. apply (Safe_bind _ _ 1 0 L P); [by eapply Safe_rd|]. intros a Ha. by apply Safe_ret, Hg.
Qed.

(** * The readers *)

(** The reader [nextReader] chooses for the type. *)
Definition suits (fn : reader) (t : TypeDescriptor) : Prop :=
  match fn with
  | RdBool => t_Type t = BOOL
  | RdByte => t_Type t = BYTE
  | RdInt16 => t_Type t = I16
  | RdInt32 => t_Type t = I32
  | RdInt64 => t_Type t = I64
  | RdDouble => t_Type t = DOUBLE
  | RdString | RdBase64Binary => t_Type t = STRING /\ is_binary t && binaryWithByteSlice opt = false
  | RdBinary => t_Type t = STRING /\ is_binary t && binaryWithByteSlice opt = true
  | RdList => t_Type t = LIST \/ t_Type t = SET
  | RdMap => t_Type t = MAP
  | RdStruct => structural t
  | RdVoid => t_Type t = VOID
  end.

Lemma nextReader_suits ty t L : Safe 0 (nextReader ty t) L (fun fn => suits fn t).
Proof.
  unfold nextReader. destruct (Z.eqb_spec ty (t_Type t)) as [->|]; cbn [negb]; [|by apply Safe_throw].
  destruct (Z.eqb_spec (t_Type t) BOOL); [by apply Safe_ret|].
  destruct (Z.eqb_spec (t_Type t) BYTE); [by apply Safe_ret|].
  destruct (Z.eqb_spec (t_Type t) I16); [by apply Safe_ret|].
  destruct (Z.eqb_spec (t_Type t) I32); [by apply Safe_ret|].
  destruct (Z.eqb_spec (t_Type t) I64); [by apply Safe_ret|].
  destruct (Z.eqb_spec (t_Type t) STRING); [apply Safe_ret; unfold suits; destruct (is_binary t), (binaryWithByteSlice opt), (r_base64 opt); done|].
  destruct (Z.eqb_spec (t_Type t) DOUBLE); [by apply Safe_ret|].
  destruct (Z.eqb_spec (t_Type t) LIST); [by apply Safe_ret; left|].
  destruct (Z.eqb_spec (t_Type t) SET); [by apply Safe_ret; right|].
  destruct (Z.eqb_spec (t_Type t) MAP); [by apply Safe_ret|].
  destruct (Z.eqb_spec (t_Type t) STRUCT); [by apply Safe_ret; left|].
  destruct (Z.eqb_spec (t_Type t) JSON); [by apply Safe_ret; right|].
  destruct (Z.eqb_spec (t_Type t) VOID); [by apply Safe_ret|by apply Safe_throw].
Qed.

(** One level of the readers: [rd1] reads the values nested one level deeper, with fewer
    than [n] bytes left. *)
Section level.
Context (n : nat) (rd1 : reader -> TypeDescriptor -> M R gerr value).
Context (Hrd : forall fn t, suits fn t -> wf_type t -> Safe 1 (rd1 fn t) n (typed t)).

Lemma items_safe fn e : suits fn e -> wf_type e -> forall fuel L size l, (L <= fuel)%nat -> (L <= n)%nat -> Forall (typed e) l ->
  Safe 0 (read_items rd1 fuel fn e size l) L (Forall (typed e)).
Proof.
  intros Hfn He. induction fuel as [|fuel IH]; intros L size l Hf Hn Hl; [replace L with 0%nat by lia; apply Safe_empty|].
  cbn [read_items]. destruct (size <=? 0); [by apply Safe_ret|].
  eapply Safe_mono; [apply (Safe_bind _ _ 1 0 L (typed e))| | |]; try done; try lia.
  - eapply Safe_mono; [by apply Hrd|done|lia|done].
  - intros v Hv. apply IH; [lia|lia|]. apply Forall_app. auto.
Qed.

Lemma elem_some t : wf_type t -> t_Type t = LIST \/ t_Type t = SET -> exists e, t_Elem t = Some e /\ wf_type e.
Proof. destruct t as [? ? ? [e|]]; simpl; intros (H & _) Ht; specialize (H Ht); [eauto|done]. Qed.

Lemma list_safe t : t_Type t = LIST \/ t_Type t = SET -> wf_type t -> Safe 1 (readList opt rd1 (S n) t) (S n) (typed t).
Proof.
  intros Ht Hw. destruct (elem_some t Hw Ht) as (e & He & Hwe). unfold readList. rewrite He. cbn [deref].
  eapply Safe_mono; [apply (Safe_bind _ _ 5 0 (S n) (fun x => 0 <= snd x < 2 ^ 31))| | |]; try done; try lia.
  - eapply Safe_rd; [apply ReadListBegin_ok|]. intros s a s' H%parse_list_some. done.
  - intros [ty size] Hsize. apply (Safe_lift (Ok e)). apply (Safe_bind _ _ 0 0 _ _ _ (nextReader_suits _ _ _)). intros fn Hfn.
    rewrite Nat.sub_0_r. apply Safe_lift. rewrite (make_interfaces_ok size Hsize).
    apply (Safe_bind _ _ 0 0 _ (Forall (typed e))).
    + apply items_safe; [done|done|lia|lia|done].
    + intros l Hl. apply Safe_ret. by econstructor.
Qed.

Section entries.
Context {A : Type} (add : value -> value -> list (A * value) -> M R gerr (list (A * value))).
Context (k e : TypeDescriptor) (I : list (A * value) -> Prop).
Context (Hadd : forall key elem m L, typed k key -> typed e elem -> I m -> Safe 0 (add key elem m) L I).

Lemma entries_safe kfn efn : suits kfn k -> suits efn e -> wf_type k -> wf_type e -> forall fuel L size m, (L <= fuel)%nat -> (L <= n)%nat -> I m ->
  Safe 0 (read_entries rd1 add fuel kfn efn k e size m) L I.
Proof.
  intros Hk He Hwk Hwe. induction fuel as [|fuel IH]; intros L size m Hf Hn Hm; [replace L with 0%nat by lia; apply Safe_empty|].
  cbn [read_entries]. destruct (size <=? 0); [by apply Safe_ret|].
  eapply Safe_mono; [apply (Safe_bind _ _ 1 1 L (typed k))| | |]; try done; try lia.
  - eapply Safe_mono; [by apply Hrd|done|lia|done].
  - intros key Hkey. apply (Safe_bind _ _ 1 0 _ (typed e)).
    + eapply Safe_mono; [by apply Hrd|done|lia|done].
    + intros elem Helem. apply (Safe_bind _ _ 0 0 _ I); [by apply Hadd|]. intros m' Hm'. apply IH; [lia|lia|done].
Qed.

Lemma read_map_safe t : t_Key t = Some k -> t_Elem t = Some e -> wf_type k -> wf_type e -> I [] ->
  Safe 1 (read_map opt rd1 add (S n) t) (S n) I.
Proof.
  intros Hk He Hwk Hwe Hnil. unfold read_map. rewrite Hk, He. cbn [deref].
  eapply Safe_mono; [apply (Safe_bind _ _ 6 0 (S n) (fun _ => True))| | |]; try done; try lia.
  - eapply Safe_rd; [apply ReadMapBegin_ok|]. intros s a s' H%parse_map_some. done.
  - intros [[kty ety] size] _. destruct (size =? 0); [by apply Safe_ret|].
    apply (Safe_lift (Ok k)). apply (Safe_bind _ _ 0 0 _ _ _ (nextReader_suits _ _ _)). intros kfn Hkfn.
    apply (Safe_lift (Ok e)). apply (Safe_bind _ _ 0 0 _ _ _ (nextReader_suits _ _ _)). intros efn Hefn.
    apply entries_safe; try done; lia.
Qed.
End entries.

Lemma put_snd {K} (eqb : K -> K -> bool) (P : value -> Prop) k v m :
  P v -> Forall (fun p => P (snd p)) m -> Forall (fun p => P (snd p)) (put eqb k v m).
Proof. intros Hv Hm. induction Hm as [|[k' v'] m Hp Hm IH]; simpl; [by constructor|]. destruct (eqb k' k); by constructor. Qed.

Lemma put_fst {K} (eqb : K -> K -> bool) (P : K -> Prop) k (v : value) m :
  P k -> Forall (fun p => P (fst p)) m -> Forall (fun p => P (fst p)) (put eqb k v m).
Proof. intros Hv Hm. induction Hm as [|[k' v'] m Hp Hm IH]; simpl; [by constructor|]. destruct (eqb k' k); by constructor. Qed.

Lemma typed_hashable t v : typed t v -> key_type t = true -> hashable v = true.
Proof.
  unfold key_type. simpl. rewrite andb_true_iff, !orb_true_iff, !Z.eqb_eq, negb_true_iff.
  unfold BOOL, BYTE, I16, I32, I64, DOUBLE, STRING. intros Ht [Hk Hb].
  destruct Ht as [| | | | | | |t b Ht Hb'|t e l [Ht|Ht]|t k e m Ht|t k e m Ht|t sd m [Ht|Ht]|]; try done;
    rewrite ?Ht in Hk; unfold LIST, SET, MAP, STRUCT, JSON in *; try lia. congruence.
Qed.

Lemma map_some t : wf_type t -> t_Type t = MAP -> exists k e, t_Key t = Some k /\ t_Elem t = Some e /\ wf_type k /\ wf_type e /\
  (forJSON opt = false -> key_type k = true).
Proof.
  destruct t as [? ? [k|] [e|]]; simpl; intros (_ & H & _) Ht; specialize (H Ht); try done. destruct H as (? & ? & ?). eauto 10.
Qed.

Lemma map_safe t : t_Type t = MAP -> wf_type t -> Safe 1 (readMap opt rd1 (S n) t) (S n) (typed t).
Proof.
  intros Ht Hw. destruct (map_some t Hw Ht) as (k & e & Hk & He & Hwk & Hwe & Hkey). unfold readMap.
  destruct (forJSON opt) eqn:Hj.
  - apply (Safe_bind _ _ 1 0 _ (Forall (fun p => typed e (snd p)))).
    + apply (read_map_safe _ k e); try done. intros key elem m L _ Helem Hm. by apply Safe_ret, put_snd.
    + intros m Hm. apply Safe_ret. by eapply typed_json_map.
  - apply (Safe_bind _ _ 1 0 _ (fun m => Forall (fun p => typed k (fst p)) m /\ Forall (fun p => typed e (snd p)) m)).
    + apply (read_map_safe _ k e); try done. intros key elem m L Hkey' Helem [Hm1 Hm2].
      rewrite (typed_hashable _ _ Hkey' (Hkey eq_refl)). apply Safe_ret. split; [by apply put_fst|by apply put_snd].
    + intros m [Hm1 Hm2]. apply Safe_ret. by eapply typed_map.
Qed.

(** * Structs *)

(** What the holder of a struct may hold. *)
Definition held (sd : StructDescriptor) (m : list (text * value)) : Prop :=
  forall k v, get k m = Some v -> exists f, FieldsByName sd !! k = Some f /\
    (f_Mapping f = None -> typed (f_Type f) v \/ v = DefaultValue f \/ readEmptyValue (f_Type f) = Ok v).

Lemma held_put sd f v m :
  FieldsByName sd !! FieldName f = Some f ->
  (f_Mapping f = None -> typed (f_Type f) v \/ v = DefaultValue f \/ readEmptyValue (f_Type f) = Ok v) ->
  held sd m -> held sd (put text_eqb (FieldName f) v m).
Proof.
  intros Hf Hv Hm k u Hk. destruct (decide (k = FieldName f)) as [->|Hne].
  - rewrite get_put_eq in Hk. injection Hk as <-. eauto.
  - rewrite get_put_ne in Hk by done. by apply Hm.
Qed.

Lemma set_fields_held sd g fs :
  (forall f, f ∈ fs -> FieldsByName sd !! FieldName f = Some f /\
    match g f with
    | Ok v => f_Mapping f = None -> v = DefaultValue f \/ readEmptyValue (f_Type f) = Ok v
    | Err e => e <> EFuel
    | Panic => False
    end) -> forall st, held sd st ->
  match set_fields isGoTagAliasDisabled g fs st with Ok st' => held sd st' | Err e => e <> EFuel | Panic => False end.
Proof.
  intros Hg. unfold set_fields. induction fs as [|f fs IH]; intros st Hst; [done|]. cbn [foldl].
  destruct (Hg f (list_elem_of_here _ _)) as [Hf Hv]. destruct (g f) as [v|e|]; [|clear -Hv; by induction fs|done].
  apply IH; [intros f' Hf'; apply Hg; by apply list_elem_of_further|]. apply held_put; [done| |done].
  intros Hm. right. by apply Hv.
Qed.

Lemma set_empty_held sd s : wf_fields sd ->
  match set_empty isGoTagAliasDisabled order opt sd s [] with Ok st => held sd st | Err e => e <> EFuel | Panic => False end.
Proof.
  intros [Hsd Hf]. unfold set_empty. destruct (Z.eqb_spec (setFieldsForEmptyStruct opt) 0) as [E|E]; [by intros k v Hk|].
  apply set_fields_held; [|by intros k v Hk]. intros f [Hu Hin]%list_elem_of_filter.
  apply fields_of in Hin as [id Hid]; [|done]. destruct (wf_id _ _ Hsd _ _ Hid) as [_ Hn]. split; [done|].
  destruct (Hf id f Hid) as [_ He]. destruct He as [v ->]; [|auto].
  unfold unset. apply Is_true_true, negb_true_iff in Hu. by rewrite Hu, (proj2 (Z.eqb_neq _ _) E).
Qed.

Lemma set_defaults_held sd s st : wf_fields sd -> held sd st ->
  match set_defaults isGoTagAliasDisabled order sd s st with Ok st => held sd st | Err e => e <> EFuel | Panic => False end.
Proof.
  intros [Hsd _] Hst. unfold set_defaults. apply set_fields_held; [|done]. intros f Hin.
  apply fields_of in Hin as [k Hk]; [|done]. pose proof (wf_default _ _ Hsd _ _ Hk) as Hn.
  destruct (wf_name _ _ Hsd _ _ Hn) as (<- & _). split; [done|]. unfold map_response, map_value.
  destruct (f_Mapping f) as [vm|]; [by destruct (vm_Response vm (DefaultValue f))|auto].
Qed.

(** The fields that were read are set. *)
Definition fields_set (sd : StructDescriptor) (rw : gset Z) (m : list (text * value)) : Prop :=
  forall id f, id ∈ rw -> FieldsByID sd !! id = Some f -> is_Some (get (FieldName f) m).

Lemma CheckRequired_none sd rw s : CheckRequired order sd rw s = None -> forall id f, RequiredFields sd !! id = Some f -> id ∈ rw.
Proof.
  unfold CheckRequired. intros H id f Hid. destruct (decide (id ∈ rw)) as [|Hn]; [done|exfalso].
  assert (Hin : (id, f) ∈ filter (fun '(id, _) => id ∉ rw) (order _ s (map_to_list (RequiredFields sd)))).
  { apply list_elem_of_filter. split; [done|]. by rewrite (Horder _ s (map_to_list _)), elem_of_map_to_list. }
  destruct (filter _ _) as [|[? ?] ?]; [by apply not_elem_of_nil in Hin|done].
Qed.

Lemma skip_safe ty L : Safe 0 (skip ty) L (fun _ => True).
Proof.
  intros r _. unfold skip. destruct (SkipType ty r) as [[] r'] eqn:E; [|done]. apply SkipType_ok in E. split; [lia|done].
Qed.

Lemma fields_safe sd : wf_fields sd -> forall fuel L rw st, (L <= fuel)%nat -> (L <= S n)%nat -> held sd st -> fields_set sd rw st ->
  Safe 1 (read_fields isGoTagAliasDisabled order opt rd1 fuel sd rw st) L (fun st => held sd st /\
    forall id f, RequiredFields sd !! id = Some f -> is_Some (get (FieldName f) st)).
Proof.
  intros [Hsd Hfs]. induction fuel as [|fuel IH]; intros L rw st Hf Hn Hst Hset; [replace L with 0%nat by lia; apply Safe_empty|].
  cbn [read_fields].
  apply (Safe_bind _ _ 1 0 _ (fun _ => True)).
  { eapply Safe_rd; [apply ReadFieldBegin_ok|]. intros s a s' H%parse_field_some. done. }
  intros [ty id] _. destruct (ty =? STOP).
  { apply Safe_gets. intros r. destruct (CheckRequired order sd rw (left_ r)) as [e|] eqn:E.
    - apply Safe_throw. unfold CheckRequired in E. destruct (filter _ _) as [|[? ?] ?]; [done|]. by injection E as <-.
    - apply Safe_ret. split; [done|]. intros id' f' Hid. apply (Hset id'); [by eapply CheckRequired_none|].
      apply (wf_required _ _ Hsd _ _ Hid). }
  apply (Safe_bind _ _ 0 0 _ (fun st => held sd st /\ fields_set sd ({[id]} ∪ rw) st)).
  - destruct (FieldsByID sd !! id) as [f|] eqn:Hid.
    + destruct (wf_id _ _ Hsd _ _ Hid) as [_ Hname]. destruct (Hfs id f Hid) as [Hwf' _].
      apply (Safe_bind _ _ 0 0 _ _ _ (nextReader_suits _ _ _)). intros fn Hfn.
      apply (Safe_bind _ _ 0 0 _ (typed (f_Type f))); [eapply Safe_mono; [by apply Hrd|lia|lia|done]|]. intros v Hv.
      apply Safe_lift. destruct (map_response f v) as [u|e|] eqn:Hu.
      * apply Safe_ret. split.
        -- apply held_put; [done| |done]. intros Hm. left. unfold map_response in Hu. rewrite Hm in Hu. by injection Hu as <-.
        -- intros id' f' Hid' Hf'. destruct (decide (FieldName f' = FieldName f)) as [->|Hne]; [rewrite get_put_eq; eauto|].
           rewrite get_put_ne by done. apply (Hset id'); [|done]. apply elem_of_union in Hid' as [->%elem_of_singleton|]; [congruence|done].
      * unfold map_response, map_value in Hu. destruct (f_Mapping f) as [vm|]; [|done]. destruct (vm_Response vm v); [by injection Hu as <-|done].
      * unfold map_response, map_value in Hu. destruct (f_Mapping f) as [vm|]; [|done]. by destruct (vm_Response vm v).
    + apply (Safe_bind _ _ 0 0 _ _ _ (skip_safe _ _)). intros _ _. apply Safe_ret. split; [done|].
      intros id' f' Hid' Hf'. apply (Hset id'); [|done]. apply elem_of_union in Hid' as [->%elem_of_singleton|]; [congruence|done].
  - intros st' [Hst' Hset']. eapply Safe_mono; [apply (IH (L - 1)%nat)|lia|lia|done]; [lia|lia|done|done].
Qed.

Lemma struct_some t : wf_type t -> t_Type t = STRUCT \/ t_Type t = JSON \/ t_Type t = VOID ->
  exists i sd, t_Struct t = Some i /\ structs !! i = Some sd /\ wf_fields sd.
Proof.
  destruct t as [? ? ? ? [i|]]; simpl; intros (_ & _ & H) Ht; specialize (H Ht); [|done]. destruct H as [sd Hi].
  exists i, sd. split; [done|]. split; [done|]. by eapply Forall_lookup_1 in Hi.
Qed.

Lemma struct_safe t : t_Type t = STRUCT \/ t_Type t = JSON \/ t_Type t = VOID -> wf_type t ->
  Safe 1 (readStruct structs isGoTagAliasDisabled order opt rd1 (S n) t) (S n) (fun v => structural t -> typed t v).
Proof.
  intros Ht Hw. destruct (struct_some t Hw Ht) as (i & sd & Hi & Hsd & Hwsd). unfold readStruct.
  apply Safe_gets. intros r. rewrite Hi, Hsd. cbn [deref]. apply (Safe_lift (Ok sd)).
  pose proof (set_empty_held sd (left_ r) Hwsd) as He. apply Safe_lift. destruct (set_empty _ _ _ _ _ _) as [st|e|]; try done.
  pose proof (set_defaults_held sd (left_ r) st Hwsd He) as Hd. apply Safe_lift. destruct (set_defaults _ _ _ _ _) as [st'|e|]; try done.
  apply (Safe_bind _ _ 1 0 _ _ _ (fields_safe sd Hwsd (S n) (S n) ∅ st' ltac:(lia) ltac:(lia) Hd ltac:(by intros ? ? ?%elem_of_empty))).
  intros m [Hm Hreq]. apply Safe_ret. intros Hs. eapply typed_struct; try done. unfold of_type. by rewrite Hi.
Qed.

End level.

Lemma Safe_int k f (g : Z -> value) L Q :
  (0 < k)%nat -> reads (parse_int k) f ->
  (forall z, - 2 ^ (8 * Z.of_nat k - 1) <= z < 2 ^ (8 * Z.of_nat k - 1) -> Q (g z)) -> Safe 1 (x ← rd f; mret (g x)) L Q.
Proof.
  intros Hk Hf HQ. apply (Safe_scalar _ _ _ _ (fun z => - 2 ^ (8 * Z.of_nat k - 1) <= z < 2 ^ (8 * Z.of_nat k - 1)) _ Hf); [|done].
  intros s a s' H. destruct (parse_int_some k s a s' Hk H). split; [lia|done].
Qed.

Lemma Safe_bytes f (g : list byte -> value) L Q : reads parse_bytes f -> (forall b, Q (g b)) -> Safe 1 (x ← rd f; mret (g x)) L Q.
Proof.
  intros Hf HQ. apply (Safe_scalar _ _ _ _ (fun _ => True) _ Hf); [|auto]. intros s a s' H%parse_bytes_some. split; [lia|done].
Qed.

Lemma read_safe n : forall fn t, suits fn t -> wf_type t -> Safe 1 (read n fn t) n (typed t).
Proof.
  induction n as [|n IH]; intros fn t Hfn Ht; [apply Safe_empty|]. cbn [ThriftGeneric.read].
  destruct fn; cbn [run_reader suits] in *.
  - apply (Safe_scalar _ _ _ _ (fun _ => True) _ ReadBool_ok); [|by constructor]. intros s a s' H%parse_bool_some. done.
  - apply (Safe_int 1); [lia|apply ReadByte_ok|by constructor].
  - apply (Safe_int 2); [lia|apply ReadI16_ok|by constructor].
  - apply (Safe_int 4); [lia|apply ReadI32_ok|by constructor].
  - apply (Safe_int 8); [lia|apply ReadI64_ok|by constructor].
  - destruct Hfn. apply Safe_bytes; [apply ReadString_ok|by constructor].
  - destruct Hfn. apply Safe_bytes; [apply ReadBinary_ok|by constructor].
  - destruct Hfn. apply (Safe_bytes _ (fun b => VStr (StdEncode b))); [apply ReadBinary_ok|by constructor].
  - apply (Safe_scalar _ _ _ _ (fun z => 0 <= z < 2 ^ 64) _ ReadDouble_ok); [|by constructor].
    intros s a s' [Hl Ha]%parse_uint_some. split; [lia|done].
  - by apply list_safe.
  - by apply map_safe.
  - eapply Safe_mono; [apply struct_safe; try done; unfold structural in Hfn; tauto|done|done|]. auto.
  - apply (Safe_bind _ _ 1 0 _ (fun _ => True)); [eapply Safe_mono; [apply struct_safe; try done; tauto|done|done|done]|].
    intros _ _. apply Safe_ret. by constructor.
Qed.

(** * Messages *)

(** What a method's message is read as: the message itself, or one of the fields of the
    struct that wraps it. *)
Definition message_typed (f : FunctionDescriptor) (isClient : bool) (v : value) : Prop :=
  let t := if isClient then fn_Response f else fn_Request f in
  if IsWithoutWrapping f then typed t v
  else v = VNil \/ exists sd id field, of_type t = Some sd /\ FieldsByID sd !! id = Some field /\ typed (f_Type field) v.

Definition wf_service (svc : gmap text FunctionDescriptor) : Prop :=
  forall method f, svc !! method = Some f ->
    (wf_type (fn_Request f) /\ t_Type (fn_Request f) = STRUCT) /\ (wf_type (fn_Response f) /\ t_Type (fn_Response f) = STRUCT).

Lemma skip_struct_safe sd (P : value -> Prop) :
  wf_fields sd -> (forall id f v, FieldsByID sd !! id = Some f -> typed (f_Type f) v -> P v) -> forall fuel L v, (L <= fuel)%nat -> P v ->
  Safe 0 (skip_struct_loop structs isGoTagAliasDisabled order opt fuel sd v) L P.
Proof.
  intros [Hsd Hfs] HP. induction fuel as [|fuel IH]; intros L v Hf Hv; [replace L with 0%nat by lia; apply Safe_empty|].
  cbn [skip_struct_loop]. eapply Safe_mono; [apply (Safe_bind _ _ 1 0 L (fun _ => True))|lia|done|done].
  { eapply Safe_rd; [apply ReadFieldBegin_ok|]. intros s a s' H%parse_field_some. done. }
  intros [ty id] _. destruct (ty =? STOP); [by apply Safe_ret|]. destruct (FieldsByID sd !! id) as [f|] eqn:Hid.
  - destruct (Hfs id f Hid) as [Hw _]. apply (Safe_bind _ _ 0 0 _ _ _ (nextReader_suits _ _ _)). intros fn Hfn.
    apply (Safe_bind _ _ 0 0 _ (typed (f_Type f))); [eapply Safe_mono; [by apply read_safe|lia|lia|done]|]. intros u Hu.
    destruct (IsException f && throwException opt); [by apply Safe_throw|]. apply IH; [lia|eauto].
  - apply (Safe_bind _ _ 0 0 _ _ _ (skip_safe _ _)). intros _ _. apply IH; [lia|done].
Qed.

(** C23: for a service whose descriptors are well formed (its messages are structs of the
    table, containers name their element types, keys of a map read for Go callers can be
    hashed, empty values asked for exist, and the maps of fields of a struct agree), whatever
    the bytes, reading a message of a method ends, in an error or in a value of the type the
    descriptor gives it, required fields set; it does not panic, whatever numbers of elements
    the bytes announce (room for them, up to 2^31 - 1, is assumed to be there), and a depth
    of the bytes' number is enough. *)
Theorem generic_read_total svc method isClient fuel r :
  wf_service svc -> (length (left_ r) < fuel)%nat ->
  match Read structs isGoTagAliasDisabled order svc opt fuel method isClient r with
  | (Ok v, r') => (length (left_ r') <= length (left_ r))%nat /\ exists f, svc !! method = Some f /\ message_typed f isClient v
  | (Err e, _) => e <> EFuel
  | (Panic, _) => False
  end.
Proof.
  intros Hsvc Hr. enough (HS : Safe 0 (Read structs isGoTagAliasDisabled order svc opt fuel method isClient) fuel
    (fun v => exists f, svc !! method = Some f /\ message_typed f isClient v)).
  { specialize (HS r Hr). destruct (Read _ _ _ _ _ _ _ _ _) as [[v|e|] r']; [|done|done]. destruct HS. split; [lia|done]. }
  unfold Read. apply Safe_lift. unfold LookupFunctionByMethod. destruct (svc !! method) as [f|] eqn:Hf; [|done].
  destruct (Hsvc method f Hf) as [Hreq Hresp]. unfold message_typed.
  set (t := if isClient then fn_Response f else fn_Request f).
  assert (Ht : wf_type t /\ t_Type t = STRUCT) by (unfold t; by destruct isClient). destruct Ht as [Hw Ht].
  destruct (IsWithoutWrapping f) eqn:Hwrap.
  - eapply Safe_mono; [apply (struct_safe fuel (read fuel)); [by apply read_safe|by left|done]|lia|lia|].
    intros v Hv. exists f. split; [done|]. rewrite Hwrap. apply Hv. by left.
  - unfold skipStructReader. destruct (struct_some t Hw (or_introl Ht)) as (i & sd & Hi & Hsd & Hwsd). rewrite Hi, Hsd. cbn [deref].
    apply (Safe_lift (Ok sd)). eapply Safe_mono; [apply (skip_struct_safe sd (fun v => v = VNil \/ exists id field, FieldsByID sd !! id = Some field /\ typed (f_Type field) v) Hwsd)|done|done|].
    + eauto 10.
    + done.
    + by left.
    + intros v Hv. exists f. split; [done|]. rewrite Hwrap. destruct Hv as [->|(id & fd & Hid & Hv)]; [by left|right].
      exists sd, id, fd. split; [|done]. unfold of_type. fold t. by rewrite Hi.
Qed.

End total.
