(* ===== verification/ThriftGenericRuns.v ===== *)
(** Generic Thrift calls (ThriftGeneric) on concrete messages, over buffers in memory, and
    what the writers and readers do with messages that do not fit their descriptors. *)

From S2P Require Import Prelude GoText SkipDecoder ThriftGeneric ThriftGenericSpec ThriftGenericIdl ThriftGenericRead.

(** * Buffers in memory *)

Definition run_parser {A} (p : list byte -> option (A * list byte)) (r : list byte) : option A * list byte :=
  match p r with Some (a, s) => (Some a, s) | None => (None, r) end.

Definition skip_bytes (t : Z) (r : list byte) : bool * list byte :=
  let n := if (t =? BOOL) || (t =? BYTE) then 1%nat else if t =? I16 then 2%nat else if t =? I32 then 4%nat else 8%nat in
  if t =? STRING then match parse_bytes r with Some (_, s) => (true, s) | None => (false, r) end
  else if existsb (Z.eqb t) [BOOL; BYTE; I16; I32; I64; DOUBLE] then
    if decide (n <= length r)%nat then (true, drop n r) else (false, r)
  else (false, r).

#[refine] Instance memory_buffers : ThriftBuffers (list byte) (list byte) := {
  WriteToken k w := (true, w ++ encode k);
  written w := w;
  left_ r := r;
  ReadBool := run_parser parse_bool;
  ReadByte := run_parser (parse_int 1);
  ReadI16 := run_parser (parse_int 2);
  ReadI32 := run_parser (parse_int 4);
  ReadI64 := run_parser (parse_int 8);
  ReadDouble := run_parser (parse_uint 8);
  ReadString := run_parser parse_bytes;
  ReadBinary := run_parser parse_bytes;
  ReadListBegin := run_parser parse_list;
  ReadMapBegin := run_parser parse_map;
  ReadFieldBegin := run_parser parse_field;
  SkipType := skip_bytes }.
Proof.
  1: by intros k w w' [= <-].
  12: { intros t r r'. unfold skip_bytes. repeat (case_match; try done); intros [= <-]; rewrite ?length_drop; try lia.
        match goal with H : parse_bytes _ = Some _ |- _ => apply parse_bytes_some in H end. lia. }
  all: intros r; unfold run_parser; lazymatch goal with |- match ?x with _ => _ end => by destruct x as [[? ?]|] end.
Defined.

#[export] Instance memory_reliable : ReliableWriter (list byte) (list byte).
Proof. by split. Qed.

#[refine] Instance plain_base : ThriftBase (option (gmap text text)) := {
  Extra b := b; set_Extra m _ := Some m; FastWrite _ := [Zbyte 0] }.
Proof. done. Defined.

#[export] Instance no_floats : Floats := { ParseFloat _ := None; FormatFloat _ := []; overflow _ _ := 0 }.

(** Go may iterate backwards. *)
Definition backwards (A : Type) (s : list byte) (l : list A) : list A := if decide (length s mod 2 = 0)%nat then rev l else l.

Lemma backwards_order A s (l : list A) : backwards A s l ≡ₚ l.
Proof. unfold backwards. case_decide; [symmetry; apply Permutation_rev|done]. Qed.

(** * An IDL

    struct Order {
      1: required i64 id (api.js_conv), 2: optional list<string> tags, 3: map<string, i32> scores,
      4: optional string note = "none", 5: optional Order parent, 6: byte kind }
    exception Refused { 1: i32 code }
    service Orders { i32 Put(1: Order req) throws (1: Refused e) } *)

Definition base_type (name : string) (ty : Z) : TypeDescriptor := mkType (bs name) ty None None None false.
Definition struct_type (name : string) (i : nat) : TypeDescriptor := mkType (bs name) STRUCT None None (Some i) false.
Definition list_type (e : TypeDescriptor) : TypeDescriptor := mkType (bs "list") LIST None (Some e) None false.
Definition map_type (k e : TypeDescriptor) : TypeDescriptor := mkType (bs "map") MAP (Some k) (Some e) None false.

Definition string_type : TypeDescriptor := base_type "string" STRING.
Definition i32_type : TypeDescriptor := base_type "i32" I32.

Definition field (name : string) (id : Z) (required optional : bool) (def : value) (t : TypeDescriptor) (vm : option ValueMapping) :=
  mkField (bs name) [] id required optional def false t vm None.

Definition id_field := field "id" 1 true false VNil (base_type "i64" I64) (Some apiJSConv).
Definition tags_field := field "tags" 2 false true VNil (list_type string_type) None.
Definition scores_field := field "scores" 3 false false VNil (map_type string_type i32_type) None.
Definition note_field := field "note" 4 false true (VStr (bs "none")) string_type None.
Definition parent_field := field "parent" 5 false true VNil (struct_type "Order" 0) None.
Definition kind_field := field "kind" 6 false false VNil (base_type "byte" BYTE) None.
Definition code_field := field "code" 1 false false VNil i32_type None.
Definition req_field := field "req" 1 false false VNil (struct_type "Order" 0) None.
Definition result_field := field "success" 0 false false VNil i32_type None.
Definition e_field := mkField (bs "e") [] 1 false false VNil true (struct_type "Refused" 1) None None.

Abbreviation with_fields l := (foldl (fun d f => add_field false d (fst f) (snd f)) empty_struct l).

Definition Order : StructDescriptor := with_fields
  [(id_field, false); (tags_field, false); (scores_field, false); (note_field, true); (parent_field, false); (kind_field, false)].
Definition Refused : StructDescriptor := with_fields [(code_field, false)].
Definition Put_args : StructDescriptor := with_fields [(req_field, false)].
Definition Put_result : StructDescriptor := with_fields [(result_field, false); (e_field, false)].

Definition table : list StructDescriptor := [Order; Refused; Put_args; Put_result].

Definition Put : FunctionDescriptor := mkFunction (struct_type "args" 2) (struct_type "result" 3) false false.
Definition Orders : gmap text FunctionDescriptor := {[ bs "Put" := Put ]}.

Ltac add_fields :=
  repeat (apply add_field_wf; [|split; [vm_compute; reflexivity|split; [vm_compute; reflexivity|split; [cbn; lia|split; [done|
    intros vm Hvm; simpl in Hvm; first [discriminate|injection Hvm as <-; apply apiJSConv_respectful]]]]]]);
  apply empty_struct_wf.

Lemma table_wf : Forall (wf_struct false) table.
Proof. unfold table, Order, Refused, Put_args, Put_result. cbn [foldl fst snd]. do 4 (constructor; [add_fields|]). constructor. Qed.

(** * A message *)

Definition order_msg : value := VStruct
  [(bs "id", VStr (bs "123")); (bs "tags", VList [VStr (bs "a"); VStr (bs "b")]);
   (bs "scores", VStruct [(bs "x", VNumber (bs "7"))]); (bs "parent", VStruct [(bs "id", VStr (bs "5"))])].

Definition w_plain : writerOption := mkWOpt false.
Definition r_plain : readerOption := mkROpt true true false false 0.

(** What the server reads. *)
Definition order_read : option value := expect_message table false w_plain r_plain 5 Put true order_msg.

Lemma order_read_eq : exists m, order_read = Some (VStruct m) /\ get (bs "id") m = Some (VStr (bs "123")) /\
  get (bs "note") m = Some (VStr (bs "none")) /\ get (bs "kind") m = Some (VI8 0) /\
  get (bs "scores") m = Some (VStruct [(bs "x", VI32 7)]).
Proof. eexists. split; [vm_compute; reflexivity|]. vm_compute. auto. Qed.

Definition order_value : value := Eval vm_compute in default VNil order_read.

Lemma generic_roundtrip_witness :
  exists w' b, Write (W := list byte) (Base := option (gmap text text)) table false backwards Orders w_plain 5 order_msg (bs "Put") true (mkW [] None)
      = (Ok tt, mkW w' None) /\ w' = b /\ delivered (W := list byte) table false backwards r_plain Orders (bs "Put") true order_value b.
Proof.
  destruct (generic_roundtrip (W := list byte) (Base := option (gmap text text)) table false backwards w_plain r_plain table_wf backwards_order
    Orders 5 (bs "Put") Put true order_msg order_value []) as (w' & b & E & Hb & Hd); [vm_compute; reflexivity|vm_compute; reflexivity|].
  exists w', b. split; [exact E|]. split; [exact Hb|exact Hd].
Defined.

(** * Any bytes *)

Lemma scalar_wf name ty : existsb (Z.eqb ty) [LIST; SET; MAP; STRUCT; JSON; VOID] = false -> wf_type table r_plain (base_type name ty).
Proof. simpl. rewrite !orb_false_iff, !Z.eqb_neq. intros Hty. split; [tauto|]. split; tauto. Qed.

Lemma struct_wf name i : is_Some (table !! i) -> wf_type table r_plain (struct_type name i).
Proof. intros Hi. split; [by intros [|]|]. split; [done|]. by intros _. Qed.

Lemma list_wf e : wf_type table r_plain e -> wf_type table r_plain (list_type e).
Proof. intros He. split; [done|]. split; [done|]. by intros [|[|]]. Qed.

Lemma map_wf k e : wf_type table r_plain k -> wf_type table r_plain e -> wf_type table r_plain (map_type k e).
Proof. intros Hk He. split; [by intros [|]|]. split; [done|]. by intros [|[|]]. Qed.

Lemma table_fields : Forall (wf_fields table false r_plain) table.
Proof.
  rewrite Forall_forall. intros sd Hsd. split; [by apply (proj1 (Forall_forall _ _) table_wf)|]. intros id f Hf.
  split; [|done]. assert (Hin : f ∈ [id_field; tags_field; scores_field; note_field; parent_field; kind_field; code_field; req_field; result_field; e_field]).
  { unfold table in Hsd. rewrite !elem_of_cons in Hsd. destruct Hsd as [->|[->|[->|[->|Hsd]]]]; [| | | |by apply not_elem_of_nil in Hsd];
      unfold Order, Refused, Put_args, Put_result in Hf; cbn [foldl fst snd] in Hf; unfold add_field, empty_struct in Hf; cbn [FieldsByID] in Hf;
      repeat (apply lookup_insert_Some in Hf as [[_ <-]|[_ Hf]]; [rewrite !elem_of_cons; tauto|]); by apply lookup_empty_Some in Hf. }
  assert (Hok : Forall (fun f => wf_type table r_plain (f_Type f))
    [id_field; tags_field; scores_field; note_field; parent_field; kind_field; code_field; req_field; result_field; e_field]).
  { pose proof (scalar_wf "string" STRING eq_refl) as Hs. pose proof (scalar_wf "i32" I32 eq_refl) as Hi.
    pose proof (struct_wf "Order" 0 ltac:(by eexists)) as Ho. pose proof (struct_wf "Refused" 1 ltac:(by eexists)) as Hr.
    repeat apply Forall_cons_2; [exact (scalar_wf "i64" I64 eq_refl)|exact (list_wf _ Hs)|exact (map_wf _ _ Hs Hi)|exact Hs|exact Ho
      |exact (scalar_wf "byte" BYTE eq_refl)|exact Hi|exact Ho|exact Hi|exact Hr|constructor]. }
  by apply (proj1 (Forall_forall _ _) Hok).
Qed.

Lemma orders_wf : wf_service table r_plain Orders.
Proof.
  intros method f Hf. unfold Orders in Hf. apply lookup_singleton_Some in Hf as [_ <-].
  split; (split; [apply struct_wf; by eexists|done]).
Qed.

(** A list that announces more items than there are bytes. *)
Definition truncated : list byte := encode (TField STRUCT 1) ++ encode (TField LIST 2) ++ encode (TList STRING 2000000000) ++ encode (TBytes [Zbyte 97]).

Lemma generic_read_total_witness :
  match Read (W := list byte) table false backwards Orders r_plain 30 (bs "Put") false truncated with
  | (Ok v, r') => (length r' <= length truncated)%nat /\ exists f, Orders !! bs "Put" = Some f /\ message_typed table false r_plain f false v
  | (Err e, _) => e <> EFuel
  | (Panic, _) => False
  end.
Proof.
  exact (generic_read_total (W := list byte) table false backwards r_plain table_fields backwards_order Orders (bs "Put") false 30 truncated
    orders_wf (proj1 (Nat.ltb_lt (length truncated) 30) eq_refl)).
Defined.

Lemma truncated_fails : fst (Read (W := list byte) table false backwards Orders r_plain 30 (bs "Put") false truncated) = Err EBuffer.
Proof. vm_compute. reflexivity. Qed.

Definition user_extra : gmap text text := {[ bs "env" := bs "test" ]}.
Definition framework_base : option (gmap text text) := Some {[ bs "env" := bs "prod" ]}.
Definition user_base : list (text * value) := [(bs "Extra", VStruct [(bs "env", VStr (bs "test"))])].

Lemma merge_base_aligned_witness :
  default ∅ (Extra (mergeBaseAny (VStruct user_base) framework_base)) = default ∅ (Extra (MergeBase (Some user_extra) framework_base)).
Proof.
  exact (merge_base_aligned user_base user_extra (Some user_extra) framework_base ltac:(vm_compute; reflexivity) eq_refl).
Defined.

(** * Messages that do not fit *)

Definition write_value (v : value) (t : TypeDescriptor) : outcome gerr unit * list byte :=
  let '(o, s) := getWriterAndWrite (W := list byte) (Base := option (gmap text text)) table false backwards w_plain 5 v t (mkW [] None) in (o, out s).

Definition read_value (opt : readerOption) (fn : reader) (t : TypeDescriptor) (b : list byte) : outcome gerr value :=
  fst (read (W := list byte) table false backwards opt (S (length b)) fn t b).

(** Bytes written to a list<i32> are not read back: each takes one byte, not four. *)
Lemma bytes_into_i32_list :
  fst (write_value (VBytes [Zbyte 1; Zbyte 2]) (list_type i32_type)) = Ok tt /\
  read_value r_plain RdList (list_type i32_type) (snd (write_value (VBytes [Zbyte 1; Zbyte 2]) (list_type i32_type))) = Err EBuffer.
Proof. vm_compute. auto. Qed.

(** A json.Number too large for its type is cut to its low bits; an int64 is refused. *)
Lemma number_truncated :
  write_value (VNumber (bs "300")) (base_type "i8" BYTE) = (Ok tt, [Zbyte 44]) /\
  fst (write_value (VI64 300) (base_type "i8" BYTE)) = Err ERange.
Proof. vm_compute. auto. Qed.

(** The byte 200 is written to an i64 as -56. *)
Lemma byte_sign_extended :
  let b := snd (write_value (VU8 200) (base_type "i64" I64)) in
  fst (write_value (VU8 200) (base_type "i64" I64)) = Ok tt /\ read_value r_plain RdInt64 (base_type "i64" I64) b = Ok (VI64 (-56)).
Proof. vm_compute. auto. Qed.

(** A map with binary keys, read as byte slices, panics. *)
Lemma binary_keys_panic :
  let t := map_type (base_type "binary" STRING) i32_type in
  let b := snd (write_value (VMap [(VStr (bs "k"), VI32 1)]) t) in
  fst (write_value (VMap [(VStr (bs "k"), VI32 1)]) t) = Ok tt /\ read_value (mkROpt false true false true 0) RdMap t b = Panic.
Proof. vm_compute. auto. Qed.

(** An element left nil whose struct has a required field is written as an empty struct,
    which the other side refuses. *)
Lemma nil_struct_refused :
  let t := list_type (struct_type "Order" 0) in
  let b := snd (write_value (VList [VNil]) t) in
  fst (write_value (VList [VNil]) t) = Ok tt /\ read_value r_plain RdList t b = Err (ERequired 1).
Proof. vm_compute. auto. Qed.

(** The nil slice that a field left out is read as cannot be written. *)
Lemma empty_values_not_written :
  readEmptyValue (list_type i32_type) = Ok (VZero (RSlice RInt32)) /\
  fst (write_value (VZero (RSlice RInt32)) (list_type i32_type)) = Err EUnsupported.
Proof. vm_compute. auto. Qed.

(** api.js_conv turns a string that is not a number into 0. *)
Lemma js_conv_not_a_number : vm_Request apiJSConv (VStr (bs "abc")) = inr (VI64 0).
Proof. vm_compute. reflexivity. Qed.
